(* ===== verification/_CoqProject ===== *)
-Q . S2P
Prelude.v
Prog.v
Word.v
Opcode.v
Memory.v
WaitQueue.v
SyncPrimitive.v
Pager.v
Lock.v
Semaphore.v
Barrier.v
Gate.v
Crate.v
Geometry.v
Results.v
Queue.v
Grant.v
Enqueue.v
Release.v
Cancel.v
Relinquish.v
Blocking.v
Async.v
Scenario.v
PagerSpec.v
LockFacts.v
LockSpec.v
Marking.v
QueueSpec.v
SemaphoreSpec.v
FutureSpec.v
WellFormed.v
GateSpec.v
BarrierSpec.v
Defects.v
Interleaving.v
Concurrent.v
Delivery.v
Areas.v
Polling.v
Private.v
Telling.v
Allotment.v
Obtaining.v
Process.v
Releasing.v
Unlinking.v
Withdrawing.v
Patience.v
Paging.v
Locking.v
Crowd.v
MutualExclusion.v
Handshake.v
Handover.v
ReadersWriters.v
Permitting.v
Permits.v
Debug.v
Examples.v
Rendezvous.v
Passage.v
Steering.v
Poisoning.v
Races.v
ExampleTests.v
LockApi.v
LockApiSpec.v
