(* ===== verification/Prelude.v ===== *)
(** * Verification of the [saa] synchronization primitives

    The crate [saa] (source under [src/src/]) provides a shared-exclusive
    lock, a counting semaphore, a barrier and a gate.  Each primitive is one
    [usize]: six bits of data, a flag that locks the wait queue, and the
    address of the newest waiting entry.  Entries live on the stacks of the
    waiting threads and futures and form an intrusive list; there is no
    allocation.  A thread that releases a resource locks the queue, grants
    what it can to the oldest entries, sets their results and wakes their
    owners.

    ** Parts of the model

    Foundations:
    - [Prelude]: Rust's [Result], [usize] arithmetic with its wrap-around,
      shared lemmas, automation and hint databases.
    - [Prog]: the syntax of effectful programs ([Ret], [Act], [Bind], [Loop])
      into which every method is translated.  [run] executes one alone, [step]
      takes one atomic action of it; [wp] is total correctness for [run],
      [diverges] says that no fuel is enough.
    - [Memory]: state words, anchors, entries, parking tokens and woken tasks;
      one [Act] per atomic access of the source.

    Translated source, one file each, definitions under the source's names:
    - [Word]: the constants and masks of a state word ([wait_queue.rs]).
    - [Opcode]: [opcode.rs].
    - [WaitQueue]: [wait_queue.rs]: where the anchor and the entry of a wait
      queue lie, links and iteration, the delivery and consumption of results,
      construction and dropping.
    - [SyncPrimitive]: [sync_primitive.rs]: pushing an entry,
      [process_wait_queue], [release_loop], unlinking an entry, blocking.
    - [Pager]: [pager.rs].
    - [Lock], [Semaphore], [Barrier], [Gate]: [lock.rs], [semaphore.rs],
      [barrier.rs], [gate.rs], synchronous, asynchronous and pager methods.
    - [Crate]: the table of the four [drop_wait_queue_entry] functions.
    - [LockApi]: [lock_api.rs].
    - [Debug]: the three [fmt::Debug] implementations.
    - [Examples]: the tests in [examples/src/examples.rs].

    Reasoning:
    - [Geometry], [Results], [Queue]: addresses, the 16-bit entry state, the
      intrusive list as a list of wait queue addresses.  [Grant.queue_at m self
      l d f os] says that in memory [m] the word at [self] has data [d] and flag
      [l], and that the wait queues [f], oldest first, wait there with the
      operations [os].
    - [Grant], [Enqueue], [Release], [Cancel], [Relinquish]: rules for the
      methods of [SyncPrimitive] against list-level specifications ([grant],
      [granted_data], [processed], [cancelled], [relinquished]).
    - [Blocking], [Async]: executions that go to sleep and are resumed, of
      threads that park and of tasks that are suspended.
    - [Interleaving]: pools of threads, all interleavings, and a step-indexed
      rely-guarantee logic [conforms]; [Concurrent] has its rules for the atomic
      actions, [Delivery] the protocol between the owner of an entry and the
      thread that sets its result, [Areas] wait queues that lie apart, [Polling]
      what clients do with a pager, and futures that are dropped when they have
      been suspended too often, whatever the invariant, [Private]
      wait queues that nobody else knows of (the class [PrivateView]), [Telling]
      a thread that tells the owners of a list of entries one by one, and
      [Crowd] an invariant for queues that are taken as a whole (barrier, gate
      and a lock that is poisoned), by any number of threads at once.
    - [Allotment]: the invariant of a lock or a semaphore under all
      interleavings, for any clients: the entries in the queue, who holds which
      units or has been granted them, who processes the queue and how far, who
      is to tell whom.  [Obtaining] has the steps of those who take units or
      wait for them, what a client may do with the units it holds, and why
      nobody gets stuck; [Process] each step of [process_wait_queue];
      [Releasing] the whole of [process_wait_queue] and [release_loop];
      [Unlinking] each step of a thread that removes its own entry, from
      anywhere in the queue; [Withdrawing] the drop of a wait queue whose owner
      still waits; [Patience] futures of a lock or a semaphore that are dropped
      when they have been suspended too often; [Paging] pagers that are registered, polled and
      dropped; [Locking] and [Permitting] the methods of a lock and of a
      semaphore.
    - [LockFacts], [Scenario]: rules for the lock; concrete memories for the
      witnesses.

    ** Theorems

    - [QueueSpec]: the pointer-level [process_wait_queue] refines the
      list-level [grant]; layout of wait queues and state words and their round
      trips; a result is consumed once, and a pending task is woken.
    - [Marking]: [set_prev_ptr], which stops early, is equivalent to setting
      every back pointer.
    - [WellFormed]: every method of a lock, blocking, asynchronous or through a
      pager, preserves the lock's type.
    - [LockSpec]: releasing hands over to the longest compatible prefix of the
      queue, never breaks exclusion, and leaves nobody waiting in vain;
      waiting, poisoning, giving up; the methods that do not wait never
      overtake those that do.
    - In every interleaving: [MutualExclusion], a counter protected by
      [try_lock], [release_lock], [try_share] and [release_share]; [Handshake],
      the delivery of a result; [ReadersWriters], readers and writers that wait
      for a lock, shared or exclusive, and hand it over; [Handover], the same
      for a counter; [Permits], threads that acquire and release several
      permits of a semaphore; [Rendezvous], threads that meet at a barrier
      again and again; [Passage], threads that wait at a gate; [Steering],
      threads that enter a gate and threads that permit, reject, open, seal and
      reset it, any of them at any time; [Poisoning], threads that poison a lock
      instead of releasing it.  In the last seven each participant is a thread,
      or a task that an executor polls; in [ReadersWriters], [Permits], [Passage], [Steering]
      and [Poisoning] they may wait through pagers, and in the first two and in
      [Steering] drop the futures and pagers they wait on.
    - [FutureSpec]: a future is suspended, then resumed with what it waited
      for or dropped, before or after that was granted: nothing is lost.
    - [SemaphoreSpec], [BarrierSpec], [GateSpec]: conservation of permits and
      their handing over; rendezvous and reset of a barrier; who is released
      from a gate and with which result.
    - [PagerSpec]: the life cycle of a pager, rules for constructing and polling
      it, and the refusals.
    - [LockApiSpec]: [Lock] obeys the laws of a raw mutex while it is not
      poisoned.
    - [Debug]: the debug output determines the state word.
    - [ExampleTests]: the tests of the example program pass.
    - [Defects]: behaviours of the code that its documentation excludes;
      [Races]: an interleaving in which a barrier accesses freed memory.

    ** Conventions and bounds

    A pointer is the [Z] of its address and null is [0]; [self] is the
    address of a primitive's state word, [wq] the address of a wait queue's
    128-byte area, chosen by the caller because it lies in the caller's frame.
    Accessing an address where nothing is allocated is the fault
    [InvalidPointer], a failing [debug_assert!] the fault [AssertionFailed];
    every [wp] excludes both.  Arithmetic wraps at 64 bits, as in a release
    build.

    The source's loops are [Loop]s of the program, without fuel.  [run] takes a
    bound on loop iterations; [wp] states that some bound is enough, so it
    includes termination.  The one finite resource of the model is [weak], the
    list of outcomes of the next [compare_exchange_weak]s: it may make any
    finite number of them fail spuriously.  The theorems hold for every such
    list.

    The theorems of [MutualExclusion], [Handshake], [ReadersWriters], [Handover],
    [Permits], [Rendezvous], [Passage], [Steering] and [Poisoning] are about all
    interleavings of atomic actions.  Liveness is stated there as: when no
    thread can take a step, all have returned; for [Steering], whose gate may
    stay controlled, as: whoever has not returned is queued at the controlled
    gate.  When a task drops its future, or a client its pager, is a parameter
    there: the number of times it may have been suspended, or has polled,
    before.  [Races] gives one interleaving.  Any other theorem describes a
    method run without interference, from a memory left by any other threads.
    Those about waiting threads describe the execution up to the moment the
    thread sleeps, and its continuation in whatever memory the other threads
    leave.

    ** Not modelled

    - Memory orderings: accesses are sequentially consistent, and an access to
      the monitor of an entry, an [UnsafeCell], is one atomic action.
    - Spurious returns of [thread::park]: it returns when the thread has a
      parking token (the tokens there are at the start are arbitrary, and
      [Handshake] has threads that unpark at any time).  Spurious polls: a task
      that is pending is polled again, with the same waker, once that waker has
      been invoked.
    - The [loom] configuration (other layouts, other atomics).
    - [lib.rs] (module declarations only); unit tests, loom models, benchmarks.
    - The formatter of the standard library: [Debug] gives what it is handed.
    - Lifetimes and pinning: a wait queue's area stays where it is while it is
      queued.  Memory maps addresses to whole anchors and entries, so areas
      that overlap partially cannot be expressed.
    - The guards of the [lock_api] crate, values without a representation in
      the shared memory.

    Modelled, but without theorems about all interleavings: a lock whose owners
    both release and poison it; pagers in the waiting modes of a lock that is
    released; and cancellation at a barrier, which is broken, see
    [Defects] and [Races]. *)

From Stdlib Require Export ZArith Lia.
From stdpp Require Export base gmap sets list option.

#[global] Open Scope Z_scope.

#[export] Set Warnings "-clear-no-such-hyp".

(** Rust's [Result]. *)
Inductive Result (A E : Type) : Type :=
| Ok (a : A)
| Err (e : E).

Arguments Ok {A E} a.
Arguments Err {A E} e.

#[global] Instance Result_eq_dec `{EqDecision A, EqDecision E} : EqDecision (Result A E).
Proof. solve_decision. Defined.

(** Width of [usize] and [u64] on the modelled (64-bit) target. *)
Definition usize_modulus : Z := 2 ^ 64.

(** Wrapping [usize] addition. *)
Definition usize_add (x y : Z) : Z := (x + y) mod usize_modulus.

(** Wrapping [usize] subtraction. *)
Definition usize_sub (x y : Z) : Z := (x - y) mod usize_modulus.

(** Bitwise complement at the width of [usize]. *)
Definition usize_not (x : Z) : Z := usize_modulus - 1 - x.

(** Bitwise complement at the width of [u16]. *)
Definition u16_not (x : Z) : Z := 2 ^ 16 - 1 - x.

(** Bitwise complement at the width of [u8]. *)
Definition u8_not (x : Z) : Z := 2 ^ 8 - 1 - x.

(** A value fits [usize]. *)
Definition is_usize (x : Z) : Prop := 0 <= x < usize_modulus.

(** Case analysis on the boolean tests the translated code performs. *)
Ltac case_bool :=
  match goal with
  | |- context [Z.eqb ?x ?y] => destruct (Z.eqb_spec x y)
  | |- context [Z.leb ?x ?y] => destruct (Z.leb_spec x y)
  | |- context [Z.ltb ?x ?y] => destruct (Z.ltb_spec x y)
  | H : context [Z.eqb ?x ?y] |- _ => destruct (Z.eqb_spec x y)
  | H : context [Z.leb ?x ?y] |- _ => destruct (Z.leb_spec x y)
  | H : context [Z.ltb ?x ?y] |- _ => destruct (Z.ltb_spec x y)
  end.

Create HintDb saa discriminated.
Create Rewrite HintDb word.

Lemma usize_modulus_eq : usize_modulus = 18446744073709551616.
Proof. reflexivity. Qed.

Lemma usize_add_small x y :
  0 <= x + y < usize_modulus -> usize_add x y = x + y.
Proof. intros. apply Z.mod_small. done. Qed.

Lemma usize_sub_small x y :
  0 <= x - y < usize_modulus -> usize_sub x y = x - y.
Proof. intros. apply Z.mod_small. done. Qed.

Lemma usize_add_range x y : is_usize (usize_add x y).
Proof. apply Z.mod_pos_bound. done. Qed.

Lemma usize_sub_range x y : is_usize (usize_sub x y).
Proof. apply Z.mod_pos_bound. done. Qed.

(** A conjunction with a block of ones above bit [k], computed by division. *)
Lemma land_high_ones w k n :
  0 <= k -> 0 <= n -> 0 <= w < 2 ^ (k + n) ->
  Z.land w (2 ^ (k + n) - 2 ^ k) = w - w mod 2 ^ k.
Proof.
  intros Hk Hn Hw.
  assert (2 ^ (k + n) - 2 ^ k = Z.shiftl (Z.ones n) k) as ->.
  { rewrite Z.ones_equiv, Z.shiftl_mul_pow2, Z.pow_add_r by lia. lia. }
  assert (w - w mod 2 ^ k = Z.shiftl (Z.shiftr w k) k) as ->.
  { rewrite Z.shiftl_mul_pow2, Z.shiftr_div_pow2 by lia.
    pose proof (Z_div_mod_eq_full w (2 ^ k)). lia. }
  apply Z.bits_inj'. intros i Hi.
  rewrite Z.land_spec, !Z.shiftl_spec by lia.
  destruct (decide (i < k)).
  { rewrite !(Z.testbit_neg_r _ (i - k)) by lia. apply andb_false_r. }
  rewrite Z.shiftr_spec by lia. replace (i - k + k) with i by lia.
  destruct (decide (i < k + n)).
  { rewrite Z.ones_spec_low by lia. apply andb_true_r. }
  rewrite Z.ones_spec_high by lia. rewrite andb_false_r.
  symmetry. destruct (decide (w = 0)) as [->|]; [apply Z.bits_0|].
  apply Z.bits_above_log2; [lia|].
  apply Z.log2_lt_pow2; [lia|].
  eapply Z.lt_le_trans; [apply Hw|]. apply Z.pow_le_mono_r; lia.
Qed.

Lemma land_low_ones w k : 0 <= k -> Z.land w (2 ^ k - 1) = w mod 2 ^ k.
Proof.
  intros. rewrite <- Z.land_ones by lia. f_equal. rewrite Z.ones_equiv. lia.
Qed.

(** Disjoint bit ranges: [lor] is addition. *)
Lemma lor_disjoint_add x y : Z.land x y = 0 -> Z.lor x y = x + y.
Proof.
  intros. rewrite Z.add_nocarry_lxor by done. symmetry.
  apply Z.bits_inj'. intros i Hi.
  rewrite Z.lxor_spec, Z.lor_spec.
  assert (Z.testbit (Z.land x y) i = false) as Hb by (rewrite H; apply Z.bits_0).
  rewrite Z.land_spec in Hb.
  destruct (Z.testbit x i), (Z.testbit y i); done.
Qed.

Lemma NoDup_reverse {A} (l : list A) : NoDup l -> NoDup (reverse l).
Proof. by rewrite reverse_Permutation. Qed.
