(* ===== verification/Prog.v ===== *)
(** * Programs over a shared memory

    The methods of the crate are translated into [prog], a syntax of
    effectful programs: every access to shared memory is one atomic action,
    and the source's loops are loops of the program, so no fuel appears in a
    translated method.  [run] executes a program alone until it returns,
    blocks (a parked thread, a pending future) or faults; [step] is the
    preemptive small-step semantics under which several programs interleave.
    [wp] is the total-correctness logic of [run]; the logic used for
    interleavings is in [Interleaving.v]. *)

From S2P Require Import Prelude.

(** Why an execution is stuck: an invalid pointer is dereferenced (undefined
    behaviour in the source), or an assertion fails (a panic of a debug
    build). *)
Inductive fault : Type :=
| InvalidPointer
| AssertionFailed.

(** Outcome of one atomic action. *)
Inductive outcome (A : Type) : Type :=
| Done (a : A)
| Blocked
| Failed (e : fault).

Arguments Done {A} a.
Arguments Blocked {A}.
Arguments Failed {A} e.

(** Thread identifiers. *)
Abbreviation tid := nat.

Section prog.
  Context {M : Type}.

(** Effectful programs returning an [A]. *)
Inductive prog (A : Type) : Type :=
| Ret (a : A)
| Act (f : tid -> M -> outcome (A * M))
| Bind {B : Type} (p : prog B) (k : B -> prog A)
| Loop {S : Type} (body : S -> prog (S + A)) (s : S).

(** Result of executing a program alone. *)
Inductive result (A : Type) : Type :=
| Returns (a : A) (m : M)
| Waits (p : prog A) (m : M)
| Faults (e : fault)
| OutOfFuel.

End prog.

Arguments prog M A : clear implicits.
Arguments result M A : clear implicits.
Arguments Ret {M A} a.
Arguments Act {M A} f.
Arguments Bind {M A B} p k.
Arguments Loop {M A S} body s.
Arguments Returns {M A} a m.
Arguments Waits {M A} p m.
Arguments Faults {M A} e.
Arguments OutOfFuel {M A}.

Declare Scope prog_scope.
Delimit Scope prog_scope with prog.
Bind Scope prog_scope with prog.

Notation "x <- p ;; q" := (Bind p (fun x => q))
  (at level 100, p at next level, right associativity) : prog_scope.
Notation "'let*' pat ':=' p 'in' q" := (Bind p (fun x => match x with pat => q end))
  (at level 100, pat pattern, p at level 100, q at level 200, right associativity) : prog_scope.
Notation "p ;;; q" := (Bind p (fun _ => q))
  (at level 100, q at level 200, right associativity) : prog_scope.

#[global] Open Scope prog_scope.

(** What follows one iteration of a loop. *)
Definition after_body {M A S} (body : S -> prog M (S + A)) (r : S + A) : prog M A :=
  match r with
  | inl s => Loop body s
  | inr a => Ret a
  end.

(** Executes a program alone; [n] bounds the nesting and number of loop
    iterations. *)
Fixpoint run {M} (n : nat) (t : tid) : forall {A}, prog M A -> M -> result M A :=
  fix go {A} (p : prog M A) (m : M) {struct p} : result M A :=
    match p with
    | Ret a => Returns a m
    | Act f =>
        match f t m with
        | Done (a, m') => Returns a m'
        | Blocked => Waits (Act f) m
        | Failed e => Faults e
        end
    | Bind q k =>
        match go q m with
        | Returns b m' => go (k b) m'
        | Waits q' m' => Waits (Bind q' k) m'
        | Faults e => Faults e
        | OutOfFuel => OutOfFuel
        end
    | Loop body s =>
        match n with
        | O => OutOfFuel
        | S n' =>
            match run n' t (body s) m with
            | Returns (inl s') m' => run n' t (Loop body s') m'
            | Returns (inr a) m' => Returns a m'
            | Waits q' m' => Waits (Bind q' (after_body body)) m'
            | Faults e => Faults e
            | OutOfFuel => OutOfFuel
            end
        end
    end.

(** One step of a program under preemption. *)
Inductive stepped (M A : Type) : Type :=
| SDone (a : A)
| SStep (p : prog M A) (m : M)
| SBlocked
| SFault (e : fault).

Arguments SDone {M A} a.
Arguments SStep {M A} p m.
Arguments SBlocked {M A}.
Arguments SFault {M A} e.

(** Executes the next atomic action of a program; unrolling a loop is a step
    of its own. *)
Fixpoint step {M A} (t : tid) (p : prog M A) (m : M) {struct p} : stepped M A :=
  match p with
  | Ret a => SDone a
  | Act f =>
      match f t m with
      | Done (a, m') => SStep (Ret a) m'
      | Blocked => SBlocked
      | Failed e => SFault e
      end
  | Bind q k =>
      match step t q m with
      | SDone b => step t (k b) m
      | SStep q' m' => SStep (Bind q' k) m'
      | SBlocked => SBlocked
      | SFault e => SFault e
      end
  | Loop body s => SStep (Bind (body s) (after_body body)) m
  end.

(** A program that asserts its argument, as [debug_assert!] does. *)
Definition debug_assert {M} (b : bool) : prog M unit :=
  Act (fun _ m => if b then Done (tt, m) else Failed AssertionFailed).

(** [std::thread::yield_now]. *)
Definition yield_now {M} : prog M unit :=
  Act (fun _ m => Done (tt, m)).

(** The sequential program logic: [p] alone runs, from [m], to a result
    satisfying [Q]; running out of fuel never satisfies it. *)
Definition wpr {M A} (t : tid) (p : prog M A) (m : M) (Q : result M A -> Prop) : Prop :=
  exists n, run n t p m <> OutOfFuel /\ Q (run n t p m).

(** Postconditions of executions that return. *)
Definition returns {M A} (Q : A -> M -> Prop) (r : result M A) : Prop :=
  match r with
  | Returns a m => Q a m
  | _ => False
  end.

(** Postconditions of executions that block. *)
Definition waits {M A} (Q : M -> Prop) (r : result M A) : Prop :=
  match r with
  | Waits _ m => Q m
  | _ => False
  end.

(** Total correctness: [p] returns, and [Q] holds of the value and memory. *)
Definition wp {M A} (t : tid) (p : prog M A) (m : M) (Q : A -> M -> Prop) : Prop :=
  wpr t p m (returns Q).

(** [p] runs for ever: no amount of fuel is enough. *)
Definition diverges {M A} (t : tid) (p : prog M A) (m : M) : Prop :=
  forall n, run n t p m = OutOfFuel.

Lemma run_bind {M A B} n t (p : prog M B) (k : B -> prog M A) m :
  run n t (Bind p k) m =
  match run n t p m with
  | Returns b m' => run n t (k b) m'
  | Waits q' m' => Waits (Bind q' k) m'
  | Faults e => Faults e
  | OutOfFuel => OutOfFuel
  end.
Proof. destruct n; reflexivity. Qed.

Lemma run_ret {M A} n t (a : A) (m : M) : run n t (Ret a) m = Returns a m.
Proof. destruct n; reflexivity. Qed.

Lemma run_act {M A} n t (f : tid -> M -> outcome (A * M)) m :
  run n t (Act f) m =
  match f t m with
  | Done (a, m') => Returns a m'
  | Blocked => Waits (Act f) m
  | Failed e => Faults e
  end.
Proof. destruct n; reflexivity. Qed.

Lemma run_loop {M A S} n t (body : S -> prog M (S + A)) s m :
  run (Datatypes.S n) t (Loop body s) m =
  match run n t (body s) m with
  | Returns (inl s') m' => run n t (Loop body s') m'
  | Returns (inr a) m' => Returns a m'
  | Waits q' m' => Waits (Bind q' (after_body body)) m'
  | Faults e => Faults e
  | OutOfFuel => OutOfFuel
  end.
Proof. reflexivity. Qed.

(** More fuel never changes a result. *)
Lemma run_mono {M A} t (p : prog M A) m n n' :
  (n <= n')%nat -> run n t p m <> OutOfFuel -> run n' t p m = run n t p m.
Proof.
  revert A p m n'. induction n as [n IHn] using lt_wf_ind.
  intros A p. induction p as [A a|A f|A B q IHq k IHk|A S body IHbody s];
    intros m n' Hle Hne.
  - by rewrite !run_ret.
  - by rewrite !run_act.
  - rewrite !run_bind in *.
    destruct (run n t q m) eqn:E; try done;
      rewrite (IHq m n') by (rewrite ?E; done); rewrite E; try done.
    by apply IHk.
  - destruct n as [|n]; [done|]. destruct n' as [|n']; [lia|].
    rewrite !run_loop in *.
    assert (run n t (body s) m <> OutOfFuel) as Hb by (intros E; by rewrite E in Hne).
    rewrite (IHn n) by (lia || done).
    destruct (run n t (body s) m) as [[s'|a] m'| | |]; try done.
    apply IHn; [lia..|done].
Qed.

(** Executions are deterministic: the result does not depend on the fuel. *)
Lemma run_det {M A} t (p : prog M A) m n n' :
  run n t p m <> OutOfFuel -> run n' t p m <> OutOfFuel -> run n t p m = run n' t p m.
Proof.
  intros. destruct (decide (n <= n')%nat).
  - symmetry. by apply run_mono.
  - apply run_mono; [lia|done].
Qed.

Section wp_rules.
  Context {M : Type} (t : tid).

Lemma wpr_mono {A} (p : prog M A) m (Q Q' : result M A -> Prop) :
  wpr t p m Q -> (forall r, Q r -> Q' r) -> wpr t p m Q'.
Proof. intros (n & Hne & HQ) Himp. exists n. eauto. Qed.

Lemma wp_mono {A} (p : prog M A) m (Q Q' : A -> M -> Prop) :
  wp t p m Q -> (forall a m', Q a m' -> Q' a m') -> wp t p m Q'.
Proof.
  intros H Himp. eapply wpr_mono; [done|]. intros []; simpl; eauto.
Qed.

Lemma wpr_ret {A} (a : A) m (Q : result M A -> Prop) :
  Q (Returns a m) -> wpr t (Ret a) m Q.
Proof. intros. exists O. by rewrite run_ret. Qed.

Lemma wpr_act {A} (f : tid -> M -> outcome (A * M)) m a m' (Q : result M A -> Prop) :
  f t m = Done (a, m') -> Q (Returns a m') -> wpr t (Act f) m Q.
Proof. intros E H. exists O. by rewrite run_act, E. Qed.

Lemma wpr_act_blocked {A} (f : tid -> M -> outcome (A * M)) m (Q : result M A -> Prop) :
  f t m = Blocked -> Q (Waits (Act f) m) -> wpr t (Act f) m Q.
Proof. intros E H. exists O. by rewrite run_act, E. Qed.

Lemma wpr_act_failed {A} (f : tid -> M -> outcome (A * M)) m e (Q : result M A -> Prop) :
  f t m = Failed e -> Q (Faults e) -> wpr t (Act f) m Q.
Proof. intros E H. exists O. by rewrite run_act, E. Qed.

(** The general rule for sequencing. *)
Lemma wpr_bind {A B} (p : prog M B) (k : B -> prog M A) m (Q : result M A -> Prop) :
  wpr t p m (fun r =>
    match r with
    | Returns b m' => wpr t (k b) m' Q
    | Waits q m' => Q (Waits (Bind q k) m')
    | Faults e => Q (Faults e)
    | OutOfFuel => False
    end) ->
  wpr t (Bind p k) m Q.
Proof.
  intros (n & Hne & HQ). destruct (run n t p m) as [b m'|q m'|e|] eqn:E; try done.
  - destruct HQ as (n' & Hne' & HQ). exists (Nat.max n n').
    rewrite run_bind, (run_mono _ _ _ n) by (lia || by rewrite E).
    rewrite E, (run_mono _ _ _ n') by (lia || done). done.
  - exists n. by rewrite run_bind, E.
  - exists n. by rewrite run_bind, E.
Qed.

(** The general rule for one iteration of a loop. *)
Lemma wpr_loop {A S} (body : S -> prog M (S + A)) s m (Q : result M A -> Prop) :
  wpr t (body s) m (fun r =>
    match r with
    | Returns (inl s') m' => wpr t (Loop body s') m' Q
    | Returns (inr a) m' => Q (Returns a m')
    | Waits q m' => Q (Waits (Bind q (after_body body)) m')
    | Faults e => Q (Faults e)
    | OutOfFuel => False
    end) ->
  wpr t (Loop body s) m Q.
Proof.
  intros (n & Hne & HQ).
  destruct (run n t (body s) m) as [[s'|a] m'|q m'|e|] eqn:E; try done.
  - destruct HQ as (n' & Hne' & HQ). exists (Datatypes.S (Nat.max n n')).
    rewrite run_loop, (run_mono _ _ _ n) by (lia || by rewrite E).
    rewrite E, (run_mono _ _ _ n') by (lia || done). done.
  - exists (Datatypes.S n). by rewrite run_loop, E.
  - exists (Datatypes.S n). by rewrite run_loop, E.
  - exists (Datatypes.S n). by rewrite run_loop, E.
Qed.

Lemma wp_ret {A} (a : A) m (Q : A -> M -> Prop) : Q a m -> wp t (Ret a) m Q.
Proof. intros. by apply wpr_ret. Qed.

Lemma wp_act {A} (f : tid -> M -> outcome (A * M)) m a m' (Q : A -> M -> Prop) :
  f t m = Done (a, m') -> Q a m' -> wp t (Act f) m Q.
Proof. intros. by eapply wpr_act. Qed.

Lemma wp_bind {A B} (p : prog M B) (k : B -> prog M A) m (Q : A -> M -> Prop) :
  wp t p m (fun b m' => wp t (k b) m' Q) -> wp t (Bind p k) m Q.
Proof.
  intros H. apply wpr_bind. eapply wpr_mono; [done|]. intros []; simpl; done.
Qed.

Lemma wp_loop {A S} (body : S -> prog M (S + A)) s m (Q : A -> M -> Prop) :
  wp t (body s) m (fun r m' =>
    match r with
    | inl s' => wp t (Loop body s') m' Q
    | inr a => Q a m'
    end) ->
  wp t (Loop body s) m Q.
Proof.
  intros H. apply wpr_loop. eapply wpr_mono; [done|].
  intros [[] | | |]; simpl; done.
Qed.

(** A returning prefix of a program whose tail is analysed by [wpr]. *)
Lemma wpr_bind_wp {A B} (p : prog M B) (k : B -> prog M A) m (Q : result M A -> Prop) :
  wp t p m (fun b m' => wpr t (k b) m' Q) -> wpr t (Bind p k) m Q.
Proof.
  intros H. apply wpr_bind. eapply wpr_mono; [done|]. intros []; simpl; done.
Qed.

Lemma wpr_loop_wp {A S} (body : S -> prog M (S + A)) s m (Q : result M A -> Prop) :
  wp t (body s) m (fun r m' =>
    match r with
    | inl s' => wpr t (Loop body s') m' Q
    | inr a => Q (Returns a m')
    end) ->
  wpr t (Loop body s) m Q.
Proof.
  intros H. apply wpr_loop. eapply wpr_mono; [done|].
  intros [[] | | |]; simpl; done.
Qed.

Lemma wp_debug_assert b m (Q : unit -> M -> Prop) :
  b = true -> Q tt m -> wp t (debug_assert b) m Q.
Proof. intros -> HQ. by eapply wp_act. Qed.

Lemma wp_yield_now m (Q : unit -> M -> Prop) : Q tt m -> wp t yield_now m Q.
Proof. intros. by eapply wp_act. Qed.

(** A loop every state of which, under an invariant, comes back to the
    invariant without returning runs for ever. *)
Lemma loop_diverges {A S} (body : S -> prog M (S + A)) (I : S -> M -> Prop) s m :
  (forall s m, I s m -> wp t (body s) m (fun r m' => exists s', r = inl s' /\ I s' m')) ->
  I s m -> diverges t (Loop body s) m.
Proof.
  intros Hstep HI n. revert s m HI. induction n as [|n IH]; intros s m HI; [done|].
  rewrite run_loop. destruct (Hstep s m HI) as (n' & Hne & HQ).
  destruct (run n t (body s) m) as [r m'|q m'|e|] eqn:E; [..|done];
    rewrite (run_det _ _ _ n' n) in HQ by (done || by rewrite E);
    rewrite E in HQ; simpl in HQ; try done.
  destruct HQ as (s' & -> & HI'). by apply IH.
Qed.

Lemma bind_diverges {A B} (p : prog M B) (k : B -> prog M A) m :
  diverges t p m -> diverges t (Bind p k) m.
Proof. intros H n. by rewrite run_bind, H. Qed.

(** A returning prefix followed by a diverging tail. *)
Lemma bind_diverges_r {A B} (p : prog M B) (k : B -> prog M A) m :
  wp t p m (fun b m' => diverges t (k b) m') -> diverges t (Bind p k) m.
Proof.
  intros (n' & Hne & HQ) n. rewrite run_bind.
  destruct (run n t p m) as [b m'|q m'|e|] eqn:E; [..|done];
    rewrite (run_det _ _ _ n' n) in HQ by (done || by rewrite E);
    rewrite E in HQ; simpl in HQ; try done.
Qed.

(** [wp] pins the result down: it holds of every sufficiently fuelled run. *)
Lemma wp_run {A} (p : prog M A) m (Q : A -> M -> Prop) :
  wp t p m Q -> exists n a m', run n t p m = Returns a m' /\ Q a m'.
Proof.
  intros (n & Hne & HQ). exists n.
  destruct (run n t p m) as [a m'| | |]; simpl in HQ; try done. eauto.
Qed.

End wp_rules.
