(* ===== verification/Word.v ===== *)
(** * The state word

    Every primitive of the crate keeps its whole state in one [usize]: the
    address of the anchor of the newest waiting entry, a flag set while a
    thread processes the wait queue, and six bits of data owned by the
    primitive.  This file holds the constants of [src/wait_queue.rs] and the
    algebra of that layout. *)

From S2P Require Import Prelude.

(** Virtual alignment of the wait queue. *)
Definition VIRTUAL_ALIGNMENT : Z := 128.

(** Indicates that the wait queue is being processed by a thread. *)
Definition LOCKED_FLAG : Z := Z.shiftr VIRTUAL_ALIGNMENT 1.

(** Mask of the data tagged with the wait queue address. *)
Definition DATA_MASK : Z := LOCKED_FLAG - 1.

(** Mask of the address part of a state. *)
Definition ADDR_MASK : Z := usize_not (Z.lor LOCKED_FLAG DATA_MASK).

(** [WaitQueue::to_anchor_ptr]; the null pointer is [0]. *)
Definition to_anchor_ptr (state : Z) : Z :=
  let anchor_addr := Z.land state ADDR_MASK in
  if anchor_addr =? 0 then 0 else anchor_addr.

(** The word with address part [a], processing flag [l] and data [d]. *)
Definition word (a : Z) (l : bool) (d : Z) : Z :=
  a + (if l then LOCKED_FLAG else 0) + d.

(** Address parts are multiples of the virtual alignment that fit [usize]. *)
Definition is_addr (a : Z) : Prop :=
  0 <= a < usize_modulus /\ a mod VIRTUAL_ALIGNMENT = 0.

(** Data parts fit six bits. *)
Definition is_data (d : Z) : Prop := 0 <= d <= DATA_MASK.

(** The flag and the data together. *)
Definition is_low (d : Z) : Prop := 0 <= d < VIRTUAL_ALIGNMENT.

#[global] Instance is_addr_dec a : Decision (is_addr a).
Proof. unfold is_addr. apply _. Defined.

#[global] Instance is_data_dec d : Decision (is_data d).
Proof. unfold is_data. apply _. Defined.

Lemma LOCKED_FLAG_eq : LOCKED_FLAG = 64.
Proof. reflexivity. Qed.

Lemma DATA_MASK_eq : DATA_MASK = 63.
Proof. reflexivity. Qed.

(** Replaces the layout constants by their values. *)
Ltac unfold_masks := rewrite ?DATA_MASK_eq, ?LOCKED_FLAG_eq in *.

Lemma addr_div a : is_addr a -> exists k, a = 128 * k /\ 0 <= k < 2 ^ 57.
Proof.
  intros [Hr Hm]. exists (a / 128). unfold usize_modulus, VIRTUAL_ALIGNMENT in *.
  pose proof (Z_div_mod_eq_full a 128). split; [lia|].
  split; [apply Z.div_pos; lia|]. apply Z.div_lt_upper_bound; lia.
Qed.

Lemma is_addr_0 : is_addr 0.
Proof. done. Qed.

Lemma word_range a l d : is_addr a -> is_data d -> is_usize (word a l d).
Proof.
  intros (k & -> & Hk)%addr_div Hd.
  unfold is_usize, usize_modulus, word, is_data in *. unfold_masks. destruct l; lia.
Qed.

Lemma word_land_data a l d :
  is_addr a -> is_data d -> Z.land (word a l d) DATA_MASK = d.
Proof.
  intros (k & -> & Hk)%addr_div Hd.
  unfold word, is_data in *. unfold_masks.
  change 63 with (2 ^ 6 - 1). rewrite land_low_ones by lia.
  replace (128 * k + (if l then 64 else 0) + d)
    with (d + (2 * k + (if l then 1 else 0)) * 2 ^ 6) by (destruct l; lia).
  rewrite Z_mod_plus_full. apply Z.mod_small. lia.
Qed.

Lemma word_land_addr a l d :
  is_addr a -> is_data d -> Z.land (word a l d) ADDR_MASK = a.
Proof.
  intros Ha Hd. pose proof (word_range a l d Ha Hd) as Hw.
  apply addr_div in Ha as (k & -> & Hk).
  change ADDR_MASK with (2 ^ (7 + 57) - 2 ^ 7).
  rewrite land_high_ones by (lia || exact Hw).
  unfold word, is_data in *. unfold_masks. change (2 ^ 7) with 128.
  assert ((128 * k + (if l then 64 else 0) + d) mod 128 = (if l then 64 else 0) + d) as ->.
  { replace (128 * k + (if l then 64 else 0) + d)
      with (((if l then 64 else 0) + d) + k * 128) by lia.
    rewrite Z_mod_plus_full. apply Z.mod_small. destruct l; lia. }
  lia.
Qed.

Lemma word_land_locked a l d :
  is_addr a -> is_data d ->
  Z.land (word a l d) LOCKED_FLAG = if l then LOCKED_FLAG else 0.
Proof.
  intros (k & -> & Hk)%addr_div Hd.
  unfold word, is_data in *. unfold_masks.
  apply Z.bits_inj'. intros i Hi. rewrite Z.land_spec.
  change 64 with (2 ^ 6). rewrite Z.pow2_bits_eqb by lia.
  case_bool; [subst i|].
  - rewrite andb_true_r, Z.testbit_eqb by lia.
    replace ((128 * k + (if l then 2 ^ 6 else 0) + d) / 2 ^ 6)
      with ((if l then 1 else 0) + k * 2).
    + rewrite Z_mod_plus_full. destruct l; [|by rewrite Z.bits_0].
      rewrite Z.pow2_bits_eqb by lia. done.
    + symmetry. replace (128 * k + (if l then 2 ^ 6 else 0) + d)
        with (d + ((if l then 1 else 0) + k * 2) * 2 ^ 6) by (destruct l; lia).
      rewrite Z.div_add by lia. rewrite Z.div_small by lia. lia.
  - rewrite andb_false_r. destruct l; [|by rewrite Z.bits_0].
    change 64 with (2 ^ 6). rewrite Z.pow2_bits_eqb by lia. by case_bool.
Qed.

Lemma word_to_anchor_ptr a l d :
  is_addr a -> is_data d -> to_anchor_ptr (word a l d) = a.
Proof.
  intros. unfold to_anchor_ptr. rewrite word_land_addr by done. by case_bool.
Qed.

Lemma land_word_data_unit d : is_data d -> Z.land d DATA_MASK = d.
Proof.
  intros. pose proof (word_land_data 0 false d is_addr_0) as E.
  unfold word in E. rewrite !Z.add_0_l in E. auto.
Qed.

(** Every [usize] decomposes. *)
Lemma word_decompose w :
  is_usize w -> exists a l d, w = word a l d /\ is_addr a /\ is_data d.
Proof.
  unfold is_usize. intros Hw.
  exists (w - w mod 128), (bool_decide (64 <= w mod 128)), (w mod 64).
  unfold word, is_addr, is_data, VIRTUAL_ALIGNMENT, usize_modulus in *. unfold_masks.
  pose proof (Z_div_mod_eq_full w 128). pose proof (Z.mod_pos_bound w 128 ltac:(lia)).
  pose proof (Z.mod_pos_bound w 64 ltac:(lia)).
  assert (0 <= w / 128) by (apply Z.div_pos; lia).
  split; [|repeat split; try lia].
  - pose proof (Z_div_mod_eq_full w 64).
    assert (w mod 64 = (w mod 128) mod 64) as ->.
    { rewrite (Z_div_mod_eq_full w 128) at 1.
      replace (128 * (w / 128) + w mod 128) with (w mod 128 + (2 * (w / 128)) * 64) by lia.
      apply Z_mod_plus_full. }
    case_bool_decide.
    + replace ((w mod 128) mod 64) with (w mod 128 - 64); [lia|].
      apply Z.mod_unique with 1; lia.
    + rewrite (Z.mod_small (w mod 128) 64); lia.
  - replace (w - w mod 128) with ((w / 128) * 128) by lia. apply Z_mod_mult.
Qed.

(** Setting the processing flag. *)
Lemma word_lor_locked a l d :
  is_addr a -> is_data d -> Z.lor (word a l d) LOCKED_FLAG = word a true d.
Proof.
  intros Ha Hd. destruct l.
  - pose proof (word_land_locked a true d Ha Hd) as E. simpl in E.
    rewrite <- E at 1. apply Z.bits_inj'. intros i Hi.
    rewrite Z.lor_spec, Z.land_spec. by destruct (Z.testbit _ i).
  - rewrite lor_disjoint_add by (by rewrite word_land_locked). unfold word. lia.
Qed.

(** The part of a state that is not an address. *)
Lemma word_land_not_addr a l d :
  is_addr a -> is_data d ->
  Z.land (word a l d) (usize_not ADDR_MASK) = word 0 l d.
Proof.
  intros Ha Hd. change (usize_not ADDR_MASK) with (2 ^ 7 - 1).
  rewrite land_low_ones by lia. apply addr_div in Ha as (k & -> & Hk).
  unfold word, is_data in *. unfold_masks.
  replace (128 * k + (if l then 64 else 0) + d)
    with (((if l then 64 else 0) + d) + k * 128) by lia.
  change (2 ^ 7) with 128.
  rewrite Z_mod_plus_full. apply Z.mod_small. destruct l; lia.
Qed.

(** An anchor address has no bit outside the address mask. *)
Lemma addr_land_not_addr a : is_addr a -> Z.land a (usize_not ADDR_MASK) = 0.
Proof.
  intros Ha. pose proof (word_land_not_addr a false 0 Ha ltac:(done)) as E.
  unfold word in E. rewrite !Z.add_0_r in E. done.
Qed.

(** Storing an anchor address in a state whose address part is cleared. *)
Lemma word_lor_addr a l d :
  is_addr a -> is_data d -> Z.lor (word 0 l d) a = word a l d.
Proof.
  intros Ha Hd. rewrite lor_disjoint_add; [unfold word; lia|].
  rewrite <- (word_land_not_addr a l d) by done.
  rewrite <- Z.land_assoc, (Z.land_comm _ a), (addr_land_not_addr a) by done.
  apply Z.land_0_r.
Qed.

Lemma word_lor_data a d :
  is_addr a -> is_data d -> Z.lor a d = word a false d.
Proof.
  intros Ha Hd. rewrite Z.lor_comm, <- word_lor_addr by done. done.
Qed.

Lemma word_inj a l d a' l' d' :
  is_addr a -> is_data d -> is_addr a' -> is_data d' ->
  word a l d = word a' l' d' -> a = a' /\ l = l' /\ d = d'.
Proof.
  intros Ha Hd Ha' Hd' E.
  assert (a = a') by (by rewrite <- (word_land_addr a l d), E, word_land_addr).
  assert (d = d') by (by rewrite <- (word_land_data a l d), E, word_land_data).
  subst. split; [done|]. split; [|done].
  unfold word in E. unfold_masks. destruct l, l'; (done || lia).
Qed.

Lemma data_low d : is_data d -> is_low d.
Proof. unfold is_data, is_low, VIRTUAL_ALIGNMENT. unfold_masks. lia. Qed.

Lemma low_word_inj a d a' d' :
  is_addr a -> is_low d -> is_addr a' -> is_low d' -> word a false d = word a' false d' -> a = a' /\ d = d'.
Proof.
  intros (k & -> & _)%addr_div Hd (k' & -> & _)%addr_div Hd'. unfold is_low, VIRTUAL_ALIGNMENT, word in *. lia.
Qed.

#[export] Hint Resolve is_addr_0 : saa.
#[export] Hint Rewrite word_land_data word_land_addr word_land_locked
  word_to_anchor_ptr word_lor_locked word_land_not_addr word_lor_addr using done : word.
