(* ===== verification/Opcode.v ===== *)
(** * Operation types

    [src/opcode.rs]: what a waiting entry asks for, and how many units of the
    state word's data an operation needs and holds. *)

From S2P Require Import Prelude Word.

(** [enum Opcode]; the [u8] payloads are integers. *)
Inductive Opcode : Type :=
| Exclusive
| Shared
| BarrierOp (wait_only : bool)
| SemaphoreOp (count : Z)
| Wait (count : Z).

#[global] Instance Opcode_eq_dec : EqDecision Opcode.
Proof. solve_decision. Defined.

(** Checks if the resource expressed by the opcode can be released from
    [state]. *)
Definition can_release (self : Opcode) (state : Z) : bool :=
  match self with
  | Exclusive =>
      let data := Z.land state DATA_MASK in
      data =? DATA_MASK
  | Shared =>
      let data := Z.land state DATA_MASK in
      (1 <=? data) && negb (data =? DATA_MASK)
  | SemaphoreOp count =>
      let data := Z.land state DATA_MASK in
      count <=? data
  | BarrierOp _ | Wait _ => true
  end.

(** The amount of resources the operation desires. *)
Definition desired_count (self : Opcode) : Z :=
  match self with
  | Exclusive => DATA_MASK
  | Shared => 1
  | BarrierOp wait_only => if wait_only then 0 else 1
  | SemaphoreOp count | Wait count => count
  end.

(** The amount of resources the operation holds once it succeeded. *)
Definition acquired_count (self : Opcode) : Z :=
  match self with
  | Exclusive => DATA_MASK
  | Shared => 1
  | SemaphoreOp count => count
  | BarrierOp _ | Wait _ => 0
  end.

(** The [debug_assert!] of [desired_count] and [acquired_count], and the range
    of the [u8] payload. *)
Definition opcode_ok (self : Opcode) : bool :=
  match self with
  | SemaphoreOp count | Wait count => (0 <=? count) && (count <? LOCKED_FLAG)
  | _ => true
  end.

Lemma acquired_count_range o : opcode_ok o = true -> is_data (acquired_count o).
Proof.
  unfold is_data. destruct o; simpl; intros; try done;
    repeat case_bool; simpl in *; try done; unfold_masks; lia.
Qed.

Lemma desired_count_range o : opcode_ok o = true -> is_data (desired_count o).
Proof.
  unfold is_data. destruct o as [| |[]| |]; simpl; intros; try done;
    repeat case_bool; simpl in *; try done; unfold_masks; lia.
Qed.

(** The assertion [acquired <= desired] of the wait queue processor. *)
Lemma acquired_le_desired o : opcode_ok o = true -> acquired_count o <= desired_count o.
Proof.
  destruct o as [| |[]| |]; simpl; intros; try lia; repeat case_bool; done.
Qed.

(** What [can_release] tests on a decomposed state. *)
Lemma can_release_word o a l d :
  is_addr a -> is_data d -> opcode_ok o = true -> can_release o (word a l d) = true ->
  0 <= d - acquired_count o.
Proof.
  intros Ha Hd Hok H. unfold is_data in Hd.
  destruct o; simpl in *; rewrite ?word_land_data in H by done;
    repeat case_bool; simpl in *; done || lia.
Qed.
