(* ===== verification/Memory.v ===== *)
(** * Shared memory and atomic accesses

    The memory the crate's threads share: the state words of the primitives,
    the wait queues living on the stacks of waiting threads (an anchor cell
    and an entry each), the parking tokens of threads and the set of woken
    tasks.  Each access of the source to an atomic (or to an [UnsafeCell]
    protected by one) is one action.  Accesses are sequentially consistent:
    the memory orderings of the source are not modelled.

    [compare_exchange_weak] may fail spuriously; which attempts do is decided
    by the oracle [weak], a finite list consumed one element per attempt. *)

From S2P Require Import Prelude Prog Word Opcode.

(** The primitives of the crate: an entry's [drop_callback] is the
    [drop_wait_queue_entry] of one of them. *)
Inductive Primitive : Type :=
| Lock
| Semaphore
| Barrier
| Gate.

#[global] Instance Primitive_eq_dec : EqDecision Primitive.
Proof. solve_decision. Defined.

(** Tasks are identified by their wakers. *)
Abbreviation Waker := nat.

(** [enum Monitor]: who is to be told about the result. *)
Inductive Monitor : Type :=
| Async (waker : option Waker)
| Sync (thread : option tid).

#[global] Instance Monitor_eq_dec : EqDecision Monitor.
Proof. solve_decision. Defined.

(** [struct Entry] of [src/wait_queue.rs]; the null pointer is [0]. *)
Record Entry : Type := mkEntry {
  e_next_entry_anchor_ptr : Z;
  e_prev_entry_ptr : Z;
  e_opcode : Opcode;
  e_state : Z;
  e_pollable : bool;
  e_monitor : Monitor;
  e_drop_callback : Primitive;
  e_addr : Z;
  e_offset : Z;
}.

#[global] Instance Entry_eq_dec : EqDecision Entry.
Proof. solve_decision. Defined.

Definition set_next (v : Z) (e : Entry) : Entry :=
  mkEntry v (e_prev_entry_ptr e) (e_opcode e) (e_state e) (e_pollable e)
    (e_monitor e) (e_drop_callback e) (e_addr e) (e_offset e).

Definition set_prev (v : Z) (e : Entry) : Entry :=
  mkEntry (e_next_entry_anchor_ptr e) v (e_opcode e) (e_state e) (e_pollable e)
    (e_monitor e) (e_drop_callback e) (e_addr e) (e_offset e).

Definition set_opcode (v : Opcode) (e : Entry) : Entry :=
  mkEntry (e_next_entry_anchor_ptr e) (e_prev_entry_ptr e) v (e_state e)
    (e_pollable e) (e_monitor e) (e_drop_callback e) (e_addr e) (e_offset e).

Definition set_state (v : Z) (e : Entry) : Entry :=
  mkEntry (e_next_entry_anchor_ptr e) (e_prev_entry_ptr e) (e_opcode e) v
    (e_pollable e) (e_monitor e) (e_drop_callback e) (e_addr e) (e_offset e).

Definition set_poll (v : bool) (e : Entry) : Entry :=
  mkEntry (e_next_entry_anchor_ptr e) (e_prev_entry_ptr e) (e_opcode e)
    (e_state e) v (e_monitor e) (e_drop_callback e) (e_addr e) (e_offset e).

Definition set_monitor (v : Monitor) (e : Entry) : Entry :=
  mkEntry (e_next_entry_anchor_ptr e) (e_prev_entry_ptr e) (e_opcode e)
    (e_state e) (e_pollable e) v (e_drop_callback e) (e_addr e) (e_offset e).

Definition set_addr (v : Z) (e : Entry) : Entry :=
  mkEntry (e_next_entry_anchor_ptr e) (e_prev_entry_ptr e) (e_opcode e)
    (e_state e) (e_pollable e) (e_monitor e) (e_drop_callback e) v (e_offset e).

(** The shared memory. *)
Record mem : Type := mkMem {
  words : gmap Z Z;
  anchors : gmap Z Z;
  entries : gmap Z Entry;
  tokens : gset tid;
  woken : gset Waker;
  weak : list bool;
}.

Definition set_words (v : gmap Z Z) (m : mem) : mem :=
  mkMem v (anchors m) (entries m) (tokens m) (woken m) (weak m).

Definition set_anchors (v : gmap Z Z) (m : mem) : mem :=
  mkMem (words m) v (entries m) (tokens m) (woken m) (weak m).

Definition set_entries (v : gmap Z Entry) (m : mem) : mem :=
  mkMem (words m) (anchors m) v (tokens m) (woken m) (weak m).

Definition set_tokens (v : gset tid) (m : mem) : mem :=
  mkMem (words m) (anchors m) (entries m) v (woken m) (weak m).

Definition set_woken (v : gset Waker) (m : mem) : mem :=
  mkMem (words m) (anchors m) (entries m) (tokens m) v (weak m).

Definition set_weak (v : list bool) (m : mem) : mem :=
  mkMem (words m) (anchors m) (entries m) (tokens m) (woken m) v.

(** Programs over the shared memory. *)
Abbreviation program := (prog mem).

(** ** Accesses to a state word *)

(** [AtomicUsize::load]. *)
Definition load (self : Z) : program Z :=
  Act (fun _ m =>
    match words m !! self with
    | Some w => Done (w, m)
    | None => Failed InvalidPointer
    end).

(** [AtomicUsize::compare_exchange]. *)
Definition compare_exchange (self : Z) (current new : Z) : program (Result Z Z) :=
  Act (fun _ m =>
    match words m !! self with
    | Some w =>
        if w =? current
        then Done (Ok w, set_words (<[self := new]> (words m)) m)
        else Done (Err w, m)
    | None => Failed InvalidPointer
    end).

(** [AtomicUsize::compare_exchange_weak]. *)
Definition compare_exchange_weak (self : Z) (current new : Z) : program (Result Z Z) :=
  Act (fun _ m =>
    match words m !! self with
    | Some w =>
        match weak m with
        | true :: weak' => Done (Err w, set_weak weak' m)
        | weak' =>
            if w =? current
            then Done (Ok w, set_weak (tail weak') (set_words (<[self := new]> (words m)) m))
            else Done (Err w, set_weak (tail weak') m)
        end
    | None => Failed InvalidPointer
    end).

(** [AtomicUsize::fetch_update]: a load followed by a loop of weak exchanges
    with what [f] computes from the value last seen. *)
Definition fetch_update (self : Z) (f : Z -> program (option Z)) : program (Result Z Z) :=
  prev <- load self ;;
  Loop (fun prev =>
    next <- f prev ;;
    match next with
    | None => Ret (inr (Err prev))
    | Some next =>
        r <- compare_exchange_weak self prev next ;;
        match r with
        | Ok x => Ret (inr (Ok x))
        | Err next_prev => Ret (inl next_prev)
        end
    end) prev.

(** [AtomicUsize::fetch_add]; wraps around. *)
Definition fetch_add (self : Z) (v : Z) : program Z :=
  Act (fun _ m =>
    match words m !! self with
    | Some w => Done (w, set_words (<[self := usize_add w v]> (words m)) m)
    | None => Failed InvalidPointer
    end).

(** [AtomicUsize::swap]. *)
Definition swap (self : Z) (v : Z) : program Z :=
  Act (fun _ m =>
    match words m !! self with
    | Some w => Done (w, set_words (<[self := v]> (words m)) m)
    | None => Failed InvalidPointer
    end).

(** ** Accesses to an entry *)

(** Reads a field of the entry at address [e]. *)
Definition read_field {A} (e : Z) (field : Entry -> A) : program A :=
  Act (fun _ m =>
    match entries m !! e with
    | Some en => Done (field en, m)
    | None => Failed InvalidPointer
    end).

(** Replaces a field of the entry at address [e], returning the old entry's
    value of it. *)
Definition update_field {A} (e : Z) (field : Entry -> A) (f : Entry -> Entry) : program A :=
  Act (fun _ m =>
    match entries m !! e with
    | Some en => Done (field en, set_entries (<[e := f en]> (entries m)) m)
    | None => Failed InvalidPointer
    end).

(** Stores into a field of the entry at address [e]. *)
Definition write_field (e : Z) (f : Entry -> Entry) : program unit :=
  update_field e (fun _ => tt) f.

(** [AtomicU16::compare_exchange_weak] on the state of the entry at [e]. *)
Definition compare_exchange_weak_state (e : Z) (current new : Z) : program (Result Z Z) :=
  Act (fun _ m =>
    match entries m !! e with
    | Some en =>
        match weak m with
        | true :: weak' => Done (Err (e_state en), set_weak weak' m)
        | weak' =>
            if e_state en =? current
            then Done (Ok (e_state en),
                       set_weak (tail weak')
                         (set_entries (<[e := set_state new en]> (entries m)) m))
            else Done (Err (e_state en), set_weak (tail weak') m)
        end
    | None => Failed InvalidPointer
    end).

(** [AtomicU16::fetch_or] on the state of the entry at [e]. *)
Definition fetch_or_state (e : Z) (v : Z) : program Z :=
  Act (fun _ m =>
    match entries m !! e with
    | Some en =>
        Done (e_state en,
              set_entries (<[e := set_state (Z.lor (e_state en) v) en]> (entries m)) m)
    | None => Failed InvalidPointer
    end).

(** [ptr::write] of a whole entry at address [e]. *)
Definition write_entry (e : Z) (en : Entry) : program unit :=
  Act (fun _ m => Done (tt, set_entries (<[e := en]> (entries m)) m)).

(** [drop_in_place]: the entry ceases to exist. *)
Definition drop_in_place (e : Z) : program unit :=
  Act (fun _ m =>
    match entries m !! e with
    | Some _ => Done (tt, set_entries (delete e (entries m)) m)
    | None => Failed InvalidPointer
    end).

(** ** Accesses to an anchor cell *)

Definition read_anchor (a : Z) : program Z :=
  Act (fun _ m =>
    match anchors m !! a with
    | Some v => Done (v, m)
    | None => Failed InvalidPointer
    end).

Definition write_anchor (a : Z) (v : Z) : program unit :=
  Act (fun _ m =>
    match anchors m !! a with
    | Some _ => Done (tt, set_anchors (<[a := v]> (anchors m)) m)
    | None => Failed InvalidPointer
    end).

(** The anchor cell comes into existence, zeroed. *)
Definition alloc_anchor (a : Z) : program unit :=
  Act (fun _ m => Done (tt, set_anchors (<[a := 0]> (anchors m)) m)).

(** The anchor cell ceases to exist. *)
Definition free_anchor (a : Z) : program unit :=
  Act (fun _ m => Done (tt, set_anchors (delete a (anchors m)) m)).

(** ** Threads and tasks *)

(** [std::thread::current]. *)
Definition current : program tid := Act (fun t m => Done (t, m)).

(** [std::thread::park]: blocks until the thread's token is available, and
    consumes it. *)
Definition park : program unit :=
  Act (fun t m =>
    if decide (t ∈ tokens m)
    then Done (tt, set_tokens (tokens m ∖ {[t]}) m)
    else Blocked).

(** [Thread::unpark]. *)
Definition unpark (t : tid) : program unit :=
  Act (fun _ m => Done (tt, set_tokens ({[t]} ∪ tokens m) m)).

(** [Waker::wake]. *)
Definition wake (w : Waker) : program unit :=
  Act (fun _ m => Done (tt, set_woken ({[w]} ∪ woken m) m)).

(** A pending task is suspended until its waker has been invoked. *)
Definition suspend (w : Waker) : program unit :=
  Act (fun _ m =>
    if decide (w ∈ woken m)
    then Done (tt, set_woken (woken m ∖ {[w]}) m)
    else Blocked).

(** The body of the loop of [fetch_update]. *)
Abbreviation fetch_update_body self f :=
  (fun prev : Z =>
    next <- f prev ;;
    match next with
    | None => Ret (inr (Err prev))
    | Some next =>
        r <- compare_exchange_weak self prev next ;;
        match r with
        | Ok x => Ret (inr (Ok x))
        | Err next_prev => Ret (inl next_prev)
        end
    end).

(** ** Rules of the logic *)

Section rules.
  Context (t : tid).
  Implicit Types m : mem.

Lemma wp_load self m w (Q : Z -> mem -> Prop) :
  words m !! self = Some w -> Q w m -> wp t (load self) m Q.
Proof. intros E HQ. eapply wp_act; [by rewrite E|done]. Qed.

Lemma wp_compare_exchange_ok self c n m (Q : Result Z Z -> mem -> Prop) :
  words m !! self = Some c ->
  Q (Ok c) (set_words (<[self := n]> (words m)) m) ->
  wp t (compare_exchange self c n) m Q.
Proof. intros E HQ. eapply wp_act; [by rewrite E, Z.eqb_refl|done]. Qed.

Lemma wp_compare_exchange_err self c n m w (Q : Result Z Z -> mem -> Prop) :
  words m !! self = Some w -> w <> c -> Q (Err w) m ->
  wp t (compare_exchange self c n) m Q.
Proof.
  intros E Hne HQ. eapply wp_act; [|done].
  simpl. rewrite E. apply Z.eqb_neq in Hne. by rewrite Hne.
Qed.

(** The exchange, whatever the word is. *)
Lemma wp_compare_exchange self c n m w (Q : Result Z Z -> mem -> Prop) :
  words m !! self = Some w ->
  (w = c -> Q (Ok c) (set_words (<[self := n]> (words m)) m)) ->
  (w <> c -> Q (Err w) m) ->
  wp t (compare_exchange self c n) m Q.
Proof.
  intros E Hok Herr. destruct (decide (w = c)) as [->|].
  - apply wp_compare_exchange_ok; auto.
  - eapply wp_compare_exchange_err; eauto.
Qed.

Lemma wp_fetch_add self v m w (Q : Z -> mem -> Prop) :
  words m !! self = Some w ->
  Q w (set_words (<[self := usize_add w v]> (words m)) m) ->
  wp t (fetch_add self v) m Q.
Proof. intros E HQ. eapply wp_act; [by rewrite E|done]. Qed.

Lemma wp_swap self v m w (Q : Z -> mem -> Prop) :
  words m !! self = Some w ->
  Q w (set_words (<[self := v]> (words m)) m) ->
  wp t (swap self v) m Q.
Proof. intros E HQ. eapply wp_act; [by rewrite E|done]. Qed.

(** The loop of [fetch_update], entered with a word [s] that may be out of
    date: what [f] computes from it and from the current word is all that
    matters. *)
Lemma wp_fetch_update_from self f s m w (Q : Result Z Z -> mem -> Prop) (r : Z -> option Z) :
  words m !! self = Some w ->
  (forall s' wk (Q' : option Z -> mem -> Prop), s' = s \/ s' = w ->
      Q' (r s') (set_weak wk m) -> wp t (f s') (set_weak wk m) Q') ->
  (forall wk,
      match r w with
      | Some w' => Q (Ok w) (set_weak wk (set_words (<[self := w']> (words m)) m))
      | None => Q (Err w) (set_weak wk m)
      end) ->
  (r s = None -> forall wk, Q (Err s) (set_weak wk m)) ->
  wp t (Loop (fetch_update_body self f) s) m Q.
Proof.
  intros E Hf HQ Hs. replace m with (set_weak (weak m) m) by by destruct m.
  assert (forall wk s', s' = w -> wp t (Loop (fetch_update_body self f) s') (set_weak wk m) Q) as Hcur.
  { intros wk. induction wk as [|b wk IH]; intros s' ->; apply wp_loop, wp_bind, Hf; auto.
    - specialize (HQ []). destruct (r w) as [w'|]; [|by apply wp_ret].
      apply wp_bind. eapply wp_act; [simpl; rewrite E, Z.eqb_refl; done|]. by apply wp_ret.
    - destruct (r w) as [w'|]; [|by apply wp_ret, (HQ (b :: wk))]. apply wp_bind. destruct b.
      + eapply wp_act; [simpl; rewrite E; done|]. by apply wp_ret, IH.
      + eapply wp_act; [simpl; rewrite E, Z.eqb_refl; done|]. apply wp_ret. apply (HQ wk). }
  destruct (decide (s = w)) as [->|Hne]; [by apply Hcur|].
  apply wp_loop, wp_bind, Hf; [auto|]. destruct (r s) as [s'|] eqn:Er; [|by apply wp_ret, Hs].
  apply Z.eqb_neq in Hne as Hne'. rewrite Z.eqb_sym in Hne'.
  apply wp_bind. destruct (weak m) as [|[|] wk].
  all: eapply wp_act; [simpl; rewrite E, ?Hne'; done|]; by apply wp_ret, Hcur.
Qed.

(** Alone, [fetch_update] returns the word it found; how many spurious
    failures it absorbed only shows in the oracle. *)
Lemma wp_fetch_update self f m w (Q : Result Z Z -> mem -> Prop) r :
  words m !! self = Some w ->
  (forall wk (Q' : option Z -> mem -> Prop),
      Q' r (set_weak wk m) -> wp t (f w) (set_weak wk m) Q') ->
  (forall wk,
      match r with
      | Some w' => Q (Ok w) (set_weak wk (set_words (<[self := w']> (words m)) m))
      | None => Q (Err w) (set_weak wk m)
      end) ->
  wp t (fetch_update self f) m Q.
Proof.
  intros E Hf HQ. unfold fetch_update. apply wp_bind. eapply wp_load; [done|].
  apply (wp_fetch_update_from self f w m w Q (fun _ => r)); [done| |done|].
  - intros s' wk Q' [->| ->]; apply Hf.
  - intros -> . apply HQ.
Qed.

Lemma wp_read_field {A} e (field : Entry -> A) m en (Q : A -> mem -> Prop) :
  entries m !! e = Some en -> Q (field en) m -> wp t (read_field e field) m Q.
Proof. intros E HQ. eapply wp_act; [by rewrite E|done]. Qed.

Lemma wp_update_field {A} e (field : Entry -> A) f m en (Q : A -> mem -> Prop) :
  entries m !! e = Some en ->
  Q (field en) (set_entries (<[e := f en]> (entries m)) m) ->
  wp t (update_field e field f) m Q.
Proof. intros E HQ. eapply wp_act; [by rewrite E|done]. Qed.

Lemma wp_write_field e f m en (Q : unit -> mem -> Prop) :
  entries m !! e = Some en ->
  Q tt (set_entries (<[e := f en]> (entries m)) m) ->
  wp t (write_field e f) m Q.
Proof. intros E HQ. eapply wp_act; [by rewrite E|done]. Qed.

Lemma wp_fetch_or_state e v m en (Q : Z -> mem -> Prop) :
  entries m !! e = Some en ->
  Q (e_state en) (set_entries (<[e := set_state (Z.lor (e_state en) v) en]> (entries m)) m) ->
  wp t (fetch_or_state e v) m Q.
Proof. intros E HQ. eapply wp_act; [by rewrite E|done]. Qed.

Lemma wp_write_entry e en m (Q : unit -> mem -> Prop) :
  Q tt (set_entries (<[e := en]> (entries m)) m) -> wp t (write_entry e en) m Q.
Proof. intros HQ. by eapply wp_act. Qed.

Lemma wp_drop_in_place e en m (Q : unit -> mem -> Prop) :
  entries m !! e = Some en ->
  Q tt (set_entries (delete e (entries m)) m) -> wp t (drop_in_place e) m Q.
Proof. intros E HQ. eapply wp_act; [by rewrite E|done]. Qed.

Lemma wp_read_anchor a v m (Q : Z -> mem -> Prop) :
  anchors m !! a = Some v -> Q v m -> wp t (read_anchor a) m Q.
Proof. intros E HQ. eapply wp_act; [by rewrite E|done]. Qed.

Lemma wp_write_anchor a v v' m (Q : unit -> mem -> Prop) :
  anchors m !! a = Some v' ->
  Q tt (set_anchors (<[a := v]> (anchors m)) m) -> wp t (write_anchor a v) m Q.
Proof. intros E HQ. eapply wp_act; [by rewrite E|done]. Qed.

Lemma wp_alloc_anchor a m (Q : unit -> mem -> Prop) :
  Q tt (set_anchors (<[a := 0]> (anchors m)) m) -> wp t (alloc_anchor a) m Q.
Proof. intros HQ. by eapply wp_act. Qed.

Lemma wp_free_anchor a m (Q : unit -> mem -> Prop) :
  Q tt (set_anchors (delete a (anchors m)) m) -> wp t (free_anchor a) m Q.
Proof. intros HQ. by eapply wp_act. Qed.

Lemma wp_current m (Q : tid -> mem -> Prop) : Q t m -> wp t current m Q.
Proof. intros HQ. by eapply wp_act. Qed.

Lemma wp_unpark t' m (Q : unit -> mem -> Prop) :
  Q tt (set_tokens ({[t']} ∪ tokens m) m) -> wp t (unpark t') m Q.
Proof. intros HQ. by eapply wp_act. Qed.

Lemma wp_wake w m (Q : unit -> mem -> Prop) :
  Q tt (set_woken ({[w]} ∪ woken m) m) -> wp t (wake w) m Q.
Proof. intros HQ. by eapply wp_act. Qed.

End rules.
