(* ===== verification/WaitQueue.v ===== *)
(** * Wait queues and their entries

    [src/wait_queue.rs]: where a wait queue puts its anchor and its entry, how
    entries are linked and iterated, and the protocol by which one thread
    delivers a result to the owner of an entry.

    A wait queue is designated by the address of its raw data, an entry by
    its address, an anchor by its address; the null pointer is [0].  Closures
    passed to the iterators become functions threading the captured mutable
    variables as a state. *)

From S2P Require Import Prelude Prog Word Opcode Memory.

(** The functions an entry's [drop_callback] field can point to: the
    [drop_wait_queue_entry] of the primitive it was constructed for. *)
Class DropCallbacks : Type := drop_callback : Primitive -> Z -> program unit.

(** ** Entry states *)

(** A method is used in the wrong mode. *)
Definition ERROR_WRONG_MODE : Z := 255.

(** Indicates that a result is set. *)
Definition RESULT_SET : Z := Z.shiftl 1 8.

(** Indicates that a waker is set. *)
Definition WAKER_SET : Z := Z.shiftl 1 (8 + 1).

(** Indicates that a result is finalized. *)
Definition RESULT_FINALIZED : Z := Z.shiftl 1 (8 + 2).

Definition u64_MAX : Z := 2 ^ 64 - 1.

(** ** Geometry *)

(** Address of the anchor of the wait queue at [addr]. *)
Definition anchor_addr (addr : Z) : Z :=
  if addr mod VIRTUAL_ALIGNMENT =? 0
  then addr
  else usize_sub (usize_add addr VIRTUAL_ALIGNMENT) (addr mod VIRTUAL_ALIGNMENT).

(** [WaitQueue::anchor_ptr]. *)
Definition anchor_ptr (wq : Z) : program (Z * Z) :=
  debug_assert (wq mod 8 =? 0) ;;;
  debug_assert (anchor_addr wq mod VIRTUAL_ALIGNMENT =? 0) ;;;
  debug_assert (usize_sub (anchor_addr wq) wq <? VIRTUAL_ALIGNMENT) ;;;
  Ret (anchor_addr wq, usize_sub (anchor_addr wq) wq).

(** Address of the entry whose anchor, at [addr], lies [offset] bytes after
    the start of its wait queue. *)
Definition entry_addr (addr offset : Z) : Z :=
  let start_addr := usize_sub addr offset in
  if offset <? VIRTUAL_ALIGNMENT / 2
  then usize_add start_addr (VIRTUAL_ALIGNMENT / 2)
  else start_addr.

(** [WaitQueue::to_entry_ptr]. *)
Definition to_entry_ptr (anchor_ptr : Z) : program Z :=
  anchor_val <- read_anchor anchor_ptr ;;
  if anchor_val =? 0 then Ret 0
  else
    debug_assert (anchor_ptr mod VIRTUAL_ALIGNMENT =? 0) ;;;
    let offset := u64_MAX - anchor_val in
    debug_assert (usize_sub anchor_ptr offset mod 8 =? 0) ;;;
    Ret (entry_addr anchor_ptr offset).

(** [WaitQueue::entry]. *)
Definition entry (wq : Z) : program Z :=
  let* (a, _) := anchor_ptr wq in
  to_entry_ptr a.

(** [Entry::to_wait_queue_ptr]. *)
Definition to_wait_queue_ptr (entry_ptr : Z) : program Z :=
  offset <- read_field entry_ptr e_offset ;;
  Ret (usize_sub entry_ptr offset).

(** ** Links *)

(** [Entry::next_entry_anchor_ptr]. *)
Definition next_entry_anchor_ptr (e : Z) : program Z :=
  read_field e e_next_entry_anchor_ptr.

(** [Entry::next_entry_ptr]. *)
Definition next_entry_ptr (e : Z) : program Z :=
  anchor_ptr <- read_field e e_next_entry_anchor_ptr ;;
  if anchor_ptr =? 0 then Ret 0 else to_entry_ptr anchor_ptr.

(** [Entry::prev_entry_ptr]. *)
Definition prev_entry_ptr (e : Z) : program Z :=
  read_field e e_prev_entry_ptr.

(** [Entry::update_next_entry_anchor_ptr]. *)
Definition update_next_entry_anchor_ptr (e anchor : Z) : program unit :=
  debug_assert (anchor mod VIRTUAL_ALIGNMENT =? 0) ;;;
  write_field e (set_next anchor).

(** [Entry::update_prev_entry_ptr]. *)
Definition update_prev_entry_ptr (e prev : Z) : program unit :=
  write_field e (set_prev prev).

(** [Entry::set_prev_ptr]. *)
Definition set_prev_ptr (tail_entry_ptr : Z) : program unit :=
  Loop (fun entry_ptr =>
    if entry_ptr =? 0 then Ret (inr tt)
    else
      next <- next_entry_ptr entry_ptr ;;
      if next =? 0 then Ret (inl next)
      else
        prev <- prev_entry_ptr next ;;
        if prev =? 0
        then update_prev_entry_ptr next entry_ptr ;;; Ret (inl next)
        else debug_assert (prev =? entry_ptr) ;;; Ret (inr tt)) tail_entry_ptr.

(** [Entry::iter_forward]; the closure gets the entry and the next entry, and
    tells whether to stop. *)
Definition iter_forward {C} (tail_entry_ptr : Z) (set_prev : bool)
    (f : Z -> Z -> C -> program (C * bool)) (captured : C) : program C :=
  Loop (fun '(entry_ptr, captured) =>
    if entry_ptr =? 0 then Ret (inr captured)
    else
      next <- next_entry_ptr entry_ptr ;;
      (if set_prev && negb (next =? 0)
       then update_prev_entry_ptr next entry_ptr
       else Ret tt) ;;;
      let* (captured, stop) := f entry_ptr next captured in
      if (stop : bool) then Ret (inr captured) else Ret (inl (next, captured)))
    (tail_entry_ptr, captured).

(** [Entry::iter_backward]; the closure gets the entry and the previous
    entry, and tells whether to stop. *)
Definition iter_backward {C} (head_entry_ptr : Z)
    (f : Z -> Z -> C -> program (C * bool)) (captured : C) : program C :=
  Loop (fun '(entry_ptr, captured) =>
    if entry_ptr =? 0 then Ret (inr captured)
    else
      prev <- prev_entry_ptr entry_ptr ;;
      let* (captured, stop) := f entry_ptr prev captured in
      if (stop : bool) then Ret (inr captured) else Ret (inl (prev, captured)))
    (head_entry_ptr, captured).

(** ** Results *)

(** Takes the waker or thread out of a monitor. *)
Definition take_monitor (e : Entry) : Entry :=
  set_monitor
    match e_monitor e with
    | Async _ => Async None
    | Sync _ => Sync None
    end e.

(** [Entry::set_result]. *)
Definition set_result (e result : Z) : program unit :=
  write_field e (set_poll true) ;;;
  state <- read_field e e_state ;;
  state <- Loop (fun state =>
    debug_assert (Z.land state RESULT_SET =? 0) ;;;
    debug_assert (Z.land state RESULT_FINALIZED =? 0) ;;;
    let next_state := Z.lor (Z.lor state RESULT_SET) result in
    r <- compare_exchange_weak_state e state next_state ;;
    match r with
    | Ok _ => Ret (inr next_state)
    | Err new_state => Ret (inl new_state)
    end) state ;;
  notified <- (if Z.land state WAKER_SET =? WAKER_SET
               then
                 monitor <- update_field e e_monitor take_monitor ;;
                 match monitor with
                 | Async (Some waker) =>
                     fetch_or_state e RESULT_FINALIZED ;;; wake waker ;;; Ret true
                 | Sync (Some thread) =>
                     fetch_or_state e RESULT_FINALIZED ;;; unpark thread ;;; Ret true
                 | _ => Ret false
                 end
               else Ret false) ;;
  if (notified : bool) then Ret tt
  else fetch_or_state e RESULT_FINALIZED ;;; Ret tt.

(** [Entry::set_pollable]. *)
Definition set_pollable (e : Z) : program unit :=
  write_field e (set_poll true).

(** [Entry::result_finalized]. *)
Definition result_finalized (e : Z) : program bool :=
  state <- read_field e e_state ;;
  Ret (Z.land state RESULT_FINALIZED =? RESULT_FINALIZED).

(** [Entry::try_consume_result]. *)
Definition try_consume_result (e : Z) : program (option Z) :=
  state <- read_field e e_state ;;
  if Z.land state RESULT_FINALIZED =? RESULT_FINALIZED
  then
    debug_assert (negb (Z.land state RESULT_SET =? 0)) ;;;
    write_field e (set_state 0) ;;;
    write_field e (set_poll false) ;;;
    Ret (Some (Z.land state (Z.shiftl 1 8 - 1)))
  else Ret None.

(** [Entry::acknowledge_result_sync]. *)
Definition acknowledge_result_sync (e : Z) : program Z :=
  Loop (fun _ =>
    result <- try_consume_result e ;;
    match result with
    | Some result => Ret (inr result)
    | None => yield_now ;;; Ret (inl tt)
    end) tt.

(** The part of a poll that decides whether the poller may install itself:
    [inr] is the result found on the way, [inl (Some x)] says that [x] is to
    be installed. *)
Definition prepare_install {X} (e : Z) (self : program X) : program (option X + Z) :=
  state <- read_field e e_state ;;
  if Z.land state RESULT_SET =? RESULT_SET
  then
    result <- try_consume_result e ;;
    match result with
    | Some result => Ret (inr result)
    | None => Ret (inl None)
    end
  else if Z.land state WAKER_SET =? WAKER_SET
  then
    r <- compare_exchange_weak_state e state (Z.land state (u16_not WAKER_SET)) ;;
    match r with
    | Ok _ => x <- self ;; Ret (inl (Some x))
    | Err _ => Ret (inl None)
    end
  else x <- self ;; Ret (inl (Some x)).

(** [Entry::poll_result_sync]. *)
Definition poll_result_sync (e : Z) : program Z :=
  monitor <- read_field e e_monitor ;;
  match monitor with
  | Async _ => Ret ERROR_WRONG_MODE
  | Sync _ =>
      Loop (fun _ =>
        result <- try_consume_result e ;;
        match result with
        | Some result => Ret (inr result)
        | None =>
            this_thread <- prepare_install e current ;;
            match this_thread with
            | inr result => Ret (inr result)
            | inl (Some this_thread) =>
                write_field e (set_monitor (Sync (Some this_thread))) ;;;
                state <- fetch_or_state e WAKER_SET ;;
                (if Z.land state RESULT_SET =? RESULT_SET then yield_now else park) ;;;
                Ret (inl tt)
            | inl None => yield_now ;;; Ret (inl tt)
            end
        end) tt
  end.

(** [Entry::poll_result_async]; [None] is [Poll::Pending]. *)
Definition poll_result_async (e : Z) (cx : Waker) : program (option Z) :=
  monitor <- read_field e e_monitor ;;
  match monitor with
  | Sync _ => Ret (Some ERROR_WRONG_MODE)
  | Async _ =>
      result <- try_consume_result e ;;
      match result with
      | Some result => Ret (Some result)
      | None =>
          this_waker <- prepare_install e (Ret cx) ;;
          match this_waker with
          | inr result => Ret (Some result)
          | inl (Some this_waker) =>
              write_field e (set_monitor (Async (Some this_waker))) ;;;
              state <- fetch_or_state e WAKER_SET ;;
              (if Z.land state RESULT_SET =? RESULT_SET then wake cx else Ret tt) ;;;
              Ret None
          | inl None => wake cx ;;; Ret None
          end
      end
  end.

(** [wait_queue.await]: the task of waker [cx] polls until the result is
    ready, suspended in between. *)
Definition await_result (wq : Z) (cx : Waker) : program Z :=
  Loop (fun _ =>
    e <- entry wq ;;
    result <- poll_result_async e cx ;;
    match result with
    | Some result => Ret (inr result)
    | None => suspend cx ;;; Ret (inl tt)
    end) tt.

(** ** Construction and destruction *)

(** [WaitQueue::default()]: zeroed raw data at address [wq]. *)
Definition wait_queue_default (wq : Z) : program unit :=
  let* (a, _) := anchor_ptr wq in
  alloc_anchor a.

(** [WaitQueue::construct]. *)
Definition construct (S : Primitive) (wq self : Z) (opcode : Opcode) (is_sync : bool) :
    program unit :=
  let* (a, offset) := anchor_ptr wq in
  anchor_val <- read_anchor a ;;
  had_entry <- (if anchor_val =? 0
                then write_anchor a (u64_MAX - offset) ;;; Ret false
                else debug_assert (anchor_val =? u64_MAX - offset) ;;; Ret true) ;;
  entry_ptr <- to_entry_ptr a ;;
  let monitor := if is_sync then Sync None else Async None in
  if (had_entry : bool)
  then
    pollable <- read_field entry_ptr e_pollable ;;
    debug_assert (negb pollable) ;;;
    write_field entry_ptr (set_prev 0) ;;;
    write_field entry_ptr (set_opcode opcode) ;;;
    write_field entry_ptr (set_monitor monitor) ;;;
    write_field entry_ptr (set_addr self)
  else
    write_entry entry_ptr
      (mkEntry 0 0 opcode 0 false monitor S self (usize_sub entry_ptr wq)).

(** [WaitQueue::is_pollable]. *)
Definition is_pollable (wq : Z) : program bool :=
  let* (a, _) := anchor_ptr wq in
  entry_ptr <- to_entry_ptr a ;;
  if entry_ptr =? 0 then Ret false else read_field entry_ptr e_pollable.

(** [Entry::prepare_drop]. *)
Definition prepare_drop `{DropCallbacks} (entry_ptr : Z) : program unit :=
  pollable <- read_field entry_ptr e_pollable ;;
  if (pollable : bool)
  then
    callback <- read_field entry_ptr e_drop_callback ;;
    drop_callback callback entry_ptr ;;;
    write_field entry_ptr (set_poll false)
  else Ret tt.

(** [<WaitQueue as Drop>::drop], after which the raw data is dead. *)
Definition wait_queue_drop `{DropCallbacks} (wq : Z) : program unit :=
  let* (a, _) := anchor_ptr wq in
  entry_ptr <- to_entry_ptr a ;;
  (if entry_ptr =? 0 then Ret tt
   else prepare_drop entry_ptr ;;; drop_in_place entry_ptr) ;;;
  free_anchor a.
