(* ===== verification/SyncPrimitive.v ===== *)
(** * Base operations of the primitives

    [src/sync_primitive.rs]: the trait every primitive implements.  Pushing a
    wait queue entry, waiting for a result, releasing resources, granting
    resources to waiting entries, and unlinking an entry whose owner gave up.
    The primitive is designated by the address [self] of its state word. *)

From S2P Require Import Prelude Prog Word Opcode Memory WaitQueue.

(** The part of the trait [SyncPrimitive] an implementation provides to the
    default methods: the maximum number of shared owners.  Its other required
    methods are [state], the word at [self], and [drop_wait_queue_entry],
    reached through [DropCallbacks]. *)
Class SyncPrimitive (S : Primitive) : Type := max_shared_owners : Z.

Arguments max_shared_owners S {_}.

(** The [try_push_wait_queue_entry] method. *)
Definition try_push_wait_queue_entry (self wait_queue state : Z) : program bool :=
  let* (anchor_addr, _) := anchor_ptr wait_queue in
  debug_assert (Z.land anchor_addr (usize_not ADDR_MASK) =? 0) ;;;
  let tail_anchor_ptr := to_anchor_ptr state in
  e <- entry wait_queue ;;
  update_next_entry_anchor_ptr e tail_anchor_ptr ;;;
  let next_state := Z.lor (Z.land state (usize_not ADDR_MASK)) anchor_addr in
  r <- compare_exchange self state next_state ;;
  match r with
  | Ok _ => e <- entry wait_queue ;; set_pollable e ;;; Ret true
  | Err _ => Ret false
  end.

(** The mutable variables captured by the closure of [process_wait_queue]. *)
Record Granting : Type := mkGranting {
  transferred : Z;
  resolved_entry_ptr : Z;
  reset_failed : bool;
  head_entry_ptr : Z;
  unlocked : bool;
}.

(** The closure [process_wait_queue] passes to [iter_backward]. *)
Definition grant_entry (S : Primitive) `{SyncPrimitive S}
    (self state data tail_entry_ptr : Z) (entry prev_entry : Z) (g : Granting) :
    program (Granting * bool) :=
  opcode <- read_field entry e_opcode ;;
  debug_assert (opcode_ok opcode) ;;;
  let desired := desired_count opcode in
  if (usize_add data (transferred g) =? 0)
     || (usize_add (usize_add data (transferred g)) desired <=? max_shared_owners S)
  then
    let acquired := acquired_count opcode in
    debug_assert (acquired <=? desired) ;;;
    if negb (prev_entry =? 0)
    then
      Ret (mkGranting (usize_add (transferred g) acquired) entry (reset_failed g)
             (head_entry_ptr g) (unlocked g), false)
    else
      debug_assert (tail_entry_ptr =? entry) ;;;
      r <- compare_exchange self state
             (usize_add (usize_add data (transferred g)) acquired) ;;
      match r with
      | Err _ =>
          update_next_entry_anchor_ptr entry 0 ;;;
          Ret (mkGranting (transferred g) (resolved_entry_ptr g) true entry (unlocked g), true)
      | Ok _ =>
          Ret (mkGranting (transferred g) entry (reset_failed g) (head_entry_ptr g) true, true)
      end
  else
    update_next_entry_anchor_ptr entry 0 ;;;
    Ret (mkGranting (transferred g) (resolved_entry_ptr g) (reset_failed g) entry (unlocked g),
         true).

(** The closure [process_wait_queue] passes to [fetch_update]. *)
Definition unlock_state (data transferred : Z) (new_state : Z) : program (option Z) :=
  let new_data := Z.land new_state DATA_MASK in
  debug_assert (new_data <=? data) ;;;
  debug_assert (usize_add new_data transferred <=? DATA_MASK) ;;;
  if new_data =? data
  then Ret (Some (Z.lor (Z.land new_state ADDR_MASK) (usize_add new_data transferred)))
  else Ret None.

(** The [process_wait_queue] method; the loop state is [state] and
    [head_entry_ptr], and [unlocked] is false whenever the loop is entered. *)
Definition process_wait_queue (S : Primitive) `{SyncPrimitive S} (self state : Z) :
    program unit :=
  Loop (fun '(state, head_entry_ptr) =>
    debug_assert (Z.land state LOCKED_FLAG =? LOCKED_FLAG) ;;;
    let anchor_ptr := to_anchor_ptr state in
    tail_entry_ptr <- to_entry_ptr anchor_ptr ;;
    head_entry_ptr <- (if head_entry_ptr =? 0
      then iter_forward tail_entry_ptr true
             (fun entry next_entry _ => Ret (entry, next_entry =? 0)) head_entry_ptr
      else set_prev_ptr tail_entry_ptr ;;; Ret head_entry_ptr) ;;
    let data := Z.land state DATA_MASK in
    g <- iter_backward head_entry_ptr (grant_entry S self state data tail_entry_ptr)
           (mkGranting 0 0 false head_entry_ptr false) ;;
    debug_assert (negb (reset_failed g) || negb (unlocked g)) ;;;
    unlocked <- (if negb (reset_failed g) && negb (unlocked g)
      then
        r <- fetch_update self (unlock_state data (transferred g)) ;;
        match r with
        | Ok _ => Ret true
        | Err _ => Ret false
        end
      else Ret (unlocked g)) ;;
    state <- (if negb unlocked
      then old <- fetch_add self (transferred g) ;; Ret (usize_add old (transferred g))
      else Ret state) ;;
    iter_forward (resolved_entry_ptr g) false
      (fun entry _ _ => set_result entry 0 ;;; Ret (tt, false)) tt ;;;
    if (unlocked : bool) then Ret (inr tt)
    else Ret (inl (state, SyncPrimitive.head_entry_ptr g))) (state, 0).

(** The [release_loop] method. *)
Definition release_loop (S : Primitive) `{SyncPrimitive S} (self state : Z) (opcode : Opcode) :
    program bool :=
  Loop (fun state =>
    if can_release opcode state
    then
      if (Z.land state ADDR_MASK =? 0) || (Z.land state LOCKED_FLAG =? LOCKED_FLAG)
      then
        r <- compare_exchange self state (usize_sub state (acquired_count opcode)) ;;
        match r with
        | Ok _ => Ret (inr true)
        | Err new_state => Ret (inl new_state)
        end
      else
        let next_state := usize_sub (Z.lor state LOCKED_FLAG) (acquired_count opcode) in
        r <- compare_exchange self state next_state ;;
        match r with
        | Err new_state => Ret (inl new_state)
        | Ok _ => process_wait_queue S self next_state ;;; Ret (inr true)
        end
    else Ret (inr false)) state.

(** The closure [remove_wait_queue_entry] passes to [iter_forward]; it
    assigns the captured variable [result]. *)
Definition remove_entry (self state entry_ptr_to_remove : Z) (entry next_entry : Z)
    (result : Result (Z * bool) Z) : program (Result (Z * bool) Z * bool) :=
  if entry =? entry_ptr_to_remove
  then
    prev <- prev_entry_ptr entry ;;
    (if negb (next_entry =? 0) then update_prev_entry_ptr next_entry prev else Ret tt) ;;;
    result <- (if negb (prev =? 0)
      then
        next_anchor <- next_entry_anchor_ptr entry ;;
        update_next_entry_anchor_ptr prev next_anchor ;;;
        Ret (Ok (state, true))
      else if negb (next_entry =? 0)
      then
        new_tail_ptr <- to_wait_queue_ptr next_entry ;;
        let* (new_anchor_ptr, _) := anchor_ptr new_tail_ptr in
        debug_assert (Z.land new_anchor_ptr (usize_not ADDR_MASK) =? 0) ;;;
        let next_state := Z.lor (Z.land state (usize_not ADDR_MASK)) new_anchor_ptr in
        debug_assert (Z.land next_state LOCKED_FLAG =? LOCKED_FLAG) ;;;
        r <- compare_exchange self state next_state ;;
        match r with
        | Ok _ => Ret (Ok (next_state, true))
        | Err new_state => Ret (Err new_state)
        end
      else
        let next_state := Z.land state DATA_MASK in
        r <- compare_exchange self state next_state ;;
        match r with
        | Ok _ => Ret (Ok (next_state, true))
        | Err new_state => Ret (Err new_state)
        end) ;;
    Ret (result, true)
  else Ret (result, false).

(** The [remove_wait_queue_entry] method; the loop state is [state] and
    [result], which keeps its value from one iteration to the next. *)
Definition remove_wait_queue_entry (self state entry_ptr_to_remove : Z) : program (Z * bool) :=
  Loop (fun '(state, result) =>
    debug_assert (Z.land state LOCKED_FLAG =? LOCKED_FLAG) ;;;
    debug_assert (negb (Z.land state ADDR_MASK =? 0)) ;;;
    let anchor_ptr := to_anchor_ptr state in
    tail_entry_ptr <- to_entry_ptr anchor_ptr ;;
    result <- iter_forward tail_entry_ptr true
                (remove_entry self state entry_ptr_to_remove) result ;;
    match result with
    | Ok r => Ret (inr r)
    | Err new_state => Ret (inl (new_state, result))
    end) (state, Ok (state, false)).

(** The [force_remove_wait_queue_entry] method; its first loop returns
    [state] and [need_completion]. *)
Definition force_remove_wait_queue_entry (S : Primitive) `{SyncPrimitive S} (entry : Z) :
    program unit :=
  this <- read_field entry e_addr ;;
  state <- load this ;;
  let* (state, need_completion) := Loop (fun state =>
    if Z.land state LOCKED_FLAG =? LOCKED_FLAG
    then yield_now ;;; state <- load this ;; Ret (inl state)
    else if Z.land state ADDR_MASK =? 0
    then Ret (inr (state, true))
    else
      r <- compare_exchange this state (Z.lor state LOCKED_FLAG) ;;
      match r with
      | Err new_state => Ret (inl new_state)
      | Ok _ =>
          let* (new_state, removed) :=
            remove_wait_queue_entry this (Z.lor state LOCKED_FLAG) entry in
          (if Z.land new_state LOCKED_FLAG =? LOCKED_FLAG
           then process_wait_queue S this new_state
           else Ret tt) ;;;
          Ret (inr (state, negb removed))
      end) state in
  if (need_completion : bool)
  then
    Loop (fun _ =>
      finalized <- result_finalized entry ;;
      if (finalized : bool) then Ret (inr tt) else yield_now ;;; Ret (inl tt)) tt ;;;
    opcode <- read_field entry e_opcode ;;
    release_loop S this state opcode ;;; Ret tt
  else Ret tt.

(** The [wait_resources_sync] method; [wq] is the address of the wait queue
    in the caller's frame.  The error of the source hands the unused
    [begin_wait] back; here the caller still has it, and gets [Err tt]. *)
Definition wait_resources_sync (S : Primitive) `{DropCallbacks}
    (self wq state : Z) (opcode : Opcode) (begin_wait : program unit) :
    program (Result Z unit) :=
  debug_assert (negb (Z.land state ADDR_MASK =? 0) || negb (Z.land state DATA_MASK =? 0)) ;;;
  wait_queue_default wq ;;;
  construct S wq self opcode true ;;;
  pushed <- try_push_wait_queue_entry self wq state ;;
  result <- (if (pushed : bool)
             then
               begin_wait ;;;
               e <- entry wq ;;
               result <- poll_result_sync e ;;
               Ret (Ok result)
             else Ret (Err tt)) ;;
  wait_queue_drop wq ;;;
  Ret result.
