(* ===== verification/Pager.v ===== *)
(** * Pagers

    [src/pager.rs]: a pager owns a wait queue that a primitive's
    [register_pager] constructs and pushes, and whose result its owner polls
    later.  A pager is designated by the address of its wait queue. *)

From S2P Require Import Prelude Prog Word Opcode Memory WaitQueue.

(** [enum Error]. *)
Inductive Error : Type :=
| NotRegistered
| WrongMode
| NotReady.

#[global] Instance Error_eq_dec : EqDecision Error.
Proof. solve_decision. Defined.

(** [trait SyncResult]: how a primitive reads the [u8] result of an entry. *)
Class SyncResult (S : Primitive) (R : Type) : Type :=
  to_result : Z -> option Error -> program R.

Arguments to_result S {R _} value pager_error.

(** [Pager::default()]. *)
Definition pager_default (p : Z) : program unit := wait_queue_default p.

(** [Pager::is_registered]. *)
Definition is_registered (p : Z) : program bool := is_pollable p.

Section poll.
  Context (S : Primitive) {R : Type} `{SyncResult S R}.

(** [Pager::poll_async]. *)
Definition poll_async (p : Z) (cx : Waker) : program R :=
  registered <- is_registered p ;;
  if negb registered then to_result S 0 (Some NotRegistered)
  else
    result <- await_result p cx ;;
    if result =? ERROR_WRONG_MODE then to_result S result (Some WrongMode)
    else to_result S result None.

(** [Pager::poll_sync]. *)
Definition poll_sync (p : Z) : program R :=
  registered <- is_registered p ;;
  if negb registered then to_result S 0 (Some NotRegistered)
  else
    e <- entry p ;;
    result <- poll_result_sync e ;;
    if result =? ERROR_WRONG_MODE then to_result S result (Some WrongMode)
    else to_result S result None.

(** [Pager::try_poll]. *)
Definition try_poll (p : Z) : program R :=
  registered <- is_registered p ;;
  if negb registered then to_result S 0 (Some NotRegistered)
  else
    e <- entry p ;;
    result <- try_consume_result e ;;
    match result with
    | Some result => to_result S result None
    | None => to_result S 0 (Some NotReady)
    end.

End poll.

(** Dropping a pager drops its wait queue. *)
Definition pager_drop `{DropCallbacks} (p : Z) : program unit := wait_queue_drop p.
