(* ===== verification/Lock.v ===== *)
(** * Lock

    [src/lock.rs]: the shared-exclusive lock.  [self] is the address of the
    lock's state word; [wq] is the address of the wait queue in the frame of
    the calling thread or task (each iteration of the source's loops uses the
    same slot); [cx] is the waker of the calling task. *)

From S2P Require Import Prelude Prog Word Opcode Memory WaitQueue SyncPrimitive Pager.

(** [enum Mode]. *)
Inductive Mode : Type :=
| MExclusive
| MShared
| WaitExclusive
| WaitShared.

#[global] Instance Mode_eq_dec : EqDecision Mode.
Proof. solve_decision. Defined.

Definition MAX_SHARED_OWNERS : Z := DATA_MASK - 1.
Definition POISONED_STATE : Z := LOCKED_FLAG.
Definition ACQUIRED : Z := 0.
Definition NOT_ACQUIRED : Z := 1.
Definition POISONED : Z := 2.
Definition MAX_SPIN_COUNT : Z := 128.

#[global] Instance Lock_sync_primitive : SyncPrimitive Lock := MAX_SHARED_OWNERS.

(** [<Lock as SyncPrimitive>::drop_wait_queue_entry]. *)
Definition Lock_drop_wait_queue_entry (entry : Z) : program unit :=
  force_remove_wait_queue_entry Lock entry.

(** [<Lock as SyncResult>::to_result]. *)
#[global] Instance Lock_to_result : SyncResult Lock (Result bool Error) :=
  fun value pager_error =>
    match pager_error with
    | None =>
        debug_assert ((value =? ACQUIRED) || (value =? POISONED)) ;;;
        Ret (Ok (value =? ACQUIRED))
    | Some e => Ret (Err e)
    end.

(** [Lock::new]: the initial state word. *)
Definition new : Z := 0.

Definition is_free (self : Z) : program bool :=
  state <- load self ;;
  Ret (negb (state =? POISONED_STATE) && (Z.land state DATA_MASK =? 0)).

Definition is_locked (self : Z) : program bool :=
  state <- load self ;;
  Ret (Z.land state DATA_MASK =? DATA_MASK).

Definition is_shared (self : Z) : program bool :=
  state <- load self ;;
  let share_state := Z.land state DATA_MASK in
  Ret (negb (share_state =? 0) && negb (share_state =? DATA_MASK)).

Definition is_poisoned (self : Z) : program bool :=
  state <- load self ;;
  Ret (state =? POISONED_STATE).

(** The [try_lock_internal] method. *)
Definition try_lock_internal (self state : Z) : program (Z * Z) :=
  Loop (fun state =>
    if state =? POISONED_STATE then Ret (inr (POISONED, state))
    else if negb (state =? 0) then Ret (inr (NOT_ACQUIRED, state))
    else
      r <- compare_exchange self 0 DATA_MASK ;;
      match r with
      | Ok _ => Ret (inr (ACQUIRED, 0))
      | Err new_state => Ret (inl new_state)
      end) state.

(** The [try_share_internal] method. *)
Definition try_share_internal (self state : Z) : program (Z * Z) :=
  Loop (fun state =>
    if state =? POISONED_STATE then Ret (inr (POISONED, state))
    else if MAX_SHARED_OWNERS <=? state then Ret (inr (NOT_ACQUIRED, state))
    else
      r <- compare_exchange self state (usize_add state 1) ;;
      match r with
      | Ok _ => Ret (inr (ACQUIRED, 0))
      | Err new_state => Ret (inl new_state)
      end) state.

(** The spin-backoff loop shared by the two [_spin] methods: [attempt] is
    retried with the state last seen, yielding every fourth time. *)
Definition spin (attempt : Z -> program (Z * Z)) (state : Z) : program (Z * Z) :=
  Loop (fun '(spin_count, result, state) =>
    if spin_count <? MAX_SPIN_COUNT
    then
      let* (result, state) := attempt state in
      if negb (result =? NOT_ACQUIRED) then Ret (inr (result, state))
      else
        (if spin_count mod 4 =? 0 then yield_now else Ret tt) ;;;
        Ret (inl (spin_count + 1, result, state))
    else Ret (inr (result, state))) (0, NOT_ACQUIRED, state).

(** The [try_lock_internal_spin] method. *)
Definition try_lock_internal_spin (self : Z) : program (Z * Z) :=
  r <- compare_exchange self 0 DATA_MASK ;;
  match r with
  | Ok _ => Ret (ACQUIRED, 0)
  | Err state => spin (try_lock_internal self) state
  end.

(** The closure of the fast path of [try_share_internal_spin]. *)
Definition share_update (state : Z) : program (option Z) :=
  Ret (if state <? MAX_SHARED_OWNERS then Some (usize_add state 1) else None).

(** The [try_share_internal_spin] method. *)
Definition try_share_internal_spin (self : Z) : program (Z * Z) :=
  r <- fetch_update self share_update ;;
  match r with
  | Ok _ => Ret (ACQUIRED, 0)
  | Err state => spin (try_share_internal self) state
  end.

(** [Lock::try_lock]. *)
Definition try_lock (self : Z) : program bool :=
  state <- load self ;;
  let* (result, _) := try_lock_internal self state in
  Ret (result =? ACQUIRED).

(** [Lock::try_share]. *)
Definition try_share (self : Z) : program bool :=
  state <- load self ;;
  let* (result, _) := try_share_internal self state in
  Ret (result =? ACQUIRED).

Section acquire.
  Context `{DropCallbacks}.

(** The loop of [lock_sync_with] and [share_sync_with]: the two methods
    differ in the attempt and in the opcode of the entry they push. *)
Definition acquire_sync_with (attempt : program (Z * Z)) (opcode : Opcode)
    (self wq : Z) (begin_wait : program unit) : program bool :=
  Loop (fun _ =>
    let* (result, state) := attempt in
    if result =? ACQUIRED then Ret (inr true)
    else if result =? POISONED then Ret (inr false)
    else
      debug_assert (result =? NOT_ACQUIRED) ;;;
      r <- wait_resources_sync Lock self wq state opcode begin_wait ;;
      match r with
      | Ok result =>
          debug_assert ((result =? ACQUIRED) || (result =? POISONED)) ;;;
          Ret (inr (result =? ACQUIRED))
      | Err _ => Ret (inl tt)
      end) tt.

(** [Lock::lock_sync_with]. *)
Definition lock_sync_with (self wq : Z) (begin_wait : program unit) : program bool :=
  acquire_sync_with (try_lock_internal_spin self) Exclusive self wq begin_wait.

(** [Lock::lock_sync]. *)
Definition lock_sync (self wq : Z) : program bool :=
  lock_sync_with self wq (Ret tt).

(** [Lock::share_sync_with]. *)
Definition share_sync_with (self wq : Z) (begin_wait : program unit) : program bool :=
  acquire_sync_with (try_share_internal_spin self) Shared self wq begin_wait.

(** [Lock::share_sync]. *)
Definition share_sync (self wq : Z) : program bool :=
  share_sync_with self wq (Ret tt).

(** The loop of [lock_async_with] and [share_async_with]; dropping the future
    at its suspension point is [wait_queue_drop wq]. *)
Definition acquire_async_with (attempt : program (Z * Z)) (opcode : Opcode)
    (self wq : Z) (cx : Waker) (begin_wait : program unit) : program bool :=
  Loop (fun _ =>
    let* (result, state) := attempt in
    if result =? ACQUIRED then Ret (inr true)
    else if result =? POISONED then Ret (inr false)
    else
      debug_assert (result =? NOT_ACQUIRED) ;;;
      wait_queue_default wq ;;;
      construct Lock wq self opcode false ;;;
      pushed <- try_push_wait_queue_entry self wq state ;;
      if (pushed : bool)
      then
        begin_wait ;;;
        result <- await_result wq cx ;;
        debug_assert ((result =? ACQUIRED) || (result =? POISONED)) ;;;
        wait_queue_drop wq ;;;
        Ret (inr (result =? ACQUIRED))
      else wait_queue_drop wq ;;; Ret (inl tt)) tt.

(** [Lock::lock_async_with]. *)
Definition lock_async_with (self wq : Z) (cx : Waker) (begin_wait : program unit) :
    program bool :=
  acquire_async_with (try_lock_internal_spin self) Exclusive self wq cx begin_wait.

(** [Lock::lock_async]. *)
Definition lock_async (self wq : Z) (cx : Waker) : program bool :=
  lock_async_with self wq cx (Ret tt).

(** [Lock::share_async_with]. *)
Definition share_async_with (self wq : Z) (cx : Waker) (begin_wait : program unit) :
    program bool :=
  acquire_async_with (try_share_internal_spin self) Shared self wq cx begin_wait.

(** [Lock::share_async]. *)
Definition share_async (self wq : Z) (cx : Waker) : program bool :=
  share_async_with self wq cx (Ret tt).

End acquire.

(** The opcode [register_pager] constructs the entry with. *)
Definition mode_opcode (mode : Mode) : Opcode :=
  match mode with
  | MExclusive => Exclusive
  | MShared => Shared
  | WaitExclusive => Wait DATA_MASK
  | WaitShared => Wait 1
  end.

(** What [register_pager] decides from a state in the waiting modes. *)
Definition wait_result (mode : Mode) (state : Z) : Z :=
  if state =? POISONED then POISONED
  else if (bool_decide (mode = WaitExclusive) && (Z.land state DATA_MASK =? 0))
          || (bool_decide (mode = WaitShared)
              && (Z.land state DATA_MASK <? MAX_SHARED_OWNERS))
  then ACQUIRED
  else NOT_ACQUIRED.

(** [Lock::register_pager]. *)
Definition register_pager (self pager : Z) (mode : Mode) (is_sync : bool) : program bool :=
  registered <- is_registered pager ;;
  if (registered : bool) then Ret false
  else
    construct Lock pager self (mode_opcode mode) is_sync ;;;
    Loop (fun _ =>
      let* (result, state) :=
        match mode with
        | MExclusive => try_lock_internal_spin self
        | MShared => try_share_internal_spin self
        | WaitExclusive | WaitShared =>
            state <- load self ;;
            Ret (wait_result mode state, state)
        end in
      if (result =? ACQUIRED) || (result =? POISONED)
      then e <- entry pager ;; set_result e result ;;; Ret (inr tt)
      else
        pushed <- try_push_wait_queue_entry self pager state ;;
        if (pushed : bool) then Ret (inr tt) else Ret (inl tt)) tt ;;;
    Ret true.

(** [Lock::release_lock]. *)
Definition release_lock (self : Z) : program bool :=
  r <- compare_exchange self DATA_MASK 0 ;;
  match r with
  | Ok _ => Ret true
  | Err state => release_loop Lock self state Exclusive
  end.

(** The closure of the fast path of [release_share]. *)
Definition unshare_update (state : Z) : program (option Z) :=
  Ret (if negb (state =? 0) && (state <=? MAX_SHARED_OWNERS)
       then Some (usize_sub state 1) else None).

(** [Lock::release_share]. *)
Definition release_share (self : Z) : program bool :=
  r <- fetch_update self unshare_update ;;
  match r with
  | Ok _ => Ret true
  | Err state => release_loop Lock self state Shared
  end.

(** The [poison_lock_internal] method. *)
Definition poison_lock_internal (self state : Z) : program bool :=
  Loop (fun state =>
    if (state =? POISONED_STATE) || negb (Z.land state DATA_MASK =? DATA_MASK)
    then Ret (inr false)
    else if Z.land state LOCKED_FLAG =? LOCKED_FLAG
    then yield_now ;;; state <- load self ;; Ret (inl state)
    else
      r <- compare_exchange self state POISONED_STATE ;;
      match r with
      | Ok prev_state =>
          debug_assert (Z.land prev_state LOCKED_FLAG =? 0) ;;;
          let anchor_ptr := to_anchor_ptr prev_state in
          (if negb (anchor_ptr =? 0)
           then
             tail_entry_ptr <- to_entry_ptr anchor_ptr ;;
             iter_forward tail_entry_ptr false
               (fun entry _ _ => set_result entry POISONED ;;; Ret (tt, false)) tt
           else Ret tt) ;;;
          Ret (inr true)
      | Err new_state => Ret (inl new_state)
      end) state.

(** [Lock::poison_lock]. *)
Definition poison_lock (self : Z) : program bool :=
  r <- compare_exchange self DATA_MASK POISONED_STATE ;;
  match r with
  | Ok _ => Ret true
  | Err state => poison_lock_internal self state
  end.

(** [Lock::clear_poison]. *)
Definition clear_poison (self : Z) : program bool :=
  r <- compare_exchange self POISONED_STATE 0 ;;
  match r with
  | Ok _ => Ret true
  | Err _ => Ret false
  end.
