(* ===== verification/Semaphore.v ===== *)
(** * Semaphore

    [src/semaphore.rs]: the counting semaphore.  The data of the state word
    is the number of permits that are taken. *)

From S2P Require Import Prelude Prog Word Opcode Memory WaitQueue SyncPrimitive Pager.

Definition MAX_PERMITS : Z := DATA_MASK.

#[global] Instance Semaphore_sync_primitive : SyncPrimitive Semaphore := MAX_PERMITS.

(** [<Semaphore as SyncPrimitive>::drop_wait_queue_entry]. *)
Definition Semaphore_drop_wait_queue_entry (entry : Z) : program unit :=
  force_remove_wait_queue_entry Semaphore entry.

(** [<Semaphore as SyncResult>::to_result]. *)
#[global] Instance Semaphore_to_result : SyncResult Semaphore (Result unit Error) :=
  fun _ pager_error =>
    match pager_error with
    | None => Ret (Ok tt)
    | Some e => Ret (Err e)
    end.

(** [u8::try_from] on a [usize]. *)
Definition u8_try_from (count : Z) : option Z :=
  if count <? 256 then Some count else None.

(** [Semaphore::new]: the initial state word. *)
Definition new : Z := 0.

(** [Semaphore::with_permits]: the initial state word. *)
Definition with_permits (permits : Z) : Z :=
  let adjusted_permits := Z.min permits MAX_PERMITS in
  usize_sub MAX_PERMITS adjusted_permits.

Definition is_open (self : Z) : program bool :=
  state <- load self ;;
  Ret (negb (Z.land state DATA_MASK =? MAX_PERMITS)).

Definition is_closed (self : Z) : program bool :=
  state <- load self ;;
  Ret (Z.land state DATA_MASK =? DATA_MASK).

Definition available_permits (self : Z) : program Z :=
  state <- load self ;;
  Ret (usize_sub MAX_PERMITS (Z.land state DATA_MASK)).

(** The [try_acquire_internal] method. *)
Definition try_acquire_internal (self count : Z) : program (bool * Z) :=
  state <- load self ;;
  Loop (fun state =>
    if negb (Z.land state ADDR_MASK =? 0)
       || (MAX_PERMITS <? usize_add (Z.land state DATA_MASK) count)
    then Ret (inr (false, state))
    else
      r <- compare_exchange self state (usize_add state count) ;;
      match r with
      | Ok _ => Ret (inr (true, 0))
      | Err new_state => Ret (inl new_state)
      end) state.

(** [Semaphore::try_acquire]. *)
Definition try_acquire (self : Z) : program bool :=
  let* (result, _) := try_acquire_internal self 1 in
  Ret result.

(** [Semaphore::try_acquire_many]. *)
Definition try_acquire_many (self count : Z) : program bool :=
  if MAX_PERMITS <? count then Ret false
  else
    match u8_try_from count with
    | None => Ret false
    | Some count =>
        let* (result, _) := try_acquire_internal self count in
        Ret result
    end.

Section acquire.
  Context `{DropCallbacks}.

(** [Semaphore::acquire_many_sync_with]. *)
Definition acquire_many_sync_with (self wq count : Z) (begin_wait : program unit) :
    program bool :=
  if MAX_PERMITS <? count then Ret false
  else
    match u8_try_from count with
    | None => Ret false
    | Some count =>
        Loop (fun _ =>
          let* (result, state) := try_acquire_internal self count in
          if (result : bool) then Ret (inr true)
          else
            r <- wait_resources_sync Semaphore self wq state (SemaphoreOp count) begin_wait ;;
            match r with
            | Err _ => Ret (inl tt)
            | Ok _ => Ret (inr true)
            end) tt
    end.

(** [Semaphore::acquire_many_sync]. *)
Definition acquire_many_sync (self wq count : Z) : program bool :=
  acquire_many_sync_with self wq count (Ret tt).

(** [Semaphore::acquire_sync_with]. *)
Definition acquire_sync_with (self wq : Z) (begin_wait : program unit) : program unit :=
  acquire_many_sync_with self wq 1 begin_wait ;;; Ret tt.

(** [Semaphore::acquire_sync]. *)
Definition acquire_sync (self wq : Z) : program unit :=
  acquire_many_sync_with self wq 1 (Ret tt) ;;; Ret tt.

(** [Semaphore::acquire_many_async_with]; dropping the future at its
    suspension point is [wait_queue_drop wq]. *)
Definition acquire_many_async_with (self wq count : Z) (cx : Waker)
    (begin_wait : program unit) : program bool :=
  if MAX_PERMITS <? count then Ret false
  else
    match u8_try_from count with
    | None => Ret false
    | Some count =>
        Loop (fun _ =>
          let* (result, state) := try_acquire_internal self count in
          if (result : bool) then Ret (inr true)
          else
            wait_queue_default wq ;;;
            construct Semaphore wq self (SemaphoreOp count) false ;;;
            pushed <- try_push_wait_queue_entry self wq state ;;
            if (pushed : bool)
            then
              begin_wait ;;;
              await_result wq cx ;;;
              wait_queue_drop wq ;;;
              Ret (inr true)
            else wait_queue_drop wq ;;; Ret (inl tt)) tt
    end.

(** [Semaphore::acquire_many_async]. *)
Definition acquire_many_async (self wq count : Z) (cx : Waker) : program bool :=
  acquire_many_async_with self wq count cx (Ret tt).

(** [Semaphore::acquire_async_with]. *)
Definition acquire_async_with (self wq : Z) (cx : Waker) (begin_wait : program unit) :
    program unit :=
  acquire_many_async_with self wq 1 cx begin_wait ;;; Ret tt.

(** [Semaphore::acquire_async]. *)
Definition acquire_async (self wq : Z) (cx : Waker) : program unit :=
  acquire_many_async_with self wq 1 cx (Ret tt) ;;; Ret tt.

End acquire.

(** [Semaphore::register_pager]. *)
Definition register_pager (self pager count : Z) (is_sync : bool) : program bool :=
  if MAX_PERMITS <? count then Ret false
  else
    registered <- is_registered pager ;;
    if (registered : bool) then Ret false
    else
      match u8_try_from count with
      | None => Ret false
      | Some count =>
          construct Semaphore pager self (SemaphoreOp count) is_sync ;;;
          Loop (fun _ =>
            let* (result, state) := try_acquire_internal self count in
            if (result : bool)
            then e <- entry pager ;; set_result e 0 ;;; Ret (inr tt)
            else
              pushed <- try_push_wait_queue_entry self pager state ;;
              if (pushed : bool) then Ret (inr tt) else Ret (inl tt)) tt ;;;
          Ret true
      end.

(** [Semaphore::release]. *)
Definition release (self : Z) : program bool :=
  r <- compare_exchange self 1 0 ;;
  match r with
  | Ok _ => Ret true
  | Err state => release_loop Semaphore self state (SemaphoreOp 1)
  end.

(** [Semaphore::release_many]. *)
Definition release_many (self count : Z) : program bool :=
  match u8_try_from count with
  | None => Ret false
  | Some count =>
      r <- compare_exchange self count 0 ;;
      match r with
      | Ok _ => Ret true
      | Err state => release_loop Semaphore self state (SemaphoreOp count)
      end
  end.
