(* ===== verification/Barrier.v ===== *)
(** * Barrier

    [src/barrier.rs]: a barrier for a number of tasks.  The data of the state
    word is the number of tasks that have yet to arrive. *)

From S2P Require Import Prelude Prog Word Opcode Memory WaitQueue SyncPrimitive Pager.

Definition MAX_TASKS : Z := DATA_MASK.

#[global] Instance Barrier_sync_primitive : SyncPrimitive Barrier := MAX_TASKS.

(** [<Barrier as SyncPrimitive>::drop_wait_queue_entry]. *)
Definition Barrier_drop_wait_queue_entry (entry : Z) : program unit :=
  force_remove_wait_queue_entry Barrier entry.

(** [<Barrier as SyncResult>::to_result]. *)
#[global] Instance Barrier_to_result : SyncResult Barrier (Result bool Error) :=
  fun result pager_error =>
    match pager_error with
    | None => Ret (Ok (result =? 1))
    | Some e => Ret (Err e)
    end.

(** [Barrier::with_count]: the initial state word. *)
Definition with_count (count : Z) : Z := Z.min MAX_TASKS count.

(** [<Barrier as Default>::default]: the initial state word. *)
Definition default : Z := MAX_TASKS.

Definition count (self : Z) : program Z :=
  state <- load self ;;
  Ret (Z.land state DATA_MASK).

(** The [count_down] method on the last task to arrive: [value] is the state
    the counter was reset from, and the returned count the number of tasks
    that arrived. *)
Definition release_arrived (value count : Z) : program Z :=
  let anchor_ptr := to_anchor_ptr value in
  if negb (anchor_ptr =? 0)
  then
    tail_entry_ptr <- to_entry_ptr anchor_ptr ;;
    iter_forward tail_entry_ptr false
      (fun entry _ count => set_result entry 0 ;;; Ret (usize_add count 1, false)) count
  else Ret count.

(** Wakes the tasks that found the counter at zero; they have to retry. *)
Definition release_early (value : Z) : program unit :=
  let anchor_ptr := to_anchor_ptr value in
  if negb (anchor_ptr =? 0)
  then
    tail_entry_ptr <- to_entry_ptr anchor_ptr ;;
    iter_forward tail_entry_ptr false
      (fun entry _ _ => set_result entry 2 ;;; Ret (tt, false)) tt
  else Ret tt.

(** The [count_down] method; [Some tt] stands for the callback handed back to
    a caller that has to retry. *)
Definition count_down (self pager : Z) (is_sync : bool) (begin_wait : program unit) :
    program (option unit) :=
  state <- load self ;;
  Loop (fun state =>
    let count := Z.land state DATA_MASK in
    if count =? 0
    then
      construct Barrier pager self (BarrierOp true) is_sync ;;;
      pushed <- try_push_wait_queue_entry self pager state ;;
      if (pushed : bool) then Ret (inr (Some tt))
      else state <- load self ;; Ret (inl state)
    else if count =? 1
    then
      r <- compare_exchange self state 0 ;;
      match r with
      | Ok value =>
          count <- release_arrived value count ;;
          debug_assert (count <=? MAX_TASKS) ;;;
          old <- swap self count ;;
          release_early old ;;;
          e <- entry pager ;;
          set_result e 1 ;;;
          Ret (inr None)
      | Err new_state => Ret (inl new_state)
      end
    else
      let* (anchor_addr, _) := anchor_ptr pager in
      debug_assert (Z.land anchor_addr (usize_not ADDR_MASK) =? 0) ;;;
      e <- entry pager ;;
      update_next_entry_anchor_ptr e (to_anchor_ptr state) ;;;
      let next_state :=
        Z.lor (Z.land (usize_sub state 1) (usize_not ADDR_MASK)) anchor_addr in
      r <- compare_exchange self state next_state ;;
      match r with
      | Ok _ => e <- entry pager ;; set_pollable e ;;; begin_wait ;;; Ret (inr None)
      | Err new_state => Ret (inl new_state)
      end) state.

(** [Result::unwrap_or(false)]. *)
Definition unwrap_or_false (r : Result bool Error) : bool :=
  match r with
  | Ok b => b
  | Err _ => false
  end.

Section wait.
  Context `{DropCallbacks}.

(** [Barrier::wait_sync_with]; [p] is the address of the pager in the frame. *)
Definition wait_sync_with (self p : Z) (begin_wait : program unit) : program bool :=
  pager_default p ;;;
  result <- Loop (fun _ =>
    construct Barrier p self (BarrierOp false) true ;;;
    returned <- count_down self p true begin_wait ;;
    match returned with
    | Some _ =>
        result <- poll_sync Barrier p ;;
        debug_assert (negb (unwrap_or_false result)) ;;;
        Ret (inl tt)
    | None =>
        result <- poll_sync Barrier p ;;
        Ret (inr (unwrap_or_false result))
    end) tt ;;
  pager_drop p ;;;
  Ret result.

(** [Barrier::wait_sync]. *)
Definition wait_sync (self p : Z) : program bool := wait_sync_with self p (Ret tt).

(** [Barrier::wait_async_with]; dropping the future at its suspension point
    is [pager_drop p]. *)
Definition wait_async_with (self p : Z) (cx : Waker) (begin_wait : program unit) :
    program bool :=
  pager_default p ;;;
  result <- Loop (fun _ =>
    construct Barrier p self (BarrierOp false) false ;;;
    returned <- count_down self p false begin_wait ;;
    match returned with
    | Some _ =>
        result <- poll_async Barrier p cx ;;
        debug_assert (negb (unwrap_or_false result)) ;;;
        Ret (inl tt)
    | None =>
        result <- poll_async Barrier p cx ;;
        Ret (inr (unwrap_or_false result))
    end) tt ;;
  pager_drop p ;;;
  Ret result.

(** [Barrier::wait_async]. *)
Definition wait_async (self p : Z) (cx : Waker) : program bool :=
  wait_async_with self p cx (Ret tt).

End wait.
