(* ===== verification/Gate.v ===== *)
(** * Gate

    [src/gate.rs]: an unbounded barrier that is opened, sealed or controlled.
    The data of the state word is the gate's [State]. *)

From S2P Require Import Prelude Prog Word Opcode Memory WaitQueue SyncPrimitive.
From S2P Require Pager.

(** [enum State]. *)
Inductive State : Type :=
| Controlled
| Sealed
| Open.

#[global] Instance State_eq_dec : EqDecision State.
Proof. solve_decision. Defined.

(** [enum Error]; [ESealed] is [Error::Sealed]. *)
Inductive Error : Type :=
| Rejected
| ESealed
| SpuriousFailure
| NotRegistered
| WrongMode
| NotReady.

#[global] Instance Error_eq_dec : EqDecision Error.
Proof. solve_decision. Defined.

Definition STATE_MASK : Z := 3.

(** [<u8 as From<State>>::from]. *)
Definition u8_from_State (value : State) : Z :=
  match value with
  | Controlled => 0
  | Sealed => 1
  | Open => 2
  end.

(** [<State as From<usize>>::from]. *)
Definition State_from (value : Z) : State :=
  if value =? 0 then Controlled
  else if value =? 1 then Sealed
  else Open.

(** [<State as From<u8>>::from]. *)
Definition State_from_u8 (value : Z) : State := State_from value.

(** [<u8 as From<Error>>::from]. *)
Definition u8_from_Error (value : Error) : Z :=
  match value with
  | Rejected => 4
  | ESealed => 8
  | SpuriousFailure => 12
  | NotRegistered => 16
  | WrongMode => 20
  | NotReady => 24
  end.

(** [<Error as From<usize>>::from]. *)
Definition Error_from (value : Z) : Error :=
  if value =? 4 then Rejected
  else if value =? 8 then ESealed
  else if value =? 12 then SpuriousFailure
  else if value =? 16 then NotRegistered
  else if value =? 20 then WrongMode
  else NotReady.

(** [<Error as From<u8>>::from]. *)
Definition Error_from_u8 (value : Z) : Error := Error_from value.

(** [Gate::into_u8]. *)
Definition into_u8 (state : State) (error : option Error) : Z :=
  Z.lor (u8_from_State state)
    match error with
    | None => 0
    | Some e => u8_from_Error e
    end.

#[global] Instance Gate_sync_primitive : SyncPrimitive Gate := usize_modulus - 1.

(** [<Gate as SyncResult>::to_result]. *)
#[global] Instance Gate_to_result : Pager.SyncResult Gate (Result State Error) :=
  fun value pager_error =>
    match pager_error with
    | Some Pager.NotRegistered => Ret (Err NotRegistered)
    | Some Pager.WrongMode => Ret (Err WrongMode)
    | Some Pager.NotReady => Ret (Err NotReady)
    | None =>
        let state := State_from_u8 (Z.land value STATE_MASK) in
        let error := Z.land value (u8_not STATE_MASK) in
        if negb (error =? 0) then Ret (Err (Error_from_u8 error)) else Ret (Ok state)
    end.

(** [Gate::new]: the initial state word. *)
Definition new : Z := 0.

(** [Gate::state]. *)
Definition state (self : Z) : program State :=
  value <- load self ;;
  Ret (State_from (Z.land value DATA_MASK)).

(** The closure of [reset]. *)
Definition reset_update (value : Z) : program (option Z) :=
  let state := State_from (Z.land value DATA_MASK) in
  if bool_decide (state = Controlled) then Ret None
  else
    debug_assert (Z.land value ADDR_MASK =? 0) ;;;
    Ret (Some (Z.lor (Z.land value ADDR_MASK) (u8_from_State state))).

(** [Gate::reset]. *)
Definition reset (self : Z) : program (option State) :=
  r <- fetch_update self reset_update ;;
  match r with
  | Ok state => Ret (Some (State_from (Z.land state DATA_MASK)))
  | Err _ => Ret None
  end.

(** The closure of [wake_all]. *)
Definition wake_update (next_state : option State) (value : Z) : program (option Z) :=
  Ret (Some match next_state with
            | Some new_value => u8_from_State new_value
            | None => Z.land value DATA_MASK
            end).

(** The [wake_all] method. *)
Definition wake_all (self : Z) (next_state : option State) (error : option Error) :
    program (State * Z) :=
  r <- fetch_update self (wake_update next_state) ;;
  match r with
  | Ok value | Err value =>
      let prev_state := State_from (Z.land value DATA_MASK) in
      let next_state := match next_state with Some s => s | None => prev_state end in
      let result := into_u8 next_state error in
      let anchor_ptr := to_anchor_ptr value in
      count <- (if negb (anchor_ptr =? 0)
        then
          tail_entry_ptr <- to_entry_ptr anchor_ptr ;;
          iter_forward tail_entry_ptr false
            (fun entry _ count => set_result entry result ;;; Ret (usize_add count 1, false)) 0
        else Ret 0) ;;
      Ret (prev_state, count)
  end.

(** What [permit] and [reject] return of [wake_all]'s result. *)
Definition if_controlled (r : State * Z) : program (Result Z State) :=
  let '(state, count) := r in
  if bool_decide (state = Controlled) then Ret (Ok count)
  else debug_assert (count =? 0) ;;; Ret (Err state).

(** [Gate::permit]. *)
Definition permit (self : Z) : program (Result Z State) :=
  r <- wake_all self None None ;;
  if_controlled r.

(** [Gate::reject]. *)
Definition reject (self : Z) : program (Result Z State) :=
  r <- wake_all self None (Some Rejected) ;;
  if_controlled r.

(** [Gate::open]. *)
Definition open (self : Z) : program (State * Z) :=
  wake_all self (Some Open) None.

(** [Gate::seal]. *)
Definition seal (self : Z) : program (State * Z) :=
  wake_all self (Some Sealed) (Some ESealed).

(** The [push_wait_queue_entry] method. *)
Definition push_wait_queue_entry (self pager : Z) (begin_wait : program unit) : program unit :=
  Loop (fun _ =>
    state <- load self ;;
    match State_from (Z.land state DATA_MASK) with
    | Controlled =>
        pushed <- try_push_wait_queue_entry self pager state ;;
        if (pushed : bool) then begin_wait ;;; Ret (inr tt) else Ret (inl tt)
    | Sealed =>
        e <- entry pager ;;
        set_result e (into_u8 Sealed (Some ESealed)) ;;; Ret (inr tt)
    | Open =>
        e <- entry pager ;;
        set_result e (into_u8 Open None) ;;; Ret (inr tt)
    end) tt.

(** [Gate::register_pager]. *)
Definition register_pager (self pager : Z) (is_sync : bool) : program bool :=
  registered <- Pager.is_registered pager ;;
  if (registered : bool) then Ret false
  else
    construct Gate pager self (Wait 0) is_sync ;;;
    push_wait_queue_entry self pager (Ret tt) ;;;
    Ret true.

(** [<Gate as SyncPrimitive>::drop_wait_queue_entry]. *)
Definition Gate_drop_wait_queue_entry (entry : Z) : program unit :=
  result <- try_consume_result entry ;;
  match result with
  | Some _ => Ret tt
  | None =>
      this <- read_field entry e_addr ;;
      wake_all this None (Some SpuriousFailure) ;;;
      acknowledge_result_sync entry ;;; Ret tt
  end.

(** [<Gate as Drop>::drop]. *)
Definition gate_drop (self : Z) : program unit :=
  state <- load self ;;
  if Z.land state ADDR_MASK =? 0 then Ret tt
  else seal self ;;; Ret tt.

Section enter.
  Context `{DropCallbacks}.

(** [Gate::enter_sync_with]; [p] is the address of the pager in the frame. *)
Definition enter_sync_with (self p : Z) (begin_wait : program unit) :
    program (Result State Error) :=
  Pager.pager_default p ;;;
  construct Gate p self (Wait 0) true ;;;
  push_wait_queue_entry self p begin_wait ;;;
  result <- Pager.poll_sync Gate p ;;
  Pager.pager_drop p ;;;
  Ret result.

(** [Gate::enter_sync]. *)
Definition enter_sync (self p : Z) : program (Result State Error) :=
  enter_sync_with self p (Ret tt).

(** [Gate::enter_async_with]; dropping the future at its suspension point is
    [pager_drop p]. *)
Definition enter_async_with (self p : Z) (cx : Waker) (begin_wait : program unit) :
    program (Result State Error) :=
  Pager.pager_default p ;;;
  construct Gate p self (Wait 0) false ;;;
  push_wait_queue_entry self p begin_wait ;;;
  result <- Pager.poll_async Gate p cx ;;
  Pager.pager_drop p ;;;
  Ret result.

(** [Gate::enter_async]. *)
Definition enter_async (self p : Z) (cx : Waker) : program (Result State Error) :=
  enter_async_with self p cx (Ret tt).

End enter.
