(* ===== verification/Crate.v ===== *)
(** * The crate's drop callbacks

    Every entry stores a pointer to the [drop_wait_queue_entry] of the
    primitive it was constructed for; here is the table of these functions. *)

From S2P Require Import Prelude Prog Memory WaitQueue.
From S2P Require Lock Semaphore Barrier Gate.

#[global] Instance crate_drop_callbacks : DropCallbacks :=
  fun callback entry =>
    match callback with
    | Lock => Lock.Lock_drop_wait_queue_entry entry
    | Semaphore => Semaphore.Semaphore_drop_wait_queue_entry entry
    | Barrier => Barrier.Barrier_drop_wait_queue_entry entry
    | Gate => Gate.Gate_drop_wait_queue_entry entry
    end.
