(* ===== verification/Geometry.v ===== *)
(** * Where wait queues put their anchor and entry

    A wait queue is a 128-byte, 8-aligned area on a stack; its anchor is the
    128-aligned address in it, and its entry the half of the area that does
    not contain the anchor.  These facts make the address part of a state
    word enough to find the entry. *)

From S2P Require Import Prelude Prog Word Opcode Memory WaitQueue.

(** Addresses a wait queue can have. *)
Definition wq_ok (wq : Z) : Prop :=
  0 < wq /\ wq mod 8 = 0 /\ wq + 256 <= usize_modulus.

#[global] Instance wq_ok_dec wq : Decision (wq_ok wq).
Proof. unfold wq_ok. apply _. Defined.

(** The entry address of the wait queue at [wq]. *)
Definition wq_entry (wq : Z) : Z :=
  entry_addr (anchor_addr wq) (anchor_addr wq - wq).

(** The value [construct] stores in the anchor. *)
Definition anchor_value (wq : Z) : Z := u64_MAX - (anchor_addr wq - wq).

Lemma anchor_addr_spec wq :
  wq_ok wq ->
  anchor_addr wq mod 128 = 0 /\ wq <= anchor_addr wq <= wq + 120.
Proof.
  unfold wq_ok, anchor_addr, VIRTUAL_ALIGNMENT, usize_modulus. intros (H1 & H2 & H3).
  pose proof (Z.mod_pos_bound wq 128 ltac:(lia)).
  pose proof (Z_div_mod_eq_full wq 128). pose proof (Z_div_mod_eq_full wq 8).
  case_bool; [lia|].
  rewrite usize_add_small by (unfold usize_modulus; lia).
  rewrite usize_sub_small by (unfold usize_modulus; lia).
  replace (wq + 128 - wq mod 128) with ((wq / 128 + 1) * 128) by lia.
  rewrite Z_mod_mult. lia.
Qed.

Lemma wq_entry_eq wq :
  wq_ok wq ->
  wq_entry wq = if anchor_addr wq - wq <? 64 then wq + 64 else wq.
Proof.
  intros Hok. pose proof (anchor_addr_spec wq Hok) as [_ ?].
  unfold wq_ok, wq_entry, entry_addr, VIRTUAL_ALIGNMENT in *.
  rewrite (usize_sub_small (anchor_addr wq)) by (unfold usize_modulus in *; lia).
  change (128 / 2) with 64. case_bool.
  - rewrite usize_add_small by (unfold usize_modulus in *; lia). lia.
  - lia.
Qed.

Lemma wq_entry_range wq : wq_ok wq -> wq_entry wq = wq \/ wq_entry wq = wq + 64.
Proof. intros Hok. rewrite wq_entry_eq by done. case_bool; auto. Qed.

Lemma wq_entry_pos wq : wq_ok wq -> 0 < wq_entry wq < usize_modulus.
Proof. intros Hok. destruct (wq_entry_range wq Hok); unfold wq_ok in Hok; lia. Qed.

Lemma wq_entry_ne_0 wq : wq_ok wq -> wq_entry wq <> 0.
Proof. intros Hok. pose proof (wq_entry_pos wq Hok). lia. Qed.

Lemma wq_entry_eqb_0 wq : wq_ok wq -> (wq_entry wq =? 0) = false.
Proof. intros Hok. apply Z.eqb_neq. by apply wq_entry_ne_0. Qed.

Lemma anchor_addr_is_addr wq : wq_ok wq -> is_addr (anchor_addr wq).
Proof.
  intros Hok. pose proof (anchor_addr_spec wq Hok) as [? ?].
  unfold wq_ok, is_addr, VIRTUAL_ALIGNMENT in *. lia.
Qed.

Lemma anchor_addr_ne_0 wq : wq_ok wq -> anchor_addr wq <> 0.
Proof.
  intros Hok. pose proof (anchor_addr_spec wq Hok) as [? ?].
  unfold wq_ok in *. lia.
Qed.

Lemma anchor_addr_eqb_0 wq : wq_ok wq -> (anchor_addr wq =? 0) = false.
Proof. intros Hok. apply Z.eqb_neq. by apply anchor_addr_ne_0. Qed.

Lemma anchor_value_ne_0 wq : wq_ok wq -> anchor_value wq <> 0.
Proof.
  intros Hok. pose proof (anchor_addr_spec wq Hok) as [? ?].
  unfold anchor_value, u64_MAX. lia.
Qed.

Lemma anchor_offset wq :
  wq_ok wq -> usize_sub (anchor_addr wq) wq = anchor_addr wq - wq.
Proof.
  intros Hok. pose proof (anchor_addr_spec wq Hok) as [? ?].
  unfold wq_ok in *. apply usize_sub_small. unfold usize_modulus. lia.
Qed.

#[export] Hint Resolve anchor_addr_is_addr wq_entry_ne_0 anchor_addr_ne_0
  anchor_value_ne_0 : saa.

(** Offset of the entry in its wait queue. *)
Lemma entry_offset wq :
  wq_ok wq -> usize_sub (wq_entry wq) wq = wq_entry wq - wq.
Proof.
  intros Hok. destruct (wq_entry_range wq Hok) as [E|E]; rewrite E;
    apply usize_sub_small; unfold usize_modulus; lia.
Qed.

Lemma entry_offset_back wq :
  wq_ok wq -> usize_sub (wq_entry wq) (wq_entry wq - wq) = wq.
Proof.
  intros Hok. rewrite usize_sub_small; unfold wq_ok in Hok; lia.
Qed.

(** ** The memory of a live entry *)

(** The wait queue at [wq] has been constructed and holds the entry [en]. *)
Definition node (m : mem) (wq : Z) (en : Entry) : Prop :=
  wq_ok wq /\
  anchors m !! anchor_addr wq = Some (anchor_value wq) /\
  entries m !! wq_entry wq = Some en /\
  e_offset en = wq_entry wq - wq.

Lemma node_inj m wq wq' en en' :
  node m wq en -> node m wq' en' -> wq_entry wq = wq_entry wq' -> wq = wq'.
Proof.
  intros (_ & _ & E1 & O1) (_ & _ & E2 & O2) E. rewrite E in E1.
  assert (en = en') as -> by congruence. lia.
Qed.

Lemma node_fun m wq en en' : node m wq en -> node m wq en' -> en = en'.
Proof. intros (_ & _ & E1 & _) (_ & _ & E2 & _). congruence. Qed.

Section rules.
  Context (t : tid).
  Implicit Types m : mem.

Lemma wp_anchor_ptr wq m (Q : Z * Z -> mem -> Prop) :
  wq_ok wq -> Q (anchor_addr wq, anchor_addr wq - wq) m -> wp t (anchor_ptr wq) m Q.
Proof.
  intros Hok HQ. pose proof (anchor_addr_spec wq Hok) as [Ha Hr].
  unfold anchor_ptr. unfold VIRTUAL_ALIGNMENT.
  apply wp_bind, wp_debug_assert; [apply Z.eqb_eq, Hok|].
  apply wp_bind, wp_debug_assert; [by apply Z.eqb_eq|].
  rewrite anchor_offset by done.
  apply wp_bind, wp_debug_assert; [apply Z.ltb_lt; lia|]. by apply wp_ret.
Qed.

(** From an anchor holding the value of a constructed wait queue to the
    address of its entry. *)
Lemma wp_to_entry_ptr_anchor wq m (Q : Z -> mem -> Prop) :
  wq_ok wq -> anchors m !! anchor_addr wq = Some (anchor_value wq) ->
  Q (wq_entry wq) m -> wp t (to_entry_ptr (anchor_addr wq)) m Q.
Proof.
  intros Hok Ha HQ. pose proof (anchor_addr_spec wq Hok) as [Hal Hr].
  unfold to_entry_ptr. apply wp_bind. eapply wp_read_anchor; [done|].
  pose proof (anchor_value_ne_0 wq Hok) as Hne. apply Z.eqb_neq in Hne. rewrite Hne.
  replace (u64_MAX - anchor_value wq) with (anchor_addr wq - wq)
    by (unfold anchor_value; lia).
  apply wp_bind, wp_debug_assert; [by apply Z.eqb_eq|].
  apply wp_bind, wp_debug_assert.
  - apply Z.eqb_eq. unfold wq_ok in Hok. rewrite usize_sub_small.
    + replace (anchor_addr wq - (anchor_addr wq - wq)) with wq by lia. lia.
    + unfold usize_modulus in *. lia.
  - by apply wp_ret.
Qed.

Lemma wp_to_entry_ptr wq en m (Q : Z -> mem -> Prop) :
  node m wq en -> Q (wq_entry wq) m -> wp t (to_entry_ptr (anchor_addr wq)) m Q.
Proof. intros (Hok & Ha & _) HQ. by apply wp_to_entry_ptr_anchor. Qed.

Lemma wp_entry wq en m (Q : Z -> mem -> Prop) :
  node m wq en -> Q (wq_entry wq) m -> wp t (entry wq) m Q.
Proof.
  intros Hn HQ. unfold entry. apply wp_bind, wp_anchor_ptr; [apply Hn|].
  by eapply wp_to_entry_ptr.
Qed.

Lemma wp_to_wait_queue_ptr wq en m (Q : Z -> mem -> Prop) :
  node m wq en -> Q wq m -> wp t (to_wait_queue_ptr (wq_entry wq)) m Q.
Proof.
  intros (Hok & _ & He & Ho) HQ. unfold to_wait_queue_ptr.
  apply wp_bind. eapply wp_read_field; [done|]. apply wp_ret.
  by rewrite Ho, entry_offset_back.
Qed.

Lemma wp_is_pollable wq en m (Q : bool -> mem -> Prop) :
  node m wq en -> Q (e_pollable en) m -> wp t (is_pollable wq) m Q.
Proof.
  intros Hn HQ. unfold is_pollable. apply wp_bind, wp_anchor_ptr; [apply Hn|].
  apply wp_bind. eapply wp_to_entry_ptr; [done|].
  rewrite wq_entry_eqb_0 by apply Hn. eapply wp_read_field; [apply Hn|done].
Qed.

End rules.
