(* ===== verification/Results.v ===== *)
(** * Delivery of results

    What [set_result] and the consuming methods do to an entry: the entry's
    16-bit state holds the result in its low byte and three flags above it. *)

From S2P Require Import Prelude Prog Word Opcode Memory WaitQueue Geometry.

(** No result has been set; a waker may be registered. *)
Definition is_waiting (en : Entry) : Prop := e_state en = 0 \/ e_state en = WAKER_SET.

(** Results are bytes. *)
Definition is_u8 (r : Z) : Prop := 0 <= r < 256.

#[global] Instance is_waiting_dec en : Decision (is_waiting en).
Proof. unfold is_waiting. apply _. Defined.

#[global] Instance is_u8_dec r : Decision (is_u8 r).
Proof. unfold is_u8. apply _. Defined.

(** The body of the loop of [set_result]. *)
Abbreviation set_result_body e r :=
  (fun state : Z =>
    debug_assert (Z.land state RESULT_SET =? 0) ;;;
    debug_assert (Z.land state RESULT_FINALIZED =? 0) ;;;
    let next_state := Z.lor (Z.lor state RESULT_SET) r in
    r <- compare_exchange_weak_state e state next_state ;;
    match r with
    | Ok _ => Ret (inr next_state)
    | Err new_state => Ret (inl new_state)
    end).

(** The entry once the result [r] has been delivered. *)
Definition resolved (r : Z) (en : Entry) : Entry :=
  set_poll true
    (set_state (e_state en + RESULT_SET + r + RESULT_FINALIZED)
      (if e_state en =? WAKER_SET then take_monitor en else en)).

(** Telling whoever the entry's monitor registers. *)
Definition notify (en : Entry) (m : mem) : mem :=
  if e_state en =? WAKER_SET
  then
    match e_monitor en with
    | Async (Some w) => set_woken ({[w]} ∪ woken m) m
    | Sync (Some t) => set_tokens ({[t]} ∪ tokens m) m
    | _ => m
    end
  else m.

(** The entry once its result has been consumed. *)
Definition consumed (en : Entry) : Entry := set_poll false (set_state 0 en).

Lemma RESULT_SET_eq : RESULT_SET = 256.
Proof. reflexivity. Qed.

Lemma WAKER_SET_eq : WAKER_SET = 512.
Proof. reflexivity. Qed.

Lemma RESULT_FINALIZED_eq : RESULT_FINALIZED = 1024.
Proof. reflexivity. Qed.

Ltac unfold_flags := rewrite ?RESULT_SET_eq, ?WAKER_SET_eq, ?RESULT_FINALIZED_eq in *.

Lemma mul_256 k : k * 256 = Z.shiftl k 8.
Proof. by rewrite Z.shiftl_mul_pow2. Qed.

(** Flags are above the byte of the result. *)
Lemma land_flags_u8 k r : is_u8 r -> Z.land (k * 256) r = 0.
Proof.
  intros Hr. assert (r = Z.land r (2 ^ 8 - 1)) as ->.
  { rewrite land_low_ones by lia. symmetry. apply Z.mod_small. exact Hr. }
  rewrite (Z.land_comm r), Z.land_assoc, land_low_ones by lia.
  change (2 ^ 8) with 256. by rewrite Z_mod_mult.
Qed.

Lemma lor_flags_u8 k r : is_u8 r -> Z.lor (k * 256) r = k * 256 + r.
Proof. intros. apply lor_disjoint_add. by apply land_flags_u8. Qed.

Lemma lor_u8_flags k j r :
  is_u8 r -> Z.lor (k * 256 + r) (j * 256) = Z.lor k j * 256 + r.
Proof.
  intros Hr. rewrite <- (lor_flags_u8 k r Hr), <- (lor_flags_u8 (Z.lor k j) r Hr).
  rewrite <- Z.lor_assoc, (Z.lor_comm r), Z.lor_assoc. f_equal.
  rewrite !mul_256. by rewrite Z.shiftl_lor.
Qed.

Lemma land_flag_shifted k r j :
  is_u8 r -> Z.land (k * 256 + r) (j * 256) = Z.land k j * 256.
Proof.
  intros Hr. rewrite <- lor_flags_u8, Z.land_lor_distr_l by done.
  rewrite (Z.land_comm r), (land_flags_u8 j r Hr), Z.lor_0_r.
  rewrite !mul_256. by rewrite Z.shiftl_land.
Qed.

Lemma land_result_byte k r : is_u8 r -> Z.land (k * 256 + r) (Z.shiftl 1 8 - 1) = r.
Proof.
  intros Hr. change (Z.shiftl 1 8 - 1) with (2 ^ 8 - 1). rewrite land_low_ones by lia.
  rewrite Z.add_comm. change (2 ^ 8) with 256. rewrite Z_mod_plus_full.
  by apply Z.mod_small.
Qed.

(** The state a resolved entry ends up in. *)
Lemma resolved_state_bits st r :
  st = 0 \/ st = WAKER_SET -> is_u8 r ->
  let s := st + RESULT_SET + r + RESULT_FINALIZED in
  Z.land s RESULT_FINALIZED = RESULT_FINALIZED /\
  Z.land s RESULT_SET = RESULT_SET /\
  Z.land s (Z.shiftl 1 8 - 1) = r.
Proof.
  intros Hst Hr. cbv zeta. unfold_flags.
  assert (exists k, st + 256 + r + 1024 = k * 256 + r /\ (k = 5 \/ k = 7)) as (k & -> & Hk).
  { destruct Hst as [->| ->]; [exists 5|exists 7]; split; auto; lia. }
  split; [|split]; [..|by apply land_result_byte].
  - change 1024 with (4 * 256). rewrite land_flag_shifted by done.
    by destruct Hk as [-> | ->].
  - change 256 with (1 * 256) at 2. rewrite land_flag_shifted by done.
    by destruct Hk as [-> | ->].
Qed.

Lemma waiting_no_result en :
  is_waiting en ->
  Z.land (e_state en) RESULT_SET = 0 /\ Z.land (e_state en) RESULT_FINALIZED = 0.
Proof. intros [E|E]; rewrite E; done. Qed.

Lemma waiting_resolved_state en r :
  is_waiting en -> is_u8 r ->
  Z.lor (Z.lor (e_state en) RESULT_SET) r = e_state en + RESULT_SET + r /\
  Z.lor (e_state en + RESULT_SET + r) RESULT_FINALIZED
    = e_state en + RESULT_SET + r + RESULT_FINALIZED /\
  Z.land (e_state en + RESULT_SET + r) WAKER_SET = Z.land (e_state en) WAKER_SET.
Proof.
  intros Hw Hr.
  assert (exists k, e_state en = k * 256 /\ (k = 0 \/ k = 2)) as (k & -> & Hk).
  { destruct Hw as [->| ->]; [exists 0|exists 2]; auto. }
  assert (k * 256 + RESULT_SET + r = (k + 1) * 256 + r) as ->.
  { unfold_flags. lia. }
  split; [|split].
  - rewrite <- lor_flags_u8 by done. f_equal. by destruct Hk as [-> | ->].
  - change RESULT_FINALIZED with (4 * 256). rewrite lor_u8_flags by done.
    assert (Z.lor (k + 1) 4 = k + 5) as -> by (by destruct Hk as [-> | ->]). lia.
  - change WAKER_SET with (2 * 256). rewrite land_flag_shifted by done.
    by destruct Hk as [-> | ->].
Qed.

(** ** Frames *)

Lemma set_entries_twice es es' m : set_entries es (set_entries es' m) = set_entries es m.
Proof. done. Qed.

Lemma notify_words en m : words (notify en m) = words m.
Proof. unfold notify. case_bool; [|done]. by destruct (e_monitor en) as [[]|[]]. Qed.

Lemma notify_anchors en m : anchors (notify en m) = anchors m.
Proof. unfold notify. case_bool; [|done]. by destruct (e_monitor en) as [[]|[]]. Qed.

Lemma notify_entries en m : entries (notify en m) = entries m.
Proof. unfold notify. case_bool; [|done]. by destruct (e_monitor en) as [[]|[]]. Qed.

Lemma notify_tokens_mono en m : tokens m ⊆ tokens (notify en m).
Proof.
  unfold notify. case_bool; [|done]. destruct (e_monitor en) as [[]|[]]; simpl; set_solver.
Qed.

Lemma notify_woken_mono en m : woken m ⊆ woken (notify en m).
Proof.
  unfold notify. case_bool; [|done]. destruct (e_monitor en) as [[]|[]]; simpl; set_solver.
Qed.

Lemma notify_set_weak wk en m : notify en (set_weak wk m) = set_weak wk (notify en m).
Proof. unfold notify. case_bool; [|done]. by destruct (e_monitor en) as [[]|[]]. Qed.

(** The registered waker or thread of [en] has been notified in [m]. *)
Definition notified (en : Entry) (m : mem) : Prop :=
  e_state en = WAKER_SET ->
  match e_monitor en with
  | Async (Some w) => w ∈ woken m
  | Sync (Some t) => t ∈ tokens m
  | _ => True
  end.

Lemma notify_notified en m : notified en (notify en m).
Proof.
  intros E. unfold notify. rewrite E, Z.eqb_refl.
  destruct (e_monitor en) as [[]|[]]; simpl; set_solver.
Qed.

Lemma notified_mono en m m' :
  tokens m ⊆ tokens m' -> woken m ⊆ woken m' -> notified en m -> notified en m'.
Proof.
  intros Ht Hw Hn E. specialize (Hn E). destruct (e_monitor en) as [[]|[]]; set_solver.
Qed.

(** ** Rules *)

Section rules.
  Context (t : tid).
  Implicit Types m : mem.

(** The retry loop of [set_result] against spurious failures. *)
Lemma wp_set_result_loop e en r m (Q : Z -> mem -> Prop) :
  entries m !! e = Some en -> is_waiting en -> is_u8 r ->
  (forall wk,
     Q (e_state en + RESULT_SET + r)
       (set_weak wk (set_entries
          (<[e := set_state (e_state en + RESULT_SET + r) en]> (entries m)) m))) ->
  wp t (Loop (set_result_body e r) (e_state en)) m Q.
Proof.
  intros He Hw Hr HQ.
  destruct (waiting_no_result en Hw) as [E1 E2].
  destruct (waiting_resolved_state en r Hw Hr) as (E3 & _).
  replace m with (set_weak (weak m) m) by by destruct m.
  generalize (weak m) as wk. intros wk.
  induction wk as [|b wk IH]; apply wp_loop;
    (apply wp_bind, wp_debug_assert; [by rewrite E1|]);
    (apply wp_bind, wp_debug_assert; [by rewrite E2|]); apply wp_bind;
    rewrite E3.
  - eapply wp_act; [simpl; rewrite He, Z.eqb_refl; done|]. apply wp_ret. apply (HQ []).
  - destruct b.
    + eapply wp_act; [simpl; rewrite He; done|]. apply wp_ret. apply IH.
    + eapply wp_act; [simpl; rewrite He, Z.eqb_refl; done|]. apply wp_ret. apply HQ.
Qed.

(** [set_result] on a waiting entry resolves it and tells its monitor. *)
Lemma wp_set_result e en r m (Q : unit -> mem -> Prop) :
  entries m !! e = Some en -> is_waiting en -> is_u8 r ->
  (forall wk,
     Q tt (set_weak wk (notify en (set_entries (<[e := resolved r en]> (entries m)) m)))) ->
  wp t (set_result e r) m Q.
Proof.
  intros He Hw Hr HQ. unfold set_result.
  apply wp_bind. eapply wp_write_field; [done|].
  apply wp_bind. eapply wp_read_field; [apply lookup_insert_eq|].
  apply wp_bind. eapply (wp_set_result_loop e (set_poll true en)); [apply lookup_insert_eq|done..|].
  intros wk. simpl. rewrite insert_insert_eq.
  destruct (waiting_resolved_state en r Hw Hr) as (_ & E2 & E3).
  rewrite E3. specialize (HQ wk).
  assert (forall en', e_state en' = e_state en + RESULT_SET + r ->
    set_state (Z.lor (e_state en') RESULT_FINALIZED) en' =
    set_state (e_state en + RESULT_SET + r + RESULT_FINALIZED) en') as Hfin.
  { intros en' ->. by rewrite E2. }
  unfold notify, resolved in HQ. simpl in HQ.
  destruct Hw as [Ew|Ew]; rewrite Ew in HQ |- *; simpl.
  - apply wp_bind, wp_ret. apply wp_bind. eapply wp_fetch_or_state; [apply lookup_insert_eq|].
    apply wp_ret. simpl. rewrite insert_insert_eq.
    rewrite Ew in Hfin, E2. rewrite E2. exact HQ.
  - apply wp_bind, wp_bind. eapply wp_update_field; [apply lookup_insert_eq|].
    simpl. rewrite insert_insert_eq. rewrite Ew in E2.
    destruct (e_monitor en) as [[w|]|[th|]]; simpl in HQ |- *.
    + apply wp_bind. eapply wp_fetch_or_state; [apply lookup_insert_eq|].
      simpl. rewrite insert_insert_eq, E2. apply wp_bind, wp_wake. apply wp_ret, wp_ret. exact HQ.
    + apply wp_ret, wp_bind. eapply wp_fetch_or_state; [apply lookup_insert_eq|].
      simpl. rewrite insert_insert_eq, E2. apply wp_ret. exact HQ.
    + apply wp_bind. eapply wp_fetch_or_state; [apply lookup_insert_eq|].
      simpl. rewrite insert_insert_eq, E2. apply wp_bind, wp_unpark. apply wp_ret, wp_ret. exact HQ.
    + apply wp_ret, wp_bind. eapply wp_fetch_or_state; [apply lookup_insert_eq|].
      simpl. rewrite insert_insert_eq, E2. apply wp_ret. exact HQ.
Qed.

(** Consuming a delivered result. *)
Lemma wp_try_consume_result_some e en st r m (Q : option Z -> mem -> Prop) :
  entries m !! e = Some en -> st = 0 \/ st = WAKER_SET -> is_u8 r ->
  e_state en = st + RESULT_SET + r + RESULT_FINALIZED ->
  Q (Some r) (set_entries (<[e := consumed en]> (entries m)) m) ->
  wp t (try_consume_result e) m Q.
Proof.
  intros He Hst Hr Es HQ.
  destruct (resolved_state_bits st r Hst Hr) as (E1 & E2 & E3). rewrite <- Es in E1, E2, E3.
  unfold try_consume_result. apply wp_bind. eapply wp_read_field; [done|].
  rewrite E1, Z.eqb_refl. apply wp_bind, wp_debug_assert; [by rewrite E2|].
  apply wp_bind. eapply wp_write_field; [done|].
  apply wp_bind. eapply wp_write_field; [apply lookup_insert_eq|].
  apply wp_ret. simpl. rewrite insert_insert_eq, E3. exact HQ.
Qed.

(** Nothing to consume. *)
Lemma wp_try_consume_result_none e en m (Q : option Z -> mem -> Prop) :
  entries m !! e = Some en -> Z.land (e_state en) RESULT_FINALIZED = 0 ->
  Q None m -> wp t (try_consume_result e) m Q.
Proof.
  intros He E HQ. unfold try_consume_result.
  apply wp_bind. eapply wp_read_field; [done|]. rewrite E. by apply wp_ret.
Qed.

End rules.
