(* ===== verification/Queue.v ===== *)
(** * The intrusive queue as a list

    A wait queue is an intrusive list on the stacks of the waiting threads.
    [linked] and [fifo] relate that list to a list of wait queue addresses:
    newest first along the [next] pointers, oldest first along the [prev]
    pointers.  The rules below give the iterators of [src/wait_queue.rs] as
    operations on such lists. *)

From S2P Require Import Prelude Prog Word Opcode Memory WaitQueue Geometry Results.

(** Entry address of the first element, null for the empty list. *)
Definition first_entry (l : list Z) : Z :=
  match l with
  | [] => 0
  | wq :: _ => wq_entry wq
  end.

(** Anchor address of the first element, null for the empty list. *)
Definition first_anchor (l : list Z) : Z :=
  match l with
  | [] => 0
  | wq :: _ => anchor_addr wq
  end.

(** The entries of [l], newest first, are linked by their [next] pointers. *)
Fixpoint linked (m : mem) (l : list Z) : Prop :=
  match l with
  | [] => True
  | wq :: l' =>
      (exists en, node m wq en /\ e_next_entry_anchor_ptr en = first_anchor l') /\ linked m l'
  end.

(** The entries of [f], oldest first, are linked by their [prev] pointers. *)
Fixpoint fifo (m : mem) (f : list Z) : Prop :=
  match f with
  | [] => True
  | wq :: f' =>
      (exists en, node m wq en /\ e_prev_entry_ptr en = first_entry f') /\ fifo m f'
  end.

(** A property of the entry of the wait queue at [wq]. *)
Definition entry_is (m : mem) (P : Entry -> Prop) (wq : Z) : Prop :=
  exists en, node m wq en /\ P en.

(** An entry without its links. *)
Definition core (en : Entry) : Entry := set_next 0 (set_prev 0 en).

(** An entry without its back pointer. *)
Definition unback (en : Entry) : Entry := set_prev 0 en.

(** [m'] differs from [m] in the entries of [l] only, and not in what [h]
    keeps of them. *)
Definition same_upto (h : Entry -> Entry) (l : list Z) (m m' : mem) : Prop :=
  exists es, m' = set_entries es m /\
    (forall e, h <$> es !! e = h <$> entries m !! e) /\
    (forall e, e ∉ wq_entry <$> l -> es !! e = entries m !! e).

(** The result [r] has been delivered to the entries of [l], and nothing else
    has changed but the notifications. *)
Definition delivered (r : Z) (l : list Z) (m m' : mem) : Prop :=
  words m' = words m /\ anchors m' = anchors m /\
  (forall wq en, wq ∈ l -> node m wq en -> node m' wq (resolved r en) /\ notified en m') /\
  (forall e, e ∉ wq_entry <$> l -> entries m' !! e = entries m !! e) /\
  tokens m ⊆ tokens m' /\ woken m ⊆ woken m'.

(** ** Facts about [node], [linked] and [fifo] *)

Lemma node_ok m wq en : node m wq en -> wq_ok wq.
Proof. by intros []. Qed.

#[export] Hint Resolve node_ok : saa.

(** [node] only depends on the anchors and on the entry itself. *)
Lemma node_transfer m m' wq en en' :
  node m wq en -> anchors m' = anchors m -> entries m' !! wq_entry wq = Some en' ->
  e_offset en' = e_offset en -> node m' wq en'.
Proof. intros (H1 & H2 & H3 & H4) Ha He Ho. repeat split; congruence || apply H1. Qed.

Lemma linked_transfer m m' l :
  linked m l -> anchors m' = anchors m ->
  (forall wq en, wq ∈ l -> node m wq en ->
     exists en', entries m' !! wq_entry wq = Some en' /\
       e_next_entry_anchor_ptr en' = e_next_entry_anchor_ptr en /\
       e_offset en' = e_offset en) ->
  linked m' l.
Proof.
  intros Hl Ha Hf. induction l as [|wq l IH]; [done|]. destruct Hl as [(en & Hn & Hx) Hl].
  split.
  - destruct (Hf wq en) as (en' & E1 & E2 & E3); [set_solver|done|].
    exists en'. split; [by eapply node_transfer|congruence].
  - apply IH; [done|]. intros. apply Hf; set_solver.
Qed.

Lemma fifo_transfer m m' f :
  fifo m f -> anchors m' = anchors m ->
  (forall wq en, wq ∈ f -> node m wq en ->
     exists en', entries m' !! wq_entry wq = Some en' /\
       e_prev_entry_ptr en' = e_prev_entry_ptr en /\
       e_offset en' = e_offset en) ->
  fifo m' f.
Proof.
  intros Hl Ha Hf. induction f as [|wq f IH]; [done|]. destruct Hl as [(en & Hn & Hx) Hl].
  split.
  - destruct (Hf wq en) as (en' & E1 & E2 & E3); [set_solver|done|].
    exists en'. split; [by eapply node_transfer|congruence].
  - apply IH; [done|]. intros. apply Hf; set_solver.
Qed.

Lemma linked_elem m l wq : linked m l -> wq ∈ l -> exists en, node m wq en.
Proof.
  induction l as [|wq' l IH]; [set_solver|].
  intros [(en & Hn & _) Hl] [->|Hin]%elem_of_cons; eauto.
Qed.

Lemma fifo_elem m f wq : fifo m f -> wq ∈ f -> exists en, node m wq en.
Proof.
  induction f as [|wq' l IH]; [set_solver|].
  intros [(en & Hn & _) Hl] [->|Hin]%elem_of_cons; eauto.
Qed.

Lemma linked_app m l1 l2 : linked m (l1 ++ l2) -> linked m l2.
Proof. induction l1 as [|wq l1 IH]; [done|]. intros [_ H]. by apply IH. Qed.

Lemma fifo_app m l1 l2 : fifo m (l1 ++ l2) -> fifo m l2.
Proof. induction l1 as [|wq l1 IH]; [done|]. intros [_ H]. by apply IH. Qed.

Lemma first_entry_ok m l :
  linked m l -> l <> [] -> (first_entry l =? 0) = false.
Proof.
  destruct l as [|wq l]; [done|]. intros [(en & Hn & _) _] _.
  apply wq_entry_eqb_0. by eapply node_ok.
Qed.

Lemma first_anchor_eqb m l :
  linked m l -> (first_anchor l =? 0) = match l with [] => true | _ => false end.
Proof.
  destruct l as [|wq l]; [done|]. intros [(en & Hn & _) _].
  apply anchor_addr_eqb_0. by eapply node_ok.
Qed.

Lemma first_anchor_is_addr m l : linked m l -> is_addr (first_anchor l).
Proof.
  destruct l as [|wq l]; [intros _; apply is_addr_0|]. intros [(en & Hn & _) _].
  apply anchor_addr_is_addr. by eapply node_ok.
Qed.

#[export] Hint Resolve first_anchor_is_addr : saa.

(** A non-empty queue has a first element. *)
Lemma linked_first m l :
  linked m l -> l <> [] ->
  exists y en, first_anchor l = anchor_addr y /\ first_entry l = wq_entry y /\ node m y en.
Proof. destruct l as [|y l]; [done|]. intros [(en & Hn & _) _] _. by exists y, en. Qed.

Lemma reverse_ne_nil (l : list Z) : l <> [] -> reverse l <> [].
Proof. intros Hl E. apply Hl. apply (f_equal reverse) in E. by rewrite reverse_involutive in E. Qed.

(** Entry addresses determine the wait queue among live ones. *)
Lemma linked_entry_notin m l wq en :
  linked m l -> node m wq en -> wq ∉ l -> wq_entry wq ∉ wq_entry <$> l.
Proof.
  intros Hl Hn Hni Hin. apply list_elem_of_fmap in Hin as (wq' & E & Hin).
  destruct (linked_elem m l wq' Hl Hin) as (en' & Hn').
  apply Hni. by rewrite (node_inj m wq wq' en en').
Qed.

Lemma node_entry_ne m wq wq' en en' :
  node m wq en -> node m wq' en' -> wq <> wq' -> wq_entry wq <> wq_entry wq'.
Proof. intros H H' Hne E. apply Hne. by eapply node_inj. Qed.

(** An update of one entry leaves the nodes of the others alone. *)
Lemma node_insert_ne m wq wq' en en' en0 :
  node m wq en -> node m wq' en' -> wq <> wq' ->
  node (set_entries (<[wq_entry wq' := en0]> (entries m)) m) wq en.
Proof.
  intros H H' Hne. eapply node_transfer; [done..| |done]. simpl.
  rewrite lookup_insert_ne; [apply H|]. intros E. apply Hne. symmetry. by eapply node_inj.
Qed.

Lemma node_insert m wq en en0 :
  node m wq en -> e_offset en0 = e_offset en ->
  node (set_entries (<[wq_entry wq := en0]> (entries m)) m) wq en0.
Proof. intros H E. eapply node_transfer; [done..| |done]. apply lookup_insert_eq. Qed.

Lemma node_set_weak wk m wq en : node m wq en -> node (set_weak wk m) wq en.
Proof. done. Qed.

Lemma node_set_words ws m wq en : node m wq en -> node (set_words ws m) wq en.
Proof. done. Qed.

(** Only the anchors and the entries matter. *)
Lemma node_ext m m' wq en :
  anchors m' = anchors m -> entries m' = entries m -> node m wq en -> node m' wq en.
Proof. unfold node. by intros -> ->. Qed.

Lemma linked_ext m m' l :
  anchors m' = anchors m -> entries m' = entries m -> linked m l -> linked m' l.
Proof.
  intros Ha He Hl. eapply linked_transfer; [done..|]. intros wq en _ (_ & _ & Hn & _).
  rewrite He. eauto.
Qed.

Lemma fifo_ext m m' f :
  anchors m' = anchors m -> entries m' = entries m -> fifo m f -> fifo m' f.
Proof.
  intros Ha He Hl. eapply fifo_transfer; [done..|]. intros wq en _ (_ & _ & Hn & _).
  rewrite He. eauto.
Qed.

(** ** Frames *)

Lemma same_upto_refl h l m : same_upto h l m m.
Proof. exists (entries m). by destruct m. Qed.

Lemma same_upto_trans h l m1 m2 m3 :
  same_upto h l m1 m2 -> same_upto h l m2 m3 -> same_upto h l m1 m3.
Proof.
  intros (es & -> & H1 & H2) (es' & -> & H3 & H4). exists es'. split; [done|].
  simpl in *. split; intros; [by rewrite H3|rewrite H4 by done; auto].
Qed.

#[export] Instance same_upto_preorder h l : PreOrder (same_upto h l).
Proof.
  split; [intros m; apply same_upto_refl|intros m1 m2 m3; apply same_upto_trans].
Qed.

Lemma same_upto_insert h l m wq en en' :
  entries m !! wq_entry wq = Some en -> wq ∈ l -> h en' = h en ->
  same_upto h l m (set_entries (<[wq_entry wq := en']> (entries m)) m).
Proof.
  intros He Hin Hc. eexists. split; [done|]. split; intros e.
  - destruct (decide (e = wq_entry wq)) as [->|].
    + rewrite lookup_insert_eq, He. simpl. congruence.
    + by rewrite lookup_insert_ne.
  - intros Hni. rewrite lookup_insert_ne; [done|]. intros <-. apply Hni.
    by apply list_elem_of_fmap_2.
Qed.

Lemma same_upto_mono h l l' m m' : l ⊆ l' -> same_upto h l m m' -> same_upto h l' m m'.
Proof.
  intros Hsub (es & -> & H1 & H2). exists es. split; [done|]. split; [done|].
  intros e He. apply H2. intros (wq & -> & Hin)%list_elem_of_fmap. apply He.
  apply list_elem_of_fmap_2. by apply Hsub.
Qed.

Lemma same_upto_lookup h l m m' wq en :
  same_upto h l m m' -> node m wq en ->
  exists en', entries m' !! wq_entry wq = Some en' /\ h en' = h en.
Proof.
  intros (es & -> & Hc & _) (_ & _ & He & _).
  specialize (Hc (wq_entry wq)). rewrite He in Hc. simpl in Hc.
  apply fmap_Some in Hc as (en' & E & Hcore). eauto.
Qed.

Lemma same_upto_words h l m m' : same_upto h l m m' -> words m' = words m.
Proof. by intros (es & -> & _). Qed.

Lemma same_upto_anchors h l m m' : same_upto h l m m' -> anchors m' = anchors m.
Proof. by intros (es & -> & _). Qed.

Lemma same_upto_outside h l m m' e :
  same_upto h l m m' -> e ∉ wq_entry <$> l -> entries m' !! e = entries m !! e.
Proof. intros (es & -> & _ & H). apply H. Qed.

Lemma unback_core l m m' : same_upto unback l m m' -> same_upto core l m m'.
Proof.
  intros (es & -> & Hc & Ho). exists es. split; [done|]. split; [|done].
  intros e. specialize (Hc e).
  destruct (es !! e) as [a|], (entries m !! e) as [b|]; simpl in *; try done.
  injection Hc as Hc. f_equal.
  change (set_next 0 (unback a) = set_next 0 (unback b)).
  f_equal. unfold unback, set_prev. congruence.
Qed.

(** Nodes survive changes of links. *)
Lemma relink_node l m m' wq en :
  same_upto core l m m' -> node m wq en -> exists en', node m' wq en' /\ core en' = core en.
Proof.
  intros Hs Hn. destruct (same_upto_lookup _ _ _ _ _ _ Hs Hn) as (en' & E & Hc).
  exists en'. split; [|done]. eapply node_transfer; [done| |done|].
  - by eapply same_upto_anchors.
  - by apply (f_equal e_offset) in Hc.
Qed.

(** A property of cores is not affected by relinking. *)
Lemma relink_entry_is l m m' P wq :
  same_upto core l m m' -> (forall en en', core en' = core en -> P en -> P en') ->
  entry_is m P wq -> entry_is m' P wq.
Proof.
  intros Hr HP (en & Hn & Hp). destruct (relink_node _ _ _ _ _ Hr Hn) as (en' & Hn' & Hc).
  exists en'. eauto.
Qed.

(** Forward links survive changes of the back pointers. *)
Lemma unback_linked l l' m m' : same_upto unback l m m' -> linked m l' -> linked m' l'.
Proof.
  intros Hs Hl. eapply linked_transfer; [done|by eapply same_upto_anchors|].
  intros wq en _ Hn. destruct (same_upto_lookup _ _ _ _ _ _ Hs Hn) as (en' & E & Hc).
  exists en'. split; [done|].
  pose proof (f_equal e_offset Hc). by apply (f_equal e_next_entry_anchor_ptr) in Hc.
Qed.

Lemma core_is_waiting en en' : core en' = core en -> is_waiting en -> is_waiting en'.
Proof. intros H. apply (f_equal e_state) in H. simpl in H. unfold is_waiting. by rewrite H. Qed.

Lemma core_opcode en en' : core en' = core en -> e_opcode en' = e_opcode en.
Proof. intros H. by apply (f_equal e_opcode) in H. Qed.

(** ** Rules for the links *)

Section rules.
  Context (t : tid).
  Implicit Types m : mem.

Lemma wp_next_entry_ptr wq en l m (Q : Z -> mem -> Prop) :
  node m wq en -> e_next_entry_anchor_ptr en = first_anchor l -> linked m l ->
  Q (first_entry l) m -> wp t (next_entry_ptr (wq_entry wq)) m Q.
Proof.
  intros Hn Hx Hl HQ. unfold next_entry_ptr. apply wp_bind.
  eapply wp_read_field; [apply Hn|]. rewrite Hx, (first_anchor_eqb m l) by done.
  destruct l as [|wq' l]; [by apply wp_ret|].
  destruct Hl as [(en' & Hn' & _) _]. by eapply wp_to_entry_ptr.
Qed.

Lemma wp_prev_entry_ptr wq en m (Q : Z -> mem -> Prop) :
  node m wq en -> Q (e_prev_entry_ptr en) m -> wp t (prev_entry_ptr (wq_entry wq)) m Q.
Proof. intros (_ & _ & He & _) HQ. by eapply wp_read_field. Qed.

Lemma wp_update_next wq en a m (Q : unit -> mem -> Prop) :
  node m wq en -> is_addr a ->
  Q tt (set_entries (<[wq_entry wq := set_next a en]> (entries m)) m) ->
  wp t (update_next_entry_anchor_ptr (wq_entry wq) a) m Q.
Proof.
  intros (_ & _ & He & _) [_ Ha] HQ. unfold update_next_entry_anchor_ptr.
  apply wp_bind, wp_debug_assert; [by apply Z.eqb_eq|]. by eapply wp_write_field.
Qed.

Lemma wp_update_prev wq en p m (Q : unit -> mem -> Prop) :
  node m wq en ->
  Q tt (set_entries (<[wq_entry wq := set_prev p en]> (entries m)) m) ->
  wp t (update_prev_entry_ptr (wq_entry wq) p) m Q.
Proof. intros (_ & _ & He & _) HQ. by eapply wp_write_field. Qed.

(** Storing the back pointer of the element after [w]. *)
Lemma link_one m l1 w n l2 en :
  linked m (w :: n :: l2) -> NoDup (l1 ++ w :: n :: l2) ->
  fifo m (w :: l1) -> node m n en ->
  let m' := set_entries (<[wq_entry n := set_prev (wq_entry w) en]> (entries m)) m in
  linked m' (n :: l2) /\ fifo m' (n :: w :: l1).
Proof.
  intros Hl Hnd Hf Hn m'. apply list.NoDup_app in Hnd as (_ & Hd & Hnd).
  apply list.NoDup_cons in Hnd as [Hw _].
  split.
  - eapply linked_transfer; [apply Hl|done|]. intros wq en' Hin Hn'. simpl.
    destruct (decide (wq = n)) as [->|Hne].
    + rewrite lookup_insert_eq. rewrite (node_fun m n en' en) by done. eauto.
    + rewrite lookup_insert_ne by (eapply node_entry_ne; done). exists en'. split; [apply Hn'|done].
  - split.
    { exists (set_prev (wq_entry w) en). split; [|done]. by eapply node_insert. }
    eapply fifo_transfer; [apply Hf|done|]. intros wq en' Hin Hn'. simpl.
    assert (wq <> n) as Hne by (clear - Hin Hd Hw; set_solver).
    rewrite lookup_insert_ne by (eapply node_entry_ne; done). exists en'. split; [apply Hn'|done].
Qed.

(** [iter_forward] with [set_prev] walks over [l1] to [w], linking backwards;
    [l0] holds the elements already passed, oldest first. *)
Lemma wp_iter_forward_link {C} (f : Z -> Z -> C -> program (C * bool)) (g : Z -> C -> C)
    l0 l1 w l2 c m (Q : C -> mem -> Prop) :
  linked m (l1 ++ w :: l2) -> NoDup (l0 ++ l1 ++ w :: l2) ->
  fifo m (take 1 (l1 ++ [w]) ++ l0) ->
  (forall wq n c, wq ∈ l1 -> n <> 0 -> f (wq_entry wq) n c = Ret (g wq c, false)) ->
  (forall m', linked m' (w :: l2) -> fifo m' (w :: reverse l1 ++ l0) ->
     same_upto unback (tail (l1 ++ [w])) m m' ->
     wp t (Loop (fun '(entry_ptr, captured) =>
       if entry_ptr =? 0 then Ret (inr captured)
       else
         next <- next_entry_ptr entry_ptr ;;
         (if true && negb (next =? 0)
          then update_prev_entry_ptr next entry_ptr
          else Ret tt) ;;;
         let* (captured, stop) := f entry_ptr next captured in
         if (stop : bool) then Ret (inr captured) else Ret (inl (next, captured)))
       (wq_entry w, foldl (fun c wq => g wq c) c l1)) m' Q) ->
  wp t (iter_forward (first_entry (l1 ++ [w])) true f c) m Q.
Proof.
  unfold iter_forward.
  revert l0 c m. induction l1 as [|x l1 IH]; intros l0 c m Hl Hnd Hf Hg HQ.
  { apply (HQ m); [done|exact Hf|apply same_upto_refl]. }
  assert (exists n l3, l1 ++ w :: l2 = n :: l3 /\ first_entry (l1 ++ [w]) = wq_entry n /\
                       take 1 (l1 ++ [w]) = [n] /\ (l1 ++ [w] = n :: tail (l1 ++ [w])))
    as (n & l3 & El & Ef & Et & Eh).
  { destruct l1 as [|y l1]; simpl; rewrite ?take_0; eauto 10. }
  simpl in Hl, Hnd, Hf. rewrite El in Hl, Hnd.
  destruct Hl as [(en & Hn & Hx) Hl]. pose proof Hl as [(en' & Hn' & _) _].
  apply wp_loop. simpl. rewrite wq_entry_eqb_0 by eauto with saa.
  apply wp_bind. eapply (wp_next_entry_ptr x en (n :: l3)); [done..|]. simpl.
  rewrite wq_entry_eqb_0 by eauto with saa. simpl.
  apply wp_bind. eapply wp_update_prev; [done|].
  apply wp_bind. rewrite Hg by (set_solver || eauto with saa). apply wp_ret, wp_ret.
  destruct (link_one m l0 x n l3 en') as [Hl' Hf']; try done.
  { simpl. split; [|done]. eauto. }
  rewrite Ef in IH. eapply (IH (x :: l0)).
  - by rewrite El.
  - rewrite El. simpl. apply list.NoDup_app in Hnd as (H1 & H2 & H3).
    apply list.NoDup_cons in H3 as [H3 H4]. apply list.NoDup_cons. split.
    + rewrite not_elem_of_app. split; [|done]. intros Hin. apply (H2 x Hin). set_solver.
    + apply list.NoDup_app. split; [done|]. split; [|done]. intros y Hy Hy'. apply (H2 y Hy). set_solver.
  - rewrite Et. exact Hf'.
  - intros. apply Hg; [set_solver|done].
  - intros m' Hl'' Hf'' Hr. apply HQ; [done|..].
    + rewrite reverse_cons, <- app_assoc. done.
    + simpl. etransitivity; [|eapply same_upto_mono; [|exact Hr]].
      * eapply (same_upto_insert _ _ m n en'); [apply Hn'| |done].
        rewrite Eh. set_solver.
      * clear. destruct (l1 ++ [w]); set_solver.
Qed.

(** The first pass of [process_wait_queue]: back pointers are stored along
    the whole queue, and the oldest entry is found. *)
Lemma wp_find_head l m (Q : Z -> mem -> Prop) :
  linked m l -> NoDup l -> fifo m (take 1 l) -> l <> [] ->
  (forall m', linked m' l -> fifo m' (reverse l) -> same_upto unback l m m' ->
     Q (first_entry (reverse l)) m') ->
  wp t (iter_forward (first_entry l) true
          (fun entry next_entry _ => Ret (entry, next_entry =? 0)) 0) m Q.
Proof.
  intros Hl Hnd Hf Hne HQ.
  destruct l as [|w l1 _] using rev_ind; [done|].
  eapply (wp_iter_forward_link _ (fun wq _ => wq_entry wq) [] l1 w []); [done|done|..].
  - rewrite app_nil_r. done.
  - intros wq n c _ Hn. apply Z.eqb_neq in Hn. by rewrite Hn.
  - intros m' Hl' Hf' Hr. pose proof Hl' as [(en & Hn & Hx) _].
    apply wp_loop. simpl. rewrite wq_entry_eqb_0 by eauto with saa.
    apply wp_bind. eapply (wp_next_entry_ptr w en []); [done..|]. simpl.
    apply wp_bind, wp_ret, wp_bind, wp_ret, wp_ret.
    rewrite app_nil_r in Hf'.
    replace (wq_entry w) with (first_entry (reverse (l1 ++ [w])))
      by (by rewrite reverse_app).
    apply HQ.
    + by eapply unback_linked.
    + by rewrite reverse_app.
    + eapply same_upto_mono; [|done]. destruct l1; set_solver.
Qed.

(** ** Delivery along a queue *)

Lemma delivered_nil r m wk : delivered r [] m (set_weak wk m).
Proof. repeat split; try done; set_solver. Qed.

(** Delivering to one entry leaves the rest of the queue as it was. *)
Lemma delivered_one r wq en m wk :
  node m wq en ->
  delivered r [wq] m
    (set_weak wk (notify en (set_entries (<[wq_entry wq := resolved r en]> (entries m)) m))).
Proof.
  intros Hn. set (m1 := set_entries _ m).
  assert (node (notify en m1) wq (resolved r en)) as Hn1.
  { eapply node_transfer; [exact Hn|by rewrite notify_anchors| |].
    - rewrite notify_entries. apply lookup_insert_eq.
    - unfold resolved. by case_bool. }
  split; [exact (notify_words en m1)|]. split; [exact (notify_anchors en m1)|].
  split; [|split; [|split]].
  - intros wq' en' ->%list_elem_of_singleton Hn'. rewrite (node_fun m wq en' en) by done.
    split; [done|]. apply (notify_notified en m1).
  - intros e He. change (entries (notify en m1) !! e = entries m !! e).
    rewrite notify_entries. simpl. rewrite lookup_insert_ne; [done|].
    intros <-. apply He. set_solver.
  - apply (notify_tokens_mono en m1).
  - apply (notify_woken_mono en m1).
Qed.

(** Nodes that get no result keep their entries. *)
Lemma delivered_outside r l m m1 wq en :
  linked m l -> delivered r l m m1 -> wq ∉ l -> node m wq en -> node m1 wq en.
Proof.
  intros Hl (_ & A1 & _ & F1 & _) Hni Hn. eapply node_transfer; [done..| |done].
  rewrite F1; [apply Hn|]. by eapply linked_entry_notin.
Qed.

Lemma delivered_outside_1 r wq m m1 wq' en en' :
  node m wq en -> delivered r [wq] m m1 -> wq' <> wq -> node m wq' en' -> node m1 wq' en'.
Proof.
  intros Hn (_ & A1 & _ & F1 & _) Hne Hn'. eapply node_transfer; [done..| |done].
  rewrite F1; [apply Hn'|]. simpl. intros E%list_elem_of_singleton.
  apply Hne. by eapply node_inj.
Qed.

Lemma delivered_cons r wq l en m m1 m2 :
  node m wq en -> linked m l -> wq ∉ l ->
  delivered r [wq] m m1 -> delivered r l m1 m2 -> delivered r (wq :: l) m m2.
Proof.
  intros Hn Hl Hni Hd (W2 & A2 & D2 & F2 & T2 & K2).
  pose proof Hd as (W1 & A1 & D1 & F1 & T1 & K1).
  assert (wq_entry wq ∉ wq_entry <$> l) as Hne by (by eapply linked_entry_notin).
  split; [congruence|]. split; [congruence|]. split; [|split; [|split]].
  - intros wq' en' [->|Hin]%elem_of_cons Hn'.
    + destruct (D1 wq en') as [Hn1 Hk1]; [set_solver|done|]. split.
      * eapply node_transfer; [done..| |done]. rewrite F2 by done. apply Hn1.
      * by eapply notified_mono.
    + apply D2; [done|]. apply (delivered_outside_1 r wq m m1 wq' en en' Hn Hd); [|done].
      by intros ->.
  - intros e He. rewrite F2, F1; set_solver.
  - set_solver.
  - set_solver.
Qed.

Lemma delivered_linked r wq l en m m1 :
  node m wq en -> linked m l -> wq ∉ l -> delivered r [wq] m m1 -> linked m1 l.
Proof.
  intros Hn Hl Hni Hd. eapply linked_transfer; [done|apply Hd|].
  intros wq' en' Hin Hn'. exists en'. split; [|done].
  apply (delivered_outside_1 r wq m m1 wq' en en' Hn Hd); [by intros ->|done].
Qed.

(** [iter_forward] delivering a result to every entry of a queue. *)
Lemma wp_deliver {C} r (g : C -> C) l c m (Q : C -> mem -> Prop) :
  linked m l -> NoDup l -> Forall (entry_is m is_waiting) l -> is_u8 r ->
  (forall m', delivered r l m m' -> Q (Nat.iter (length l) g c) m') ->
  wp t (iter_forward (first_entry l) false
          (fun entry _ c => set_result entry r ;;; Ret (g c, false)) c) m Q.
Proof.
  intros Hl Hnd Hw Hr. unfold iter_forward.
  revert c m Hl Hw Q. induction l as [|wq l IH]; intros c m Hl Hw Q HQ.
  { apply wp_loop. apply wp_ret. specialize (HQ (set_weak (weak m) m) (delivered_nil r m _)).
    by destruct m. }
  destruct Hl as [(en & Hn & Hx) Hl].
  apply list.NoDup_cons in Hnd as [Hni Hnd]. apply list.Forall_cons in Hw as [Hwen Hw].
  destruct Hwen as (en' & Hn' & Hwait). rewrite (node_fun m wq en' en) in Hwait by done.
  apply wp_loop. simpl. rewrite wq_entry_eqb_0 by eauto with saa.
  apply wp_bind. eapply (wp_next_entry_ptr wq en l); [done..|]. simpl.
  apply wp_bind, wp_ret, wp_bind, wp_bind.
  eapply wp_set_result; [apply Hn|done..|]. intros wk.
  pose proof (delivered_one r wq en m wk Hn) as Hd.
  apply wp_ret, wp_ret. apply IH; [done| | |].
  - by eapply delivered_linked.
  - rewrite list.Forall_forall in Hw |- *. intros wq' Hin.
    destruct (Hw wq' Hin) as (en1 & Hn1 & Hw1). exists en1. split; [|done].
    apply (delivered_outside_1 r wq m _ wq' en en1 Hn Hd); [by intros ->|done].
  - intros m' Hd'. rewrite Nat.iter_swap. apply HQ. by eapply delivered_cons.
Qed.

End rules.
