(* ===== verification/Grant.v ===== *)
(** * Granting resources to waiting entries

    The list-level specification of [process_wait_queue] and the proof that
    the pointer-level method implements it: the longest prefix of the queue,
    oldest entry first, whose requests fit is granted, the rest stays queued
    in order. *)

From S2P Require Import Prelude Prog Word Opcode Memory WaitQueue.
From S2P Require Import Geometry Results Queue SyncPrimitive.

(** The entry asking [o] can inherit ownership when [data] units are taken. *)
Definition inheritable (max data : Z) (o : Opcode) : bool :=
  (data =? 0) || (data + desired_count o <=? max).

(** How many of the waiting requests, oldest first, are granted. *)
Fixpoint grant (max data : Z) (os : list Opcode) : nat :=
  match os with
  | [] => O
  | o :: os' =>
      if inheritable max data o
      then S (grant max (data + acquired_count o) os')
      else O
  end.

(** Units acquired by a list of requests. *)
Definition acquired_total (os : list Opcode) : Z :=
  foldr (fun o acc => acquired_count o + acc) 0 os.

(** Data of the state word once the queue has been processed. *)
Definition granted_data (max data : Z) (os : list Opcode) : Z :=
  data + acquired_total (take (grant max data os) os).

(** The entry of the wait queue at [wq] asks [o]. *)
Definition asks (m : mem) (wq : Z) (o : Opcode) : Prop :=
  entry_is m (fun en => e_opcode en = o) wq.

(** The queue [f], oldest first, of the primitive at [self], whose requests
    are [os]: its links, and what the state of its entries can be. *)
Record queue_at (m : mem) (self : Z) (locked : bool) (data : Z) (f : list Z)
    (os : list Opcode) : Prop := {
  q_word : words m !! self = Some (word (first_anchor (reverse f)) locked data);
  q_data : is_data data;
  q_linked : linked m (reverse f);
  q_nodup : NoDup f;
  q_tail : fifo m (take 1 (reverse f));
  q_waiting : Forall (entry_is m is_waiting) f;
  q_asks : Forall2 (asks m) f os;
  q_ok : Forall (fun o => opcode_ok o = true) os;
}.

(** What [process_wait_queue] does to the memory when it grants the first
    [n] requests of the queue [f] and leaves [data'] units taken. *)
Record processed (self : Z) (f : list Z) (n : nat) (data' : Z) (m m' : mem) : Prop := {
  p_words : words m' =
    <[self := word (first_anchor (reverse (drop n f))) false data']> (words m);
  p_anchors : anchors m' = anchors m;
  p_linked : linked m' (reverse (drop n f));
  p_fifo : fifo m' (drop n f);
  p_granted : forall wq en, wq ∈ take n f -> node m wq en ->
    exists en', node m' wq en' /\ core en' = core (resolved 0 en) /\ notified en m';
  p_rest : forall wq en, wq ∈ drop n f -> node m wq en ->
    exists en', node m' wq en' /\ core en' = core en;
  p_outside : forall e, e ∉ wq_entry <$> f -> entries m' !! e = entries m !! e;
  p_tokens : tokens m ⊆ tokens m';
  p_woken : woken m ⊆ woken m';
}.

(** ** The list-level specification *)

Lemma grant_le max data os : (grant max data os <= length os)%nat.
Proof.
  revert data. induction os as [|o os IH]; intros data; simpl; [lia|].
  case_match; simpl; [|lia]. specialize (IH (data + acquired_count o)). lia.
Qed.

Lemma acquired_total_app os os' :
  acquired_total (os ++ os') = acquired_total os + acquired_total os'.
Proof. induction os as [|o os IH]; simpl; [done|]. lia. Qed.

Lemma acquired_total_nonneg os : Forall (fun o => opcode_ok o = true) os -> 0 <= acquired_total os.
Proof.
  induction 1 as [|o os Ho Hos IH]; [done|]. pose proof (acquired_count_range o Ho).
  unfold acquired_total, is_data in *. simpl. lia.
Qed.

Lemma inheritable_data max data o :
  max <= DATA_MASK -> is_data data -> opcode_ok o = true ->
  inheritable max data o = true -> is_data (data + acquired_count o).
Proof.
  unfold inheritable. intros Hm Hd Hok H.
  pose proof (acquired_count_range o Hok). pose proof (acquired_le_desired o Hok).
  unfold is_data in *. repeat case_bool; simpl in H; try done; lia.
Qed.

(** Granting never overflows the data bits. *)
Lemma granted_data_range max data os :
  max <= DATA_MASK -> is_data data -> Forall (fun o => opcode_ok o = true) os ->
  is_data (granted_data max data os).
Proof.
  intros Hm Hd Hok. unfold granted_data. revert data Hd.
  induction Hok as [|o os Ho Hok IH]; intros data Hd; simpl; [by rewrite Z.add_0_r|].
  destruct (inheritable max data o) eqn:E; simpl; [|by rewrite Z.add_0_r].
  rewrite Z.add_assoc. apply IH. by eapply inheritable_data.
Qed.

(** Once something is taken, the limit on shared owners is respected. *)
Lemma granted_data_below max d os :
  Forall (fun o => opcode_ok o = true) os -> 0 < d <= max -> granted_data max d os <= max.
Proof.
  intros Hok. unfold granted_data. revert d.
  induction Hok as [|o os Ho Hok IH]; intros d Hd; simpl; [lia|].
  destruct (inheritable max d o) eqn:E; simpl; [|lia].
  rewrite Z.add_assoc. apply IH.
  pose proof (acquired_count_range o Ho). pose proof (acquired_le_desired o Ho).
  unfold inheritable, is_data in *. repeat case_bool; simpl in E; try done; lia.
Qed.

(** The first request left waiting does not fit. *)
Lemma grant_stops max d os o os' :
  drop (grant max d os) os = o :: os' -> inheritable max (granted_data max d os) o = false.
Proof.
  unfold granted_data. revert d. induction os as [|o1 os IH]; intros d; simpl; [done|].
  destruct (inheritable max d o1) eqn:E; simpl.
  - intros Hd. rewrite Z.add_assoc. by apply IH.
  - intros [= -> ->]. by rewrite Z.add_0_r.
Qed.

Lemma grant_stops_at max d os o os' :
  drop (grant max d os) os = o :: os' ->
  granted_data max d os <> 0 /\ max < granted_data max d os + desired_count o.
Proof.
  intros [E1 E2]%grant_stops%orb_false_iff. apply Z.eqb_neq in E1. by apply Z.leb_gt in E2.
Qed.

(** Entry addresses seen from both ends of a queue. *)
Lemma first_entry_reverse f wq : first_entry (reverse (f ++ [wq])) = wq_entry wq.
Proof. by rewrite reverse_app. Qed.

Lemma take_grant_app f1 f2 (os : list Opcode) n :
  length f1 = n -> length os = length (f1 ++ f2 : list Z) ->
  take n (f1 ++ f2) = f1 /\ drop n (f1 ++ f2) = f2.
Proof. intros <- _. by rewrite take_app_length, drop_app_length. Qed.

(** ** Cutting a queue *)

(** Clearing the [next] pointer of [wq] cuts the granted entries off. *)
Lemma linked_cut m l2 wq l1 en :
  linked m (l2 ++ wq :: l1) -> NoDup (l2 ++ wq :: l1) -> node m wq en ->
  linked (set_entries (<[wq_entry wq := set_next 0 en]> (entries m)) m) (l2 ++ [wq]).
Proof.
  intros Hl Hnd Hn. induction l2 as [|w l2 IH]; simpl in *.
  - split; [|done]. exists (set_next 0 en). split; [by eapply node_insert|done].
  - destruct Hl as [(en' & Hn' & Hx) Hl]. apply list.NoDup_cons in Hnd as [Hni Hnd].
    split; [|by apply IH]. exists en'. split.
    + eapply node_insert_ne; [done..|]. intros ->. apply Hni. set_solver.
    + rewrite Hx. by destruct l2.
Qed.

(** The entries granted are still linked among themselves. *)
Lemma linked_cut_granted m l2 wq l1 en :
  linked m (l2 ++ wq :: l1) -> NoDup (l2 ++ wq :: l1) -> node m wq en ->
  linked (set_entries (<[wq_entry wq := set_next 0 en]> (entries m)) m) l1.
Proof.
  intros Hl Hnd Hn. apply linked_app in Hl as [_ Hl].
  apply list.NoDup_app in Hnd as (_ & _ & Hnd). apply list.NoDup_cons in Hnd as [Hni _].
  eapply linked_transfer; [done..|]. intros wq' en' Hin Hn'. exists en'. split; [|done].
  eapply (node_insert_ne m wq' wq); [done..|]. by intros ->.
Qed.

(** Back pointers do not mind. *)
Lemma fifo_cut m f wq en :
  fifo m f -> node m wq en ->
  fifo (set_entries (<[wq_entry wq := set_next 0 en]> (entries m)) m) f.
Proof.
  intros Hf Hn. eapply fifo_transfer; [done..|]. intros wq' en' Hin Hn'. simpl.
  destruct (decide (wq' = wq)) as [->|Hne].
  - rewrite lookup_insert_eq. rewrite (node_fun m wq en' en) by done. eauto.
  - rewrite lookup_insert_ne by (by eapply not_eq_sym, node_entry_ne).
    exists en'. split; [apply Hn'|done].
Qed.

Lemma core_resolved r en en' : core en' = core en -> core (resolved r en') = core (resolved r en).
Proof.
  intros Hc. pose proof (f_equal e_opcode Hc). pose proof (f_equal e_state Hc).
  pose proof (f_equal e_monitor Hc). pose proof (f_equal e_drop_callback Hc).
  pose proof (f_equal e_addr Hc). pose proof (f_equal e_offset Hc).
  destruct en, en'; simpl in *; subst. unfold resolved. simpl. by case_bool.
Qed.

Lemma core_notified en en' m : core en' = core en -> notified en' m -> notified en m.
Proof.
  intros Hc. pose proof (f_equal e_state Hc) as E1. pose proof (f_equal e_monitor Hc) as E2.
  simpl in E1, E2. unfold notified. by rewrite E1, E2.
Qed.

(** The three phases of the processing add up: the links of [f] change, the
    word is replaced, and the granted entries [f1] get their result. *)
Lemma processed_intro self f1 f2 data' wk m m2 m' :
  NoDup (f1 ++ f2) -> same_upto core (f1 ++ f2) m m2 ->
  linked m2 (reverse f1) -> linked m2 (reverse f2) -> fifo m2 f2 ->
  delivered 0 (reverse f1)
    (set_weak wk (set_words
       (<[self := word (first_anchor (reverse f2)) false data']> (words m2)) m2)) m' ->
  processed self (f1 ++ f2) (length f1) data' m m'.
Proof.
  intros Hnd Hs Hl1 Hl2 Hf2. set (m3 := set_weak wk _). intros Hd.
  pose proof Hd as (W & A & D & F & T & K).
  assert (forall wq, wq ∈ f2 -> wq ∉ reverse f1) as Hdisj.
  { intros wq Hin. rewrite elem_of_reverse. apply list.NoDup_app in Hnd. naive_solver. }
  assert (forall wq en, wq ∈ f2 -> node m2 wq en -> node m' wq en) as Hout.
  { intros wq en Hin Hn. eapply (delivered_outside 0 (reverse f1) m3); [|done|by apply Hdisj|done].
    by apply (linked_ext m2). }
  split; rewrite ?take_app_length, ?drop_app_length.
  - rewrite W. simpl. by rewrite (same_upto_words _ _ _ _ Hs).
  - rewrite A. simpl. by rewrite (same_upto_anchors _ _ _ _ Hs).
  - eapply linked_transfer; [done|by rewrite A|]. intros wq en Hin Hn. exists en.
    split; [|done]. apply (Hout wq en); [|done]. by apply elem_of_reverse.
  - eapply fifo_transfer; [done|by rewrite A|]. intros wq en Hin Hn. exists en.
    split; [|done]. by apply (Hout wq en).
  - intros wq en Hin Hn. destruct (relink_node _ _ _ _ _ Hs Hn) as (en2 & Hn2 & Hc).
    destruct (D wq en2) as [Hn' Hk]; [by apply elem_of_reverse|done|].
    exists (resolved 0 en2). split; [done|]. split; [by apply core_resolved|by eapply core_notified].
  - intros wq en Hin Hn. destruct (relink_node _ _ _ _ _ Hs Hn) as (en2 & Hn2 & Hc).
    exists en2. split; [by apply Hout|done].
  - intros e He. rewrite F.
    + simpl. by eapply same_upto_outside.
    + intros (wq & -> & Hin)%list_elem_of_fmap. apply He, list_elem_of_fmap_2.
      apply elem_of_reverse in Hin. set_solver.
  - destruct Hs as (es & -> & _). apply T.
  - destruct Hs as (es & -> & _). apply K.
Qed.

Section rules.
  Context (t : tid) (S : Primitive) `{SyncPrimitive S}.
  Implicit Types m : mem.

Lemma usize_add_data x y : is_data x -> 0 <= y <= DATA_MASK -> usize_add x y = x + y.
Proof. unfold is_data. unfold_masks. intros. apply usize_add_small. unfold usize_modulus. lia. Qed.

(** The granting pass: [iter_backward] over the queue, oldest first. *)
Lemma wp_grant_pass self data w f os tr res h0 m (Q : Granting -> mem -> Prop) :
  max_shared_owners S <= DATA_MASK -> words m !! self = Some w -> f <> [] ->
  fifo m f -> Forall2 (asks m) f os -> Forall (fun o => opcode_ok o = true) os ->
  is_data data -> 0 <= tr -> is_data (data + tr) ->
  (grant (max_shared_owners S) (data + tr) os = length os -> forall tr' f' wq, f = f' ++ [wq] ->
     Q (mkGranting tr' (wq_entry wq) false h0 true)
       (set_words (<[self := data + tr + acquired_total os]> (words m)) m)) ->
  (forall f1 wq f2 en, f = f1 ++ wq :: f2 ->
     grant (max_shared_owners S) (data + tr) os = length f1 -> node m wq en ->
     Q (mkGranting (tr + acquired_total (take (length f1) os))
          (match reverse f1 with [] => res | x :: _ => wq_entry x end)
          false (wq_entry wq) false)
       (set_entries (<[wq_entry wq := set_next 0 en]> (entries m)) m)) ->
  wp t (iter_backward (first_entry f)
          (grant_entry S self w data (wq_entry (List.last f 0)))
          (mkGranting tr res false h0 false)) m Q.
Proof.
  intros Hmax Hw Hne Hf Ha Hok Hd. unfold iter_backward.
  revert f Hne Hf Ha tr res.
  induction Hok as [|o os Ho Hok IH]; intros f Hne Hf Ha tr res Htr Hdt Hall Hsome.
  { apply Forall2_nil_inv_r in Ha. done. }
  apply Forall2_cons_inv_r in Ha as (wq & f' & (en & Hn & Hop) & Ha & ->).
  destruct Hf as [(en' & Hn' & Hp) Hf]. rewrite (node_fun m wq en' en) in Hp by done.
  pose proof (desired_count_range o Ho) as Hdes. pose proof (acquired_count_range o Ho) as Hacq.
  assert (0 <= tr <= DATA_MASK) as Htr' by (unfold is_data in *; lia).
  apply wp_loop. simpl. rewrite wq_entry_eqb_0 by eauto with saa.
  apply wp_bind. eapply wp_prev_entry_ptr; [done|]. rewrite Hp.
  apply wp_bind. unfold grant_entry at 1. apply wp_bind.
  eapply wp_read_field; [apply Hn|]. rewrite Hop.
  apply wp_bind, wp_debug_assert; [done|].
  simpl in Hall, Hsome |- *. rewrite (usize_add_data data tr) by done.
  rewrite (usize_add_data (data + tr)) by done.
  fold (inheritable (max_shared_owners S) (data + tr) o).
  destruct (inheritable (max_shared_owners S) (data + tr) o) eqn:Einh.
  - pose proof (inheritable_data _ _ _ Hmax Hdt Ho Einh) as Hdt'.
    apply wp_bind, wp_debug_assert; [by apply Z.leb_le, acquired_le_desired|].
    rewrite !(usize_add_data (data + tr)) by done.
    destruct f' as [|wq' f'].
    + (* the tail of the queue *)
      simpl. apply wp_bind, wp_debug_assert; [by rewrite Z.eqb_refl|].
      apply Forall2_nil_inv_l in Ha as ->.
      apply wp_bind. apply wp_compare_exchange_ok; [done|]. apply wp_ret, wp_ret.
      simpl in Hall. rewrite Z.add_0_r in Hall. by apply (Hall eq_refl _ []).
    + simpl. rewrite wq_entry_eqb_0 by (destruct Hf as [(? & ? & _) _]; eauto with saa).
      simpl. apply wp_ret, wp_ret. rewrite (usize_add_data tr) by (done || unfold is_data; lia).
      apply (IH (wq' :: f')); [done..| | | |].
      * unfold is_data in *. lia.
      * by rewrite Z.add_assoc.
      * intros Hg tr' f1 x E. rewrite Z.add_assoc in Hg.
        replace (data + (tr + acquired_count o) + acquired_total os)
          with (data + tr + (acquired_count o + acquired_total os)) by lia.
        apply (Hall ltac:(by rewrite Hg) tr' (wq :: f1)). by rewrite E.
      * intros f1 x f2 en1 E Hg Hn1. rewrite Z.add_assoc in Hg.
        specialize (Hsome (wq :: f1) x f2 en1 ltac:(by rewrite E) ltac:(by rewrite Hg) Hn1).
        simpl in Hsome. rewrite Z.add_assoc in Hsome. rewrite reverse_cons in Hsome.
        by destruct (reverse f1).
  - apply wp_bind. eapply wp_update_next; [done|apply is_addr_0|].
    apply wp_ret, wp_ret. simpl.
    specialize (Hsome [] wq f' en eq_refl eq_refl Hn). simpl in Hsome.
    by rewrite Z.add_0_r in Hsome.
Qed.

(** The closure of the final [fetch_update] when nobody released resources
    in the meantime. *)
Lemma wp_unlock_state a data tr m (Q : option Z -> mem -> Prop) :
  is_addr a -> is_data data -> 0 <= tr -> is_data (data + tr) ->
  Q (Some (word a false (data + tr))) m ->
  wp t (unlock_state data tr (word a true data)) m Q.
Proof.
  intros Ha Hd Htr Hdt HQ. unfold unlock_state. rewrite word_land_data by done.
  apply wp_bind, wp_debug_assert; [apply Z.leb_le; lia|].
  rewrite usize_add_data by (done || unfold is_data in *; lia).
  apply wp_bind, wp_debug_assert; [apply Z.leb_le; unfold is_data in *; lia|].
  rewrite Z.eqb_refl. apply wp_ret. by rewrite word_land_addr, word_lor_data.
Qed.

(** Waiting entries stay waiting when only links change. *)
Lemma relink_waiting l f m m' :
  same_upto core l m m' -> Forall (entry_is m is_waiting) f -> Forall (entry_is m' is_waiting) f.
Proof.
  intros Hs Hw. eapply list.Forall_impl; [done|]. intros wq. apply (relink_entry_is _ _ _ _ _ Hs).
  intros en en' Hc. by apply core_is_waiting.
Qed.

Lemma relink_asks l f os m m' :
  same_upto core l m m' -> Forall2 (asks m) f os -> Forall2 (asks m') f os.
Proof.
  intros Hs Ha. eapply list.Forall2_impl; [done|]. intros wq o. apply (relink_entry_is _ _ _ _ _ Hs).
  intros en en' Hc <-. by apply core_opcode.
Qed.

(** The granted entries get their results, in whatever state the pass left
    the word. *)
Lemma wp_deliver_granted self f1 f2 data' wk m m2 (Q : unit -> mem -> Prop) :
  NoDup (f1 ++ f2) -> same_upto core (f1 ++ f2) m m2 ->
  Forall (entry_is m is_waiting) (f1 ++ f2) ->
  linked m2 (reverse f1) -> linked m2 (reverse f2) -> fifo m2 f2 ->
  (forall m', processed self (f1 ++ f2) (length f1) data' m m' -> Q tt m') ->
  wp t (iter_forward (first_entry (reverse f1)) false
          (fun entry _ _ => set_result entry 0 ;;; Ret (tt, false)) tt)
    (set_weak wk (set_words
       (<[self := word (first_anchor (reverse f2)) false data']> (words m2)) m2)) Q.
Proof.
  intros Hnd Hs Hw Hl1 Hl2 Hf2 HQ. apply (wp_deliver t 0 (fun c : unit => tt)).
  - by apply (linked_ext m2).
  - apply NoDup_reverse. by apply list.NoDup_app in Hnd as [? _].
  - apply list.Forall_forall. intros wq Hin%elem_of_reverse.
    pose proof (relink_waiting _ _ _ _ Hs Hw) as Hw2. rewrite list.Forall_forall in Hw2.
    destruct (Hw2 wq) as (en & Hn & Hwait); [set_solver|]. exists en. split; [|done].
    by apply (node_ext m2).
  - done.
  - intros m' Hd. destruct (Nat.iter _ _ _). apply HQ. by eapply processed_intro.
Qed.

(** The tail of a queue is found in the word of its primitive. *)
Lemma wp_tail_entry self l data f os m (Q : Z -> mem -> Prop) :
  queue_at m self l data f os -> f <> [] -> Q (first_entry (reverse f)) m ->
  wp t (to_entry_ptr (to_anchor_ptr (word (first_anchor (reverse f)) l data))) m Q.
Proof.
  intros [_ Hd Hl _ _ _ _ _] Hne HQ. rewrite word_to_anchor_ptr by (done || by eapply first_anchor_is_addr).
  destruct (linked_first m _ Hl (reverse_ne_nil _ Hne)) as (x & en & Ex & Ee & Hn).
  rewrite Ex. eapply wp_to_entry_ptr; [done|]. by rewrite <- Ee.
Qed.

(** Unlocking the queue when nobody released resources in the meantime. *)
Lemma wp_unlock self a data tr m (Q : Result Z Z -> mem -> Prop) :
  words m !! self = Some (word a true data) -> is_addr a -> is_data data ->
  0 <= tr -> is_data (data + tr) ->
  (forall wk r, Q (Ok r)
     (set_weak wk (set_words (<[self := word a false (data + tr)]> (words m)) m))) ->
  wp t (fetch_update self (unlock_state data tr)) m Q.
Proof.
  intros Hw Ha Hd Htr Hdt HQ.
  eapply (wp_fetch_update _ _ _ _ _ _ (Some (word a false (data + tr)))); [exact Hw| |].
  - intros wk Q' HQ'. by apply wp_unlock_state.
  - intros wk. apply HQ.
Qed.

(** The queue is cut at the first request that has to wait. *)
Lemma cut_queue m m1 f1 wq f2 en :
  same_upto core (f1 ++ wq :: f2) m m1 -> linked m1 (reverse (f1 ++ wq :: f2)) ->
  NoDup (f1 ++ wq :: f2) -> fifo m1 (f1 ++ wq :: f2) -> node m1 wq en ->
  let m2 := set_entries (<[wq_entry wq := set_next 0 en]> (entries m1)) m1 in
  same_upto core (f1 ++ wq :: f2) m m2 /\ linked m2 (reverse f1) /\
  linked m2 (reverse (wq :: f2)) /\ fifo m2 (wq :: f2).
Proof.
  intros Hs Hl Hnd%NoDup_reverse Hf Hn m2.
  rewrite reverse_app, reverse_cons, <- app_assoc in Hl, Hnd. split; [|split; [|split]].
  - etransitivity; [done|]. eapply same_upto_insert; [apply Hn|set_solver|done].
  - by eapply linked_cut_granted.
  - rewrite reverse_cons. by eapply linked_cut.
  - eapply fifo_cut; [|done]. by eapply fifo_app.
Qed.

(** [process_wait_queue], run without interference, returns, and implements
    the list-level specification. *)
Lemma wp_process_wait_queue self data f os m (Q : unit -> mem -> Prop) :
  0 <= max_shared_owners S <= DATA_MASK -> queue_at m self true data f os -> f <> [] ->
  (forall m', processed self f (grant (max_shared_owners S) data os)
                (granted_data (max_shared_owners S) data os) m m' -> Q tt m') ->
  wp t (process_wait_queue S self (word (first_anchor (reverse f)) true data)) m Q.
Proof.
  intros [_ Hmax] Hq Hne HQ. pose proof Hq as [Hw Hd Hl Hnd Ht Hwait Ha Hok].
  pose proof (granted_data_range _ data os Hmax Hd Hok) as Hgd. unfold granted_data in *.
  pose proof (first_anchor_is_addr m _ Hl) as Haddr.
  unfold process_wait_queue. apply wp_loop.
  apply wp_bind, wp_debug_assert; [by rewrite word_land_locked|].
  apply wp_bind. eapply wp_tail_entry; [done..|]. rewrite word_land_data by done.
  apply wp_bind. rewrite Z.eqb_refl.
  apply wp_find_head; [done|by apply NoDup_reverse|done|by apply reverse_ne_nil|].
  rewrite reverse_involutive. intros m1 Hl1 Hf1 Hs1%unback_core.
  assert (same_upto core f m m1) as Hs1'.
  { eapply same_upto_mono; [|done]. intros y. by rewrite elem_of_reverse. }
  clear Hs1. rename Hs1' into Hs1.
  pose proof (relink_asks _ _ _ _ _ Hs1 Ha) as Ha1.
  assert (words m1 = words m) as Hw1 by (by eapply same_upto_words).
  assert (first_entry (reverse f) = wq_entry (List.last f 0)) as ->.
  { destruct f as [|x f' _] using rev_ind; [done|]. by rewrite List.last_last, reverse_app. }
  apply wp_bind. apply (wp_grant_pass _ _ _ f os 0); [done|by rewrite Hw1|done..|lia| | |].
  { by rewrite Z.add_0_r. }
  - (* every request is granted *)
    rewrite Z.add_0_r. intros Hg tr f' wq E. simpl.
    apply wp_bind, wp_debug_assert; [done|]. apply wp_bind, wp_ret, wp_bind, wp_ret, wp_bind.
    assert (wq_entry wq = first_entry (reverse f)) as -> by (by rewrite E, first_entry_reverse).
    rewrite Hg, take_ge in Hgd, HQ by lia.
    replace (data + acquired_total os)
      with (word (first_anchor (reverse [])) false (data + acquired_total os))
      by (unfold word; simpl; lia).
    replace (set_words _ m1) with (set_weak (weak m1) (set_words
      (<[self := word (first_anchor (reverse [])) false (data + acquired_total os)]>
         (words m1)) m1)) by by destruct m1.
    apply (wp_deliver_granted self f [] _ _ m); rewrite ?app_nil_r; try done.
    intros m' Hp. apply wp_ret. apply HQ. by rewrite (list.Forall2_length _ _ _ Ha) in Hp.
  - (* the requests after [f1] have to wait *)
    rewrite Z.add_0_r. intros f1 wq f2 en1 E Hg Hn1. rewrite Hg in Hgd, HQ. simpl. subst f.
    destruct (cut_queue m m1 f1 wq f2 en1) as (Hs2 & Hg1 & Hg2 & Hg3); try done.
    set (m2 := set_entries _ m1) in *.
    apply wp_bind, wp_debug_assert; [done|]. apply wp_bind, wp_bind.
    eapply wp_unlock; [simpl; by rewrite Hw1|done|done| |done|].
    { by apply acquired_total_nonneg, Forall_take. }
    intros wk r. apply wp_ret, wp_bind, wp_ret, wp_bind.
    assert (first_anchor (reverse (f1 ++ wq :: f2)) = first_anchor (reverse (wq :: f2))) as ->.
    { rewrite reverse_app, reverse_cons, <- app_assoc. by destruct (reverse f2). }
    assert (match reverse f1 with [] => 0 | x :: _ => wq_entry x end = first_entry (reverse f1))
      as -> by by destruct (reverse f1).
    apply (wp_deliver_granted self f1 (wq :: f2) _ _ m); try done.
    intros m' Hp. apply wp_ret. by apply HQ.
Qed.

End rules.
