(* ===== verification/Enqueue.v ===== *)
(** * Constructing and pushing entries

    [construct], [try_push_wait_queue_entry] and [wait_resources_sync]: a
    waiting thread's entry becomes the newest element of the queue, and the
    thread sleeps registered in it. *)

From S2P Require Import Prelude Prog Word Opcode Memory WaitQueue.
From S2P Require Import Geometry Results Queue SyncPrimitive Grant.

(** Nothing lives where the wait queue at [wq] would put its anchor and
    entry. *)
Definition vacant (m : mem) (wq : Z) : Prop :=
  wq_ok wq /\ anchors m !! anchor_addr wq = None /\ entries m !! wq_entry wq = None.

(** The entry [construct] writes in a fresh wait queue. *)
Definition fresh_entry (S : Primitive) (self : Z) (o : Opcode) (is_sync : bool) (wq : Z) :
    Entry :=
  mkEntry 0 0 o 0 false (if is_sync then Sync None else Async None) S self
    (wq_entry wq - wq).

(** The entry [construct] leaves in a wait queue that already has one. *)
Definition reused_entry (self : Z) (o : Opcode) (is_sync : bool) (en : Entry) : Entry :=
  set_addr self
    (set_monitor (if is_sync then Sync None else Async None)
      (set_opcode o (set_prev 0 en))).

(** The memory once the wait queue at [wq] holds the entry [en]. *)
Definition with_node (wq : Z) (en : Entry) (m : mem) : mem :=
  set_entries (<[wq_entry wq := en]> (entries m))
    (set_anchors (<[anchor_addr wq := anchor_value wq]> (anchors m)) m).

(** The wait queue at [wq] ceases to exist. *)
Definition withdrawn (wq : Z) (m : mem) : mem :=
  set_anchors (delete (anchor_addr wq) (anchors m))
    (set_entries (delete (wq_entry wq) (entries m)) m).

(** The entry of [wq] once pushed in front of the queue [f]. *)
Definition pushed_entry (f : list Z) (en : Entry) : Entry :=
  set_poll true (set_next (first_anchor (reverse f)) en).

(** ** Frames *)

(** [linked] and [fifo] only depend on the nodes of their elements. *)
Lemma linked_nodes m m' l :
  (forall wq en, wq ∈ l -> node m wq en -> node m' wq en) -> linked m l -> linked m' l.
Proof.
  induction l as [|wq l IH]; [done|]. intros Hf [(en & Hn & Hx) Hl]. split.
  - exists en. split; [|done]. apply Hf; [set_solver|done].
  - apply IH; [|done]. intros. apply Hf; [set_solver|done].
Qed.

Lemma fifo_nodes m m' f :
  (forall wq en, wq ∈ f -> node m wq en -> node m' wq en) -> fifo m f -> fifo m' f.
Proof.
  induction f as [|wq l IH]; [done|]. intros Hf [(en & Hn & Hx) Hl]. split.
  - exists en. split; [|done]. apply Hf; [set_solver|done].
  - apply IH; [|done]. intros. apply Hf; [set_solver|done].
Qed.

Lemma entry_is_nodes m m' P f :
  (forall wq en, wq ∈ f -> node m wq en -> node m' wq en) ->
  Forall (entry_is m P) f -> Forall (entry_is m' P) f.
Proof.
  intros Hf Hp. apply list.Forall_forall. intros wq Hin.
  rewrite list.Forall_forall in Hp. destruct (Hp wq Hin) as (en & Hn & HP). exists en. auto.
Qed.

Lemma asks_nodes m m' f os :
  (forall wq en, wq ∈ f -> node m wq en -> node m' wq en) ->
  Forall2 (asks m) f os -> Forall2 (asks m') f os.
Proof.
  intros Hf Ha. induction Ha as [|wq o f os (en & Hn & Ho) Ha IH]; constructor.
  - exists en. split; [|done]. apply Hf; [set_solver|done].
  - apply IH. intros. apply Hf; [set_solver|done].
Qed.

Lemma take_1_reverse_in (l : list Z) x : x ∈ take 1 (reverse l) -> x ∈ l.
Proof.
  intros Hin. apply elem_of_reverse.
  rewrite <- (take_drop 1 (reverse l)). set_solver.
Qed.

(** A queue whose nodes are left alone is still there. *)
Lemma queue_at_frame m m' self l d f os :
  queue_at m self l d f os -> words m' !! self = words m !! self ->
  (forall wq en, wq ∈ f -> node m wq en -> node m' wq en) ->
  queue_at m' self l d f os.
Proof.
  intros [Hw Hd Hl Hnd Ht Hwait Ha Hok] E Hf. split; try done.
  - by rewrite E.
  - eapply linked_nodes; [|done]. intros wq en Hin. apply Hf. by apply elem_of_reverse.
  - eapply fifo_nodes; [|done]. intros wq en Hin. apply Hf. by apply take_1_reverse_in.
  - by eapply entry_is_nodes.
  - by eapply asks_nodes.
Qed.

(** A primitive nobody waits for. *)
Lemma queue_at_empty m self l d :
  words m !! self = Some (word 0 l d) -> is_data d -> queue_at m self l d [] [].
Proof. intros Hw Hd. split; try done; constructor. Qed.

(** The queue under another word. *)
Lemma queue_at_set_word m self l d f os l' d' :
  queue_at m self l d f os -> is_data d' ->
  queue_at (set_words (<[self := word (first_anchor (reverse f)) l' d']> (words m)) m)
    self l' d' f os.
Proof.
  intros [Hw Hd Hl Hnd Ht Hwait Ha Hok] Hd'. split; try done.
  - apply lookup_insert_eq.
  - by apply (linked_ext m).
  - by apply (fifo_ext m).
Qed.

Lemma queue_at_node m self l d f os wq :
  queue_at m self l d f os -> wq ∈ f -> exists en, node m wq en.
Proof. intros Hq Hin. eapply linked_elem; [apply Hq|by apply elem_of_reverse]. Qed.

Lemma queue_at_is_addr m self l d f os :
  queue_at m self l d f os -> is_addr (first_anchor (reverse f)).
Proof. intros Hq. eapply first_anchor_is_addr. apply Hq. Qed.

#[export] Hint Resolve queue_at_is_addr : saa.

(** The last element of a queue linked backwards has a null back pointer. *)
Lemma fifo_last m f : fifo m f -> fifo m (take 1 (reverse f)).
Proof.
  destruct f as [|x f _] using rev_ind; [done|]. intros Hf.
  rewrite reverse_app. simpl. rewrite ?take_0. by apply fifo_app in Hf.
Qed.

(** After the processing, what is left is a queue again. *)
Lemma processed_queue m m' self f os n d' :
  NoDup f -> Forall (entry_is m is_waiting) f -> Forall2 (asks m) f os ->
  Forall (fun o => opcode_ok o = true) os ->
  processed self f n d' m m' -> is_data d' ->
  queue_at m' self false d' (drop n f) (drop n os).
Proof.
  intros Hnd Hwait Ha Hok [Pw Pa Pl Pf Pg Pr Po _ _] Hd'.
  assert (NoDup (drop n f)) as Hnd'.
  { rewrite <- (take_drop n f) in Hnd. by apply list.NoDup_app in Hnd as (_ & _ & ?). }
  split; try done.
  - rewrite Pw. apply lookup_insert_eq.
  - by apply fifo_last.
  - apply list.Forall_forall. intros wq Hin. rewrite list.Forall_forall in Hwait.
    destruct (Hwait wq) as (en & Hn & Hwt).
    { rewrite <- (take_drop n f). set_solver. }
    destruct (Pr wq en Hin Hn) as (en' & Hn' & Hc). exists en'. split; [done|].
    by eapply core_is_waiting.
  - apply Forall2_drop with (n := n) in Ha.
    assert (forall wq, wq ∈ drop n f -> forall o, asks m wq o -> asks m' wq o) as Himp.
    { intros wq Hin o (en & Hn & <-). destruct (Pr wq en Hin Hn) as (en' & Hn' & Hc).
      exists en'. split; [done|]. by apply core_opcode. }
    revert Ha Himp. generalize (drop n os) as os'. clear. generalize (drop n f) as f'.
    intros f' os' Ha. induction Ha as [|wq o f' os' Hw Ha IH]; intros Himp; constructor.
    + apply Himp; [set_solver|done].
    + apply IH. intros. apply Himp; [set_solver|done].
  - by apply Forall_drop.
Qed.

Lemma processed_queue_at m m' self l d f os n d' :
  queue_at m self l d f os -> processed self f n d' m m' -> is_data d' ->
  queue_at m' self false d' (drop n f) (drop n os).
Proof. intros []. by apply processed_queue. Qed.

(** ** Rules *)

Section rules.
  Context (t : tid).
  Implicit Types m : mem.

Lemma wp_wait_queue_default wq m (Q : unit -> mem -> Prop) :
  wq_ok wq -> Q tt (set_anchors (<[anchor_addr wq := 0]> (anchors m)) m) ->
  wp t (wait_queue_default wq) m Q.
Proof.
  intros Hok HQ. apply wp_bind, wp_anchor_ptr; [done|]. by apply wp_alloc_anchor.
Qed.

Lemma wp_construct_fresh S wq self o is_sync m (Q : unit -> mem -> Prop) :
  wq_ok wq -> anchors m !! anchor_addr wq = Some 0 ->
  Q tt (with_node wq (fresh_entry S self o is_sync wq) m) ->
  wp t (construct S wq self o is_sync) m Q.
Proof.
  intros Hok Ha HQ. unfold construct. apply wp_bind, wp_anchor_ptr; [done|].
  apply wp_bind. eapply wp_read_anchor; [done|]. simpl.
  apply wp_bind, wp_bind. eapply wp_write_anchor; [done|]. apply wp_ret.
  apply wp_bind, wp_to_entry_ptr_anchor; [done|apply lookup_insert_eq|].
  apply wp_write_entry. by rewrite entry_offset.
Qed.

(** The three steps of a fresh wait queue. *)
Lemma wp_default_construct S wq self o is_sync m (Q : unit -> mem -> Prop) :
  wq_ok wq -> Q tt (with_node wq (fresh_entry S self o is_sync wq) m) ->
  wp t (wait_queue_default wq ;;; construct S wq self o is_sync) m Q.
Proof.
  intros Hok HQ. apply wp_bind, wp_wait_queue_default; [done|].
  apply wp_construct_fresh; [done|apply lookup_insert_eq|].
  unfold with_node in *. simpl. by rewrite insert_insert_eq.
Qed.

Lemma wp_construct_reuse S wq self o is_sync en m (Q : unit -> mem -> Prop) :
  node m wq en -> e_pollable en = false ->
  Q tt (set_entries (<[wq_entry wq := reused_entry self o is_sync en]> (entries m)) m) ->
  wp t (construct S wq self o is_sync) m Q.
Proof.
  intros Hn Hp HQ. pose proof Hn as (Hok & Ha & He & Ho).
  unfold construct. apply wp_bind, wp_anchor_ptr; [done|].
  apply wp_bind. eapply wp_read_anchor; [done|].
  pose proof (anchor_value_ne_0 wq Hok) as Hne. apply Z.eqb_neq in Hne. rewrite Hne.
  apply wp_bind, wp_bind, wp_debug_assert; [by apply Z.eqb_eq|]. apply wp_ret.
  apply wp_bind. eapply wp_to_entry_ptr; [done|].
  apply wp_bind. eapply wp_read_field; [done|]. rewrite Hp.
  apply wp_bind, wp_debug_assert; [done|].
  apply wp_bind. eapply wp_write_field; [done|].
  apply wp_bind. eapply wp_write_field; [apply lookup_insert_eq|].
  apply wp_bind. eapply wp_write_field; [apply lookup_insert_eq|].
  eapply wp_write_field; [apply lookup_insert_eq|].
  simpl. by rewrite !insert_insert_eq.
Qed.

(** Pushing succeeds when the state is current. *)
Lemma wp_push_ok self wq en l d f m (Q : bool -> mem -> Prop) :
  words m !! self = Some (word (first_anchor (reverse f)) l d) -> is_data d ->
  is_addr (first_anchor (reverse f)) -> node m wq en ->
  Q true (set_entries (<[wq_entry wq := pushed_entry f en]> (entries m))
           (set_words (<[self := word (anchor_addr wq) l d]> (words m)) m)) ->
  wp t (try_push_wait_queue_entry self wq (word (first_anchor (reverse f)) l d)) m Q.
Proof.
  intros Hw Hd Hfa Hn HQ. assert (is_addr (anchor_addr wq)) as Ha by eauto with saa.
  unfold try_push_wait_queue_entry. apply wp_bind, wp_anchor_ptr; [by eauto with saa|].
  apply wp_bind, wp_debug_assert; [by rewrite addr_land_not_addr|].
  rewrite word_to_anchor_ptr by done.
  apply wp_bind. eapply wp_entry; [done|].
  apply wp_bind. eapply wp_update_next; [done..|].
  rewrite word_land_not_addr, word_lor_addr by done.
  apply wp_bind, wp_compare_exchange_ok; [done|].
  assert (forall ws, node (set_words ws
    (set_entries (<[wq_entry wq := set_next (first_anchor (reverse f)) en]> (entries m)) m))
    wq (set_next (first_anchor (reverse f)) en)) as Hn'.
  { intros ws. eapply node_ext; [..|by apply (node_insert m wq en)]; done. }
  apply wp_bind. eapply wp_entry; [apply Hn'|].
  apply wp_bind. eapply wp_write_field; [apply Hn'|]. apply wp_ret.
  simpl. by rewrite insert_insert_eq.
Qed.

(** Pushing fails, leaving the queue alone, when the state is stale. *)
Lemma wp_push_stale self wq en state w m (Q : bool -> mem -> Prop) :
  words m !! self = Some w -> w <> state -> is_usize state -> node m wq en ->
  Q false (set_entries (<[wq_entry wq := set_next (to_anchor_ptr state) en]> (entries m)) m) ->
  wp t (try_push_wait_queue_entry self wq state) m Q.
Proof.
  intros Hw Hne Hs Hn HQ. assert (is_addr (anchor_addr wq)) as Ha by eauto with saa.
  unfold try_push_wait_queue_entry. apply wp_bind, wp_anchor_ptr; [by eauto with saa|].
  apply wp_bind, wp_debug_assert; [by rewrite addr_land_not_addr|].
  apply wp_bind. eapply wp_entry; [done|].
  apply wp_bind. eapply wp_update_next; [done| |].
  { destruct (word_decompose state Hs) as (a & l & d & -> & ? & ?).
    by rewrite word_to_anchor_ptr. }
  apply wp_bind. eapply wp_compare_exchange_err; [done..|]. by apply wp_ret.
Qed.

End rules.

(** The queue after the push. *)
Lemma queue_at_push m self l d f os wq en :
  queue_at m self l d f os -> node m wq en -> wq ∉ f -> e_prev_entry_ptr en = 0 ->
  is_waiting en -> opcode_ok (e_opcode en) = true ->
  queue_at (set_entries (<[wq_entry wq := pushed_entry f en]> (entries m))
             (set_words (<[self := word (anchor_addr wq) l d]> (words m)) m))
    self l d (f ++ [wq]) (os ++ [e_opcode en]).
Proof.
  intros [Hw Hd Hl Hnd Ht Hwait Ha Hok] Hn Hni Hp Hwt Ho. set (m' := set_entries _ _).
  assert (node m' wq (pushed_entry f en)) as Hn'.
  { eapply (node_transfer m); [done|done| |done]. apply lookup_insert_eq. }
  assert (forall wq' en', wq' ∈ f -> node m wq' en' -> node m' wq' en') as Hf.
  { intros wq' en' Hin Hn1. eapply (node_transfer m); [done|done| |done]. simpl.
    rewrite lookup_insert_ne; [apply Hn1|]. intros E. apply Hni.
    by rewrite (node_inj m wq wq' en en'). }
  split; try done.
  - rewrite reverse_app. apply lookup_insert_eq.
  - rewrite reverse_app. split; [by eauto|].
    eapply linked_nodes; [|exact Hl]. intros wq' en' Hin. apply Hf. by apply elem_of_reverse.
  - apply list.NoDup_app. split; [done|]. split; [set_solver|]. apply NoDup_singleton.
  - rewrite reverse_app. simpl. rewrite ?take_0. split; [|done].
    exists (pushed_entry f en). done.
  - apply Forall_app. split; [by eapply entry_is_nodes|]. constructor; [|done].
    exists (pushed_entry f en). done.
  - apply Forall2_app; [by eapply asks_nodes|]. constructor; [|done].
    exists (pushed_entry f en). done.
  - apply Forall_app. split; [done|]. by constructor.
Qed.

(** Putting a node in a vacant place does not disturb the live ones. *)
Lemma with_node_frame m wq en wq' en' :
  vacant m wq -> node m wq' en' -> node (with_node wq en m) wq' en'.
Proof.
  intros (Hok & Ha & He) (Hok' & Ha' & He' & Ho'). split; [done|]. simpl. split; [|split].
  - rewrite lookup_insert_ne by congruence. done.
  - rewrite lookup_insert_ne by congruence. done.
  - done.
Qed.

Lemma with_node_node m wq S self o is_sync :
  wq_ok wq ->
  node (with_node wq (fresh_entry S self o is_sync wq) m) wq (fresh_entry S self o is_sync wq).
Proof.
  intros Hok. split; [done|]. simpl. split; [|split]; by rewrite ?lookup_insert_eq.
Qed.

Lemma queue_at_with_node m self l d f os wq en :
  queue_at m self l d f os -> vacant m wq -> queue_at (with_node wq en m) self l d f os.
Proof.
  intros Hq Hv. eapply queue_at_frame; [done..|]. intros. by apply with_node_frame.
Qed.

Lemma vacant_notin m self l d f os wq :
  queue_at m self l d f os -> vacant m wq -> wq ∉ f.
Proof.
  intros Hq (_ & _ & He) Hin. destruct (queue_at_node _ _ _ _ _ _ _ Hq Hin) as (en & Hn).
  destruct Hn as (_ & _ & ? & _). congruence.
Qed.
