(* ===== verification/Release.v ===== *)
(** * Releasing resources

    [release_loop], run without interference: what it refuses, what it
    releases in place, and how it hands released units to the queue. *)

From S2P Require Import Prelude Prog Word Opcode Memory WaitQueue.
From S2P Require Import Geometry Results Queue SyncPrimitive Grant Enqueue.

(** [can_release] reads the data of the state only. *)
Definition releasable (o : Opcode) (d : Z) : bool :=
  match o with
  | Exclusive => d =? DATA_MASK
  | Shared => (1 <=? d) && negb (d =? DATA_MASK)
  | SemaphoreOp count => count <=? d
  | BarrierOp _ | Wait _ => true
  end.

(** What a successful release leaves behind: the units of [o] are given back
    and the queue is processed with what is left. *)
Definition handed_over (S : Primitive) `{SyncPrimitive S} (self d : Z) (o : Opcode)
    (f : list Z) (os : list Opcode) (m m' : mem) : Prop :=
  let d' := d - acquired_count o in
  processed self f (grant (max_shared_owners S) d' os)
    (granted_data (max_shared_owners S) d' os) m m'.

Lemma can_release_releasable o a l d :
  is_addr a -> is_data d -> can_release o (word a l d) = releasable o d.
Proof. intros Ha Hd. destruct o; simpl; by rewrite ?word_land_data. Qed.

Lemma releasable_data o d :
  is_data d -> opcode_ok o = true -> releasable o d = true -> is_data (d - acquired_count o).
Proof.
  intros Hd Ho Hr. pose proof (acquired_count_range o Ho).
  rewrite <- (can_release_releasable o 0 false d) in Hr by done.
  pose proof (can_release_word o 0 false d is_addr_0 Hd Ho Hr).
  unfold is_data in *. lia.
Qed.

Lemma usize_sub_word a l d x :
  is_addr a -> is_data d -> is_data (d - x) -> usize_sub (word a l d) x = word a l (d - x).
Proof.
  intros Ha Hd Hx. pose proof (word_range a l (d - x) Ha Hx) as Hr.
  rewrite usize_sub_small; unfold word, is_usize in *; lia.
Qed.

Lemma word_addr_zero a l d :
  is_addr a -> is_data d -> (Z.land (word a l d) ADDR_MASK =? 0) = (a =? 0).
Proof. intros. by rewrite word_land_addr. Qed.

Lemma word_locked_bit a l d :
  is_addr a -> is_data d -> (Z.land (word a l d) LOCKED_FLAG =? LOCKED_FLAG) = l.
Proof. intros. rewrite word_land_locked by done. by destruct l. Qed.

#[export] Hint Rewrite word_addr_zero word_locked_bit using done : word.

(** Only the word of [self] is replaced, so an update of it beforehand does
    not matter. *)
Lemma processed_set_words self f n d' w m m' :
  processed self f n d' (set_words (<[self := w]> (words m)) m) m' ->
  processed self f n d' m m'.
Proof.
  intros [Pw Pa Pl Pf Pg Pr Po Pt Pk]. split; try done.
  rewrite Pw. simpl. by rewrite insert_insert_eq.
Qed.

(** An empty queue is processed by writing the word. *)
Lemma processed_nil self d' m :
  processed self [] 0 d' m (set_words (<[self := word 0 false d']> (words m)) m).
Proof. split; try done; set_solver. Qed.

Lemma queue_at_word m self l d f os :
  queue_at m self l d f os -> words m !! self = Some (word (first_anchor (reverse f)) l d).
Proof. apply q_word. Qed.

Lemma queue_at_data m self l d f os : queue_at m self l d f os -> is_data d.
Proof. apply q_data. Qed.

#[export] Hint Resolve queue_at_word queue_at_data : saa.

(** The address part of a queue's word is null exactly when it is empty. *)
Lemma queue_at_addr_eqb m self l d f os :
  queue_at m self l d f os ->
  (first_anchor (reverse f) =? 0) = match f with [] => true | _ => false end.
Proof.
  intros Hq. rewrite (first_anchor_eqb m) by apply Hq.
  destruct f as [|x f]; [done|]. rewrite reverse_cons. by destruct (reverse f).
Qed.

Section rules.
  Context (t : tid) (S : Primitive) `{SyncPrimitive S}.
  Implicit Types m : mem.

(** Nothing is done when the state does not cover the request. *)
Lemma wp_release_loop_refused self w o m (Q : bool -> mem -> Prop) :
  can_release o w = false -> Q false m -> wp t (release_loop S self w o) m Q.
Proof. intros Hr HQ. apply wp_loop. rewrite Hr. by apply wp_ret. Qed.

(** Without waiting entries, or while another thread processes them, the
    units are given back in place. *)
Lemma wp_release_loop_in_place self a l d o m (Q : bool -> mem -> Prop) :
  words m !! self = Some (word a l d) -> is_addr a -> is_data d -> opcode_ok o = true ->
  releasable o d = true -> a = 0 \/ l = true ->
  Q true (set_words (<[self := word a l (d - acquired_count o)]> (words m)) m) ->
  wp t (release_loop S self (word a l d) o) m Q.
Proof.
  intros Hw Ha Hd Ho Hr Hal HQ. apply wp_loop.
  rewrite can_release_releasable, Hr, word_addr_zero, word_locked_bit by done.
  assert ((a =? 0) || l = true) as ->.
  { destruct Hal as [->| ->]; [done|apply orb_true_r]. }
  rewrite usize_sub_word by (done || by apply releasable_data).
  apply wp_bind, wp_compare_exchange_ok; [done|]. by apply wp_ret.
Qed.

(** The general case on a quiescent queue. *)
Lemma wp_release_loop self d f os o m (Q : bool -> mem -> Prop) :
  0 <= max_shared_owners S <= DATA_MASK -> queue_at m self false d f os ->
  opcode_ok o = true -> releasable o d = true ->
  (forall m', handed_over S self d o f os m m' -> Q true m') ->
  wp t (release_loop S self (word (first_anchor (reverse f)) false d) o) m Q.
Proof.
  intros Hmax Hq Ho Hr HQ.
  pose proof (queue_at_is_addr _ _ _ _ _ _ Hq) as Ha.
  pose proof (q_data _ _ _ _ _ _ Hq) as Hd.
  pose proof (releasable_data o d Hd Ho Hr) as Hd'.
  destruct (decide (f = [])) as [->|Hne].
  - apply wp_release_loop_in_place; try done; [apply Hq|by left|].
    apply HQ. pose proof (q_asks _ _ _ _ _ _ Hq) as Hos. apply Forall2_nil_inv_l in Hos as ->.
    unfold handed_over, granted_data. simpl. rewrite Z.add_0_r. apply processed_nil.
  - apply wp_loop. rewrite can_release_releasable, Hr, word_addr_zero, word_locked_bit by done.
    rewrite (queue_at_addr_eqb _ _ _ _ _ _ Hq). destruct f as [|x f]; [done|]. simpl.
    rewrite word_lor_locked, usize_sub_word by done.
    apply wp_bind, wp_compare_exchange_ok; [apply Hq|].
    apply wp_bind. apply (wp_process_wait_queue t S self _ _ os); [done| |done|].
    + by eapply queue_at_set_word.
    + intros m' Hp. apply wp_ret, HQ. by eapply processed_set_words.
Qed.

(** From a stale state that passes the test, the exchange fails and the loop
    goes on with the current state. *)
Lemma wp_release_loop_stale self s w o m (Q : bool -> mem -> Prop) :
  words m !! self = Some w -> w <> s -> can_release o s = true ->
  wp t (release_loop S self w o) m Q ->
  wp t (release_loop S self s o) m Q.
Proof.
  intros Hw Hne Hr HQ. unfold release_loop in *. apply wp_loop. rewrite Hr.
  case_match; (apply wp_bind; eapply wp_compare_exchange_err; [done..|]); apply wp_ret; done.
Qed.

End rules.

(** After handing over, the first [n] waiting requests own the lock and the
    others still wait. *)
Definition granted_prefix (self d' : Z) (n : nat) (f : list Z) (os : list Opcode) (m m' : mem) :
    Prop :=
  processed self f n d' m m' /\ queue_at m' self false d' (drop n f) (drop n os).

Lemma handed_over_queue S `{SyncPrimitive S} self d o f os m m' :
  0 <= max_shared_owners S <= DATA_MASK ->
  queue_at m self false d f os -> opcode_ok o = true -> releasable o d = true ->
  handed_over S self d o f os m m' ->
  granted_prefix self (granted_data (max_shared_owners S) (d - acquired_count o) os)
    (grant (max_shared_owners S) (d - acquired_count o) os) f os m m'.
Proof.
  intros Hmax Hq Ho Hr Hh. split; [exact Hh|].
  eapply processed_queue_at; [exact Hq|exact Hh|].
  apply granted_data_range; [lia| |apply Hq].
  apply releasable_data; [apply Hq|done..].
Qed.

Lemma delivered_set_weak r l m wk m' :
  delivered r l (set_weak wk m) m' -> delivered r l m m'.
Proof. intros (W & A & D & F & T & K). split; [exact W|]. split; [exact A|]. by split. Qed.

Section tell.
  Context (t : tid).
  Implicit Types m : mem.

(** Walking the queue found in a replaced word, telling everybody. *)
Lemma wp_tell_everyone {C} self l d f os w wk r (g : C -> C) c m (Q : C -> mem -> Prop) :
  queue_at m self l d f os -> is_u8 r ->
  (forall m', delivered r (reverse f) (set_words (<[self := w]> (words m)) m) m' ->
     Q (Nat.iter (length f) g c) m') ->
  wp t (if negb (to_anchor_ptr (word (first_anchor (reverse f)) l d) =? 0)
        then
          tail_entry_ptr <- to_entry_ptr (to_anchor_ptr (word (first_anchor (reverse f)) l d)) ;;
          iter_forward tail_entry_ptr false
            (fun entry _ c => set_result entry r ;;; Ret (g c, false)) c
        else Ret c) (set_weak wk (set_words (<[self := w]> (words m)) m)) Q.
Proof.
  intros Hq Hr HQ. pose proof Hq as [Hw Hd Hl Hnd Ht Hwait Ha Hok].
  pose proof (queue_at_is_addr _ _ _ _ _ _ Hq) as Haddr.
  rewrite word_to_anchor_ptr, (queue_at_addr_eqb _ _ _ _ _ _ Hq) by done.
  set (m1 := set_weak wk _). destruct (decide (f = [])) as [->|Hne].
  - apply wp_ret. apply (HQ m1). unfold m1. apply delivered_nil.
  - assert (match f with [] => true | _ => false end = false) as -> by by destruct f. simpl.
    destruct (linked_first m _ Hl (reverse_ne_nil _ Hne)) as (y & en & Ey & Ee & Hn).
    rewrite Ey. apply wp_bind. eapply wp_to_entry_ptr; [by apply (node_ext m)|].
    rewrite <- Ee. apply (wp_deliver t r g).
    + by apply (linked_ext m).
    + by apply NoDup_reverse.
    + apply list.Forall_forall. intros z Hz. rewrite elem_of_reverse in Hz.
      rewrite list.Forall_forall in Hwait. exact (Hwait z Hz).
    + done.
    + intros m' Hd'. rewrite length_reverse. apply HQ. by apply (delivered_set_weak _ _ _ wk).
Qed.

End tell.
