(* ===== verification/Cancel.v ===== *)
(** * Giving up waiting

    [remove_wait_queue_entry] and [force_remove_wait_queue_entry], run without
    interference: the entry of a wait queue that is dropped while it waits is
    unlinked, and the remaining queue is processed. *)

From S2P Require Import Prelude Prog Word Opcode Memory WaitQueue.
From S2P Require Import Geometry Results Queue SyncPrimitive Grant Enqueue Release.

(** ** Lists without an element *)

Lemma reverse_middle (f1 f2 : list Z) wq :
  reverse (f1 ++ (wq :: f2)) = reverse f2 ++ (wq :: reverse f1).
Proof. by rewrite reverse_app, reverse_cons, <- app_assoc. Qed.

Lemma nodup_middle (l1 l2 : list Z) x :
  NoDup (l1 ++ x :: l2) -> NoDup (l1 ++ l2) /\ (x ∉ l1) /\ (x ∉ l2).
Proof.
  intros Hnd. apply list.NoDup_app in Hnd as (H1 & H2 & Hnd).
  apply list.NoDup_cons in Hnd as [H3 H4]. split.
  - apply list.NoDup_app. split; [done|]. split; [|done].
    intros y Hy Hy'. apply (H2 y Hy). set_solver.
  - split; [|done]. intros Hx. apply (H2 x Hx). set_solver.
Qed.

(** [linked] of a prefix only looks at the prefix and at the anchor after
    it. *)
Lemma linked_app_split m l1 l2 :
  linked m (l1 ++ l2) ->
  forall l2', first_anchor l2' = first_anchor l2 -> linked m l2' -> linked m (l1 ++ l2').
Proof.
  induction l1 as [|x l1 IH]; [done|]. intros [(en & Hn & Hx) Hl] l2' E Hl2. split.
  - exists en. split; [done|]. rewrite Hx. destruct l1; done.
  - by apply IH.
Qed.

(** The relinking of the element before the removed one. *)
Lemma linked_bypass m l1 p wq l2 en enw :
  linked m (l1 ++ p :: wq :: l2) -> NoDup (l1 ++ p :: wq :: l2) ->
  node m p en -> node m wq enw ->
  linked (set_entries
    (<[wq_entry p := set_next (e_next_entry_anchor_ptr enw) en]> (entries m)) m)
    (l1 ++ p :: l2).
Proof.
  intros Hl Hnd Hp Hw. induction l1 as [|x l1 IH]; simpl in *.
  - destruct Hl as (_ & (enw' & Hw' & Hx) & Hl).
    rewrite (node_fun m wq enw' enw) in Hx by done.
    apply list.NoDup_cons in Hnd as [Hni Hnd]. split.
    + eexists. split; [by apply (node_insert m p en)|]. done.
    + eapply linked_nodes; [|done]. intros y eny Hy Hn.
      eapply node_insert_ne; [done..|]. intros ->. apply Hni. set_solver.
  - destruct Hl as [(enx & Hn & Hx) Hl]. apply list.NoDup_cons in Hnd as [Hni Hnd].
    split; [|by apply IH]. exists enx. split.
    + eapply node_insert_ne; [done..|]. intros ->. apply Hni. set_solver.
    + rewrite Hx. by destruct l1.
Qed.

(** [iter_forward] with [set_prev] restarts at any element. *)
Lemma unback_node l m m' wq en :
  same_upto unback l m m' -> node m wq en ->
  exists en', node m' wq en' /\ unback en' = unback en.
Proof.
  intros Hs Hn. destruct (same_upto_lookup _ _ _ _ _ _ Hs Hn) as (en' & E & Hc).
  exists en'. split; [|done]. eapply node_transfer; [done|by eapply same_upto_anchors|done|].
  by apply (f_equal e_offset) in Hc.
Qed.

Lemma core_set_prev p en : core (set_prev p en) = core en.
Proof. by destruct en. Qed.

Lemma core_set_next a en : core (set_next a en) = core en.
Proof. by destruct en. Qed.

(** Setting a back pointer does not change forward links. *)
Lemma linked_set_prev m l wq p en :
  linked m l -> node m wq en ->
  linked (set_entries (<[wq_entry wq := set_prev p en]> (entries m)) m) l.
Proof.
  intros Hl Hn. eapply unback_linked; [|done].
  eapply (same_upto_insert _ [wq]); [apply Hn|set_solver|]. by destruct en.
Qed.

(** The memory once [wq] has been unlinked from [f1 ++ wq :: f2]: the links of
    the queue and the word of [self] have changed. *)
Record unlinked (self : Z) (f1 : list Z) (wq : Z) (f2 : list Z) (w : Z) (m m' : mem) :
    Prop := {
  u_same : exists m1, same_upto core (f1 ++ wq :: f2) m m1 /\
    m' = set_words (<[self := w]> (words m1)) m1;
  u_linked : linked m' (reverse (f1 ++ f2));
  u_tail : fifo m' (take 1 (reverse (f1 ++ f2)));
}.

Lemma first_entry_app l1 x l2 : first_entry (l1 ++ x :: l2) = first_entry (l1 ++ [x]).
Proof. by destruct l1. Qed.

Lemma foldl_const {A B} (c : B) (l : list A) : foldl (fun c _ => c) c l = c.
Proof. by induction l. Qed.

Section rules.
  Context (t : tid).
  Implicit Types m : mem.

(** The body of the loop of [iter_forward] in [remove_wait_queue_entry]. *)
Abbreviation removing self w e := (Loop (fun '(entry_ptr, captured) =>
  if entry_ptr =? 0 then Ret (inr captured)
  else
    next <- next_entry_ptr entry_ptr ;;
    (if true && negb (next =? 0)
     then update_prev_entry_ptr next entry_ptr
     else Ret tt) ;;;
    let* (captured, stop) := remove_entry self w e entry_ptr next captured in
    if (stop : bool) then Ret (inr captured) else Ret (inl (next, captured)))).

(** The entry [p] behind the entry to remove is linked to the one before
    it. *)
Lemma wp_bypass w l1 p wq l2 enp en m (Q : Result (Z * bool) Z -> mem -> Prop) :
  linked m (l1 ++ p :: wq :: l2) -> NoDup (l1 ++ p :: wq :: l2) ->
  node m p enp -> node m wq en ->
  (forall m', linked m' (l1 ++ p :: l2) -> same_upto core (p :: wq :: l2) m m' ->
     (forall y eny, y <> p -> node m y eny -> node m' y eny) ->
     (exists enp', node m' p enp' /\ e_prev_entry_ptr enp' = e_prev_entry_ptr enp) ->
     Q (Ok (w, true)) m') ->
  wp t (next_anchor <- next_entry_anchor_ptr (wq_entry wq) ;;
        update_next_entry_anchor_ptr (wq_entry p) next_anchor ;;; Ret (Ok (w, true))) m Q.
Proof.
  intros Hl Hnd Hp Hn HQ.
  pose proof (linked_app _ _ _ Hl) as (_ & (en' & Hn' & Hx) & Hl2).
  rewrite (node_fun m wq en' en) in Hx by done. clear Hn' en'.
  apply wp_bind. eapply wp_read_field; [apply Hn|].
  apply wp_bind. eapply wp_update_next; [exact Hp| |].
  { rewrite Hx. by eapply first_anchor_is_addr. }
  apply wp_ret, HQ.
  - by eapply linked_bypass.
  - eapply same_upto_insert; [apply Hp|set_solver|apply core_set_next].
  - intros y eny Hy Hny. by eapply node_insert_ne.
  - eexists. split; [by apply (node_insert m p enp)|done].
Qed.

(** At the entry to remove, when it is not the newest one: the entry [p]
    behind it is linked to the entry before it. *)
Lemma wp_remove_middle self w p wq l1 l2 c m (Q : Result (Z * bool) Z -> mem -> Prop) :
  linked m (l1 ++ p :: wq :: l2) -> NoDup (l1 ++ p :: wq :: l2) ->
  entry_is m (fun en => e_prev_entry_ptr en = wq_entry p) wq ->
  (forall m', linked m' (l1 ++ p :: l2) ->
     same_upto core (p :: wq :: l2) m m' ->
     (forall y en, y ∈ l1 -> node m y en -> node m' y en) ->
     (forall enp, node m p enp -> exists enp', node m' p enp' /\
        e_prev_entry_ptr enp' = e_prev_entry_ptr enp) ->
     Q (Ok (w, true)) m') ->
  wp t (removing self w (wq_entry wq) (wq_entry wq, c)) m Q.
Proof.
  intros Hl Hnd Hf HQ.
  pose proof (linked_app _ _ _ Hl) as ((enp & Hnp & Hxp) & (en & Hn & Hx) & Hl2).
  destruct Hf as (en' & Hn' & Hprev). rewrite (node_fun m wq en' en) in Hprev by done. clear Hn' en'.
  assert (p <> wq) as Hpw.
  { intros ->. apply list.NoDup_app in Hnd as (_ & _ & Hnd).
    apply list.NoDup_cons in Hnd as [Hni _]. set_solver. }
  apply wp_loop. simpl. rewrite wq_entry_eqb_0 by eauto with saa.
  apply wp_bind. eapply (wp_next_entry_ptr t wq en l2); [done..|]. simpl.
  assert (forall y, y ∈ l1 -> y <> p) as Hl1p.
  { intros y Hy ->. apply list.NoDup_app in Hnd as (_ & Hd & _). apply (Hd p Hy). set_solver. }
  destruct l2 as [|n l2]; simpl.
  - apply wp_bind, wp_ret, wp_bind. unfold remove_entry. rewrite Z.eqb_refl.
    apply wp_bind. eapply wp_prev_entry_ptr; [done|]. simpl. rewrite Hprev. simpl.
    apply wp_bind, wp_ret, wp_bind. rewrite wq_entry_eqb_0 by eauto with saa. simpl.
    eapply wp_bypass; [done..|]. intros m' Hl' Hs' Ho' Hp'. apply wp_ret, wp_ret, HQ; [done..| |].
    + intros y eny Hy. by apply Ho', Hl1p.
    + intros enp' Hnp'. by rewrite (node_fun m p enp' enp).
  - assert (exists enn, node m n enn) as (enn & Hnn) by (destruct Hl2 as [(? & ? & _) _]; eauto).
    rewrite wq_entry_eqb_0 by eauto with saa. simpl.
    assert (n <> wq /\ n <> p /\ n ∉ l1) as (Hnw & Hnp' & Hnl).
    { clear - Hnd. apply list.NoDup_app in Hnd as (_ & Hd & Hnd).
      apply list.NoDup_cons in Hnd as [H1 Hnd]. apply list.NoDup_cons in Hnd as [H2 Hnd].
      split; [set_solver|]. split; [set_solver|]. intros Hin. apply (Hd n Hin). set_solver. }
    apply wp_bind. eapply wp_update_prev; [done|].
    pose proof (linked_set_prev _ _ n (wq_entry wq) enn Hl Hnn) as Hl1. set (m1 := set_entries _ m) in *.
    apply wp_bind. unfold remove_entry. rewrite Z.eqb_refl.
    apply wp_bind. eapply wp_prev_entry_ptr; [by eapply node_insert_ne|]. rewrite Hprev. simpl.
    rewrite wq_entry_eqb_0 by eauto with saa. simpl.
    assert (node m1 n (set_prev (wq_entry wq) enn)) as Hnn1 by (by eapply node_insert).
    apply wp_bind. eapply wp_update_prev; [exact Hnn1|].
    pose proof (linked_set_prev _ _ n (wq_entry p) _ Hl1 Hnn1) as Hl3. set (m2 := set_entries _ m1) in *.
    assert (forall y eny, y <> n -> node m y eny -> node m2 y eny) as Hout.
    { intros y eny Hy Hny. eapply node_insert_ne; [eapply node_insert_ne|..]; done. }
    apply wp_bind. rewrite wq_entry_eqb_0 by eauto with saa. simpl.
    eapply (wp_bypass w l1 p wq (n :: l2)); [done|done|by apply Hout|by apply Hout|].
    intros m' Hl' Hs' Ho' Hp'. apply wp_ret, wp_ret, HQ; [done|..].
    + transitivity m1; [|transitivity m2; [|done]].
      * eapply same_upto_insert; [apply Hnn|set_solver|apply core_set_prev].
      * eapply same_upto_insert; [apply Hnn1|set_solver|apply core_set_prev].
    + intros y eny Hy Hny. apply Ho'; [by apply Hl1p|]. apply Hout; [by intros ->|done].
    + intros enp' Hnp2. by rewrite (node_fun m p enp' enp).
Qed.

(** At the newest entry: the word of [self] is updated, and unlocked when the
    queue becomes empty. *)
Lemma wp_remove_newest self d wq l2 c m (Q : Result (Z * bool) Z -> mem -> Prop) :
  words m !! self = Some (word (anchor_addr wq) true d) -> is_data d ->
  linked m (wq :: l2) -> NoDup (wq :: l2) -> fifo m [wq] ->
  (forall m1, linked m1 l2 -> fifo m1 (take 1 l2) -> same_upto core (wq :: l2) m m1 ->
     let w := word (first_anchor l2) (negb (first_anchor l2 =? 0)) d in
     Q (Ok (w, true)) (set_words (<[self := w]> (words m1)) m1)) ->
  wp t (removing self (word (anchor_addr wq) true d) (wq_entry wq) (wq_entry wq, c)) m Q.
Proof.
  intros Hw Hd Hl Hnd [(en' & Hn' & Hprev) _] HQ.
  pose proof Hl as [(en & Hn & Hx) Hl2].
  rewrite (node_fun m wq en' en) in Hprev by done. clear Hn' en'.
  assert (is_addr (anchor_addr wq)) as Ha by eauto with saa.
  apply wp_loop. simpl. rewrite wq_entry_eqb_0 by eauto with saa.
  apply wp_bind. eapply (wp_next_entry_ptr t wq en l2); [done..|]. simpl.
  destruct l2 as [|n l2]; simpl.
  - apply wp_bind, wp_ret, wp_bind. unfold remove_entry. rewrite Z.eqb_refl.
    apply wp_bind. eapply wp_prev_entry_ptr; [done|]. simpl. rewrite Hprev. simpl.
    apply wp_bind, wp_ret, wp_bind. simpl.
    rewrite word_land_data by done.
    apply wp_bind, wp_compare_exchange_ok; [done|]. apply wp_ret, wp_ret, wp_ret.
    specialize (HQ m ltac:(done) ltac:(done) (same_upto_refl _ _ _)). simpl in HQ.
    change d with (word 0 false d) at 1 2. exact HQ.
  - destruct Hl2 as [(enn & Hnn & Hxn) Hl2].
    apply list.NoDup_cons in Hnd as [Hni Hnd]. assert (n <> wq) as Hne by set_solver.
    assert (is_addr (anchor_addr n)) as Han by eauto with saa.
    rewrite wq_entry_eqb_0 by eauto with saa. simpl.
    apply wp_bind. eapply wp_update_prev; [done|]. set (m1 := set_entries _ m).
    assert (linked m1 (wq :: n :: l2)) as Hl1 by (by apply linked_set_prev).
    assert (node m1 wq en) as Hn1 by (by eapply node_insert_ne).
    assert (node m1 n (set_prev (wq_entry wq) enn)) as Hnn1 by (by eapply node_insert).
    apply wp_bind. unfold remove_entry. rewrite Z.eqb_refl.
    apply wp_bind. eapply wp_prev_entry_ptr; [exact Hn1|]. rewrite Hprev. simpl.
    rewrite wq_entry_eqb_0 by eauto with saa. simpl.
    apply wp_bind. eapply wp_update_prev; [exact Hnn1|]. set (m2 := set_entries _ m1).
    assert (linked m2 (wq :: n :: l2)) as Hl3 by (by apply linked_set_prev).
    assert (node m2 n (set_prev 0 enn)) as Hnn2.
    { by apply (node_insert m1 n (set_prev (wq_entry wq) enn)). }
    apply wp_bind, wp_bind. eapply wp_to_wait_queue_ptr; [exact Hnn2|].
    apply wp_bind, wp_anchor_ptr; [by eauto with saa|].
    apply wp_bind, wp_debug_assert; [by rewrite addr_land_not_addr|].
    rewrite word_land_not_addr, word_lor_addr by done.
    apply wp_bind, wp_debug_assert; [by rewrite word_locked_bit|].
    apply wp_bind, wp_compare_exchange_ok; [done|]. apply wp_ret, wp_ret, wp_ret.
    specialize (HQ m2). simpl in HQ. rewrite anchor_addr_eqb_0 in HQ by eauto with saa.
    apply HQ.
    + apply Hl3.
    + rewrite ?take_0. split; [|done]. exists (set_prev 0 enn). done.
    + transitivity m1.
      * eapply same_upto_insert; [apply Hnn|set_solver|apply core_set_prev].
      * eapply same_upto_insert; [apply Hnn1|set_solver|done].
Qed.

(** Removing the newest entry unlinks it. *)
Lemma unlinked_newest self f1 wq w m m1 m2 :
  same_upto core (f1 ++ [wq]) m m1 -> same_upto core (wq :: reverse f1) m1 m2 ->
  linked m2 (reverse f1) -> fifo m2 (take 1 (reverse f1)) ->
  unlinked self f1 wq [] w m (set_words (<[self := w]> (words m2)) m2).
Proof.
  intros Hs1 Hs2 Hl2 Hf2. split; rewrite ?app_nil_r.
  - exists m2. split; [|done]. etransitivity; [done|].
    eapply same_upto_mono; [|done]. intros y. rewrite elem_of_cons, elem_of_reverse. set_solver.
  - by apply (linked_ext m2).
  - by apply (fifo_ext m2).
Qed.

(** So does linking around an older one. *)
Lemma unlinked_middle self f1 wq p f2 w m m1 m2 :
  words m !! self = Some w -> same_upto core (f1 ++ wq :: p :: f2) m m1 ->
  same_upto core (p :: wq :: reverse f1) m1 m2 ->
  linked m2 (reverse f2 ++ p :: reverse f1) -> fifo m1 (p :: f2) ->
  (forall y en, y ∈ reverse f2 -> node m1 y en -> node m2 y en) ->
  (forall enp, node m1 p enp -> exists enp', node m2 p enp' /\
     e_prev_entry_ptr enp' = e_prev_entry_ptr enp) ->
  unlinked self f1 wq (p :: f2) w m m2.
Proof.
  intros Hw Hs1 Hs2 Hl2 Hf1 Hout Hp.
  assert (same_upto core (f1 ++ wq :: p :: f2) m m2) as Hsm.
  { etransitivity; [done|]. eapply same_upto_mono; [|done].
    intros y. rewrite !elem_of_cons, elem_of_reverse. set_solver. }
  split; rewrite ?reverse_middle; [|done|].
  - exists m2. split; [done|]. rewrite insert_id; [by destruct m2|].
    by rewrite (same_upto_words _ _ _ _ Hsm).
  - assert (fifo m1 (take 1 (reverse f2 ++ [p]))) as Hlast.
    { rewrite <- reverse_cons. by apply fifo_last. }
    destruct (reverse f2) as [|z l]; simpl in *; rewrite ?take_0 in *;
      destruct Hlast as [(enz & Hz & Hzp) _]; (split; [|done]).
    + destruct (Hp _ Hz) as (enz' & ? & ?). exists enz'. split; [done|congruence].
    + exists enz. split; [|done]. apply Hout; [set_solver|done].
Qed.

(** Unlinking the entry of [wq] from a queue being processed. *)
Lemma wp_remove_wait_queue_entry self d f1 wq f2 os m (Q : Z * bool -> mem -> Prop) :
  queue_at m self true d (f1 ++ wq :: f2) os ->
  (forall m',
     let a := first_anchor (reverse (f1 ++ f2)) in
     let w := word a (negb (a =? 0)) d in
     unlinked self f1 wq f2 w m m' -> Q (w, true) m') ->
  wp t (remove_wait_queue_entry self
          (word (first_anchor (reverse (f1 ++ wq :: f2))) true d) (wq_entry wq)) m Q.
Proof.
  intros Hq HQ. pose proof Hq as [Hw Hd Hl Hnd Ht _ _ _].
  pose proof (queue_at_is_addr _ _ _ _ _ _ Hq) as Ha.
  pose proof (queue_at_addr_eqb _ _ _ _ _ _ Hq) as Hne.
  assert (match f1 ++ wq :: f2 with [] => true | _ => false end = false) as Hcons
    by (by destruct f1).
  rewrite Hcons in Hne. clear Hcons.
  apply wp_loop.
  apply wp_bind, wp_debug_assert; [by rewrite word_locked_bit|].
  apply wp_bind, wp_debug_assert; [by rewrite word_addr_zero, Hne|].
  apply wp_bind. eapply wp_tail_entry; [exact Hq|by destruct f1|].
  apply NoDup_reverse in Hnd. rewrite reverse_middle in *.
  destruct (nodup_middle _ _ _ Hnd) as (Hnd' & Hni2 & Hni1).
  apply wp_bind. rewrite first_entry_app.
  eapply (wp_iter_forward_link t _ (fun _ c => c) [] (reverse f2) wq (reverse f1)); [done|done|..].
  - rewrite app_nil_r. by destruct (reverse f2).
  - intros y n c Hy _. unfold remove_entry.
    assert ((wq_entry y =? wq_entry wq) = false) as ->; [|done].
    apply Z.eqb_neq. intros E.
    destruct (linked_elem _ _ y Hl) as (eny & Hny); [set_solver|].
    destruct (linked_elem _ _ wq Hl) as (enw & Hnw); [set_solver|].
    rewrite (node_inj m y wq eny enw) in Hy by done. done.
  - intros m1 Hl1 Hf1 Hs1. rewrite app_nil_r in Hf1.
    pose proof (unback_linked _ _ _ _ Hs1 Hl) as Hl1'.
    assert (words m1 = words m) as Hw1 by (by eapply same_upto_words).
    assert (same_upto core (f1 ++ wq :: f2) m m1) as Hs1'.
    { eapply same_upto_mono; [|by eapply unback_core]. intros y Hy.
      assert (y ∈ reverse f2 ++ [wq]) as [Hy'%elem_of_reverse|Hy']%elem_of_app.
      { destruct (reverse f2); set_solver. }
      all: set_solver. }
    rewrite foldl_const. rewrite reverse_involutive in Hf1.
    destruct f2 as [|p f2].
    + simpl in *. eapply wp_remove_newest; [by rewrite Hw1|done..|].
      intros m2 Hl2 Hf2 Hs2. apply wp_ret. rewrite app_nil_r in HQ. apply HQ.
      by eapply unlinked_newest.
    + pose proof Hf1 as [Hprev Hf2].
      rewrite reverse_cons, <- app_assoc in *. simpl in *.
      eapply wp_remove_middle; [done..|]. intros m2 Hl2 Hs2 Hout Hp.
      assert (first_anchor (reverse f2 ++ p :: wq :: reverse f1)
              = first_anchor (reverse (f1 ++ p :: f2))) as Ew.
      { rewrite reverse_middle. by destruct (reverse f2). }
      rewrite Ew in *. apply wp_ret. rewrite Hne in HQ. apply HQ.
      by eapply unlinked_middle.
Qed.

(** An entry that is not in the queue is not found. *)
Lemma wp_remove_absent self d f wq en os m (Q : Z * bool -> mem -> Prop) :
  queue_at m self true d f os -> f <> [] -> node m wq en -> wq ∉ f ->
  (forall m', same_upto unback f m m' -> fifo m' (take 1 (reverse f)) ->
     Q (word (first_anchor (reverse f)) true d, false) m') ->
  wp t (remove_wait_queue_entry self (word (first_anchor (reverse f)) true d) (wq_entry wq)) m Q.
Proof.
  intros Hq Hfne Hn Hni HQ. pose proof Hq as [Hw Hd Hl Hnd Ht _ _ _].
  pose proof (queue_at_is_addr _ _ _ _ _ _ Hq) as Ha.
  pose proof (queue_at_addr_eqb _ _ _ _ _ _ Hq) as Hne.
  destruct f as [|w l1]; [done|]. clear Hfne. rewrite reverse_cons in *.
  assert (forall y, y ∈ reverse l1 ++ [w] -> (wq_entry y =? wq_entry wq) = false) as Hneq.
  { intros y Hy. apply Z.eqb_neq. intros E. apply Hni.
    destruct (linked_elem _ _ y Hl Hy) as (eny & Hny).
    rewrite <- (node_inj m y wq eny en) by done. apply elem_of_reverse. by rewrite reverse_cons. }
  apply wp_loop.
  apply wp_bind, wp_debug_assert; [by rewrite word_locked_bit|].
  apply wp_bind, wp_debug_assert; [by rewrite word_addr_zero, Hne|].
  rewrite <- reverse_cons. apply wp_bind. eapply wp_tail_entry; [exact Hq|done|].
  rewrite reverse_cons. apply wp_bind.
  eapply (wp_iter_forward_link t _ (fun _ c => c) [] (reverse l1) w []); [done| |..].
  - simpl. rewrite <- reverse_cons. by apply NoDup_reverse.
  - by rewrite app_nil_r.
  - intros y n c Hy _. unfold remove_entry. by rewrite Hneq by set_solver.
  - intros m1 Hl1 Hf1 Hs1. rewrite foldl_const. pose proof Hl1 as [(enw & Hnw & Hxw) _].
    apply wp_loop. simpl. rewrite wq_entry_eqb_0 by eauto with saa.
    apply wp_bind. eapply (wp_next_entry_ptr t w enw []); [done..|]. simpl.
    apply wp_bind, wp_ret, wp_bind. unfold remove_entry. rewrite Hneq by set_solver.
    apply wp_ret, wp_ret. apply wp_loop. simpl. apply wp_ret, wp_ret. apply HQ.
    + eapply same_upto_mono; [|done]. intros y Hy. apply elem_of_reverse. rewrite reverse_cons.
      destruct (reverse l1); set_solver.
    + rewrite reverse_involutive, app_nil_r in Hf1. rewrite <- reverse_cons. by apply fifo_last.
Qed.

End rules.

(** What is left of a queue without [wq] is a queue. *)
Lemma unlinked_queue_at m m' self l l' d f1 wq f2 os1 o os2 :
  queue_at m self l d (f1 ++ wq :: f2) (os1 ++ o :: os2) -> length os1 = length f1 ->
  unlinked self f1 wq f2 (word (first_anchor (reverse (f1 ++ f2))) l' d) m m' ->
  queue_at m' self l' d (f1 ++ f2) (os1 ++ os2).
Proof.
  intros [Hw Hd Hl Hnd Ht Hwait Ha Hok] Hlen [(m1 & Hs & ->) Ul Ut].
  pose proof (relink_waiting _ _ _ _ Hs Hwait) as Hwait1.
  pose proof (relink_asks _ _ _ _ _ Hs Ha) as Ha1.
  apply Forall2_app_inv in Ha1 as [Ha1 Ha2]; [|done].
  apply Forall2_cons_1 in Ha2 as [_ Ha2].
  split; try done; [apply lookup_insert_eq|..].
  - by destruct (nodup_middle _ _ _ Hnd).
  - apply (entry_is_nodes m1); [done|]. apply Forall_app in Hwait1 as [? Hc].
    apply list.Forall_cons in Hc as [_ ?]. by apply Forall_app.
  - apply (asks_nodes m1); [done|]. by apply Forall2_app.
  - apply Forall_app in Hok as [? Hc]. apply list.Forall_cons in Hc as [_ ?]. by apply Forall_app.
Qed.

(** The entry of [wq] has been unlinked from [f1 ++ wq :: f2], and the
    remaining requests [os] have been processed. *)
Definition cancelled (S : Primitive) `{SyncPrimitive S} (self d : Z) (f1 : list Z) (wq : Z)
    (f2 : list Z) (os : list Opcode) (m m' : mem) : Prop :=
  exists m1, same_upto core (f1 ++ wq :: f2) m m1 /\
    processed self (f1 ++ f2) (grant (max_shared_owners S) d os)
      (granted_data (max_shared_owners S) d os) m1 m'.

Lemma same_upto_set_words h l w m m1 :
  same_upto h l (set_words w m) m1 ->
  exists m1', same_upto h l m m1' /\ m1 = set_words w m1'.
Proof. intros (es & -> & H1 & H2). exists (set_entries es m). split; [|done]. by exists es. Qed.

Section force.
  Context (t : tid) (S : Primitive) `{SyncPrimitive S}.
  Implicit Types m : mem.

(** Dropping a wait queue whose entry still waits, on a quiescent queue. *)
Lemma wp_force_remove_waiting self d f1 wq f2 os1 o os2 en m (Q : unit -> mem -> Prop) :
  0 <= max_shared_owners S <= DATA_MASK ->
  queue_at m self false d (f1 ++ wq :: f2) (os1 ++ o :: os2) -> length os1 = length f1 ->
  node m wq en -> e_addr en = self ->
  (forall m', cancelled S self d f1 wq f2 (os1 ++ os2) m m' -> Q tt m') ->
  wp t (force_remove_wait_queue_entry S (wq_entry wq)) m Q.
Proof.
  intros Hmax Hq Hlen Hn Hself HQ.
  pose proof (queue_at_is_addr _ _ _ _ _ _ Hq) as Ha.
  pose proof (q_data _ _ _ _ _ _ Hq) as Hd.
  pose proof (queue_at_addr_eqb _ _ _ _ _ _ Hq) as Hne.
  assert (match f1 ++ wq :: f2 with [] => true | _ => false end = false) as Hcons
    by (by destruct f1).
  rewrite Hcons in Hne. clear Hcons.
  apply wp_bind. eapply wp_read_field; [apply Hn|]. rewrite Hself.
  apply wp_bind. eapply wp_load; [apply Hq|].
  apply wp_bind, wp_loop. rewrite word_locked_bit, word_addr_zero, Hne by done.
  rewrite word_lor_locked by done.
  apply wp_bind, wp_compare_exchange_ok; [apply Hq|]. set (m0 := set_words _ m).
  assert (queue_at m0 self true d (f1 ++ wq :: f2) (os1 ++ o :: os2)) as Hq0
    by (by eapply queue_at_set_word).
  apply wp_bind. eapply wp_remove_wait_queue_entry; [done|]. intros m1 a w Hu.
  pose proof (unlinked_queue_at _ _ _ _ _ _ _ _ _ _ _ _ Hq0 Hlen Hu) as Hq1.
  pose proof (queue_at_is_addr _ _ _ _ _ _ Hq1) as Ha1.
  destruct Hu as [(m2 & Hs & E1) _ _].
  apply same_upto_set_words in Hs as (m2' & Hs & E2). subst m2 m0.
  assert (forall m', processed self (f1 ++ f2) (grant (max_shared_owners S) d (os1 ++ os2))
     (granted_data (max_shared_owners S) d (os1 ++ os2)) m1 m' -> Q tt m') as HQ'.
  { intros m' Hp. apply HQ. exists m2'. split; [done|]. rewrite E1 in Hp.
    apply processed_set_words in Hp. rewrite <- (same_upto_words _ _ _ _ Hs) in Hp.
    by apply processed_set_words in Hp. }
  unfold w. rewrite word_locked_bit by done.
  pose proof (queue_at_addr_eqb _ _ _ _ _ _ Hq1) as Hne1.
  destruct (decide (f1 ++ f2 = [])) as [E|Hfne].
  - unfold a. rewrite Hne1, E. simpl.
    apply wp_bind, wp_ret, wp_ret, wp_ret.
    apply app_eq_nil in E as [-> ->]. destruct os1; [|done].
    pose proof (q_asks _ _ _ _ _ _ Hq1) as Hos. apply Forall2_nil_inv_l in Hos. simpl in Hos.
    subst os2. apply HQ'. unfold granted_data. simpl. rewrite Z.add_0_r.
    replace m1 with (set_words (<[self := word 0 false d]> (words m1)) m1) at 2;
      [apply processed_nil|].
    rewrite insert_id; [by destruct m1|]. rewrite (q_word _ _ _ _ _ _ Hq1). done.
  - assert (negb (a =? 0) = true) as Hneg.
    { unfold a. rewrite Hne1. by destruct (f1 ++ f2). }
    rewrite Hneg in *. apply wp_bind.
    apply (wp_process_wait_queue t S self d _ (os1 ++ os2)); [done..|].
    intros m' Hp. apply wp_ret, wp_ret. by apply HQ'.
Qed.

End force.

(** The wait queue of a cancelled entry can be taken down. *)
Lemma cancelled_node S `{SyncPrimitive S} self l d f1 wq f2 os os' en m m' :
  queue_at m self l d (f1 ++ wq :: f2) os -> node m wq en ->
  cancelled S self d f1 wq f2 os' m m' ->
  exists en', node m' wq en' /\ core en' = core en.
Proof.
  intros Hq Hn (m1 & Hs & Hp). destruct (relink_node _ _ _ _ _ Hs Hn) as (en1 & Hn1 & Hc).
  exists en1. split; [|done].
  eapply node_transfer; [exact Hn1|apply Hp| |done]. rewrite (p_outside _ _ _ _ _ _ Hp); [apply Hn1|].
  intros (y & E & Hy)%list_elem_of_fmap.
  destruct (nodup_middle _ _ _ (q_nodup _ _ _ _ _ _ Hq)) as (_ & Hni1 & Hni2).
  assert (y ∈ f1 ++ wq :: f2) as Hy' by set_solver.
  destruct (queue_at_node _ _ _ _ _ _ _ Hq Hy') as (eny & Hny).
  rewrite <- (node_inj m wq y en eny) in Hy by done. set_solver.
Qed.

(** What is left of the queue after a cancellation. *)
Lemma cancelled_queue_at S `{SyncPrimitive S} self d f1 wq f2 os1 o os2 m m' :
  0 <= max_shared_owners S <= DATA_MASK ->
  queue_at m self false d (f1 ++ wq :: f2) (os1 ++ o :: os2) -> length os1 = length f1 ->
  cancelled S self d f1 wq f2 (os1 ++ os2) m m' ->
  let n := grant (max_shared_owners S) d (os1 ++ os2) in
  queue_at m' self false (granted_data (max_shared_owners S) d (os1 ++ os2))
    (drop n (f1 ++ f2)) (drop n (os1 ++ os2)).
Proof.
  intros Hmax [Hw Hd Hl Hnd Ht Hwait Ha Hok] Hlen (m1 & Hs & Hp).
  pose proof (relink_waiting _ _ _ _ Hs Hwait) as Hwait1.
  pose proof (relink_asks _ _ _ _ _ Hs Ha) as Ha1.
  apply Forall2_app_inv in Ha1 as [Ha1 Ha2]; [|done].
  apply Forall2_cons_1 in Ha2 as [_ Ha2].
  apply Forall_app in Hwait1 as [Hw1 Hw2]. apply list.Forall_cons in Hw2 as [_ Hw2].
  apply Forall_app in Hok as [Hk1 Hk2]. apply list.Forall_cons in Hk2 as [_ Hk2].
  assert (Forall (fun o => opcode_ok o = true) (os1 ++ os2)) as Hk by (by apply Forall_app).
  eapply processed_queue; [|by apply Forall_app|by apply Forall2_app|done|exact Hp|].
  - by destruct (nodup_middle _ _ _ Hnd).
  - apply granted_data_range; [lia|done|done].
Qed.

Section drop.
  Context (t : tid) (S : Primitive) `{SyncPrimitive S} `{DropCallbacks}.
  Implicit Types m : mem.

(** Dropping a wait queue whose entry is pollable calls back. *)
Lemma wp_wait_queue_drop_pollable wq en m (Q : unit -> mem -> Prop) :
  node m wq en -> e_pollable en = true -> e_drop_callback en = S ->
  wp t (drop_callback S (wq_entry wq)) m (fun _ m' =>
    exists en', node m' wq en' /\ Q tt (withdrawn wq m')) ->
  wp t (wait_queue_drop wq) m Q.
Proof.
  intros Hn Hp Hs Hcb.
  unfold wait_queue_drop. apply wp_bind, wp_anchor_ptr; [by eauto with saa|].
  apply wp_bind. eapply wp_to_entry_ptr; [done|]. rewrite wq_entry_eqb_0 by eauto with saa.
  apply wp_bind, wp_bind. unfold prepare_drop. apply wp_bind.
  eapply wp_read_field; [apply Hn|]. rewrite Hp.
  apply wp_bind. eapply wp_read_field; [apply Hn|]. rewrite Hs.
  apply wp_bind. eapply wp_mono; [exact Hcb|]. intros [] m' (en' & Hn' & HQ).
  eapply wp_write_field; [apply Hn'|].
  eapply wp_drop_in_place; [apply lookup_insert_eq|]. apply wp_free_anchor.
  unfold withdrawn in HQ. simpl. by rewrite delete_insert_eq.
Qed.

(** Dropping a wait queue whose entry still waits. *)
Lemma wp_wait_queue_drop_waiting self d f1 wq f2 os1 o os2 en m (Q : unit -> mem -> Prop) :
  0 <= max_shared_owners S <= DATA_MASK ->
  (forall e, drop_callback S e = force_remove_wait_queue_entry S e) ->
  queue_at m self false d (f1 ++ wq :: f2) (os1 ++ o :: os2) -> length os1 = length f1 ->
  node m wq en -> e_addr en = self -> e_drop_callback en = S -> e_pollable en = true ->
  (forall m', cancelled S self d f1 wq f2 (os1 ++ os2) m m' -> Q tt (withdrawn wq m')) ->
  wp t (wait_queue_drop wq) m Q.
Proof.
  intros Hmax Hcb Hq Hlen Hn Hself Hs Hp HQ.
  eapply wp_wait_queue_drop_pollable; [done..|]. rewrite Hcb.
  eapply (wp_force_remove_waiting t S self); [done..|].
  intros m' Hc. destruct (cancelled_node _ _ _ _ _ _ _ _ _ _ _ _ Hq Hn Hc) as (en' & Hn' & _).
  exists en'. split; [done|]. by apply HQ.
Qed.

End drop.

Lemma node_anchor_inj m wq wq' en en' :
  node m wq en -> node m wq' en' -> anchor_addr wq = anchor_addr wq' -> wq = wq'.
Proof.
  intros (_ & H1 & _) (_ & H2 & _) E. rewrite E in H1.
  assert (anchor_value wq = anchor_value wq') as Ev by congruence.
  unfold anchor_value in Ev. rewrite E in Ev. lia.
Qed.

(** A queue survives the withdrawal of a wait queue that is not in it. *)
Lemma queue_at_withdrawn m self l d f os wq en :
  queue_at m self l d f os -> node m wq en -> wq ∉ f ->
  queue_at (withdrawn wq m) self l d f os.
Proof.
  intros Hq Hn Hni. eapply (queue_at_frame m); [exact Hq|done|].
  intros y eny Hin Hy. pose proof Hy as (Hok & Ha & He & Ho).
  split; [done|]. simpl. split; [|split; [|done]].
  - rewrite lookup_delete_ne; [done|]. intros E. apply Hni.
    by rewrite (node_anchor_inj m wq y en eny).
  - rewrite lookup_delete_ne; [done|]. intros E. apply Hni. by rewrite (node_inj m wq y en eny).
Qed.

Lemma node_withdrawn m wq wq' en en' :
  node m wq en -> node m wq' en' -> wq' <> wq -> node (withdrawn wq m) wq' en'.
Proof.
  intros Hn Hn' Hne. pose proof Hn' as (Hok & Ha & He & Ho).
  split; [done|]. simpl. split; [|split; [|done]].
  - rewrite lookup_delete_ne; [done|]. intros E. apply Hne.
    symmetry. by apply (node_anchor_inj m wq wq' en en').
  - rewrite lookup_delete_ne; [done|]. intros E. apply Hne.
    symmetry. by apply (node_inj m wq wq' en en').
Qed.

(** What a dropped wait queue leaves behind: it is gone, the other entries
    are still queued in order, but for those that could be granted. *)
Definition dropped (S : Primitive) `{SyncPrimitive S} (self d wq : Z) (f : list Z)
    (os : list Opcode) (m m' : mem) : Prop :=
  let n := grant (max_shared_owners S) d os in
  queue_at m' self false (granted_data (max_shared_owners S) d os) (drop n f) (drop n os) /\
  vacant m' wq /\
  (forall wq' en, wq' ∈ take n f -> node m wq' en ->
     exists en', node m' wq' en' /\ core en' = core (resolved 0 en) /\ notified en m').

Lemma cancelled_dropped S `{SyncPrimitive S} self d f1 wq f2 os1 o os2 en m m' :
  0 <= max_shared_owners S <= DATA_MASK ->
  queue_at m self false d (f1 ++ wq :: f2) (os1 ++ o :: os2) -> length os1 = length f1 ->
  node m wq en -> cancelled S self d f1 wq f2 (os1 ++ os2) m m' ->
  dropped S self d wq (f1 ++ f2) (os1 ++ os2) m (withdrawn wq m').
Proof.
  intros Hmax Hq Hlen Hn Hc.
  destruct (nodup_middle _ _ _ (q_nodup _ _ _ _ _ _ Hq)) as (_ & Hni1 & Hni2).
  destruct (cancelled_node _ _ _ _ _ _ _ _ _ _ _ _ Hq Hn Hc) as (en' & Hn' & _).
  set (n := grant (max_shared_owners S) d (os1 ++ os2)).
  assert (forall l, l ⊆ f1 ++ f2 -> wq ∉ l) as Hni by (intros l Hl; set_solver).
  split; [|split].
  - eapply queue_at_withdrawn; [by eapply cancelled_queue_at|exact Hn'|].
    apply Hni. intros y Hy. rewrite <- (take_drop n (f1 ++ f2)). set_solver.
  - split; [by eauto with saa|]. simpl. by rewrite !lookup_delete_eq.
  - intros y eny Hy Hny. destruct Hc as (m1 & Hs & Hp).
    destruct (relink_node _ _ _ _ _ Hs Hny) as (en1 & Hn1 & Hc1).
    destruct (p_granted _ _ _ _ _ _ Hp y en1 Hy Hn1) as (en2 & Hn2 & Hc2 & Hk).
    exists en2. split; [|split].
    + eapply node_withdrawn; [exact Hn'|exact Hn2|]. intros ->.
      apply (Hni (f1 ++ f2)); [done|]. rewrite <- (take_drop n (f1 ++ f2)). set_solver.
    + rewrite Hc2. by apply core_resolved.
    + by apply (core_notified eny en1).
Qed.
