(* ===== verification/Relinquish.v ===== *)
(** * Giving up after having been granted

    A wait queue can be dropped by an owner that does not know that its
    request has been granted: a future dropped between its wake-up and its
    next poll.  [force_remove_wait_queue_entry] then gives the units back, run
    without interference. *)

From S2P Require Import Prelude Prog Word Opcode Memory WaitQueue.
From S2P Require Import Geometry Results Queue SyncPrimitive Grant Enqueue Release Cancel.

(** ** Specifications *)

(** The entry has its result, which nobody has consumed. *)
Definition unacknowledged (en : Entry) : Prop :=
  Z.land (e_state en) RESULT_FINALIZED = RESULT_FINALIZED.

(** What is done when the owner of [o] units gives up: the queue is processed
    as it is, then the units are released, which processes what is left. *)
Definition relinquished (S : Primitive) `{SyncPrimitive S} (self d : Z) (o : Opcode)
    (f : list Z) (os : list Opcode) (m m' : mem) : Prop :=
  let n := grant (max_shared_owners S) d os in
  let d' := granted_data (max_shared_owners S) d os in
  exists m1 m2, same_upto unback f m m1 /\ processed self f n d' m1 m2 /\
    handed_over S self d' o (drop n f) (drop n os) m2 m'.

(** ** Facts *)

(** Walking over a queue to look for an entry leaves it a queue. *)
Lemma relinked_queue_at m m' self l d f os :
  queue_at m self l d f os -> same_upto unback f m m' -> fifo m' (take 1 (reverse f)) ->
  queue_at m' self l d f os.
Proof.
  intros [Hw Hd Hl Hnd Ht Hwait Ha Hok] Hs Ht'. pose proof (unback_core _ _ _ Hs) as Hc.
  split; try done.
  - by rewrite (same_upto_words _ _ _ _ Hs).
  - by eapply unback_linked.
  - by eapply relink_waiting.
  - by eapply relink_asks.
Qed.

(** A wait queue outside the queue keeps its node. *)
Lemma node_outside m m' self l d f os wq en :
  queue_at m self l d f os -> node m wq en -> wq ∉ f -> anchors m' = anchors m ->
  (forall e, e ∉ wq_entry <$> f -> entries m' !! e = entries m !! e) -> node m' wq en.
Proof.
  intros Hq Hn Hni E Ho. eapply node_transfer; [exact Hn|done| |done].
  rewrite Ho; [apply Hn|]. intros (y & Ey & Hy)%list_elem_of_fmap.
  destruct (queue_at_node _ _ _ _ _ _ _ Hq Hy) as (eny & Hny).
  apply Hni. by rewrite (node_inj m wq y en eny).
Qed.

Lemma granted_data_ge max d os :
  Forall (fun o => opcode_ok o = true) os -> d <= granted_data max d os.
Proof.
  intros Hok. unfold granted_data.
  pose proof (acquired_total_nonneg _ (Forall_take _ (grant max d os) _ Hok)). lia.
Qed.

Section rules.
  Context (t : tid) (S : Primitive) `{SyncPrimitive S}.
  Implicit Types m : mem.

(** [release_loop] from the state seen before the queue was processed. *)
Lemma wp_release_loop_seen self s d f os o m (Q : bool -> mem -> Prop) :
  0 <= max_shared_owners S <= DATA_MASK -> queue_at m self false d f os ->
  opcode_ok o = true -> releasable o d = true -> can_release o s = true ->
  (forall m', handed_over S self d o f os m m' -> Q true m') ->
  wp t (release_loop S self s o) m Q.
Proof.
  intros Hmax Hq Ho Hr Hs HQ.
  destruct (decide (word (first_anchor (reverse f)) false d = s)) as [<-|Hne].
  - by eapply wp_release_loop.
  - eapply wp_release_loop_stale; [apply Hq|done|done|]. by eapply wp_release_loop.
Qed.

(** The wait for a result that is there. *)
Lemma wp_result_finalized_wait e en m (Q : unit -> mem -> Prop) :
  entries m !! e = Some en -> unacknowledged en -> Q tt m ->
  wp t (Loop (fun _ =>
    finalized <- result_finalized e ;;
    if (finalized : bool) then Ret (inr tt) else yield_now ;;; Ret (inl tt)) tt) m Q.
Proof.
  intros He Hu HQ. apply wp_loop, wp_bind, wp_bind. eapply wp_read_field; [exact He|].
  apply wp_ret. rewrite Hu. by apply wp_ret.
Qed.

(** The second half of [force_remove_wait_queue_entry], once the queue has been
    processed: the units of the entry are released. *)
Lemma wp_release_granted self s d f os wq en m m1 m2 (Q : unit -> mem -> Prop) :
  let n := grant (max_shared_owners S) d os in
  let d' := granted_data (max_shared_owners S) d os in
  0 <= max_shared_owners S <= DATA_MASK ->
  queue_at m self false d f os -> wq ∉ f -> node m wq en ->
  opcode_ok (e_opcode en) = true -> unacknowledged en ->
  can_release (e_opcode en) s = true -> releasable (e_opcode en) d' = true ->
  same_upto unback f m m1 -> processed self f n d' m1 m2 ->
  queue_at m2 self false d' (drop n f) (drop n os) ->
  (forall m', relinquished S self d (e_opcode en) f os m m' -> Q tt m') ->
  wp t (Loop (fun _ =>
      finalized <- result_finalized (wq_entry wq) ;;
      if (finalized : bool) then Ret (inr tt) else yield_now ;;; Ret (inl tt)) tt ;;;
    opcode <- read_field (wq_entry wq) e_opcode ;;
    release_loop S self s opcode ;;; Ret tt) m2 Q.
Proof.
  intros n d' Hmax Hq Hni Hn Ho Hu Hs Hr' Hs1 Hp Hq2 HQ.
  assert (node m2 wq en) as Hn2.
  { eapply node_outside; [exact Hq|done|done|..].
    - rewrite (p_anchors _ _ _ _ _ _ Hp). by eapply same_upto_anchors.
    - intros e He. rewrite (p_outside _ _ _ _ _ _ Hp) by done. by eapply same_upto_outside. }
  apply wp_bind. eapply wp_result_finalized_wait; [apply Hn2|done|].
  apply wp_bind. eapply wp_read_field; [apply Hn2|].
  apply wp_bind. eapply wp_release_loop_seen; [done|exact Hq2|done..|].
  intros m' Hh. apply wp_ret, HQ. by exists m1, m2.
Qed.

(** Dropping a wait queue whose entry has been granted its request. *)
Lemma wp_force_remove_granted self d f os wq en m (Q : unit -> mem -> Prop) :
  let d' := granted_data (max_shared_owners S) d os in
  0 <= max_shared_owners S <= DATA_MASK ->
  queue_at m self false d f os -> wq ∉ f -> node m wq en -> e_addr en = self ->
  opcode_ok (e_opcode en) = true -> unacknowledged en ->
  releasable (e_opcode en) d = true -> releasable (e_opcode en) d' = true ->
  (forall m', relinquished S self d (e_opcode en) f os m m' -> Q tt m') ->
  wp t (force_remove_wait_queue_entry S (wq_entry wq)) m Q.
Proof.
  intros d' Hmax Hq Hni Hn Hself Ho Hu Hr Hr' HQ.
  pose proof (queue_at_is_addr _ _ _ _ _ _ Hq) as Ha.
  pose proof (q_data _ _ _ _ _ _ Hq) as Hd.
  pose proof (queue_at_addr_eqb _ _ _ _ _ _ Hq) as Hne.
  set (s := word (first_anchor (reverse f)) false d) in *.
  assert (can_release (e_opcode en) s = true) as Hs by (unfold s; by rewrite can_release_releasable).
  apply wp_bind. eapply wp_read_field; [apply Hn|]. rewrite Hself.
  apply wp_bind. eapply wp_load; [apply Hq|].
  apply wp_bind, wp_loop. rewrite word_locked_bit, word_addr_zero, Hne by done.
  destruct (decide (f = [])) as [->|Hfne].
  - pose proof (q_asks _ _ _ _ _ _ Hq) as Hos. apply Forall2_nil_inv_l in Hos as ->.
    apply wp_ret. eapply (wp_release_granted self s d [] [] wq en m m); try done.
    + unfold d', granted_data. simpl. rewrite Z.add_0_r.
      replace m with (set_words (<[self := word 0 false d]> (words m)) m) at 2;
        [apply processed_nil|].
      rewrite insert_id; [by destruct m|]. apply Hq.
    + unfold d', granted_data. simpl. by rewrite Z.add_0_r.
  - assert (match f with [] => true | _ => false end = false) as -> by by destruct f.
    rewrite word_lor_locked by done.
    apply wp_bind, wp_compare_exchange_ok; [apply Hq|].
    assert (queue_at (set_words (<[self := word (first_anchor (reverse f)) true d]> (words m)) m)
      self true d f os) as Hq0 by (by eapply queue_at_set_word).
    set (m0 := set_words _ m) in *.
    apply wp_bind. eapply (wp_remove_absent t self d f wq en); [done|done|by apply (node_ext m)|done|].
    intros m1 Hs1 Ht1. pose proof (relinked_queue_at _ _ _ _ _ _ _ Hq0 Hs1 Ht1) as Hq1.
    rewrite word_locked_bit by done.
    apply wp_bind. apply (wp_process_wait_queue t S self d f os); [done..|].
    intros m2 Hp. pose proof (processed_queue_at _ _ _ _ _ _ _ _ _ Hq1 Hp
      (granted_data_range _ d os (proj2 Hmax) Hd (q_ok _ _ _ _ _ _ Hq))) as Hq2.
    apply wp_ret. apply same_upto_set_words in Hs1 as (m1' & Hs1 & ->).
    eapply (wp_release_granted self s d f os wq en m m1'); try done.
    rewrite <- (same_upto_words _ _ _ _ Hs1) in Hp. by apply processed_set_words in Hp.
Qed.

End rules.

(** What is left after giving up: the units are given back, and the oldest
    requests own what fits. *)
Lemma relinquished_queue S `{SyncPrimitive S} self d o f os wq en m m' :
  let max := max_shared_owners S in
  0 <= max <= DATA_MASK -> queue_at m self false d f os -> wq ∉ f -> node m wq en ->
  opcode_ok o = true -> releasable o (granted_data max d os) = true ->
  relinquished S self d o f os m m' ->
  exists n d', queue_at m' self false d' (drop n f) (drop n os) /\ node m' wq en /\
    d' = d - acquired_count o + acquired_total (take n os) /\
    (forall wq' en1, wq' ∈ take n f -> node m wq' en1 ->
       exists en2, node m' wq' en2 /\ core en2 = core (resolved 0 en1) /\ notified en1 m') /\
    match drop n os with
    | [] => True
    | o :: _ => d' <> 0 /\ max < d' + desired_count o
    end.
Proof.
  intros max Hmax Hq Hni Hn Ho Hr (m1 & m2 & Hs & Hp & Hh). fold max in Hp, Hh.
  set (n1 := grant max d os) in *. set (d1 := granted_data max d os) in *.
  pose proof (q_data _ _ _ _ _ _ Hq) as Hd.
  pose proof (granted_data_range max d os (proj2 Hmax) Hd (q_ok _ _ _ _ _ _ Hq)) as Hd1.
  pose proof (unback_core _ _ _ Hs) as Hsc.
  assert (queue_at m2 self false d1 (drop n1 f) (drop n1 os)) as Hq2.
  { eapply processed_queue; [apply Hq|by eapply relink_waiting, Hq|by eapply relink_asks, Hq|apply Hq|done|done]. }
  destruct (handed_over_queue _ _ _ _ _ _ _ _ Hmax Hq2 Ho Hr Hh) as [Hp' Hq'].
  fold max in Hp', Hq'. set (n2 := grant max (d1 - acquired_count o) (drop n1 os)) in *.
  assert (forall wq en, wq ∉ drop n1 f -> node m2 wq en -> node m' wq en) as Hout2.
  { intros y eny Hy Hny. eapply node_outside; [exact Hq2|done|done|apply Hp'|apply Hp']. }
  exists (n1 + n2)%nat, (granted_data max (d1 - acquired_count o) (drop n1 os)).
  rewrite <- !drop_drop. split; [exact Hq'|]. split; [|split; [|split]].
  - apply Hout2; [intros Hin; apply Hni; rewrite <- (take_drop n1 f); set_solver|].
    eapply node_outside; [exact Hq|done|done|..].
    + rewrite (p_anchors _ _ _ _ _ _ Hp). by eapply same_upto_anchors.
    + intros e He. rewrite (p_outside _ _ _ _ _ _ Hp) by done. by eapply same_upto_outside.
  - unfold granted_data at 1. fold n2. unfold d1, granted_data. fold n1.
    rewrite <- take_take_drop, acquired_total_app. lia.
  - intros y en1 Hy Hn1. destruct (relink_node _ _ _ _ _ Hsc Hn1) as (en1' & Hn1' & Hc1).
    rewrite <- take_take_drop in Hy. apply elem_of_app in Hy as [Hy|Hy].
    + destruct (p_granted _ _ _ _ _ _ Hp y en1' Hy Hn1') as (en2 & Hn2 & Hc2 & Hk).
      exists en2. split; [|split].
      * apply Hout2; [|done]. pose proof (q_nodup _ _ _ _ _ _ Hq) as Hnd.
        rewrite <- (take_drop n1 f) in Hnd. apply list.NoDup_app in Hnd. naive_solver.
      * rewrite Hc2. by apply core_resolved.
      * apply (notified_mono en1 m2 m'); [apply Hp'|apply Hp'|by eapply core_notified].
    + assert (y ∈ drop n1 f) as Hy1 by (rewrite <- (take_drop n2 (drop n1 f)); set_solver).
      destruct (p_rest _ _ _ _ _ _ Hp y en1' Hy1 Hn1') as (en2 & Hn2 & Hc2).
      destruct (p_granted _ _ _ _ _ _ Hp' y en2 Hy Hn2) as (en3 & Hn3 & Hc3 & Hk).
      exists en3. split; [done|]. split.
      * rewrite Hc3. apply core_resolved. by rewrite Hc2.
      * eapply core_notified; [|exact Hk]. by rewrite Hc2.
  - destruct (drop n2 (drop n1 os)) as [|o1 os1] eqn:E; [done|]. by apply grant_stops_at in E.
Qed.

Section drop.
  Context (t : tid) (S : Primitive) `{SyncPrimitive S} `{DropCallbacks}.
  Implicit Types m : mem.

(** Dropping a wait queue whose entry has been granted its request. *)
Lemma wp_wait_queue_drop_granted self d f os wq en m (Q : unit -> mem -> Prop) :
  let d' := granted_data (max_shared_owners S) d os in
  0 <= max_shared_owners S <= DATA_MASK ->
  (forall e, drop_callback S e = force_remove_wait_queue_entry S e) ->
  queue_at m self false d f os -> wq ∉ f -> node m wq en -> e_addr en = self ->
  e_drop_callback en = S -> e_pollable en = true ->
  opcode_ok (e_opcode en) = true -> unacknowledged en ->
  releasable (e_opcode en) d = true -> releasable (e_opcode en) d' = true ->
  (forall m', relinquished S self d (e_opcode en) f os m m' -> Q tt (withdrawn wq m')) ->
  wp t (wait_queue_drop wq) m Q.
Proof.
  intros d' Hmax Hcb Hq Hni Hn Hself Hs Hp Ho Hu Hr Hr' HQ.
  eapply wp_wait_queue_drop_pollable; [done..|]. rewrite Hcb.
  eapply (wp_force_remove_granted t S self); [done..|]. intros m' Hrel.
  destruct (relinquished_queue _ _ _ _ _ _ _ _ _ _ Hmax Hq Hni Hn Ho Hr' Hrel)
    as (? & ? & _ & Hn' & _).
  exists en. split; [done|]. by apply HQ.
Qed.

End drop.

(** ** Alone in the queue *)

(** The entry that has been granted everything it waited for is unacknowledged. *)
Lemma granted_unacknowledged en en' :
  is_waiting en -> core en' = core (resolved 0 en) -> unacknowledged en'.
Proof.
  intros Hw Hc. unfold unacknowledged. pose proof (f_equal e_state Hc) as E. simpl in E. rewrite E.
  apply (resolved_state_bits (e_state en) 0); done.
Qed.

Lemma relinquished_alone S `{SyncPrimitive S} self d o m m' :
  relinquished S self d o [] [] m m' ->
  words m' = <[self := word 0 false (d - acquired_count o)]> (words m) /\
  anchors m' = anchors m /\ entries m' = entries m.
Proof.
  intros (m1 & m2 & (es & -> & _ & Hout) & Hp & Hh). unfold handed_over, granted_data in *. simpl in *.
  rewrite Z.add_0_r in *.
  destruct Hp as [W A _ _ _ _ O _ _], Hh as [W' A' _ _ _ _ O' _ _]. simpl in *.
  rewrite W', W, A', A, insert_insert_eq, Z.add_0_r. split; [done|]. split; [done|].
  apply map_eq. intros e. rewrite O', O by set_solver. apply Hout. set_solver.
Qed.

Lemma cancelled_alone S `{SyncPrimitive S} self d wq m m' :
  cancelled S self d [] wq [] [] m m' ->
  words m' = <[self := word 0 false d]> (words m) /\ anchors m' = anchors m /\
  delete (wq_entry wq) (entries m') = delete (wq_entry wq) (entries m).
Proof.
  intros (m1 & Hs & [W A _ _ _ _ O _ _]). unfold granted_data in *. simpl in *.
  rewrite W, A, Z.add_0_r. rewrite (same_upto_words _ _ _ _ Hs), (same_upto_anchors _ _ _ _ Hs).
  split; [done|]. split; [done|]. apply map_eq. intros e.
  destruct (decide (e = wq_entry wq)) as [->|Hne]; [by rewrite !lookup_delete_eq|].
  rewrite !lookup_delete_ne, O by (done || set_solver).
  eapply same_upto_outside; [exact Hs|]. simpl. set_solver.
Qed.
