(* ===== verification/Blocking.v ===== *)
(** * Threads that sleep

    [wp] speaks of executions that return.  [blocks] speaks of executions
    that go to sleep: in what memory they do, and what the rest of the
    program does once it is resumed in some other memory, left by other
    threads.  With it, the slow paths of the primitives are specified:
    [poll_result_sync] and [wait_resources_sync]. *)

From S2P Require Import Prelude Prog Word Opcode Memory WaitQueue.
From S2P Require Import Geometry Results Queue SyncPrimitive Grant Enqueue Release.

(** [p], started in [m], goes to sleep in a memory satisfying [W]; resumed in
    a memory satisfying [R x], it returns as [Q x] says. *)
Definition blocks {A X} (t : tid) (p : program A) (m : mem) (W : mem -> Prop)
    (R : X -> mem -> Prop) (Q : X -> A -> mem -> Prop) : Prop :=
  wpr t p m (fun r =>
    match r with
    | Waits p' m' => W m' /\ forall x m2, R x m2 -> wp t p' m2 (Q x)
    | _ => False
    end).

(** A callback that does not access the shared memory. *)
Definition quiet (t : tid) (p : program unit) : Prop :=
  forall m (Q : unit -> mem -> Prop), Q tt m -> wp t p m Q.

Lemma quiet_ret t : quiet t (Ret tt).
Proof. intros m Q HQ. by apply wp_ret. Qed.

#[export] Hint Resolve quiet_ret : saa.

(** The result [r] has been delivered to the entry of [wq], which had a
    thread or waker registered. *)
Definition answered (m : mem) (wq r : Z) : Prop :=
  entry_is m (fun en => e_state en = WAKER_SET + RESULT_SET + r + RESULT_FINALIZED) wq /\
  is_u8 r.

(** The thread [t] consumes its parking token. *)
Definition unparked (t : tid) (m : mem) : mem := set_tokens (tokens m ∖ {[t]}) m.

(** What a sleeping thread registers, and what a pending task does. *)
Abbreviation asleep t := (Sync (Some t)).
Abbreviation pending cx := (Async (Some cx)).

(** The entry [en] once the thread or task [mon] is registered in it. *)
Definition sleeping (mon : Monitor) (en : Entry) : Entry :=
  set_state WAKER_SET (set_monitor mon en).

(** The memory once [mon] sleeps in the queue [f] of [self] with a request of
    [o] in its wait queue at [wq]; the monitor [construct] installed, for
    threads or for tasks, has been replaced. *)
Definition enqueued (S : Primitive) (mon : Monitor) (self wq : Z) (l : bool) (d : Z) (f : list Z)
    (o : Opcode) (m : mem) : mem :=
  with_node wq (sleeping mon (pushed_entry f (fresh_entry S self o true wq)))
    (set_words (<[self := word (anchor_addr wq) l d]> (words m)) m).

Section rules.
  Context {X : Type} (t : tid).
  Implicit Types (m : mem) (R : X -> mem -> Prop).

Lemma blocks_bind {A B} (p : program B) (k : B -> program A) m W R Q1 (Q : X -> A -> mem -> Prop) :
  blocks t p m W R Q1 ->
  (forall x b m3, Q1 x b m3 -> wp t (k b) m3 (Q x)) ->
  blocks t (Bind p k) m W R Q.
Proof.
  intros Hp Hk. apply wpr_bind. eapply wpr_mono; [done|].
  intros [| | |]; simpl; try done. intros [HW Hr]. split; [done|].
  intros x m2 HR. apply wp_bind. eapply wp_mono; [by apply Hr|]. intros. by apply Hk.
Qed.

Lemma blocks_bind_wp {A B} (p : program B) (k : B -> program A) m W R (Q : X -> A -> mem -> Prop) :
  wp t p m (fun b m' => blocks t (k b) m' W R Q) -> blocks t (Bind p k) m W R Q.
Proof. intros Hp. by apply wpr_bind_wp. Qed.

Lemma blocks_loop {A Y} (body : Y -> program (Y + A)) y m W R Q1 (Q : X -> A -> mem -> Prop) :
  blocks t (body y) m W R Q1 ->
  (forall x r m3, Q1 x r m3 -> wp t (after_body body r) m3 (Q x)) ->
  blocks t (Loop body y) m W R Q.
Proof.
  intros Hp Hk. apply wpr_loop. eapply wpr_mono; [done|].
  intros [| | |]; simpl; try done. intros [HW Hr]. split; [done|].
  intros x m2 HR. apply wp_bind. eapply wp_mono; [by apply Hr|]. intros. by apply Hk.
Qed.

Lemma blocks_mono {A} (p : program A) m (W W' : mem -> Prop) R (Q Q' : X -> A -> mem -> Prop) :
  blocks t p m W R Q -> (forall m', W m' -> W' m') ->
  (forall x a m', Q x a m' -> Q' x a m') -> blocks t p m W' R Q'.
Proof.
  intros Hp HW HQ. eapply wpr_mono; [done|]. intros [| | |]; try done.
  intros [H1 H2]. split; [auto|]. intros x m2 HR. eapply wp_mono; [by apply H2|]. auto.
Qed.

(** A thread without a token sleeps until it has one. *)
Lemma blocks_park m (W : mem -> Prop) R (Q : X -> unit -> mem -> Prop) :
  t ∉ tokens m -> W m ->
  (forall x m2, R x m2 -> t ∈ tokens m2 /\ Q x tt (unparked t m2)) ->
  blocks t park m W R Q.
Proof.
  intros Ht HW HR. eapply wpr_act_blocked; [by rewrite decide_False|].
  split; [done|]. intros x m2 [Ht2 HQ]%HR. eapply wp_act; [by rewrite decide_True|done].
Qed.

End rules.

Section poll.
  Context (t : tid).
  Implicit Types m : mem.

Lemma wp_consume_answer wq r m (Q : option Z -> mem -> Prop) :
  answered m wq r ->
  (forall en, node m wq en ->
     Q (Some r) (set_entries (<[wq_entry wq := consumed en]> (entries m)) m)) ->
  wp t (try_consume_result (wq_entry wq)) m Q.
Proof.
  intros [(en & Hn & Hs) Hr] HQ.
  eapply wp_try_consume_result_some; [apply Hn|by right|done|done|]. by apply HQ.
Qed.

(** The memory once the thread that was resumed in a memory [R x] has consumed
    its result. *)
Definition acknowledged {X} (R : X -> mem -> Prop) (wq : Z) (x : X) (m : mem) : Prop :=
  exists m2 en2, R x m2 /\ node m2 wq en2 /\
    m = set_entries (<[wq_entry wq := consumed en2]> (entries m2)) (unparked t m2).

(** Polling a waiting entry: the thread registers itself and sleeps; resumed
    with the result delivered, it consumes and returns it. *)
Lemma blocks_poll_result_sync wq en th m (W : mem -> Prop)
    (R : Z * mem -> mem -> Prop) (Q : Z * mem -> Z -> mem -> Prop) :
  node m wq en -> e_state en = 0 -> e_monitor en = Sync th -> t ∉ tokens m ->
  W (set_entries (<[wq_entry wq := sleeping (asleep t) en]> (entries m)) m) ->
  (forall x m2, R x m2 -> t ∈ tokens m2 /\ answered m2 wq x.1 /\
     forall en2, node m2 wq en2 ->
       Q x x.1 (set_entries (<[wq_entry wq := consumed en2]> (entries m2)) (unparked t m2))) ->
  blocks t (poll_result_sync (wq_entry wq)) m W R Q.
Proof.
  intros Hn Hs Hm Ht HW HR. unfold poll_result_sync.
  apply blocks_bind_wp. eapply wp_read_field; [apply Hn|]. rewrite Hm.
  set (after := fun (x : Z * mem) (r : unit + Z) m3 => r = inl tt /\
    exists m2, m3 = unparked t m2 /\ R x m2).
  apply blocks_loop with (Q1 := after).
  - apply blocks_bind_wp. eapply wp_try_consume_result_none; [apply Hn|by rewrite Hs|].
    apply blocks_bind_wp. apply wp_bind. eapply wp_read_field; [apply Hn|]. rewrite Hs. simpl.
    apply wp_bind, wp_current, wp_ret.
    apply blocks_bind_wp. eapply wp_write_field; [apply Hn|].
    apply blocks_bind_wp. eapply wp_fetch_or_state; [apply lookup_insert_eq|].
    simpl. rewrite Hs, insert_insert_eq. simpl.
    set (m1 := set_entries _ _). assert (W m1) as HW1 by exact HW.
    apply blocks_bind with (Q1 := fun x _ m3 => exists m2, m3 = unparked t m2 /\ R x m2).
    + apply blocks_park; [done|done|]. intros x m2 HR2. split; [by apply (HR x)|]. eauto.
    + intros x [] m3 Hm3. by apply wp_ret.
  - intros x r m3 (-> & m2 & -> & HR2). apply HR in HR2 as (Ht2 & Hans & HQ).
    simpl. apply wp_loop. apply wp_bind. eapply (wp_consume_answer wq x.1).
    + exact Hans.
    + intros en2 Hn2. by apply wp_ret, HQ.
Qed.

(** An entry whose result has been consumed is dropped without further ado. *)
Lemma wp_wait_queue_drop_consumed `{DropCallbacks} wq en m (Q : unit -> mem -> Prop) :
  node m wq en -> e_pollable en = false -> Q tt (withdrawn wq m) ->
  wp t (wait_queue_drop wq) m Q.
Proof.
  intros Hn Hp HQ. unfold wait_queue_drop. apply wp_bind, wp_anchor_ptr; [by eauto with saa|].
  apply wp_bind. eapply wp_to_entry_ptr; [done|]. rewrite wq_entry_eqb_0 by eauto with saa.
  apply wp_bind, wp_bind. unfold prepare_drop. apply wp_bind.
  eapply wp_read_field; [apply Hn|]. rewrite Hp. apply wp_ret.
  eapply wp_drop_in_place; [apply Hn|]. apply wp_free_anchor. exact HQ.
Qed.

Lemma wp_wait_queue_drop_acknowledged `{DropCallbacks} {X} (R : X -> mem -> Prop) wq x m
    (Q : unit -> mem -> Prop) :
  acknowledged R wq x m -> (forall m2, R x m2 -> Q tt (withdrawn wq (unparked t m2))) ->
  wp t (wait_queue_drop wq) m Q.
Proof.
  intros (m2 & en2 & HR & Hn2 & ->) HQ. eapply wp_wait_queue_drop_consumed.
  - eapply node_transfer; [exact Hn2|done|apply lookup_insert_eq|done].
  - done.
  - specialize (HQ m2 HR). unfold withdrawn in *. simpl. by rewrite delete_insert_eq.
Qed.

End poll.

Lemma with_node_default wq en m :
  with_node wq en (set_anchors (<[anchor_addr wq := 0]> (anchors m)) m) = with_node wq en m.
Proof. unfold with_node. simpl. by rewrite insert_insert_eq. Qed.

Section wait.
  Context (t : tid) (S : Primitive) `{DropCallbacks}.
  Implicit Types m : mem.

Lemma wait_assertion a l d :
  is_addr a -> is_data d -> a <> 0 \/ d <> 0 ->
  negb (Z.land (word a l d) ADDR_MASK =? 0) || negb (Z.land (word a l d) DATA_MASK =? 0) = true.
Proof.
  intros Ha Hd Hne. rewrite word_land_addr, word_land_data by done.
  destruct Hne; repeat case_bool; simpl; done || lia.
Qed.

Lemma enqueued_eq mon self wq l d f o m :
  enqueued S mon self wq l d f o m =
  set_entries
    (<[wq_entry wq := sleeping mon (pushed_entry f (fresh_entry S self o true wq))]> (entries m))
    (set_anchors (<[anchor_addr wq := anchor_value wq]> (anchors m))
      (set_words (<[self := word (anchor_addr wq) l d]> (words m)) m)).
Proof. done. Qed.

(** Pushing the entry of a fresh wait queue. *)
Lemma wp_push_fresh self wq is_sync l d f os o m (Q : bool -> mem -> Prop) :
  queue_at m self l d f os -> wq_ok wq ->
  (forall en, en = pushed_entry f (fresh_entry S self o is_sync wq) ->
   let m1 := with_node wq en
     (set_words (<[self := word (anchor_addr wq) l d]> (words m)) m) in
   node m1 wq en -> Q true m1) ->
  wp t (try_push_wait_queue_entry self wq (word (first_anchor (reverse f)) l d))
    (with_node wq (fresh_entry S self o is_sync wq) m) Q.
Proof.
  intros Hq Hok HQ. pose proof Hq as [Hw Hd Hl _ _ _ _ _].
  set (en := fresh_entry S self o is_sync wq) in *.
  assert (node (with_node wq en m) wq en) as Hn by (by apply with_node_node).
  eapply wp_push_ok; [exact Hw|done|by eauto with saa|exact Hn|].
  specialize (HQ _ eq_refl). simpl in HQ. unfold with_node in *. simpl.
  rewrite insert_insert_eq. apply HQ.
  split; [done|]. simpl. by rewrite !lookup_insert_eq.
Qed.

(** The slow path of the blocking methods: the calling thread joins the
    queue as its newest element and sleeps; once resumed with the result [r]
    delivered, it takes its wait queue down and returns [r]. *)
Lemma blocks_wait_resources_sync self wq l d f os o begin_wait m (W : mem -> Prop)
    (R : Z * mem -> mem -> Prop) (Q : Z * mem -> Result Z unit -> mem -> Prop) :
  queue_at m self l d f os -> wq_ok wq -> f <> [] \/ d <> 0 ->
  t ∉ tokens m -> quiet t begin_wait ->
  W (enqueued S (asleep t) self wq l d f o m) ->
  (forall x m2, R x m2 -> t ∈ tokens m2 /\ answered m2 wq x.1 /\
     Q x (Ok x.1) (withdrawn wq (unparked t m2))) ->
  blocks t (wait_resources_sync S self wq (word (first_anchor (reverse f)) l d) o begin_wait)
    m W R Q.
Proof.
  intros Hq Hok Hne Ht Hquiet HW HR. pose proof Hq as [Hw Hd Hl _ _ _ _ _].
  unfold wait_resources_sync.
  apply blocks_bind_wp, wp_debug_assert.
  { apply wait_assertion; [by eauto with saa|done|].
    destruct Hne as [Hne|]; [left|by right]. apply Z.eqb_neq.
    rewrite (queue_at_addr_eqb _ _ _ _ _ _ Hq). by destruct f. }
  apply blocks_bind_wp, wp_wait_queue_default; [done|].
  apply blocks_bind_wp, wp_construct_fresh; [done|apply lookup_insert_eq|].
  rewrite with_node_default.
  apply blocks_bind_wp. eapply wp_push_fresh; [done..|]. intros en -> m1 Hn1.
  set (after := fun (x : Z * mem) (r : Result Z unit) m3 =>
    r = Ok x.1 /\ acknowledged t R wq x m3).
  apply blocks_bind with (Q1 := after).
  - apply blocks_bind_wp, Hquiet.
    apply blocks_bind_wp. eapply wp_entry; [exact Hn1|].
    apply blocks_bind with (Q1 := fun x r => after x (Ok r)).
    + eapply (blocks_poll_result_sync t wq _ None); [exact Hn1|done|done|done| |].
      * rewrite enqueued_eq in HW. unfold m1, with_node. simpl. rewrite insert_insert_eq. exact HW.
      * intros x m2 HR2. pose proof (HR x m2 HR2) as (H1 & H2 & _).
        split; [done|]. split; [done|]. intros en2 Hn2. split; [done|]. by exists m2, en2.
    + intros x b m3 [E H3]. apply wp_ret. split; [done|]. exact H3.
  - intros x r m3 [-> Hack]. apply wp_bind.
    eapply wp_wait_queue_drop_acknowledged; [exact Hack|].
    intros m2 (_ & _ & HQ)%HR. by apply wp_ret.
Qed.

End wait.

(** Registering a waker does not change a queue. *)
Lemma queue_at_register m self l d f os wq en st mon :
  queue_at m self l d f os -> node m wq en -> e_state en = 0 -> st = 0 \/ st = WAKER_SET ->
  queue_at (set_entries (<[wq_entry wq := set_state st (set_monitor mon en)]> (entries m)) m)
    self l d f os.
Proof.
  intros [Hw Hd Hl Hnd Ht Hwait Ha Hok] Hn Hs Hst. set (en' := set_state _ _).
  assert (forall y eny, node m y eny ->
    exists eny', node (set_entries (<[wq_entry wq := en']> (entries m)) m) y eny' /\
      e_next_entry_anchor_ptr eny' = e_next_entry_anchor_ptr eny /\
      e_prev_entry_ptr eny' = e_prev_entry_ptr eny /\
      e_opcode eny' = e_opcode eny /\ (is_waiting eny -> is_waiting eny')) as Hf.
  { intros y eny Hny. destruct (decide (y = wq)) as [->|].
    - rewrite (node_fun m wq eny en) by done. exists en'. split; [by apply (node_insert m wq en)|].
      repeat split; [done..|]. intros _. exact Hst.
    - exists eny. split; [by eapply node_insert_ne|done]. }
  split; try done.
  - eapply linked_transfer; [done|done|]. intros y eny _ Hny.
    destruct (Hf y eny Hny) as (eny' & (_ & _ & ? & ?) & ? & _). exists eny'.
    destruct Hny as (_ & _ & _ & ?). split; [done|]. split; [done|congruence].
  - eapply fifo_transfer; [done|done|]. intros y eny _ Hny.
    destruct (Hf y eny Hny) as (eny' & (_ & _ & ? & ?) & _ & ? & _). exists eny'.
    destruct Hny as (_ & _ & _ & ?). split; [done|]. split; [done|congruence].
  - eapply list.Forall_impl; [exact Hwait|]. intros y (eny & Hny & ?).
    destruct (Hf y eny Hny) as (eny' & ? & _ & _ & _ & ?). exists eny'. auto.
  - eapply list.Forall2_impl; [exact Ha|]. intros y o (eny & Hny & <-).
    destruct (Hf y eny Hny) as (eny' & ? & _ & _ & ? & _). exists eny'. auto.
Qed.

(** The queue the sleeping thread has joined. *)
Lemma enqueued_queue_at S mon self wq l d f os o m :
  queue_at m self l d f os -> vacant m wq -> opcode_ok o = true ->
  queue_at (enqueued S mon self wq l d f o m) self l d (f ++ [wq]) (os ++ [o]).
Proof.
  intros Hq Hv Ho. pose proof Hv as (Hok & _).
  pose proof (queue_at_with_node m self l d f os wq (fresh_entry S self o true wq) Hq Hv) as Hq1.
  pose proof (with_node_node m wq S self o true Hok) as Hn1.
  pose proof (queue_at_push _ self l d f os wq _ Hq1 Hn1
    (vacant_notin _ _ _ _ _ _ _ Hq Hv) eq_refl (or_introl eq_refl) Ho) as Hq2.
  set (m1 := set_entries _ _) in *.
  assert (node m1 wq (pushed_entry f (fresh_entry S self o true wq))) as Hn2.
  { eapply (node_transfer _ m1); [exact Hn1|done| |done]. apply lookup_insert_eq. }
  pose proof (queue_at_register _ _ _ _ _ _ _ _ WAKER_SET mon Hq2 Hn2 eq_refl
    (or_intror eq_refl)) as Hq3.
  unfold m1, with_node in Hq3. simpl in Hq3. rewrite !insert_insert_eq in Hq3. exact Hq3.
Qed.

Lemma enqueued_node S mon self wq l d f o m :
  wq_ok wq ->
  node (enqueued S mon self wq l d f o m) wq
    (sleeping mon (pushed_entry f (fresh_entry S self o true wq))).
Proof. intros Hok. split; [done|]. simpl. by rewrite !lookup_insert_eq. Qed.

(** When the only sleeper has been granted its request and has taken its wait
    queue down, only the word of the primitive differs. *)
Lemma enqueued_processed S mon self wq l d f o m m2 d' :
  vacant m wq ->
  processed self [wq] 1 d' (enqueued S mon self wq l d f o m) m2 ->
  words m2 = <[self := word 0 false d']> (words m) /\
  anchors (withdrawn wq m2) = anchors m /\ entries (withdrawn wq m2) = entries m.
Proof.
  intros (Hok & Ha & He) [Pw Pa _ _ _ _ Po _ _]. simpl in *.
  rewrite Pw, Pa. split; [by rewrite insert_insert_eq|]. split.
  - by rewrite delete_insert_id.
  - apply map_eq. intros e. destruct (decide (e = wq_entry wq)) as [->|Hne].
    + by rewrite lookup_delete_eq.
    + rewrite lookup_delete_ne by done. rewrite Po; [|set_solver].
      by rewrite lookup_insert_ne.
Qed.
