(* ===== verification/Async.v ===== *)
(** * Tasks that are suspended

    The asynchronous counterparts of the rules of [Blocking.v]: a task polls
    its wait queue, is suspended with its waker registered, and polls again
    once the waker has been invoked.  Dropping the future at its suspension
    point is [wait_queue_drop], see [Cancel.v] and [Relinquish.v]. *)

From S2P Require Import Prelude Prog Word Opcode Memory WaitQueue.
From S2P Require Import Geometry Results Queue SyncPrimitive Grant Enqueue Release Cancel Blocking.

(** The executor has taken notice of the invocation of the waker [cx]. *)
Definition resumed (cx : Waker) (m : mem) : mem := set_woken (woken m ∖ {[cx]}) m.

(** The result [r] has been delivered to the entry of [wq], in which a task
    was registered. *)
Definition answered_task (m : mem) (wq r : Z) : Prop :=
  entry_is m (fun en => e_state en = WAKER_SET + RESULT_SET + r + RESULT_FINALIZED /\
    exists w, e_monitor en = Async w) wq /\
  is_u8 r.

Lemma answered_task_answered m wq r : answered_task m wq r -> answered m wq r.
Proof. intros [(en & Hn & Hs & _) Hr]. split; [|done]. by exists en. Qed.

Section rules.
  Context {X : Type} (t : tid).
  Implicit Types (m : mem) (R : X -> mem -> Prop).

(** A task whose waker has not been invoked stays suspended until it is. *)
Lemma blocks_suspend cx m (W : mem -> Prop) R (Q : X -> unit -> mem -> Prop) :
  cx ∉ woken m -> W m ->
  (forall x m2, R x m2 -> cx ∈ woken m2 /\ Q x tt (resumed cx m2)) ->
  blocks t (suspend cx) m W R Q.
Proof.
  intros Ht HW HR. eapply wpr_act_blocked; [by rewrite decide_False|].
  split; [done|]. intros x m2 [Ht2 HQ]%HR. eapply wp_act; [by rewrite decide_True|done].
Qed.

End rules.

Section await.
  Context (t : tid).
  Implicit Types m : mem.

(** The poll that finds no result registers the waker. *)
Lemma wp_poll_registers wq en w cx m (Q : option Z -> mem -> Prop) :
  node m wq en -> e_state en = 0 -> e_monitor en = Async w ->
  Q None (set_entries (<[wq_entry wq := sleeping (pending cx) en]> (entries m)) m) ->
  wp t (poll_result_async (wq_entry wq) cx) m Q.
Proof.
  intros Hn Hs Hm HQ. apply wp_bind. eapply wp_read_field; [apply Hn|]. rewrite Hm.
  apply wp_bind. eapply wp_try_consume_result_none; [apply Hn|by rewrite Hs|].
  apply wp_bind. apply wp_bind. eapply wp_read_field; [apply Hn|]. rewrite Hs. simpl.
  apply wp_bind, wp_ret, wp_ret.
  apply wp_bind. eapply wp_write_field; [apply Hn|].
  apply wp_bind. eapply wp_fetch_or_state; [apply lookup_insert_eq|].
  simpl. rewrite Hs, insert_insert_eq. simpl.
  by apply wp_bind, wp_ret, wp_ret.
Qed.

(** The poll that finds the result consumes it. *)
Lemma wp_poll_answered wq r cx m (Q : option Z -> mem -> Prop) :
  answered_task m wq r ->
  (forall en, node m wq en ->
     Q (Some r) (set_entries (<[wq_entry wq := consumed en]> (entries m)) m)) ->
  wp t (poll_result_async (wq_entry wq) cx) m Q.
Proof.
  intros Hans HQ. pose proof Hans as [(en & Hn & _ & w & Hm) _].
  apply wp_bind. eapply wp_read_field; [apply Hn|]. rewrite Hm.
  apply wp_bind. eapply (wp_consume_answer t wq r); [by apply answered_task_answered|].
  intros en' Hn'. by apply wp_ret, HQ.
Qed.

(** Awaiting a wait queue: the task is suspended registered in its entry;
    resumed with the result delivered, it consumes and returns it. *)
Lemma blocks_await_result wq en w cx m (W : mem -> Prop)
    (R : Z * mem -> mem -> Prop) (Q : Z * mem -> Z -> mem -> Prop) :
  node m wq en -> e_state en = 0 -> e_monitor en = Async w -> cx ∉ woken m ->
  W (set_entries (<[wq_entry wq := sleeping (pending cx) en]> (entries m)) m) ->
  (forall x m2, R x m2 -> cx ∈ woken m2 /\ answered_task m2 wq x.1 /\
     forall en2, node m2 wq en2 ->
       Q x x.1 (set_entries (<[wq_entry wq := consumed en2]> (entries m2)) (resumed cx m2))) ->
  blocks t (await_result wq cx) m W R Q.
Proof.
  intros Hn Hs Hm Ht HW HR. unfold await_result.
  set (after := fun (x : Z * mem) (r : unit + Z) m3 => r = inl tt /\
    exists m2, m3 = resumed cx m2 /\ R x m2).
  apply blocks_loop with (Q1 := after).
  - apply blocks_bind_wp. eapply wp_entry; [exact Hn|].
    apply blocks_bind_wp. eapply wp_poll_registers; [done..|].
    apply blocks_bind with (Q1 := fun x _ m3 => exists m2, m3 = resumed cx m2 /\ R x m2).
    + apply blocks_suspend; [done|done|]. intros x m2 HR2. split; [by apply (HR x)|]. eauto.
    + intros x [] m3 Hm3. by apply wp_ret.
  - intros x r m3 (-> & m2 & -> & HR2). apply HR in HR2 as (Ht2 & Hans & HQ).
    pose proof Hans as [(en2 & Hn2 & _) _].
    simpl. apply wp_loop. apply wp_bind. eapply wp_entry; [exact Hn2|].
    apply wp_bind. apply (wp_poll_answered wq x.1); [exact Hans|].
    intros en3 Hn3. apply wp_ret. by apply HQ.
Qed.

(** What follows runs in a memory in which only the wait queue, whose entry
    is idle, tells that the task waited. *)
Lemma blocks_await_then {A} (p : Z -> program A) wq en w cx m (W : mem -> Prop)
    (R : Z * mem -> mem -> Prop) (Q : Z * mem -> A -> mem -> Prop) :
  node m wq en -> e_state en = 0 -> e_monitor en = Async w -> cx ∉ woken m ->
  W (set_entries (<[wq_entry wq := sleeping (pending cx) en]> (entries m)) m) ->
  (forall x m2, R x m2 -> cx ∈ woken m2 /\ answered_task m2 wq x.1 /\
     forall m3 en3, node m3 wq en3 -> e_pollable en3 = false ->
       withdrawn wq m3 = withdrawn wq (resumed cx m2) -> wp t (p x.1) m3 (Q x)) ->
  blocks t (result <- await_result wq cx ;; p result) m W R Q.
Proof.
  intros Hn Hs Hm Ht HW HR.
  set (after := fun (x : Z * mem) (r : Z) m3 => r = x.1 /\ exists m2 en2,
    R x m2 /\ node m2 wq en2 /\
    m3 = set_entries (<[wq_entry wq := consumed en2]> (entries m2)) (resumed cx m2)).
  apply blocks_bind with (Q1 := after).
  - eapply blocks_await_result; [done..|]. intros x m2 HR2.
    pose proof (HR x m2 HR2) as (? & ? & _). split; [done|]. split; [done|].
    intros en2 Hn2. split; [done|]. eauto.
  - intros x r m3 (-> & m2 & en2 & HR2 & Hn2 & ->). apply HR in HR2 as (_ & _ & HQ).
    apply (HQ _ (consumed en2)); [|done|].
    + eapply node_transfer; [exact Hn2|done|apply lookup_insert_eq|done].
    + unfold withdrawn. simpl. by rewrite delete_insert_eq.
Qed.

End await.

Section push.
  Context (t : tid) (S : Primitive).
  Implicit Types m : mem.

(** The slow path of the asynchronous methods: the calling task joins the
    queue as its newest element and is suspended. *)
Lemma blocks_push_and_await {A} (p q : program A) (k : Z -> program A) begin_wait
    self wq l d f os o cx m (W : mem -> Prop)
    (R : Z * mem -> mem -> Prop) (Q : Z * mem -> A -> mem -> Prop) :
  queue_at m self l d f os -> wq_ok wq -> cx ∉ woken m -> quiet t begin_wait ->
  p = (begin_wait ;;; result <- await_result wq cx ;; k result) ->
  W (enqueued S (pending cx) self wq l d f o m) ->
  (forall x m2, R x m2 -> cx ∈ woken m2 /\ answered_task m2 wq x.1 /\
     forall m3 en3, node m3 wq en3 -> e_pollable en3 = false ->
       withdrawn wq m3 = withdrawn wq (resumed cx m2) -> wp t (k x.1) m3 (Q x)) ->
  blocks t (wait_queue_default wq ;;; construct S wq self o false ;;;
            pushed <- try_push_wait_queue_entry self wq (word (first_anchor (reverse f)) l d) ;;
            if (pushed : bool) then p else q) m W R Q.
Proof.
  intros Hq Hok Hcx Hquiet -> HW HR.
  apply blocks_bind_wp, wp_wait_queue_default; [done|].
  apply blocks_bind_wp, wp_construct_fresh; [done|apply lookup_insert_eq|].
  rewrite with_node_default.
  apply blocks_bind_wp. eapply (wp_push_fresh t S); [done..|]. intros en -> m1 Hn1.
  apply blocks_bind_wp, Hquiet.
  eapply blocks_await_then; [exact Hn1|done|done|done| |exact HR].
  rewrite enqueued_eq in HW. unfold m1, with_node. simpl. rewrite insert_insert_eq. exact HW.
Qed.

End push.

(** A task suspended in the queue that is granted its request is woken with
    the result. *)
Lemma processed_answered_task self f n d' wq cx en m m' :
  processed self f n d' m m' -> wq ∈ take n f -> node m wq (sleeping (pending cx) en) ->
  cx ∈ woken m' /\ answered_task m' wq 0.
Proof.
  intros Hp Hin Hn. destruct (p_granted _ _ _ _ _ _ Hp wq _ Hin Hn) as (en' & Hn' & Hc & Hk).
  split; [by apply Hk|]. split; [|done]. exists en'. split; [done|].
  split; [exact (f_equal e_state Hc)|]. exists None. exact (f_equal e_monitor Hc).
Qed.
