(* ===== verification/Scenario.v ===== *)
(** * Concrete memories

    Decision procedures for the predicates on memories, and a concrete memory
    with a queue of three waiting threads, on which the theorems of the
    development are instantiated. *)

From S2P Require Import Prelude Prog Word Opcode Memory WaitQueue.
From S2P Require Import Geometry Results Queue SyncPrimitive Grant Enqueue.

(** ** Decision procedures *)

#[global] Instance node_dec m wq en : Decision (node m wq en).
Proof. unfold node. apply _. Defined.

#[global] Instance entry_is_dec m P wq {_ : forall en, Decision (P en)} :
  Decision (entry_is m P wq).
Proof.
  destruct (entries m !! wq_entry wq) as [en|] eqn:E.
  - destruct (decide (node m wq en /\ P en)) as [Hd|Hd].
    + left. exists en. exact Hd.
    + right. intros (en' & Hn & HP). apply Hd.
      assert (en' = en) as -> by (destruct Hn as (_ & _ & Hn & _); congruence). done.
  - right. intros (en' & (_ & _ & Hn & _) & _). congruence.
Defined.

#[global] Instance linked_dec m l : Decision (linked m l).
Proof.
  induction l as [|wq l IH]; simpl; [left; done|].
  refine (@and_dec _ (entry_is_dec m (fun en => e_next_entry_anchor_ptr en = first_anchor l) wq) _ IH).
Defined.

#[global] Instance fifo_dec m f : Decision (fifo m f).
Proof.
  induction f as [|wq f IH]; simpl; [left; done|].
  refine (@and_dec _ (entry_is_dec m (fun en => e_prev_entry_ptr en = first_entry f) wq) _ IH).
Defined.

#[global] Instance asks_dec m wq o : Decision (asks m wq o).
Proof. apply entry_is_dec. apply _. Defined.

#[global] Instance Forall2_asks_dec m f os : Decision (Forall2 (asks m) f os).
Proof.
  revert os. induction f as [|wq f IH]; intros [|o os];
    [left; constructor|right; inversion 1|right; inversion 1|].
  destruct (decide (asks m wq o)); [|right; inversion 1; done].
  destruct (IH os); [left; by constructor|right; inversion 1; done].
Defined.

Lemma queue_at_and m self l d f os :
  (words m !! self = Some (word (first_anchor (reverse f)) l d) /\
   is_data d /\ linked m (reverse f) /\ NoDup f /\ fifo m (take 1 (reverse f)) /\
   Forall (entry_is m is_waiting) f /\ Forall2 (asks m) f os /\
   Forall (fun o => opcode_ok o = true) os) <-> queue_at m self l d f os.
Proof. split; [intros (? & ? & ? & ? & ? & ? & ? & ?); by split|by intros []]. Qed.

#[global] Instance queue_at_dec m self l d f os : Decision (queue_at m self l d f os).
Proof.
  refine (match decide (words m !! self = Some (word (first_anchor (reverse f)) l d) /\
    is_data d /\ linked m (reverse f) /\ NoDup f /\ fifo m (take 1 (reverse f)) /\
    Forall (entry_is m is_waiting) f /\ Forall2 (asks m) f os /\
    Forall (fun o => opcode_ok o = true) os) with left H => left _ | right H => right _ end).
  - by apply queue_at_and.
  - by rewrite <- queue_at_and.
Defined.

#[global] Instance vacant_dec m wq : Decision (vacant m wq).
Proof. unfold vacant. apply _. Defined.

(** Decides a closed predicate on a concrete memory. *)
Ltac by_evaluation := apply (bool_decide_unpack _); vm_compute; exact I.

(** ** A primitive with three waiting threads *)

(** Address of the state word. *)
Definition primitive : Z := 4096.

(** Wait queues on three stacks: an anchor at the start, in the lower half,
    and in the upper half of the area. *)
Definition wq1 : Z := 10240.
Definition wq2 : Z := 20448.
Definition wq3 : Z := 30600.

(** A vacant wait queue. *)
Definition wq4 : Z := 40968.

(** The entry of the thread [th] registered in the wait queue at [wq], [next]
    being the wait queue pushed before it. *)
Definition waiter (S : Primitive) (wq : Z) (next : list Z) (o : Opcode) (th : tid) : Entry :=
  mkEntry (first_anchor next) 0 o WAKER_SET true (Sync (Some th)) S primitive
    (wq_entry wq - wq).

(** Three threads wait for [o1], [o2] and [o3], in this order. *)
Definition three_waiters (S : Primitive) (d : Z) (o1 o2 o3 : Opcode) : mem :=
  mkMem
    {[primitive := word (anchor_addr wq3) false d]}
    (list_to_map ((fun wq => (anchor_addr wq, anchor_value wq)) <$> [wq1; wq2; wq3]))
    (list_to_map
      [(wq_entry wq1, waiter S wq1 [] o1 1%nat);
       (wq_entry wq2, waiter S wq2 [wq1] o2 2%nat);
       (wq_entry wq3, waiter S wq3 [wq2; wq1] o3 3%nat)])
    ∅ ∅ [true; false].

(** A primitive nobody waits for. *)
Definition nobody_waits (w : Z) : mem := mkMem {[primitive := w]} ∅ ∅ ∅ ∅ [].

Example three_waiters_queue :
  queue_at (three_waiters Lock 63 Exclusive Shared Shared) primitive false 63
    [wq1; wq2; wq3] [Exclusive; Shared; Shared].
Proof. by_evaluation. Qed.

Example wq4_vacant : vacant (three_waiters Lock 63 Exclusive Shared Shared) wq4.
Proof. by_evaluation. Qed.
