(* ===== verification/PagerSpec.v ===== *)
(** * Pagers: correctness

    A pager is a small state machine: unregistered, pending, ready.  The
    theorems say what each poll does in each state; the rules serve the
    primitives whose methods wait through a pager. *)

From S2P Require Import Prelude Prog Word Opcode Memory WaitQueue.
From S2P Require Import Geometry Results Queue SyncPrimitive Grant Enqueue Release Blocking Scenario Pager.
From S2P Require Lock Semaphore Barrier Gate.

(** ** Specification *)

(** What can be observed of a pager. *)
Inductive pager_state : Type :=
| Unregistered
| Pending (is_sync : bool)
| Ready (is_sync : bool) (result : Z).

(** The monitor of an entry is of the kind its owner chose. *)
Definition monitor_is (is_sync : bool) (en : Entry) : Prop :=
  match e_monitor en with
  | Sync _ => is_sync = true
  | Async _ => is_sync = false
  end.

(** The pager at [p] is in the state [st]. *)
Definition pager_at (m : mem) (p : Z) (st : pager_state) : Prop :=
  match st with
  | Unregistered =>
      wq_ok p /\ (anchors m !! anchor_addr p = Some 0 \/
        entry_is m (fun en => e_pollable en = false) p)
  | Pending is_sync =>
      entry_is m (fun en => e_pollable en = true /\ is_waiting en /\ monitor_is is_sync en) p
  | Ready is_sync r =>
      entry_is m (fun en => e_pollable en = true /\ monitor_is is_sync en /\
        exists st, (st = 0 \/ st = WAKER_SET) /\
          e_state en = st + RESULT_SET + r + RESULT_FINALIZED) p /\ is_u8 r
  end.

(** A pager that can be registered: it is new, or the result of its last wait
    has been consumed. *)
Definition idle (m : mem) (p : Z) : Prop :=
  wq_ok p /\
  ((anchors m !! anchor_addr p = Some 0 /\ entries m !! wq_entry p = None) \/
   entry_is m (fun en => e_pollable en = false /\ e_state en = 0) p).

(** The entry a pager has been constructed with, for an operation [o] of the
    primitive at [self]. *)
Definition constructed (self : Z) (o : Opcode) (is_sync : bool) (en : Entry) : Prop :=
  e_addr en = self /\ e_opcode en = o /\ e_state en = 0 /\ e_prev_entry_ptr en = 0 /\
  e_monitor en = if is_sync then Sync None else Async None.

(** Only the wait queue at [p] differs. *)
Definition elsewhere (p : Z) (m m' : mem) : Prop :=
  words m' = words m /\ tokens m' = tokens m /\ woken m' = woken m /\
  forall wq en, wq <> p -> node m wq en -> node m' wq en.

#[global] Instance idle_dec m p : Decision (idle m p).
Proof. unfold idle. apply _. Defined.

#[global] Instance monitor_is_dec is_sync en : Decision (monitor_is is_sync en).
Proof. unfold monitor_is. destruct (e_monitor en); apply _. Defined.

(** How a primitive reads results: the bytes it expects, and what it makes of
    them and of the errors of the pager. *)
Class ResultReader (S : Primitive) (R : Type) `{SyncResult S R} : Type := {
  expected : Z -> Prop;
  reading : Z -> option Error -> R;
  wp_to_result t value e m (Q : R -> mem -> Prop) :
    (e = None -> expected value) -> Q (reading value e) m -> wp t (to_result S value e) m Q;
}.

Arguments expected S {R _ _} value.
Arguments reading S {R _ _} value e.

(** Semaphores and barriers take any byte; a lock knows two. *)
#[global, refine] Instance lock_reader : ResultReader Lock (Result bool Error) := {
  expected value := value = Lock.ACQUIRED \/ value = Lock.POISONED;
  reading value e := match e with None => Ok (value =? Lock.ACQUIRED) | Some e => Err e end;
}.
Proof.
  intros t value [e|] m Q Hv HQ; [by apply wp_ret|]. apply wp_bind, wp_debug_assert; [|by apply wp_ret].
  by destruct (Hv eq_refl) as [-> | ->].
Defined.

#[global, refine] Instance semaphore_reader : ResultReader Semaphore (Result unit Error) := {
  expected _ := True;
  reading _ e := match e with None => Ok tt | Some e => Err e end;
}.
Proof. intros t value [e|] m Q _ HQ; by apply wp_ret. Defined.

#[global, refine] Instance barrier_reader : ResultReader Barrier (Result bool Error) := {
  expected _ := True;
  reading value e := match e with None => Ok (value =? 1) | Some e => Err e end;
}.
Proof. intros t value [e|] m Q _ HQ; by apply wp_ret. Defined.

#[global, refine] Instance gate_reader : ResultReader Gate (Result Gate.State Gate.Error) := {
  expected _ := True;
  reading value e :=
    match e with
    | Some NotRegistered => Err Gate.NotRegistered
    | Some WrongMode => Err Gate.WrongMode
    | Some NotReady => Err Gate.NotReady
    | None =>
        let error := Z.land value (u8_not Gate.STATE_MASK) in
        if negb (error =? 0) then Err (Gate.Error_from error)
        else Ok (Gate.State_from (Z.land value Gate.STATE_MASK))
    end;
}.
Proof.
  intros t value [[]|] m Q _ HQ; try by apply wp_ret.
  unfold to_result, Gate.Gate_to_result. cbv zeta in HQ |- *.
  by destruct (negb (Z.land value (u8_not Gate.STATE_MASK) =? 0)); apply wp_ret.
Defined.

(** ** Rules *)

Section rules.
  Context (t : tid).
  Implicit Types m : mem.

Lemma wp_is_registered p st m (Q : bool -> mem -> Prop) :
  pager_at m p st ->
  Q (match st with Unregistered => false | _ => true end) m ->
  wp t (is_registered p) m Q.
Proof.
  intros Hp HQ. destruct st as [| |]; simpl in Hp.
  - destruct Hp as [Hok [Ha|(en & Hn & Hpoll)]].
    + apply wp_bind, wp_anchor_ptr; [done|]. apply wp_bind.
      unfold to_entry_ptr. apply wp_bind. eapply wp_read_anchor; [done|]. simpl.
      by apply wp_ret, wp_ret.
    + eapply wp_is_pollable; [exact Hn|]. by rewrite Hpoll.
  - destruct Hp as (en & Hn & Hpoll & _). eapply wp_is_pollable; [exact Hn|]. by rewrite Hpoll.
  - destruct Hp as [(en & Hn & Hpoll & _) _]. eapply wp_is_pollable; [exact Hn|]. by rewrite Hpoll.
Qed.

(** Consuming the result of a ready pager. *)
Lemma wp_consume_ready p s r m (Q : option Z -> mem -> Prop) :
  pager_at m p (Ready s r) ->
  (forall m', pager_at m' p Unregistered -> words m' = words m -> Q (Some r) m') ->
  wp t (try_consume_result (wq_entry p)) m Q.
Proof.
  intros [(en & Hn & Hpoll & Hm & st & Hst & Es) Hr] HQ.
  eapply wp_try_consume_result_some; [apply Hn|done..|].
  apply HQ; [|done]. split; [by eauto with saa|]. right. exists (consumed en).
  split; [by apply (node_insert m p en)|done].
Qed.

(** [try_poll] on a ready pager. *)
Lemma wp_try_poll_ready S {Res} `{ResultReader S Res} p s r m (Q : Res -> mem -> Prop) :
  pager_at m p (Ready s r) -> expected S r ->
  (forall m', words m' = words m -> pager_at m' p Unregistered -> Q (reading S r None) m') ->
  wp t (try_poll S p) m Q.
Proof.
  intros Hp Hx HQ. apply wp_bind. eapply wp_is_registered; [exact Hp|]. simpl.
  assert (exists en, node m p en) as (en & Hn) by (destruct Hp as [(en & ? & _) _]; eauto).
  apply wp_bind. eapply wp_entry; [exact Hn|]. apply wp_bind.
  eapply (wp_consume_ready p s r); [exact Hp|]. intros m' Hp' W.
  apply wp_to_result; [done|by apply HQ].
Qed.

(** Constructing the entry of a pager that can be registered. *)
Lemma wp_construct_idle S p self o is_sync m (Q : unit -> mem -> Prop) :
  idle m p ->
  (forall m' en, node m' p en -> constructed self o is_sync en -> elsewhere p m m' -> Q tt m') ->
  wp t (construct S p self o is_sync) m Q.
Proof.
  intros [Hok [[Ha He]|(en & Hn & Hpoll & Hs)]] HQ.
  - apply wp_construct_fresh; [done..|]. eapply HQ; [by apply with_node_node|done|].
    repeat (split; [done|]). intros wq en Hne (Hok' & Ha' & He' & Ho'). split; [done|]. simpl.
    assert (anchor_addr p <> anchor_addr wq) as Hane.
    { intros E. rewrite E, Ha' in Ha. injection Ha as Ha. by apply (anchor_value_ne_0 wq). }
    rewrite !lookup_insert_ne by congruence. done.
  - eapply wp_construct_reuse; [exact Hn|done|]. eapply HQ.
    + by apply (node_insert m p en).
    + by repeat (split; [done|]).
    + repeat (split; [done|]). intros wq en' Hne Hn'. by apply (node_insert_ne m wq p en' en).
Qed.

(** A thread polling a pager that is pending sleeps, and returns the result
    that it is woken with. *)
Lemma blocks_poll_sync S {Res} `{ResultReader S Res} p en th m (W : mem -> Prop)
    (R : Z * mem -> mem -> Prop) (Q : Z * mem -> Res -> mem -> Prop) :
  node m p en -> e_pollable en = true -> e_state en = 0 -> e_monitor en = Sync th ->
  t ∉ tokens m ->
  W (set_entries (<[wq_entry p := sleeping (asleep t) en]> (entries m)) m) ->
  (forall x m2, R x m2 -> t ∈ tokens m2 /\ answered m2 p x.1 /\ x.1 <> ERROR_WRONG_MODE /\ expected S x.1 /\
     forall en2, node m2 p en2 ->
       Q x (reading S x.1 None)
         (set_entries (<[wq_entry p := consumed en2]> (entries m2)) (unparked t m2))) ->
  blocks t (poll_sync S p) m W R Q.
Proof.
  intros Hn Hp Hs Hm Ht HW HR. unfold poll_sync.
  apply blocks_bind_wp. eapply wp_is_pollable; [exact Hn|]. rewrite Hp. simpl.
  apply blocks_bind_wp. eapply wp_entry; [exact Hn|].
  apply blocks_bind with (Q1 := fun x r m3 => r = x.1 /\ x.1 <> ERROR_WRONG_MODE /\ expected S x.1 /\
    Q x (reading S x.1 None) m3).
  - eapply blocks_poll_result_sync; [done..|]. intros x m2 HR2.
    destruct (HR x m2 HR2) as (H1 & H2 & H3 & H4 & H5). eauto 8.
  - intros x r m3 (-> & Hne & Hx & HQ). apply Z.eqb_neq in Hne. rewrite Hne. by apply wp_to_result.
Qed.

(** Polling a pager whose result has been set before anybody slept. *)
Lemma wp_poll_sync_resolved S {Res} `{ResultReader S Res} p en th r m (Q : Res -> mem -> Prop) :
  node m p (resolved r en) -> e_state en = 0 -> e_monitor en = Sync th ->
  is_u8 r -> r <> ERROR_WRONG_MODE -> expected S r ->
  Q (reading S r None)
    (set_entries (<[wq_entry p := consumed (resolved r en)]> (entries m)) m) ->
  wp t (poll_sync S p) m Q.
Proof.
  intros Hn Hs Hm Hr Hne Hx HQ.
  assert (resolved r en = set_poll true (set_state (0 + RESULT_SET + r + RESULT_FINALIZED) en))
    as Hres by (unfold resolved; by rewrite Hs).
  apply wp_bind. eapply wp_is_pollable; [exact Hn|]. rewrite Hres at 1. simpl.
  apply wp_bind. eapply wp_entry; [exact Hn|]. apply wp_bind.
  apply wp_bind. eapply wp_read_field; [apply Hn|]. rewrite Hres at 1. simpl. rewrite Hm.
  apply wp_loop, wp_bind.
  eapply (wp_try_consume_result_some t _ _ 0 r); [apply Hn|by left|done|by rewrite Hres|].
  apply wp_ret. apply Z.eqb_neq in Hne. rewrite Hne. by apply wp_to_result.
Qed.

End rules.

(** ** Theorems *)

(** C31. The life of a pager, as [try_poll] shows it: an unregistered pager
    reports [NotRegistered], a pending one [NotReady], both without any
    effect; a ready one yields the result exactly once and is unregistered
    afterwards, so that it can be registered again. *)
Theorem try_poll_lifecycle t S {R} `{ResultReader S R} p st m :
  pager_at m p st -> (forall s r, st = Ready s r -> expected S r) ->
  wp t (try_poll S p) m (fun r m' =>
    match st with
    | Unregistered => r = reading S 0 (Some NotRegistered) /\ m' = m
    | Pending _ => r = reading S 0 (Some NotReady) /\ m' = m
    | Ready _ result => r = reading S result None /\ pager_at m' p Unregistered
    end).
Proof.
  intros Hp Hx. destruct st as [| |s r].
  3: { eapply wp_try_poll_ready; [exact Hp|by eapply Hx|done]. }
  all: apply wp_bind; (eapply wp_is_registered; [exact Hp|]); simpl.
  { by apply wp_to_result. }
  destruct Hp as (en & Hn & _ & Hw & _).
  apply wp_bind. eapply wp_entry; [exact Hn|]. apply wp_bind.
  eapply wp_try_consume_result_none; [apply Hn|by apply waiting_no_result|]. by apply wp_to_result.
Qed.

Lemma try_poll_lifecycle_witness :
  let m := three_waiters Semaphore 63 (SemaphoreOp 1) (SemaphoreOp 2) (SemaphoreOp 3) in
  wp 0%nat (try_poll Semaphore wq2) m (fun r m' => r = Err NotReady /\ m' = m).
Proof.
  intros m. refine (try_poll_lifecycle 0%nat Semaphore wq2 (Pending true) m _ _); [|done].
  exists (waiter Semaphore wq2 [wq1] (SemaphoreOp 2) 2%nat).
  split; [by_evaluation|]. split; [done|]. split; [by right|done].
Defined.

(** A pager registered for the other mode is not served: [poll_sync] on a
    pager registered as asynchronous, and [poll_async] on one registered as
    synchronous, report [WrongMode] without any effect. *)
Theorem wrong_mode_is_reported t S {R} `{ResultReader S R} p is_sync cx st m :
  pager_at m p st -> st = Pending is_sync \/ (exists r, st = Ready is_sync r) ->
  wp t (if is_sync then poll_async S p cx else poll_sync S p) m (fun r m' =>
    r = reading S ERROR_WRONG_MODE (Some WrongMode) /\ m' = m).
Proof.
  intros Hp Hst.
  assert (exists en, node m p en /\ monitor_is is_sync en) as (en & Hn & Hm).
  { destruct Hst as [->|[r ->]]; simpl in Hp.
    - destruct Hp as (en & ? & _ & _ & ?). eauto.
    - destruct Hp as [(en & ? & _ & ? & _) _]. eauto. }
  unfold monitor_is in Hm.
  destruct is_sync; apply wp_bind; (eapply wp_is_registered; [exact Hp|]);
    (destruct Hst as [->|[r ->]]; simpl).
  1,2: destruct (e_monitor en) as [w|th] eqn:Em; [done|];
    apply wp_bind, wp_loop, wp_bind; (eapply wp_entry; [exact Hn|]); apply wp_bind;
    apply wp_bind; (eapply wp_read_field; [apply Hn|]); rewrite Em; by apply wp_ret, wp_ret, wp_to_result.
  all: destruct (e_monitor en) as [w|th] eqn:Em; [|done];
    apply wp_bind; (eapply wp_entry; [exact Hn|]); apply wp_bind;
    apply wp_bind; (eapply wp_read_field; [apply Hn|]); rewrite Em; by apply wp_ret, wp_to_result.
Qed.

(** A registered pager is not registered again: as long as it is pending or
    its result has not been consumed, every [register_pager] refuses it and
    changes nothing, so no entry is linked twice. *)
Theorem registered_pager_is_refused t self p mode count is_sync st m :
  pager_at m p st -> st <> Unregistered ->
  wp t (Lock.register_pager self p mode is_sync) m (fun b m' => b = false /\ m' = m) /\
  wp t (Semaphore.register_pager self p count is_sync) m (fun b m' => b = false /\ m' = m) /\
  wp t (Gate.register_pager self p is_sync) m (fun b m' => b = false /\ m' = m).
Proof.
  intros Hp Hst.
  assert (forall A (k : bool -> program A) (Q : A -> mem -> Prop),
    wp t (k true) m Q -> wp t (Bind (is_registered p) k) m Q) as Hreg.
  { intros A k Q HQ. apply wp_bind. eapply wp_is_registered; [exact Hp|]. by destruct st. }
  split; [|split].
  - apply Hreg. by apply wp_ret.
  - unfold Semaphore.register_pager. case_bool; [by apply wp_ret|]. apply Hreg. by apply wp_ret.
  - apply Hreg. by apply wp_ret.
Qed.

Lemma registered_pager_is_refused_witness :
  let m := three_waiters Lock 63 Exclusive Shared (Wait 1) in
  wp 0%nat (Lock.register_pager primitive wq3 Lock.MShared true) m
    (fun b m' => b = false /\ m' = m) /\
  wp 0%nat (Semaphore.register_pager primitive wq3 1 true) m (fun b m' => b = false /\ m' = m) /\
  wp 0%nat (Gate.register_pager primitive wq3 true) m (fun b m' => b = false /\ m' = m).
Proof.
  intros m.
  apply (registered_pager_is_refused 0%nat primitive wq3 Lock.MShared 1 true (Pending true) m);
    [|done].
  exists (waiter Lock wq3 [wq2; wq1] (Wait 1) 3%nat).
  split; [by_evaluation|]. split; [done|]. split; [by right|done].
Defined.
