(* ===== verification/LockFacts.v ===== *)
(** * Rules for the lock

    The methods of [Lock.v], run without interference: attempts, releases,
    poisoning, and the registration of pagers. *)

From S2P Require Import Prelude Prog Word Opcode Memory WaitQueue.
From S2P Require Import Geometry Results Queue SyncPrimitive Grant Enqueue Release Blocking PagerSpec.
From S2P Require Lock Pager.

Lemma word_not_free a l d :
  is_addr a -> is_data d -> a <> 0 \/ d <> 0 ->
  word a l d <> 0 /\ word a l d <> Lock.POISONED_STATE.
Proof.
  intros (k & -> & Hk)%addr_div Hd Hne. unfold word, is_data in *.
  change Lock.POISONED_STATE with 64. unfold_masks. destruct l; lia.
Qed.

Lemma queue_at_not_free m self l d f os :
  queue_at m self l d f os -> f <> [] \/ d <> 0 ->
  word (first_anchor (reverse f)) l d <> 0 /\
  word (first_anchor (reverse f)) l d <> Lock.POISONED_STATE.
Proof.
  intros Hq Hne. apply word_not_free; [by eauto with saa|by eauto with saa|].
  destruct Hne as [Hne|]; [left|by right]. apply Z.eqb_neq.
  rewrite (queue_at_addr_eqb _ _ _ _ _ _ Hq). by destruct f.
Qed.

(** Somebody waits, or there is no room for another shared owner. *)
Lemma queue_at_not_shareable m self l d f os :
  queue_at m self l d f os -> f <> [] \/ Lock.MAX_SHARED_OWNERS <= d ->
  (f <> [] \/ d <> 0) /\ Lock.MAX_SHARED_OWNERS <= word (first_anchor (reverse f)) l d.
Proof.
  intros Hq Hne. destruct (addr_div _ (queue_at_is_addr _ _ _ _ _ _ Hq)) as (k & Ek & Hk).
  pose proof (q_data _ _ _ _ _ _ Hq) as Hd. pose proof (queue_at_addr_eqb _ _ _ _ _ _ Hq) as Hf.
  change Lock.MAX_SHARED_OWNERS with 62 in *. unfold word, is_data in *. rewrite Ek in *. unfold_masks.
  destruct Hne as [Hne|Hne].
  - split; [by left|]. destruct f; [done|]. apply Z.eqb_neq in Hf. destruct l; lia.
  - split; [right; lia|]. destruct l; lia.
Qed.

(** How [register_pager] tries to settle a request of the mode at once. *)
Definition pager_attempt (self : Z) (mode : Lock.Mode) : program (Z * Z) :=
  match mode with
  | Lock.MExclusive => Lock.try_lock_internal_spin self
  | Lock.MShared => Lock.try_share_internal_spin self
  | Lock.WaitExclusive | Lock.WaitShared =>
      state <- load self ;; Ret (Lock.wait_result mode state, state)
  end.

(** Modes in which a pager only waits until the lock could be taken. *)
Definition only_waits (mode : Lock.Mode) : bool :=
  match mode with
  | Lock.WaitExclusive | Lock.WaitShared => true
  | _ => false
  end.

Section rules.
  Context (t : tid).
  Implicit Types m : mem.

(** ** Attempts *)

Lemma wp_try_lock_internal self w m (Q : Z * Z -> mem -> Prop) :
  words m !! self = Some w ->
  (w = 0 -> Q (Lock.ACQUIRED, 0) (set_words (<[self := DATA_MASK]> (words m)) m)) ->
  (w = Lock.POISONED_STATE -> Q (Lock.POISONED, w) m) ->
  (w <> 0 -> w <> Lock.POISONED_STATE -> Q (Lock.NOT_ACQUIRED, w) m) ->
  wp t (Lock.try_lock_internal self w) m Q.
Proof.
  intros Hw H0 Hp Hn. apply wp_loop. case_bool; [subst; by apply wp_ret, Hp|].
  case_bool; simpl; [|apply wp_ret; auto]. subst w.
  apply wp_bind, wp_compare_exchange_ok; [done|]. by apply wp_ret, H0.
Qed.

Lemma wp_try_share_internal self w m (Q : Z * Z -> mem -> Prop) :
  words m !! self = Some w ->
  (w < Lock.MAX_SHARED_OWNERS ->
     Q (Lock.ACQUIRED, 0) (set_words (<[self := usize_add w 1]> (words m)) m)) ->
  (w = Lock.POISONED_STATE -> Q (Lock.POISONED, w) m) ->
  (Lock.MAX_SHARED_OWNERS <= w -> w <> Lock.POISONED_STATE -> Q (Lock.NOT_ACQUIRED, w) m) ->
  wp t (Lock.try_share_internal self w) m Q.
Proof.
  intros Hw H0 Hp Hn. apply wp_loop. case_bool; [subst; by apply wp_ret, Hp|].
  case_bool; [apply wp_ret; auto|].
  apply wp_bind, wp_compare_exchange_ok; [done|]. by apply wp_ret, H0.
Qed.

(** Spinning on an attempt that keeps failing gives up after
    [MAX_SPIN_COUNT] rounds. *)
Lemma wp_spin attempt w m (Q : Z * Z -> mem -> Prop) :
  (forall Q' : Z * Z -> mem -> Prop, Q' (Lock.NOT_ACQUIRED, w) m -> wp t (attempt w) m Q') ->
  Q (Lock.NOT_ACQUIRED, w) m ->
  wp t (Lock.spin attempt w) m Q.
Proof.
  intros Ha HQ. unfold Lock.spin.
  assert (forall n i, 0 <= i -> i + Z.of_nat n = Lock.MAX_SPIN_COUNT ->
    wp t (Loop (fun '(spin_count, result, state) =>
      if spin_count <? Lock.MAX_SPIN_COUNT
      then
        let* (result, state) := attempt state in
        if negb (result =? Lock.NOT_ACQUIRED) then Ret (inr (result, state))
        else
          (if spin_count mod 4 =? 0 then yield_now else Ret tt) ;;;
          Ret (inl (spin_count + 1, result, state))
      else Ret (inr (result, state))) (i, Lock.NOT_ACQUIRED, w)) m Q) as Hl.
  { induction n as [|n IH]; intros i Hi E; apply wp_loop.
    - assert ((i <? Lock.MAX_SPIN_COUNT) = false) as -> by (apply Z.ltb_ge; lia). by apply wp_ret.
    - assert ((i <? Lock.MAX_SPIN_COUNT) = true) as -> by (apply Z.ltb_lt; lia).
      apply wp_bind, Ha. simpl. apply wp_bind.
      case_bool; [apply wp_yield_now|apply wp_ret]; apply wp_ret, IH; lia. }
  apply (Hl (Z.to_nat Lock.MAX_SPIN_COUNT)); done.
Qed.

(** Spinning on an attempt that succeeds or finds poison at once. *)
Lemma wp_spin_once attempt w r m m' (Q : Z * Z -> mem -> Prop) :
  (forall Q' : Z * Z -> mem -> Prop, Q' r m' -> wp t (attempt w) m Q') ->
  r.1 <> Lock.NOT_ACQUIRED -> Q r m' ->
  wp t (Lock.spin attempt w) m Q.
Proof.
  intros Ha Hr HQ. apply wp_loop. simpl. apply wp_bind, Ha. destruct r as [res s]. simpl in *.
  apply Z.eqb_neq in Hr. rewrite Hr. simpl. by apply wp_ret.
Qed.

Lemma wp_try_lock_internal_spin self w m (Q : Z * Z -> mem -> Prop) :
  words m !! self = Some w ->
  (w = 0 -> Q (Lock.ACQUIRED, 0) (set_words (<[self := DATA_MASK]> (words m)) m)) ->
  (w = Lock.POISONED_STATE -> Q (Lock.POISONED, w) m) ->
  (w <> 0 -> w <> Lock.POISONED_STATE -> Q (Lock.NOT_ACQUIRED, w) m) ->
  wp t (Lock.try_lock_internal_spin self) m Q.
Proof.
  intros Hw H0 Hp Hn. apply wp_bind. apply (wp_compare_exchange _ _ _ _ _ _ _ Hw).
  { intros E. by apply wp_ret, H0. }
  intros Hne. destruct (decide (w = Lock.POISONED_STATE)) as [->|].
  - eapply (wp_spin_once _ _ (Lock.POISONED, Lock.POISONED_STATE)); [|done|by apply Hp].
    intros Q' HQ'. by eapply wp_try_lock_internal.
  - apply wp_spin; [|by apply Hn]. intros Q' HQ'. by eapply wp_try_lock_internal.
Qed.

Lemma wp_try_share_internal_spin self w m (Q : Z * Z -> mem -> Prop) :
  words m !! self = Some w ->
  (forall wk, w < Lock.MAX_SHARED_OWNERS ->
     Q (Lock.ACQUIRED, 0)
       (set_weak wk (set_words (<[self := usize_add w 1]> (words m)) m))) ->
  (forall wk, w = Lock.POISONED_STATE -> Q (Lock.POISONED, w) (set_weak wk m)) ->
  (forall wk, Lock.MAX_SHARED_OWNERS <= w -> w <> Lock.POISONED_STATE ->
     Q (Lock.NOT_ACQUIRED, w) (set_weak wk m)) ->
  wp t (Lock.try_share_internal_spin self) m Q.
Proof.
  intros Hw H0 Hp Hn. apply wp_bind.
  eapply (wp_fetch_update _ _ _ _ _ _
    (if w <? Lock.MAX_SHARED_OWNERS then Some (usize_add w 1) else None)); [done| |].
  { intros wk Q' HQ'. by apply wp_ret. }
  intros wk. destruct (Z.ltb_spec w Lock.MAX_SHARED_OWNERS).
  - apply wp_ret. by apply H0.
  - destruct (decide (w = Lock.POISONED_STATE)) as [->|].
    + eapply (wp_spin_once _ _ (Lock.POISONED, Lock.POISONED_STATE)); [|done|by apply Hp].
      intros Q' HQ'. by eapply wp_try_share_internal.
    + apply wp_spin; [|by apply Hn]. intros Q' HQ'. eapply wp_try_share_internal; try done. lia.
Qed.

(** On a poisoned lock every attempt is settled at once; in the waiting modes
    as if the lock were free. *)
Lemma wp_pager_attempt_poisoned self mode m (Q : Z * Z -> mem -> Prop) :
  words m !! self = Some Lock.POISONED_STATE ->
  (forall wk, Q (if only_waits mode then Lock.ACQUIRED else Lock.POISONED, Lock.POISONED_STATE)
    (set_weak wk m)) ->
  wp t (pager_attempt self mode) m Q.
Proof.
  intros Hw HQ. assert (m = set_weak (weak m) m) as Hm by by destruct m.
  destruct mode; simpl in *.
  - eapply wp_try_lock_internal_spin; [done| |intros _|]; [done| |done]. rewrite Hm. apply HQ.
  - by eapply wp_try_share_internal_spin.
  - apply wp_bind. eapply wp_load; [done|]. apply wp_ret. rewrite Hm. apply HQ.
  - apply wp_bind. eapply wp_load; [done|]. apply wp_ret. rewrite Hm. apply HQ.
Qed.

(** ** Registering a pager *)

(** The attempt is settled, and its result delivered, or the entry is pushed. *)
Lemma wp_register_pager self p mode is_sync m (Q : bool -> mem -> Prop) :
  idle m p ->
  (forall m0 en, node m0 p en -> constructed self (Lock.mode_opcode mode) is_sync en ->
     elsewhere p m m0 ->
     wp t (pager_attempt self mode) m0 (fun x m1 =>
       if (x.1 =? Lock.ACQUIRED) || (x.1 =? Lock.POISONED)
       then node m1 p en /\ forall wk, Q true
              (set_weak wk (set_entries (<[wq_entry p := resolved x.1 en]> (entries m1)) m1))
       else wp t (try_push_wait_queue_entry self p x.2) m1 (fun b m2 => b = true /\ Q true m2))) ->
  wp t (Lock.register_pager self p mode is_sync) m Q.
Proof.
  intros Hidle HQ. apply wp_bind. eapply (wp_is_registered _ _ Unregistered).
  { destruct Hidle as [Hok [[Ha _]|(en & Hn & Hp & _)]]; split; eauto. right. by exists en. }
  apply wp_bind. eapply wp_construct_idle; [exact Hidle|]. intros m0 en Hn Hen Helse.
  apply wp_bind, wp_loop, wp_bind. eapply wp_mono; [by apply (HQ m0 en)|].
  intros [r w] m1 Hx. simpl in Hx. destruct ((r =? Lock.ACQUIRED) || (r =? Lock.POISONED)) eqn:Er.
  - destruct Hx as [Hn1 HQ']. destruct Hen as (_ & _ & Hs & _).
    apply wp_bind. eapply wp_entry; [exact Hn1|].
    apply wp_bind. eapply wp_set_result; [apply Hn1|by left| |].
    { apply orb_true_iff in Er as [Er|Er]; apply Z.eqb_eq in Er; by subst. }
    intros wk. apply wp_ret, wp_ret. unfold notify. rewrite Hs. apply HQ'.
  - apply wp_bind. eapply wp_mono; [exact Hx|]. intros b m2 [-> HQ']. by apply wp_ret, wp_ret.
Qed.

(** ** Releases *)

Lemma word_eqb_data a l d x :
  is_addr a -> is_data d -> is_data x ->
  (word a l d =? x) = ((a =? 0) && negb l && (d =? x)).
Proof.
  intros Ha Hd Hx. replace x with (word 0 false x) at 1 by (unfold word; lia).
  destruct (Z.eqb_spec (word a l d) (word 0 false x)) as [E|E].
  - apply word_inj in E as (-> & -> & ->); [|auto with saa..]. by rewrite !Z.eqb_refl.
  - repeat case_bool; destruct l; simpl; try done. by subst.
Qed.

Lemma wp_release_lock self d f os m (Q : bool -> mem -> Prop) :
  queue_at m self false d f os ->
  (d = DATA_MASK -> forall m', handed_over Lock self d Exclusive f os m m' -> Q true m') ->
  (d <> DATA_MASK -> Q false m) ->
  wp t (Lock.release_lock self) m Q.
Proof.
  intros Hq Hok Hno. pose proof (queue_at_is_addr _ _ _ _ _ _ Hq) as Ha.
  pose proof (q_data _ _ _ _ _ _ Hq) as Hd.
  apply wp_bind. apply (wp_compare_exchange _ _ _ _ _ _ _ (q_word _ _ _ _ _ _ Hq)).
  - intros E%Z.eqb_eq. rewrite word_eqb_data, (queue_at_addr_eqb _ _ _ _ _ _ Hq) in E by done.
    destruct f; [|done]. apply Z.eqb_eq in E. subst d. apply wp_ret, Hok; [done|].
    pose proof (q_asks _ _ _ _ _ _ Hq) as Hos. apply Forall2_nil_inv_l in Hos as ->.
    apply (processed_nil self 0).
  - intros _. destruct (decide (d = DATA_MASK)) as [E|E].
    + eapply (wp_release_loop t Lock); [done|done|done| |auto].
      simpl. by apply Z.eqb_eq.
    + apply wp_release_loop_refused; [|by apply Hno].
      rewrite can_release_releasable by done. simpl. by apply Z.eqb_neq.
Qed.

Lemma handed_over_set_weak wk S `{SyncPrimitive S} self d o f os m m' :
  handed_over S self d o f os (set_weak wk m) m' -> handed_over S self d o f os m m'.
Proof. intros [Pw Pa Pl Pf Pg Pr Po Pt Pk]. by split. Qed.

Lemma wp_release_share self d f os m (Q : bool -> mem -> Prop) :
  queue_at m self false d f os ->
  (1 <= d < DATA_MASK -> forall m', handed_over Lock self d Shared f os m m' -> Q true m') ->
  (d = 0 \/ d = DATA_MASK -> forall wk, Q false (set_weak wk m)) ->
  wp t (Lock.release_share self) m Q.
Proof.
  intros Hq Hok Hno. pose proof (queue_at_is_addr _ _ _ _ _ _ Hq) as Ha.
  pose proof (q_data _ _ _ _ _ _ Hq) as Hd. pose proof (q_word _ _ _ _ _ _ Hq) as Hw.
  set (w := word (first_anchor (reverse f)) false d) in *.
  apply wp_bind. eapply (wp_fetch_update _ _ _ _ w _
    (if negb (w =? 0) && (w <=? Lock.MAX_SHARED_OWNERS) then Some (usize_sub w 1) else None));
    [done| |].
  { intros wk Q' HQ'. by apply wp_ret. }
  intros wk. assert (queue_at (set_weak wk m) self false d f os) as Hq'
    by (eapply (queue_at_frame m); [exact Hq|done|intros ? ? ? Hn; exact Hn]).
  destruct (negb (w =? 0) && (w <=? Lock.MAX_SHARED_OWNERS)) eqn:E.
  - apply andb_true_iff in E as [E1 E2]. apply negb_true_iff, Z.eqb_neq in E1.
    apply Z.leb_le in E2. unfold w, word in E1, E2.
    change Lock.MAX_SHARED_OWNERS with 62 in E2.
    assert (f = []) as ->.
    { destruct (addr_div _ Ha) as (k & Ek & Hk). rewrite Ek in E2.
      assert ((first_anchor (reverse f) =? 0) = true) as E3
        by (apply Z.eqb_eq; unfold is_data in Hd; lia).
      rewrite (queue_at_addr_eqb _ _ _ _ _ _ Hq) in E3. by destruct f. }
    pose proof (q_asks _ _ _ _ _ _ Hq) as Hos. apply Forall2_nil_inv_l in Hos as ->.
    subst w. simpl in *. unfold word in *. simpl in *. unfold is_data in Hd. unfold_masks.
    apply wp_ret, Hok; [lia|]. apply (handed_over_set_weak wk).
    unfold handed_over, granted_data. simpl. rewrite Z.add_0_r.
    replace (usize_sub (0 + 0 + d) 1) with (word 0 false (d - 1)).
    + apply (processed_nil self (d - 1) (set_weak wk m)).
    + rewrite usize_sub_small by (unfold usize_modulus; lia). unfold word. lia.
  - clear E. destruct (decide (1 <= d < DATA_MASK)) as [Hr|Hr].
    + eapply (wp_release_loop t Lock); [done|exact Hq'|done| |].
      * simpl. apply andb_true_iff. split; [apply Z.leb_le; lia|].
        apply negb_true_iff, Z.eqb_neq. lia.
      * intros m' Hm'. apply Hok; [done|]. by eapply handed_over_set_weak.
    + unfold is_data in Hd. apply wp_release_loop_refused; [|apply Hno; lia].
      unfold w. rewrite can_release_releasable by done. simpl. unfold_masks.
      apply andb_false_iff. destruct (Z.leb_spec 1 d); [right|by left].
      apply negb_false_iff, Z.eqb_eq. lia.
Qed.

(** ** Poisoning *)

Lemma wp_poison_lock self d f os m :
  queue_at m self false d f os ->
  wp t (Lock.poison_lock self) m (fun poisoned m' =>
    poisoned = (d =? DATA_MASK) /\
    if poisoned
    then delivered Lock.POISONED (reverse f)
           (set_words (<[self := Lock.POISONED_STATE]> (words m)) m) m'
    else m' = m).
Proof.
  intros Hq. pose proof Hq as [Hw Hd Hl Hnd Ht Hwait Ha Hok].
  pose proof (queue_at_is_addr _ _ _ _ _ _ Hq) as Haddr.
  pose proof (queue_at_addr_eqb _ _ _ _ _ _ Hq) as Hne.
  apply wp_bind. apply (wp_compare_exchange _ _ _ _ _ _ _ Hw).
  { intros E%Z.eqb_eq. rewrite word_eqb_data, Hne in E by done. destruct f; [|done].
    apply Z.eqb_eq in E. subst d. apply wp_ret. split; [done|].
    exact (delivered_nil _ (set_words (<[self := Lock.POISONED_STATE]> (words m)) m) (weak m)). }
  intros Hw63. apply wp_loop. rewrite word_land_data, word_locked_bit by done.
  destruct (Z.eqb_spec d DATA_MASK) as [->|]; simpl.
  - assert ((word (first_anchor (reverse f)) false DATA_MASK =? Lock.POISONED_STATE) = false) as ->.
    { apply Z.eqb_neq. apply word_not_free; [done|done|by right]. }
    simpl. apply wp_bind, wp_compare_exchange_ok; [done|].
    apply wp_bind, wp_debug_assert; [by rewrite word_land_locked|].
    apply wp_bind.
    replace (set_words _ m)
      with (set_weak (weak m) (set_words (<[self := Lock.POISONED_STATE]> (words m)) m))
      by by destruct m.
    apply (wp_tell_everyone t _ _ _ _ _ _ _ _ (fun c : unit => tt) tt _ _ Hq); [done|].
    intros m' Hd'. by apply wp_ret.
  - rewrite orb_true_r. by apply wp_ret.
Qed.

End rules.
