(* ===== verification/LockSpec.v ===== *)
(** * The lock: correctness

    What releasing, waiting for, poisoning and cancelling promise, as theorems
    about the methods of [Lock.v]. *)

From S2P Require Import Prelude Prog Word Opcode Memory WaitQueue.
From S2P Require Import Geometry Results Queue SyncPrimitive Grant Enqueue Release Cancel Blocking Scenario PagerSpec LockFacts Crate Pager.
From S2P Require Lock.

(** ** Specifications *)

(** What a lock's queue can ask for. *)
Definition lock_request (o : Opcode) : bool :=
  match o with
  | Exclusive | Shared | Wait _ => true
  | _ => false
  end.

Definition is_exclusive (o : Opcode) : bool :=
  match o with Exclusive => true | _ => false end.

Definition is_shared_request (o : Opcode) : bool :=
  match o with Shared => true | _ => false end.

(** How many of the requests are for exclusive, and for shared ownership. *)
Definition exclusive_count (os : list Opcode) : Z := Z.of_nat (length (List.filter is_exclusive os)).
Definition shared_count (os : list Opcode) : Z := Z.of_nat (length (List.filter is_shared_request os)).

(** [d] is the data of a lock with [e] exclusive and [s] shared owners, and
    these are compatible. *)
Definition held (d e s : Z) : Prop :=
  (e = 0 /\ d = s /\ 0 <= s <= Lock.MAX_SHARED_OWNERS) \/ (e = 1 /\ s = 0 /\ d = DATA_MASK).

#[global] Instance held_dec d e s : Decision (held d e s).
Proof. unfold held. apply _. Defined.

(** ** Facts *)

Lemma held_step d e s o :
  lock_request o = true -> held d e s -> inheritable Lock.MAX_SHARED_OWNERS d o = true ->
  held (d + acquired_count o) (e + exclusive_count [o]) (s + shared_count [o]).
Proof.
  unfold held, inheritable, exclusive_count, shared_count.
  change Lock.MAX_SHARED_OWNERS with 62. unfold_masks. intros Ho Hh E.
  destruct o; try done; cbn in E |- *; unfold_masks;
    repeat case_bool; simpl in E; try done; lia.
Qed.

(** Granting keeps owners compatible. *)
Lemma grant_held os d e s :
  Forall (fun o => lock_request o = true) os -> held d e s ->
  let n := grant Lock.MAX_SHARED_OWNERS d os in
  held (granted_data Lock.MAX_SHARED_OWNERS d os)
    (e + exclusive_count (take n os)) (s + shared_count (take n os)).
Proof.
  unfold granted_data. intros Hr. revert d e s. induction Hr as [|o os Ho Hr IH]; intros d e s Hh.
  { cbn. by rewrite !Z.add_0_r. }
  simpl. destruct (inheritable Lock.MAX_SHARED_OWNERS d o) eqn:E; [|by rewrite !Z.add_0_r].
  cbn [take acquired_total foldr].
  assert (held (d + acquired_count o) (e + exclusive_count [o]) (s + shared_count [o])) as Hh'.
  { by apply held_step. }
  specialize (IH _ _ _ Hh'). cbn zeta in IH.
  set (l := take _ os) in *.
  replace (d + (acquired_count o + foldr (fun o acc => acquired_count o + acc) 0 l))
    with (d + acquired_count o + acquired_total l) by (unfold acquired_total; lia).
  replace (e + exclusive_count (o :: l)) with (e + exclusive_count [o] + exclusive_count l).
  - replace (s + shared_count (o :: l)) with (s + shared_count [o] + shared_count l); [done|].
    unfold shared_count. destruct o; cbn; lia.
  - unfold exclusive_count. destruct o; cbn; lia.
Qed.

Lemma lock_max : 0 <= max_shared_owners Lock <= DATA_MASK.
Proof. done. Qed.

#[export] Hint Resolve lock_max : saa.

(** What a woken thread of the queue of [self] is told. *)
Definition told (t : tid) (wq : Z) (x : Z * mem) (m : mem) : Prop :=
  m = x.2 /\ t ∈ tokens m /\ answered m wq x.1 /\
  (x.1 = Lock.ACQUIRED \/ x.1 = Lock.POISONED).

(** The memory once a thread that was [told] returned. *)
Definition back (t : tid) (wq : Z) (x : Z * mem) (b : bool) (m : mem) : Prop :=
  b = (x.1 =? Lock.ACQUIRED) /\ m = withdrawn wq (unparked t x.2).

Lemma queue_at_set_weak wk m self l d f os :
  queue_at m self l d f os -> queue_at (set_weak wk m) self l d f os.
Proof.
  intros Hq. eapply (queue_at_frame m); [exact Hq|done|]. intros ? ? ? Hn. exact Hn.
Qed.

Section blocking.
  Context (t : tid) `{DropCallbacks}.
  Implicit Types m : mem.

(** The loop of the blocking methods when the attempt fails. *)
Lemma blocks_acquire_sync attempt o self wq l d f os begin_wait m (W : mem -> Prop) :
  (forall Q : Z * Z -> mem -> Prop,
     (forall wk, Q (Lock.NOT_ACQUIRED, word (first_anchor (reverse f)) l d) (set_weak wk m)) ->
     wp t attempt m Q) ->
  queue_at m self l d f os -> wq_ok wq -> f <> [] \/ d <> 0 ->
  t ∉ tokens m -> quiet t begin_wait ->
  (forall wk, W (set_weak wk (enqueued Lock (asleep t) self wq l d f o m))) ->
  blocks t (Lock.acquire_sync_with attempt o self wq begin_wait) m W (told t wq) (back t wq).
Proof.
  intros Hatt Hq Hok Hne Ht Hquiet HW. unfold Lock.acquire_sync_with.
  set (after := fun (x : Z * mem) (r : unit + bool) m3 =>
    exists b, r = inr b /\ back t wq x b m3).
  apply blocks_loop with (Q1 := after).
  - apply blocks_bind_wp, Hatt. intros wk. simpl. apply blocks_bind_wp, wp_debug_assert; [done|].
    apply blocks_bind with (Q1 := fun x r m3 =>
      r = Ok x.1 /\ (x.1 = Lock.ACQUIRED \/ x.1 = Lock.POISONED) /\
      m3 = withdrawn wq (unparked t x.2)).
    + eapply blocks_wait_resources_sync; [by apply queue_at_set_weak|done..|apply HW|].
      intros x m2 (-> & H2 & H3 & H4). done.
    + intros x r m3 (-> & Hx & ->). apply wp_bind, wp_debug_assert.
      { by destruct Hx as [-> | ->]. }
      apply wp_ret. eexists. split; [done|]. done.
  - intros x r m3 (b & -> & Hb). by apply wp_ret.
Qed.

Lemma blocks_lock_sync self wq l d f os m (W : mem -> Prop) :
  queue_at m self l d f os -> wq_ok wq -> f <> [] \/ d <> 0 -> t ∉ tokens m ->
  (forall wk, W (set_weak wk (enqueued Lock (asleep t) self wq l d f Exclusive m))) ->
  blocks t (Lock.lock_sync self wq) m W (told t wq) (back t wq).
Proof.
  intros Hq Hok Hne Ht HW. destruct (queue_at_not_free _ _ _ _ _ _ Hq Hne).
  eapply blocks_acquire_sync; [|done..|by eauto with saa|done].
  intros Q HQ. eapply wp_try_lock_internal_spin; [apply Hq|done..|].
  intros _ _. specialize (HQ (weak m)). by destruct m.
Qed.

Lemma blocks_share_sync self wq l d f os m (W : mem -> Prop) :
  queue_at m self l d f os -> wq_ok wq ->
  f <> [] \/ Lock.MAX_SHARED_OWNERS <= d -> t ∉ tokens m ->
  (forall wk, W (set_weak wk (enqueued Lock (asleep t) self wq l d f Shared m))) ->
  blocks t (Lock.share_sync self wq) m W (told t wq) (back t wq).
Proof.
  intros Hq Hok Hne Ht HW. destruct (queue_at_not_shareable _ _ _ _ _ _ Hq Hne) as [Hne' Hge].
  destruct (queue_at_not_free _ _ _ _ _ _ Hq Hne') as [Hn0 Hnp].
  eapply blocks_acquire_sync; [|done..|by eauto with saa|done].
  intros Q HQ. eapply wp_try_share_internal_spin; [apply Hq|..|done]; [intros wk Hlt; lia|done].
Qed.

End blocking.

(** A thread asleep in the queue that is granted its request is woken with
    the result [ACQUIRED]. *)
Lemma processed_told t self f n d' wq en m m' :
  processed self f n d' m m' -> wq ∈ take n f -> node m wq (sleeping (asleep t) en) ->
  told t wq (Lock.ACQUIRED, m') m'.
Proof.
  intros Hp Hin Hn. destruct (p_granted _ _ _ _ _ _ Hp wq _ Hin Hn) as (en' & Hn' & Hc & Hk).
  split; [done|]. split; [by apply Hk|]. split; [|by left]. split; [|done].
  exists en'. split; [done|]. by apply (f_equal e_state) in Hc.
Qed.

(** The methods of a poisoned lock. *)
Lemma wp_poisoned t self wq cx begin_wait m :
  words m !! self = Some Lock.POISONED_STATE ->
  Forall (fun p => wp t p m (fun b m' => b = false /\ exists wk, m' = set_weak wk m))
    [Lock.try_lock self; Lock.try_share self; Lock.lock_sync self wq; Lock.share_sync self wq;
     Lock.lock_sync_with self wq begin_wait; Lock.share_sync_with self wq begin_wait;
     Lock.lock_async self wq cx; Lock.share_async self wq cx;
     Lock.lock_async_with self wq cx begin_wait; Lock.share_async_with self wq cx begin_wait;
     Lock.release_lock self; Lock.release_share self; Lock.poison_lock self;
     Lock.is_free self; Lock.is_locked self; Lock.is_shared self] /\
  wp t (Lock.is_poisoned self) m (fun b m' => b = true /\ m' = m) /\
  wp t (Lock.clear_poison self) m (fun b m' => b = true /\
    m' = set_words (<[self := Lock.new]> (words m)) m).
Proof.
  intros Hw. change Lock.POISONED_STATE with 64 in *.
  assert (exists wk, m = set_weak wk m) as Hm by (exists (weak m); by destruct m).
  assert (forall S `{SyncPrimitive S} o, can_release o 64 = false ->
    wp t (release_loop S self 64 o) m (fun b m' => b = false /\ exists wk, m' = set_weak wk m))
    as Hrel.
  { intros S ? o Ho. by apply wp_release_loop_refused. }
  assert (forall attempt o begin_wait,
    attempt = pager_attempt self Lock.MExclusive \/ attempt = pager_attempt self Lock.MShared ->
    wp t (Lock.acquire_sync_with attempt o self wq begin_wait) m
      (fun b m' => b = false /\ exists wk, m' = set_weak wk m) /\
    wp t (Lock.acquire_async_with attempt o self wq cx begin_wait) m
      (fun b m' => b = false /\ exists wk, m' = set_weak wk m)) as Hacq.
  { intros attempt o bw Ha. split; apply wp_loop, wp_bind;
      destruct Ha as [-> | ->]; (apply wp_pager_attempt_poisoned; [done|]); intros wk;
      apply wp_ret; (split; [done|]); by exists wk. }
  split; [|split].
  - repeat (apply list.Forall_cons; split); [..|done].
    + apply wp_bind. eapply wp_load; [done|]. apply wp_bind.
      eapply wp_try_lock_internal; [done| |intros _|]; [done| |done]. by apply wp_ret.
    + apply wp_bind. eapply wp_load; [done|]. apply wp_bind.
      eapply wp_try_share_internal; [done| |intros _|]; [done| |done]. by apply wp_ret.
    + apply Hacq. by left.
    + apply Hacq. by right.
    + apply Hacq. by left.
    + apply Hacq. by right.
    + apply Hacq. by left.
    + apply Hacq. by right.
    + apply Hacq. by left.
    + apply Hacq. by right.
    + apply wp_bind. eapply wp_compare_exchange_err; [done|done|]. by apply Hrel.
    + apply wp_bind. eapply (wp_fetch_update _ _ _ _ _ _ None); [done| |].
      { intros wk Q' HQ'. by apply wp_ret. }
      intros wk. apply wp_release_loop_refused; [done|]. split; [done|]. by exists wk.
    + apply wp_bind. eapply wp_compare_exchange_err; [done|done|]. apply wp_loop.
      by apply wp_ret.
    + apply wp_bind. eapply wp_load; [done|]. by apply wp_ret.
    + apply wp_bind. eapply wp_load; [done|]. by apply wp_ret.
    + apply wp_bind. eapply wp_load; [done|]. by apply wp_ret.
  - apply wp_bind. eapply wp_load; [done|]. by apply wp_ret.
  - apply wp_bind, wp_compare_exchange_ok; [done|]. by apply wp_ret.
Qed.

(** A pager that is registered with a poisoned lock, and polled. *)
Lemma wp_poisoned_pager t self p mode is_sync m :
  words m !! self = Some Lock.POISONED_STATE -> idle m p ->
  wp t (registered <- Lock.register_pager self p mode is_sync ;;
        result <- try_poll Lock p ;; Ret (registered, result)) m
    (fun x m' => x = (true, Ok (only_waits mode)) /\ words m' = words m).
Proof.
  intros Hw Hp. apply wp_bind, wp_register_pager; [done|].
  intros m0 en Hn (_ & _ & Hs & _ & Hm) (W & _).
  apply wp_pager_attempt_poisoned; [by rewrite W|]. intros wk. set (r := if only_waits mode then _ else _).
  assert (is_u8 r /\ (r = Lock.ACQUIRED \/ r = Lock.POISONED) /\ (r =? Lock.ACQUIRED) = only_waits mode)
    as (Hr & Hx & Er).
  { unfold r. destruct (only_waits mode); (split; [done|]); (split; [auto|done]). }
  cbn [fst]. assert ((r =? Lock.ACQUIRED) || (r =? Lock.POISONED) = true) as -> by by destruct Hx as [-> | ->].
  split; [exact Hn|]. intros wk'. apply wp_bind. eapply (wp_try_poll_ready t Lock p is_sync r).
  - split; [|done]. exists (resolved r en). split.
    + eapply node_transfer; [exact Hn|done|apply lookup_insert_eq|]. unfold resolved. by case_bool.
    + unfold resolved, monitor_is. rewrite Hs. simpl. rewrite Hm. split; [done|].
      split; [by destruct is_sync|]. exists 0. split; [by left|done].
  - exact Hx.
  - intros m' W' _. apply wp_ret. split; [|by rewrite W'; simpl; rewrite W]. simpl. by rewrite Er.
Qed.

(** The methods that do not wait. *)
Lemma wp_try_queue_at t self l d f os m :
  queue_at m self l d f os ->
  wp t (Lock.try_lock self) m (fun b m' =>
    b = bool_decide (f = [] /\ l = false /\ d = 0) /\
    if b then queue_at m' self false DATA_MASK [] [] else m' = m) /\
  wp t (Lock.try_share self) m (fun b m' =>
    b = bool_decide (f = [] /\ l = false /\ d < Lock.MAX_SHARED_OWNERS) /\
    if b then queue_at m' self false (d + 1) [] [] else m' = m).
Proof.
  intros Hq. pose proof Hq as [Hw Hd Hl Hnd Ht Hwait Ha Hok].
  pose proof (queue_at_is_addr _ _ _ _ _ _ Hq) as Haddr.
  pose proof (queue_at_addr_eqb _ _ _ _ _ _ Hq) as Hne.
  pose proof (word_range _ l d Haddr Hd) as Hrange.
  destruct (addr_div _ Haddr) as (k & Ek & Hk).
  assert (f = [] -> first_anchor (reverse f) = 0) as Hf by (by intros ->).
  assert (k = 0 -> f = []) as Hf'.
  { intros ->. rewrite Ek in Hne. by destruct f. }
  unfold word, is_data, is_usize in *. rewrite Ek in *. unfold_masks.
  assert (forall d', is_data d' -> queue_at
    (set_words (<[self := d']> (words m)) m) self false d' [] []) as Hq'.
  { intros d' Hd'. split; try done; [|constructor]. apply lookup_insert_eq. }
  split; apply wp_bind; (eapply wp_load; [done|]); apply wp_bind.
  - eapply wp_try_lock_internal; [done|..]; change Lock.POISONED_STATE with 64.
    + intros E. apply wp_ret. rewrite bool_decide_eq_true_2.
      * split; [done|]. by apply (Hq' 63).
      * destruct l; [lia|]. split; [apply Hf'; lia|]. split; [done|lia].
    + intros E. apply wp_ret. rewrite bool_decide_eq_false_2; [done|].
      intros (H1 & -> & ->). apply Hf in H1. lia.
    + intros E1 E2. apply wp_ret. rewrite bool_decide_eq_false_2; [done|].
      intros (H1 & -> & ->). apply Hf in H1. lia.
  - eapply wp_try_share_internal; [done|..]; change Lock.POISONED_STATE with 64;
      change Lock.MAX_SHARED_OWNERS with 62.
    + intros E. apply wp_ret. destruct l; [lia|].
      assert (k = 0) as -> by lia.
      rewrite bool_decide_eq_true_2 by (split; [by apply Hf'|split; [done|lia]]).
      split; [done|]. rewrite usize_add_small by (unfold usize_modulus; lia).
      apply (Hq' (128 * 0 + 0 + d + 1)). unfold is_data. unfold_masks. lia.
    + intros E. apply wp_ret. rewrite bool_decide_eq_false_2; [done|].
      intros (H1 & -> & ?). apply Hf in H1. lia.
    + intros E1 E2. apply wp_ret. rewrite bool_decide_eq_false_2; [done|].
      intros (H1 & -> & ?). apply Hf in H1. lia.
Qed.

(** ** Theorems *)

(** C2. [release_lock] succeeds exactly when the lock is held exclusively.  It
    then hands the ownership over: the longest prefix of the waiting queue
    whose requests are compatible, oldest first, becomes the owner, is given
    the result [ACQUIRED] and woken, and the rest stays queued in order.
    Otherwise nothing changes. *)
Theorem release_lock_spec t self d f os m :
  queue_at m self false d f os ->
  wp t (Lock.release_lock self) m (fun released m' =>
    released = (d =? DATA_MASK) /\
    if released
    then granted_prefix self (granted_data Lock.MAX_SHARED_OWNERS 0 os)
           (grant Lock.MAX_SHARED_OWNERS 0 os) f os m m'
    else m' = m).
Proof.
  intros Hq. apply (wp_release_lock t self d f os); [done|..].
  - intros -> m' Hh. split; [done|].
    by apply (handed_over_queue Lock self DATA_MASK Exclusive).
  - intros E. split; [|done]. symmetry. by apply Z.eqb_neq.
Qed.

Lemma release_lock_spec_witness :
  queue_at (three_waiters Lock 63 Exclusive Shared Shared) primitive false 63
    [wq1; wq2; wq3] [Exclusive; Shared; Shared] /\
  wp 0%nat (Lock.release_lock primitive) (three_waiters Lock 63 Exclusive Shared Shared)
    (fun released m' => released = true /\
       if released
       then granted_prefix primitive 63 1 [wq1; wq2; wq3] [Exclusive; Shared; Shared]
              (three_waiters Lock 63 Exclusive Shared Shared) m'
       else m' = three_waiters Lock 63 Exclusive Shared Shared).
Proof.
  assert (queue_at (three_waiters Lock 63 Exclusive Shared Shared) primitive false 63
    [wq1; wq2; wq3] [Exclusive; Shared; Shared]) as Hq by by_evaluation.
  split; [exact Hq|]. exact (release_lock_spec 0%nat primitive 63 _ _ _ Hq).
Defined.

(** C22. [release_share] succeeds exactly when the lock has shared owners, and
    then gives one of the shares back and grants the waiting requests that
    fit with the remaining shares. *)
Theorem release_share_spec t self d f os m :
  queue_at m self false d f os ->
  wp t (Lock.release_share self) m (fun released m' =>
    released = negb (d =? 0) && negb (d =? DATA_MASK) /\
    if released
    then granted_prefix self (granted_data Lock.MAX_SHARED_OWNERS (d - 1) os)
           (grant Lock.MAX_SHARED_OWNERS (d - 1) os) f os m m'
    else exists wk, m' = set_weak wk m).
Proof.
  intros Hq. pose proof (q_data _ _ _ _ _ _ Hq) as Hd. unfold is_data in Hd.
  apply (wp_release_share t self d f os); [done|..].
  - intros Hr m' Hh. assert (negb (d =? 0) && negb (d =? DATA_MASK) = true) as ->.
    { apply andb_true_iff. split; apply negb_true_iff, Z.eqb_neq; lia. }
    split; [done|]. apply (handed_over_queue Lock self d Shared); [done..| |done].
    simpl. apply andb_true_iff. split; [apply Z.leb_le; lia|].
    apply negb_true_iff, Z.eqb_neq. lia.
  - intros E wk. assert (negb (d =? 0) && negb (d =? DATA_MASK) = false) as ->.
    { destruct E as [-> | ->]; done. }
    split; [done|]. by exists wk.
Qed.

Lemma release_share_spec_witness :
  queue_at (three_waiters Lock 2 (Wait 63) Exclusive Shared) primitive false 2
    [wq1; wq2; wq3] [Wait 63; Exclusive; Shared] /\
  wp 0%nat (Lock.release_share primitive) (three_waiters Lock 2 (Wait 63) Exclusive Shared)
    (fun released m' => released = true /\
       if released
       then granted_prefix primitive 1 0 [wq1; wq2; wq3] [Wait 63; Exclusive; Shared]
              (three_waiters Lock 2 (Wait 63) Exclusive Shared) m'
       else exists wk, m' = set_weak wk (three_waiters Lock 2 (Wait 63) Exclusive Shared)).
Proof.
  assert (queue_at (three_waiters Lock 2 (Wait 63) Exclusive Shared) primitive false 2
    [wq1; wq2; wq3] [Wait 63; Exclusive; Shared]) as Hq by by_evaluation.
  split; [exact Hq|]. exact (release_share_spec 0%nat primitive 2 _ _ _ Hq).
Defined.

(** C3. Handing over never breaks mutual exclusion: when the owners before the
    release are one exclusive owner, or [s] shared owners, the owners
    afterwards (those that remain and those granted) are again at most one
    exclusive owner and no shared one, or at most [MAX_SHARED_OWNERS] shared
    owners, and the state word counts exactly them. *)
Theorem release_excludes t self f os m (e : bool) s :
  Forall (fun o => lock_request o = true) os ->
  queue_at m self false (if e then DATA_MASK else s) f os ->
  (if e then s = 0 else 1 <= s <= Lock.MAX_SHARED_OWNERS) ->
  wp t (if e then Lock.release_lock self else Lock.release_share self) m (fun released m' =>
    exists d' n, released = true /\ granted_prefix self d' n f os m m' /\
      held d' (exclusive_count (take n os))
        ((if e then 0 else s - 1) + shared_count (take n os))).
Proof.
  intros Hr Hq Hs. destruct e.
  - apply (wp_release_lock t self DATA_MASK f os); [done| |done].
    intros _ m' Hh. exists (granted_data Lock.MAX_SHARED_OWNERS 0 os), (grant Lock.MAX_SHARED_OWNERS 0 os).
    split; [done|]. split; [by apply (handed_over_queue Lock self DATA_MASK Exclusive)|].
    rewrite <- (Z.add_0_l (exclusive_count _)). apply grant_held; [done|]. left. done.
  - assert (1 <= s < DATA_MASK) as Hs'.
    { change Lock.MAX_SHARED_OWNERS with 62 in Hs. unfold_masks. lia. }
    apply (wp_release_share t self s f os); [done| |lia].
    intros _ m' Hh.
    exists (granted_data Lock.MAX_SHARED_OWNERS (s - 1) os), (grant Lock.MAX_SHARED_OWNERS (s - 1) os).
    split; [done|]. split.
    + apply (handed_over_queue Lock self s Shared); [done..| |done]. simpl.
      apply andb_true_iff. split; [apply Z.leb_le; lia|]. apply negb_true_iff, Z.eqb_neq. lia.
    + rewrite <- (Z.add_0_l (exclusive_count _)). apply grant_held; [done|]. left. lia.
Qed.

Lemma release_excludes_witness :
  queue_at (three_waiters Lock 63 Shared Shared Exclusive) primitive false 63
    [wq1; wq2; wq3] [Shared; Shared; Exclusive] /\
  wp 0%nat (Lock.release_lock primitive) (three_waiters Lock 63 Shared Shared Exclusive)
    (fun released m' => exists d' n, released = true /\
       granted_prefix primitive d' n [wq1; wq2; wq3] [Shared; Shared; Exclusive]
         (three_waiters Lock 63 Shared Shared Exclusive) m' /\
       held d' (exclusive_count (take n [Shared; Shared; Exclusive]))
         (0 + shared_count (take n [Shared; Shared; Exclusive]))).
Proof.
  assert (queue_at (three_waiters Lock 63 Shared Shared Exclusive) primitive false 63
    [wq1; wq2; wq3] [Shared; Shared; Exclusive]) as Hq by by_evaluation.
  split; [exact Hq|]. apply (release_excludes 0%nat primitive _ _ _ true 0); [|exact Hq|reflexivity].
  by repeat constructor.
Defined.

(** C11. No wake-up is lost: whatever a release leaves in the queue has to wait,
    because the oldest request left is not compatible with the owners the
    release leaves behind; in particular the lock is then held. *)
Theorem release_loses_no_wakeup t self d f os m :
  queue_at m self false d f os -> 1 <= d <= DATA_MASK ->
  wp t (if d =? DATA_MASK then Lock.release_lock self else Lock.release_share self) m
    (fun released m' => exists d' n, released = true /\ queue_at m' self false d' (drop n f) (drop n os) /\
       match drop n os with
       | [] => True
       | o :: _ => d' <> 0 /\ Lock.MAX_SHARED_OWNERS < d' + desired_count o
       end).
Proof.
  intros Hq Hd.
  assert (forall o m', opcode_ok o = true -> releasable o d = true ->
    handed_over Lock self d o f os m m' -> exists d' n,
      queue_at m' self false d' (drop n f) (drop n os) /\
      match drop n os with
      | [] => True
      | o :: _ => d' <> 0 /\ Lock.MAX_SHARED_OWNERS < d' + desired_count o
      end) as Hgen.
  { intros o m' Ho Hr Hh. apply (handed_over_queue _ _ _ _ _ _ _ _ lock_max Hq Ho Hr) in Hh as [_ Hq'].
    eexists _, _. split; [exact Hq'|].
    destruct (drop _ os) as [|o1 os1] eqn:E; [done|]. apply grant_stops in E.
    unfold inheritable in E. change (max_shared_owners Lock) with Lock.MAX_SHARED_OWNERS in *.
    apply orb_false_iff in E as [E1 E2]. apply Z.eqb_neq in E1. by apply Z.leb_gt in E2. }
  case_bool.
  - apply (wp_release_lock t self d f os); [done| |done]. intros _ m' Hh.
    destruct (Hgen Exclusive m') as (d' & k & ? & ?); [done|by apply Z.eqb_eq|done|]. eauto.
  - apply (wp_release_share t self d f os); [done| |lia]. intros Hr m' Hh.
    destruct (Hgen Shared m') as (d' & k & ? & ?); [done| |done|eauto].
    simpl. apply andb_true_iff. split; [apply Z.leb_le; lia|]. apply negb_true_iff, Z.eqb_neq. lia.
Qed.

Lemma release_loses_no_wakeup_witness :
  queue_at (three_waiters Lock 63 Shared Exclusive Shared) primitive false 63
    [wq1; wq2; wq3] [Shared; Exclusive; Shared] /\
  wp 0%nat (Lock.release_lock primitive) (three_waiters Lock 63 Shared Exclusive Shared)
    (fun released m' => exists d' n, released = true /\
       queue_at m' primitive false d' (drop n [wq1; wq2; wq3])
         (drop n [Shared; Exclusive; Shared]) /\
       match drop n [Shared; Exclusive; Shared] with
       | [] => True
       | o :: _ => d' <> 0 /\ Lock.MAX_SHARED_OWNERS < d' + desired_count o
       end).
Proof.
  assert (queue_at (three_waiters Lock 63 Shared Exclusive Shared) primitive false 63
    [wq1; wq2; wq3] [Shared; Exclusive; Shared]) as Hq by by_evaluation.
  split; [exact Hq|]. apply (release_loses_no_wakeup 0%nat primitive 63 _ _ _ Hq). done.
Defined.

(** A thread that finds the lock taken joins the queue as its newest
    element, with a request for exclusive ownership, and sleeps; once it is
    told a result it takes its wait queue down and returns whether the lock was
    acquired ([false] says that the lock was poisoned meanwhile). *)
Theorem lock_sync_joins_queue t self wq l d f os m :
  queue_at m self l d f os -> vacant m wq -> f <> [] \/ d <> 0 -> t ∉ tokens m ->
  blocks t (Lock.lock_sync self wq) m
    (fun m' => queue_at m' self l d (f ++ [wq]) (os ++ [Exclusive]) /\
       tokens m' = tokens m /\
       (forall wq' en, node m wq' en -> node m' wq' en) /\
       entry_is m' (fun en => e_state en = WAKER_SET /\ e_monitor en = Sync (Some t)) wq)
    (told t wq) (back t wq).
Proof.
  intros Hq Hv Hne Ht. pose proof Hv as (Hok & _).
  eapply blocks_lock_sync; [done..|]. intros wk.
  split; [by apply queue_at_set_weak, enqueued_queue_at|]. split; [done|]. split.
  - intros wq' en Hn. apply (node_set_weak wk). apply with_node_frame; [|by apply node_set_words].
    destruct Hv as (? & ? & ?). by split.
  - eexists. split; [apply node_set_weak, enqueued_node; done|]. done.
Qed.

Lemma lock_sync_joins_queue_witness :
  blocks 7%nat (Lock.lock_sync primitive wq4) (three_waiters Lock 2 Exclusive Shared Shared)
    (fun m' => queue_at m' primitive false 2 [wq1; wq2; wq3; wq4]
         [Exclusive; Shared; Shared; Exclusive] /\ tokens m' = ∅ /\
       (forall wq' en, node (three_waiters Lock 2 Exclusive Shared Shared) wq' en ->
          node m' wq' en) /\
       entry_is m' (fun en => e_state en = WAKER_SET /\ e_monitor en = Sync (Some 7%nat)) wq4)
    (told 7%nat wq4) (back 7%nat wq4).
Proof.
  apply (lock_sync_joins_queue 7%nat primitive wq4 false 2 [wq1; wq2; wq3]
           [Exclusive; Shared; Shared]).
  - by_evaluation.
  - by_evaluation.
  - by left.
  - by_evaluation.
Defined.

(** The lock is handed over to a sleeping thread: [lock_sync] on a lock
    another thread owns goes to sleep; when the owner releases the lock, the
    sleeping thread, resumed, returns [true]; it then owns the lock, and
    nothing of its wait queue remains. *)
Theorem lock_handoff t u self wq m :
  words m !! self = Some DATA_MASK -> vacant m wq -> t ∉ tokens m ->
  wpr t (Lock.lock_sync self wq) m (fun r =>
    match r with
    | Waits sleeping_thread m1 =>
        wp u (Lock.release_lock self) m1 (fun released m2 => released = true /\
          wp t sleeping_thread m2 (fun acquired m3 => acquired = true /\
            words m3 = words m /\ anchors m3 = anchors m /\ entries m3 = entries m))
    | _ => False
    end).
Proof.
  intros Hw Hv Ht. pose proof Hv as (Hok & _).
  assert (queue_at m self false DATA_MASK [] []) as Hq by (split; done || constructor).
  eapply wpr_mono.
  { apply (blocks_lock_sync t self wq false DATA_MASK [] [] m (fun m1 =>
      exists wk, m1 = set_weak wk (enqueued Lock (asleep t) self wq false DATA_MASK [] Exclusive m)));
      [done|done|by right|done|]. intros wk. by exists wk. }
  intros [|p m1| |]; try done. intros [(wk & ->) Hres].
  assert (queue_at (set_weak wk (enqueued Lock (asleep t) self wq false DATA_MASK [] Exclusive m))
    self false DATA_MASK [wq] [Exclusive]) as Hq1.
  { apply queue_at_set_weak, (enqueued_queue_at _ _ _ _ _ _ [] []); done. }
  eapply wp_release_lock; [exact Hq1| |done].
  intros _ m2 Hh. split; [done|].
  assert (processed self [wq] 1 DATA_MASK (enqueued Lock (asleep t) self wq false DATA_MASK [] Exclusive m) m2)
    as Hp by (destruct Hh; by split).
  assert (told t wq (Lock.ACQUIRED, m2) m2) as Htold.
  { eapply processed_told; [exact Hp|set_solver|]. by apply enqueued_node. }
  eapply wp_mono; [apply (Hres (Lock.ACQUIRED, m2)), Htold|].
  intros b m3 (-> & ->). split; [done|].
  destruct (enqueued_processed _ _ _ _ _ _ _ _ _ _ _ Hv Hp) as (E1 & E2 & E3).
  split; [|done]. simpl. rewrite E1. by apply insert_id.
Qed.

Lemma lock_handoff_witness :
  wpr 1%nat (Lock.lock_sync primitive wq2) (nobody_waits 63) (fun r =>
    match r with
    | Waits sleeping_thread m1 =>
        wp 2%nat (Lock.release_lock primitive) m1 (fun released m2 => released = true /\
          wp 1%nat sleeping_thread m2 (fun acquired m3 => acquired = true /\
            words m3 = {[primitive := 63]} /\ anchors m3 = ∅ /\ entries m3 = ∅))
    | _ => False
    end).
Proof.
  apply (lock_handoff 1%nat 2%nat primitive wq2 (nobody_waits 63));
    [reflexivity|by_evaluation|by_evaluation].
Defined.

(** C14. [poison_lock] succeeds exactly when the lock is held exclusively.  It
    then empties the queue: every waiting entry is given the result
    [POISONED] and its thread is woken, and the lock is poisoned. *)
Theorem poison_lock_spec t self d f os m :
  queue_at m self false d f os ->
  wp t (Lock.poison_lock self) m (fun poisoned m' =>
    poisoned = (d =? DATA_MASK) /\
    if poisoned
    then delivered Lock.POISONED (reverse f)
           (set_words (<[self := Lock.POISONED_STATE]> (words m)) m) m'
    else m' = m).
Proof. apply wp_poison_lock. Qed.

Lemma poison_lock_spec_witness :
  queue_at (three_waiters Lock 63 Exclusive Shared (Wait 1)) primitive false 63
    [wq1; wq2; wq3] [Exclusive; Shared; Wait 1] /\
  wp 0%nat (Lock.poison_lock primitive) (three_waiters Lock 63 Exclusive Shared (Wait 1))
    (fun poisoned m' => poisoned = true /\
       if poisoned
       then delivered 2 [wq3; wq2; wq1]
              (set_words {[primitive := 64]} (three_waiters Lock 63 Exclusive Shared (Wait 1))) m'
       else m' = three_waiters Lock 63 Exclusive Shared (Wait 1)).
Proof.
  assert (queue_at (three_waiters Lock 63 Exclusive Shared (Wait 1)) primitive false 63
    [wq1; wq2; wq3] [Exclusive; Shared; Wait 1]) as Hq by by_evaluation.
  split; [exact Hq|]. exact (poison_lock_spec 0%nat primitive 63 _ _ _ Hq).
Defined.

(** C10. Giving up: dropping the wait queue of a thread or task that still waits
    for the lock (a future that is dropped, a pager that is dropped) unlinks
    its entry wherever it is in the queue; the other requests stay queued in
    order, except that those that had to wait only because of the dropped one
    are granted. *)
Theorem drop_waiting_lock t self d f1 wq f2 os1 o os2 en m :
  queue_at m self false d (f1 ++ wq :: f2) (os1 ++ o :: os2) -> length os1 = length f1 ->
  node m wq en -> e_addr en = self -> e_drop_callback en = Lock -> e_pollable en = true ->
  wp t (wait_queue_drop wq) m (fun _ m' =>
    dropped Lock self d wq (f1 ++ f2) (os1 ++ os2) m m').
Proof.
  intros Hq Hlen Hn Hself Hcb Hp.
  eapply (wp_wait_queue_drop_waiting t Lock); [done..|]. intros m' Hc.
  by eapply cancelled_dropped.
Qed.

Lemma drop_waiting_lock_witness :
  queue_at (three_waiters Lock 1 Exclusive Shared Shared) primitive false 1
    [wq1; wq2; wq3] [Exclusive; Shared; Shared] /\
  wp 9%nat (wait_queue_drop wq1) (three_waiters Lock 1 Exclusive Shared Shared)
    (fun _ m' => dropped Lock primitive 1 wq1 [wq2; wq3] [Shared; Shared]
       (three_waiters Lock 1 Exclusive Shared Shared) m').
Proof.
  assert (queue_at (three_waiters Lock 1 Exclusive Shared Shared) primitive false 1
    [wq1; wq2; wq3] [Exclusive; Shared; Shared]) as Hq by by_evaluation.
  split; [exact Hq|].
  apply (drop_waiting_lock 9%nat primitive 1 [] wq1 [wq2; wq3] [] Exclusive [Shared; Shared]
    (waiter Lock wq1 [] Exclusive 1%nat)); [exact Hq|reflexivity|by_evaluation|reflexivity..].
Defined.

(** C30. A poisoned lock refuses everything but [clear_poison], which makes it
    free: every other method returns [false] (but [is_poisoned]) and leaves the
    lock and its queue as they are, the blocking and the asynchronous methods
    at once, without calling [begin_wait].  A pager can be registered; its
    result is there at once, [Ok(false)] in the modes that acquire, but
    [Ok(true)] in the waiting modes, though the lock is not free. *)
Theorem poisoned_lock_refuses t self wq cx begin_wait mode is_sync m :
  words m !! self = Some Lock.POISONED_STATE ->
  Forall (fun p => wp t p m (fun b m' => b = false /\ exists wk, m' = set_weak wk m))
    [Lock.try_lock self; Lock.try_share self; Lock.lock_sync self wq; Lock.share_sync self wq;
     Lock.lock_sync_with self wq begin_wait; Lock.share_sync_with self wq begin_wait;
     Lock.lock_async self wq cx; Lock.share_async self wq cx;
     Lock.lock_async_with self wq cx begin_wait; Lock.share_async_with self wq cx begin_wait;
     Lock.release_lock self; Lock.release_share self; Lock.poison_lock self;
     Lock.is_free self; Lock.is_locked self; Lock.is_shared self] /\
  wp t (Lock.is_poisoned self) m (fun b m' => b = true /\ m' = m) /\
  wp t (Lock.clear_poison self) m (fun b m' => b = true /\
    m' = set_words (<[self := Lock.new]> (words m)) m) /\
  (idle m wq ->
   wp t (registered <- Lock.register_pager self wq mode is_sync ;;
         result <- try_poll Lock wq ;; Ret (registered, result)) m
     (fun x m' => x = (true, Ok (only_waits mode)) /\ words m' = words m)).
Proof.
  intros Hw. destruct (wp_poisoned t self wq cx begin_wait m Hw) as (? & ? & ?).
  repeat (split; [done|]). intros Hp. by apply wp_poisoned_pager.
Qed.

(** A new pager, and a poisoned lock. *)
Definition poisoned_and_pager : mem :=
  set_anchors {[anchor_addr wq1 := 0]} (nobody_waits 64).

Lemma poisoned_lock_refuses_witness :
  wp 0%nat (Lock.share_sync_with primitive wq2 (Act (fun _ _ => Failed AssertionFailed)))
    poisoned_and_pager (fun b m' => b = false /\ exists wk, m' = set_weak wk poisoned_and_pager) /\
  wp 0%nat (Lock.lock_async primitive wq2 7%nat)
    poisoned_and_pager (fun b m' => b = false /\ exists wk, m' = set_weak wk poisoned_and_pager) /\
  wp 0%nat (Lock.clear_poison primitive) poisoned_and_pager (fun b m' => b = true /\
    m' = set_words (<[primitive := Lock.new]> (words poisoned_and_pager)) poisoned_and_pager) /\
  wp 0%nat (registered <- Lock.register_pager primitive wq1 Lock.MShared false ;;
            result <- try_poll Lock wq1 ;; Ret (registered, result)) poisoned_and_pager
    (fun x m' => x = (true, Ok false) /\ words m' = words poisoned_and_pager).
Proof.
  destruct (poisoned_lock_refuses 0%nat primitive wq2 7%nat (Act (fun _ _ => Failed AssertionFailed))
    Lock.MShared false poisoned_and_pager eq_refl) as (Hall & _ & Hclear & _).
  destruct (poisoned_lock_refuses 0%nat primitive wq1 7%nat (Ret tt)
    Lock.MShared false poisoned_and_pager eq_refl) as (_ & _ & _ & Hpager).
  rewrite !list.Forall_cons in Hall. split; [apply Hall|]. split; [apply Hall|]. split; [exact Hclear|].
  apply Hpager. by_evaluation.
Defined.

(** C24. The non-blocking methods never overtake waiting threads and never
    admit an owner that is not compatible: [try_lock] succeeds only on a free
    lock nobody waits for, [try_share] only when nobody waits and there are
    fewer than [MAX_SHARED_OWNERS] shared owners; otherwise nothing changes. *)
Theorem try_never_overtakes t self l d f os m :
  queue_at m self l d f os ->
  wp t (Lock.try_lock self) m (fun b m' =>
    b = bool_decide (f = [] /\ l = false /\ d = 0) /\
    if b then queue_at m' self false DATA_MASK [] [] else m' = m) /\
  wp t (Lock.try_share self) m (fun b m' =>
    b = bool_decide (f = [] /\ l = false /\ d < Lock.MAX_SHARED_OWNERS) /\
    if b then queue_at m' self false (d + 1) [] [] else m' = m).
Proof. apply wp_try_queue_at. Qed.

Lemma try_never_overtakes_witness :
  queue_at (three_waiters Lock 0 Exclusive Shared Shared) primitive false 0
    [wq1; wq2; wq3] [Exclusive; Shared; Shared] /\
  wp 0%nat (Lock.try_lock primitive) (three_waiters Lock 0 Exclusive Shared Shared)
    (fun b m' => b = false /\
       if b then queue_at m' primitive false 63 [] []
       else m' = three_waiters Lock 0 Exclusive Shared Shared) /\
  wp 0%nat (Lock.try_share primitive) (three_waiters Lock 0 Exclusive Shared Shared)
    (fun b m' => b = false /\
       if b then queue_at m' primitive false 1 [] []
       else m' = three_waiters Lock 0 Exclusive Shared Shared).
Proof.
  assert (queue_at (three_waiters Lock 0 Exclusive Shared Shared) primitive false 0
    [wq1; wq2; wq3] [Exclusive; Shared; Shared]) as Hq by by_evaluation.
  split; [exact Hq|]. exact (try_never_overtakes 0%nat primitive false 0 _ _ _ Hq).
Defined.
