(* ===== verification/Marking.v ===== *)
(** * Setting back pointers: an equivalence

    [set_prev_ptr] of [src/wait_queue.rs] sets the back pointers of a queue
    and stops at the first one that is set already, because then all older
    ones are.  It is shown to leave exactly the memory that a pass over the
    whole queue leaves. *)

From S2P Require Import Prelude Prog Word Opcode Memory WaitQueue.
From S2P Require Import Geometry Results Queue Scenario.

(** The reference: every back pointer is written. *)
Definition set_every_prev_ptr (tail_entry_ptr : Z) : program unit :=
  iter_forward tail_entry_ptr true (fun _ _ c => Ret (c, false)) tt.

(** Back pointers are set from the oldest entry of [l], newest first, up to
    some entry, and null beyond; all are set if [all]. *)
Fixpoint backed (all : bool) (m : mem) (l : list Z) : Prop :=
  match l with
  | [] => True
  | w :: l' =>
      match l' with
      | [] => True
      | n :: _ =>
          exists en, node m n en /\
            ((all = false /\ e_prev_entry_ptr en = 0 /\ backed false m l') \/
             (e_prev_entry_ptr en = wq_entry w /\ backed true m l'))
      end
  end.

(** The memory once all back pointers of [l] are written. *)
Fixpoint with_prev_ptrs (m : mem) (l : list Z) : mem :=
  match l with
  | [] => m
  | w :: l' =>
      match l' with
      | [] => m
      | n :: _ =>
          with_prev_ptrs
            (set_entries (alter (set_prev (wq_entry w)) (wq_entry n) (entries m)) m) l'
      end
  end.

(** ** Facts *)

Lemma alter_prev m w n en :
  node m n en ->
  set_entries (alter (set_prev w) (wq_entry n) (entries m)) m =
  set_entries (<[wq_entry n := set_prev w en]> (entries m)) m.
Proof.
  intros (_ & _ & He & _). f_equal. apply map_eq. intros e.
  destruct (decide (e = wq_entry n)) as [->|Hne].
  - by rewrite lookup_alter_eq, lookup_insert_eq, He.
  - by rewrite lookup_alter_ne, lookup_insert_ne.
Qed.

(** Writing the back pointer of an entry concerns nobody else. *)
Lemma linked_marked_prev m l n en p :
  linked m l -> node m n en -> linked (set_entries (<[wq_entry n := set_prev p en]> (entries m)) m) l.
Proof.
  intros Hl Hn. eapply linked_transfer; [done|done|]. intros wq en' _ Hn'. simpl.
  destruct (decide (wq = n)) as [->|Hne].
  - rewrite lookup_insert_eq. eexists. split; [done|]. by rewrite (node_fun m n en' en).
  - rewrite lookup_insert_ne; [by exists en'; split; [apply Hn'|]|].
    intros E. apply Hne. symmetry. by eapply node_inj.
Qed.

Lemma backed_set_prev b m w l n en p :
  n ∉ l -> node m n en -> backed b m (w :: l) ->
  backed b (set_entries (<[wq_entry n := set_prev p en]> (entries m)) m) (w :: l).
Proof.
  intros Hni Hn. revert b w. induction l as [|y l IH]; intros b w Hb; [done|].
  apply not_elem_of_cons in Hni as [Hny Hni]. destruct Hb as (eny & Hy & Hcase). exists eny.
  split; [by eapply node_insert_ne|].
  destruct Hcase as [(? & ? & ?)|[? ?]]; [left|right]; auto.
Qed.

(** Where all back pointers are set, writing them changes nothing. *)
Lemma with_prev_ptrs_backed m l : backed true m l -> with_prev_ptrs m l = m.
Proof.
  induction l as [|w [|n l] IH]; [done..|]. intros (en & Hn & [([=] & _)|[Hp Hb]]).
  cbn [with_prev_ptrs]. rewrite (alter_prev _ _ _ _ Hn).
  assert (set_prev (wq_entry w) en = en) as -> by (destruct en; simpl in Hp; by subst).
  rewrite insert_id by apply Hn. destruct m. by apply IH.
Qed.

Lemma linked_neq m w n l : linked m (w :: n :: l) -> NoDup (w :: n :: l) -> n ∉ l.
Proof. intros _ [_ [Hn _]%list.NoDup_cons]%list.NoDup_cons. done. Qed.

Lemma with_prev_ptrs_cons m w n l en :
  node m n en ->
  with_prev_ptrs m (w :: n :: l) =
  with_prev_ptrs (set_entries (<[wq_entry n := set_prev (wq_entry w) en]> (entries m)) m) (n :: l).
Proof. intros Hn. by rewrite <- (alter_prev _ _ _ _ Hn). Qed.

(** The entry of the newest element is left alone. *)
Lemma with_prev_ptrs_node m w l wq en :
  wq ∉ l -> linked m (w :: l) -> node m wq en -> node (with_prev_ptrs m (w :: l)) wq en.
Proof.
  revert m w. induction l as [|n l IH]; intros m w Hni Hl Hwq; [done|].
  apply not_elem_of_cons in Hni as [Hne Hni]. pose proof Hl as [_ Hl'].
  pose proof Hl' as [(enn & Hnn & _) _]. rewrite (with_prev_ptrs_cons _ _ _ _ _ Hnn).
  apply IH; [done|by apply linked_marked_prev|]. by eapply node_insert_ne.
Qed.

(** All back pointers are set in the end. *)
Lemma with_prev_ptrs_all m l : linked m l -> NoDup l -> backed true (with_prev_ptrs m l) l.
Proof.
  revert m. induction l as [|w [|n l] IH]; intros m Hl Hnd; [done..|].
  pose proof Hl as [_ Hl']. pose proof Hl' as [(en & Hn & _) _].
  apply list.NoDup_cons in Hnd as [_ Hnd]. rewrite (with_prev_ptrs_cons _ _ _ _ _ Hn).
  set (m1 := set_entries _ m). assert (linked m1 (n :: l)) as Hl1 by (by apply linked_marked_prev).
  exists (set_prev (wq_entry w) en). split.
  - apply with_prev_ptrs_node; [by apply list.NoDup_cons in Hnd as [? _]|done|].
    by eapply node_insert.
  - right. split; [done|]. by apply IH.
Qed.

Section rules.
  Context (t : tid).

Lemma wp_set_every m l (Q : unit -> mem -> Prop) :
  linked m l -> NoDup l -> Q tt (with_prev_ptrs m l) ->
  wp t (set_every_prev_ptr (first_entry l)) m Q.
Proof.
  revert m. induction l as [|w l IH]; intros m Hl Hnd HQ; apply wp_loop; [by apply wp_ret|].
  pose proof Hl as [(en & Hn & Hx) Hl']. cbn [first_entry].
  rewrite wq_entry_eqb_0 by by eauto with saa.
  apply wp_bind. eapply wp_next_entry_ptr; [done..|].
  destruct l as [|n l].
  - apply wp_bind, wp_ret, wp_bind, wp_ret, wp_ret. apply wp_loop. by apply wp_ret.
  - destruct Hl' as [(enn & Hnn & Hxn) Hl'']. cbn [first_entry].
    rewrite wq_entry_eqb_0 by by eauto with saa. simpl.
    apply wp_bind. eapply wp_update_prev; [done|]. apply wp_bind, wp_ret, wp_ret.
    apply IH.
    + eapply linked_marked_prev; [|done]. split; [by eexists|done].
    + by apply list.NoDup_cons in Hnd as [_ ?].
    + by rewrite (with_prev_ptrs_cons _ _ _ _ _ Hnn) in HQ.
Qed.

Lemma wp_set_prev_ptr m l (Q : unit -> mem -> Prop) :
  linked m l -> NoDup l -> backed false m l -> Q tt (with_prev_ptrs m l) ->
  wp t (set_prev_ptr (first_entry l)) m Q.
Proof.
  revert m. induction l as [|w l IH]; intros m Hl Hnd Hb HQ; apply wp_loop; [by apply wp_ret|].
  pose proof Hl as [(en & Hn & Hx) Hl']. cbn [first_entry].
  rewrite wq_entry_eqb_0 by by eauto with saa.
  apply wp_bind. eapply wp_next_entry_ptr; [done..|].
  destruct l as [|n l]; [simpl; apply wp_ret, wp_loop; by apply wp_ret|].
  destruct Hb as (enn & Hnn & Hcase). cbn [first_entry].
  rewrite wq_entry_eqb_0 by by eauto with saa. simpl.
  apply wp_bind. eapply wp_prev_entry_ptr; [done|].
  rewrite (with_prev_ptrs_cons _ _ _ _ _ Hnn) in HQ. destruct Hcase as [(_ & -> & Hb)|[Hp Hb]].
  - simpl. apply wp_bind. eapply wp_update_prev; [done|]. apply wp_ret.
    apply IH; [|by apply list.NoDup_cons in Hnd as [_ ?]| |done].
    + by eapply linked_marked_prev.
    + apply backed_set_prev; [|done..]. by apply (linked_neq m w).
  - rewrite Hp, wq_entry_eqb_0 by by eauto with saa.
    apply wp_bind, wp_debug_assert; [apply Z.eqb_refl|]. apply wp_ret.
    assert (set_prev (wq_entry w) enn = enn) as E by (destruct enn; simpl in Hp; by subst).
    rewrite E, insert_id in HQ by apply Hnn. rewrite with_prev_ptrs_backed in HQ; [by destruct m|].
    by destruct m.
Qed.

End rules.

(** ** The theorem *)

(** C26. [set_prev_ptr], which stops early, is equivalent to writing every back
    pointer of the queue: on a queue whose back pointers are set from the
    oldest entry up to some entry and null beyond, both leave the same
    memory, in which all back pointers are set. *)
Theorem set_prev_ptr_equiv t l m :
  linked m l -> NoDup l -> backed false m l ->
  exists m', backed true m' l /\
    wp t (set_prev_ptr (first_entry l)) m (fun _ m1 => m1 = m') /\
    wp t (set_every_prev_ptr (first_entry l)) m (fun _ m2 => m2 = m').
Proof.
  intros Hl Hnd Hb. exists (with_prev_ptrs m l). split; [by apply with_prev_ptrs_all|].
  split; [by apply wp_set_prev_ptr|by apply wp_set_every].
Qed.

(** Three waiting threads; the back pointer of the oldest entry is set. *)
Definition half_marked : mem :=
  let m := three_waiters Lock 63 Exclusive Exclusive Exclusive in
  set_entries (alter (set_prev (wq_entry wq2)) (wq_entry wq1) (entries m)) m.

Lemma set_prev_ptr_equiv_witness :
  exists m', backed true m' [wq3; wq2; wq1] /\
    wp 0%nat (set_prev_ptr (wq_entry wq3)) half_marked (fun _ m1 => m1 = m') /\
    wp 0%nat (set_every_prev_ptr (wq_entry wq3)) half_marked (fun _ m2 => m2 = m').
Proof.
  apply (set_prev_ptr_equiv 0%nat [wq3; wq2; wq1] half_marked); [by_evaluation|by_evaluation|].
  exists (waiter Lock wq2 [wq1] Exclusive 2%nat). split; [by_evaluation|]. left.
  split; [reflexivity|]. split; [reflexivity|].
  exists (set_prev (wq_entry wq2) (waiter Lock wq1 [] Exclusive 1%nat)). split; [by_evaluation|].
  right. split; reflexivity || exact I.
Defined.
