(* ===== verification/QueueSpec.v ===== *)
(** * Wait queues: correctness

    Theorems about the layout of wait queues and state words, the delivery of
    results, and the processing of a queue, which all primitives share. *)

From S2P Require Import Prelude Prog Word Opcode Memory WaitQueue.
From S2P Require Import Geometry Results Queue SyncPrimitive Grant Enqueue Release Cancel Blocking Scenario Pager.
From S2P Require Lock Semaphore.

(** Bytes of the area of a wait queue, of its anchor, and of half the area. *)
Definition area_size : Z := 128.
Definition anchor_size : Z := 8.
Definition half_size : Z := 64.

(** The byte ranges [[a, a + n)] and [[b, b + k)] do not overlap. *)
Definition disjoint_bytes (a n b k : Z) : Prop := a + n <= b \/ b + k <= a.

(** A wait queue is constructed for [o], its entry is found from its anchor,
    and the wait queue from the entry. *)
Definition construct_and_find (S : Primitive) (wq self : Z) (o : Opcode) (is_sync : bool) :
    program (Z * Z) :=
  wait_queue_default wq ;;;
  construct S wq self o is_sync ;;;
  let* (anchor, _) := anchor_ptr wq in
  e <- to_entry_ptr anchor ;;
  back <- to_wait_queue_ptr e ;;
  Ret (e, back).

(** A result is delivered to an entry and consumed twice. *)
Definition deliver_and_consume (e r : Z) : program (option Z * option Z) :=
  set_result e r ;;;
  first <- try_consume_result e ;;
  second <- try_consume_result e ;;
  Ret (first, second).

(** An entry is polled by the task of [cx], then resolved, then polled again. *)
Definition poll_resolve_poll (e r : Z) (cx : Waker) : program (option Z * option Z) :=
  first <- poll_result_async e cx ;;
  set_result e r ;;;
  second <- poll_result_async e cx ;;
  Ret (first, second).

(** C1. [process_wait_queue] implements the list-level specification [grant]:
    on the queue [f], oldest entry first, it grants the longest prefix whose
    requests fit, gives each of them the result [0] and wakes it, adds up what
    they acquired in the state word, unlocks it, and leaves the other entries
    queued in order.  It always terminates. *)
Theorem process_wait_queue_refines_grant t S `{SyncPrimitive S} self data f os m :
  0 <= max_shared_owners S <= DATA_MASK -> queue_at m self true data f os -> f <> [] ->
  let n := grant (max_shared_owners S) data os in
  let data' := granted_data (max_shared_owners S) data os in
  wp t (process_wait_queue S self (word (first_anchor (reverse f)) true data)) m (fun _ m' =>
    queue_at m' self false data' (drop n f) (drop n os) /\
    (forall wq en, wq ∈ take n f -> node m wq en ->
       exists en', node m' wq en' /\ core en' = core (resolved 0 en) /\ notified en m') /\
    (forall wq en, wq ∈ drop n f -> node m wq en ->
       exists en', node m' wq en' /\ core en' = core en) /\
    (forall e, e ∉ wq_entry <$> f -> entries m' !! e = entries m !! e)).
Proof.
  intros Hmax Hq Hne n data'. apply (wp_process_wait_queue t S self data f os); [done..|].
  intros m' Hp. split; [|split; [|split]].
  - eapply processed_queue_at; [exact Hq|exact Hp|].
    apply granted_data_range; [lia|apply Hq|apply Hq].
  - apply Hp.
  - apply Hp.
  - apply Hp.
Qed.

Lemma process_wait_queue_refines_grant_witness :
  let m := set_words {[primitive := word (anchor_addr wq3) true 5]}
             (three_waiters Semaphore 0 (SemaphoreOp 50) (SemaphoreOp 8) (SemaphoreOp 1)) in
  wp 0%nat (process_wait_queue Semaphore primitive (word (anchor_addr wq3) true 5)) m
    (fun _ m' =>
      queue_at m' primitive false 63 [wq3] [SemaphoreOp 1] /\
      (forall wq en, wq ∈ [wq1; wq2] -> node m wq en ->
         exists en', node m' wq en' /\ core en' = core (resolved 0 en) /\ notified en m') /\
      (forall wq en, wq ∈ [wq3] -> node m wq en ->
         exists en', node m' wq en' /\ core en' = core en) /\
      (forall e, e ∉ wq_entry <$> [wq1; wq2; wq3] -> entries m' !! e = entries m !! e)).
Proof.
  intros m.
  assert (queue_at m primitive true 5 [wq1; wq2; wq3]
    [SemaphoreOp 50; SemaphoreOp 8; SemaphoreOp 1]) as Hq by by_evaluation.
  assert (0 <= max_shared_owners Semaphore <= DATA_MASK) as Hmax by done.
  assert ([wq1; wq2; wq3] <> []) as Hne by done.
  exact (process_wait_queue_refines_grant 0%nat Semaphore primitive 5 [wq1; wq2; wq3]
    [SemaphoreOp 50; SemaphoreOp 8; SemaphoreOp 1] m Hmax Hq Hne).
Defined.

(** C32. Where a wait queue puts its two parts: whatever its 8-byte aligned
    address, its anchor is 128-byte aligned, so that the address can be stored
    in a state word; anchor and entry lie inside the area and do not
    overlap. *)
Theorem wait_queue_layout wq :
  wq_ok wq ->
  is_addr (anchor_addr wq) /\
  wq <= anchor_addr wq /\ anchor_addr wq + anchor_size <= wq + area_size /\
  wq <= wq_entry wq /\ wq_entry wq + half_size <= wq + area_size /\
  disjoint_bytes (anchor_addr wq) anchor_size (wq_entry wq) half_size.
Proof.
  intros Hok. pose proof (anchor_addr_spec wq Hok) as [Ha Hr].
  pose proof (anchor_addr_is_addr wq Hok). rewrite wq_entry_eq by done.
  assert (anchor_addr wq mod 8 = 0) as Ha8.
  { replace (anchor_addr wq) with (16 * (anchor_addr wq / 128) * 8)
      by (pose proof (Z_div_mod_eq_full (anchor_addr wq) 128); lia). apply Z_mod_mult. }
  destruct Hok as (_ & Hw8 & _).
  pose proof (Z_div_mod_eq_full (anchor_addr wq) 8). pose proof (Z_div_mod_eq_full wq 8).
  unfold disjoint_bytes, area_size, anchor_size, half_size.
  split; [done|]. case_bool; lia.
Qed.

Lemma wait_queue_layout_witness :
  wq_ok wq3 /\ anchor_addr wq3 = 30720 /\ wq_entry wq3 = 30600 /\
  is_addr (anchor_addr wq3) /\
  wq3 <= anchor_addr wq3 /\ anchor_addr wq3 + anchor_size <= wq3 + area_size /\
  wq3 <= wq_entry wq3 /\ wq_entry wq3 + half_size <= wq3 + area_size /\
  disjoint_bytes (anchor_addr wq3) anchor_size (wq_entry wq3) half_size.
Proof.
  split; [by_evaluation|]. split; [reflexivity|]. split; [reflexivity|].
  apply (wait_queue_layout wq3). by_evaluation.
Defined.

(** C33. The anchor is enough to find the entry, and the entry to find the
    wait queue: after [construct], [to_entry_ptr] of the anchor and
    [to_wait_queue_ptr] of the result lead back. *)
Theorem anchor_entry_roundtrip t S wq self o is_sync m :
  wq_ok wq ->
  wp t (construct_and_find S wq self o is_sync) m (fun r m' =>
    r = (wq_entry wq, wq) /\ node m' wq (fresh_entry S self o is_sync wq)).
Proof.
  intros Hok. apply wp_bind, wp_wait_queue_default; [done|].
  apply wp_bind, wp_construct_fresh; [done|apply lookup_insert_eq|].
  rewrite with_node_default.
  pose proof (with_node_node m wq S self o is_sync Hok) as Hn.
  apply wp_bind, wp_anchor_ptr; [done|].
  apply wp_bind. eapply wp_to_entry_ptr; [exact Hn|].
  apply wp_bind. eapply wp_to_wait_queue_ptr; [exact Hn|]. by apply wp_ret.
Qed.

Lemma anchor_entry_roundtrip_witness :
  wp 0%nat (construct_and_find Lock wq2 primitive Exclusive true) (nobody_waits 0) (fun r m' =>
    r = (wq_entry wq2, wq2) /\ node m' wq2 (fresh_entry Lock primitive Exclusive true wq2)).
Proof. apply (anchor_entry_roundtrip 0%nat Lock wq2). by_evaluation. Defined.

(** A state word is its three parts: every [usize] is the word of the
    anchor address, flag and data the code's masks extract from it, and the
    masks extract from such a word what it was made of. *)
Theorem state_word_roundtrip w :
  is_usize w ->
  w = word (to_anchor_ptr w) (Z.land w LOCKED_FLAG =? LOCKED_FLAG) (Z.land w DATA_MASK) /\
  is_addr (to_anchor_ptr w) /\ is_data (Z.land w DATA_MASK) /\
  (forall a l d, is_addr a -> is_data d -> w = word a l d ->
     a = to_anchor_ptr w /\ l = (Z.land w LOCKED_FLAG =? LOCKED_FLAG) /\ d = Z.land w DATA_MASK).
Proof.
  intros (a & l & d & -> & Ha & Hd)%word_decompose.
  rewrite word_to_anchor_ptr, word_locked_bit, word_land_data by done.
  split; [done|]. split; [done|]. split; [done|].
  intros a' l' d' Ha' Hd' E. by apply word_inj in E as (-> & -> & ->).
Qed.

Lemma state_word_roundtrip_witness :
  let w := 30720 + 64 + 17 in
  w = word (to_anchor_ptr w) (Z.land w LOCKED_FLAG =? LOCKED_FLAG) (Z.land w DATA_MASK) /\
  is_addr (to_anchor_ptr w) /\ is_data (Z.land w DATA_MASK) /\
  (forall a l d, is_addr a -> is_data d -> w = word a l d ->
     a = to_anchor_ptr w /\ l = (Z.land w LOCKED_FLAG =? LOCKED_FLAG) /\ d = Z.land w DATA_MASK).
Proof. intros w. apply (state_word_roundtrip w). unfold w. split; [done|reflexivity]. Defined.

(** A result is delivered once: [set_result] on a waiting entry tells the
    thread or task registered in it and makes the result available; the first
    attempt to consume it yields exactly the byte that was set and leaves the
    entry idle, the next attempt yields nothing. *)
Theorem result_consumed_once t e en r m :
  entries m !! e = Some en -> is_waiting en -> is_u8 r ->
  wp t (deliver_and_consume e r) m (fun p m' =>
    p = (Some r, None) /\ notified en m' /\
    exists en', entries m' !! e = Some en' /\ e_state en' = 0 /\ e_pollable en' = false).
Proof.
  intros He Hw Hr. apply wp_bind. eapply wp_set_result; [done..|]. intros wk.
  set (m1 := set_weak _ _).
  assert (entries m1 !! e = Some (resolved r en)) as He1.
  { unfold m1. simpl. rewrite notify_entries. apply lookup_insert_eq. }
  assert (notified en m1) as Hk1 by (exact (notify_notified en _)).
  apply wp_bind. eapply (wp_try_consume_result_some t e _ (e_state en) r); [done..|].
  apply wp_bind. eapply wp_try_consume_result_none; [apply lookup_insert_eq|done|].
  apply wp_ret. split; [done|]. split; [exact Hk1|].
  eexists. split; [apply lookup_insert_eq|done].
Qed.

Lemma result_consumed_once_witness :
  let m := three_waiters Lock 63 Exclusive Shared Shared in
  let en := waiter Lock wq2 [wq1] Shared 2%nat in
  wp 0%nat (deliver_and_consume (wq_entry wq2) 2) m (fun p m' =>
    p = (Some 2, None) /\ notified en m' /\
    exists en', entries m' !! wq_entry wq2 = Some en' /\ e_state en' = 0 /\
      e_pollable en' = false).
Proof.
  intros m en. apply (result_consumed_once 0%nat (wq_entry wq2) en 2 m);
    [by_evaluation|by right|done].
Defined.

(** A task that polls a waiting entry before the result is there is
    pending, and is woken when the result is set; its next poll is ready with
    that result. *)
Theorem pending_task_is_woken t e en r cx m :
  entries m !! e = Some en -> e_state en = 0 -> (exists w, e_monitor en = Async w) -> is_u8 r ->
  wp t (poll_resolve_poll e r cx) m (fun p m' =>
    p = (None, Some r) /\ cx ∈ woken m').
Proof.
  intros He Hs (w & Hm) Hr. apply wp_bind. unfold poll_result_async at 1.
  apply wp_bind. eapply wp_read_field; [done|]. rewrite Hm.
  apply wp_bind. eapply wp_try_consume_result_none; [done|by rewrite Hs|].
  apply wp_bind. unfold prepare_install. apply wp_bind. eapply wp_read_field; [done|].
  rewrite Hs. simpl. apply wp_bind, wp_ret, wp_ret.
  apply wp_bind. eapply wp_write_field; [done|].
  apply wp_bind. eapply wp_fetch_or_state; [apply lookup_insert_eq|]. simpl. rewrite Hs. simpl.
  apply wp_bind, wp_ret, wp_ret. rewrite insert_insert_eq.
  set (m1 := set_entries _ _). set (en1 := set_state _ _) in m1.
  assert (entries m1 !! e = Some en1) as He1 by apply lookup_insert_eq.
  apply wp_bind. eapply wp_set_result; [exact He1|by right|done|]. intros wk.
  set (m2 := set_weak _ _).
  assert (entries m2 !! e = Some (resolved r en1)) as He2.
  { unfold m2. simpl. apply lookup_insert_eq. }
  assert (cx ∈ woken m2) as Hk by (unfold m2; simpl; set_solver).
  apply wp_bind. unfold poll_result_async. apply wp_bind. eapply wp_read_field; [done|].
  assert (e_monitor (resolved r en1) = Async None) as -> by done.
  apply wp_bind. eapply (wp_try_consume_result_some t e _ WAKER_SET r); [done|by right|done|done|].
  apply wp_ret, wp_ret. done.
Qed.

Lemma pending_task_is_woken_witness :
  let en := fresh_entry Semaphore primitive (SemaphoreOp 3) false wq1 in
  let m := with_node wq1 en (nobody_waits 0) in
  wp 0%nat (poll_resolve_poll (wq_entry wq1) 0 5%nat) m (fun p m' =>
    p = (None, Some 0) /\ 5%nat ∈ woken m').
Proof.
  intros en m. apply (pending_task_is_woken 0%nat (wq_entry wq1) en 0 5%nat m);
    [by_evaluation|reflexivity|by exists None|done].
Defined.
