(* ===== verification/SemaphoreSpec.v ===== *)
(** * The semaphore: correctness

    Acquiring, waiting for and releasing permits, as theorems about the methods
    of [Semaphore.v].  The data of the state word is the number of permits
    taken. *)

From S2P Require Import Prelude Prog Word Opcode Memory WaitQueue.
From S2P Require Import Geometry Results Queue SyncPrimitive Grant Enqueue Release Cancel Blocking Scenario LockFacts Crate.
From S2P Require Semaphore.

(** ** Specifications *)

(** Requests of a semaphore's queue. *)
Definition permits_request (o : Opcode) : bool :=
  match o with
  | SemaphoreOp _ => true
  | _ => false
  end.

(** What a thread woken from a semaphore's queue finds. *)
Definition woken_in (t : tid) (wq : Z) (x : Z * mem) (m : mem) : Prop :=
  m = x.2 /\ t ∈ tokens m /\ answered m wq x.1.

(** ** Rules *)

Lemma semaphore_max : 0 <= max_shared_owners Semaphore <= DATA_MASK.
Proof. done. Qed.

#[export] Hint Resolve semaphore_max : saa.

Lemma u8_try_from_permits c : 0 <= c <= Semaphore.MAX_PERMITS ->
  (Semaphore.MAX_PERMITS <? c) = false /\ Semaphore.u8_try_from c = Some c /\
  opcode_ok (SemaphoreOp c) = true /\ is_data c.
Proof.
  change Semaphore.MAX_PERMITS with 63. intros Hc. unfold Semaphore.u8_try_from, is_data.
  simpl. unfold_masks. split; [apply Z.ltb_ge; lia|]. split; [|split; [|lia]].
  - case_bool; [done|lia].
  - apply andb_true_iff. split; [apply Z.leb_le; lia|apply Z.ltb_lt; lia].
Qed.

Section rules.
  Context (t : tid).
  Implicit Types m : mem.

Lemma wp_try_acquire_internal self l d f os c m (Q : bool * Z -> mem -> Prop) :
  queue_at m self l d f os -> is_data c ->
  (f = [] -> d + c <= Semaphore.MAX_PERMITS ->
     Q (true, 0) (set_words (<[self := word 0 l (d + c)]> (words m)) m)) ->
  (f <> [] \/ Semaphore.MAX_PERMITS < d + c ->
     Q (false, word (first_anchor (reverse f)) l d) m) ->
  wp t (Semaphore.try_acquire_internal self c) m Q.
Proof.
  intros Hq Hc Hok Hno. pose proof Hq as [Hw Hd _ _ _ _ _ _].
  pose proof (queue_at_is_addr _ _ _ _ _ _ Hq) as Ha.
  apply wp_bind. eapply wp_load; [done|]. apply wp_loop.
  rewrite word_addr_zero, word_land_data, (queue_at_addr_eqb _ _ _ _ _ _ Hq) by done.
  change Semaphore.MAX_PERMITS with 63 in *. unfold is_data in Hd, Hc. unfold_masks.
  rewrite usize_add_small by (unfold usize_modulus; lia).
  destruct f as [|x f]; simpl.
  - destruct (Z.ltb_spec 63 (d + c)).
    + apply wp_ret, Hno. by right.
    + apply wp_bind, wp_compare_exchange_ok; [done|]. apply wp_ret.
      replace (usize_add (word 0 l d) c) with (word 0 l (d + c)); [by apply Hok|].
      unfold word. unfold_masks. rewrite usize_add_small; [destruct l; lia|].
      unfold usize_modulus. destruct l; lia.
  - apply wp_ret, Hno. by left.
Qed.

Lemma wp_release_many self d f os c m (Q : bool -> mem -> Prop) :
  queue_at m self false d f os -> 0 <= c <= Semaphore.MAX_PERMITS ->
  (c <= d -> forall m', handed_over Semaphore self d (SemaphoreOp c) f os m m' -> Q true m') ->
  (d < c -> Q false m) ->
  wp t (Semaphore.release_many self c) m Q.
Proof.
  intros Hq Hc Hok Hno. pose proof Hq as [Hw Hd _ _ _ _ _ _].
  pose proof (queue_at_is_addr _ _ _ _ _ _ Hq) as Ha.
  destruct (u8_try_from_permits c Hc) as (_ & Hu8 & Hop & Hcd).
  unfold Semaphore.release_many. rewrite Hu8.
  apply wp_bind. apply (wp_compare_exchange _ _ _ _ _ _ _ Hw).
  - intros E%Z.eqb_eq. rewrite word_eqb_data, (queue_at_addr_eqb _ _ _ _ _ _ Hq) in E by done.
    destruct f; [|done]. apply Z.eqb_eq in E. subst d. apply wp_ret, Hok; [lia|].
    pose proof (q_asks _ _ _ _ _ _ Hq) as Hos. apply Forall2_nil_inv_l in Hos as ->.
    unfold handed_over, granted_data. simpl. rewrite Z.sub_diag. apply (processed_nil self 0).
  - intros _. destruct (decide (c <= d)).
    + eapply (wp_release_loop t Semaphore); [done|done|done| |auto]. simpl. by apply Z.leb_le.
    + apply wp_release_loop_refused; [|apply Hno; lia].
      rewrite can_release_releasable by done. simpl. apply Z.leb_gt. lia.
Qed.

End rules.

Section blocking.
  Context (t : tid) `{DropCallbacks}.
  Implicit Types m : mem.

(** Waiting for [c] permits. *)
Lemma blocks_acquire_many_sync self wq l d f os c m (W : mem -> Prop) :
  queue_at m self l d f os -> wq_ok wq -> 0 <= c <= Semaphore.MAX_PERMITS ->
  f <> [] \/ Semaphore.MAX_PERMITS < d + c -> t ∉ tokens m ->
  W (enqueued Semaphore (asleep t) self wq l d f (SemaphoreOp c) m) ->
  blocks t (Semaphore.acquire_many_sync self wq c) m W (woken_in t wq)
    (fun x b m' => b = true /\ m' = withdrawn wq (unparked t x.2)).
Proof.
  intros Hq Hok Hc Hne Ht HW.
  destruct (u8_try_from_permits c Hc) as (Hmax & Hu8 & Hop & Hcd).
  unfold Semaphore.acquire_many_sync, Semaphore.acquire_many_sync_with. rewrite Hmax, Hu8.
  set (after := fun (x : Z * mem) (r : unit + bool) m3 =>
    r = inr true /\ m3 = withdrawn wq (unparked t x.2)).
  apply blocks_loop with (Q1 := after).
  - apply blocks_bind_wp. eapply wp_try_acquire_internal; [done..| |].
    { intros -> Hfit. destruct Hne; [done|]. lia. }
    intros _. apply blocks_bind with (Q1 := fun x r m3 =>
      r = Ok x.1 /\ m3 = withdrawn wq (unparked t x.2)).
    + eapply blocks_wait_resources_sync; [done|done| |done|by eauto with saa|done|].
      { destruct Hne; [by left|right]. unfold is_data in *.
        change Semaphore.MAX_PERMITS with 63 in *. lia. }
      intros x m2 (-> & H2 & H3). done.
    + intros x r m3 (-> & ->). by apply wp_ret.
  - intros x r m3 [-> ->]. by apply wp_ret.
Qed.

End blocking.

(** Permits a list of requests asks for. *)
Definition permits_total (os : list Opcode) : Z :=
  foldr (fun o acc => desired_count o + acc) 0 os.

Lemma acquired_permits os :
  Forall (fun o => permits_request o = true) os -> acquired_total os = permits_total os.
Proof. induction 1 as [|o os Ho Hos IH]; [done|]. destruct o; try done. simpl. lia. Qed.

Lemma Forall_take_requests n os :
  Forall (fun o => permits_request o = true) os ->
  Forall (fun o => permits_request o = true) (take n os).
Proof. apply Forall_take. Qed.

Lemma handed_over_semaphore self d c f os m m' :
  queue_at m self false d f os -> 0 <= c <= Semaphore.MAX_PERMITS -> c <= d ->
  handed_over Semaphore self d (SemaphoreOp c) f os m m' ->
  let n := grant Semaphore.MAX_PERMITS (d - c) os in
  let d' := granted_data Semaphore.MAX_PERMITS (d - c) os in
  processed self f n d' m m' /\ queue_at m' self false d' (drop n f) (drop n os) /\ is_data d'.
Proof.
  intros Hq Hc Hle Hh n d'. destruct (u8_try_from_permits c Hc) as (_ & _ & Hop & Hcd).
  assert (is_data d') as Hd'.
  { apply granted_data_range; [done| |apply Hq].
    pose proof (q_data _ _ _ _ _ _ Hq). unfold is_data in *. lia. }
  split; [exact Hh|]. split; [|done].
  by apply (processed_queue_at m m' self false d f os n d' Hq Hh).
Qed.

(** Handing over to the only request, which fits. *)
Lemma handed_over_only self d k c wq m m' :
  handed_over Semaphore self d (SemaphoreOp k) [wq] [SemaphoreOp c] m m' ->
  d - k + c <= Semaphore.MAX_PERMITS -> processed self [wq] 1 (d - k + c) m m'.
Proof.
  intros Hh Hfit. unfold handed_over, granted_data in Hh. simpl in Hh.
  unfold inheritable in Hh. simpl in Hh.
  change (max_shared_owners Semaphore) with Semaphore.MAX_PERMITS in Hh.
  assert ((d - k =? 0) || (d - k + c <=? Semaphore.MAX_PERMITS) = true) as E
    by (apply orb_true_iff; right; by apply Z.leb_le).
  rewrite E in Hh. simpl in Hh. rewrite Z.add_0_r in Hh. exact Hh.
Qed.

(** ** Theorems *)

(** C27. [try_acquire_many] succeeds exactly when nobody waits and there are
    enough permits left, for any count (counts above [MAX_PERMITS] included);
    it then takes exactly that many, and otherwise changes nothing. *)
Theorem try_acquire_many_spec t self l d f os c m :
  queue_at m self l d f os -> 0 <= c ->
  wp t (Semaphore.try_acquire_many self c) m (fun b m' =>
    b = bool_decide (f = [] /\ d + c <= Semaphore.MAX_PERMITS) /\
    if b then queue_at m' self l (d + c) [] [] else m' = m).
Proof.
  intros Hq Hc. pose proof (q_data _ _ _ _ _ _ Hq) as Hd.
  unfold Semaphore.try_acquire_many. destruct (Z.ltb_spec Semaphore.MAX_PERMITS c) as [Hlt|Hle].
  { apply wp_ret. rewrite bool_decide_eq_false_2; [done|].
    intros [_ ?]. unfold is_data in Hd. lia. }
  destruct (u8_try_from_permits c ltac:(lia)) as (_ & -> & _ & Hcd).
  apply wp_bind. eapply wp_try_acquire_internal; [done..| |].
  - intros -> Hfit. apply wp_ret. rewrite bool_decide_eq_true_2 by done. split; [done|].
    split; try done; [apply lookup_insert_eq| |constructor].
    unfold is_data in *. change Semaphore.MAX_PERMITS with 63 in *. unfold_masks. lia.
  - intros Hne. apply wp_ret. rewrite bool_decide_eq_false_2; [done|].
    intros [-> ?]. destruct Hne; [done|lia].
Qed.

Lemma try_acquire_many_spec_witness :
  queue_at (nobody_waits 60) primitive false 60 [] [] /\
  wp 0%nat (Semaphore.try_acquire_many primitive 3) (nobody_waits 60) (fun b m' =>
    b = bool_decide ([] = [] :> list Z /\ 60 + 3 <= Semaphore.MAX_PERMITS) /\
    if b then queue_at m' primitive false 63 [] [] else m' = nobody_waits 60).
Proof.
  assert (queue_at (nobody_waits 60) primitive false 60 [] []) as Hq by by_evaluation.
  split; [exact Hq|]. exact (try_acquire_many_spec 0%nat primitive false 60 [] [] 3 _ Hq ltac:(lia)).
Defined.

(** C12. Releasing conserves permits: [release_many] succeeds exactly when that
    many permits are taken; the permits taken afterwards are those that were
    taken, less the released ones, plus those of the requests granted (a
    prefix of the queue), and never exceed [MAX_PERMITS].  The oldest request
    left waiting could not have been granted. *)
Theorem release_many_conserves t self d f os c m :
  Forall (fun o => permits_request o = true) os ->
  queue_at m self false d f os -> 0 <= c <= Semaphore.MAX_PERMITS ->
  wp t (Semaphore.release_many self c) m (fun released m' =>
    released = (c <=? d) /\
    if released
    then exists n d', processed self f n d' m m' /\
      queue_at m' self false d' (drop n f) (drop n os) /\
      d' = d - c + permits_total (take n os) /\ 0 <= d' <= Semaphore.MAX_PERMITS /\
      match drop n os with
      | [] => True
      | o :: _ => Semaphore.MAX_PERMITS < d' + desired_count o
      end
    else m' = m).
Proof.
  intros Hr Hq Hc. apply (wp_release_many t self d f os); [done..| |].
  - intros Hle m' Hh. split; [symmetry; by apply Z.leb_le|].
    destruct (handed_over_semaphore _ _ _ _ _ _ _ Hq Hc Hle Hh) as (Hp & Hq' & Hd').
    eexists _, _. split; [exact Hp|]. split; [exact Hq'|]. split; [|split; [exact Hd'|]].
    + unfold granted_data. rewrite acquired_permits by (by apply Forall_take_requests). lia.
    + destruct (drop _ os) eqn:E; [done|]. by apply grant_stops_at in E as [_ ?].
  - intros Hlt. split; [symmetry; by apply Z.leb_gt|done].
Qed.

Lemma release_many_conserves_witness :
  let os := [SemaphoreOp 5; SemaphoreOp 1; SemaphoreOp 9] in
  let m := three_waiters Semaphore 60 (SemaphoreOp 5) (SemaphoreOp 1) (SemaphoreOp 9) in
  queue_at m primitive false 60 [wq1; wq2; wq3] os /\
  wp 0%nat (Semaphore.release_many primitive 4) m (fun released m' =>
    released = true /\
    if released
    then exists n d', processed primitive [wq1; wq2; wq3] n d' m m' /\
      queue_at m' primitive false d' (drop n [wq1; wq2; wq3]) (drop n os) /\
      d' = 60 - 4 + permits_total (take n os) /\ 0 <= d' <= Semaphore.MAX_PERMITS /\
      match drop n os with
      | [] => True
      | o :: _ => Semaphore.MAX_PERMITS < d' + desired_count o
      end
    else m' = m).
Proof.
  intros os m.
  assert (queue_at m primitive false 60 [wq1; wq2; wq3] os) as Hq by by_evaluation.
  split; [exact Hq|].
  refine (release_many_conserves 0%nat primitive 60 [wq1; wq2; wq3] os 4 m _ Hq _).
  - by repeat constructor.
  - done.
Defined.

(** Permits are handed over to a sleeping thread: [acquire_many_sync] for
    more permits than are left goes to sleep; once another thread has released
    enough of them, the sleeping thread, resumed, returns [true] with its
    permits taken and its wait queue gone. *)
Theorem permits_handoff t u self wq d c k m :
  words m !! self = Some d -> vacant m wq -> t ∉ tokens m ->
  0 <= c <= Semaphore.MAX_PERMITS -> 0 <= k <= d -> d <= Semaphore.MAX_PERMITS ->
  Semaphore.MAX_PERMITS < d + c -> d - k + c <= Semaphore.MAX_PERMITS ->
  wpr t (Semaphore.acquire_many_sync self wq c) m (fun r =>
    match r with
    | Waits sleeping_thread m1 =>
        wp u (Semaphore.release_many self k) m1 (fun released m2 => released = true /\
          wp t sleeping_thread m2 (fun acquired m3 => acquired = true /\
            words m3 = <[self := d - k + c]> (words m) /\
            anchors m3 = anchors m /\ entries m3 = entries m))
    | _ => False
    end).
Proof.
  intros Hw Hv Ht Hc Hk Hd Hover Hfit. pose proof Hv as (Hok & _).
  destruct (u8_try_from_permits c Hc) as (_ & _ & Hop & _).
  assert (queue_at m self false d [] []) as Hq.
  { apply queue_at_empty; [done|]. unfold is_data.
    change Semaphore.MAX_PERMITS with 63 in *. unfold_masks. lia. }
  eapply wpr_mono.
  { apply (blocks_acquire_many_sync t self wq false d [] [] c m (fun m1 =>
      m1 = enqueued Semaphore (asleep t) self wq false d [] (SemaphoreOp c) m)); [done..| |done|done].
    by right. }
  intros [|p m1| |]; try done. intros [-> Hres].
  assert (queue_at (enqueued Semaphore (asleep t) self wq false d [] (SemaphoreOp c) m)
    self false d [wq] [SemaphoreOp c]) as Hq1 by (by apply (enqueued_queue_at _ _ _ _ _ _ [] [])).
  eapply wp_release_many; [exact Hq1|lia| |lia].
  intros _ m2 Hh. split; [done|].
  assert (processed self [wq] 1 (d - k + c) (enqueued Semaphore (asleep t) self wq false d [] (SemaphoreOp c) m) m2)
    as Hp by (by apply handed_over_only).
  assert (woken_in t wq (0, m2) m2) as Htold.
  { destruct (p_granted _ _ _ _ _ _ Hp wq _ ltac:(set_solver) (enqueued_node Semaphore (asleep t) self wq false d [] (SemaphoreOp c) m Hok))
      as (en' & Hn' & Hcore & Hnot).
    split; [done|]. split; [by apply Hnot|]. split; [|done].
    exists en'. split; [done|]. by apply (f_equal e_state) in Hcore. }
  eapply wp_mono; [apply (Hres (0, m2)), Htold|].
  intros b m3 (-> & ->). split; [done|].
  destruct (enqueued_processed _ _ _ _ _ _ _ _ _ _ _ Hv Hp) as (E1 & E2 & E3). split; [exact E1|done].
Qed.

Lemma permits_handoff_witness :
  wpr 1%nat (Semaphore.acquire_many_sync primitive wq3 10) (nobody_waits 60) (fun r =>
    match r with
    | Waits sleeping_thread m1 =>
        wp 2%nat (Semaphore.release_many primitive 8) m1 (fun released m2 => released = true /\
          wp 1%nat sleeping_thread m2 (fun acquired m3 => acquired = true /\
            words m3 = <[primitive := 60 - 8 + 10]> (words (nobody_waits 60)) /\
            anchors m3 = anchors (nobody_waits 60) /\ entries m3 = entries (nobody_waits 60)))
    | _ => False
    end).
Proof.
  apply (permits_handoff 1%nat 2%nat primitive wq3 60 10 8 (nobody_waits 60));
    [reflexivity|by_evaluation|by_evaluation|done..].
Defined.

(** Initial permits: [with_permits] makes exactly the requested number of
    permits available, at most [MAX_PERMITS]; the semaphore is then open
    exactly when that is not zero. *)
Theorem initial_permits t self p m :
  0 <= p -> words m !! self = Some (Semaphore.with_permits p) ->
  wp t (Semaphore.available_permits self) m (fun n m' =>
    n = Z.min p Semaphore.MAX_PERMITS /\ m' = m) /\
  wp t (Semaphore.is_open self) m (fun b m' => b = negb (p =? 0) /\ m' = m) /\
  wp t (Semaphore.is_closed self) m (fun b m' => b = (p =? 0) /\ m' = m).
Proof.
  intros Hp Hw.
  assert (is_data (Semaphore.MAX_PERMITS - Z.min p Semaphore.MAX_PERMITS)) as Hd.
  { unfold is_data. change Semaphore.MAX_PERMITS with 63. unfold_masks. lia. }
  assert (Semaphore.with_permits p = Semaphore.MAX_PERMITS - Z.min p Semaphore.MAX_PERMITS) as E.
  { unfold Semaphore.with_permits. apply usize_sub_small.
    change Semaphore.MAX_PERMITS with 63. unfold usize_modulus. lia. }
  rewrite E in Hw.
  split; [|split]; (apply wp_bind; eapply wp_load; [done|]; apply wp_ret;
    rewrite land_word_data_unit by done; split; [|done]); unfold is_data in Hd;
    change DATA_MASK with 63 in *; change Semaphore.MAX_PERMITS with 63 in *.
  - rewrite usize_sub_small by (unfold usize_modulus; lia). lia.
  - repeat case_bool; simpl; try done; lia.
  - repeat case_bool; simpl; try done; lia.
Qed.
