(* ===== verification/FutureSpec.v ===== *)
(** * Futures: correctness

    The asynchronous methods of the lock and the semaphore, as theorems about
    the life of a future: it is suspended, and then either resumed with what it
    waited for, or dropped, before or after that was granted to it. *)

From S2P Require Import Prelude Prog Word Opcode Memory WaitQueue.
From S2P Require Import Geometry Results Queue SyncPrimitive Grant Enqueue Release Cancel Relinquish.
From S2P Require Import Blocking Async Scenario LockFacts LockSpec SemaphoreSpec Crate.
From S2P Require Lock Semaphore.

(** ** Specifications *)

(** What a woken task of the queue of a lock is told. *)
Definition told_task (cx : Waker) (wq : Z) (x : Z * mem) (m : mem) : Prop :=
  m = x.2 /\ cx ∈ woken m /\ answered_task m wq x.1 /\
  (x.1 = Lock.ACQUIRED \/ x.1 = Lock.POISONED).

(** The entry's request is one the lock with [d] taken units has granted. *)
Definition lock_granted (o : Opcode) (d : Z) : Prop :=
  (o = Exclusive /\ d = DATA_MASK) \/ (o = Shared /\ 1 <= d <= Lock.MAX_SHARED_OWNERS).

(** The three memories agree but for the word of [self]. *)
Definition only_word (self w : Z) (m m' : mem) : Prop :=
  words m' = <[self := w]> (words m) /\ anchors m' = anchors m /\ entries m' = entries m.

(** Three threads wait for a lock whose exclusive ownership was handed to the
    task of [wq4], which has not noticed yet. *)
Definition owner_unaware : Entry :=
  mkEntry 0 0 Exclusive (WAKER_SET + RESULT_SET + RESULT_FINALIZED) true (Async None) Lock
    primitive (wq_entry wq4 - wq4).

(** ** Rules *)

Lemma lock_granted_releasable o d max os :
  max = Lock.MAX_SHARED_OWNERS -> Forall (fun o => opcode_ok o = true) os ->
  lock_granted o d ->
  opcode_ok o = true /\ releasable o d = true /\ releasable o (granted_data max d os) = true.
Proof.
  intros -> Hos Hg.
  assert (is_data d) as Hd.
  { unfold lock_granted, is_data in *. change Lock.MAX_SHARED_OWNERS with 62 in Hg.
    unfold_masks. lia. }
  pose proof (granted_data_ge Lock.MAX_SHARED_OWNERS d os Hos) as Hge.
  pose proof (granted_data_range Lock.MAX_SHARED_OWNERS d os ltac:(done) Hd Hos) as Hr.
  destruct Hg as [[-> ->]|[-> Hs]].
  - split; [done|]. split; [done|]. cbn [releasable]. apply Z.eqb_eq.
    unfold is_data in Hr. unfold_masks. lia.
  - assert (granted_data Lock.MAX_SHARED_OWNERS d os <= Lock.MAX_SHARED_OWNERS) as Hle.
    { apply granted_data_below; [done|lia]. }
    change Lock.MAX_SHARED_OWNERS with 62 in *.
    split; [done|]. simpl. unfold_masks. split; apply andb_true_iff;
      (split; [apply Z.leb_le; lia|apply negb_true_iff, Z.eqb_neq; lia]).
Qed.

Section rules.
  Context (t : tid) `{DropCallbacks}.
  Implicit Types m : mem.

(** The loop of the asynchronous methods when the attempt fails. *)
Lemma blocks_acquire_async attempt o self wq l d f os cx begin_wait m (W : mem -> Prop) :
  (forall Q : Z * Z -> mem -> Prop,
     (forall wk, Q (Lock.NOT_ACQUIRED, word (first_anchor (reverse f)) l d) (set_weak wk m)) ->
     wp t attempt m Q) ->
  queue_at m self l d f os -> wq_ok wq -> cx ∉ woken m -> quiet t begin_wait ->
  (forall wk, W (set_weak wk (enqueued Lock (pending cx) self wq l d f o m))) ->
  blocks t (Lock.acquire_async_with attempt o self wq cx begin_wait) m W (told_task cx wq)
    (fun x b m3 => b = (x.1 =? Lock.ACQUIRED) /\
       m3 = withdrawn wq (resumed cx x.2)).
Proof.
  intros Hatt Hq Hok Hcx Hquiet HW. unfold Lock.acquire_async_with.
  set (after := fun (x : Z * mem) (r : unit + bool) m3 =>
    r = inr (x.1 =? Lock.ACQUIRED) /\ m3 = withdrawn wq (resumed cx x.2)).
  apply blocks_loop with (Q1 := after).
  - apply blocks_bind_wp, Hatt. intros wk. simpl. apply blocks_bind_wp, wp_debug_assert; [done|].
    eapply (blocks_push_and_await t Lock); [by apply queue_at_set_weak|done..|apply HW|].
    intros x m2 (-> & H2 & H3 & H4). split; [done|]. split; [done|].
    intros m3 en3 Hn3 Hp3 Hw3. apply wp_bind, wp_debug_assert.
    { by destruct H4 as [-> | ->]. }
    apply wp_bind. eapply wp_wait_queue_drop_consumed; [done..|]. by apply wp_ret.
  - intros x r m3 [-> ->]. by apply wp_ret.
Qed.

(** Waiting for [c] permits. *)
Lemma blocks_acquire_many_async self wq l d f os c cx m (W : mem -> Prop) :
  queue_at m self l d f os -> wq_ok wq -> 0 <= c <= Semaphore.MAX_PERMITS ->
  f <> [] \/ Semaphore.MAX_PERMITS < d + c -> cx ∉ woken m ->
  W (enqueued Semaphore (pending cx) self wq l d f (SemaphoreOp c) m) ->
  blocks t (Semaphore.acquire_many_async self wq c cx) m W
    (fun x m' => m' = x.2 /\ cx ∈ woken m' /\ answered_task m' wq x.1)
    (fun x b m' => b = true /\ m' = withdrawn wq (resumed cx x.2)).
Proof.
  intros Hq Hok Hc Hne Hcx HW.
  destruct (u8_try_from_permits c Hc) as (Hmax & Hu8 & Hop & Hcd).
  unfold Semaphore.acquire_many_async, Semaphore.acquire_many_async_with. rewrite Hmax, Hu8.
  set (after := fun (x : Z * mem) (r : unit + bool) m3 =>
    r = inr true /\ m3 = withdrawn wq (resumed cx x.2)).
  apply blocks_loop with (Q1 := after).
  - apply blocks_bind_wp. eapply wp_try_acquire_internal; [done..| |].
    { intros -> Hfit. destruct Hne; [done|]. lia. }
    intros _. eapply (blocks_push_and_await t Semaphore); [done|done|done| |reflexivity|done|].
    { by eauto with saa. }
    intros x m2 (-> & H2 & H3). split; [done|]. split; [done|].
    intros m3 en3 Hn3 Hp3 Hw3. apply wp_bind. eapply wp_wait_queue_drop_consumed; [done..|].
    by apply wp_ret.
  - intros x r m3 [-> ->]. by apply wp_ret.
Qed.

End rules.

(** ** A future alone in the queue *)

Section alone.
  Context (t : tid) (S : Primitive) `{SyncPrimitive S} `{DropCallbacks}.
  Context (Hmax : 0 <= max_shared_owners S <= DATA_MASK).
  Context (Hcb : forall e, drop_callback S e = force_remove_wait_queue_entry S e).
  Implicit Types m : mem.

(** Dropped while it waits. *)
Lemma wp_drop_pending cx self wq d o m :
  words m !! self = Some (word 0 false d) -> is_data d -> vacant m wq -> opcode_ok o = true ->
  wp t (wait_queue_drop wq) (enqueued S (pending cx) self wq false d [] o m)
    (fun _ m' => only_word self (word 0 false d) m m').
Proof.
  intros Hw Hd Hv Ho. pose proof Hv as (Hok & Ha & He).
  assert (queue_at m self false d [] []) as Hq by (by apply queue_at_empty).
  pose proof (enqueued_queue_at S (pending cx) self wq false d [] [] o m Hq Hv Ho) as Hq1.
  eapply (wp_wait_queue_drop_waiting t S self d [] wq [] [] o []);
    [done|done|exact Hq1|done|by apply enqueued_node|done..|].
  intros m' (E1 & E2 & E3)%cancelled_alone. unfold only_word. simpl in *.
  rewrite E1, E2, E3, insert_insert_eq. split; [done|]. split.
  - by rewrite delete_insert_id.
  - by rewrite delete_insert_id.
Qed.

(** Dropped once its request has been granted. *)
Lemma wp_drop_granted_alone cx self wq l d d' o m m2 :
  vacant m wq -> opcode_ok o = true -> is_data d' -> releasable o d' = true ->
  processed self [wq] 1 d' (enqueued S (pending cx) self wq l d [] o m) m2 ->
  wp t (wait_queue_drop wq) m2
    (fun _ m' => only_word self (word 0 false (d' - acquired_count o)) m m').
Proof.
  intros Hv Ho Hd' Hr Hp. pose proof Hv as (Hok & _).
  destruct (enqueued_processed _ _ _ _ _ _ _ _ _ _ _ Hv Hp) as (E1 & E2 & E3).
  destruct (p_granted _ _ _ _ _ _ Hp wq _ ltac:(set_solver)
    (enqueued_node S (pending cx) self wq l d [] o m Hok)) as (en & Hn & Hc & _).
  assert (queue_at m2 self false d' [] []) as Hq2.
  { apply queue_at_empty; [|done]. rewrite E1. apply lookup_insert_eq. }
  assert (e_opcode en = o) as Eo by exact (f_equal e_opcode Hc).
  eapply (wp_wait_queue_drop_granted t S self d' [] [] wq en);
    [done|done|exact Hq2|set_solver|done|exact (f_equal e_addr Hc)
    |exact (f_equal e_drop_callback Hc)| |by rewrite Eo| |by rewrite Eo| |].
  - exact (f_equal e_pollable Hc).
  - eapply granted_unacknowledged; [|exact Hc]. by right.
  - rewrite Eo. unfold granted_data. simpl. by rewrite Z.add_0_r.
  - rewrite Eo. intros m' (E1' & E2' & E3')%relinquished_alone. unfold only_word. simpl in *.
    rewrite E1', E1, E2', E2, E3', E3, insert_insert_eq. done.
Qed.

End alone.

(** Resumed once its request has been granted, and taken down. *)
Lemma resumed_alone S cx self wq l d d' o m m2 :
  vacant m wq -> processed self [wq] 1 d' (enqueued S (pending cx) self wq l d [] o m) m2 ->
  only_word self (word 0 false d') m (withdrawn wq (resumed cx m2)).
Proof.
  intros Hv Hp. destruct (enqueued_processed _ _ _ _ _ _ _ _ _ _ _ Hv Hp) as (E1 & E2 & E3).
  by split.
Qed.

(** ** Theorems *)

(** C8. The life of a future of [lock_async] on a lock that is held: it is
    suspended.  Dropped there, it leaves the lock held and nothing behind.
    When the owner releases the lock, the task is woken; then the future
    either is resumed, returns [true] and owns the lock, or is dropped
    without having noticed, and the lock is free: ownership is never
    lost. *)
Theorem lock_future_fates t u self wq cx m :
  words m !! self = Some DATA_MASK -> vacant m wq -> cx ∉ woken m ->
  wpr t (Lock.lock_async self wq cx) m (fun r =>
    match r with
    | Waits future m1 =>
        wp u (wait_queue_drop wq) m1 (fun _ m2 => only_word self DATA_MASK m m2) /\
        wp u (Lock.release_lock self) m1 (fun released m2 => released = true /\ cx ∈ woken m2 /\
          wp t future m2 (fun acquired m3 => acquired = true /\ only_word self DATA_MASK m m3) /\
          wp t (wait_queue_drop wq) m2 (fun _ m3 => only_word self Lock.new m m3))
    | _ => False
    end).
Proof.
  intros Hw Hv Hcx. pose proof Hv as (Hok & _).
  assert (queue_at m self false DATA_MASK [] []) as Hq by (by apply queue_at_empty).
  eapply wpr_mono.
  { eapply (blocks_acquire_async t _ Exclusive self wq false DATA_MASK [] [] cx (Ret tt) m
      (fun m1 => exists wk, m1 = set_weak wk (enqueued Lock (pending cx) self wq false DATA_MASK [] Exclusive m)));
      [|done..|by eauto with saa|by eexists].
    intros Q HQ. eapply wp_try_lock_internal_spin; [done..|]. intros _ _.
    specialize (HQ (weak m)). by destruct m. }
  intros [|future m1| |]; try done. intros [(wk & ->) Hres].
  change (set_weak wk (enqueued Lock (pending cx) self wq false DATA_MASK [] Exclusive m))
    with (enqueued Lock (pending cx) self wq false DATA_MASK [] Exclusive (set_weak wk m)) in *.
  set (mw := set_weak wk m) in *. assert (vacant mw wq) as Hv' by exact Hv.
  apply (queue_at_set_weak wk) in Hq. split.
  { eapply wp_mono; [by apply (wp_drop_pending u Lock)|]. intros [] m2 H. exact H. }
  assert (queue_at (enqueued Lock (pending cx) self wq false DATA_MASK [] Exclusive mw)
    self false DATA_MASK [wq] [Exclusive]) as Hq1 by (by apply (enqueued_queue_at _ _ _ _ _ _ [] [])).
  eapply wp_release_lock; [exact Hq1| |done].
  intros _ m2 Hh. split; [done|].
  assert (processed self [wq] 1 DATA_MASK
    (enqueued Lock (pending cx) self wq false DATA_MASK [] Exclusive mw) m2) as Hp
    by (destruct Hh; by split).
  destruct (processed_answered_task _ _ _ _ wq cx _ _ _ Hp ltac:(set_solver)
    (enqueued_node Lock (pending cx) self wq false DATA_MASK [] Exclusive mw Hok)) as [Hk Hans].
  split; [done|]. split.
  - eapply wp_mono; [apply (Hres (0, m2))|].
    { split; [done|]. split; [done|]. split; [done|]. by left. }
    intros b m3 [-> ->]. split; [done|]. exact (resumed_alone Lock _ _ _ _ _ _ _ mw _ Hv' Hp).
  - eapply wp_mono.
    + by apply (wp_drop_granted_alone t Lock lock_max (fun _ => eq_refl) cx self wq false DATA_MASK DATA_MASK Exclusive mw).
    + intros [] m3 H. exact H.
Qed.

Lemma lock_future_fates_witness :
  wpr 1%nat (Lock.lock_async primitive wq2 7%nat) (nobody_waits 63) (fun r =>
    match r with
    | Waits future m1 =>
        wp 2%nat (wait_queue_drop wq2) m1 (fun _ m2 =>
          only_word primitive 63 (nobody_waits 63) m2) /\
        wp 2%nat (Lock.release_lock primitive) m1 (fun released m2 =>
          released = true /\ 7%nat ∈ woken m2 /\
          wp 1%nat future m2 (fun acquired m3 =>
            acquired = true /\ only_word primitive 63 (nobody_waits 63) m3) /\
          wp 1%nat (wait_queue_drop wq2) m2 (fun _ m3 =>
            only_word primitive 0 (nobody_waits 63) m3))
    | _ => False
    end).
Proof.
  apply (lock_future_fates 1%nat 2%nat primitive wq2 7%nat (nobody_waits 63));
    [reflexivity|by_evaluation|by_evaluation].
Defined.

(** C13. The life of a future of [acquire_many_async] that has to wait for [c]
    permits: it is suspended.  Dropped there, it leaves the permits as they
    were.  When [k] permits are released that are enough, the task is woken;
    then the future either is resumed, returns [true] and has its permits, or
    is dropped without having noticed, and gives them back: permits are never
    lost. *)
Theorem permits_future_fates t u self wq cx d c k m :
  words m !! self = Some d -> vacant m wq -> cx ∉ woken m ->
  0 <= c <= Semaphore.MAX_PERMITS -> 0 <= k <= d -> d <= Semaphore.MAX_PERMITS ->
  Semaphore.MAX_PERMITS < d + c -> d - k + c <= Semaphore.MAX_PERMITS ->
  wpr t (Semaphore.acquire_many_async self wq c cx) m (fun r =>
    match r with
    | Waits future m1 =>
        wp u (wait_queue_drop wq) m1 (fun _ m2 => only_word self d m m2) /\
        wp u (Semaphore.release_many self k) m1 (fun released m2 => released = true /\ cx ∈ woken m2 /\
          wp t future m2 (fun acquired m3 => acquired = true /\ only_word self (d - k + c) m m3) /\
          wp t (wait_queue_drop wq) m2 (fun _ m3 => only_word self (d - k) m m3))
    | _ => False
    end).
Proof.
  intros Hw Hv Hcx Hc Hk Hd Hover Hfit. pose proof Hv as (Hok & _).
  destruct (u8_try_from_permits c Hc) as (_ & _ & Hop & _).
  assert (is_data d /\ is_data (d - k + c)) as [Hdd Hdc].
  { unfold is_data. change Semaphore.MAX_PERMITS with 63 in *. unfold_masks. lia. }
  assert (queue_at m self false d [] []) as Hq by (by apply queue_at_empty).
  eapply wpr_mono.
  { apply (blocks_acquire_many_async t self wq false d [] [] c cx m (fun m1 =>
      m1 = enqueued Semaphore (pending cx) self wq false d [] (SemaphoreOp c) m));
      [done|done|done|by right|done|done]. }
  intros [|future m1| |]; try done. intros [-> Hres]. split.
  { by apply (wp_drop_pending u Semaphore). }
  assert (queue_at (enqueued Semaphore (pending cx) self wq false d [] (SemaphoreOp c) m)
    self false d [wq] [SemaphoreOp c]) as Hq1 by (by apply (enqueued_queue_at _ _ _ _ _ _ [] [])).
  eapply wp_release_many; [exact Hq1|lia| |lia].
  intros _ m2 Hp%handed_over_only; [|done]. split; [done|].
  destruct (processed_answered_task _ _ _ _ wq cx _ _ _ Hp ltac:(set_solver)
    (enqueued_node Semaphore (pending cx) self wq false d [] (SemaphoreOp c) m Hok)) as [Hkx Hans].
  split; [done|]. split.
  - eapply wp_mono; [apply (Hres (0, m2)); done|].
    intros b m3 [-> ->]. split; [done|]. by eapply (resumed_alone Semaphore).
  - replace (d - k) with (d - k + c - acquired_count (SemaphoreOp c)) by (simpl; lia).
    eapply (wp_drop_granted_alone t Semaphore semaphore_max (fun _ => eq_refl));
      [done|done|done| |exact Hp].
    simpl. apply Z.leb_le. lia.
Qed.

Lemma permits_future_fates_witness :
  wpr 1%nat (Semaphore.acquire_many_async primitive wq3 10 7%nat) (nobody_waits 60) (fun r =>
    match r with
    | Waits future m1 =>
        wp 2%nat (wait_queue_drop wq3) m1 (fun _ m2 =>
          only_word primitive 60 (nobody_waits 60) m2) /\
        wp 2%nat (Semaphore.release_many primitive 20) m1 (fun released m2 =>
          released = true /\ 7%nat ∈ woken m2 /\
          wp 1%nat future m2 (fun acquired m3 =>
            acquired = true /\ only_word primitive 50 (nobody_waits 60) m3) /\
          wp 1%nat (wait_queue_drop wq3) m2 (fun _ m3 =>
            only_word primitive 40 (nobody_waits 60) m3))
    | _ => False
    end).
Proof.
  apply (permits_future_fates 1%nat 2%nat primitive wq3 7%nat 60 10 20 (nobody_waits 60));
    [reflexivity|by_evaluation|by_evaluation|split; discriminate..|discriminate|reflexivity|discriminate].
Defined.

(** C9. Passing on: when the wait queue of a thread or task is dropped that owns
    a lock without knowing it (its request has been granted, the result has
    not been consumed), its share of the lock is released.  The wait queue is
    gone, the oldest compatible requests become owners in its place and are
    told, the state word counts the owners, and whoever still waits could not
    have been granted. *)
Theorem drop_granted_lock t self d f os wq en m :
  queue_at m self false d f os -> wq ∉ f -> node m wq en ->
  e_addr en = self -> e_drop_callback en = Lock -> e_pollable en = true ->
  unacknowledged en -> lock_granted (e_opcode en) d ->
  wp t (wait_queue_drop wq) m (fun _ m' => vacant m' wq /\ exists n d',
    queue_at m' self false d' (drop n f) (drop n os) /\
    d' = d - acquired_count (e_opcode en) + acquired_total (take n os) /\
    (forall wq' en1, wq' ∈ take n f -> node m wq' en1 ->
       exists en2, node m' wq' en2 /\ core en2 = core (resolved 0 en1) /\ notified en1 m') /\
    match drop n os with
    | [] => True
    | o :: _ => d' <> 0 /\ Lock.MAX_SHARED_OWNERS < d' + desired_count o
    end).
Proof.
  intros Hq Hni Hn Hself Hcb Hp Hu Hg.
  destruct (lock_granted_releasable _ _ Lock.MAX_SHARED_OWNERS os eq_refl (q_ok _ _ _ _ _ _ Hq) Hg)
    as (Ho & Hr & Hr').
  eapply (wp_wait_queue_drop_granted t Lock); [exact lock_max|done|exact Hq|done..|].
  intros m' Hrel.
  destruct (relinquished_queue _ _ _ _ _ _ _ _ _ _ lock_max Hq Hni Hn Ho Hr' Hrel)
    as (n & d' & Hq' & Hn' & Ed & Hgr & Hst).
  split. { split; [by eauto with saa|]. simpl. by rewrite !lookup_delete_eq. }
  exists n, d'. split; [|split; [exact Ed|split; [|exact Hst]]].
  - eapply queue_at_withdrawn; [exact Hq'|exact Hn'|]. intros Hin. apply Hni.
    rewrite <- (take_drop n f). set_solver.
  - intros wq' en1 Hin Hn1. destruct (Hgr wq' en1 Hin Hn1) as (en2 & Hn2 & Hc2 & Hk).
    exists en2. split; [|done]. eapply node_withdrawn; [exact Hn'|exact Hn2|].
    intros ->. apply Hni. rewrite <- (take_drop n f). set_solver.
Qed.

Lemma drop_granted_lock_witness :
  let m := with_node wq4 owner_unaware (three_waiters Lock 63 Shared Shared Exclusive) in
  wp 0%nat (wait_queue_drop wq4) m (fun _ m' => vacant m' wq4 /\ exists n d',
    queue_at m' primitive false d' (drop n [wq1; wq2; wq3]) (drop n [Shared; Shared; Exclusive]) /\
    d' = 63 - 63 + acquired_total (take n [Shared; Shared; Exclusive]) /\
    (forall wq' en1, wq' ∈ take n [wq1; wq2; wq3] -> node m wq' en1 ->
       exists en2, node m' wq' en2 /\ core en2 = core (resolved 0 en1) /\ notified en1 m') /\
    match drop n [Shared; Shared; Exclusive] with
    | [] => True
    | o :: _ => d' <> 0 /\ Lock.MAX_SHARED_OWNERS < d' + desired_count o
    end).
Proof.
  intros m. apply (drop_granted_lock 0%nat primitive 63 [wq1; wq2; wq3] [Shared; Shared; Exclusive]
    wq4 owner_unaware m);
    [by_evaluation|by_evaluation|by_evaluation|reflexivity..|by left].
Defined.
