(* ===== verification/WellFormed.v ===== *)
(** * What a lock's state can be

    The type of a lock's state word and queue: poisoned, with the queue
    empty; or a count of compatible owners together with a well-linked queue
    of lock requests, the oldest of which does not fit with the owners.  Every
    method of [Lock.v], and the dropping of a wait queue that waits, takes a
    state of this type to a state of this type. *)

From S2P Require Import Prelude Prog Word Opcode Memory WaitQueue.
From S2P Require Import Geometry Results Queue SyncPrimitive Grant Enqueue Release Cancel Blocking Async Scenario PagerSpec.
From S2P Require Import LockFacts LockSpec FutureSpec Crate.
From S2P Require Lock.

(** The oldest waiting request does not fit with the [d] units that are
    taken. *)
Definition settled (d : Z) (os : list Opcode) : Prop :=
  match os with
  | [] => True
  | o :: _ => d <> 0 /\ Lock.MAX_SHARED_OWNERS < d + desired_count o
  end.

(** The lock at [self] is in a state of its type. *)
Inductive lock_at (m : mem) (self : Z) : Prop :=
| lock_poisoned :
    words m !! self = Some Lock.POISONED_STATE -> lock_at m self
| lock_usable d f os :
    queue_at m self false d f os -> Forall (fun o => lock_request o = true) os ->
    settled d os -> lock_at m self.

(** ** Facts *)

Lemma lock_at_set_weak wk m self : lock_at m self -> lock_at (set_weak wk m) self.
Proof.
  intros [Hw|d f os Hq Hr Hs]; [by apply lock_poisoned|].
  by apply (lock_usable _ _ d f os); [apply queue_at_set_weak|..].
Qed.

(** The same, nobody but the wait queues of [f0] waiting. *)
Definition lock_within (m : mem) (self : Z) (f0 : list Z) : Prop :=
  words m !! self = Some Lock.POISONED_STATE \/
  exists d f os, f ⊆ f0 /\ queue_at m self false d f os /\
    Forall (fun o => lock_request o = true) os /\ settled d os.

Lemma lock_within_at m self f0 : lock_within m self f0 -> lock_at m self.
Proof. intros [Hw|(d & f & os & _ & Hq & Hr & Hs)]; [by apply lock_poisoned|by eapply lock_usable]. Qed.

Lemma lock_within_frame m m' self f0 :
  lock_within m self f0 -> words m' !! self = words m !! self ->
  (forall wq en, wq ∈ f0 -> node m wq en -> node m' wq en) -> lock_within m' self f0.
Proof.
  intros [Hw|(d & f & os & Hsub & Hq & Hr & Hs)] E Hf; [left; by rewrite E|right].
  exists d, f, os. split; [done|]. split; [|done]. eapply queue_at_frame; [exact Hq|done|].
  intros wq en Hin. by apply Hf, Hsub.
Qed.

Lemma lock_within_alone m self d f0 : words m !! self = Some d -> is_data d -> lock_within m self f0.
Proof.
  intros Hw Hd. right. exists d, [], []. split; [set_solver|]. split; [|done]. split; try done; constructor.
Qed.

(** A lock nobody waits for. *)
Lemma lock_at_alone m self d : words m !! self = Some d -> is_data d -> lock_at m self.
Proof.
  intros Hw Hd. apply (lock_usable _ _ d [] []); [|done..]. split; try done; constructor.
Qed.

Lemma settled_granted d os :
  settled (granted_data Lock.MAX_SHARED_OWNERS d os)
    (drop (grant Lock.MAX_SHARED_OWNERS d os) os).
Proof. destruct (drop _ os) as [|o os'] eqn:E; [done|]. by apply grant_stops_at in E. Qed.

Lemma settled_app d os o :
  settled d os -> os <> [] \/ settled d [o] -> settled d (os ++ [o]).
Proof. destruct os; [by intros _ [?|?]|done]. Qed.

Lemma queue_at_not_poisoned m self d f os :
  queue_at m self false d f os -> word (first_anchor (reverse f)) false d <> Lock.POISONED_STATE.
Proof.
  intros Hq E. assert (is_data 0) as H0 by done.
  apply (word_inj _ false d 0 true 0) in E as (_ & [=] & _);
    [by eauto with saa|apply Hq|apply is_addr_0|done].
Qed.

Lemma lock_at_granted m' self d f os :
  Forall (fun o => lock_request o = true) os ->
  queue_at m' self false (granted_data Lock.MAX_SHARED_OWNERS d os)
    (drop (grant Lock.MAX_SHARED_OWNERS d os) f)
    (drop (grant Lock.MAX_SHARED_OWNERS d os) os) ->
  lock_at m' self.
Proof.
  intros Hr Hq. eapply lock_usable; [exact Hq|by apply Forall_drop|apply settled_granted].
Qed.

Section methods.
  Context (t : tid) (self : Z).
  Implicit Types m : mem.

(** Methods that only look. *)
Lemma wp_look (h : Z -> bool) m :
  lock_at m self ->
  wp t (state <- load self ;; Ret (h state)) m (fun _ m' => lock_at m' self).
Proof.
  intros Hl. assert (exists w, words m !! self = Some w) as [w Hw].
  { destruct Hl as [Hw|d f os Hq _ _]; [by eexists|eexists; apply Hq]. }
  apply wp_bind. eapply wp_load; [done|]. by apply wp_ret.
Qed.

Lemma wp_poisoned_typed m p :
  words m !! self = Some Lock.POISONED_STATE ->
  p ∈ [Lock.try_lock self; Lock.try_share self; Lock.release_lock self; Lock.release_share self;
       Lock.poison_lock self] ->
  wp t p m (fun _ m' => lock_at m' self).
Proof.
  intros Hw Hp. destruct (wp_poisoned t self 0 0%nat (Ret tt) m Hw) as [Hall _]. rewrite Forall_forall in Hall.
  eapply wp_mono; [apply Hall; apply list_elem_of_In; set_solver|].
  intros b m' [_ [wk ->]]. by apply lock_at_set_weak, lock_poisoned.
Qed.

Lemma wp_try_typed m p :
  lock_at m self -> p ∈ [Lock.try_lock self; Lock.try_share self] ->
  wp t p m (fun _ m' => lock_at m' self).
Proof.
  intros Hl Hp. pose proof Hl as [Hw|d f os Hq Hr Hs]; [apply wp_poisoned_typed; set_solver|].
  destruct (wp_try_queue_at t self false d f os m Hq) as [Hlock Hshare].
  apply elem_of_cons in Hp as [->|Hp]; [|apply list_elem_of_singleton in Hp as ->];
    (eapply wp_mono; [eassumption|]); intros [] m' [_ H]; try (by subst);
    by eapply (lock_usable _ _ _ [] []).
Qed.

Lemma wp_release_typed m p :
  lock_at m self -> p ∈ [Lock.release_lock self; Lock.release_share self] ->
  wp t p m (fun _ m' => lock_at m' self).
Proof.
  intros Hl Hp. pose proof Hl as [Hw|d f os Hq Hr Hs]; [apply wp_poisoned_typed; set_solver|].
  assert (forall o m', opcode_ok o = true -> releasable o d = true ->
    handed_over Lock self d o f os m m' -> lock_at m' self) as Hgen.
  { intros o m' Ho Hro Hh. apply handed_over_queue in Hh as [_ Hq']; try done.
    by eapply lock_at_granted. }
  apply elem_of_cons in Hp as [->|Hp]; [|apply list_elem_of_singleton in Hp as ->].
  - apply (wp_release_lock t self d f os); [done| |done]. intros E m'. apply Hgen; [done|].
    by apply Z.eqb_eq.
  - apply (wp_release_share t self d f os); [done| |intros _ wk; by apply lock_at_set_weak].
    intros Hd m'. apply Hgen; [done|]. simpl. apply andb_true_iff.
    split; [apply Z.leb_le; lia|]. apply negb_true_iff, Z.eqb_neq. lia.
Qed.

Lemma wp_poison_typed m :
  lock_at m self -> wp t (Lock.poison_lock self) m (fun _ m' => lock_at m' self).
Proof.
  intros Hl. pose proof Hl as [Hw|d f os Hq Hr Hs]; [apply wp_poisoned_typed; set_solver|].
  eapply wp_mono; [by apply (wp_poison_lock t self d f os)|]. intros [] m' [_ H]; [|by subst].
  destruct H as (W & _). apply lock_poisoned. rewrite W. apply lookup_insert_eq.
Qed.

Lemma wp_clear_poison_typed m :
  lock_at m self -> wp t (Lock.clear_poison self) m (fun _ m' => lock_at m' self).
Proof.
  intros Hl. pose proof Hl as [Hw|d f os Hq Hr Hs].
  - destruct (wp_poisoned t self 0 0%nat (Ret tt) m Hw) as (_ & _ & Hclear). eapply wp_mono; [exact Hclear|].
    intros b m' [_ ->]. apply (lock_at_alone _ _ 0); [apply lookup_insert_eq|done].
  - apply wp_bind. eapply wp_compare_exchange_err; [apply Hq| |by apply wp_ret].
    by eapply queue_at_not_poisoned.
Qed.

(** ** Attempts *)

Lemma queue_asks_ne m l d f os : queue_at m self l d f os -> f <> [] -> os <> [].
Proof using Type.
  intros Hq Hf ->. pose proof (q_asks _ _ _ _ _ _ Hq) as Ha. by apply Forall2_nil_inv_r in Ha.
Qed.

(** What an attempt may find: it is settled in a state of the type, or the
    request may join the queue. *)
Definition joinable (mode : Lock.Mode) m d f os : Prop :=
  queue_at m self false d f os /\ Forall (fun o => lock_request o = true) os /\ settled d os /\
  (os <> [] \/ settled d [Lock.mode_opcode mode]) /\ (f <> [] \/ d <> 0).

Definition attempt_settles (mode : Lock.Mode) m f : Prop :=
  forall Q : Z * Z -> mem -> Prop,
    (forall x m', x.1 = Lock.ACQUIRED \/ x.1 = Lock.POISONED -> anchors m' = anchors m ->
       entries m' = entries m -> lock_within m' self f -> Q x m') ->
    wp t (pager_attempt self mode) m Q.

Definition attempt_joins (mode : Lock.Mode) m d f os : Prop :=
  joinable mode m d f os /\
  forall Q : Z * Z -> mem -> Prop,
    (forall wk, Q (Lock.NOT_ACQUIRED, word (first_anchor (reverse f)) false d) (set_weak wk m)) ->
    wp t (pager_attempt self mode) m Q.

Lemma attempt_exclusive m d f os :
  queue_at m self false d f os -> Forall (fun o => lock_request o = true) os -> settled d os ->
  attempt_settles Lock.MExclusive m f \/ attempt_joins Lock.MExclusive m d f os.
Proof.
  intros Hq Hr Hs. destruct (decide (f = [] /\ d = 0)) as [[-> ->]|Hne].
  - left. intros Q HQ. eapply wp_try_lock_internal_spin; [apply Hq|..]; try done.
    intros _. apply HQ; [by left|done..|]. apply (lock_within_alone _ _ DATA_MASK); [apply lookup_insert_eq|done].
  - right. assert (f <> [] \/ d <> 0) as Hne' by (destruct f; [right; naive_solver|by left]).
    destruct (queue_at_not_free _ _ _ _ _ _ Hq Hne'). pose proof (q_data _ _ _ _ _ _ Hq) as Hd.
    split.
    + split; [done|]. split; [done|]. split; [done|]. split; [|done].
      destruct Hne' as [Hf|]; [left; by eapply queue_asks_ne|right]. split; [done|].
      change Lock.MAX_SHARED_OWNERS with 62. unfold is_data in Hd. simpl. unfold_masks. lia.
    + intros Q HQ. eapply wp_try_lock_internal_spin; [apply Hq|done..|].
      intros _ _. specialize (HQ (weak m)). by destruct m.
Qed.

Lemma attempt_shared m d f os :
  queue_at m self false d f os -> Forall (fun o => lock_request o = true) os -> settled d os ->
  attempt_settles Lock.MShared m f \/ attempt_joins Lock.MShared m d f os.
Proof.
  intros Hq Hr Hs. destruct (decide (f = [] /\ d < Lock.MAX_SHARED_OWNERS)) as [[-> Hd]|Hne].
  - left. pose proof (q_data _ _ _ _ _ _ Hq) as Hd'. unfold is_data in Hd'.
    change Lock.MAX_SHARED_OWNERS with 62 in *. intros Q HQ.
    eapply wp_try_share_internal_spin; [apply Hq|..];
      change Lock.MAX_SHARED_OWNERS with 62; unfold word; simpl.
    + intros wk _. apply HQ; [by left|done..|]. apply (lock_within_alone _ _ (d + 1)).
      * simpl. rewrite lookup_insert_eq, usize_add_small; [done|]. unfold usize_modulus. lia.
      * unfold is_data. unfold_masks. lia.
    + intros wk E. change Lock.POISONED_STATE with 64 in E. lia.
    + lia.
  - right. assert (f <> [] \/ Lock.MAX_SHARED_OWNERS <= d) as Hne'
      by (destruct f; [right; apply Z.nlt_ge; naive_solver|by left]).
    destruct (queue_at_not_shareable _ _ _ _ _ _ Hq Hne') as [Hne2 Hge].
    destruct (queue_at_not_free _ _ _ _ _ _ Hq Hne2). split.
    + split; [done|]. split; [done|]. split; [done|]. split; [|done].
      destruct Hne' as [Hf|]; [left; by eapply queue_asks_ne|right].
      change Lock.MAX_SHARED_OWNERS with 62 in *. split; simpl; change Lock.MAX_SHARED_OWNERS with 62; lia.
    + intros Q HQ. eapply wp_try_share_internal_spin; [apply Hq|intros wk Hlt; lia|done|done].
Qed.

(** Pagers in a waiting mode only look at the state. *)
Lemma attempt_waiting mode m d f os :
  only_waits mode = true ->
  queue_at m self false d f os -> Forall (fun o => lock_request o = true) os -> settled d os ->
  attempt_settles mode m f \/ attempt_joins mode m d f os.
Proof.
  intros Hmode Hq Hr Hs. set (w := word (first_anchor (reverse f)) false d).
  assert (forall Q : Z * Z -> mem -> Prop,
    Q (Lock.wait_result mode w, w) m -> wp t (pager_attempt self mode) m Q) as Hlook.
  { intros Q HQ. destruct mode; try done; (apply wp_bind; eapply wp_load; [apply Hq|]; by apply wp_ret). }
  assert (lock_within m self f) as Hl by (right; by exists d, f, os).
  assert (Z.land w DATA_MASK = d) as Ed by (apply word_land_data; [by eauto with saa|apply Hq]).
  destruct (decide (Lock.wait_result mode w = Lock.NOT_ACQUIRED)) as [E|E].
  - right. assert (d <> 0 /\ Lock.MAX_SHARED_OWNERS < d + desired_count (Lock.mode_opcode mode)) as Hd.
    { pose proof (q_data _ _ _ _ _ _ Hq) as Hd. unfold is_data in Hd. unfold Lock.wait_result in E.
      rewrite Ed in E. change Lock.MAX_SHARED_OWNERS with 62 in *. destruct mode; try done; simpl in E |- *; unfold_masks;
        repeat case_bool; simpl in E; try done; lia. }
    split.
    + split; [done|]. split; [done|]. split; [done|]. split; [by right|]. right. apply Hd.
    + intros Q HQ. apply Hlook. rewrite E. specialize (HQ (weak m)). by destruct m.
  - left. intros Q HQ. apply Hlook, HQ; [|done..]. simpl. unfold Lock.wait_result in *.
    destruct (w =? Lock.POISONED); [by right|]. by destruct (_ || _); [left|].
Qed.

Lemma attempt_poisoned mode m : words m !! self = Some Lock.POISONED_STATE -> attempt_settles mode m [].
Proof.
  intros Hw Q HQ. apply wp_pager_attempt_poisoned; [done|]. intros wk.
  apply HQ; [|done..|by left]. simpl. destruct (only_waits mode); auto.
Qed.

Lemma attempt_queue mode m d f os :
  queue_at m self false d f os -> Forall (fun o => lock_request o = true) os -> settled d os ->
  attempt_settles mode m f \/ attempt_joins mode m d f os.
Proof. destruct mode; [apply attempt_exclusive|apply attempt_shared|by apply attempt_waiting..]. Qed.

Lemma attempt_cases mode m :
  lock_at m self -> (exists f, attempt_settles mode m f) \/ (exists d f os, attempt_joins mode m d f os).
Proof.
  intros [Hw|d f os Hq Hr Hs]; [left; exists []; by apply attempt_poisoned|].
  destruct (attempt_queue mode m d f os Hq Hr Hs); eauto.
Qed.

(** ** Methods that wait *)

(** Returned or gone to sleep, the lock is in a state of its type. *)
Definition typed {A} (r : result mem A) : Prop :=
  match r with
  | Returns _ m' | Waits _ m' => lock_at m' self
  | _ => False
  end.

Lemma blocks_typed {A X} (p : program A) m R (Q : X -> A -> mem -> Prop) :
  blocks t p m (fun m' => lock_at m' self) R Q -> wpr t p m typed.
Proof. intros Hb. eapply wpr_mono; [exact Hb|]. by intros [|p' m'| |] H; try destruct H. Qed.

Lemma wp_typed {A} (p : program A) m : wp t p m (fun _ m' => lock_at m' self) -> wpr t p m typed.
Proof. intros H. eapply wpr_mono; [exact H|]. by intros []. Qed.

Lemma mode_opcode_ok mode :
  lock_request (Lock.mode_opcode mode) = true /\ opcode_ok (Lock.mode_opcode mode) = true.
Proof using Type. by destruct mode. Qed.

Lemma lock_at_joined m d f os mode wq :
  joinable mode m d f os ->
  (forall m', queue_at m' self false d (f ++ [wq]) (os ++ [Lock.mode_opcode mode]) -> lock_at m' self).
Proof using Type.
  intros (_ & Hr & Hs & Hne & _) m' Hq'. apply (lock_usable _ _ d _ _ Hq'); [|by apply settled_app].
  apply Forall_app. split; [done|]. constructor; [apply mode_opcode_ok|constructor].
Qed.

Lemma wpr_acquire_sync_typed mode m wq begin_wait :
  lock_at m self -> vacant m wq -> t ∉ tokens m -> quiet t begin_wait ->
  wpr t (Lock.acquire_sync_with (pager_attempt self mode) (Lock.mode_opcode mode) self wq begin_wait) m typed.
Proof.
  intros Hl Hv Ht Hquiet. destruct (attempt_cases mode m Hl) as [(f & Ha)|(d & f & os & Hj & Ha)].
  - apply wp_typed, wp_loop, wp_bind, Ha. intros [r w] m' Hr _ _ Hl'%lock_within_at. simpl in Hr.
    by destruct Hr as [-> | ->]; apply wp_ret.
  - pose proof Hj as (Hq & _ & _ & _ & Hne).
    eapply blocks_typed, blocks_acquire_sync; [exact Ha|exact Hq|apply Hv|done..|].
    intros wk. eapply lock_at_joined; [exact Hj|].
    apply queue_at_set_weak, enqueued_queue_at; [done..|apply mode_opcode_ok].
Qed.

Lemma wpr_acquire_async_typed mode m wq cx begin_wait :
  lock_at m self -> vacant m wq -> cx ∉ woken m -> quiet t begin_wait ->
  wpr t (Lock.acquire_async_with (pager_attempt self mode) (Lock.mode_opcode mode) self wq cx begin_wait) m typed.
Proof.
  intros Hl Hv Ht Hquiet. destruct (attempt_cases mode m Hl) as [(f & Ha)|(d & f & os & Hj & Ha)].
  - apply wp_typed, wp_loop, wp_bind, Ha. intros [r w] m' Hr _ _ Hl'%lock_within_at. simpl in Hr.
    by destruct Hr as [-> | ->]; apply wp_ret.
  - pose proof Hj as (Hq & _). eapply blocks_typed, blocks_acquire_async; [exact Ha|exact Hq|apply Hv|done..|].
    intros wk. eapply lock_at_joined; [exact Hj|].
    apply queue_at_set_weak, enqueued_queue_at; [done..|apply mode_opcode_ok].
Qed.

(** ** Pagers *)


(** What [register_pager] does after the attempt leads to a state of the type. *)
Definition registers (p : Z) (en : Entry) (x : Z * Z) (m1 : mem) : Prop :=
  if (x.1 =? Lock.ACQUIRED) || (x.1 =? Lock.POISONED)
  then node m1 p en /\ forall wk, lock_at
         (set_weak wk (set_entries (<[wq_entry p := resolved x.1 en]> (entries m1)) m1)) self
  else wp t (try_push_wait_queue_entry self p x.2) m1 (fun b m2 => b = true /\ lock_at m2 self).

(** The entry of the pager is not linked anywhere while the attempt is made. *)
Lemma wp_register_settles mode is_sync p f m0 en :
  attempt_settles mode m0 f -> p ∉ f -> node m0 p en -> constructed self (Lock.mode_opcode mode) is_sync en ->
  wp t (pager_attempt self mode) m0 (fun x m1 => registers p en x m1).
Proof.
  intros Ha Hp Hn (_ & _ & Hst & _). apply Ha. intros [r w] m1 Hr EA EE Hl. unfold registers. simpl in *.
  assert ((r =? Lock.ACQUIRED) || (r =? Lock.POISONED) = true) as -> by by destruct Hr as [-> | ->].
  assert (node m1 p en) as Hn1 by by apply (node_ext m0). split; [done|].
  intros wk. apply lock_at_set_weak, (lock_within_at _ _ f), (lock_within_frame m1); [done..|].
  intros wq en' Hin Hn'. apply (node_insert_ne m1 wq p en' en); [done..|]. by intros ->.
Qed.

Lemma wp_register_joins mode is_sync p d f os m0 en :
  attempt_joins mode m0 d f os -> p ∉ f -> node m0 p en -> constructed self (Lock.mode_opcode mode) is_sync en ->
  wp t (pager_attempt self mode) m0 (fun x m1 => registers p en x m1).
Proof.
  intros [Hj Ha] Hp Hn (_ & Ho & Hst & Hprev & _). apply Ha. intros wk. unfold registers. simpl.
  pose proof Hj as (Hq & _). apply (queue_at_set_weak wk) in Hq.
  eapply wp_push_ok; [apply Hq|apply Hq|by eauto with saa|by apply node_set_weak|].
  split; [done|]. eapply lock_at_joined; [exact Hj|]. rewrite <- Ho.
  apply (queue_at_push (set_weak wk m0)); try done; [by left|]. rewrite Ho. apply mode_opcode_ok.
Qed.

Lemma wp_register_pager_typed mode is_sync m p :
  lock_at m self -> idle m p -> (forall d f os, queue_at m self false d f os -> p ∉ f) ->
  wp t (Lock.register_pager self p mode is_sync) m (fun _ m' => lock_at m' self).
Proof.
  intros Hl Hidle Hout. apply wp_register_pager; [done|]. intros m0 en Hn Hen (W & _ & _ & F).
  destruct Hl as [Hw|d f os Hq Hr Hs].
  - eapply wp_register_settles; [apply attempt_poisoned; by rewrite W|set_solver|done..].
  - assert (p ∉ f) as Hp by (by eapply Hout).
    assert (queue_at m0 self false d f os) as Hq0.
    { eapply queue_at_frame; [exact Hq|by rewrite W|]. intros wq en' Hin. apply F. by intros ->. }
    destruct (attempt_queue mode m0 d f os Hq0 Hr Hs);
      [by eapply wp_register_settles|by eapply wp_register_joins].
Qed.

(** ** Giving up *)

Lemma wp_drop_typed m d f os wq en :
  queue_at m self false d f os -> Forall (fun o => lock_request o = true) os ->
  wq ∈ f -> node m wq en -> e_addr en = self -> e_drop_callback en = Lock ->
  e_pollable en = true ->
  wp t (wait_queue_drop wq) m (fun _ m' => lock_at m' self).
Proof.
  intros Hq Hr Hin Hn Hself Hcb Hp.
  apply list_elem_of_split in Hin as (f1 & f2 & ->).
  pose proof (q_asks _ _ _ _ _ _ Hq) as Ha.
  apply Forall2_app_inv_l in Ha as (os1 & os2' & Ha1 & Ha2 & ->).
  apply Forall2_cons_inv_l in Ha2 as (o & os2 & _ & _ & ->).
  assert (length os1 = length f1) as Hlen by (symmetry; by eapply Forall2_length).
  eapply (wp_wait_queue_drop_waiting t Lock); [done..|]. intros m' Hc.
  eapply cancelled_dropped in Hc as (Hq' & _); [|done..].
  eapply (lock_at_granted _ _ d _ (os1 ++ os2)); [|exact Hq'].
  apply Forall_app in Hr as [Hr1 Hr2]. apply Forall_app. split; [done|]. by inversion Hr2.
Qed.

End methods.

(** ** The theorem *)

(** C25. The type of a lock is an invariant: from any state of the type, every
    method returns, or goes to sleep, in a state of the type, whatever it
    answers: those that do not wait; those that wait, as a thread or as a task,
    with or without a callback (one that does not access the shared memory); the
    registration of a pager, in any mode, that is new or has consumed its last
    result, or that is still registered; and so does the dropping of a wait
    queue that waits in the lock's queue. *)
Theorem lock_methods_preserve_type t self wq cx begin_wait m :
  lock_at m self -> quiet t begin_wait ->
  Forall (fun p => wp t p m (fun _ m' => lock_at m' self))
    [Lock.try_lock self; Lock.try_share self; Lock.release_lock self; Lock.release_share self;
     Lock.poison_lock self; Lock.clear_poison self; Lock.is_free self; Lock.is_locked self;
     Lock.is_shared self; Lock.is_poisoned self] /\
  (vacant m wq -> t ∉ tokens m ->
   Forall (fun p => wpr t p m (typed self))
     [Lock.lock_sync self wq; Lock.share_sync self wq;
      Lock.lock_sync_with self wq begin_wait; Lock.share_sync_with self wq begin_wait]) /\
  (vacant m wq -> cx ∉ woken m ->
   Forall (fun p => wpr t p m (typed self))
     [Lock.lock_async self wq cx; Lock.share_async self wq cx;
      Lock.lock_async_with self wq cx begin_wait; Lock.share_async_with self wq cx begin_wait]) /\
  (forall mode is_sync,
   (idle m wq /\ (forall d f os, queue_at m self false d f os -> wq ∉ f)) \/
     entry_is m (fun en => e_pollable en = true) wq ->
   wp t (Lock.register_pager self wq mode is_sync) m (fun _ m' => lock_at m' self)) /\
  (forall d f os en, queue_at m self false d f os -> Forall (fun o => lock_request o = true) os ->
   wq ∈ f -> node m wq en -> e_addr en = self -> e_drop_callback en = Lock ->
   e_pollable en = true -> wp t (wait_queue_drop wq) m (fun _ m' => lock_at m' self)).
Proof.
  intros Hl Hquiet. split; [|split; [|split; [|split]]].
  - repeat (apply list.Forall_cons; split); try done; try (by apply wp_look);
      try (apply wp_try_typed; set_solver); try (apply wp_release_typed; set_solver).
    + by apply wp_poison_typed.
    + by apply wp_clear_poison_typed.
  - intros Hv Ht. assert (forall mode, mode = Lock.MExclusive \/ mode = Lock.MShared -> forall bw, quiet t bw -> wpr t
      (Lock.acquire_sync_with (pager_attempt self mode) (Lock.mode_opcode mode) self wq bw) m (typed self)) as H
      by (intros; by apply wpr_acquire_sync_typed).
    repeat (apply list.Forall_cons; split); try done;
      (by apply (H Lock.MExclusive); eauto with saa) || (by apply (H Lock.MShared); eauto with saa).
  - intros Hv Ht. assert (forall mode, mode = Lock.MExclusive \/ mode = Lock.MShared -> forall bw, quiet t bw -> wpr t
      (Lock.acquire_async_with (pager_attempt self mode) (Lock.mode_opcode mode) self wq cx bw) m (typed self)) as H
      by (intros; by apply wpr_acquire_async_typed).
    repeat (apply list.Forall_cons; split); try done;
      (by apply (H Lock.MExclusive); eauto with saa) || (by apply (H Lock.MShared); eauto with saa).
  - intros mode is_sync [[Hidle Hout]|(en & Hn & Hp)]; [by apply wp_register_pager_typed|].
    apply wp_bind. eapply wp_is_pollable; [exact Hn|]. rewrite Hp. by apply wp_ret.
  - intros d f os en. apply wp_drop_typed.
Qed.

Lemma lock_methods_preserve_type_witness :
  let m := three_waiters Lock 1 Exclusive Shared Shared in
  let m' := set_anchors (<[anchor_addr wq4 := 0]> (anchors m)) m in
  lock_at m primitive /\
  wp 0%nat (Lock.release_share primitive) m (fun _ m' => lock_at m' primitive) /\
  wpr 7%nat (Lock.lock_sync primitive wq4) m (typed primitive) /\
  wpr 7%nat (Lock.share_async_with primitive wq4 5%nat (Ret tt)) m (typed primitive) /\
  wp 7%nat (Lock.register_pager primitive wq4 Lock.WaitExclusive false) m' (fun _ m' => lock_at m' primitive) /\
  wp 7%nat (wait_queue_drop wq2) m (fun _ m' => lock_at m' primitive).
Proof.
  intros m m'. assert (queue_at m primitive false 1 [wq1; wq2; wq3] [Exclusive; Shared; Shared]) as Hq
    by by_evaluation.
  assert (queue_at m' primitive false 1 [wq1; wq2; wq3] [Exclusive; Shared; Shared]) as Hq'
    by by_evaluation.
  assert (Forall (fun o => lock_request o = true) [Exclusive; Shared; Shared]) as Hr
    by (by repeat constructor).
  assert (settled 1 [Exclusive; Shared; Shared]) as Hs by (split; [discriminate|reflexivity]).
  pose proof (lock_usable _ _ 1 _ _ Hq Hr Hs) as Hl. pose proof (lock_usable _ _ 1 _ _ Hq' Hr Hs) as Hl'.
  split; [exact Hl|].
  destruct (lock_methods_preserve_type 0%nat primitive wq4 0%nat (Ret tt) m Hl (quiet_ret _)) as (Hcalls & _).
  destruct (lock_methods_preserve_type 7%nat primitive wq4 5%nat (Ret tt) m Hl (quiet_ret _))
    as (_ & Hwait & Hasync & _).
  destruct (lock_methods_preserve_type 7%nat primitive wq4 5%nat (Ret tt) m' Hl' (quiet_ret _))
    as (_ & _ & _ & Hpager & _).
  destruct (lock_methods_preserve_type 7%nat primitive wq2 0%nat (Ret tt) m Hl (quiet_ret _))
    as (_ & _ & _ & _ & Hdrop).
  assert (vacant m wq4) as Hv by by_evaluation.
  split; [|split; [|split; [|split]]].
  - rewrite !list.Forall_cons in Hcalls. apply Hcalls.
  - specialize (Hwait Hv ltac:(by_evaluation)). rewrite !list.Forall_cons in Hwait. apply Hwait.
  - specialize (Hasync Hv ltac:(by_evaluation)). rewrite !list.Forall_cons in Hasync. apply Hasync.
  - apply Hpager. left. split; [by_evaluation|]. intros d f os Hq0 Hin.
    destruct (queue_at_node _ _ _ _ _ _ _ Hq0 Hin) as (en & Hn). by destruct Hn as (_ & ? & _).
  - apply (Hdrop 1 _ _ (waiter Lock wq2 [wq1] Shared 2%nat) Hq Hr); by_evaluation || reflexivity.
Defined.
