(* ===== verification/GateSpec.v ===== *)
(** * The gate: correctness

    Entering, opening, sealing, permitting and rejecting, as theorems about
    the methods of [Gate.v]. *)

From S2P Require Import Prelude Prog Word Opcode Memory WaitQueue.
From S2P Require Import Geometry Results Queue SyncPrimitive Grant Enqueue Release Cancel Blocking Scenario Crate PagerSpec.
From S2P Require Pager Gate.

(** ** Specifications *)

(** The gate at [self] is in the state [s], and the entries of [f], oldest
    first, wait at it; only a controlled gate lets anybody wait. *)
Definition gate_at (m : mem) (self : Z) (s : Gate.State) (f : list Z) (os : list Opcode) : Prop :=
  queue_at m self false (Gate.u8_from_State s) f os /\ (s <> Gate.Controlled -> f = []).

#[global] Instance gate_at_dec m self s f os : Decision (gate_at m self s f os).
Proof. unfold gate_at. apply _. Defined.

(** Everybody in [f] has been told [r], the gate is in the state [s], and
    nobody waits at it. *)
Definition gate_released (self : Z) (r : Z) (s : Gate.State) (f : list Z) (m m' : mem) : Prop :=
  words m' = <[self := Gate.u8_from_State s]> (words m) /\
  gate_at m' self s [] [] /\
  (forall wq en, wq ∈ f -> node m wq en -> node m' wq (resolved r en) /\ notified en m') /\
  (forall e, e ∉ wq_entry <$> f -> entries m' !! e = entries m !! e) /\
  anchors m' = anchors m.

(** What a method that opens the gate once returns. *)
Definition controlled_result (s : Gate.State) (n : Z) : Result Z Gate.State :=
  if bool_decide (s = Gate.Controlled) then Ok n else Err s.

(** The result of entering a gate that was not controlled. *)
Definition entered (s : Gate.State) : Result Gate.State Gate.Error :=
  match s with
  | Gate.Sealed => Err Gate.ESealed
  | _ => Ok s
  end.

(** ** Facts *)

Lemma State_from_u8 s : Gate.State_from (Gate.u8_from_State s) = s.
Proof. by destruct s. Qed.

Lemma u8_state_data s : is_data (Gate.u8_from_State s).
Proof. by destruct s. Qed.

Lemma into_u8_is_u8 s e : is_u8 (Gate.into_u8 s e).
Proof. by destruct s, e as [[]|]. Qed.

#[export] Hint Resolve u8_state_data into_u8_is_u8 : saa.

(** Distinct wait queues are fewer than there are addresses. *)
Lemma nodup_bounded (l : list Z) n :
  NoDup l -> Forall (fun x => 0 < x < n) l -> Z.of_nat (length l) <= Z.max 0 (n - 1).
Proof.
  intros Hnd Hb. assert (l ⊆+ seqZ 1 (n - 1)) as Hsub.
  { apply NoDup_submseteq; [done|]. intros x Hx. rewrite list.Forall_forall in Hb.
    apply elem_of_seqZ. specialize (Hb x Hx). lia. }
  apply submseteq_length in Hsub. rewrite length_seqZ in Hsub. lia.
Qed.

Lemma queue_at_length m self l d f os :
  queue_at m self l d f os -> Z.of_nat (length f) < usize_modulus.
Proof.
  intros Hq. pose proof (nodup_bounded f usize_modulus (q_nodup _ _ _ _ _ _ Hq)) as Hlen.
  assert (0 < usize_modulus) by done.
  enough (Z.of_nat (length f) <= Z.max 0 (usize_modulus - 1)) by lia.
  apply Hlen. apply list.Forall_forall. intros x Hx.
  destruct (queue_at_node _ _ _ _ _ _ _ Hq Hx) as (en & (Hok & _)). unfold wq_ok in Hok. lia.
Qed.

(** Counting with [usize] does not wrap around. *)
Lemma usize_count n c :
  0 <= c -> c + Z.of_nat n < usize_modulus ->
  Nat.iter n (fun x => usize_add x 1) c = c + Z.of_nat n.
Proof.
  revert c. induction n as [|n IH]; intros c Hc Hn; [simpl; lia|].
  rewrite Nat.iter_succ, IH by lia. rewrite usize_add_small by lia. lia.
Qed.

Section rules.
  Context (t : tid).
  Implicit Types m : mem.

(** [wake_all] tells everybody and empties the queue. *)
Lemma wp_wake_all self s f os next err m (Q : Gate.State * Z -> mem -> Prop) :
  gate_at m self s f os ->
  (forall m',
     let s' := match next with Some s' => s' | None => s end in
     gate_released self (Gate.into_u8 s' err) s' f m m' -> Q (s, Z.of_nat (length f)) m') ->
  wp t (Gate.wake_all self next err) m Q.
Proof.
  intros [Hq _] HQ. pose proof Hq as [Hw Hd _ _ _ _ _ _].
  set (s' := match next with Some s' => s' | None => s end) in *.
  assert (match next with
          | Some new_value => Gate.u8_from_State new_value
          | None => Z.land (word (first_anchor (reverse f)) false (Gate.u8_from_State s)) DATA_MASK
          end = Gate.u8_from_State s') as Ew.
  { rewrite word_land_data by eauto with saa. by destruct next. }
  apply wp_bind. eapply (wp_fetch_update _ _ _ _ _ _ (Some (Gate.u8_from_State s'))); [done| |].
  { intros wk Q' HQ'. apply wp_ret. by rewrite Ew. }
  intros wk. rewrite word_land_data by eauto with saa. rewrite State_from_u8. fold s'.
  apply wp_bind. eapply wp_tell_everyone; [exact Hq|by eauto with saa|].
  intros m' (W & A & D & F & _). apply wp_ret.
  rewrite usize_count, Z.add_0_l by (done || by eapply queue_at_length).
  apply HQ. split; [exact W|]. split; [|split; [|split]].
  - split; [|done]. apply queue_at_empty; [|by eauto with saa]. rewrite W. apply lookup_insert_eq.
  - intros wq en Hin Hn. apply D; [by apply elem_of_reverse|by apply node_set_words].
  - intros e He. apply F. intros (y & -> & Hy)%list_elem_of_fmap.
    rewrite elem_of_reverse in Hy. apply He. by apply list_elem_of_fmap_2.
  - exact A.
Qed.

End rules.

(** The methods that let waiting tasks go. *)
Inductive gate_op : Type :=
| Permitting
| Rejecting
| Opening
| Sealing.

Definition run_op (self : Z) (op : gate_op) : program unit :=
  match op with
  | Permitting => Gate.permit self ;;; Ret tt
  | Rejecting => Gate.reject self ;;; Ret tt
  | Opening => Gate.open self ;;; Ret tt
  | Sealing => Gate.seal self ;;; Ret tt
  end.

(** What a waiting task is told by each of them, and the state of the gate
    after each of them, called in state [s]. *)
Definition told_by (s : Gate.State) (op : gate_op) : Result Gate.State Gate.Error :=
  match op with
  | Permitting => Ok s
  | Rejecting => Err Gate.Rejected
  | Opening => Ok Gate.Open
  | Sealing => Err Gate.ESealed
  end.

Definition state_after (s : Gate.State) (op : gate_op) : Gate.State :=
  match op with
  | Permitting | Rejecting => s
  | Opening => Gate.Open
  | Sealing => Gate.Sealed
  end.

(** The byte delivered by each of them. *)
Definition op_result (s : Gate.State) (op : gate_op) : Z :=
  Gate.into_u8 (state_after s op)
    match op with
    | Permitting | Opening => None
    | Rejecting => Some Gate.Rejected
    | Sealing => Some Gate.ESealed
    end.

Lemma op_result_told s op :
  reading Gate (op_result s op) None = told_by s op /\
  op_result s op <> ERROR_WRONG_MODE.
Proof. by destruct s, op. Qed.

(** The result a thread woken at a gate returns. *)
Definition gate_woken (t : tid) (p : Z) (x : Z * mem) (m : mem) : Prop :=
  m = x.2 /\ t ∈ tokens m /\ answered m p x.1 /\ x.1 <> ERROR_WRONG_MODE.

Section entering.
  Context (t : tid).
  Implicit Types m : mem.

Lemma wp_run_op self op f os m (Q : unit -> mem -> Prop) :
  gate_at m self Gate.Controlled f os ->
  (forall m', gate_released self (op_result Gate.Controlled op)
      (state_after Gate.Controlled op) f m m' -> Q tt m') ->
  wp t (run_op self op) m Q.
Proof.
  intros Hg HQ. destruct op; apply wp_bind.
  1,2: apply wp_bind; (eapply wp_wake_all; [exact Hg|]); intros m' s' Hm';
    apply wp_ret, wp_ret; by apply HQ.
  all: (eapply wp_wake_all; [exact Hg|]); intros m' s' Hm'; apply wp_ret; by apply HQ.
Qed.

(** A controlled gate makes the thread wait. *)
Lemma blocks_enter_sync self p f os m (W : mem -> Prop) :
  gate_at m self Gate.Controlled f os -> wq_ok p -> t ∉ tokens m ->
  W (enqueued Gate (asleep t) self p false 0 f (Wait 0) m) ->
  blocks t (Gate.enter_sync self p) m W (gate_woken t p)
    (fun x r m' => r = reading Gate x.1 None /\ m' = withdrawn p (unparked t x.2)).
Proof.
  intros [Hq _] Hok Ht HW. pose proof Hq as [Hw _ _ _ _ _ _ _]. simpl in Hw.
  unfold Gate.enter_sync, Gate.enter_sync_with.
  apply blocks_bind_wp, wp_wait_queue_default; [done|].
  apply blocks_bind_wp, wp_construct_fresh; [done|apply lookup_insert_eq|].
  rewrite with_node_default.
  apply blocks_bind_wp, wp_loop, wp_bind. eapply wp_load; [done|].
  rewrite word_land_data by (by eauto with saa). simpl.
  apply wp_bind. eapply wp_push_fresh; [exact Hq|done|]. intros en -> m1 Hn1.
  apply wp_bind, wp_ret, wp_ret.
  apply blocks_bind with (Q1 := fun x r m3 => r = reading Gate x.1 None /\
    acknowledged t (gate_woken t p) p x m3).
  - eapply blocks_poll_sync; [exact Hn1|done|done|done|done| |].
    + rewrite enqueued_eq in HW. unfold m1, with_node. simpl. rewrite insert_insert_eq. exact HW.
    + intros x m2 Hx. pose proof Hx as (E & H2 & H3 & H4). split; [done|]. split; [done|].
      split; [done|]. split; [done|]. intros en2 Hn2. split; [done|]. by exists m2, en2.
  - intros x r m3 [-> Hack]. apply wp_bind.
    eapply wp_wait_queue_drop_acknowledged; [exact Hack|]. intros m2 [-> _]. by apply wp_ret.
Qed.

(** An open or sealed gate does not. *)
Lemma wp_enter_sync_now self p s m (Q : Result Gate.State Gate.Error -> mem -> Prop) :
  gate_at m self s [] [] -> s <> Gate.Controlled -> wq_ok p ->
  (forall wk en, Q (entered s) (set_weak wk (withdrawn p (with_node p en m)))) ->
  wp t (Gate.enter_sync self p) m Q.
Proof.
  intros [Hq _] Hs Hok HQ. pose proof Hq as [Hw _ _ _ _ _ _ _].
  set (err := match s with Gate.Sealed => Some Gate.ESealed | _ => None end).
  set (r := Gate.into_u8 s err).
  assert (is_u8 r /\ r <> ERROR_WRONG_MODE /\ reading Gate r None = entered s)
    as (Hr & Hne & Hto) by (by destruct s).
  apply wp_bind, wp_wait_queue_default; [done|].
  apply wp_bind, wp_construct_fresh; [done|apply lookup_insert_eq|]. rewrite with_node_default.
  set (en := fresh_entry Gate self (Wait 0) true p).
  assert (node (with_node p en m) p en) as Hn by (by apply with_node_node).
  apply wp_bind, wp_loop, wp_bind. eapply wp_load; [done|].
  rewrite word_land_data, State_from_u8 by (by eauto with saa).
  assert (forall Q' : unit + unit -> mem -> Prop,
    (forall wk, Q' (inr tt)
       (set_weak wk (set_entries (<[wq_entry p := resolved r en]> (entries (with_node p en m)))
          (with_node p en m)))) ->
    wp t (e <- entry p ;; set_result e r ;;; Ret (inr tt)) (with_node p en m) Q') as Hset.
  { intros Q' HQ'. apply wp_bind. eapply wp_entry; [exact Hn|]. apply wp_bind.
    eapply wp_set_result; [apply Hn|by left|done|]. intros wk. apply wp_ret. apply HQ'. }
  destruct s; [done|..]; (apply Hset; intros wk; set (m1 := set_weak _ _);
    assert (node m1 p (resolved r en)) as Hn1
      by (eapply node_transfer; [exact Hn|done|apply lookup_insert_eq|done]);
    apply wp_bind; eapply (wp_poll_sync_resolved t Gate); [exact Hn1|done|done|done|done|done|];
    rewrite Hto; apply wp_bind; eapply wp_wait_queue_drop_consumed;
      [eapply node_transfer; [exact Hn1|done|apply lookup_insert_eq|done]|done|];
    apply wp_ret; specialize (HQ wk en); unfold withdrawn, with_node in *; simpl in *;
    rewrite ?delete_insert_eq in *; exact HQ).
Qed.

End entering.

(** ** Theorems *)

(** Results fit their byte: whatever a gate delivers, [to_result] reads back
    exactly the error, or the state when there is none; and no such byte is
    the one that reports a poll in the wrong mode. *)
Theorem gate_result_roundtrip s e :
  reading Gate (Gate.into_u8 s e) None =
    match e with
    | Some error => Err error
    | None => Ok s
    end /\
  is_u8 (Gate.into_u8 s e) /\ Gate.into_u8 s e <> ERROR_WRONG_MODE.
Proof. by destruct s, e as [[]|]. Qed.

(** C18. [open] and [seal] release everybody, from any state: they return the
    previous state and the number of waiting tasks, every waiting task is told
    that the gate is open, or gets the error [Sealed], and is woken, the queue
    is empty and the gate is in the new state. *)
Theorem open_seal_release_everyone t self s f os m :
  gate_at m self s f os ->
  wp t (Gate.open self) m (fun r m' => r = (s, Z.of_nat (length f)) /\
    gate_released self (op_result s Opening) Gate.Open f m m') /\
  wp t (Gate.seal self) m (fun r m' => r = (s, Z.of_nat (length f)) /\
    gate_released self (op_result s Sealing) Gate.Sealed f m m').
Proof.
  intros Hg. split; (eapply wp_wake_all; [exact Hg|]); intros m' s' Hm'; by split.
Qed.

Lemma open_seal_release_everyone_witness :
  let m := three_waiters Gate 0 (Wait 0) (Wait 0) (Wait 0) in
  wp 0%nat (Gate.open primitive) m (fun r m' => r = (Gate.Controlled, 3) /\
    gate_released primitive (op_result Gate.Controlled Opening) Gate.Open [wq1; wq2; wq3] m m') /\
  wp 0%nat (Gate.seal primitive) m (fun r m' => r = (Gate.Controlled, 3) /\
    gate_released primitive (op_result Gate.Controlled Sealing) Gate.Sealed [wq1; wq2; wq3] m m').
Proof.
  intros m. apply (open_seal_release_everyone 0%nat primitive Gate.Controlled [wq1; wq2; wq3]
    [Wait 0; Wait 0; Wait 0] m). by_evaluation.
Defined.

(** C21. [permit] and [reject] release everybody at a controlled gate, which
    stays controlled, and return how many they were; on an open or sealed gate
    they return its state and change nothing. *)
Theorem permit_reject_spec t self s f os m :
  gate_at m self s f os ->
  wp t (Gate.permit self) m (fun r m' => r = controlled_result s (Z.of_nat (length f)) /\
    gate_released self (op_result s Permitting) s f m m') /\
  wp t (Gate.reject self) m (fun r m' => r = controlled_result s (Z.of_nat (length f)) /\
    gate_released self (op_result s Rejecting) s f m m').
Proof.
  intros Hg. pose proof Hg as [_ Hnone]. unfold controlled_result.
  split; apply wp_bind; (eapply wp_wake_all; [exact Hg|]); intros m' s' Hm';
    unfold Gate.if_controlled; (destruct (decide (s = Gate.Controlled)) as [->|Hs];
      [by apply wp_ret|]); rewrite (bool_decide_eq_false_2 _ Hs);
    rewrite (Hnone Hs) in *; (apply wp_bind, wp_debug_assert; [done|]); by apply wp_ret.
Qed.

Lemma permit_reject_spec_witness :
  let m := three_waiters Gate 0 (Wait 0) (Wait 0) (Wait 0) in
  wp 0%nat (Gate.permit primitive) m (fun r m' => r = Ok 3 /\
    gate_released primitive (op_result Gate.Controlled Permitting) Gate.Controlled
      [wq1; wq2; wq3] m m') /\
  wp 0%nat (Gate.reject primitive) m (fun r m' => r = Ok 3 /\
    gate_released primitive (op_result Gate.Controlled Rejecting) Gate.Controlled
      [wq1; wq2; wq3] m m').
Proof.
  intros m. apply (permit_reject_spec 0%nat primitive Gate.Controlled [wq1; wq2; wq3]
    [Wait 0; Wait 0; Wait 0] m). by_evaluation.
Defined.

(** Entering a gate that is not controlled does not wait: it returns at once
    [Ok(Open)] at an open gate and the error [Sealed] at a sealed one, and
    leaves nothing behind. *)
Theorem enter_without_waiting t self p s m :
  gate_at m self s [] [] -> s <> Gate.Controlled -> vacant m p ->
  wp t (Gate.enter_sync self p) m (fun r m' => r = entered s /\
    words m' = words m /\ anchors m' = anchors m /\ entries m' = entries m /\
    tokens m' = tokens m).
Proof.
  intros Hg Hs (Hok & Ha & He). eapply wp_enter_sync_now; [done..|]. intros wk en.
  split; [done|]. simpl. rewrite !delete_insert_id by done. done.
Qed.

Lemma enter_without_waiting_witness :
  wp 0%nat (Gate.enter_sync primitive wq2) (nobody_waits 1) (fun r m' => r = Err Gate.ESealed /\
    words m' = {[primitive := 1]} /\ anchors m' = ∅ /\ entries m' = ∅ /\ tokens m' = ∅).
Proof.
  apply (enter_without_waiting 0%nat primitive wq2 Gate.Sealed (nobody_waits 1));
    [by_evaluation|done|by_evaluation].
Defined.

(** A thread waiting at a controlled gate is let go by each of the four
    methods another thread may call: [enter_sync] goes to sleep; resumed after
    [permit], [reject], [open] or [seal], it returns [Ok(Controlled)], the
    error [Rejected], [Ok(Open)] or the error [Sealed], and leaves nothing
    behind. *)
Theorem gate_lets_go t u self p op m :
  words m !! self = Some Gate.new -> vacant m p -> t ∉ tokens m ->
  wpr t (Gate.enter_sync self p) m (fun r =>
    match r with
    | Waits sleeping_thread m1 =>
        wp u (run_op self op) m1 (fun _ m2 =>
          wp t sleeping_thread m2 (fun result m3 =>
            result = told_by Gate.Controlled op /\
            words m3 = <[self := Gate.u8_from_State (state_after Gate.Controlled op)]> (words m) /\
            anchors m3 = anchors m /\ entries m3 = entries m))
    | _ => False
    end).
Proof.
  intros Hw Hv Ht. pose proof Hv as (Hok & Hva & Hve).
  assert (queue_at m self false 0 [] []) as Hq by (by apply queue_at_empty).
  eapply wpr_mono.
  { apply (blocks_enter_sync t self p [] [] m (fun m1 =>
      m1 = enqueued Gate (asleep t) self p false 0 [] (Wait 0) m)); [by split|done..]. }
  intros [|sp m1| |]; try done. intros [-> Hres].
  assert (gate_at (enqueued Gate (asleep t) self p false 0 [] (Wait 0) m) self Gate.Controlled [p] [Wait 0])
    as Hg1 by (split; [by apply (enqueued_queue_at _ _ _ _ _ _ [] [])|done]).
  eapply wp_run_op; [exact Hg1|]. intros m2 (W & _ & D & F & A).
  destruct (op_result_told Gate.Controlled op) as [Hto Hne].
  destruct (D p _ ltac:(set_solver) (enqueued_node Gate (asleep t) self p false 0 [] (Wait 0) m Hok))
    as [Hn2 Hk].
  eapply wp_mono.
  { apply (Hres (op_result Gate.Controlled op, m2)). split; [done|]. split; [by apply Hk|].
    split; [|done]. split; [|apply into_u8_is_u8]. eexists. by split. }
  intros r m3 (-> & ->). split; [done|]. simpl in *. rewrite W, A.
  split; [by rewrite insert_insert_eq|]. split; [by rewrite delete_insert_id|].
  apply map_eq. intros e. destruct (decide (e = wq_entry p)) as [->|Hx].
  - by rewrite lookup_delete_eq.
  - rewrite lookup_delete_ne by done. rewrite F; [|set_solver]. by rewrite lookup_insert_ne.
Qed.

Lemma gate_lets_go_witness :
  wpr 1%nat (Gate.enter_sync primitive wq3) (nobody_waits 0) (fun r =>
    match r with
    | Waits sleeping_thread m1 =>
        wp 2%nat (run_op primitive Rejecting) m1 (fun _ m2 =>
          wp 1%nat sleeping_thread m2 (fun result m3 =>
            result = Err Gate.Rejected /\
            words m3 = <[primitive := 0]> (words (nobody_waits 0)) /\
            anchors m3 = anchors (nobody_waits 0) /\ entries m3 = entries (nobody_waits 0)))
    | _ => False
    end).
Proof.
  apply (gate_lets_go 1%nat 2%nat primitive wq3 Rejecting (nobody_waits 0));
    [reflexivity|by_evaluation|by_evaluation].
Defined.

(** C28. Giving up at a gate is safe but not silent: when the wait queue of a
    waiting task is dropped, every other task waiting at that gate is let go
    with the error [SpuriousFailure], the gate stays controlled with nobody
    waiting, and the dropped wait queue is gone from it. *)
Theorem drop_waiting_at_gate t self f os p en m :
  gate_at m self Gate.Controlled f os -> p ∈ f -> node m p en ->
  e_addr en = self -> e_drop_callback en = Gate -> e_pollable en = true ->
  wp t (wait_queue_drop p) m (fun _ m' =>
    gate_at m' self Gate.Controlled [] [] /\ vacant m' p /\
    forall wq en', wq ∈ f -> wq <> p -> node m wq en' ->
      node m' wq (resolved (Gate.into_u8 Gate.Controlled (Some Gate.SpuriousFailure)) en') /\
      notified en' m').
Proof.
  intros Hg Hin Hn Hself Hcb Hp. set (r := Gate.into_u8 _ _).
  assert (is_waiting en) as Hwait.
  { destruct Hg as [[_ _ _ _ _ Hw _ _] _]. rewrite list.Forall_forall in Hw.
    destruct (Hw p Hin) as (en' & Hn' & ?). by rewrite <- (node_fun m p en' en). }
  eapply (wp_wait_queue_drop_pollable t Gate); [done..|].
  apply wp_bind. eapply wp_try_consume_result_none; [apply Hn|by apply waiting_no_result|].
  apply wp_bind. eapply wp_read_field; [apply Hn|]. rewrite Hself.
  apply wp_bind. eapply wp_wake_all; [exact Hg|]. intros m1 s' (W & [Hq1 _] & D & F & A). fold r in D.
  destruct (D p en Hin Hn) as [Hn1 _].
  set (m2 := set_entries (<[wq_entry p := consumed (resolved r en)]> (entries m1)) m1).
  assert (node m2 p (consumed (resolved r en))) as Hn2 by (by apply (node_insert m1 p (resolved r en))).
  apply wp_bind, wp_loop, wp_bind.
  eapply (wp_try_consume_result_some t _ _ (e_state en) r); [apply Hn1|exact Hwait|done| |].
  { done. }
  apply wp_ret, wp_ret. exists (consumed (resolved r en)). split; [exact Hn2|].
  unfold withdrawn, m2. simpl. rewrite delete_insert_eq.
  split; [|split].
  - split; [|done]. apply queue_at_empty; [|done]. simpl. rewrite W. apply lookup_insert_eq.
  - split; [by eauto with saa|]. simpl. by rewrite !lookup_delete_eq.
  - intros wq en' Hwq Hne Hn'. destruct (D wq en' Hwq Hn') as [Hn1' Hk]. split; [|exact Hk].
    apply (node_withdrawn m1 p wq (resolved r en)); done.
Qed.

Lemma drop_waiting_at_gate_witness :
  let m := three_waiters Gate 0 (Wait 0) (Wait 0) (Wait 0) in
  wp 0%nat (wait_queue_drop wq2) m (fun _ m' =>
    gate_at m' primitive Gate.Controlled [] [] /\ vacant m' wq2 /\
    forall wq en', wq ∈ [wq1; wq2; wq3] -> wq <> wq2 -> node m wq en' ->
      node m' wq (resolved (Gate.into_u8 Gate.Controlled (Some Gate.SpuriousFailure)) en') /\
      notified en' m').
Proof.
  intros m. apply (drop_waiting_at_gate 0%nat primitive [wq1; wq2; wq3] [Wait 0; Wait 0; Wait 0]
    wq2 (waiter Gate wq2 [wq1] (Wait 0) 2%nat) m);
    [by_evaluation|by_evaluation|by_evaluation|reflexivity..].
Defined.
