(* ===== verification/BarrierSpec.v ===== *)
(** * The barrier: correctness

    Arriving early, arriving last, and the reset of the counter, as theorems
    about [wait_sync] of [Barrier.v]. *)

From S2P Require Import Prelude Prog Word Opcode Memory WaitQueue.
From S2P Require Import Geometry Results Queue SyncPrimitive Grant Enqueue Release Cancel Relinquish Blocking Scenario Crate.
From S2P Require Import PagerSpec GateSpec.
From S2P Require Pager Barrier.

(** ** Specifications *)

(** The barrier at [self] is for [n] tasks, of which those of [f] have arrived
    and wait, oldest first. *)
Definition barrier_at (m : mem) (self n : Z) (f : list Z) : Prop :=
  Z.of_nat (length f) < n <= Barrier.MAX_TASKS /\
  queue_at m self false (n - Z.of_nat (length f)) f
    (replicate (length f) (BarrierOp false)).

(** What a task woken at a barrier has been told. *)
Definition barrier_woken (t : tid) (p : Z) (x : Z * mem) (m : mem) : Prop :=
  m = x.2 /\ t ∈ tokens m /\ answered m p x.1 /\ x.1 <> ERROR_WRONG_MODE.

#[global] Instance barrier_at_dec m self n f : Decision (barrier_at m self n f).
Proof. unfold barrier_at. apply _. Defined.

(** ** Facts *)

Lemma barrier_data n f :
  Z.of_nat (length f) < n <= Barrier.MAX_TASKS -> is_data (n - Z.of_nat (length (f : list Z))).
Proof.
  unfold is_data. change Barrier.MAX_TASKS with 63. unfold_masks. lia.
Qed.

(** The queue joined, under another count. *)
Lemma enqueued_queue_at_data S t self wq l d d' f os o m :
  queue_at m self l d f os -> vacant m wq -> opcode_ok o = true -> is_data d' ->
  queue_at (enqueued S (asleep t) self wq l d' f o m) self l d' (f ++ [wq]) (os ++ [o]).
Proof.
  intros Hq Hv Ho Hd'.
  pose proof (enqueued_queue_at S (asleep t) self wq l d f os o m Hq Hv Ho) as Hq1.
  apply (queue_at_set_word _ _ _ _ _ _ l d') in Hq1; [|done].
  rewrite reverse_app in Hq1. simpl in Hq1. unfold enqueued, with_node in *. simpl in *.
  by rewrite insert_insert_eq in Hq1.
Qed.

(** Telling everybody in a queue does not change other wait queues. *)
Lemma told_outside m m1 self l d f os p en :
  queue_at m self l d f os -> node m p en -> p ∉ f -> anchors m1 = anchors m ->
  (forall e, e ∉ wq_entry <$> reverse f -> entries m1 !! e = entries m !! e) -> node m1 p en.
Proof.
  intros Hq Hn Hni A F. eapply node_outside; [exact Hq|done..|].
  intros e He. apply F. by rewrite fmap_reverse, elem_of_reverse.
Qed.

Section rules.
  Context (t : tid).
  Implicit Types m : mem.

(** A task that is not the last one counts down and joins the queue. *)
Lemma wp_count_down_early self p l d f os m (Q : option unit -> mem -> Prop) :
  let en := fresh_entry Barrier self (BarrierOp false) true p in
  queue_at m self l d f os -> 2 <= d -> wq_ok p ->
  (forall m', node m' p (pushed_entry f en) ->
     m' = with_node p (pushed_entry f en)
       (set_words (<[self := word (anchor_addr p) l (d - 1)]> (words m)) m) -> Q None m') ->
  wp t (Barrier.count_down self p true (Ret tt)) (with_node p en m) Q.
Proof.
  intros en Hq Hd2 Hok HQ. pose proof Hq as [Hw Hd _ _ _ _ _ _].
  pose proof (queue_at_is_addr _ _ _ _ _ _ Hq) as Hfa.
  assert (is_addr (anchor_addr p)) as Hpa by eauto with saa.
  assert (is_data (d - 1)) as Hd1 by (unfold is_data in *; lia).
  assert (node (with_node p en m) p en) as Hn by (by apply with_node_node).
  apply wp_bind. eapply wp_load; [done|]. apply wp_loop.
  rewrite word_land_data by done. cbv zeta.
  assert ((d =? 0) = false) as -> by (apply Z.eqb_neq; lia).
  assert ((d =? 1) = false) as -> by (apply Z.eqb_neq; lia).
  apply wp_bind, wp_anchor_ptr; [done|].
  apply wp_bind, wp_debug_assert; [by rewrite addr_land_not_addr|].
  apply wp_bind. eapply wp_entry; [exact Hn|]. rewrite word_to_anchor_ptr by done.
  apply wp_bind. eapply wp_update_next; [exact Hn|done|].
  rewrite usize_sub_word, word_land_not_addr, word_lor_addr by done.
  apply wp_bind, wp_compare_exchange_ok; [done|].
  set (en1 := set_next (first_anchor (reverse f)) en). set (m1 := set_words _ _).
  assert (node m1 p en1) as Hn1.
  { eapply (node_transfer (with_node p en m)); [exact Hn|done|apply lookup_insert_eq|done]. }
  apply wp_bind. eapply wp_entry; [exact Hn1|].
  apply wp_bind. eapply wp_write_field; [apply Hn1|]. apply wp_bind, wp_ret, wp_ret.
  apply HQ.
  - by apply (node_insert m1 p en1).
  - unfold m1, with_node. simpl. by rewrite !insert_insert_eq.
Qed.

(** A task that is not the last one joins the queue and sleeps. *)
Lemma blocks_wait_sync self p l d f os m (W : mem -> Prop) :
  queue_at m self l d f os -> 2 <= d -> wq_ok p -> t ∉ tokens m ->
  W (enqueued Barrier (asleep t) self p l (d - 1) f (BarrierOp false) m) ->
  blocks t (Barrier.wait_sync self p) m W (barrier_woken t p)
    (fun x b m' => b = (x.1 =? 1) /\ m' = withdrawn p (unparked t x.2)).
Proof.
  intros Hq Hd2 Hok Ht HW. unfold Barrier.wait_sync, Barrier.wait_sync_with.
  apply blocks_bind_wp, wp_wait_queue_default; [done|].
  apply blocks_bind with (Q1 := fun x b m3 => b = (x.1 =? 1) /\
    acknowledged t (barrier_woken t p) p x m3).
  2:{ intros x b m3 [-> Hack]. apply wp_bind.
      eapply wp_wait_queue_drop_acknowledged; [exact Hack|]. intros m2 [-> _]. by apply wp_ret. }
  apply blocks_loop with (Q1 := fun x r m3 => r = inr (x.1 =? 1) /\
    acknowledged t (barrier_woken t p) p x m3).
  2:{ intros x r m3 [-> H3]. by apply wp_ret. }
  apply blocks_bind_wp, wp_construct_fresh; [done|apply lookup_insert_eq|].
  rewrite with_node_default.
  apply blocks_bind_wp. eapply wp_count_down_early; [done..|]. intros m2 Hn2 ->.
  apply blocks_bind with (Q1 := fun x r m3 => r = Ok (x.1 =? 1) /\
    acknowledged t (barrier_woken t p) p x m3).
  - eapply blocks_poll_sync; [exact Hn2|done|done|done|done| |].
    + rewrite enqueued_eq in HW. unfold with_node. simpl. rewrite insert_insert_eq. exact HW.
    + intros x m3 Hx. pose proof Hx as (E & H2 & H3 & H4). split; [done|]. split; [done|].
      split; [done|]. split; [done|]. intros en2 Hn3. split; [done|]. by exists m3, en2.
  - intros x r m3 (-> & H3). apply wp_ret. by split.
Qed.

(** The last task to arrive tells everybody and resets the counter. *)
Lemma wp_count_down_last self p f os m (Q : option unit -> mem -> Prop) :
  let en := fresh_entry Barrier self (BarrierOp false) true p in
  queue_at m self false 1 f os -> vacant m p -> Z.of_nat (length f) < Barrier.MAX_TASKS ->
  (forall m', words m' = <[self := 1 + Z.of_nat (length f)]> (words m) ->
     node m' p (resolved 1 en) ->
     (forall wq en', wq ∈ f -> node m wq en' -> node m' wq (resolved 0 en') /\ notified en' m') ->
     Q None m') ->
  wp t (Barrier.count_down self p true (Ret tt)) (with_node p en m) Q.
Proof.
  intros en Hq Hv Hlen HQ. pose proof Hv as (Hok & _). pose proof Hq as [Hw _ _ _ _ _ _ _].
  pose proof (queue_at_is_addr _ _ _ _ _ _ Hq) as Hfa.
  change Barrier.MAX_TASKS with 63 in *.
  assert (queue_at (with_node p en m) self false 1 f os) as Hq1 by (by apply queue_at_with_node).
  assert (node (with_node p en m) p en) as Hn by (by apply with_node_node).
  pose proof (vacant_notin _ _ _ _ _ _ _ Hq Hv) as Hni.
  apply wp_bind. eapply wp_load; [done|]. apply wp_loop.
  rewrite word_land_data by done. simpl.
  apply wp_bind, wp_compare_exchange_ok; [done|]. apply wp_bind.
  unfold Barrier.release_arrived.
  replace (set_words _ (with_node p en m)) with
    (set_weak (weak m) (set_words (<[self := 0]> (words (with_node p en m))) (with_node p en m)))
    by by destruct m.
  apply (wp_tell_everyone t _ _ _ _ _ _ _ _ (fun c => usize_add c 1) 1 _ _ Hq1); [done|].
  intros m1 (W & A & D & F & _).
  rewrite usize_count by (unfold usize_modulus; lia).
  apply wp_bind, wp_debug_assert; [apply Z.leb_le; unfold Barrier.MAX_TASKS; unfold_masks; lia|].
  apply wp_bind. eapply wp_swap; [rewrite W; apply lookup_insert_eq|].
  apply wp_bind, wp_ret. set (m2 := set_words _ m1).
  assert (node m2 p en) as Hn2.
  { apply node_set_words. eapply (told_outside (with_node p en m)); [done|done|done|exact A|exact F]. }
  apply wp_bind. eapply wp_entry; [exact Hn2|].
  apply wp_bind. eapply wp_set_result; [apply Hn2|by left|done|]. intros wk. apply wp_ret, HQ.
  - simpl. rewrite W. simpl. by rewrite insert_insert_eq.
  - eapply node_transfer; [exact Hn2|done|apply lookup_insert_eq|done].
  - intros wq en' Hin Hn'. assert (wq <> p) as Hne by (by intros ->).
    assert (node (with_node p en m) wq en') as Hn'' by (by apply with_node_frame).
    destruct (D wq en') as [Hd Hk]; [by apply elem_of_reverse|by apply node_set_words|].
    split; [|exact Hk]. eapply node_transfer; [exact Hd|done| |done]. simpl.
    rewrite lookup_insert_ne; [apply Hd|]. intros E. apply Hne. symmetry.
    apply (node_inj m2 p wq en (resolved 0 en')); [done|by apply node_set_words|done].
Qed.

(** The last task to arrive does not sleep. *)
Lemma wp_wait_sync_last self p f os m (Q : bool -> mem -> Prop) :
  queue_at m self false 1 f os -> vacant m p ->
  Z.of_nat (length f) < Barrier.MAX_TASKS ->
  (forall m', words m' = <[self := 1 + Z.of_nat (length f)]> (words m) -> vacant m' p ->
     (forall wq en, wq ∈ f -> node m wq en -> node m' wq (resolved 0 en) /\ notified en m') ->
     Q true m') ->
  wp t (Barrier.wait_sync self p) m Q.
Proof.
  intros Hq Hv Hlen HQ. pose proof Hv as (Hok & _).
  apply wp_bind, wp_wait_queue_default; [done|].
  apply wp_bind, wp_loop, wp_bind, wp_construct_fresh; [done|apply lookup_insert_eq|].
  rewrite with_node_default. set (en := fresh_entry Barrier self (BarrierOp false) true p).
  apply wp_bind. eapply wp_count_down_last; [done..|]. fold en. intros m3 W Hn3 D.
  apply wp_bind. eapply (wp_poll_sync_resolved t Barrier); [exact Hn3|done|done|done|done|done|].
  apply wp_ret, wp_bind. set (m4 := set_entries _ m3).
  assert (node m4 p (consumed (resolved 1 en))) as Hn4
    by (by apply (node_insert m3 p (resolved 1 en))).
  eapply wp_wait_queue_drop_consumed; [exact Hn4|done|]. apply wp_ret. apply HQ.
  - done.
  - split; [done|]. simpl. by rewrite !lookup_delete_eq.
  - intros wq en' Hin Hn'. destruct (D wq en' Hin Hn') as [Hd3 Hk]. split; [|exact Hk].
    assert (wq <> p) as Hne by (intros ->; by apply (vacant_notin _ _ _ _ _ _ _ Hq Hv)).
    apply (node_withdrawn m4 p wq (consumed (resolved 1 en))); [done| |done].
    by apply (node_insert_ne m3 wq p (resolved 0 en') (resolved 1 en)).
Qed.

End rules.

Lemma replicate_snoc {A} n (x : A) : replicate n x ++ [x] = replicate (S n) x.
Proof. induction n as [|n IH]; [done|]. simpl. by rewrite IH. Qed.

(** Everybody arrived: the counter is as at the start. *)
Lemma barrier_reset m self n :
  0 < n <= Barrier.MAX_TASKS -> words m !! self = Some n -> barrier_at m self n [].
Proof.
  intros Hn Hw. split; [simpl; lia|]. simpl. rewrite Z.sub_0_r. apply queue_at_empty; [done|].
  unfold is_data. change Barrier.MAX_TASKS with 63 in Hn. unfold_masks. lia.
Qed.

Lemma barrier_enqueued t self p n f m :
  barrier_at m self n f -> Z.of_nat (length f) + 1 < n -> vacant m p ->
  barrier_at (enqueued Barrier (asleep t) self p false (n - Z.of_nat (length f) - 1) f (BarrierOp false) m)
    self n (f ++ [p]).
Proof.
  intros [Hb Hq] Hlt Hv. unfold barrier_at. rewrite length_app. simpl length.
  split; [lia|].
  replace (n - Z.of_nat (length f + 1)) with (n - Z.of_nat (length f) - 1) by lia.
  replace (replicate (length f + 1) (BarrierOp false))
    with (replicate (length f) (BarrierOp false) ++ [BarrierOp false])
    by (by rewrite replicate_snoc, Nat.add_comm).
  apply (enqueued_queue_at_data _ _ _ _ _ (n - Z.of_nat (length f))); [done|done|done|].
  pose proof (barrier_data n f Hb) as Hd. unfold is_data in *. lia.
Qed.

(** ** Theorems *)

(** A task that arrives before the last one joins the waiting tasks, which
    the counter reflects, and sleeps; it returns [false] when it is told that
    the others have arrived. *)
Theorem early_arrival_waits t self p n f m :
  barrier_at m self n f -> Z.of_nat (length f) + 1 < n -> vacant m p -> t ∉ tokens m ->
  blocks t (Barrier.wait_sync self p) m
    (fun m' => barrier_at m' self n (f ++ [p]) /\
       entry_is m' (fun en => e_state en = WAKER_SET /\ e_monitor en = Sync (Some t)) p)
    (barrier_woken t p)
    (fun x b m' => b = (x.1 =? 1) /\ m' = withdrawn p (unparked t x.2)).
Proof.
  intros Hb Hlt Hv Ht. pose proof Hv as (Hok & _).
  eapply blocks_wait_sync; [apply Hb|lia|done|done|]. split; [by apply barrier_enqueued|].
  eexists. split; [by apply enqueued_node|done].
Qed.

Lemma early_arrival_waits_witness :
  let m := three_waiters Barrier 4 (BarrierOp false) (BarrierOp false) (BarrierOp false) in
  blocks 9%nat (Barrier.wait_sync primitive wq4) m
    (fun m' => barrier_at m' primitive 7 [wq1; wq2; wq3; wq4] /\
       entry_is m' (fun en => e_state en = WAKER_SET /\ e_monitor en = Sync (Some 9%nat)) wq4)
    (barrier_woken 9%nat wq4)
    (fun x b m' => b = (x.1 =? 1) /\ m' = withdrawn wq4 (unparked 9%nat x.2)).
Proof.
  intros m. apply (early_arrival_waits 9%nat primitive wq4 7 [wq1; wq2; wq3] m);
    [by_evaluation|done|by_evaluation|by_evaluation].
Defined.

(** C15. The last task to arrive does not wait and returns [true]: every waiting
    task is told the result [0] and woken, and the barrier is reset for the
    same number of tasks, with nobody waiting. *)
Theorem last_arrival_releases_all t self p n f m :
  barrier_at m self n f -> Z.of_nat (length f) + 1 = n -> vacant m p ->
  wp t (Barrier.wait_sync self p) m (fun b m' =>
    b = true /\ barrier_at m' self n [] /\ vacant m' p /\
    forall wq en, wq ∈ f -> node m wq en -> node m' wq (resolved 0 en) /\ notified en m').
Proof.
  intros [Hb Hq] Hn Hv. assert (n - Z.of_nat (length f) = 1) as E by lia. rewrite E in Hq.
  eapply wp_wait_sync_last; [exact Hq|done|lia|]. intros m' W Hv' D.
  split; [done|]. split; [|done]. apply barrier_reset; [lia|]. rewrite W.
  rewrite lookup_insert_eq. f_equal. lia.
Qed.

Lemma last_arrival_releases_all_witness :
  let m := three_waiters Barrier 1 (BarrierOp false) (BarrierOp false) (BarrierOp false) in
  wp 9%nat (Barrier.wait_sync primitive wq4) m (fun b m' =>
    b = true /\ barrier_at m' primitive 4 [] /\ vacant m' wq4 /\
    forall wq en, wq ∈ [wq1; wq2; wq3] -> node m wq en ->
      node m' wq (resolved 0 en) /\ notified en m').
Proof.
  intros m. apply (last_arrival_releases_all 9%nat primitive wq4 4 [wq1; wq2; wq3] m);
    [by_evaluation|done|by_evaluation].
Defined.

(** Rendezvous: at a barrier for two, the first task sleeps, the second one
    returns [true], and the first one, resumed, returns [false]; the barrier
    is then as before, and nothing of the wait queues remains. *)
Theorem barrier_rendezvous t u self p q m :
  words m !! self = Some (Barrier.with_count 2) -> t ∉ tokens m -> vacant m p -> vacant m q ->
  anchor_addr p <> anchor_addr q -> wq_entry p <> wq_entry q ->
  wpr t (Barrier.wait_sync self p) m (fun r =>
    match r with
    | Waits sleeping_thread m1 =>
        wp u (Barrier.wait_sync self q) m1 (fun last m2 => last = true /\
          wp t sleeping_thread m2 (fun last' m3 => last' = false /\
            barrier_at m3 self 2 [] /\ vacant m3 p))
    | _ => False
    end).
Proof.
  intros Hw Ht Hv (Hokq & Haq & Heq) Hane Hene. pose proof Hv as (Hok & _).
  assert (barrier_at m self 2 []) as Hb by (by apply barrier_reset).
  eapply wpr_mono.
  { apply (blocks_wait_sync t self p false 2 [] [] m (fun m1 =>
      m1 = enqueued Barrier (asleep t) self p false 1 [] (BarrierOp false) m)); [apply Hb|done..]. }
  intros [|sp m1| |]; try done. intros [-> Hres].
  pose proof (barrier_enqueued t self p 2 [] m Hb ltac:(done) Hv) as Hb1. simpl in Hb1.
  destruct Hb1 as [_ Hq1].
  assert (vacant (enqueued Barrier (asleep t) self p false 1 [] (BarrierOp false) m) q) as Hvq.
  { split; [done|]. simpl. by rewrite !lookup_insert_ne. }
  eapply wp_wait_sync_last; [exact Hq1|done|done|]. intros m2 W Hv2 D. split; [done|].
  pose proof (enqueued_node Barrier (asleep t) self p false 1 [] (BarrierOp false) m Hok) as Hn1.
  destruct (D p _ ltac:(set_solver) Hn1) as [Hn2 Hk].
  eapply wp_mono.
  { apply (Hres (0, m2)). split; [done|]. split; [by apply Hk|]. split; [|done].
    split; [|done]. eexists. by split. }
  intros b m3 (-> & ->). split; [done|]. split.
  - apply barrier_reset; [done|]. simpl. rewrite W. by rewrite lookup_insert_eq.
  - split; [done|]. simpl. by rewrite !lookup_delete_eq.
Qed.

Lemma barrier_rendezvous_witness :
  wpr 1%nat (Barrier.wait_sync primitive wq1) (nobody_waits 2) (fun r =>
    match r with
    | Waits sleeping_thread m1 =>
        wp 2%nat (Barrier.wait_sync primitive wq2) m1 (fun last m2 => last = true /\
          wp 1%nat sleeping_thread m2 (fun last' m3 => last' = false /\
            barrier_at m3 primitive 2 [] /\ vacant m3 wq1))
    | _ => False
    end).
Proof.
  apply (barrier_rendezvous 1%nat 2%nat primitive wq1 wq2 (nobody_waits 2));
    [reflexivity|by_evaluation|by_evaluation|by_evaluation|done|done].
Defined.
