(* ===== verification/Defects.v ===== *)
(** * What the code does not do

    Theorems about behaviours of the code that contradict what its
    documentation says, or what its other methods guarantee. *)

From S2P Require Import Prelude Prog Word Opcode Memory WaitQueue.
From S2P Require Import Geometry Results Queue SyncPrimitive Grant Enqueue Release Cancel Relinquish Blocking Scenario LockFacts BarrierSpec Crate Pager.
From S2P Require Lock Gate Barrier.

(** ** Pagers that wait for a lock *)

(** A fresh pager is registered in a waiting mode with a lock, and polled. *)
Definition wait_with_pager (self p : Z) (mode : Lock.Mode) : program (Result bool Error) :=
  pager_default p ;;;
  Lock.register_pager self p mode true ;;;
  poll_sync Lock p.

(** Takes a lock exclusively or shared. *)
Definition take_in_mode (self : Z) (o : Opcode) : program bool :=
  match o with
  | Exclusive => Lock.try_lock self
  | _ => Lock.try_share self
  end.

(** ** Lemmas *)

(** The state of a lock is examined, and the result decided is what the
    pager's owner gets. *)
Lemma wp_wait_with_pager t self p mode w m (Q : Result bool Error -> mem -> Prop) :
  words m !! self = Some w -> wq_ok p ->
  mode = Lock.WaitExclusive \/ mode = Lock.WaitShared ->
  let r := Lock.wait_result mode w in
  r = Lock.ACQUIRED \/ r = Lock.POISONED ->
  (forall m', words m' = words m -> Q (Ok (r =? Lock.ACQUIRED)) m') ->
  wp t (wait_with_pager self p mode) m Q.
Proof.
  intros Hw Hok Hmode r Hr HQ. unfold wait_with_pager.
  apply wp_bind, wp_wait_queue_default; [done|].
  set (en := fresh_entry Lock self (Lock.mode_opcode mode) true p).
  assert (is_u8 r) as Hu8 by (destruct Hr as [-> | ->]; done).
  apply wp_bind. unfold Lock.register_pager, is_registered. apply wp_bind.
  unfold is_pollable. apply wp_bind, wp_anchor_ptr; [done|]. apply wp_bind.
  unfold to_entry_ptr at 1. apply wp_bind. eapply wp_read_anchor; [apply lookup_insert_eq|].
  apply wp_ret. simpl. apply wp_ret.
  apply wp_bind, wp_construct_fresh; [done|apply lookup_insert_eq|].
  rewrite with_node_default. fold en.
  assert (node (with_node p en m) p en) as Hn by (by apply with_node_node).
  apply wp_bind, wp_loop, wp_bind.
  assert (forall Q' : Z * Z -> mem -> Prop, Q' (r, w) (with_node p en m) ->
    wp t match mode with
         | Lock.MExclusive => Lock.try_lock_internal_spin self
         | Lock.MShared => Lock.try_share_internal_spin self
         | Lock.WaitExclusive | Lock.WaitShared =>
             state <- load self ;; Ret (Lock.wait_result mode state, state)
         end (with_node p en m) Q') as Hatt.
  { intros Q' HQ'. destruct Hmode as [-> | ->]; apply wp_bind;
      (eapply wp_load; [done|]); by apply wp_ret. }
  apply Hatt. assert ((r =? Lock.ACQUIRED) || (r =? Lock.POISONED) = true) as ->
    by (by destruct Hr as [-> | ->]).
  apply wp_bind. eapply wp_entry; [exact Hn|]. apply wp_bind.
  eapply (wp_set_result t); [apply Hn|by left|done|]. intros wk. apply wp_ret, wp_ret.
  assert (resolved r en = set_poll true (set_state (0 + RESULT_SET + r + RESULT_FINALIZED) en))
    as Hres by done.
  set (m1 := set_weak _ _).
  assert (node m1 p (resolved r en)) as Hn1.
  { eapply node_transfer; [exact Hn|done|apply lookup_insert_eq|by rewrite Hres]. }
  unfold poll_sync, is_registered. apply wp_bind. eapply wp_is_pollable; [exact Hn1|].
  rewrite Hres. simpl. apply wp_bind. eapply wp_entry; [exact Hn1|]. apply wp_bind.
  unfold poll_result_sync. apply wp_bind. eapply wp_read_field; [apply Hn1|].
  rewrite Hres. simpl. apply wp_loop, wp_bind.
  eapply (wp_try_consume_result_some t _ _ 0 r); [apply Hn1|by left|done|by rewrite Hres|].
  apply wp_ret.
  assert ((r =? ERROR_WRONG_MODE) = false) as -> by (by destruct Hr as [-> | ->]).
  apply wp_bind, wp_debug_assert; [by destruct Hr as [-> | ->]|]. apply wp_ret. by apply HQ.
Qed.

(** A dropped entry spins while the state word shows the processing flag. *)
Lemma force_remove_diverges t S `{SyncPrimitive S} wq en self w m :
  node m wq en -> e_addr en = self -> words m !! self = Some w ->
  Z.land w LOCKED_FLAG = LOCKED_FLAG ->
  diverges t (force_remove_wait_queue_entry S (wq_entry wq)) m.
Proof.
  intros Hn Hself Hw Hl. apply bind_diverges_r. eapply wp_read_field; [apply Hn|]. rewrite Hself.
  apply bind_diverges_r. eapply wp_load; [done|].
  apply bind_diverges. apply (loop_diverges t _ (fun s m' => s = w /\ m' = m)); [|done].
  intros s m' [-> ->]. rewrite Hl, Z.eqb_refl.
  apply wp_bind, wp_yield_now, wp_bind. eapply wp_load; [done|]. apply wp_ret. by exists w.
Qed.

Lemma wait_queue_drop_diverges t wq en self w m :
  node m wq en -> e_addr en = self -> e_drop_callback en = Lock -> e_pollable en = true ->
  words m !! self = Some w -> Z.land w LOCKED_FLAG = LOCKED_FLAG ->
  diverges t (wait_queue_drop wq) m.
Proof.
  intros Hn Hself Hcb Hp Hw Hl. apply bind_diverges_r, wp_anchor_ptr; [by eauto with saa|].
  apply bind_diverges_r. eapply wp_to_entry_ptr; [done|]. rewrite wq_entry_eqb_0 by eauto with saa.
  apply bind_diverges, bind_diverges. apply bind_diverges_r.
  eapply wp_read_field; [apply Hn|]. rewrite Hp.
  apply bind_diverges_r. eapply wp_read_field; [apply Hn|]. rewrite Hcb.
  apply bind_diverges. by eapply (force_remove_diverges t Lock).
Qed.

(** A free lock is taken. *)
Lemma wp_take_free t self o m :
  o = Exclusive \/ o = Shared -> words m !! self = Some Lock.new ->
  wp t (take_in_mode self o) m (fun b m' => b = true /\
    words m' !! self = Some (acquired_count o) /\ anchors m' = anchors m /\ entries m' = entries m).
Proof.
  intros Ho Hw. destruct Ho as [-> | ->]; apply wp_bind; (eapply wp_load; [done|]); apply wp_bind.
  - eapply wp_try_lock_internal; [done|intros _|done..]. apply wp_ret. simpl. by rewrite lookup_insert_eq.
  - eapply wp_try_share_internal; [done|intros _|done..]. apply wp_ret. simpl. by rewrite lookup_insert_eq.
Qed.

(** The rules of a semaphore let everybody at a barrier pass. *)
Lemma grant_barrier d k :
  0 < d < Barrier.MAX_TASKS ->
  grant Barrier.MAX_TASKS d (replicate k (BarrierOp false)) = k /\
  granted_data Barrier.MAX_TASKS d (replicate k (BarrierOp false)) = d.
Proof.
  intros Hd. assert (grant Barrier.MAX_TASKS d (replicate k (BarrierOp false)) = k) as Eg.
  { induction k as [|k IH]; [done|]. simpl. rewrite Z.add_0_r.
    assert (inheritable Barrier.MAX_TASKS d (BarrierOp false) = true) as ->; [|by rewrite IH].
    apply orb_true_iff. right. apply Z.leb_le. simpl. lia. }
  split; [exact Eg|]. unfold granted_data. rewrite Eg. clear Eg.
  rewrite take_ge by (by rewrite length_replicate).
  assert (acquired_total (replicate k (BarrierOp false)) = 0) as ->; [|lia].
  induction k as [|k IH]; [done|]. exact IH.
Qed.

(** ** Theorems *)

(** C37. A wait-only pager misreads a poisoned lock, both ways: registered on
    a poisoned lock it is told that the lock is free; registered with
    [Mode::WaitShared] on a lock that has exactly two shared owners, and is
    not poisoned, it is told that the lock is poisoned. *)
Theorem waiting_pager_misreads_poison t self p mode m :
  wq_ok p -> mode = Lock.WaitExclusive \/ mode = Lock.WaitShared ->
  (words m !! self = Some Lock.POISONED_STATE ->
   wp t (wait_with_pager self p mode) m (fun r m' => r = Ok true /\ words m' = words m)) /\
  (words m !! self = Some 2 ->
   wp t (wait_with_pager self p Lock.WaitShared) m
     (fun r m' => r = Ok false /\ words m' = words m)).
Proof.
  intros Hok Hmode. split; intros Hw.
  - eapply wp_wait_with_pager; [done..| |].
    + left. by destruct Hmode as [-> | ->].
    + intros m' E. split; [|done]. by destruct Hmode as [-> | ->].
  - eapply wp_wait_with_pager; [done..|by right|by right|]. intros m' E. by split.
Qed.

Lemma waiting_pager_misreads_poison_witness :
  wp 0%nat (wait_with_pager primitive wq1 Lock.WaitExclusive) (nobody_waits 64)
    (fun r m' => r = Ok true /\ words m' = words (nobody_waits 64)) /\
  wp 0%nat (wait_with_pager primitive wq2 Lock.WaitShared) (nobody_waits 2)
    (fun r m' => r = Ok false /\ words m' = words (nobody_waits 2)).
Proof.
  assert (wq_ok wq1) as Hok1 by by_evaluation. assert (wq_ok wq2) as Hok2 by by_evaluation.
  split.
  - apply (waiting_pager_misreads_poison 0%nat primitive wq1 Lock.WaitExclusive (nobody_waits 64));
      [exact Hok1|by left|reflexivity].
  - apply (waiting_pager_misreads_poison 0%nat primitive wq2 Lock.WaitShared (nobody_waits 2));
      [exact Hok2|by right|reflexivity].
Defined.

(** C35. A waiting thread or task that gives up after the lock was poisoned (its
    wait queue is dropped before the result is consumed) spins for ever, as
    long as nobody clears the poison. *)
Theorem drop_after_poison_diverges t u self f os wq en m :
  queue_at m self false DATA_MASK f os -> wq ∈ f -> node m wq en ->
  e_addr en = self -> e_drop_callback en = Lock ->
  wp t (Lock.poison_lock self) m (fun poisoned m' =>
    poisoned = true /\ diverges u (wait_queue_drop wq) m').
Proof.
  intros Hq Hin Hn Hself Hcb. eapply wp_mono; [by apply (wp_poison_lock t self DATA_MASK f os)|].
  intros b m' [-> (W & _ & D & _)]. split; [done|].
  destruct (D wq en) as [Hn' _]; [by apply elem_of_reverse|by apply node_set_words|].
  eapply (wait_queue_drop_diverges u wq (resolved Lock.POISONED en) self Lock.POISONED_STATE).
  - exact Hn'.
  - rewrite <- Hself. unfold resolved. by case_bool.
  - rewrite <- Hcb. unfold resolved. by case_bool.
  - done.
  - rewrite W. apply lookup_insert_eq.
  - done.
Qed.

Lemma drop_after_poison_diverges_witness :
  queue_at (three_waiters Lock 63 Exclusive Shared (Wait 1)) primitive false 63
    [wq1; wq2; wq3] [Exclusive; Shared; Wait 1] /\
  wp 0%nat (Lock.poison_lock primitive) (three_waiters Lock 63 Exclusive Shared (Wait 1))
    (fun poisoned m' => poisoned = true /\ diverges 2%nat (wait_queue_drop wq2) m').
Proof.
  assert (queue_at (three_waiters Lock 63 Exclusive Shared (Wait 1)) primitive false 63
    [wq1; wq2; wq3] [Exclusive; Shared; Wait 1]) as Hq by by_evaluation.
  split; [exact Hq|].
  apply (drop_after_poison_diverges 0%nat 2%nat primitive [wq1; wq2; wq3]
    [Exclusive; Shared; Wait 1] wq2 (waiter Lock wq2 [wq1] Shared 2%nat));
    [exact Hq|by_evaluation|by_evaluation|reflexivity|reflexivity].
Defined.

(** C36. Dropping a wait queue whose wait ended with the lock being poisoned
    releases an ownership that it never had: in any queue of a lock, let some
    waiter ask for the lock, exclusively or shared; when the lock has been
    poisoned, the poison cleared, and the lock taken by somebody else in the
    same mode, then dropping that waiter (a pager nobody polled, a future)
    releases the lock, and anybody can lock it exclusively while the other one
    still holds it. *)
Theorem drop_poisoned_pager_releases_foreign_lock t self f os wq en m :
  queue_at m self false DATA_MASK f os -> wq ∈ f -> node m wq en ->
  e_addr en = self -> e_drop_callback en = Lock ->
  e_opcode en = Exclusive \/ e_opcode en = Shared ->
  wp (t 0%nat) (Lock.poison_lock self) m (fun poisoned m1 => poisoned = true /\
    wp (t 1%nat) (Lock.clear_poison self) m1 (fun cleared m2 => cleared = true /\
      wp (t 2%nat) (take_in_mode self (e_opcode en)) m2 (fun taken m3 => taken = true /\
        words m3 !! self = Some (acquired_count (e_opcode en)) /\
        wp (t 3%nat) (pager_drop wq) m3 (fun _ m4 => words m4 !! self = Some Lock.new /\
          wp (t 4%nat) (Lock.try_lock self) m4 (fun taken_again m5 =>
            taken_again = true /\ words m5 !! self = Some DATA_MASK))))).
Proof.
  intros Hq Hin Hn Hself Hcb Ho.
  eapply wp_mono; [by apply (wp_poison_lock _ self DATA_MASK f os)|].
  intros b m1 [-> (W & _ & D & _)]. split; [done|].
  assert (is_waiting en) as Hwait.
  { pose proof (q_waiting _ _ _ _ _ _ Hq) as Hw. rewrite list.Forall_forall in Hw.
    destruct (Hw wq Hin) as (en' & Hn' & Hw'). by rewrite (node_fun m wq en en'). }
  destruct (D wq en) as [Hn1 _]; [by apply elem_of_reverse|by apply node_set_words|].
  set (en1 := resolved Lock.POISONED en) in *.
  assert (e_addr en1 = self /\ e_drop_callback en1 = Lock /\ e_opcode en1 = e_opcode en /\ e_pollable en1 = true)
    as (Ea & Ec & Eo & Ep) by (unfold en1, resolved; case_bool; auto).
  assert (unacknowledged en1) as Hu.
  { unfold unacknowledged, en1, resolved. by apply (resolved_state_bits (e_state en) Lock.POISONED). }
  apply wp_bind, wp_compare_exchange_ok; [rewrite W; apply lookup_insert_eq|]. apply wp_ret. split; [done|].
  set (m2 := set_words _ m1). assert (node m2 wq en1) as Hn2 by (by apply node_set_words).
  assert (queue_at m2 self false 0 [] []) as Hq2 by (apply queue_at_empty; [apply lookup_insert_eq|done]).
  eapply wp_mono; [apply (wp_take_free (t 2%nat) self _ m2 Ho), lookup_insert_eq|].
  intros b m3 (-> & W3 & E3). split; [done|]. split; [done|].
  assert (node m3 wq en1) as Hn3 by (by apply (node_ext m2); [apply E3..|]).
  assert (queue_at m3 self false (acquired_count (e_opcode en)) [] []) as Hq3.
  { apply queue_at_empty; [by rewrite W3|]. by destruct Ho as [-> | ->]. }
  eapply (wp_wait_queue_drop_granted _ Lock self _ [] [] wq en1);
    [done|done|exact Hq3|set_solver|exact Hn3|done..| |exact Hu| | |];
    rewrite ?Eo; [by destruct Ho as [-> | ->]..|].
  intros m4 (W4 & _)%relinquished_alone. rewrite Z.sub_diag in W4.
  assert (words (withdrawn wq m4) !! self = Some Lock.new) as Hw4.
  { simpl. rewrite W4. apply lookup_insert_eq. }
  split; [done|]. apply wp_bind. eapply wp_load; [done|]. apply wp_bind.
  eapply wp_try_lock_internal; [done|intros _|done..]. apply wp_ret. split; [done|]. apply lookup_insert_eq.
Qed.

Lemma drop_poisoned_pager_releases_foreign_lock_witness :
  let m := three_waiters Lock 63 Exclusive Shared (Wait 1) in
  wp 5%nat (Lock.poison_lock primitive) m (fun poisoned m1 => poisoned = true /\
    wp 6%nat (Lock.clear_poison primitive) m1 (fun cleared m2 => cleared = true /\
      wp 7%nat (Lock.try_share primitive) m2 (fun taken m3 => taken = true /\
        words m3 !! primitive = Some 1 /\
        wp 8%nat (pager_drop wq2) m3 (fun _ m4 => words m4 !! primitive = Some 0 /\
          wp 9%nat (Lock.try_lock primitive) m4 (fun taken_again m5 =>
            taken_again = true /\ words m5 !! primitive = Some 63))))).
Proof.
  intros m. assert (queue_at m primitive false 63 [wq1; wq2; wq3] [Exclusive; Shared; Wait 1]) as Hq
    by by_evaluation.
  apply (drop_poisoned_pager_releases_foreign_lock (fun i => (5 + i)%nat) primitive _ _ wq2
    (waiter Lock wq2 [wq1] Shared 2%nat) m Hq); [by_evaluation|by_evaluation|reflexivity|reflexivity|by right].
Defined.

(** C38. [Gate::reset] does not reset: on a sealed or open gate it reports the
    previous state and leaves the gate in it. *)
Theorem gate_reset_keeps_state t self s m :
  words m !! self = Some (Gate.u8_from_State s) -> s <> Gate.Controlled ->
  wp t (Gate.reset self) m (fun r m' => r = Some s /\ words m' = words m).
Proof.
  intros Hw Hs. apply wp_bind.
  eapply (wp_fetch_update _ _ _ _ _ _ (Some (Gate.u8_from_State s))); [done| |].
  - intros wk Q' HQ'. destruct s; [done|..]; (apply wp_bind, wp_debug_assert; [done|]);
      by apply wp_ret.
  - intros wk. apply wp_ret. split; [by destruct s|]. simpl. by apply insert_id.
Qed.

Lemma gate_reset_keeps_state_witness :
  wp 0%nat (Gate.reset primitive) (nobody_waits 1)
    (fun r m' => r = Some Gate.Sealed /\ words m' = words (nobody_waits 1)).
Proof.
  apply (gate_reset_keeps_state 0%nat primitive Gate.Sealed (nobody_waits 1));
    [reflexivity|discriminate].
Defined.

(** C39. A task that gives up waiting at a barrier releases everybody else who
    waits there: at a barrier for [n] tasks of which some have not arrived,
    dropping the pager of any waiting task gives all the others the result of
    a completed barrier, and wakes them; nobody waits any more, and what is
    left is a barrier for the tasks that have not arrived, which are fewer than
    [n], only. *)
Theorem barrier_cancel_releases_others t self n f1 wq f2 en m :
  barrier_at m self n (f1 ++ wq :: f2) -> node m wq en -> e_addr en = self ->
  e_drop_callback en = Barrier -> e_pollable en = true ->
  let missing := n - Z.of_nat (length (f1 ++ wq :: f2)) in
  0 < missing < n /\
  wp t (pager_drop wq) m (fun _ m' =>
    barrier_at m' self missing [] /\ vacant m' wq /\
    forall wq' en1, wq' ∈ f1 ++ f2 -> node m wq' en1 ->
      exists en2, node m' wq' en2 /\ core en2 = core (resolved 0 en1) /\ notified en1 m').
Proof.
  intros [Hb Hq] Hn Hself Hcb Hp missing. pose proof (barrier_data _ _ Hb) as Hd. fold missing in Hq, Hd.
  assert (0 < missing < n) as Hm by (unfold missing; rewrite length_app; simpl; rewrite length_app in Hb; simpl in Hb; lia).
  split; [done|].
  assert (replicate (length (f1 ++ wq :: f2)) (BarrierOp false) =
    replicate (length f1) (BarrierOp false) ++ BarrierOp false :: replicate (length f2) (BarrierOp false)) as Eos
    by (by rewrite length_app, replicate_add).
  rewrite Eos in Hq.
  eapply (wp_wait_queue_drop_waiting t Barrier self missing f1 wq f2); [done|done|exact Hq|by rewrite length_replicate|done..|].
  intros m' Hc. eapply cancelled_dropped in Hc as (Hq' & Hv & Hg); [|done|exact Hq|by rewrite length_replicate|exact Hn].
  rewrite <- replicate_add, <- length_app in Hq', Hg.
  destruct (grant_barrier missing (length (f1 ++ f2)) ltac:(change Barrier.MAX_TASKS with 63 in *; lia)) as [Eg Ed].
  change (max_shared_owners Barrier) with Barrier.MAX_TASKS in *. rewrite Eg in Hg, Hq'. rewrite Ed in Hq'.
  rewrite drop_ge, drop_ge in Hq' by (rewrite ?length_replicate; done).
  rewrite take_ge in Hg by done. split; [|done]. split; [simpl; change Barrier.MAX_TASKS with 63 in *; lia|].
  simpl. by rewrite Z.sub_0_r.
Qed.

Lemma barrier_cancel_releases_others_witness :
  let m := three_waiters Barrier 1 (BarrierOp false) (BarrierOp false) (BarrierOp false) in
  barrier_at m primitive 4 [wq1; wq2; wq3] /\ 0 < 1 < 4 /\
  wp 5%nat (pager_drop wq2) m (fun _ m' =>
    barrier_at m' primitive 1 [] /\ vacant m' wq2 /\
    forall wq' en1, wq' ∈ [wq1; wq3] -> node m wq' en1 ->
      exists en2, node m' wq' en2 /\ core en2 = core (resolved 0 en1) /\ notified en1 m').
Proof.
  intros m. assert (barrier_at m primitive 4 [wq1; wq2; wq3]) as Hb by by_evaluation.
  split; [exact Hb|].
  apply (barrier_cancel_releases_others 5%nat primitive 4 [wq1] wq2 [wq3]
    (waiter Barrier wq2 [wq1] (BarrierOp false) 2%nat) m Hb); by_evaluation || reflexivity.
Defined.
