(* ===== verification/Interleaving.v ===== *)
(** * Interleavings

    Several threads run programs over one memory, one atomic action at a time,
    in any order.  [conforms] is a step-indexed logic for one thread of such a
    pool: each of its steps, taken from any memory that satisfies the
    invariant, keeps the invariant, may change the thread's own ghost state,
    and never faults; and whenever a condition on the other threads' ghost
    states holds, the thread, left alone, returns.  Threads that conform can
    be composed: the invariant holds in every reachable memory. *)

From Stdlib Require Import FunctionalExtensionality.
From S2P Require Import Prelude Prog.

(** Replaces the value of [g] at [t]. *)
Definition upd {X} (g : tid -> X) (t : tid) (x : X) : tid -> X :=
  fun t' => if decide (t' = t) then x else g t'.

Lemma upd_eq {X} (g : tid -> X) t x : upd g t x t = x.
Proof. unfold upd. by rewrite decide_True. Qed.

Lemma upd_ne {X} (g : tid -> X) t t' x : t' <> t -> upd g t x t' = g t'.
Proof. intros. unfold upd. by rewrite decide_False. Qed.

Lemma upd_id {X} (g : tid -> X) t : upd g t (g t) = g.
Proof.
  apply functional_extensionality. intros t'. unfold upd. case_decide; [by subst|done].
Qed.

Lemma upd_upd {X} (g : tid -> X) t x x' : upd (upd g t x) t x' = upd g t x'.
Proof. apply functional_extensionality. intros t'. unfold upd. by case_decide. Qed.

(** A weight summed over threads. *)
Definition total {X} (f : X -> Z) (l : list tid) (g : tid -> X) : Z :=
  foldr (fun t acc => f (g t) + acc) 0 l.

Lemma total_upd_notin {X} (f : X -> Z) l g t x : t ∉ l -> total f l (upd g t x) = total f l g.
Proof.
  induction l as [|t' l IH]; [done|]. intros Hni. simpl. rewrite upd_ne by set_solver.
  rewrite IH; [done|set_solver].
Qed.

Lemma total_upd {X} (f : X -> Z) l g t x :
  NoDup l -> t ∈ l -> total f l (upd g t x) = total f l g - f (g t) + f x.
Proof.
  intros Hnd. induction Hnd as [|t' l Hni Hnd IH]; [set_solver|].
  intros [->|Hin]%elem_of_cons; simpl.
  - rewrite upd_eq. fold (total f l (upd g t' x)). rewrite total_upd_notin by done.
    fold (total f l g). lia.
  - rewrite upd_ne by (intros ->; done). fold (total f l (upd g t x)). fold (total f l g).
    rewrite IH by done. lia.
Qed.

Lemma total_nonneg {X} (f : X -> Z) l g : (forall x, 0 <= f x) -> 0 <= total f l g.
Proof.
  intros Hf. induction l as [|t l IH]; simpl; [done|]. specialize (Hf (g t)).
  unfold total in *. lia.
Qed.

Lemma total_ge {X} (f : X -> Z) l g t :
  (forall x, 0 <= f x) -> t ∈ l -> f (g t) <= total f l g.
Proof.
  intros Hf. induction l as [|t' l IH]; [set_solver|].
  pose proof (total_nonneg f l g Hf) as H0. unfold total in *.
  intros [->|Hin]%elem_of_cons; simpl; [lia|]. specialize (IH Hin). specialize (Hf (g t')). lia.
Qed.

Lemma total_two {X} (f : X -> Z) l g t u :
  (forall x, 0 <= f x) -> t ∈ l -> u ∈ l -> t <> u -> f (g t) + f (g u) <= total f l g.
Proof.
  intros Hf. induction l as [|v l IH]; [set_solver|].
  intros Ht Hu Hne. pose proof (Hf (g v)) as Hv. change (total f (v :: l) g) with (f (g v) + total f l g).
  apply elem_of_cons in Ht as [->|Ht], Hu as [->|Hu]; [done| | |specialize (IH Ht Hu Hne); lia].
  - pose proof (total_ge f l g u Hf Hu). lia.
  - pose proof (total_ge f l g t Hf Ht). lia.
Qed.

Lemma total_ext {X Y} (f : X -> Z) (f' : Y -> Z) l g g' :
  (forall t, t ∈ l -> f (g t) = f' (g' t)) -> total f l g = total f' l g'.
Proof.
  intros H. unfold total. induction l as [|t l IH]; [done|]. simpl. rewrite H by by left.
  rewrite IH; [done|]. intros u Hu. apply H. by right.
Qed.

Section pool.
  Context {M A : Type}.

(** A pool: the program each thread has left to run, and the memory. *)
Definition pool : Type := (tid -> prog M A) * M.

(** One thread takes one step. *)
Inductive pool_step : pool -> pool -> Prop :=
| pool_step_thread ps m t p' m' :
    step t (ps t) m = SStep p' m' -> pool_step (ps, m) (upd ps t p', m').

(** Lets the threads step in the given order; a thread that cannot step is
    skipped. *)
Fixpoint schedule (order : list tid) (p : pool) : pool :=
  match order with
  | [] => p
  | t :: order' =>
      match step t (p.1 t) p.2 with
      | SStep p' m' => schedule order' (upd p.1 t p', m')
      | _ => schedule order' p
      end
  end.

Lemma schedule_reachable order p : rtc pool_step p (schedule order p).
Proof.
  revert p. induction order as [|t order IH]; intros [ps m]; simpl; [done|].
  destruct (step t (ps t) m) as [|p' m'| |] eqn:E; [apply IH| |apply IH..].
  eapply rtc_l; [by apply (pool_step_thread ps m t)|apply IH].
Qed.

(** A thread has returned. *)
Definition finished (p : pool) (t : tid) (a : A) : Prop := step t (p.1 t) p.2 = SDone a.

(** A thread waits: it is parked, or its task suspended. *)
Definition blocked (p : pool) (t : tid) : Prop := step t (p.1 t) p.2 = SBlocked.

(** A thread is about to fault. *)
Definition faulty (p : pool) (t : tid) : Prop := exists e, step t (p.1 t) p.2 = SFault e.

(** When no thread can take a step, each has returned or waits. *)
Lemma pool_stopped p :
  (forall p', ~ pool_step p p') -> (forall t, ~ faulty p t) ->
  forall t, (exists a, finished p t a) \/ blocked p t.
Proof.
  intros Hstop Hsafe t. unfold finished, blocked.
  destruct (step t (p.1 t) p.2) as [a|p' m'| |e] eqn:E; eauto.
  - exfalso. destruct p as [ps m]. by apply (Hstop (upd ps t p', m')), pool_step_thread.
  - exfalso. apply (Hsafe t). by exists e.
Qed.

(** When all threads have returned, none can take a step. *)
Lemma all_returned p : (forall t, exists a, finished p t a) -> forall p', ~ pool_step p p'.
Proof.
  intros Hall p' Hstep. destruct Hstep as [ps m t p' m' E]. destruct (Hall t) as [a Ha].
  rewrite (Ha : step t (ps t) m = SDone a) in E. discriminate.
Qed.

End pool.

Arguments pool M A : clear implicits.

(** A condition on the ghost states of the threads other than [t]. *)
Class OnOthers {G} (D : tid -> (tid -> G) -> Prop) : Prop :=
  on_others : forall t g x, D t g -> D t (upd g t x).

Section conforms.
  Context {M G : Type} (I : (tid -> G) -> M -> Prop).

(** What the other threads must have done for a thread to be sure to return
    when it runs alone. *)
  Context (D : tid -> (tid -> G) -> Prop) `{!OnOthers D}.

(** What is the case when a thread waits. *)
  Context (W : tid -> (tid -> G) -> M -> Prop).

(** Alone, the thread [t] returns with the invariant. *)
Definition solo (t : tid) {A} (p : prog M A) (g : tid -> G) (m : M) (Q : A -> G -> Prop) : Prop :=
  wp t p m (fun a m' => exists x', I (upd g t x') m' /\ Q a x').

(** The thread [t], running [p] with the ghost state [x], conforms for [n]
    steps, and returns only values and ghost states satisfying [Q]. *)
Fixpoint conforms (n : nat) (t : tid) {A} (p : prog M A) (x : G) (Q : A -> G -> Prop) : Prop :=
  match n with
  | O => True
  | S n' =>
      forall g m, g t = x -> I g m ->
        (D t g -> solo t p g m Q) /\
        match step t p m with
        | SDone a => Q a x
        | SStep p' m' => exists x', I (upd g t x') m' /\ conforms n' t p' x' Q
        | SBlocked => W t g m
        | SFault _ => False
        end
  end.

Lemma conforms_down n n' t A (p : prog M A) x Q :
  (n' <= n)%nat -> conforms n t p x Q -> conforms n' t p x Q.
Proof using Type.
  revert n' p x. induction n as [|n IH]; intros n' p x Hle Hc.
  { by assert (n' = 0%nat) as -> by lia. }
  destruct n' as [|n']; [done|]. intros g m Hg HI. destruct (Hc g m Hg HI) as [Hsolo Hstep].
  split; [done|]. destruct (step t p m); try done. destruct Hstep as (x' & HI' & Hc').
  exists x'. split; [done|]. apply IH; [lia|done].
Qed.

Lemma solo_mono t A (p : prog M A) g m (Q Q' : A -> G -> Prop) :
  solo t p g m Q -> (forall a x', Q a x' -> Q' a x') -> solo t p g m Q'.
Proof using Type. intros H HQ. eapply wp_mono; [done|]. intros a m' (x' & ? & ?). eauto. Qed.

Lemma conforms_ret n t A (a : A) x (Q : A -> G -> Prop) : Q a x -> conforms n t (Ret a) x Q.
Proof using Type.
  intros HQ. destruct n; [done|]. intros g m Hg HI. split; [|done]. intros _.
  apply wp_ret. exists x. split; [|done]. by rewrite <- Hg, upd_id.
Qed.

(** An atomic action, with the change of ghost state that goes with it. *)
Lemma conforms_act n t A (f : tid -> M -> outcome (A * M)) x (Q : A -> G -> Prop) :
  (forall g m, g t = x -> I g m ->
     match f t m with
     | Done (a, m') => exists x', I (upd g t x') m' /\ Q a x'
     | Blocked => W t g m /\ ~ D t g
     | Failed _ => False
     end) ->
  conforms n t (Act f) x Q.
Proof using Type.
  intros Hf. destruct n as [|n]; [done|]. intros g m Hg HI. specialize (Hf g m Hg HI). simpl.
  destruct (f t m) as [[a m']| |] eqn:E; [|by destruct Hf|done].
  split; [intros _; by eapply wp_act|]. destruct Hf as (x' & HI' & HQ).
  exists x'. split; [done|]. by apply conforms_ret.
Qed.

(** An action that leaves memory and ghost state alone. *)
Lemma conforms_read n t A (f : tid -> M -> outcome (A * M)) x (Q : A -> G -> Prop) :
  (forall g m, g t = x -> I g m -> exists a, f t m = Done (a, m) /\ Q a x) ->
  conforms n t (Act f) x Q.
Proof using Type.
  intros Hf. apply conforms_act. intros g m Hg HI. destruct (Hf g m Hg HI) as (a & -> & HQ).
  exists x. split; [|done]. by rewrite <- Hg, upd_id.
Qed.

Lemma conforms_debug_assert n t b x (Q : unit -> G -> Prop) :
  b = true -> Q tt x -> conforms n t (debug_assert b) x Q.
Proof using Type. intros -> HQ. apply conforms_read. eauto. Qed.

Lemma conforms_yield_now n t x (Q : unit -> G -> Prop) :
  Q tt x -> conforms n t yield_now x Q.
Proof using Type. intros HQ. apply conforms_read. eauto. Qed.

Lemma conforms_bind n t A B (p : prog M B) (k : B -> prog M A) x (R : B -> G -> Prop) Q :
  conforms n t p x R ->
  (forall n' b x', (n' <= n)%nat -> R b x' -> conforms n' t (k b) x' Q) ->
  conforms n t (Bind p k) x Q.
Proof using OnOthers0.
  revert p x. induction n as [|n IH]; intros p x Hp Hk; [done|].
  intros g m Hg HI. destruct (Hp g m Hg HI) as [Hsolo Hstep]. split.
  - intros HD. apply wp_bind. eapply wp_mono; [by apply Hsolo|].
    intros b m' (x' & HI' & HR). simpl in HR.
    destruct (Hk (S n) b x' (le_n _) HR (upd g t x') m') as [Hk' _]; [apply upd_eq|done|].
    eapply wp_mono; [apply Hk'; by apply on_others|]. intros a m'' (x'' & HI'' & HQ).
    rewrite upd_upd in HI''. eauto.
  - simpl. destruct (step t p m) as [b|p' m'| |] eqn:E; [|destruct Hstep as (x' & HI' & Hp')|done..].
    + specialize (Hk (S n) b x (le_n _) Hstep). by apply Hk.
    + exists x'. split; [done|]. apply IH; [done|]. intros n' b x'' Hle. apply Hk. lia.
Qed.

(** Sequencing that carries on from one result and ghost state. *)
Lemma conforms_then n t A B (p : prog M B) (k : B -> prog M A) x b x' Q :
  conforms n t p x (fun b' x'' => b' = b /\ x'' = x') ->
  (forall n', (n' <= n)%nat -> conforms n' t (k b) x' Q) ->
  conforms n t (Bind p k) x Q.
Proof using OnOthers0.
  intros Hp Hk. eapply conforms_bind; [done|]. intros n' b' x'' Hle [-> ->]. by apply Hk.
Qed.

(** A loop every iteration of which keeps a relation between the loop state
    and the ghost state, and which ends if the thread runs alone. *)
Lemma conforms_loop n t A S (body : S -> prog M (S + A)) (J : S -> G -> Prop) s x Q :
  (forall n' s x, (n' <= n)%nat -> J s x ->
     conforms n' t (body s) x (fun r x' =>
       match r with
       | inl s' => J s' x'
       | inr a => Q a x'
       end)) ->
  (forall g m s x, g t = x -> I g m -> J s x -> D t g -> solo t (Loop body s) g m Q) ->
  J s x -> conforms n t (Loop body s) x Q.
Proof using OnOthers0.
  intros Hb Hsolo. revert s x Hb. induction n as [n IH] using lt_wf_ind. intros s x Hb HJ.
  destruct n as [|n]; [done|]. intros g m Hg HI. split; [by eapply Hsolo|]. simpl. exists x. split.
  { rewrite <- Hg. by rewrite upd_id. }
  eapply conforms_bind; [apply (Hb n s x); [lia|done]|].
  intros n' [s'|a] x' Hle HR; simpl; [|by apply conforms_ret].
  apply IH; [lia| |done]. intros n'' s'' x'' Hle'. apply Hb. lia.
Qed.

Lemma conforms_mono n t A (p : prog M A) x (Q Q' : A -> G -> Prop) :
  conforms n t p x Q -> (forall a x', Q a x' -> Q' a x') -> conforms n t p x Q'.
Proof using Type.
  intros Hp HQ. revert p x Hp. induction n as [|n IH]; [done|]. intros p x Hp g m Hg HI.
  destruct (Hp g m Hg HI) as [Hsolo Hstep]. split.
  { intros HD. eapply solo_mono; eauto. }
  destruct (step t p m); try auto. destruct Hstep as (x' & HI' & Hp'). eauto.
Qed.

(** The ghost state of a thread that has not returned can be changed between
    two steps. *)
Lemma conforms_relabel n t A (p : prog M A) x Q :
  (forall m a, step t p m <> SDone a) ->
  (forall g m, g t = x -> I g m ->
     exists x', I (upd g t x') m /\ (W t (upd g t x') m -> W t g m) /\ conforms n t p x' Q) ->
  conforms n t p x Q.
Proof using OnOthers0.
  intros Hp Hx. destruct n as [|n]; [done|]. intros g m Hg HI.
  destruct (Hx g m Hg HI) as (x' & HI' & HW & Hc).
  destruct (Hc (upd g t x') m) as [Hsolo Hstep]; [apply upd_eq|done|]. split.
  - intros HD. eapply wp_mono; [by apply Hsolo, on_others|].
    intros a m' (x'' & HI'' & HQ). rewrite upd_upd in HI''. eauto.
  - specialize (Hp m). destruct (step t p m) as [a|p' m'| |]; [by destruct (Hp a)| |by apply HW|done].
    destruct Hstep as (x'' & HI'' & Hc'). rewrite upd_upd in HI''. eauto.
Qed.

(** Threads that conform can run together: in every reachable memory the
    invariant holds for some ghost state, which satisfies the postcondition
    of each thread that has returned; no thread is about to fault; a thread
    that waits has a reason; and a thread whose condition on the others holds
    has only to be scheduled to return. *)
Lemma pool_sound {A} (ps : tid -> prog M A) m g (Q : tid -> A -> G -> Prop) p :
  (forall t n, conforms n t (ps t) (g t) (Q t)) -> I g m ->
  rtc pool_step (ps, m) p ->
  exists g', I g' p.2 /\
    (forall t a, finished p t a -> Q t a (g' t)) /\ (forall t, ~ faulty p t) /\
    (forall t, blocked p t -> W t g' p.2) /\
    (forall t, D t g' -> solo t (p.1 t) g' p.2 (Q t)).
Proof using Type.
  intros Hc HI Hsteps. apply rtc_nsteps in Hsteps as (n & Hsteps).
  assert (forall t, conforms (n + 1) t (ps t) (g t) (Q t)) as Hc' by auto. clear Hc.
  revert ps m g Hc' HI Hsteps. induction n as [|n IH]; intros ps m g Hc HI Hsteps.
  - inversion Hsteps; subst. exists g. split; [done|]. repeat split.
    + intros t a Hf. destruct (Hc t g m eq_refl HI) as [_ Ht]. unfold finished in Hf. simpl in Hf.
      by rewrite Hf in Ht.
    + intros t (e & He). destruct (Hc t g m eq_refl HI) as [_ Ht]. simpl in He. by rewrite He in Ht.
    + intros t Hb. destruct (Hc t g m eq_refl HI) as [_ Ht]. unfold blocked in Hb. simpl in Hb.
      by rewrite Hb in Ht.
    + intros t. apply (Hc t g m eq_refl HI).
  - inversion Hsteps as [|? ? y ? Hstep Hrest]; subst.
    inversion Hstep as [? ? t p' m' E]; subst.
    destruct (Hc t g m eq_refl HI) as [_ Ht]. rewrite E in Ht. destruct Ht as (x' & HI' & Ht).
    apply (IH (upd ps t p') m' (upd g t x')); [|done|done].
    intros t'. unfold upd. case_decide; [by subst|].
    apply (conforms_down (S n + 1)); [lia|]. apply Hc.
Qed.

End conforms.

#[global] Opaque conforms.

(** Sequencing, with and without the relation in between, and looping. *)
Ltac conforms_seq := eapply conforms_bind; [apply _|..].

Tactic Notation "conforms_by" uconstr(post) :=
  eapply conforms_bind with (R := post); [apply _|..].

Tactic Notation "conforms_iter" uconstr(inv) :=
  apply conforms_loop with (J := inv); [apply _|..].
