(* ===== verification/Concurrent.v ===== *)
(** * Rules for interleaved accesses

    The rules of [conforms] for the accesses of [Memory.v] and for the
    read-only helpers of [WaitQueue.v].  Each rule asks, for every memory the
    invariant allows at the moment of the access, that the access is valid,
    that the invariant holds again afterwards (for a ghost state the prover
    chooses), and that the postcondition holds of what was read. *)

From S2P Require Import Prelude Prog Word Opcode Memory WaitQueue Geometry Interleaving.

Section rules.
  Context {G : Type} (I : (tid -> G) -> mem -> Prop).
  Context (D : tid -> (tid -> G) -> Prop) `{!OnOthers D}.
  Context (W : tid -> (tid -> G) -> mem -> Prop).
  Context (n : nat) (t : tid) (x : G).

(** The invariant can be kept, with a ghost state satisfying [Q]. *)
Definition kept (g : tid -> G) (m : mem) (Q : G -> Prop) : Prop :=
  exists x', I (upd g t x') m /\ Q x'.

(** Keeping the ghost state. *)
Lemma kept_same g m (Q : G -> Prop) : I g m -> Q (g t) -> kept g m Q.
Proof using Type. intros HI HQ. exists (g t). split; [|done]. by rewrite upd_id. Qed.

Lemma conforms_load self (Q : Z -> G -> Prop) :
  (forall g m, g t = x -> I g m ->
     exists w, words m !! self = Some w /\ kept g m (Q w)) ->
  conforms I D W n t (load self) x Q.
Proof using Type.
  intros H. apply conforms_act. intros g m Hg HI. by destruct (H g m Hg HI) as (w & -> & HQ).
Qed.

Lemma conforms_compare_exchange self c v (Q : Result Z Z -> G -> Prop) :
  (forall g m, g t = x -> I g m ->
     exists w, words m !! self = Some w /\
       (w = c -> kept g (set_words (<[self := v]> (words m)) m) (Q (Ok w))) /\
       (w <> c -> kept g m (Q (Err w)))) ->
  conforms I D W n t (compare_exchange self c v) x Q.
Proof using Type.
  intros H. apply conforms_act. intros g m Hg HI.
  destruct (H g m Hg HI) as (w & -> & Hok & Herr). case_bool; [by apply Hok|by apply Herr].
Qed.

Lemma conforms_compare_exchange_weak self c v (Q : Result Z Z -> G -> Prop) :
  (forall g m, g t = x -> I g m ->
     exists w, words m !! self = Some w /\ forall wk,
       (w = c -> kept g (set_weak wk (set_words (<[self := v]> (words m)) m)) (Q (Ok w))) /\
       kept g (set_weak wk m) (Q (Err w))) ->
  conforms I D W n t (compare_exchange_weak self c v) x Q.
Proof using Type.
  intros H. apply conforms_act. intros g m Hg HI. destruct (H g m Hg HI) as (w & -> & Hw).
  destruct (weak m) as [|[|] wk]; [|apply Hw|]; (case_bool; apply Hw; done).
Qed.

Lemma conforms_fetch_add self v (Q : Z -> G -> Prop) :
  (forall g m, g t = x -> I g m ->
     exists w, words m !! self = Some w /\
       kept g (set_words (<[self := usize_add w v]> (words m)) m) (Q w)) ->
  conforms I D W n t (fetch_add self v) x Q.
Proof using Type.
  intros H. apply conforms_act. intros g m Hg HI. by destruct (H g m Hg HI) as (w & -> & HQ).
Qed.

Lemma conforms_swap self v (Q : Z -> G -> Prop) :
  (forall g m, g t = x -> I g m ->
     exists w, words m !! self = Some w /\ kept g (set_words (<[self := v]> (words m)) m) (Q w)) ->
  conforms I D W n t (swap self v) x Q.
Proof using Type.
  intros H. apply conforms_act. intros g m Hg HI. by destruct (H g m Hg HI) as (w & -> & HQ).
Qed.

Lemma conforms_read_field {A} e (field : Entry -> A) (Q : A -> G -> Prop) :
  (forall g m, g t = x -> I g m ->
     exists en, entries m !! e = Some en /\ kept g m (Q (field en))) ->
  conforms I D W n t (read_field e field) x Q.
Proof using Type.
  intros H. apply conforms_act. intros g m Hg HI. by destruct (H g m Hg HI) as (en & -> & HQ).
Qed.

Lemma conforms_update_field {A} e (field : Entry -> A) f (Q : A -> G -> Prop) :
  (forall g m, g t = x -> I g m ->
     exists en, entries m !! e = Some en /\
       kept g (set_entries (<[e := f en]> (entries m)) m) (Q (field en))) ->
  conforms I D W n t (update_field e field f) x Q.
Proof using Type.
  intros H. apply conforms_act. intros g m Hg HI. by destruct (H g m Hg HI) as (en & -> & HQ).
Qed.

Lemma conforms_fetch_or_state e v (Q : Z -> G -> Prop) :
  (forall g m, g t = x -> I g m ->
     exists en, entries m !! e = Some en /\
       kept g (set_entries (<[e := set_state (Z.lor (e_state en) v) en]> (entries m)) m)
         (Q (e_state en))) ->
  conforms I D W n t (fetch_or_state e v) x Q.
Proof using Type.
  intros H. apply conforms_act. intros g m Hg HI. by destruct (H g m Hg HI) as (en & -> & HQ).
Qed.

Lemma conforms_compare_exchange_weak_state e c v (Q : Result Z Z -> G -> Prop) :
  (forall g m, g t = x -> I g m ->
     exists en, entries m !! e = Some en /\ forall wk,
       (e_state en = c ->
        kept g (set_weak wk (set_entries (<[e := set_state v en]> (entries m)) m))
          (Q (Ok (e_state en)))) /\
       kept g (set_weak wk m) (Q (Err (e_state en)))) ->
  conforms I D W n t (compare_exchange_weak_state e c v) x Q.
Proof using Type.
  intros H. apply conforms_act. intros g m Hg HI. destruct (H g m Hg HI) as (en & -> & Hw).
  destruct (weak m) as [|[|] wk]; [|apply Hw|]; (case_bool; apply Hw; done).
Qed.

Lemma conforms_write_entry e en (Q : unit -> G -> Prop) :
  (forall g m, g t = x -> I g m ->
     kept g (set_entries (<[e := en]> (entries m)) m) (Q tt)) ->
  conforms I D W n t (write_entry e en) x Q.
Proof using Type. intros H. apply conforms_act. intros g m Hg HI. by apply H. Qed.

Lemma conforms_drop_in_place e (Q : unit -> G -> Prop) :
  (forall g m, g t = x -> I g m ->
     is_Some (entries m !! e) /\ kept g (set_entries (delete e (entries m)) m) (Q tt)) ->
  conforms I D W n t (drop_in_place e) x Q.
Proof using Type.
  intros H. apply conforms_act. intros g m Hg HI. by destruct (H g m Hg HI) as ([en ->] & HQ).
Qed.

Lemma conforms_read_anchor a (Q : Z -> G -> Prop) :
  (forall g m, g t = x -> I g m ->
     exists v, anchors m !! a = Some v /\ kept g m (Q v)) ->
  conforms I D W n t (read_anchor a) x Q.
Proof using Type.
  intros H. apply conforms_act. intros g m Hg HI. by destruct (H g m Hg HI) as (v & -> & HQ).
Qed.

Lemma conforms_write_anchor a v (Q : unit -> G -> Prop) :
  (forall g m, g t = x -> I g m ->
     is_Some (anchors m !! a) /\ kept g (set_anchors (<[a := v]> (anchors m)) m) (Q tt)) ->
  conforms I D W n t (write_anchor a v) x Q.
Proof using Type.
  intros H. apply conforms_act. intros g m Hg HI. by destruct (H g m Hg HI) as ([v' ->] & HQ).
Qed.

Lemma conforms_alloc_anchor a (Q : unit -> G -> Prop) :
  (forall g m, g t = x -> I g m -> kept g (set_anchors (<[a := 0]> (anchors m)) m) (Q tt)) ->
  conforms I D W n t (alloc_anchor a) x Q.
Proof using Type. intros H. apply conforms_act. intros g m Hg HI. by apply H. Qed.

Lemma conforms_free_anchor a (Q : unit -> G -> Prop) :
  (forall g m, g t = x -> I g m -> kept g (set_anchors (delete a (anchors m)) m) (Q tt)) ->
  conforms I D W n t (free_anchor a) x Q.
Proof using Type. intros H. apply conforms_act. intros g m Hg HI. by apply H. Qed.

Lemma conforms_current (Q : tid -> G -> Prop) : Q t x -> conforms I D W n t current x Q.
Proof using Type. intros HQ. apply conforms_read. eauto. Qed.

Lemma conforms_unpark t' (Q : unit -> G -> Prop) :
  (forall g m, g t = x -> I g m -> kept g (set_tokens ({[t']} ∪ tokens m) m) (Q tt)) ->
  conforms I D W n t (unpark t') x Q.
Proof using Type. intros H. apply conforms_act. intros g m Hg HI. by apply H. Qed.

Lemma conforms_wake w (Q : unit -> G -> Prop) :
  (forall g m, g t = x -> I g m -> kept g (set_woken ({[w]} ∪ woken m) m) (Q tt)) ->
  conforms I D W n t (wake w) x Q.
Proof using Type. intros H. apply conforms_act. intros g m Hg HI. by apply H. Qed.

(** A thread parks; if its token is not there, the others have still
    something to do. *)
Lemma conforms_park (Q : unit -> G -> Prop) :
  (forall g m, g t = x -> I g m ->
     (t ∈ tokens m -> kept g (set_tokens (tokens m ∖ {[t]}) m) (Q tt)) /\
     (t ∉ tokens m -> W t g m /\ ~ D t g)) ->
  conforms I D W n t park x Q.
Proof using Type.
  intros H. apply conforms_act. intros g m Hg HI. destruct (H g m Hg HI) as [Hyes Hno]. case_decide; [by apply Hyes|by apply Hno].
Qed.

Lemma conforms_suspend w (Q : unit -> G -> Prop) :
  (forall g m, g t = x -> I g m ->
     (w ∈ woken m -> kept g (set_woken (woken m ∖ {[w]}) m) (Q tt)) /\
     (w ∉ woken m -> W t g m /\ ~ D t g)) ->
  conforms I D W n t (suspend w) x Q.
Proof using Type.
  intros H. apply conforms_act. intros g m Hg HI. destruct (H g m Hg HI) as [Hyes Hno]. case_decide; [by apply Hyes|by apply Hno].
Qed.

End rules.

(** ** Helpers *)

Section helpers.
  Context {G : Type} (I : (tid -> G) -> mem -> Prop).
  Context (D : tid -> (tid -> G) -> Prop) `{!OnOthers D}.
  Context (W : tid -> (tid -> G) -> mem -> Prop).

Lemma conforms_anchor_ptr n t x wq (Q : Z * Z -> G -> Prop) :
  wq_ok wq -> Q (anchor_addr wq, anchor_addr wq - wq) x ->
  conforms I D W n t (anchor_ptr wq) x Q.
Proof using OnOthers0.
  intros Hok HQ. pose proof (anchor_addr_spec wq Hok) as [Ha Hr].
  unfold anchor_ptr. unfold VIRTUAL_ALIGNMENT. rewrite anchor_offset by done.
  eapply conforms_then; [apply _|by apply conforms_debug_assert; [apply Z.eqb_eq, Hok|]|].
  intros n1 _. eapply conforms_then; [apply _|by apply conforms_debug_assert; [apply Z.eqb_eq|]|].
  intros n2 _. eapply conforms_then; [apply _|apply conforms_debug_assert; [apply Z.ltb_lt; lia|done]|].
  intros n3 _. by apply conforms_ret.
Qed.

(** The entry of a wait queue that is known to have one. *)
Lemma conforms_to_entry_ptr n t x wq (Q : Z -> G -> Prop) :
  wq_ok wq ->
  (forall g m, g t = x -> I g m -> anchors m !! anchor_addr wq = Some (anchor_value wq)) ->
  Q (wq_entry wq) x -> conforms I D W n t (to_entry_ptr (anchor_addr wq)) x Q.
Proof using OnOthers0.
  intros Hok Ha HQ. pose proof (anchor_addr_spec wq Hok) as [Hal Hr].
  eapply conforms_then; [apply _| |].
  { apply conforms_read. intros g m Hg HI. rewrite (Ha g m Hg HI). by eexists. }
  intros n1 _. pose proof (anchor_value_ne_0 wq Hok) as Hne. apply Z.eqb_neq in Hne. rewrite Hne.
  replace (u64_MAX - anchor_value wq) with (anchor_addr wq - wq) by (unfold anchor_value; lia).
  eapply conforms_then; [apply _|apply conforms_debug_assert; [by apply Z.eqb_eq|done]|].
  intros n2 _. eapply conforms_then; [apply _|apply conforms_debug_assert; [|done]|].
  - rewrite usize_sub_small by (unfold wq_ok in Hok; unfold usize_modulus in *; lia).
    apply Z.eqb_eq. replace (anchor_addr wq - (anchor_addr wq - wq)) with wq by lia. apply Hok.
  - intros n3 _. by apply conforms_ret.
Qed.

Lemma conforms_entry n t x wq (Q : Z -> G -> Prop) :
  wq_ok wq ->
  (forall g m, g t = x -> I g m -> anchors m !! anchor_addr wq = Some (anchor_value wq)) ->
  Q (wq_entry wq) x -> conforms I D W n t (entry wq) x Q.
Proof using OnOthers0.
  intros Hok Ha HQ. eapply conforms_then; [apply _|by apply conforms_anchor_ptr|].
  intros n1 _. cbn beta iota. by apply conforms_to_entry_ptr.
Qed.

(** [fetch_update], when what is read always satisfies [R]. *)
Lemma conforms_fetch_update n t x self f (R : Z -> Prop) (Q : Result Z Z -> G -> Prop) :
  (forall g, ~ D t g) -> (forall g m wk, I g m -> I g (set_weak wk m)) ->
  (forall g m, g t = x -> I g m -> exists w, words m !! self = Some w /\ R w) ->
  (forall n' w, R w ->
     conforms I D W n' t (f w) x (fun o x' => x' = x /\
       match o with
       | None => Q (Err w) x
       | Some v => forall g m wk, g t = x -> I g m -> words m !! self = Some w ->
           kept I t g (set_weak wk (set_words (<[self := v]> (words m)) m)) (Q (Ok w))
       end)) ->
  conforms I D W n t (fetch_update self f) x Q.
Proof using OnOthers0.
  intros HD Hweak Hread Hf. conforms_by (fun w x' => R w /\ x' = x).
  { apply conforms_load. intros g m Hg HI. destruct (Hread g m Hg HI) as (w & Hw & HR).
    exists w. split; [done|]. apply kept_same; [done|]. by rewrite Hg. }
  intros n1 w x' _ Hw. conforms_iter (fun w x' => R w /\ x' = x); [|by intros g m s ? _ _ _ []%HD|done].
  clear w x' Hw. intros n2 w x' _ [HR ->]. conforms_seq; [by apply Hf|].
  intros n3 [v|] x' _ [-> HQ]; [|by apply conforms_ret].
  conforms_by (fun r x' => match r with Ok _ => Q r x' | Err w => R w /\ x' = x end).
  2:{ intros n4 [r|r] x' _ Hx; by apply conforms_ret. }
  apply conforms_compare_exchange_weak. intros g m Hg HI. destruct (Hread g m Hg HI) as (w' & Hw' & HR').
  exists w'. split; [done|]. intros wk. split; [intros ->; by apply HQ|].
  exists x. split; [|done]. rewrite <- Hg, upd_id. by apply Hweak.
Qed.

End helpers.
