(* ===== verification/Delivery.v ===== *)
(** * Delivering one result to one owner

    How the owner of a wait queue and the thread that calls [set_result] on
    its entry share that entry, whatever else goes on: the phases each of them
    goes through, what the entry is like in each combination ([shape]), and
    the proofs that [set_result], [poll_result_sync], [poll_result_async] and
    the drop of the wait queue follow the phases in every interleaving.  The
    proofs are against an interface: an invariant of the whole system that
    can be opened at one entry ([OwnerView], [DelivererView]). *)

From S2P Require Import Prelude Prog Word Opcode Memory WaitQueue Geometry Results.
From S2P Require Import Queue Interleaving Concurrent.

(** Tells the owner. *)
Definition tell (K : Monitor) : program unit :=
  match K with
  | Sync (Some t) => unpark t
  | Async (Some w) => wake w
  | _ => Ret tt
  end.

(** What [set_result] does once the entry can be polled. *)
Definition publish (e result : Z) : program unit :=
  state <- read_field e e_state ;;
  state <- Loop (fun state =>
    debug_assert (Z.land state RESULT_SET =? 0) ;;;
    debug_assert (Z.land state RESULT_FINALIZED =? 0) ;;;
    let next_state := Z.lor (Z.lor state RESULT_SET) result in
    r <- compare_exchange_weak_state e state next_state ;;
    match r with
    | Ok _ => Ret (inr next_state)
    | Err new_state => Ret (inl new_state)
    end) state ;;
  notified <- (if Z.land state WAKER_SET =? WAKER_SET
               then
                 monitor <- update_field e e_monitor take_monitor ;;
                 match monitor with
                 | Async (Some waker) =>
                     fetch_or_state e RESULT_FINALIZED ;;; wake waker ;;; Ret true
                 | Sync (Some thread) =>
                     fetch_or_state e RESULT_FINALIZED ;;; unpark thread ;;; Ret true
                 | _ => Ret false
                 end
               else Ret false) ;;
  if (notified : bool) then Ret tt
  else fetch_or_state e RESULT_FINALIZED ;;; Ret tt.

Lemma set_result_publish e result :
  set_result e result = (write_field e (set_poll true) ;;; publish e result).
Proof. reflexivity. Qed.

(** ** The words of an entry's state *)

(** The state with the given flags; a result that is set is in its low
    byte. *)
Definition entry_state (set waker final : bool) (r : Z) : Z :=
  (Z.b2z set + 2 * Z.b2z waker + 4 * Z.b2z final) * 256 + (if set then r else 0).

Section entry_state.
  Context (r : Z) (Hr : is_u8 r) (set waker final : bool).

(** The byte under the flags. *)
Definition low (set : bool) : Z := if set then r else 0.

Lemma low_u8 : is_u8 (low set).
Proof. unfold low, is_u8 in *. destruct set; lia. Qed.

Lemma entry_state_land f :
  Z.land (entry_state set waker final r) (f * 256) =
  Z.land (Z.b2z set + 2 * Z.b2z waker + 4 * Z.b2z final) f * 256.
Proof. apply land_flag_shifted, low_u8. Qed.

Lemma entry_state_set :
  (Z.land (entry_state set waker final r) RESULT_SET =? RESULT_SET) = set /\
  (Z.land (entry_state set waker final r) RESULT_SET =? 0) = negb set.
Proof.
  change RESULT_SET with (1 * 256). rewrite entry_state_land.
  by destruct set, waker, final.
Qed.

Lemma entry_state_waker :
  (Z.land (entry_state set waker final r) WAKER_SET =? WAKER_SET) = waker.
Proof.
  change WAKER_SET with (2 * 256). rewrite entry_state_land. by destruct set, waker, final.
Qed.

Lemma entry_state_final :
  (Z.land (entry_state set waker final r) RESULT_FINALIZED =? RESULT_FINALIZED) = final /\
  (Z.land (entry_state set waker final r) RESULT_FINALIZED =? 0) = negb final.
Proof.
  change RESULT_FINALIZED with (4 * 256). rewrite entry_state_land.
  by destruct set, waker, final.
Qed.

Lemma entry_state_result :
  set = true -> Z.land (entry_state set waker final r) (Z.shiftl 1 8 - 1) = r.
Proof. intros ->. by apply land_result_byte. Qed.

Lemma entry_state_lor f :
  Z.lor (entry_state set waker final r) (f * 256) =
  Z.lor (Z.b2z set + 2 * Z.b2z waker + 4 * Z.b2z final) f * 256 + low set.
Proof. apply lor_u8_flags, low_u8. Qed.

Lemma entry_state_set_waker :
  Z.lor (entry_state set waker final r) WAKER_SET = entry_state set true final r.
Proof.
  change WAKER_SET with (2 * 256). rewrite entry_state_lor. unfold entry_state.
  by destruct set, waker, final.
Qed.

Lemma entry_state_finalize :
  Z.lor (entry_state set waker final r) RESULT_FINALIZED = entry_state set waker true r.
Proof.
  change RESULT_FINALIZED with (4 * 256). rewrite entry_state_lor. unfold entry_state.
  by destruct set, waker, final.
Qed.

Lemma entry_state_deliver :
  Z.lor (Z.lor (entry_state false waker false r) RESULT_SET) r = entry_state true waker false r.
Proof.
  unfold entry_state. change RESULT_SET with (1 * 256). rewrite lor_u8_flags by done.
  rewrite Z.add_0_r, lor_flags_u8 by done. by destruct waker.
Qed.

Lemma entry_state_clear :
  Z.land (entry_state false true false r) (u16_not WAKER_SET) = entry_state false false false r.
Proof. reflexivity. Qed.

End entry_state.

Lemma entry_state_inj r s w f s' w' f' :
  is_u8 r -> entry_state s w f r = entry_state s' w' f' r -> s = s' /\ w = w' /\ f = f'.
Proof.
  intros Hr E.
  pose proof (entry_state_set r Hr s w f) as [Es _].
  pose proof (entry_state_waker r Hr s w f) as Ew.
  pose proof (entry_state_final r Hr s w f) as [Ef _].
  rewrite E in Es, Ew, Ef.
  rewrite (proj1 (entry_state_set r Hr s' w' f')) in Es.
  rewrite (entry_state_waker r Hr s' w' f') in Ew.
  rewrite (proj1 (entry_state_final r Hr s' w' f')) in Ef. done.
Qed.

(** ** Phases *)

(** Where the owner is: polling; sure that its registration will not be used,
    so that it may write the monitor; the same, the monitor written; about to
    sleep, or asleep; having seen the final state; having consumed the result
    (and cleared the pollable flag); having dropped the wait queue. *)
Inductive owning : Type :=
| Ready
| Clear
| Armed
| Asleep
| Seen
| Taken (cleared : bool)
| Freed.

(** Where the delivering thread is: before the result is set; the result set,
    and the owner registered or not at that moment; the owner's monitor
    taken; the result final, the owner not yet told; finished. *)
Inductive delivering : Type :=
| Start
| Published (registered : bool)
| Notifying
| Final
| Delivered.

Definition is_set (d : delivering) : bool :=
  match d with Start => false | _ => true end.

Definition is_final (d : delivering) : bool :=
  match d with Final | Delivered => true | _ => false end.

(** The delivering thread will use, or has yet to look at, the monitor. *)
Definition registered (d : delivering) (waker : bool) : bool :=
  match d with
  | Start => waker
  | Published b => b
  | _ => false
  end.

(** The delivering thread will tell the owner. *)
Definition promised (d : delivering) (waker : bool) : bool :=
  match d with
  | Start => waker
  | Published b => b
  | Notifying | Final => true
  | Delivered => false
  end.

(** Monitors of threads and of tasks. *)
Definition same_kind (K K' : Monitor) : bool :=
  match K, K' with
  | Sync _, Sync _ | Async _, Async _ => true
  | _, _ => false
  end.

(** The owner has been told. *)
Definition alerted (K : Monitor) (m : mem) : Prop :=
  match K with
  | Sync (Some t) => t ∈ tokens m
  | Async (Some w) => w ∈ woken m
  | _ => False
  end.

(** A monitor that names somebody. *)
Definition names_someone (K : Monitor) : Prop :=
  match K with
  | Sync (Some _) | Async (Some _) => True
  | _ => False
  end.

(** The entry is still the owner's to consume. *)
Definition present (ow : owning) : bool :=
  match ow with Taken _ | Freed => false | _ => true end.

(** The owner has seen the result. *)
Definition knows (ow : owning) : bool :=
  match ow with Seen | Taken _ | Freed => true | _ => false end.

(** What a step at one entry leaves alone: everything else, and what others
    have been told. *)
Record local (wq : Z) (K : Monitor) (m m' : mem) : Prop := {
  local_words : words m' = words m;
  local_anchors a : a <> anchor_addr wq -> anchors m' !! a = anchors m !! a;
  local_entries e : e <> wq_entry wq -> entries m' !! e = entries m !! e;
  local_alerted K' : K' <> K -> alerted K' m -> alerted K' m';
}.

(** The parts of an entry that its owner and the delivering thread leave
    alone. *)
Definition links (en : Entry) : Entry := set_state 0 (set_poll false (set_monitor (Sync None) en)).

(** The entry says that it can be polled. *)
Definition polled (wq : Z) (m : mem) : Prop :=
  exists en, entries m !! wq_entry wq = Some en /\ e_pollable en = true.

Definition same_links (wq : Z) (m m' : mem) : Prop :=
  anchors m' !! anchor_addr wq = anchors m !! anchor_addr wq /\
  links <$> entries m' !! wq_entry wq = links <$> entries m !! wq_entry wq /\
  (polled wq m -> polled wq m').

(** An update both of them may make while the result is not consumed. *)
Definition keeps (en en' : Entry) : Prop :=
  links en' = links en /\ (e_pollable en = true -> e_pollable en' = true).

Section shape.
  Context (wq : Z) (K : Monitor) (r : Z).

(** What the owner's phase says of the entry. *)
Definition owning_ok (ow : owning) (de : delivering) (en : Entry) (waker : bool) : Prop :=
  match ow with
  | Clear => registered de waker = false
  | Armed => registered de waker = false /\ (is_set de = false -> e_monitor en = K)
  | Seen => is_final de = true
  | _ => True
  end.

Definition entry_ok (ow : owning) (de : delivering) (en : Entry) (waker : bool) : Prop :=
  same_kind K (e_monitor en) = true /\
  e_state en = entry_state (is_set de) waker (is_final de) r /\
  (registered de waker = true -> e_monitor en = K) /\
  owning_ok ow de en waker.

(** The entry is there, and a sleeping owner is or will be told. *)
Definition live (ow : owning) (de : delivering) (m : mem) : Prop :=
  present ow = true /\
  exists en waker, node m wq en /\ entry_ok ow de en waker /\
    (ow = Asleep -> alerted K m \/ promised de waker = true).

Definition shape (ow : owning) (de : delivering) (m : mem) : Prop :=
  match ow with
  | Freed => entries m !! wq_entry wq = None /\ is_final de = true
  | Taken cleared =>
      (exists en, node m wq en /\ e_state en = 0 /\ (cleared = true -> e_pollable en = false)) /\
      is_final de = true
  | _ => live ow de m
  end.


End shape.

(** ** The interface *)

Section views.
  Context {G : Type} (I : (tid -> G) -> mem -> Prop).
  Context (D : tid -> (tid -> G) -> Prop) (W : tid -> (tid -> G) -> mem -> Prop).
  Context (wq : Z) (K : Monitor).

(** The invariant can be opened at the entry of the owner [o], which expects
    one of the results [R].  Its ghost state is [own] of the result, which does
    not matter until the owner has seen it, and of its phase, and [after] of
    the result once the wait queue is dropped. *)
Class OwnerView (R : Z -> Prop) (o : tid) (own : Z -> owning -> G) (after : Z -> G) : Prop := {
  owner_open g m v ow :
    I g m -> g o = own v ow -> ow <> Freed -> (knows ow = true -> R v) ->
    exists r de, R r /\ (knows ow = true -> r = v) /\ shape wq K r ow de m /\ (D o g -> de = Delivered) /\
      forall ow' m', local wq K m m' ->
        (present ow' = true -> present ow = true /\ same_links wq m m') ->
        shape wq K r ow' de m' -> I (upd g o (own r ow')) m';
  owner_blind v v' ow : knows ow = false -> own v ow = own v' ow;
  owner_blocked g m v : I g m -> g o = own v Asleep -> ~ alerted K m -> W o g m;
  owner_after g m v :
    I g m -> g o = own v Freed ->
    I (upd g o (after v)) (set_anchors (delete (anchor_addr wq) (anchors m)) m);
}.

  Context (r : Z).

(** The invariant can be opened at the entry the thread [d] delivers to. *)
Class DelivererView (d : tid) (del : delivering -> G) : Prop := {
  deliverer_open g m de :
    I g m -> g d = del de -> is_final de = false ->
    exists ow, shape wq K r ow de m /\
      forall de' m', local wq K m m' -> same_links wq m m' ->
        shape wq K r ow de' m' -> I (upd g d (del de')) m';
  deliverer_told g m m' :
    I g m -> g d = del Final ->
    words m' = words m -> anchors m' = anchors m -> entries m' = entries m ->
    (forall K', alerted K' m -> alerted K' m') -> alerted K m' ->
    I (upd g d (del Delivered)) m';
}.

End views.

Arguments owner_open {G I D W wq K R o own after _} g m v ow.
Arguments owner_blind {G I D W wq K R o own after _} v v' ow.
Arguments owner_blocked {G I D W wq K R o own after _} g m v.
Arguments owner_after {G I D W wq K R o own after _} g m v.
Arguments deliverer_open {G I wq K r d del _} g m de.
Arguments deliverer_told {G I wq K r d del _} g m m'.

Section delivery.
  Context {G : Type} (I : (tid -> G) -> mem -> Prop).
  Context (D : tid -> (tid -> G) -> Prop) `{!OnOthers D}.
  Context (W : tid -> (tid -> G) -> mem -> Prop).
  Context (wq : Z) (K : Monitor) (r : Z).
  Context (Hwq : wq_ok wq) (Hr : is_u8 r).

Abbreviation conforming := (conforms I D W).
Abbreviation shape := (shape wq K r).
Abbreviation live := (live wq K r).
Abbreviation entry_ok := (entry_ok K r).

(** Before the result is final, the entry is live. *)
Lemma shape_live ow de m : shape ow de m -> is_final de = false -> live ow de m.
Proof. destruct ow; simpl; try done; intros [_ ->]; done. Qed.

Lemma live_shape ow de m : live ow de m -> shape ow de m.
Proof. intros Hl. destruct ow; try exact Hl; by destruct Hl as [? _]. Qed.

(** An update of the entry. *)
Lemma live_update wk m en ow' de' en' w' :
  node m wq en -> e_offset en' = e_offset en -> present ow' = true ->
  entry_ok ow' de' en' w' -> (ow' = Asleep -> alerted K m \/ promised de' w' = true) ->
  shape ow' de' (set_weak wk (set_entries (<[wq_entry wq := en']> (entries m)) m)).
Proof.
  intros Hn Ho Hp Hok Ha. apply live_shape. split; [done|]. exists en', w'.
  split; [apply node_set_weak; by eapply node_insert|]. split; [done|].
  intros Hs. destruct (Ha Hs) as [?|?]; [left; by destruct K as [[]|[]]|by right].
Qed.

(** Changes elsewhere, which at most tell the owner something. *)
Lemma shape_ext ow de m m' :
  anchors m' = anchors m -> entries m' = entries m -> (alerted K m -> alerted K m') ->
  shape ow de m -> shape ow de m'.
Proof.
  intros Ha He Hal Hs. assert (forall en, node m wq en -> node m' wq en) as Hnode.
  { intros en. by apply node_ext. }
  assert (live ow de m -> live ow de m') as Hl.
  { intros (Hp & en & w & Hn & Hok & Hal'). split; [done|]. exists en, w.
    split; [auto|]. split; [done|]. intros Hs'. destruct (Hal' Hs'); auto. }
  destruct ow; simpl in *; auto; rewrite ?He; [|done].
  destruct Hs as [(en & Hn & Hc) Hf]. split; [eauto|done].
Qed.

(** The owner has been told. *)
Lemma shape_told ow m m' :
  anchors m' = anchors m -> entries m' = entries m -> alerted K m' ->
  shape ow Final m -> shape ow Delivered m'.
Proof.
  intros Ha He Hal Hs. assert (shape ow Final m') as Hs' by (by eapply shape_ext).
  destruct ow; try exact Hs'; apply live_shape; destruct Hs' as (Hp & en & w & Hn & Hok & _);
    (split; [done|]; exists en, w; split; [exact Hn|]; split; [exact Hok|auto]).
Qed.

(** The step that publishes the result. *)
Lemma entry_ok_publish ow en w :
  entry_ok ow Start en w ->
  entry_ok ow (Published w) (set_state (entry_state true w false r) en) w.
Proof.
  intros (HK & Hst & Hreg & Hown). repeat split; simpl; [done..|].
  destruct ow; simpl in *; try done. by destruct Hown.
Qed.

(** ** Local steps *)

Lemma same_links_refl m m' : anchors m' = anchors m -> entries m' = entries m -> same_links wq m m'.
Proof. intros Ha He. unfold same_links, polled. by rewrite Ha, He. Qed.

Lemma local_entry wk m en' :
  local wq K m (set_weak wk (set_entries (<[wq_entry wq := en']> (entries m)) m)).
Proof.
  split; simpl; [done|done| |by intros [[]|[]]]. intros e Hne. by rewrite lookup_insert_ne.
Qed.

Lemma same_links_entry wk m en en' :
  entries m !! wq_entry wq = Some en -> keeps en en' ->
  same_links wq m (set_weak wk (set_entries (<[wq_entry wq := en']> (entries m)) m)).
Proof.
  intros He [Hl Hp]. split; simpl; [done|]. rewrite lookup_insert_eq, He. split; [cbn -[links]; by rewrite Hl|].
  intros (en0 & He0 & Hp0). exists en'. split; [apply lookup_insert_eq|]. apply Hp. congruence.
Qed.

(** Nothing but tokens and wakers. *)
Lemma local_told m m' :
  words m' = words m -> anchors m' = anchors m -> entries m' = entries m ->
  (forall K', K' <> K -> alerted K' m -> alerted K' m') -> local wq K m m'.
Proof. intros Hw Ha He Hal. split; by rewrite ?Ha, ?He. Qed.

Lemma links_offset en en' : links en' = links en -> e_offset en' = e_offset en.
Proof. by destruct en, en'; intros [=]. Qed.

(** ** The delivering thread *)

Section deliverer.
  Context (d : tid) (del : delivering -> G) `{!DelivererView I wq K r d del}.

(** An update of the entry by the delivering thread. *)
Lemma deliver_step wk g m de de' ow en en' w (Q : G -> Prop) :
  I g m -> g d = del de ->
  (forall m', local wq K m m' -> same_links wq m m' -> shape ow de' m' -> I (upd g d (del de')) m') ->
  node m wq en -> keeps en en' -> present ow = true -> entry_ok ow de' en' w ->
  (ow = Asleep -> alerted K m \/ promised de' w = true) -> Q (del de') ->
  kept I d g (set_weak wk (set_entries (<[wq_entry wq := en']> (entries m)) m)) Q.
Proof.
  intros HI Hg Hclose Hn Hl Hp Hok Hal HQ. exists (del de'). split; [|done].
  apply Hclose; [apply local_entry|eapply same_links_entry; [apply Hn|done]|].
  eapply live_update; [done|apply links_offset, Hl|done..].
Qed.

Lemma conforms_deliver n de de' f {A} (field : Entry -> A) (R : A -> G -> Prop) :
  is_final de = false ->
  (forall w, promised de w = true -> promised de' w = true) ->
  (forall ow en w, entry_ok ow de en w ->
     keeps en (f en) /\ entry_ok ow de' (f en) w /\ R (field en) (del de')) ->
  conforming n d (update_field (wq_entry wq) field f) (del de) R.
Proof.
  intros Hf Hpr Hstep. apply conforms_update_field. intros g m Hg HI.
  destruct (deliverer_open g m de HI Hg Hf) as (ow & Hs & Hclose).
  destruct (shape_live ow de m Hs Hf) as (Hp & en & w & Hn & Hok & Hal).
  exists en. split; [apply Hn|]. destruct (Hstep ow en w Hok) as (Hl & Hok' & HR).
  apply (deliver_step (weak m) g m de de' ow en (f en) w); [done|done|apply Hclose|done..| |done].
  intros E. destruct (Hal E); auto.
Qed.

(** The loop of [set_result] ends, whatever state it starts from. *)
Lemma set_result_loop_ends g m st :
  I g m -> g d = del Start -> (exists w, st = entry_state false w false r) ->
  solo I d (Loop (set_result_body (wq_entry wq) r) st) g m
    (fun st' x => exists w, st' = entry_state true w false r /\ x = del (Published w)).
Proof.
  intros HI Hg (w0 & ->).
  destruct (deliverer_open g m Start HI Hg eq_refl) as (ow & Hs & Hclose).
  destruct (shape_live ow Start m Hs eq_refl) as (Hp & en & w & Hn & Hok & Hal).
  pose proof Hok as (HK & Hst & Hreg & Hown). simpl in Hst.
  assert (forall wk, wp d (Loop (set_result_body (wq_entry wq) r) (e_state en)) (set_weak wk m)
    (fun st' m' => exists x, I (upd g d x) m' /\
      exists w, st' = entry_state true w false r /\ x = del (Published w))) as Hcur.
  { intros wk. eapply wp_set_result_loop; [apply Hn| |done|].
    - unfold is_waiting. rewrite Hst. destruct w; [by right|by left].
    - intros wk'. assert (e_state en + RESULT_SET + r = entry_state true w false r) as ->.
      { rewrite Hst. unfold entry_state. unfold_flags. destruct w; simpl; lia. }
      apply (deliver_step wk' g m Start (Published w) ow en _ w); [done|done|apply Hclose|done..| |exact Hal|by exists w].
      by apply entry_ok_publish. }
  destruct (decide (entry_state false w0 false r = e_state en)) as [->|Hne].
  { specialize (Hcur (weak m)). by destruct m. }
  apply wp_loop. apply wp_bind, wp_debug_assert; [apply entry_state_set; done|].
  apply wp_bind, wp_debug_assert; [apply entry_state_final; done|].
  apply not_eq_sym, Z.eqb_neq in Hne. destruct Hn as (Hok' & Ha & He & Hoff).
  apply wp_bind. destruct (weak m) as [|[|] wk] eqn:Ew.
  all: eapply wp_act; [simpl; rewrite He, Ew, ?Hne; done|]; apply wp_ret, Hcur.
Qed.

(** What the loop does in the presence of the owner. *)
Lemma conforms_set_result_loop n st :
  (exists w, st = entry_state false w false r) ->
  conforming n d (Loop (set_result_body (wq_entry wq) r) st) (del Start)
    (fun st' x => exists w, st' = entry_state true w false r /\ x = del (Published w)).
Proof.
  intros Hst0. conforms_iter (fun st x =>
    (exists w, st = entry_state false w false r) /\ x = del Start); [..|done]; clear st Hst0.
  - intros n1 st x _ [[w0 ->] ->]. eapply conforms_then; [apply _| |].
    { apply conforms_debug_assert; [apply entry_state_set; done|done]. }
    intros n2 _. eapply conforms_then; [apply _| |].
    { apply conforms_debug_assert; [apply entry_state_final; done|done]. }
    intros n3 _. rewrite entry_state_deliver by done.
    conforms_by (fun res x =>
      match res with
      | Ok _ => x = del (Published w0)
      | Err st => (exists w, st = entry_state false w false r) /\ x = del Start
      end).
    2:{ intros n4 [?|st] x _ Hx; apply conforms_ret; [by exists w0|done]. }
    apply conforms_compare_exchange_weak_state. intros g m Hg HI.
    destruct (deliverer_open g m Start HI Hg eq_refl) as (ow & Hs & Hclose).
    destruct (shape_live ow Start m Hs eq_refl) as (Hp & en & w & Hn & Hok & Hal).
    pose proof Hok as (HK & Hst & Hreg & Hown). simpl in Hst.
    exists en. split; [apply Hn|]. intros wk. split.
    + intros E. rewrite Hst in E. apply entry_state_inj in E as (_ & -> & _); [|done].
      apply (deliver_step wk g m Start (Published w0) ow en _ w0);
        [done|done|apply Hclose|done..|by apply entry_ok_publish|exact Hal|done].
    + exists (del Start). split; [|split; [by exists w|done]].
      apply Hclose; [by apply local_told|by apply same_links_refl|].
      by eapply shape_ext.
  - intros g m st x Hg HI [Hst ->] _. by apply set_result_loop_ends.
Qed.

(** The step that makes the result final. *)
Lemma entry_ok_finalize ow de de' en w :
  entry_ok ow de en w -> is_set de = true -> is_final de = false ->
  is_set de' = true -> is_final de' = true -> registered de' w = false ->
  entry_ok ow de' (set_state (Z.lor (e_state en) RESULT_FINALIZED) en) w.
Proof.
  intros (HK & Hst & Hreg & Hown) E1 E2 E3 E4 E5. rewrite Hst, entry_state_finalize by done.
  split; [done|]. split; [by rewrite E1, E3, E4|]. split; [by rewrite E5|].
  destruct ow; simpl in *; rewrite ?E3, ?E4, ?E5; by try split.
Qed.

Lemma conforms_finalize n de de' (R : Z -> G -> Prop) :
  is_set de = true -> is_final de = false -> is_set de' = true -> is_final de' = true ->
  (forall w, registered de' w = false) ->
  (forall w, promised de w = true -> promised de' w = true) ->
  (forall st, R st (del de')) ->
  conforming n d (fetch_or_state (wq_entry wq) RESULT_FINALIZED) (del de) R.
Proof.
  intros E1 E2 E3 E4 E5 Hpr HR.
  apply (conforms_deliver n de de' (fun en => set_state (Z.lor (e_state en) RESULT_FINALIZED) en));
    [done..|].
  intros ow en w Hok. split; [done|]. split; [|apply HR]. by eapply entry_ok_finalize.
Qed.

Lemma conforms_tell n :
  names_someone K -> conforming n d (tell K) (del Final) (fun _ x => x = del Delivered).
Proof.
  intros HKs. assert (forall g m m', g d = del Final -> I g m -> words m' = words m ->
    anchors m' = anchors m -> entries m' = entries m ->
    (forall K', alerted K' m -> alerted K' m') -> alerted K m' ->
    kept I d g m' (fun x => x = del Delivered)) as Htold.
  { intros g m m' Hg HI Hw Ha He Hal HK. exists (del Delivered). split; [|done].
    by apply (deliverer_told g m m'). }
  destruct K as [[cx|]|[th|]]; try done;
    [apply conforms_wake|apply conforms_unpark]; intros g m Hg HI;
    (apply (Htold g m); [done..| |simpl; set_solver]);
    intros [[]|[]]; simpl; set_solver.
Qed.

Lemma conforms_publish n :
  names_someone K ->
  conforming n d (publish (wq_entry wq) r) (del Start) (fun _ x => x = del Delivered).
Proof.
  intros HKs. unfold publish. conforms_by (fun st x => (exists w, st = entry_state false w false r) /\ x = del Start).
  { apply conforms_read_field. intros g m Hg HI.
    destruct (deliverer_open g m Start HI Hg eq_refl) as (ow & Hs & _).
    destruct (shape_live ow Start m Hs eq_refl) as (Hp & en & w & Hn & (_ & Hst & _) & _).
    exists en. split; [apply Hn|]. apply kept_same; [done|]. rewrite Hg. split; [by exists w|done]. }
  intros n2 st x _ [Hst ->]. conforms_seq; [by apply conforms_set_result_loop|].
  intros n3 st' x _ (w & -> & ->). rewrite entry_state_waker by done.
  conforms_by (fun (b : bool) x => x = del (if b then Delivered else Published false)).
  2:{ intros n4 [|] x _ ->; [by apply conforms_ret|]. conforms_seq.
      - by apply (conforms_finalize _ (Published false) Delivered (fun _ x => x = del Delivered)).
      - intros n5 ? x _ ->. by apply conforms_ret. }
  destruct w; [|by apply conforms_ret].
  conforms_by (fun mon x => mon = K /\ x = del Notifying).
  { apply (conforms_deliver _ (Published true) Notifying); [done..|].
    intros ow en w (HK & Hst' & Hreg & Hown). specialize (Hreg eq_refl). split; [done|].
    split; [|done]. split; [simpl; rewrite Hreg; by destruct K as [[]|[]]|].
    split; [done|]. split; [done|]. by destruct ow; simpl in *. }
  intros n4 mon x _ [-> ->].
  assert (forall n, conforming n d
    (fetch_or_state (wq_entry wq) RESULT_FINALIZED ;;; tell K ;;; Ret true)
    (del Notifying) (fun (b : bool) x => x = del (if b then Delivered else Published false))) as Hall.
  { intros n5. conforms_seq.
    - by apply (conforms_finalize _ Notifying Final (fun _ x => x = del Final)).
    - intros n6 ? x _ ->. conforms_seq; [by apply conforms_tell|].
      intros n7 [] x _ ->. by apply conforms_ret. }
  destruct K as [[cx|]|[th|]]; done.
Qed.

Lemma conforms_set_result n :
  names_someone K ->
  conforming n d (set_result (wq_entry wq) r) (del Start) (fun _ x => x = del Delivered).
Proof.
  intros HKs. rewrite set_result_publish. conforms_by (fun _ x => x = del Start).
  { by apply (conforms_deliver _ Start Start (set_poll true) (fun _ => tt)). }
  intros n1 [] x _ ->. by apply conforms_publish.
Qed.

End deliverer.

(** The entry once the result is consumed. *)
Lemma shape_consume m de en f b :
  node m wq en -> is_final de = true -> e_offset (f en) = e_offset en -> e_state (f en) = 0 ->
  (b = true -> e_pollable (f en) = false) ->
  shape (Taken b) de (set_entries (<[wq_entry wq := f en]> (entries m)) m).
Proof.
  intros Hn Hf Hoff Hst Hb. split; [|done]. exists (f en). split; [by eapply node_insert|done].
Qed.

End delivery.

(** One result only. *)
Definition just (r v : Z) : Prop := v = r.

Lemma just_u8 r : is_u8 r -> forall v, just r v -> is_u8 v.
Proof. by intros Hr v ->. Qed.

(** ** The owner *)

Section owner.
  Context {G : Type} (I : (tid -> G) -> mem -> Prop).
  Context (D : tid -> (tid -> G) -> Prop) `{!OnOthers D}.
  Context (W : tid -> (tid -> G) -> mem -> Prop).
  Context (wq : Z) (K : Monitor) (R : Z -> Prop).
  Context (Hwq : wq_ok wq) (HR : forall r, R r -> is_u8 r).
  Context (o : tid) (own : Z -> owning -> G) (after : Z -> G).
  Context `{!OwnerView I D W wq K R o own after}.

Abbreviation conforming := (conforms I D W).
Abbreviation shape := (shape wq K).
Abbreviation live := (live wq K).
Abbreviation entry_ok := (entry_ok K).

(** Before the result is set, it may still be any. *)
Lemma shape_start r r' ow m : shape r ow Start m -> shape r' ow Start m.
Proof. by destruct ow. Qed.

(** Results that are not known do not matter. *)
Lemma owner_same v r ow : (knows ow = true -> r = v) -> own r ow = own v ow.
Proof. destruct (knows ow) eqn:E; [by intros ->|]. intros _. by apply owner_blind. Qed.

(** A step of the owner. *)
Lemma own_step v g m m' ow ow' (Q : G -> Prop) :
  I g m -> g o = own v ow -> ow <> Freed -> (knows ow = true -> R v) -> local wq K m m' ->
  (present ow' = true -> present ow = true /\ same_links wq m m') ->
  (forall r de, shape r ow de m -> shape r ow' de m') -> (knows ow' = true -> knows ow = true) ->
  Q (own v ow') -> kept I o g m' Q.
Proof.
  intros HI Hg Hne Hv0 Hloc Hl Hs Hk HQ.
  destruct (owner_open g m v ow HI Hg Hne Hv0) as (r & de & _ & Hv & Hs0 & _ & Hclose).
  exists (own v ow'). split; [|done]. rewrite <- (owner_same v r) by auto. apply Hclose; auto.
Qed.

(** An access to the entry by its owner, which may learn something. *)
Lemma conforms_own_read v n ow {A} (field : Entry -> A) (Q : A -> G -> Prop) :
  present ow = true -> (knows ow = true -> R v) ->
  (forall r de en w, R r -> (knows ow = true -> r = v) -> entry_ok r ow de en w ->
     exists ow', present ow' = true /\ ow' <> Asleep /\ entry_ok r ow' de en w /\
       Q (field en) (own r ow')) ->
  conforming n o (read_field (wq_entry wq) field) (own v ow) Q.
Proof.
  intros Hp Hv0 Hstep. apply conforms_read_field. intros g m Hg HI.
  destruct (owner_open g m v ow HI Hg) as (r & de & Hr & Hv & Hs & _ & Hclose); [by intros ->|done|].
  assert (live r ow de m) as (_ & en & w & Hn & Hok & Hal) by (by destruct ow).
  destruct (Hstep r de en w Hr Hv Hok) as (ow' & Hp' & Hns & Hok' & HQ).
  exists en. split; [apply Hn|]. exists (own r ow'). split; [|done].
  apply Hclose; [by apply local_told|by intros _; split; [|apply same_links_refl]|]. apply live_shape.
  split; [done|]. exists en, w. by split.
Qed.

(** An update of the entry by its owner. *)
Lemma own_update wk g m r de ow' en en' w' (Q : G -> Prop) :
  (forall m', local wq K m m' -> same_links wq m m' -> shape r ow' de m' -> I (upd g o (own r ow')) m') ->
  node m wq en -> keeps en en' -> present ow' = true -> entry_ok r ow' de en' w' ->
  (ow' = Asleep -> promised de w' = true) -> Q (own r ow') ->
  kept I o g (set_weak wk (set_entries (<[wq_entry wq := en']> (entries m)) m)) Q.
Proof.
  intros Hclose Hn Hl Hp Hok Ha HQ. exists (own r ow'). split; [|done].
  apply Hclose; [apply local_entry|eapply same_links_entry; [apply Hn|done]|].
  eapply live_update; [done|apply links_offset, Hl|done..|]. intros E. right. auto.
Qed.

Lemma conforms_own_update v n ow {A} f (field : Entry -> A) (Q : A -> G -> Prop) :
  present ow = true -> (knows ow = true -> R v) ->
  (forall r de en w, R r -> (knows ow = true -> r = v) -> entry_ok r ow de en w ->
     keeps en (f en) /\
     exists ow' w', present ow' = true /\ entry_ok r ow' de (f en) w' /\
       (ow' = Asleep -> promised de w' = true) /\ Q (field en) (own r ow')) ->
  conforming n o (update_field (wq_entry wq) field f) (own v ow) Q.
Proof.
  intros Hp Hv0 Hstep. apply conforms_update_field. intros g m Hg HI.
  destruct (owner_open g m v ow HI Hg) as (r & de & Hr & Hv & Hs & _ & Hclose); [by intros ->|done|].
  assert (live r ow de m) as (_ & en & w & Hn & Hok & Hal) by (by destruct ow).
  destruct (Hstep r de en w Hr Hv Hok) as (Hl & ow' & w' & Hp' & Hok' & Ha & HQ).
  exists en. split; [apply Hn|]. apply (own_update (weak m) g m r de ow' en (f en) w'); [|done..].
  intros m' Hloc Hsl. apply Hclose; [done|by intros _].
Qed.

(** An update of an entry whose final result the owner has seen. *)
Lemma conforms_own_consume v n ow b f :
  R v -> (ow = Seen \/ exists b', ow = Taken b') ->
  (forall en, e_offset (f en) = e_offset en) ->
  (forall en, (ow <> Seen -> e_state en = 0) -> e_state (f en) = 0 /\ (b = true -> e_pollable (f en) = false)) ->
  conforming n o (write_field (wq_entry wq) f) (own v ow) (fun _ x => x = own v (Taken b)).
Proof.
  intros HRv How Hoff Hf. apply conforms_update_field. intros g m Hg HI.
  destruct (owner_open g m v ow HI Hg) as (r & de & _ & Hv & Hs & _ & Hclose); [by destruct How as [->|[? ->]]|done|].
  assert (r = v) as -> by (apply Hv; by destruct How as [->|[? ->]]).
  assert (exists en, node m wq en /\ is_final de = true /\ (ow <> Seen -> e_state en = 0)) as (en & Hn & Hfin & Hst).
  { destruct How as [->|[b' ->]].
    - destruct Hs as (_ & en & w & Hn & (_ & _ & _ & Hfin) & _). by exists en.
    - destruct Hs as [(en & Hn & Hst & _) Hfin]. by exists en. }
  destruct (Hf en Hst) as [Hst' Hpl]. exists en. split; [apply Hn|]. exists (own v (Taken b)). split; [|done].
  apply Hclose; [apply (local_entry _ _ (weak m))|done|]. by apply (shape_consume wq K v m de en f b).
Qed.

Lemma conforms_try_consume v n :
  conforming n o (try_consume_result (wq_entry wq)) (own v Ready) (fun y x =>
    match y with
    | Some y => R y /\ x = own y (Taken true)
    | None => x = own v Ready
    end).
Proof.
  conforms_by (fun st x => exists r set w f, R r /\ st = entry_state set w f r /\ (f = true -> set = true) /\
    x = own r (if f then Seen else Ready)).
  { apply conforms_own_read; [done|done|]. intros r de en w Hr _ Hok. pose proof Hok as (HK & Hst & Hreg & _).
    exists (if is_final de then Seen else Ready). split; [by destruct (is_final de)|].
    split; [by destruct (is_final de)|]. split.
    - split; [done|]. split; [done|]. split; [done|]. by destruct (is_final de) eqn:E.
    - exists r, (is_set de), w, (is_final de). split; [done|]. split; [done|]. split; [by destruct de|done]. }
  intros n1 st x _ (r & set & w & f & HRr & -> & Hset & ->). pose proof (HR r HRr) as Hr.
  destruct (entry_state_final r Hr set w f) as [-> _].
  destruct f; [|apply conforms_ret; by apply owner_blind].
  specialize (Hset eq_refl) as ->. eapply conforms_then; [apply _| |].
  { apply conforms_debug_assert; [|done]. by destruct (entry_state_set r Hr true w true) as [_ ->]. }
  intros n2 _. rewrite entry_state_result by done.
  conforms_seq; [apply (conforms_own_consume r _ Seen false (set_state 0)); by auto|]. intros n3 [] x _ ->.
  conforms_seq; [apply (conforms_own_consume r _ (Taken false) true (set_poll false)); [done|eauto|done|]|].
  { intros en Hst. split; [by apply Hst|done]. }
  intros n4 [] x _ ->. by apply conforms_ret.
Qed.

(** Preparing to install the thread or waker [self] computes. *)
Lemma conforms_prepare_install v n {X} (self : program X) (P : X -> Prop) :
  (forall n, conforming n o self (own v Clear) (fun y x => P y /\ x = own v Clear)) ->
  conforming n o (prepare_install (wq_entry wq) self) (own v Ready) (fun y x =>
    match y with
    | inr y => R y /\ x = own y (Taken true)
    | inl None => x = own v Ready
    | inl (Some y) => P y /\ x = own v Clear
    end).
Proof.
  intros Hself. conforms_by (fun st x => exists r set w f, R r /\ st = entry_state set w f r /\
    (set = false -> f = false) /\ x = own v (if set || w then Ready else Clear)).
  { apply conforms_own_read; [done|done|]. intros r de en w Hr _ Hok. pose proof Hok as (HK & Hst & Hreg & _).
    exists (if is_set de || w then Ready else Clear). split; [by destruct (is_set de), w|].
    split; [by destruct (is_set de), w|]. split.
    - split; [done|]. split; [done|]. split; [done|]. by destruct de, w.
    - exists r, (is_set de), w, (is_final de). split; [done|]. split; [done|]. split; [by destruct de|].
      apply owner_same. by destruct (is_set de), w. }
  intros n1 st x _ (r & set & w & f & HRr & -> & Hf & ->). pose proof (HR r HRr) as Hr.
  destruct (entry_state_set r Hr set w f) as [-> _]. rewrite entry_state_waker by done.
  destruct set; cbn [orb].
  { conforms_seq; [apply conforms_try_consume|].
    intros n2 [y|] x _ Hx; by apply conforms_ret. }
  rewrite (Hf eq_refl). destruct w.
  2:{ conforms_seq; [apply Hself|]. intros n2 y x _ [Hy ->]. by apply conforms_ret. }
  rewrite entry_state_clear.
  conforms_by (fun res x => match res with Ok _ => x = own v Clear | Err _ => x = own v Ready end).
  { apply conforms_compare_exchange_weak_state. intros g m Hg HI.
    destruct (owner_open g m v Ready HI Hg) as (r' & de & HRr' & _ & Hs & _ & Hclose); [done|done|].
    destruct Hs as (Hp & en & w & Hn & (HK & Hst & Hreg & _) & Hal). pose proof (HR r' HRr') as Hr'.
    exists en. split; [apply Hn|]. intros wk. split.
    - intros E. rewrite Hst in E. change (entry_state false true false r) with (entry_state false true false r') in E.
      apply entry_state_inj in E as (Eset & -> & _); [|done].
      eapply (own_update wk g m r' de Clear en _ false); [|done..| |done|by apply owner_same].
      + intros m' Hloc Hsl. apply Hclose; [done|by intros _].
      + split; [done|]. assert (de = Start) as -> by (by destruct de). done.
    - eapply (own_step v g m _ Ready Ready); [done..|by apply local_told|by intros _; split; [|apply same_links_refl]| |done|done].
      intros r0 de'. by apply shape_ext. }
  intros n2 [y|y] x _ ->; [|by apply conforms_ret].
  conforms_seq; [apply Hself|]. intros n3 y' x _ [Hy ->]. by apply conforms_ret.
Qed.

(** Installing the monitor. *)
Lemma conforms_install v n :
  conforming n o (write_field (wq_entry wq) (set_monitor K)) (own v Clear) (fun _ x => x = own v Armed).
Proof.
  apply (conforms_own_update v _ Clear (set_monitor K) (fun _ => tt)); [done|done|].
  intros r de en w _ _ (HK & Hst & Hreg & Hown). simpl in Hown. split; [done|].
  exists Armed, w. split; [done|]. split; [|split; [done|by apply owner_same]].
  repeat split; try done; simpl. by destruct K as [[]|[]].
Qed.

(** Raising the flag. *)
Lemma conforms_raise v n :
  conforming n o (fetch_or_state (wq_entry wq) WAKER_SET) (own v Armed)
    (fun st x => exists r set w f, R r /\ st = entry_state set w f r /\
       x = own v (if (set : bool) then Ready else Asleep)).
Proof.
  apply (conforms_own_update v _ Armed (fun en => set_state (Z.lor (e_state en) WAKER_SET) en) e_state);
    [done|done|].
  intros r de en w HRr _ (HK & Hst & Hreg & [Hclear Hmon]). split; [done|].
  exists (if is_set de then Ready else Asleep), true. split; [by destruct (is_set de)|].
  split; [|split].
  - split; [done|]. split; [simpl; by rewrite Hst, entry_state_set_waker by auto|].
    split; [|by destruct (is_set de)]. destruct de; simpl in *; auto.
  - by destruct de.
  - exists r, (is_set de), w, (is_final de). rewrite Hst. split; [done|]. split; [done|].
    apply owner_same. by destruct (is_set de).
Qed.

(** Once the result is delivered, one look is enough. *)
Lemma settled_consume v g m (Q : option Z -> mem -> Prop) :
  g o = own v Ready -> I g m -> D o g ->
  (forall r m', R r -> I (upd g o (own r (Taken true))) m' -> Q (Some r) m') ->
  wp o (try_consume_result (wq_entry wq)) m Q.
Proof.
  intros Hg HI HD HQ. destruct (owner_open g m v Ready HI Hg) as (r & de & HRr & _ & Hs & HDe & Hclose); [done|done|].
  rewrite (HDe HD) in Hs, Hclose.
  destruct Hs as (_ & en & w & Hn & (_ & Hst & _) & _). simpl in Hst.
  apply (wp_try_consume_result_some o _ en (if w then WAKER_SET else 0) r);
    [apply Hn|destruct w; auto|by auto|..].
  - rewrite Hst. unfold entry_state. unfold_flags. destruct w; simpl; lia.
  - apply (HQ r _ HRr), Hclose; [apply (local_entry _ _ (weak m))|done|].
    by apply (shape_consume wq K r m Delivered en consumed true).
Qed.

(** The owner's monitor is of the kind it was constructed with. *)
Lemma conforms_kind v n :
  conforming n o (read_field (wq_entry wq) e_monitor) (own v Ready)
    (fun mon x => same_kind K mon = true /\ x = own v Ready).
Proof.
  apply conforms_own_read; [done|done|]. intros r de en w _ _ Hok. exists Ready.
  split; [done|]. split; [done|]. split; [done|]. split; [apply Hok|by apply owner_same].
Qed.

(** A sleeping owner that nobody will tell has been told. *)
Lemma asleep_alerted v g m : g o = own v Asleep -> I g m -> D o g -> alerted K m.
Proof.
  intros Hg HI HD. destruct (owner_open g m v Asleep HI Hg) as (r & de & _ & _ & Hs & HDe & _); [done|done|].
  rewrite (HDe HD) in Hs. destruct Hs as (_ & en & w & _ & _ & Hal). by destruct (Hal eq_refl).
Qed.

(** Waking up. *)
Lemma shape_awake r de m m' :
  anchors m' = anchors m -> entries m' = entries m -> shape r Asleep de m -> shape r Ready de m'.
Proof.
  intros Ha He (_ & en & w & Hn & Hok & _). split; [done|]. exists en, w.
  split; [by eapply node_ext|]. by split.
Qed.

(** Being told while awake. *)
Lemma shape_asleep r de m m' :
  anchors m' = anchors m -> entries m' = entries m -> alerted K m' ->
  shape r Ready de m -> shape r Asleep de m'.
Proof.
  intros Ha He Hal (_ & en & w & Hn & Hok & _). split; [done|]. exists en, w.
  split; [by eapply node_ext|]. split; [done|auto].
Qed.

Lemma conforms_poll_result_sync v n :
  K = Sync (Some o) ->
  conforming n o (poll_result_sync (wq_entry wq)) (own v Ready)
    (fun y x => R y /\ x = own y (Taken true)).
Proof.
  intros HK. conforms_seq; [apply conforms_kind|]. intros n1 mon x _ [Hmon ->].
  rewrite HK in Hmon. destruct mon as [|th]; [done|]. clear Hmon.
  conforms_iter (fun _ x => x = own v Ready); [..|done].
  - intros n2 u x _ ->. conforms_seq; [apply conforms_try_consume|].
    intros n3 [y|] x _ Hx; [by apply conforms_ret|]. subst x.
    conforms_seq; [apply (conforms_prepare_install v _ _ (fun y => y = o))|].
    { intros n4. by apply conforms_current. }
    intros n4 [[y|]|y] x _ Hx; [destruct Hx as [-> ->]|subst x|by apply conforms_ret].
    2:{ conforms_by (fun _ x => x = own v Ready); [by apply conforms_yield_now|].
        intros n5 [] x _ ->. by apply conforms_ret. }
    rewrite <- HK. conforms_seq; [apply conforms_install|]. intros n5 [] x _ ->.
    conforms_seq; [apply conforms_raise|]. intros n6 st x _ (r & set & w & f & HRr & -> & ->).
    destruct (entry_state_set r (HR r HRr) set w f) as [-> _].
    conforms_by (fun _ x => x = own v Ready); [|intros n7 [] x _ ->; by apply conforms_ret].
    destruct set; [by apply conforms_yield_now|]. apply conforms_park. intros g m Hg HI. split.
    + intros Ht. eapply (own_step v g m _ Asleep Ready); [done..|apply local_told; [done..|]|by intros _; split; [|apply same_links_refl]| |done|done].
      * rewrite HK. intros [[]|[]]; simpl; set_solver.
      * intros r0 de. by apply shape_awake.
    + intros Ht. assert (~ alerted K m) as Hna by (by rewrite HK).
      split; [by apply (owner_blocked g m v)|]. intros HD. by apply Hna, (asleep_alerted v g).
  - intros g m u x Hg HI -> HD. apply wp_loop, wp_bind.
    eapply settled_consume; [done..|]. intros r m' HRr HI'. apply wp_ret. eauto.
Qed.

(** One poll of the task. *)
Lemma conforms_poll_result_async v n cx :
  K = Async (Some cx) ->
  conforming n o (poll_result_async (wq_entry wq) cx) (own v Ready) (fun y x =>
    match y with
    | Some y => R y /\ x = own y (Taken true)
    | None => x = own v Asleep
    end).
Proof.
  intros HK. conforms_seq; [apply conforms_kind|]. intros n1 mon x _ [Hmon ->].
  rewrite HK in Hmon. destruct mon as [th|]; [|done]. clear Hmon.
  assert (forall n, conforming n o (wake cx) (own v Ready) (fun _ x => x = own v Asleep)) as Hwake.
  { intros n2. apply conforms_wake. intros g m Hg HI. 
    eapply (own_step v g m _ Ready Asleep); [done..|apply local_told; [done..|]|by intros _; split; [|apply same_links_refl]| |done|done].
    - intros [[]|[]]; simpl; set_solver.
    - intros r de. apply shape_asleep; [done..|]. rewrite HK. simpl. set_solver. }
  conforms_seq; [apply conforms_try_consume|].
  intros n3 [y|] x _ Hx; [by apply conforms_ret|]. subst x.
  conforms_seq; [apply (conforms_prepare_install v _ _ (fun y => y = cx))|].
  { intros n4. by apply conforms_ret. }
  intros n4 [[y|]|y] x _ Hx; [destruct Hx as [-> ->]|subst x|by apply conforms_ret].
  2:{ conforms_seq; [apply Hwake|]. intros n5 [] x _ ->. by apply conforms_ret. }
  rewrite <- HK. conforms_seq; [apply conforms_install|]. intros n5 [] x _ ->.
  conforms_seq; [apply conforms_raise|]. intros n6 st x _ (r & set & w & f & HRr & -> & ->).
  destruct (entry_state_set r (HR r HRr) set w f) as [-> _].
  conforms_by (fun _ x => x = own v Asleep); [|intros n7 [] x _ ->; by apply conforms_ret].
  destruct set; [apply Hwake|by apply conforms_ret].
Qed.

(** The owner finds its wait queue. *)
Lemma owner_anchor v g m ow :
  g o = own v ow -> ow <> Freed -> (knows ow = true -> R v) -> I g m -> anchors m !! anchor_addr wq = Some (anchor_value wq).
Proof.
  intros Hg Hne Hv HI. destruct (owner_open g m v ow HI Hg Hne Hv) as (r & de & _ & _ & Hs & _).
  destruct ow; try done; destruct Hs as (? & en & w & Hn & _) || destruct Hs as ((en & Hn & _) & _);
    apply Hn.
Qed.

Lemma conforms_owner_entry v n ow :
  ow <> Freed -> (knows ow = true -> R v) ->
  conforming n o (entry wq) (own v ow) (fun e x => e = wq_entry wq /\ x = own v ow).
Proof.
  intros Hne Hv. apply conforms_entry; [apply _|done| |done]. intros g m Hg HI.
  by eapply owner_anchor.
Qed.

(** A task is suspended until its waker is invoked. *)
Lemma conforms_sleep v n cx :
  K = Async (Some cx) ->
  conforming n o (suspend cx) (own v Asleep) (fun _ x => x = own v Ready).
Proof.
  intros HK. apply conforms_suspend. intros g m Hg HI. split.
  - intros Ht. eapply (own_step v g m _ Asleep Ready); [done..|apply local_told; [done..|]|by intros _; split; [|apply same_links_refl]| |done|done].
    + rewrite HK. intros [[]|[]]; simpl; set_solver.
    + intros r de. by apply shape_awake.
  - intros Ht. assert (~ alerted K m) as Hna by (by rewrite HK).
    split; [by apply (owner_blocked g m v)|]. intros HD. by apply Hna, (asleep_alerted v g).
Qed.

Lemma conforms_await_result v n cx :
  K = Async (Some cx) ->
  conforming n o (await_result wq cx) (own v Ready) (fun y x => R y /\ x = own y (Taken true)).
Proof.
  intros HK. conforms_iter (fun _ x => x = own v Ready); [..|done].
  - intros n1 u x _ ->. conforms_seq; [by apply conforms_owner_entry|].
    intros n2 e x _ [-> ->]. conforms_seq; [by apply conforms_poll_result_async|].
    intros n3 [y|] x _ Hx; [by apply conforms_ret|]. subst x.
    conforms_seq; [by apply conforms_sleep|]. intros n7 [] x _ ->. by apply conforms_ret.
  - intros g m u x Hg HI -> HD. 
    destruct (owner_open g m v Ready HI Hg) as (r & de & _ & _ & Hs & _); [done|done|].
    destruct Hs as (_ & en & w & Hn & (Hkind & _) & _).
    apply wp_loop, wp_bind. eapply wp_entry; [done|].
    apply wp_bind, wp_bind. eapply wp_read_field; [apply Hn|]. rewrite HK in Hkind.
    destruct (e_monitor en) as [mon|]; [|done]. apply wp_bind.
    eapply settled_consume; [done..|]. intros r' m' HRr HI'. apply wp_ret, wp_ret. eauto.
Qed.

(** The owner waits for a result that is about to be set. *)
Lemma conforms_acknowledge v n :
  conforming n o (acknowledge_result_sync (wq_entry wq)) (own v Ready)
    (fun y x => R y /\ x = own y (Taken true)).
Proof.
  conforms_iter (fun _ x => x = own v Ready); [..|done].
  - intros n1 u x _ ->. conforms_seq; [by apply conforms_try_consume|].
    intros n2 [y|] x _ Hx; [by apply conforms_ret|]. subst x.
    eapply conforms_then; [apply _|by apply conforms_yield_now|]. intros n3 _. by apply conforms_ret.
  - intros g m u x Hg HI -> HD. apply wp_loop, wp_bind.
    eapply settled_consume; [done..|]. intros r m' HRr HI'. apply wp_ret. eauto.
Qed.

(** The entry of a wait queue whose result was consumed, and its anchor, are
    freed. *)
Lemma conforms_drop_entry v n :
  R v ->
  conforming n o (drop_in_place (wq_entry wq)) (own v (Taken true)) (fun _ x => x = own v Freed).
Proof.
  intros Hv0. apply conforms_drop_in_place. intros g m Hg HI.
  destruct (owner_open g m v (Taken true) HI Hg) as (r & de & _ & Hv & ((en & Hn & Hp) & Hf) & _ & Hclose); [done|done|].
  split; [eexists; apply Hn|]. exists (own v Freed). split; [|done]. rewrite <- (Hv eq_refl).
  apply Hclose; [|done|split; [simpl; apply lookup_delete_eq|done]].
  split; simpl; [done|done| |by intros [[]|[]]]. intros e Hne. by rewrite lookup_delete_ne.
Qed.

Lemma conforms_free_queue v n :
  conforming n o (free_anchor (anchor_addr wq)) (own v Freed) (fun _ x => x = after v).
Proof.
  apply conforms_free_anchor. intros g m Hg HI. exists (after v). split; [by apply (owner_after g m)|done].
Qed.

(** The wait queue is dropped, once the owner has got rid of its entry. *)
Lemma conforms_drop_by `{DropCallbacks} v n ow (T : Z -> Prop) :
  ow <> Freed -> (knows ow = true -> R v) -> (forall y, T y -> R y) ->
  (forall n, conforming n o (prepare_drop (wq_entry wq)) (own v ow) (fun _ x => exists y, T y /\ x = own y (Taken true))) ->
  conforming n o (wait_queue_drop wq) (own v ow) (fun _ x => exists y, T y /\ x = after y).
Proof.
  intros Hne Hv HT Hprep. unfold wait_queue_drop.
  conforms_by (fun a x => a = (anchor_addr wq, anchor_addr wq - wq) /\ x = own v ow).
  { by apply conforms_anchor_ptr; [apply _|..]. }
  intros n1 a x _ [-> ->]. conforms_by (fun e x => e = wq_entry wq /\ x = own v ow).
  { apply conforms_to_entry_ptr; [apply _|done| |done]. intros g m Hg HI. by eapply owner_anchor. }
  intros n2 e x _ [-> ->]. rewrite wq_entry_eqb_0 by done.
  conforms_by (fun _ x => exists y, T y /\ x = own y Freed).
  - conforms_seq; [apply Hprep|]. intros n3 [] x _ (y & Hy & ->).
    eapply conforms_mono; [by apply conforms_drop_entry, HT|]. intros [] x ->. by exists y.
  - intros n3 [] x _ (y & Hy & ->). eapply conforms_mono; [apply conforms_free_queue|].
    intros [] x ->. by exists y.
Qed.

(** Nothing is left to cancel. *)
Lemma conforms_prepare_drop_taken `{DropCallbacks} v n :
  R v ->
  conforming n o (prepare_drop (wq_entry wq)) (own v (Taken true)) (fun _ x => x = own v (Taken true)).
Proof.
  intros HRv. conforms_by (fun b x => b = false /\ x = own v (Taken true)).
  - apply conforms_read_field. intros g m Hg HI.
    destruct (owner_open g m v (Taken true) HI Hg) as (r & de & _ & _ & ((en & Hn & Hp) & Hf) & _); [done|done|].
    exists en. split; [apply Hn|]. apply kept_same; [done|]. rewrite Hg. split; [by apply Hp|done].
  - intros n3 b x _ [-> ->]. by apply conforms_ret.
Qed.

Lemma conforms_drop `{DropCallbacks} v n :
  R v ->
  conforming n o (wait_queue_drop wq) (own v (Taken true)) (fun _ x => x = after v).
Proof.
  intros HRv. eapply conforms_mono; [apply (conforms_drop_by v n (Taken true) (eq v)); [done|done|by intros y <-|]|].
  - intros n1. eapply conforms_mono; [by apply conforms_prepare_drop_taken|]. intros [] x ->. by exists v.
  - by intros [] x (y & <- & ->).
Qed.

End owner.

(** Applies a lemma about an owner or a deliverer through the instance of its
    view. *)
Tactic Notation "by_view" uconstr(lemma) :=
  eapply lemma; try apply _; try done.
