(* ===== verification/Areas.v ===== *)
(** * Wait queues of several threads

    The wait queues of the threads of a pool lie on their stacks, apart from
    each other: the thread [u]'s at [A u].  What a step at one of them leaves
    of the others.  Shared by the proofs about pools of waiting threads. *)

From S2P Require Import Prelude Prog Word Opcode Memory WaitQueue Geometry Results.
From S2P Require Import Queue Interleaving Concurrent Delivery.

Lemma in_middle {X} (l l1 l2 : list X) u : l = l1 ++ u :: l2 -> u ∈ l.
Proof. intros ->. apply elem_of_app. right. by left. Qed.

(** Nobody is sure to return alone. *)
Definition unsure {G} (t : tid) (g : tid -> G) : Prop := False.

#[export] Instance unsure_on_others {G} : OnOthers (unsure (G := G)).
Proof. by intros t g x []. Qed.

(** Whether a thread waits by parking, or runs an executor for a task that
    waits, woken by a waker. *)
Definition waiting_mode : Type := tid -> option Waker.

(** Everybody waits by parking. *)
Definition all_threads : waiting_mode := fun _ => None.

(** No two tasks have the same waker. *)
Definition wakers_differ (N : nat) (kind : waiting_mode) : Prop :=
  forall t u w, (t < N)%nat -> (u < N)%nat -> kind t = Some w -> kind u = Some w -> t = u.

Definition is_thread (kind : waiting_mode) (t : tid) : bool :=
  match kind t with None => true | Some _ => false end.

(** The monitor of an entry as it is constructed, and once it is waited on. *)
Definition monitor_unset (kind : waiting_mode) (t : tid) : Monitor :=
  if is_thread kind t then Sync None else Async None.

Definition monitor_of (kind : waiting_mode) (t : tid) : Monitor :=
  match kind t with None => Sync (Some t) | Some cx => Async (Some cx) end.

Lemma wakers_differ_threads N : wakers_differ N all_threads.
Proof. intros t u w _ _ [=]. Qed.

(** The second of the threads runs a task. *)
Definition one_task : waiting_mode := fun t => if decide (t = 1)%nat then Some 77%nat else None.

Lemma one_task_differs N : wakers_differ N one_task.
Proof. intros t u w _ _. unfold one_task. do 2 case_decide; congruence. Qed.

Lemma monitor_named kind t : names_someone (monitor_of kind t).
Proof. unfold monitor_of. by destruct (kind t). Qed.

Lemma monitor_same_kind kind t : same_kind (monitor_of kind t) (monitor_unset kind t) = true.
Proof. unfold monitor_of, monitor_unset, is_thread. by destruct (kind t). Qed.

Lemma alerted_same K m m' : tokens m' = tokens m -> woken m' = woken m -> alerted K m -> alerted K m'.
Proof. intros Ht Hw. unfold alerted. by rewrite Ht, Hw. Qed.

Lemma monitor_inj N kind t u :
  wakers_differ N kind -> (t < N)%nat -> (u < N)%nat ->
  monitor_of kind t = monitor_of kind u -> t = u.
Proof.
  intros Hd Ht Hu. unfold monitor_of. destruct (kind t) eqn:Et, (kind u) eqn:Eu; intros [=]; subst; eauto.
Qed.

Section areas.
  Context (N : nat) (A : tid -> Z) (kind : waiting_mode).
  Context (Hkind : wakers_differ N kind).
  Context (HA : forall t, (t < N)%nat -> wq_ok (A t)).
  Context (Hapart : forall t u, (t < N)%nat -> (u < N)%nat -> t <> u ->
    A t + 128 <= A u \/ A u + 128 <= A t).

Abbreviation mon := (monitor_of kind).

Lemma apart t u :
  (t < N)%nat -> (u < N)%nat -> t <> u ->
  anchor_addr (A t) <> anchor_addr (A u) /\ wq_entry (A t) <> wq_entry (A u).
Proof.
  intros Ht Hu Hne. pose proof (Hapart t u Ht Hu Hne) as H.
  pose proof (anchor_addr_spec _ (HA t Ht)). pose proof (anchor_addr_spec _ (HA u Hu)).
  split; [lia|]. destruct (wq_entry_range _ (HA t Ht)), (wq_entry_range _ (HA u Hu)); lia.
Qed.

(** The links of the thread [u]'s entry are preserved. *)
Definition preserved (m m' : mem) (u : tid) : Prop :=
  forall en, node m (A u) en -> exists en', node m' (A u) en' /\ links en' = links en.

(** Nothing changes at the thread [u]'s wait queue, and it is told no less. *)
Definition untouched (m m' : mem) (u : tid) : Prop :=
  anchors m' !! anchor_addr (A u) = anchors m !! anchor_addr (A u) /\
  entries m' !! wq_entry (A u) = entries m !! wq_entry (A u) /\
  (alerted (mon u) m -> alerted (mon u) m').

Lemma untouched_node m m' u en : untouched m m' u -> node m (A u) en -> node m' (A u) en.
Proof. intros (Ha & He & _) (Hok & Ha' & He' & Ho). by repeat split; rewrite ?Ha, ?He; try done; apply Hok. Qed.

Lemma untouched_preserved m m' u : untouched m m' u -> preserved m m' u.
Proof. intros Hu en Hn. exists en. split; [by eapply untouched_node|done]. Qed.

Lemma entry_is_preserved m m' u (P : Entry -> Prop) :
  (forall en en', links en' = links en -> P en -> P en') ->
  preserved m m' u -> entry_is m P (A u) -> entry_is m' P (A u).
Proof.
  intros HP Hpr (en & Hn & H). destruct (Hpr en Hn) as (en' & Hn' & Hl). exists en'. eauto.
Qed.

Lemma links_fields en en' :
  links en' = links en ->
  e_opcode en' = e_opcode en /\ e_next_entry_anchor_ptr en' = e_next_entry_anchor_ptr en /\
  e_prev_entry_ptr en' = e_prev_entry_ptr en.
Proof. by destruct en, en'; intros [=]; subst. Qed.

Lemma linked_preserved m m' l :
  linked m (A <$> l) -> (forall u, u ∈ l -> preserved m m' u) -> linked m' (A <$> l).
Proof using Type.
  intros Hl Hpr. induction l as [|u l IH]; [done|]. destruct Hl as [Hu Hl]. split.
  - eapply entry_is_preserved; [|apply Hpr; by left|exact Hu].
    by intros en en' (_ & -> & _)%links_fields.
  - apply IH; [done|]. intros v Hv. apply Hpr. by right.
Qed.

(** A step that changes no wait queue. *)
Lemma untouched_refl m m' u :
  anchors m' = anchors m -> entries m' = entries m -> tokens m' = tokens m -> woken m' = woken m ->
  untouched m m' u.
Proof using Type.
  intros Ha He Ht Hw. split; [by rewrite Ha|]. split; [by rewrite He|]. by apply alerted_same.
Qed.

Lemma preserved_refl m m' u :
  anchors m' = anchors m -> entries m' = entries m -> preserved m m' u.
Proof using Type. intros Ha He en Hn. exists en. split; [by eapply node_ext|done]. Qed.

Lemma shape_untouched r m m' u ow de :
  untouched m m' u -> shape (A u) (mon u) r ow de m ->
  shape (A u) (mon u) r ow de m'.
Proof.
  intros Hu Hs. assert (live (A u) (mon u) r ow de m ->
    live (A u) (mon u) r ow de m') as Hl.
  { intros (Hp & en & w & Hn & Hok & Hal). split; [done|]. exists en, w.
    split; [by eapply untouched_node|]. split; [done|]. intros Hs'.
    destruct (Hal Hs'); [left; by apply Hu|by right]. }
  destruct ow; simpl in *; auto.
  - destruct Hs as [(en & Hn & Hc) Hf]. split; [|done]. exists en.
    split; [by eapply untouched_node|done].
  - destruct Hu as (_ & -> & _). done.
Qed.

(** A step of the thread [t] at its own wait queue. *)
Lemma local_untouched t u m m' :
  (t < N)%nat -> (u < N)%nat -> u <> t -> local (A t) (mon t) m m' -> untouched m m' u.
Proof.
  intros Ht Hu Hne [Hw Ha He Hal]. destruct (apart u t Hu Ht Hne) as [Hna Hne'].
  split; [by apply Ha|]. split; [by apply He|]. apply (Hal (mon u)). intros E. apply Hne. by eapply monitor_inj.
Qed.

Lemma local_preserved t m m' :
  local (A t) (mon t) m m' -> same_links (A t) m m' -> preserved m m' t.
Proof.
  intros [Hw Ha He Hal] (Ha' & He' & _) en (Hok & Han & Hen & Hoff). rewrite Hen in He'.
  destruct (entries m' !! wq_entry (A t)) as [en'|] eqn:E; [|done].
  assert (links en' = links en) as Hl by (apply (inj Some); exact He').
  exists en'. split; [|done]. split; [done|]. split; [by rewrite Ha'|]. split; [done|].
  by rewrite (links_offset en en').
Qed.

End areas.
