(* ===== verification/Polling.v ===== *)
(** * Waiting through a pager

    What a thread or a task does with a pager: it registers it, polls it some
    times, then waits for the result or gives up, and drops it.  The rules hold
    for any invariant under all interleavings and any primitive: what they need
    of them is a ghost state in which the pager's owner waits, and one in which
    it has taken the result. *)

From S2P Require Import Prelude Prog Word Opcode Memory WaitQueue Geometry Results.
From S2P Require Import Queue Interleaving Concurrent Delivery Areas Pager.

(** How a client waits: until it has what it wants; until it has been suspended
    too often, if it is a task; or through a pager. *)
Inductive manner : Type :=
| Steady
| Limited (k : nat)
| Paged (tries : nat) (stays : bool).

Definition gives_up (mn : manner) : bool :=
  match mn with
  | Steady => false
  | Limited _ => true
  | Paged _ stays => negb stays
  end.

Section client.
  Context (prim : Primitive) {R : Type} `{SyncResult prim R} (pending : R -> bool).
  Context (kind : waiting_mode) (t : tid) (p : Z).

(** Polling a pager as a thread, or as a task until it is ready. *)
Definition poll_by : program R :=
  match kind t with
  | None => poll_sync prim p
  | Some cx => poll_async prim p cx
  end.

(** Polls the pager until the result is ready, [tries] times at most. *)
Definition try_polls (tries : nat) : program (option R) :=
  Loop (fun k =>
    match k with
    | O => Ret (inr None)
    | S k =>
        r <- try_poll prim p ;;
        if pending r then yield_now ;;; Ret (inl k) else Ret (inr (Some r))
    end) tries.

(** Then waits for it, or gives up. *)
Definition await_pager (tries : nat) (stays : bool) : program (option R) :=
  polled <- try_polls tries ;;
  match polled with
  | Some r => Ret (Some r)
  | None => if stays then r <- poll_by ;; Ret (Some r) else Ret None
  end.

(** From a new pager to its drop; [None] is returned if the client gave up. *)
Definition through_pager (register : program bool) (tries : nat) (stays : bool) `{DropCallbacks} : program (option R) :=
  pager_default p ;;;
  registered <- register ;;
  result <- (if (registered : bool) then await_pager tries stays
             else r <- to_result prim 0 (Some NotRegistered) ;; Ret (Some r)) ;;
  pager_drop p ;;;
  Ret result.

End client.

(** ** Giving up *)

(** [wait_queue.await], given up when it is pending after [k] suspensions. *)
Definition await_within (wq : Z) (cx : Waker) (k : nat) : program (option Z) :=
  Loop (fun k =>
    e <- entry wq ;;
    result <- poll_result_async e cx ;;
    match result with
    | Some result => Ret (inr (Some result))
    | None =>
        match k with
        | O => Ret (inr None)
        | S k => suspend cx ;;; Ret (inl k)
        end
    end) k.

(** [Pager::poll_async], given up likewise. *)
Definition poll_within (prim : Primitive) {R : Type} `{SyncResult prim R} (p : Z) (cx : Waker) (k : nat) :
    program (option R) :=
  registered <- is_registered p ;;
  if negb registered then r <- to_result prim 0 (Some NotRegistered) ;; Ret (Some r)
  else
    result <- await_within p cx k ;;
    match result with
    | Some result =>
        r <- (if result =? ERROR_WRONG_MODE then to_result prim result (Some WrongMode)
              else to_result prim result None) ;;
        Ret (Some r)
    | None => Ret None
    end.

(** What is ready in time is what the methods give. *)
Lemma await_within_ready t n wq cx k m r m' :
  run n t (await_within wq cx k) m = Returns (Some r) m' -> run n t (await_result wq cx) m = Returns r m'.
Proof.
  revert k m. induction n as [|n IH]; intros k m; [done|]. unfold await_within, await_result. rewrite !run_loop.
  rewrite !run_bind. destruct (run n t (entry wq) m) as [e m1| | |]; [|done..].
  rewrite !run_bind. destruct (run n t (poll_result_async e cx) m1) as [[v|] m2| | |]; [| |done..].
  - rewrite !run_ret. by intros [= -> ->].
  - destruct k as [|k]; [by rewrite run_ret|]. rewrite !run_bind.
    destruct (run n t (suspend cx) m2) as [[] m3| | |]; [|done..]. rewrite !run_ret. apply IH.
Qed.

Lemma poll_within_ready t (prim : Primitive) {R} `{SyncResult prim R} n p cx k m (r : R) m' :
  run n t (poll_within prim p cx k) m = Returns (Some r) m' -> run n t (poll_async prim p cx) m = Returns r m'.
Proof.
  unfold poll_within, poll_async. rewrite !run_bind. destruct (run n t (is_registered p) m) as [[] m1| | |]; [| |done..].
  - simpl negb. cbn iota. rewrite !run_bind.
    destruct (run n t (await_within p cx k) m1) as [[v|] m2| | |] eqn:Ew; [| |done..]; [|by rewrite run_ret].
    rewrite (await_within_ready _ _ _ _ _ _ _ _ Ew), run_bind.
    destruct (v =? ERROR_WRONG_MODE); destruct (run n t (to_result prim v _) m2) as [y m3| | |]; try done;
      rewrite run_ret; by intros [= -> ->].
  - simpl negb. cbn iota. rewrite run_bind. destruct (run n t (to_result prim 0 _) m1) as [y m2| | |]; [|done..].
    rewrite run_ret. by intros [= -> ->].
Qed.

(** Any owner that waits, but not for ever: it gets the result, or is suspended
    when it gives up. *)
Section owner.
  Context {G : Type} (I : (tid -> G) -> mem -> Prop) (W : tid -> (tid -> G) -> mem -> Prop).
  Context (wq : Z) (K : Monitor) (R : Z -> Prop) (Hwq : wq_ok wq) (HR : forall r, R r -> is_u8 r).
  Context (o : tid) (own : Z -> owning -> G) (after : Z -> G).
  Context `{!OwnerView I unsure W wq K R o own after}.

Lemma conforms_await_for v n cx k :
  K = Async (Some cx) ->
  conforms I unsure W n o (await_within wq cx k) (own v Ready) (fun r x =>
    match r with
    | Some y => R y /\ x = own y (Taken true)
    | None => x = own v Asleep
    end).
Proof using All.
  intros HK. conforms_iter (fun (_ : nat) x => x = own v Ready); [|by intros ????????|done]. clear k. intros n1 k x _ ->.
  conforms_seq; [by apply (conforms_owner_entry I unsure W wq K R Hwq o own after v)|]. intros n2 e x _ [-> ->].
  conforms_seq; [by apply (conforms_poll_result_async I unsure W wq K R Hwq HR o own after v)|].
  intros n3 [y|] x _ Hx; [by apply conforms_ret|]. subst x. destruct k as [|k]; [by apply conforms_ret|].
  conforms_seq; [by apply (conforms_sleep I unsure W wq K R Hwq HR o own after v)|]. intros n4 [] x _ ->. by apply conforms_ret.
Qed.

End owner.

Section rules.
  Context {G : Type} (I : (tid -> G) -> mem -> Prop).
  Context (W : tid -> (tid -> G) -> mem -> Prop).
  Context (prim : Primitive) {R : Type} `{SyncResult prim R} (pending : R -> bool).
  Context (kind : waiting_mode) (t : tid) (p : Z).

Abbreviation conforming := (conforms I unsure W).

(** The ghost states of a pager that waits; the results that it gives, with the
    ghost states once they were taken. *)
  Context (ready : G -> Prop) (got : R -> G -> Prop) (Hgot : forall r x, got r x -> pending r = false).
  Context (Htry : forall n x, ready x ->
    conforming n t (try_poll prim p) x (fun r x => got r x \/ pending r = true /\ ready x)).
  Context (Hpoll : forall n x, ready x -> conforming n t (poll_by prim kind t p) x got).

Lemma conforms_try_polls n tries x :
  ready x -> conforming n t (try_polls prim pending p tries) x (fun r x =>
    match r with
    | Some r => got r x
    | None => ready x
    end).
Proof using Htry Hgot.
  intros Hx. conforms_iter (fun (_ : nat) x => ready x); [|by intros ????????|done]. clear x Hx tries.
  intros n1 k x _ Hx. destruct k as [|k]; [by apply conforms_ret|].
  conforms_seq; [by apply Htry|]. intros n2 r x' _ [Hx'|[E Hx']]; [rewrite (Hgot _ _ Hx'); by apply conforms_ret|].
  rewrite E. eapply conforms_then; [apply _|by apply conforms_yield_now|]. intros n3 _. by apply conforms_ret.
Qed.

Lemma conforms_await_pager n tries stays x :
  ready x -> conforming n t (await_pager prim pending kind t p tries stays) x (fun r x =>
    match r with
    | Some r => got r x
    | None => stays = false /\ ready x
    end).
Proof using Htry Hpoll Hgot.
  intros Hx. conforms_seq; [by apply conforms_try_polls|]. intros n1 [r|] x' _ Hx'; [by apply conforms_ret|].
  destruct stays; [|by apply conforms_ret]. conforms_seq; [by apply Hpoll|]. intros n2 r x2 _ Hx2. by apply conforms_ret.
Qed.

(** The whole life of a pager. *)
Lemma conforms_through_pager n `{DropCallbacks} register tries stays out allocated retired gone :
  (forall n, conforming n t (pager_default p) out (fun _ x => x = allocated)) ->
  (forall n, conforming n t register allocated (fun b x => b = true /\ ready x)) ->
  (forall r x n, got r x -> conforming n t (pager_drop p) x (fun _ x => retired r x)) ->
  (forall n x, stays = false -> ready x -> conforming n t (pager_drop p) x (fun _ x => x = gone)) ->
  conforming n t (through_pager prim pending kind t p register tries stays) out (fun r x =>
    match r with
    | Some r => retired r x
    | None => stays = false /\ x = gone
    end).
Proof using Htry Hpoll Hgot.
  intros Hnew Hreg Hretire Hgive. conforms_seq; [apply Hnew|]. intros n1 [] x _ ->.
  conforms_seq; [apply Hreg|]. intros n2 b x _ [-> Hx]. cbn iota.
  conforms_seq; [by apply conforms_await_pager|]. intros n3 [r|] x3 _ Hx3.
  - conforms_seq; [by apply Hretire|]. intros n4 [] x4 _ Hx4. by apply conforms_ret.
  - destruct Hx3 as [Hst Hx3]. conforms_seq; [by apply Hgive|]. intros n4 [] x4 _ ->. by apply conforms_ret.
Qed.

End rules.
