(* ===== verification/Private.v ===== *)
(** * Wait queues that nobody else knows of

    What a thread does with its wait queue before it pushes the entry, and
    after the entry could not be pushed: it allocates the anchor, constructs
    the entry, links it, and drops it again.  The class [PrivateView] is the
    interface of an invariant to these operations: the invariant lets the
    thread change its own wait queue as long as only the thread knows of it. *)

From S2P Require Import Prelude Prog Word Opcode Memory WaitQueue Geometry Results.
From S2P Require Import Queue Interleaving Concurrent Delivery Areas.

(** The states of such a wait queue: none; the anchor is allocated; it is set;
    an entry is constructed. *)
Inductive private : Type :=
| Nothing
| Allocated
| Addressed_
| Constructed (en : Entry).

Definition private_at (wq : Z) (pr : private) (m : mem) : Prop :=
  match pr with
  | Nothing => True
  | Allocated => anchors m !! anchor_addr wq = Some 0
  | Addressed_ => anchors m !! anchor_addr wq = Some (anchor_value wq)
  | Constructed en => node m wq en
  end.

(** An entry ready to be pushed. *)
Definition fresh_for (kind : waiting_mode) (t : tid) (en : Entry) : Prop :=
  e_state en = 0 /\ e_pollable en = false /\ e_monitor en = monitor_unset kind t.

Class PrivateView {G} (I : (tid -> G) -> mem -> Prop) (wq : Z) (t : tid) (own : private -> G) :
    Prop := {
  private_open g m pr : I g m -> g t = own pr -> private_at wq pr m;
  private_step g m m' pr pr' :
    I g m -> g t = own pr -> words m' = words m ->
    (forall a, a <> anchor_addr wq -> anchors m' !! a = anchors m !! a) ->
    (forall e, e <> wq_entry wq -> entries m' !! e = entries m !! e) ->
    tokens m' = tokens m -> woken m' = woken m -> private_at wq pr' m' ->
    I (upd g t (own pr')) m';
}.

Section private.
  Context {G : Type} (I : (tid -> G) -> mem -> Prop).
  Context (D : tid -> (tid -> G) -> Prop) `{!OnOthers D}.
  Context (W : tid -> (tid -> G) -> mem -> Prop).
  Context (wq : Z) (Hwq : wq_ok wq) (t : tid) (own : private -> G).
  Context `{Hview : !PrivateView I wq t own}.

Abbreviation conforming := (conforms I D W).

(** The anchor is set. *)
Definition anchored (pr : private) : Prop :=
  match pr with Nothing | Allocated => False | _ => True end.

Lemma private_anchor g m pr :
  anchored pr -> g t = own pr -> I g m -> anchors m !! anchor_addr wq = Some (anchor_value wq).
Proof using Hview.
  intros Hpr Hg HI. pose proof (private_open g m pr HI Hg) as H. destruct pr; try done. apply H.
Qed.

Lemma private_anchor_ptr n x :
  conforming n t (anchor_ptr wq) x (fun a y => a = (anchor_addr wq, anchor_addr wq - wq) /\ y = x).
Proof using Hwq OnOthers0. by apply conforms_anchor_ptr; [apply _|..]. Qed.

Lemma private_entry n pr :
  anchored pr ->
  conforming n t (entry wq) (own pr) (fun e x => e = wq_entry wq /\ x = own pr).
Proof using Hview Hwq OnOthers0.
  intros Hpr. apply conforms_entry; [apply _|done| |done]. intros g m Hg HI. by eapply private_anchor.
Qed.

Lemma private_entry_ptr n pr :
  anchored pr ->
  conforming n t (to_entry_ptr (anchor_addr wq)) (own pr) (fun e x => e = wq_entry wq /\ x = own pr).
Proof using Hview Hwq OnOthers0.
  intros Hpr. apply conforms_to_entry_ptr; [apply _|done| |done]. intros g m Hg HI.
  by eapply private_anchor.
Qed.

Lemma private_default n :
  conforming n t (wait_queue_default wq) (own Nothing) (fun _ x => x = own Allocated).
Proof using Hview Hwq OnOthers0.
  conforms_seq; [apply private_anchor_ptr|]. intros n1 a x _ [-> ->].
  apply conforms_alloc_anchor. intros g m Hg HI. exists (own Allocated). split; [|done].
  eapply (private_step g m _ Nothing); try done; simpl; [|apply lookup_insert_eq].
  intros a Hne. by rewrite lookup_insert_ne.
Qed.

(** No entry is found yet. *)
Lemma private_unregistered n :
  conforming n t (is_pollable wq) (own Allocated) (fun b x => b = false /\ x = own Allocated).
Proof using Hview Hwq OnOthers0.
  conforms_seq; [apply private_anchor_ptr|]. intros n1 a x _ [-> ->].
  conforms_by (fun e x => e = 0 /\ x = own Allocated); [|intros n2 e x _ [-> ->]; by apply conforms_ret].
  conforms_by (fun v x => v = 0 /\ x = own Allocated).
  - apply conforms_read_anchor. intros g m Hg HI. exists 0. split; [apply (private_open g m Allocated HI Hg)|].
    apply kept_same; [done|]. by rewrite Hg.
  - intros n2 v x _ [-> ->]. by apply conforms_ret.
Qed.

(** Reading and changing the constructed entry. *)
Lemma private_read n {B} en (field : Entry -> B) (Q : B -> G -> Prop) :
  Q (field en) (own (Constructed en)) ->
  conforming n t (read_field (wq_entry wq) field) (own (Constructed en)) Q.
Proof using Hview.
  intros HQ. apply conforms_read_field. intros g m Hg HI.
  pose proof (private_open g m _ HI Hg) as Hn. exists en. split; [apply Hn|].
  apply kept_same; [done|]. by rewrite Hg.
Qed.

Lemma private_update n {B} en (field : Entry -> B) f (Q : B -> G -> Prop) :
  e_offset (f en) = e_offset en -> Q (field en) (own (Constructed (f en))) ->
  conforming n t (update_field (wq_entry wq) field f) (own (Constructed en)) Q.
Proof using Hview.
  intros Hoff HQ. apply conforms_update_field. intros g m Hg HI.
  pose proof (private_open g m _ HI Hg) as Hn. exists en. split; [apply Hn|].
  exists (own (Constructed (f en))). split; [|done].
  eapply (private_step g m _ (Constructed en)); try done; simpl; [|by eapply node_insert].
  intros e Hne. by rewrite lookup_insert_ne.
Qed.

(** Setting its result oneself: nobody else waits for it, and there is no waker.
    With the last access others may learn of it. *)
Lemma private_set_result n r en (Q : unit -> G -> Prop) :
  (forall g, ~ D t g) -> is_u8 r -> e_state en = 0 -> (forall g m wk, I g m -> I g (set_weak wk m)) ->
  (forall n, conforming n t (fetch_or_state (wq_entry wq) RESULT_FINALIZED)
     (own (Constructed (set_state (entry_state true false false r) (set_poll true en)))) (fun _ x => Q tt x)) ->
  conforming n t (set_result (wq_entry wq) r) (own (Constructed en)) Q.
Proof using Hview OnOthers0.
  intros Hsure Hr Hst Hweak Hlast. set (en1 := set_poll true en). set (en2 := set_state (entry_state true false false r) en1).
  conforms_by (fun _ x => x = own (Constructed en1)); [by apply private_update|]. intros n1 [] x _ ->.
  conforms_by (fun st x => st = 0 /\ x = own (Constructed en1)); [by apply private_read|]. intros n2 st x _ [-> ->].
  conforms_by (fun st x => st = entry_state true false false r /\ x = own (Constructed en2)).
  { conforms_iter (fun st x => st = 0 /\ x = own (Constructed en1)).
    - intros n3 st x _ [-> ->].
      eapply conforms_then; [apply _|by apply conforms_debug_assert|]. intros n4 _.
      eapply conforms_then; [apply _|by apply conforms_debug_assert|]. intros n5 _. cbv zeta.
      rewrite <- (entry_state_deliver r Hr false). change (entry_state false false false r) with 0.
      conforms_by (fun res x => match res with Ok _ => x = own (Constructed en2) | Err v => v = 0 /\ x = own (Constructed en1) end);
        [|intros n6 [v|v] x _ Hx; by apply conforms_ret].
      apply conforms_compare_exchange_weak_state. intros g m Hg HI.
      pose proof (private_open g m (Constructed en1) HI Hg) as Hn. exists en1. split; [apply Hn|]. intros wk. split.
      + intros _. exists (own (Constructed en2)). split; [|done]. apply (Hweak _ (set_entries _ m)).
        rewrite (entry_state_deliver r Hr false : Z.lor (Z.lor 0 RESULT_SET) r = _).
        eapply (private_step g m _ (Constructed en1)); try done; simpl; [|by eapply node_insert].
        intros e Hne. by rewrite lookup_insert_ne.
      + apply kept_same; [by apply Hweak|]. rewrite Hg. by split.
    - intros g m st x _ _ _ HD. by destruct (Hsure g).
    - done. }
  intros n3 st x _ [-> ->]. rewrite entry_state_waker by done. eapply conforms_then; [apply _|by apply conforms_ret|].
  intros n4 _. conforms_seq; [apply Hlast|]. intros n5 v x _ Hx. by apply conforms_ret.
Qed.

(** Linking it in front of the queue it is about to be pushed to. *)
Lemma private_link n en a :
  is_addr a ->
  conforming n t (update_next_entry_anchor_ptr (wq_entry wq) a) (own (Constructed en))
    (fun _ x => x = own (Constructed (set_next a en))).
Proof using Hview OnOthers0.
  intros Ha. eapply conforms_then; [apply _|apply conforms_debug_assert; [apply Z.eqb_eq, Ha|done]|].
  intros n1 _. by apply private_update.
Qed.

Section construct.
  Context (kind : waiting_mode) (S : Primitive) (self : Z) (o : Opcode).

(** The freshly constructed entry. *)
Definition constructed : Entry :=
  mkEntry 0 0 o 0 false (monitor_unset kind t) S self (wq_entry wq - wq).

Lemma private_construct n :
  conforming n t (construct S wq self o (is_thread kind t)) (own Allocated)
    (fun _ x => x = own (Constructed constructed)).
Proof using Hview Hwq OnOthers0.
  conforms_seq; [apply private_anchor_ptr|].
  intros n1 a x _ [-> ->]. conforms_by (fun v x => v = 0 /\ x = own Allocated).
  { apply conforms_read_anchor. intros g m Hg HI. exists 0. split; [apply (private_open g m _ HI Hg)|].
    apply kept_same; [done|]. by rewrite Hg. }
  intros n2 v x _ [-> ->]. conforms_by (fun b x => b = false /\ x = own Addressed_).
  { conforms_by (fun _ x => x = own Addressed_); [|intros n3 [] x _ ->; by apply conforms_ret].
    apply conforms_write_anchor. intros g m Hg HI.
    split; [eexists; apply (private_open g m _ HI Hg)|]. exists (own Addressed_). split; [|done].
    eapply (private_step g m _ Allocated); try done; simpl; [|apply lookup_insert_eq].
    intros a Hne. by rewrite lookup_insert_ne. }
  intros n3 b x _ [-> ->]. conforms_seq; [by apply private_entry_ptr|].
  intros n4 e x _ [-> ->]. apply conforms_write_entry. intros g m Hg HI. rewrite entry_offset by done.
  exists (own (Constructed constructed)). split; [|done].
  eapply (private_step g m _ Addressed_); try done; simpl.
  - intros e Hne. by rewrite lookup_insert_ne.
  - split; [done|]. split; [apply (private_open g m _ HI Hg)|]. split; [apply lookup_insert_eq|done].
Qed.

(** An entry that was used, or could not be pushed, is constructed anew. *)
Lemma private_construct_again n en :
  e_state en = 0 -> e_pollable en = false ->
  conforming n t (construct S wq self o (is_thread kind t)) (own (Constructed en))
    (fun _ x => exists en, fresh_for kind t en /\ x = own (Constructed en)).
Proof using Hview Hwq OnOthers0.
  intros Hst Hpl. set (x0 := own (Constructed en)). conforms_seq; [apply private_anchor_ptr|].
  intros n1 a x _ [-> ->]. conforms_by (fun v x => v = anchor_value wq /\ x = x0).
  { apply conforms_read_anchor. intros g m Hg HI. eexists.
    split; [by apply (private_anchor g m (Constructed en))|]. apply kept_same; [done|]. by rewrite Hg. }
  intros n2 v x _ [-> ->]. pose proof (anchor_value_ne_0 _ Hwq) as Hne. apply Z.eqb_neq in Hne.
  rewrite Hne. conforms_by (fun b x => b = true /\ x = x0).
  { eapply conforms_then; [apply _|apply conforms_debug_assert; [by apply Z.eqb_eq|done]|].
    intros n3 _. by apply conforms_ret. }
  intros n3 b x _ [-> ->]. conforms_seq; [by apply private_entry_ptr|].
  intros n4 e x _ [-> ->]. conforms_by (fun b x => b = false /\ x = x0); [by apply private_read|].
  intros n5 b x _ [-> ->]. eapply conforms_then; [apply _|by apply conforms_debug_assert|]. intros n6 _.
  set (en1 := set_prev 0 en). set (en2 := set_opcode o en1). set (en3 := set_monitor (monitor_unset kind t) en2).
  conforms_by (fun _ x => x = own (Constructed en1)); [by apply private_update|]. intros n7 [] x _ ->.
  conforms_by (fun _ x => x = own (Constructed en2)); [by apply private_update|]. intros n8 [] x _ ->.
  conforms_by (fun _ x => x = own (Constructed en3)); [by apply private_update|]. intros n9 [] x _ ->.
  apply private_update; [done|]. eexists. split; [|done]. by split.
Qed.

End construct.

(** A wait queue whose entry was not pushed is dropped. *)
Lemma private_drop `{DropCallbacks} n en :
  e_pollable en = false ->
  conforming n t (wait_queue_drop wq) (own (Constructed en)) (fun _ x => x = own Nothing).
Proof using Hview Hwq OnOthers0.
  intros Hpl. set (x0 := own (Constructed en)). unfold wait_queue_drop.
  conforms_seq; [apply private_anchor_ptr|]. intros n1 a x _ [-> ->].
  conforms_seq; [by apply private_entry_ptr|]. intros n2 e x _ [-> ->].
  rewrite wq_entry_eqb_0 by done. conforms_by (fun _ x => x = own Addressed_).
  2:{ intros n3 [] x _ ->. apply conforms_free_anchor. intros g m Hg HI. exists (own Nothing).
      split; [|done]. eapply (private_step g m _ Addressed_); try done; simpl.
      intros a Hne. by rewrite lookup_delete_ne. }
  conforms_by (fun _ x => x = x0).
  - conforms_by (fun b x => b = false /\ x = x0); [by apply private_read|].
    intros n3 b x _ [-> ->]. by apply conforms_ret.
  - intros n3 [] x _ ->. apply conforms_drop_in_place. intros g m Hg HI.
    pose proof (private_open g m _ HI Hg) as Hn. split; [eexists; apply Hn|].
    exists (own Addressed_). split; [|done]. eapply (private_step g m _ (Constructed en)); try done; simpl; [|apply Hn].
    intros e Hne. by rewrite lookup_delete_ne.
Qed.

End private.
