(* ===== verification/Telling.v ===== *)
(** * Telling a list of waiting threads

    A thread that let others go tells them one by one, newest first, by
    setting the results of their entries.  A [job] is what such a thread has
    still to do; the section proves the loop [iter_forward] over the linked
    entries, against an invariant that can be opened at the entry being told
    ([DelivererView]). *)

From Stdlib Require Import FunctionalExtensionality.
From S2P Require Import Prelude Prog Word Opcode Memory WaitQueue Geometry Results.
From S2P Require Import Queue Interleaving Concurrent Delivery Areas.

(** The entries a thread has still to tell the result: the one it is telling,
    how far that is, and the older ones. *)
Record job : Type := Job {
  j_result : Z;
  j_head : tid;
  j_rest : list tid;
  j_step : delivering;
}.

(** What is left to do when some entries have been told. *)
Definition next_job (r : Z) (ls : list tid) : option job :=
  match ls with
  | [] => None
  | h :: rest => Some (Job r h rest Start)
  end.

(** The threads whose results are not final. *)
Definition left_of (j : job) : list tid :=
  if is_final (j_step j) then j_rest j else j_head j :: j_rest j.

(** The job of a thread that is at [de] telling [h]. *)
Definition telling (r : Z) (h : tid) (rest : list tid) (de : delivering) : option job :=
  match de with
  | Delivered => next_job r rest
  | _ => Some (Job r h rest de)
  end.

Lemma telling_job r h rest de : is_final de = false -> telling r h rest de = Some (Job r h rest de).
Proof. by destruct de. Qed.

(** ** Ghost state *)

(** What is known of a thread: its phase, whom it has to tell, and a record
    of its client's. *)
Definition ghost_of (Ph C : Type) : Type := Ph * option job * C.

Section ghost.
  Context {Ph C : Type}.
  Implicit Types (g : tid -> ghost_of Ph C) (x : ghost_of Ph C).

Definition phase_of x : Ph := x.1.1.
Definition task_of x : option job := x.1.2.
Definition client_of x : C := x.2.

Definition clients g : tid -> C := fun u => client_of (g u).

Lemma clients_same g t x : client_of x = client_of (g t) -> clients (upd g t x) = clients g.
Proof.
  intros E. apply functional_extensionality. intros u. unfold clients, upd.
  case_decide; [by subst|done].
Qed.

Lemma clients_upd g t x : clients (upd g t x) = upd (clients g) t (client_of x).
Proof.
  apply functional_extensionality. intros u. unfold clients, upd. by case_decide.
Qed.

Lemma task_upd g t x p : task_of x = task_of (g t) -> task_of (upd g t x p) = task_of (g p).
Proof. intros E. unfold upd. case_decide; [by subst|done]. Qed.

End ghost.

Section tell.
  Context {G : Type} (I : (tid -> G) -> mem -> Prop).
  Context (W : tid -> (tid -> G) -> mem -> Prop).
  Context (A : tid -> Z) (kind : waiting_mode) (t : tid) (r : Z) (Hr : is_u8 r).
  Context (own : option job -> G).
  Context (Hlinked : forall g m ls, ls <> [] -> I g m -> g t = own (next_job r ls) -> linked m (A <$> ls)).
  Context (Hview : forall h rest,
    DelivererView I (A h) (monitor_of kind h) r t (fun de => own (telling r h rest de))).

Abbreviation conforming := (conforms I unsure W).
Abbreviation busy ls := (own (next_job r ls)).

Lemma conforms_job_entry n ls (Q : Z -> G -> Prop) :
  ls <> [] -> Forall (fun u => wq_ok (A u)) ls -> Q (first_entry (A <$> ls)) (busy ls) ->
  conforming n t (to_entry_ptr (first_anchor (A <$> ls))) (busy ls) Q.
Proof using Hlinked.
  intros Hne Hok HQ. destruct ls as [|h rest]; [done|]. apply Forall_cons_1 in Hok as [Hh _].
  apply conforms_to_entry_ptr; [apply _|done| |done]. intros g m Hg HI.
  destruct (Hlinked g m (h :: rest) Hne HI Hg) as [(en & Hn & _) _]. apply Hn.
Qed.

Lemma conforms_next_told n h rest (Q : Z -> G -> Prop) :
  wq_ok (A h) -> Forall (fun u => wq_ok (A u)) rest ->
  Q (first_entry (A <$> rest)) (busy (h :: rest)) ->
  conforming n t (next_entry_ptr (wq_entry (A h))) (busy (h :: rest)) Q.
Proof using Hlinked.
  intros Hh Hrest HQ.
  conforms_by (fun a x => a = first_anchor (A <$> rest) /\ x = busy (h :: rest)).
  { apply conforms_read_field. intros g m Hg HI.
    destruct (Hlinked g m (h :: rest) (ltac:(done)) HI Hg) as [(en & Hn & Hnext) _].
    exists en. split; [apply Hn|]. apply kept_same; [done|]. by rewrite Hg. }
  intros n1 a x _ [-> ->]. destruct rest as [|h' rest]; [by apply conforms_ret|].
  cbn [fmap list_fmap first_entry first_anchor] in *. pose proof (Forall_inv Hrest) as Hh'.
  rewrite anchor_addr_eqb_0 by done. apply conforms_to_entry_ptr; [apply _|done| |done].
  intros g m Hg HI.
  destruct (Hlinked g m (h :: h' :: rest) (ltac:(done)) HI Hg) as (_ & (en & Hn & _) & _).
  apply Hn.
Qed.

Lemma conforms_tell_one n h rest :
  wq_ok (A h) ->
  conforming n t (set_result (wq_entry (A h)) r) (busy (h :: rest)) (fun _ x => x = busy rest).
Proof using Hview Hr.
  intros Hh. apply (conforms_set_result I unsure W (A h) (monitor_of kind h) r Hh Hr t
    (fun de => own (telling r h rest de))), monitor_named.
Qed.

Lemma conforms_tell_all n ls {Y} (k : Y -> Y) y :
  Forall (fun u => wq_ok (A u)) ls ->
  conforming n t
    (iter_forward (first_entry (A <$> ls)) false
      (fun e _ y => set_result e r ;;; Ret (k y, false)) y)
    (busy ls)
    (fun y' x => y' = Nat.iter (length ls) k y /\ x = own None).
Proof using Hview Hlinked Hr.
  intros Hok. conforms_iter (fun s x => exists ls1 ls2, ls = ls1 ++ ls2 /\
    s = (first_entry (A <$> ls2), Nat.iter (length ls1) k y) /\ x = busy ls2);
    [|by intros ????????|by exists [], ls].
  intros n1 s x _ (ls1 & ls2 & -> & -> & ->). destruct ls2 as [|h rest].
  { apply conforms_ret. by rewrite app_nil_r. }
  apply Forall_app in Hok as [_ Hok]. pose proof (Forall_inv Hok) as Hh.
  cbn [fmap list_fmap first_entry]. rewrite wq_entry_eqb_0 by done.
  conforms_by (fun next x => next = first_entry (A <$> rest) /\ x = busy (h :: rest)).
  { apply conforms_next_told; [done|by inversion Hok|done]. }
  intros n2 next x _ [-> ->]. eapply conforms_then; [apply _|by apply conforms_ret|]. intros n3 _.
  conforms_by (fun s x => s = (Nat.iter (length (ls1 ++ [h])) k y, false) /\ x = busy rest).
  { conforms_seq; [by apply conforms_tell_one|]. intros n4 [] x _ ->. apply conforms_ret.
    rewrite length_app, Nat.add_comm. done. }
  intros n4 s x _ [-> ->]. apply conforms_ret. exists (ls1 ++ [h]), rest. by rewrite <- app_assoc.
Qed.

End tell.
