(* ===== verification/Allotment.v ===== *)
(** * Allotting resources, under all interleavings

    A lock and a semaphore allot the units that the data of their state word
    counts: threads and tasks take units when there are enough and nobody
    waits, and otherwise push an entry that asks for them; whoever gives units
    back processes the queue, which grants the units of the oldest entries,
    as far as they fit, and tells their owners.  Meanwhile others push
    entries, give units back, are told, and wake up.

    This file gives the invariant of such a primitive, what its owners and
    telling threads may rely on, and the steps that take units or join the
    queue; [Process.v] has the steps of whoever gives units back.  A client
    adds records of its own and a predicate [P] on them and on the other words:
    it may change them while it holds units ([inside]). *)

From Stdlib Require Import FunctionalExtensionality.
From S2P Require Import Prelude Prog Word Opcode Memory WaitQueue Geometry Results.
From S2P Require Import Queue Grant Interleaving Concurrent Delivery Areas Private Telling SyncPrimitive Crate.

(** ** Ghost state *)

(** How far the thread that processes the queue is.  It sets the back pointers
    of its snapshot, those of the [S j] newest entries being set, those up to
    the [b]-th, if there is a [b], being null and the others set; then it has
    granted the requests [os] of the entries [gs], newest first, and found, if
    [stuck], that the next entry does not fit; then it has cut the entries
    [gs] off.  A thread that removes its entry from the queue marks the newer
    ones, and resets the back pointer of the second one if its own entry is the
    newest ([Bypassed]). *)
Inductive stage : Type :=
| Marking (b : option nat) (j : nat)
| Bypassed
| Granted (gs : list tid) (os : list Opcode) (stuck : bool)
| Cutoff (gs : list tid) (os : list Opcode) (stuck : bool).

(** Where a thread is: its wait queue is private, and it may hold units; or the
    entry is or was in the queue, and is marked as pollable or not yet.  From
    there it may come to process the queue, with a snapshot of the queue and of
    the data. *)
Inductive phase : Type :=
| Aside (pr : private) (h : option Opcode)
| Waiting (o : Opcode) (b : bool) (ow : owning)
| Proc (from : phase) (ls : list tid) (d : Z) (st : stage).

Abbreviation Out := (Aside Nothing None).
Abbreviation Built en := (Aside (Constructed en) None).
Abbreviation Holding o := (Aside Nothing (Some o)).
Abbreviation Keeping o en := (Aside (Constructed en) (Some o)).

(** Where a thread is, whether it processes the queue or not. *)
Fixpoint home (ph : phase) : phase :=
  match ph with
  | Proc from _ _ _ => home from
  | _ => ph
  end.

Lemma home_not_proc ph from ls d st : home ph <> Proc from ls d st.
Proof. by induction ph. Qed.

(** Whether the queue is being processed. *)
Inductive mode : Type :=
| Idle
| Busy (p : tid) (ls : list tid) (d : Z) (st : stage).

(** The queue, newest first; who holds units or has been granted some; and who
    is to tell whom. *)
Record world : Type := World {
  queue : list tid;
  md : mode;
  holders : list tid;
  teller : tid -> option tid;
}.

Definition is_busy (md : mode) : bool :=
  match md with Idle => false | Busy _ _ _ _ => true end.

Definition processes (md : mode) (u : tid) : Prop :=
  match md with Idle => False | Busy p _ _ _ => p = u end.

(** The entries that are cut off the queue and not granted yet. *)
Definition limbo (md : mode) : list tid :=
  match md with
  | Busy _ _ _ (Cutoff gs _ _) => gs
  | _ => []
  end.

Definition pending (w : world) : list tid := queue w ++ limbo (md w).

(** The operations that hold all the units they desire, and some. *)
Definition plain (o : Opcode) : bool :=
  match o with
  | Exclusive | Shared => true
  | SemaphoreOp count => (1 <=? count) && (count <=? DATA_MASK)
  | _ => false
  end.

Abbreviation units := acquired_count.

Lemma plain_units o :
  plain o = true -> desired_count o = units o /\ opcode_ok o = true /\ 1 <= units o <= DATA_MASK.
Proof.
  destruct o; simpl; try done; unfold_masks; [lia..|]. intros [H1 H2]%andb_prop.
  apply Z.leb_le in H1, H2. split; [done|]. split; [|lia]. apply andb_true_intro.
  split; [apply Z.leb_le|apply Z.ltb_lt]; lia.
Qed.

(** What a thread asks for or holds. *)
Definition op_of (ph : phase) : Opcode :=
  match home ph with
  | Waiting o _ _ | Aside _ (Some o) => o
  | _ => Exclusive
  end.

Arguments op_of !ph /.

Section allotment.
  Context {C : Type}.

Abbreviation ghost := (ghost_of phase C).

Definition op (g : tid -> ghost) (u : tid) : Opcode := op_of (phase_of (g u)).

(** The units of several threads. *)
Definition weight (g : tid -> ghost) (l : list tid) : Z := acquired_total (op g <$> l).

  Context (self : Z) (prim : Primitive) (max : Z) (N : nat) (A : tid -> Z) (kind : waiting_mode).
  Context (P : gmap Z Z -> (tid -> C) -> Prop) (inside : C -> option Opcode).

Abbreviation mon := (monitor_of kind).

(** The condition of [process_wait_queue] for granting, the data being [d]. *)
Definition fits (d : Z) (o : Opcode) : bool := (d =? 0) || (d + units o <=? max).

(** The words of other objects. *)
Definition others (m : mem) : gmap Z Z := delete self (words m).

(** ** The invariant *)

(** The entry of the newest of those pushed before [l1]. *)
Definition newer (l1 : list tid) : Z := first_entry (A <$> reverse l1).

(** The entry of an element of the queue between [l1], pushed later, and
    [l2], pushed earlier. *)
Definition queued (o : Opcode) (l1 l2 : list tid) (en : Entry) : Prop :=
  e_opcode en = o /\ e_next_entry_anchor_ptr en = first_anchor (A <$> l2) /\
  (l1 = [] -> e_prev_entry_ptr en = 0).

Definition unmarked (en : Entry) : Prop := e_prev_entry_ptr en = 0.

(** How far the result of a thread that is told, or has been told, is. *)
Definition settled (g : tid -> ghost) (u : tid) (de : delivering) : Prop :=
  de = Delivered \/
  (de = Final /\ exists p j, task_of (g p) = Some j /\ j_head j = u /\ j_step j = Final).

Definition reach (g : tid -> ghost) (w : world) (u : tid) (de : delivering) : Prop :=
  match teller w u with
  | Some p => exists j, task_of (g p) = Some j /\ de = if decide (u = j_head j) then j_step j else Start
  | None => if decide (u ∈ pending w) then de = Start else settled g u de
  end.

(** What the ghost state of the thread [u] says of the queue and the
    holders. *)
Definition placed (w : world) (u : tid) (ph : phase) : Prop :=
  match home ph with
  | Waiting o _ _ =>
      plain o = true /\ ((u ∈ pending w /\ teller w u = None) \/ u ∈ holders w)
  | Aside _ (Some o) => plain o = true /\ u ∈ holders w /\ teller w u = None
  | _ => (u ∉ pending w) /\ (u ∉ holders w) /\ teller w u = None
  end.

Definition at_work (w : world) (u : tid) (ph : phase) : Prop :=
  match ph with
  | Proc _ ls d st => md w = Busy u ls d st
  | _ => ~ processes (md w) u
  end.

Record part (w : world) (u : tid) (x : ghost) : Prop := {
  pt_placed : placed w u (phase_of x);
  pt_work : at_work w u (phase_of x);
  pt_inside o : inside (client_of x) = Some o -> phase_of x = Holding o;
}.

(** The fields of an entry that nobody changes. *)
Definition tagged (o : Opcode) (en : Entry) : Prop :=
  e_opcode en = o /\ e_addr en = self /\ e_drop_callback en = prim.

(** The entry of a waiting thread, until it is consumed. *)
Definition tended (m : mem) (u : tid) (o : Opcode) (b : bool) (ow : owning) : Prop :=
  present ow = true -> entry_is m (tagged o) (A u) /\ (b = true -> polled (A u) m).

(** What it says of the memory. *)
Definition footing (g : tid -> ghost) (m : mem) (w : world) (u : tid) (ph : phase) : Prop :=
  match home ph with
  | Aside pr _ => private_at (A u) pr m
  | Waiting o b ow => (exists de, reach g w u de /\ shape (A u) (mon u) 0 ow de m) /\ tended m u o b ow
  | _ => True
  end.

(** The back pointers the processing thread relies on. *)
Definition marks (m : mem) (ls : list tid) (b : option nat) (j : nat) : Prop :=
  forall l1 u l2, ls = l1 ++ u :: l2 ->
    entry_is m (fun en =>
      match b with
      | None => (length l1 <= j)%nat -> e_prev_entry_ptr en = newer l1
      | Some b =>
          if decide (length l1 <= j \/ b <= length l1)%nat
          then e_prev_entry_ptr en = newer l1 else unmarked en
      end) (A u).

Definition marked (m : mem) (ls : list tid) : Prop :=
  forall l1 u l2, ls = l1 ++ u :: l2 ->
    entry_is m (fun en => e_prev_entry_ptr en = newer l1) (A u).

(** What has been granted may be granted. *)
Definition grantable (g : tid -> ghost) (d : Z) (gs : list tid) (os : list Opcode) : Prop :=
  os = op g <$> gs /\
  (gs = [] \/ d + acquired_total os <= max \/ (d = 0 /\ (length gs <= 1)%nat)).

(** The oldest entry of the queue does not fit. *)
Definition clogged (g : tid -> ghost) (d : Z) (l : list tid) : Prop :=
  forall l1 u, l = l1 ++ [u] -> fits d (op g u) = false.

Definition staged (g : tid -> ghost) (m : mem) (ls : list tid) (d : Z) (st : stage) : Prop :=
  match st with
  | Marking b j => marks m ls b j
  | Bypassed => marks m ls None 0 /\ forall u v l, ls = u :: v :: l -> entry_is m unmarked (A v)
  | Granted gs os stuck =>
      marked m ls /\ exists rest, ls = rest ++ gs /\ grantable g d gs os /\
        (stuck = true -> rest <> [] /\ clogged g (d + acquired_total os) rest)
  | Cutoff gs os stuck =>
      marked m ls /\ linked m (A <$> gs) /\ grantable g d gs os /\
      (stuck = true -> clogged g (d + acquired_total os) ls)
  end.

(** What the thread that processes the queue knows of it; when there is none,
    the oldest entry does not fit. *)
Definition snapshot (g : tid -> ghost) (m : mem) (w : world) : Prop :=
  match md w with
  | Idle => clogged g (weight g (holders w)) (queue w)
  | Busy p ls d st =>
      (exists new, queue w = new ++ ls /\ Forall (fun u => entry_is m unmarked (A u)) new /\ p ∉ new) /\
      ls <> [] /\ weight g (holders w) <= d /\ staged g m ls d st
  end.

(** The threads a job is about. *)
Definition job_ok (m : mem) (w : world) (p : tid) (j : job) : Prop :=
  j_result j = 0 /\ NoDup (j_head j :: j_rest j) /\
  (forall u, u ∈ left_of j -> teller w u = Some p /\ u <> p) /\
  linked m (A <$> left_of j).

Record state (g : tid -> ghost) (m : mem) (w : world) : Prop := {
  a_word : words m !! self =
    Some (word (first_anchor (A <$> queue w)) (is_busy (md w)) (weight g (holders w)));
  a_bound : weight g (holders w) <= max \/ (length (holders w) <= 1)%nat;
  a_nodup : NoDup (pending w ++ holders w);
  a_queue : forall l1 u l2, queue w = l1 ++ u :: l2 -> entry_is m (queued (op g u) l1 l2) (A u);
  a_part : forall u, part w u (g u);
  a_footing : forall u, footing g m w u (phase_of (g u));
  a_snapshot : snapshot g m w;
  a_jobs : forall p j, task_of (g p) = Some j -> job_ok m w p j;
  a_teller : forall u p, teller w u = Some p -> exists j, task_of (g p) = Some j /\ u ∈ left_of j;
  a_out : forall u, (N <= u)%nat -> phase_of (g u) = Out /\ task_of (g u) = None;
  a_client : P (others m) (clients g);
}.

Definition allotment (g : tid -> ghost) (m : mem) : Prop := exists w, state g m w.

(** A thread that waits is asleep, has not been told, and tells nobody. *)
Definition sleeps (t : tid) (g : tid -> ghost) (m : mem) : Prop :=
  (exists o b, phase_of (g t) = Waiting o b Asleep) /\ task_of (g t) = None /\ ~ alerted (mon t) m.

Abbreviation conforming := (conforms allotment unsure sleeps).

(** No two tasks have the same waker, and wait queues lie apart. *)
Context (Hkind : wakers_differ N kind).
Context (HA : forall t, (t < N)%nat -> wq_ok (A t)).
Context (Hapart : forall t u, (t < N)%nat -> (u < N)%nat -> t <> u ->
  A t + 128 <= A u \/ A u + 128 <= A t).
Context (Hmax : 0 <= max <= DATA_MASK).

Abbreviation untouched := (untouched A kind).
Abbreviation preserved := (preserved A).

(** ** Facts *)

Lemma op_upd g t x u : (u = t -> op_of (phase_of x) = op g t) -> op (upd g t x) u = op g u.
Proof using Type.
  intros E. unfold op, upd. case_decide as Hu; [subst u; by apply E|done].
Qed.

(** Requests are stable. *)
Lemma ops_upd g t x (l : list tid) :
  (t ∈ l -> op_of (phase_of x) = op g t) -> op (upd g t x) <$> l = op g <$> l.
Proof using Type.
  intros E. induction l as [|u l IH]; [done|]. simpl. f_equal.
  - apply op_upd. intros ->. apply E. by left.
  - apply IH. intros Hin. apply E. by right.
Qed.

Lemma weight_upd g t x l :
  (t ∈ l -> op_of (phase_of x) = op g t) -> weight (upd g t x) l = weight g l.
Proof using Type. intros E. unfold weight. by rewrite ops_upd. Qed.

Lemma weight_app g l l' : weight g (l ++ l') = weight g l + weight g l'.
Proof using Type. unfold weight. by rewrite fmap_app, acquired_total_app. Qed.

Lemma weight_cons g u l : weight g (u :: l) = units (op g u) + weight g l.
Proof using Type. done. Qed.

Lemma clogged_upd g t x d l :
  (t ∈ l -> op_of (phase_of x) = op g t) -> clogged g d l -> clogged (upd g t x) d l.
Proof using Type.
  intros E Hc l1 u El. rewrite op_upd; [by eapply Hc|]. intros ->. apply E. subst l.
  apply elem_of_app. right. by left.
Qed.

Lemma grantable_upd g t x d gs os :
  (t ∈ gs -> op_of (phase_of x) = op g t) -> grantable g d gs os -> grantable (upd g t x) d gs os.
Proof using Type. intros E [-> Hb]. split; [by rewrite ops_upd|done]. Qed.

Lemma pending_queue w u : u ∈ queue w -> u ∈ pending w.
Proof using Type. intros. apply elem_of_app. by left. Qed.

Lemma placed_ops w u ph : u ∈ pending w \/ u ∈ holders w -> placed w u ph -> plain (op_of ph) = true.
Proof using Type. intros Hu. unfold placed, op_of. destruct (home ph) as [? []| |]; try (by intros (?&?&?); destruct Hu); by intros [? _]. Qed.

(** Queued and granted threads wait, or hold. *)
Lemma structural_lt g m w u :
  state g m w -> u ∈ pending w \/ u ∈ holders w \/ teller w u <> None -> (u < N)%nat.
Proof using Type.
  intros Hs Hu. destruct (decide (u < N)%nat) as [|Hge]; [done|].
  pose proof (pt_placed _ _ _ (a_part _ _ _ Hs u)) as Hp.
  destruct (a_out _ _ _ Hs u) as [E _]; [lia|]. rewrite E in Hp. unfold placed in Hp. simpl in Hp.
  destruct Hp as (?&?&?).
  by destruct Hu as [?|[?|?]].
Qed.

Lemma told_waits g m w u p :
  state g m w -> teller w u = Some p ->
  exists o b ow, home (phase_of (g u)) = Waiting o b ow /\ (u ∈ holders w) /\ u ∉ pending w.
Proof using Type.
  intros Hs Hu. pose proof (pt_placed _ _ _ (a_part _ _ _ Hs u)) as Hp. unfold placed in Hp.
  pose proof (a_nodup _ _ _ Hs) as (_ & Hdis & _)%list.NoDup_app.
  destruct (home (phase_of (g u))) as [? []| |] eqn:E; try (destruct Hp as (?&?&?); congruence).
  destruct Hp as [_ [[_ ?]|Hh]]; [congruence|]. eexists _, _, _. split; [done|]. split; [done|].
  intros Hin. by apply (Hdis u).
Qed.

Lemma pending_waits g m w u :
  state g m w -> u ∈ pending w ->
  exists o b ow, home (phase_of (g u)) = Waiting o b ow /\ teller w u = None.
Proof using Type.
  intros Hs Hu. pose proof (pt_placed _ _ _ (a_part _ _ _ Hs u)) as Hp. unfold placed in Hp.
  pose proof (a_nodup _ _ _ Hs) as (_ & Hdis & _)%list.NoDup_app.
  destruct (home (phase_of (g u))) as [? []| |] eqn:E; try (by destruct Hp as [? _]).
  - destruct Hp as (_ & Hh & _). by destruct (Hdis u).
  - destruct Hp as [_ [[_ ?]|Hh]]; [by eexists _, _, _|]. by destruct (Hdis u).
Qed.

Lemma phase_lt g m w t : state g m w -> phase_of (g t) <> Out -> (t < N)%nat.
Proof using Type.
  intros Hs Hne. destruct (decide (t < N)%nat) as [|Hge]; [done|].
  exfalso. apply Hne, Hs. lia.
Qed.

Lemma task_lt g m w t : state g m w -> task_of (g t) <> None -> (t < N)%nat.
Proof using Type.
  intros Hs Hne. destruct (decide (t < N)%nat) as [|Hge]; [done|].
  exfalso. apply Hne, Hs. lia.
Qed.

(** The data of the state word. *)
Lemma weight_bounds g m w :
  state g m w -> is_data (weight g (holders w)) /\ (weight g (holders w) = 0 -> holders w = []).
Proof using Hmax.
  intros Hs. assert (forall u, u ∈ holders w -> 1 <= units (op g u) <= DATA_MASK) as Hu.
  { intros u Hin. apply plain_units. eapply placed_ops; [by right|]. apply Hs. }
  assert (forall l, (forall u, u ∈ l -> u ∈ holders w) -> Z.of_nat (length l) <= weight g l) as Hlen.
  { induction l as [|u l IH]; intros Hl; [done|]. destruct (Hu u) as [H1 _]; [apply Hl; by left|].
    specialize (IH (fun v Hv => Hl v (ltac:(by right)))). rewrite weight_cons. simpl. lia. }
  specialize (Hlen (holders w) (fun _ H => H)). split.
  - unfold is_data. destruct (a_bound _ _ _ Hs) as [|Hb]; [lia|].
    destruct (holders w) as [|u [|v l]] eqn:E; [done| |simpl in Hb; lia].
    rewrite weight_cons. unfold weight. simpl. specialize (Hu u (ltac:(by left))). lia.
  - destruct (holders w); [done|]. simpl in *. lia.
Qed.

Lemma queue_addr g m w : state g m w -> is_addr (first_anchor (A <$> queue w)).
Proof using HA.
  intros Hs. destruct (queue w) as [|u l] eqn:E; [apply is_addr_0|]. apply anchor_addr_is_addr, HA.
  eapply structural_lt; [done|]. left. apply pending_queue. rewrite E. by left.
Qed.

Lemma queue_addr_ne g m w : state g m w -> queue w <> [] -> first_anchor (A <$> queue w) <> 0.
Proof using HA.
  intros Hs Hne. destruct (queue w) as [|u l] eqn:E; [done|]. apply anchor_addr_ne_0, HA.
  eapply structural_lt; [done|]. left. apply pending_queue. rewrite E. by left.
Qed.

(** ** Frames *)

Lemma queued_links o l1 l2 en en' : links en' = links en -> queued o l1 l2 en -> queued o l1 l2 en'.
Proof using Type. unfold queued. by intros (-> & -> & ->)%links_fields. Qed.

Lemma unmarked_links en en' : links en' = links en -> unmarked en -> unmarked en'.
Proof using Type. unfold unmarked. by intros (_ & _ & ->)%links_fields. Qed.

(** The structure of the queue survives whatever preserves the links of its
    entries. *)
Lemma queue_preserved m m' l f :
  (forall u, u ∈ l -> preserved m m' u) ->
  (forall l1 u l2, l = l1 ++ u :: l2 -> entry_is m (queued (f u) l1 l2) (A u)) ->
  forall l1 u l2, l = l1 ++ u :: l2 -> entry_is m' (queued (f u) l1 l2) (A u).
Proof using Type.
  intros Hpr Hq l1 u l2 E. eapply entry_is_preserved; [by intros ??; apply queued_links| |by apply Hq].
  apply Hpr. by eapply in_middle.
Qed.

Lemma marks_preserved m m' ls b j :
  (forall u, u ∈ ls -> preserved m m' u) -> marks m ls b j -> marks m' ls b j.
Proof using Type.
  intros Hpr Hm l1 u l2 E. eapply entry_is_preserved; [|apply Hpr; by eapply in_middle|by apply (Hm l1 u l2)].
  unfold unmarked. by intros en en' (_ & _ & ->)%links_fields.
Qed.

Lemma marked_preserved m m' ls :
  (forall u, u ∈ ls -> preserved m m' u) -> marked m ls -> marked m' ls.
Proof using Type.
  intros Hpr Hm l1 u l2 E. eapply entry_is_preserved; [|apply Hpr; by eapply in_middle|by apply (Hm l1 u l2)].
  by intros en en' (_ & _ & ->)%links_fields.
Qed.

Lemma all_unmarked_preserved m m' l :
  (forall u, u ∈ l -> preserved m m' u) ->
  Forall (fun u => entry_is m unmarked (A u)) l -> Forall (fun u => entry_is m' unmarked (A u)) l.
Proof using Type.
  intros Hpr. rewrite !Forall_forall. intros Hl u Hu.
  eapply entry_is_preserved; [by intros ??; apply unmarked_links| |by apply Hl].
  by apply Hpr, list_elem_of_In.
Qed.

Lemma snapshot_preserved g m m' w :
  (forall u, u ∈ pending w -> preserved m m' u) -> snapshot g m w -> snapshot g m' w.
Proof using Type.
  unfold snapshot, pending. destruct (md w) as [|p ls d st]; [done|].
  intros Hpr ((new & Eq & Hnew & Hp) & Hne & Hd & Hst). rewrite Eq in Hpr.
  assert (forall u, u ∈ ls -> preserved m m' u) as Hls.
  { intros u Hu. apply Hpr. rewrite !elem_of_app. by left; right. }
  split; [|split; [done|split; [done|]]].
  - exists new. split; [done|]. split; [|done]. eapply all_unmarked_preserved; [|done].
    intros u Hu. apply Hpr. rewrite !elem_of_app. by left; left.
  - destruct st as [b j| |gs os stuck|gs os stuck]; simpl in *.
    + by eapply marks_preserved.
    + destruct Hst as [Hm Hu]. split; [by eapply marks_preserved|]. intros u v l E.
      eapply entry_is_preserved; [by intros ??; apply unmarked_links| |by eapply Hu].
      apply Hls. rewrite E. right. by left.
    + destruct Hst as [Hm Hrest]. split; [by eapply marked_preserved|done].
    + destruct Hst as (Hm & Hl & Hrest). split; [by eapply marked_preserved|]. split; [|done].
      eapply linked_preserved; [done|]. intros u Hu. apply Hpr, elem_of_app. by right.
Qed.

Lemma staged_upd g t x m ls d st :
  (t ∈ ls \/ t ∈ limbo (Busy t ls d st) -> op_of (phase_of x) = op g t) ->
  staged g m ls d st -> staged (upd g t x) m ls d st.
Proof using Type.
  intros E. destruct st as [b j| |gs os stuck|gs os stuck]; [done|done|..]; simpl in *.
  - intros (Hm & rest & -> & Hg & Hst). split; [done|]. exists rest. split; [done|]. split.
    + apply grantable_upd; [|done]. intros Hin. apply E. left. apply elem_of_app. by right.
    + intros Hs. destruct (Hst Hs) as [Hne Hc]. split; [done|]. apply clogged_upd; [|done].
      intros Hin. apply E. left. apply elem_of_app. by left.
  - intros (Hm & Hl & Hg & Hst). split; [done|]. split; [done|]. split.
    + apply grantable_upd; [|done]. auto.
    + intros Hs. apply clogged_upd; auto.
Qed.

Lemma snapshot_upd g t x m w :
  (t ∈ pending w \/ t ∈ holders w -> op_of (phase_of x) = op g t) ->
  snapshot g m w -> snapshot (upd g t x) m w.
Proof using Type.
  unfold snapshot, pending. intros E. rewrite weight_upd by auto.
  destruct (md w) as [|p ls d st].
  - apply clogged_upd. intros Hin. apply E. left. apply elem_of_app. by left.
  - intros ((new & Eq & Hnew & Hp) & Hne & Hd & Hst). split; [by exists new|]. split; [done|].
    split; [done|]. apply staged_upd; [|done]. intros Hin. apply E. left. rewrite Eq, !elem_of_app.
    destruct Hin; [by left; right|by right].
Qed.

Lemma job_preserved m m' w p j :
  (forall u, teller w u <> None -> preserved m m' u) -> job_ok m w p j -> job_ok m' w p j.
Proof using Type.
  intros Hpr (Hr & Hnd & Ht & Hl). split; [done|]. split; [done|]. split; [done|].
  eapply linked_preserved; [done|]. intros u Hu. apply Hpr. by rewrite (proj1 (Ht u Hu)).
Qed.

(** How far results are depends on tasks only. *)
Lemma settled_upd g t x u de : task_of x = task_of (g t) -> settled g u de -> settled (upd g t x) u de.
Proof using Type.
  intros E [->|[-> (p & j & Hp & Hj)]]; [by left|right]. split; [done|]. exists p, j. split; [|done].
  by rewrite task_upd.
Qed.

Lemma reach_upd g t x w u de : task_of x = task_of (g t) -> reach g w u de -> reach (upd g t x) w u de.
Proof using Type.
  intros E. unfold reach. destruct (teller w u) as [p|].
  - intros (j & Hp & Hj). exists j. split; [|done]. by rewrite task_upd.
  - case_decide; [done|]. by apply settled_upd.
Qed.

Lemma tagged_links o en en' : links en' = links en -> tagged o en -> tagged o en'.
Proof using Type. unfold tagged. destruct en, en'. by intros [=]; subst. Qed.

Lemma tended_preserved m m' u o b ow :
  preserved m m' u -> (polled (A u) m -> polled (A u) m') -> tended m u o b ow -> tended m' u o b ow.
Proof using Type.
  intros Hpr Hpo Ht Hp. destruct (Ht Hp) as [Htag Hb]. split; [|auto].
  eapply entry_is_preserved; [|done..]. by intros en en'; apply tagged_links.
Qed.

Lemma tended_untouched m m' u o b ow : untouched m m' u -> tended m u o b ow -> tended m' u o b ow.
Proof using Type.
  intros Hu. apply tended_preserved; [by apply (untouched_preserved A kind)|].
  destruct Hu as (_ & He & _). unfold polled. by rewrite He.
Qed.

Lemma footing_other g g' m m' w w' u ph :
  untouched m m' u -> (forall de, reach g w u de -> reach g' w' u de) ->
  footing g m w u ph -> footing g' m' w' u ph.
Proof using Type.
  intros Hu Hr. unfold footing. destruct (home ph); try done.
  - destruct pr; simpl; [done|by rewrite (proj1 Hu)..|by apply (untouched_node A kind)].
  - intros [(de & Hde & Hs) Ht]. split; [|by eapply tended_untouched].
    exists de. split; [auto|by eapply (shape_untouched A kind)].
Qed.

(** What is to be shown of a step of the thread [t]. *)
Lemma state_change t x g m m' w w' :
  let g' := upd g t x in
  state g m w -> (t < N)%nat ->
  words m' !! self = Some (word (first_anchor (A <$> queue w')) (is_busy (md w')) (weight g' (holders w'))) ->
  weight g' (holders w') <= max \/ (length (holders w') <= 1)%nat ->
  NoDup (pending w' ++ holders w') ->
  (forall l1 u l2, queue w' = l1 ++ u :: l2 -> entry_is m' (queued (op g' u) l1 l2) (A u)) ->
  part w' t x -> footing g' m' w' t (phase_of x) -> snapshot g' m' w' ->
  (forall p j, task_of (g' p) = Some j -> job_ok m' w' p j) ->
  (forall u p, teller w' u = Some p -> exists j, task_of (g' p) = Some j /\ u ∈ left_of j) ->
  (forall u, u <> t -> placed w u (phase_of (g u)) -> placed w' u (phase_of (g u))) ->
  (forall u, u <> t -> at_work w u (phase_of (g u)) -> at_work w' u (phase_of (g u))) ->
  (forall u, (u < N)%nat -> u <> t -> footing g' m' w' u (phase_of (g u))) ->
  P (others m') (clients g') -> state g' m' w'.
Proof using Type.
  intros g' Hs Ht Hw Hb Hnd Hq Hpart Hfoot Hsnap Hjobs Htell Hpl Hwork Hfoots HP.
  split; try done.
  - intros u. unfold g'. destruct (decide (u = t)) as [->|Hne]; [by rewrite upd_eq|].
    rewrite upd_ne by done. destruct (a_part _ _ _ Hs u) as [Hp1 Hp2 Hp3]. split; auto.
  - intros u. unfold g' at 2. destruct (decide (u = t)) as [->|Hne]; [by rewrite upd_eq|].
    rewrite upd_ne by done. destruct (decide (u < N)%nat) as [|Hge]; [auto|].
    by destruct (a_out _ _ _ Hs u) as [-> _]; [lia|].
  - intros u Hu. unfold g'. rewrite upd_ne by lia. by apply Hs.
Qed.

(** A step that leaves the queue and the holders alone. *)
Lemma state_step t x g m m' w :
  state g m w -> (t < N)%nat -> words m' = words m ->
  (forall u, (u < N)%nat -> u <> t -> untouched m m' u) ->
  (t ∈ pending w \/ teller w t <> None -> preserved m m' t) ->
  (t ∈ pending w \/ t ∈ holders w -> op_of (phase_of x) = op_of (phase_of (g t))) ->
  task_of x = task_of (g t) -> client_of x = client_of (g t) ->
  part w t x -> footing (upd g t x) m' w t (phase_of x) ->
  state (upd g t x) m' w.
Proof using Type.
  intros Hs Ht Hw Hothers Hown Hop Htask Hc Hpart Hfoot.
  assert (forall u, u ∈ pending w \/ teller w u <> None -> preserved m m' u) as Hpr.
  { intros u Hu. destruct (decide (u = t)) as [->|Hne]; [auto|].
    apply (untouched_preserved A kind), Hothers; [|done].
    eapply structural_lt; [done|]. destruct Hu; auto. }
  assert (forall p, task_of (upd g t x p) = task_of (g p)) as Htasks by (intros p; by apply task_upd).
  apply (state_change t x g m m' w w); auto.
  - rewrite Hw, weight_upd by auto. apply Hs.
  - rewrite weight_upd by auto. apply Hs.
  - apply Hs.
  - intros l1 u l2 E. rewrite op_upd.
    + eapply (queue_preserved _ _ _ (op g)); [|apply Hs|done]. intros v Hv. apply Hpr. left. by apply pending_queue.
    + intros ->. apply Hop. left. apply pending_queue. by eapply in_middle.
  - apply snapshot_upd; [done|]. eapply snapshot_preserved; [|apply Hs]. auto.
  - intros p j Hj. rewrite Htasks in Hj. eapply job_preserved; [|by apply Hs]. auto.
  - intros u p Hu. rewrite Htasks. by apply Hs.
  - intros u Hu Hne. eapply footing_other; [by apply Hothers| |apply Hs]. intros de. by apply reach_upd.
  - rewrite clients_same by done. unfold others. rewrite Hw. apply Hs.
Qed.

(** ** Wait queues nobody else knows of *)

(** A thread that holds units may have such a wait queue as well, as long as
    its client does not use them yet. *)
Definition own (h : option Opcode) (c : C) (pr : private) : ghost := (Aside pr h, None, c).

Lemma allotment_private t h c :
  (t < N)%nat -> h = None \/ inside c = None -> PrivateView allotment (A t) t (own h c).
Proof using HA Hapart Hkind.
  intros Ht Hh. split.
  - intros g m pr (w & Hs) Hg. pose proof (a_footing _ _ _ Hs t) as Hf. by rewrite Hg in Hf.
  - intros g m m' pr pr' (w & Hs) Hg Hw Ha He Htok Hwok Hpr. exists w.
    destruct (a_part _ _ _ Hs t) as [Hp1 Hp2 Hp4]. rewrite Hg in Hp1, Hp2, Hp4.
    assert (~ (t ∈ pending w \/ teller w t <> None)) as Hno.
    { pose proof (a_nodup _ _ _ Hs) as (_ & Hdis & _)%list.NoDup_app. intros Hst.
      destruct h; destruct Hp1 as (Hp1 & Hin & ?), Hst; try done. by apply (Hdis t). }
    eapply state_step; [done|done|done|..]; rewrite ?Hg; try done.
    + intros u Hu Hne. destruct (apart N A HA Hapart u t Hu Ht Hne) as [Hna Hne'].
      split; [by apply Ha|]. split; [by apply He|]. by apply alerted_same.
    + split; try done. intros o Ho. destruct Hh as [->|Hin]; [by specialize (Hp4 o Ho)|].
      simpl in Ho. congruence.
Qed.

(** ** Owners *)

(** The result of an entry that is pending, or whose owner is to be told, is
    not final. *)
Lemma structural_nonfinal g m w u de :
  state g m w -> u ∈ pending w \/ teller w u <> None -> reach g w u de -> is_final de = false.
Proof using Type.
  intros Hs Hu. unfold reach. destruct (teller w u) as [p|] eqn:E.
  - intros (j & Hj & ->). destruct (a_teller _ _ _ Hs u p E) as (j' & Hj' & Hin).
    assert (j' = j) as -> by congruence. case_decide; [|done]. subst u.
    destruct (a_jobs _ _ _ Hs p j Hj) as (_ & [Hni _]%list.NoDup_cons & _).
    unfold left_of in Hin. by destruct (is_final (j_step j)).
  - destruct Hu as [Hin|?]; [|done]. rewrite decide_True by done. by intros ->.
Qed.

#[export] Instance allotment_owner t o b c :
  OwnerView allotment unsure sleeps (A t) (mon t) (just 0) t
    (fun _ ow => (Waiting o b ow, None, c)) (fun _ => (Holding o, None, c)).
Proof using HA Hapart Hkind.
  split; [|done| |].
  - intros g m v ow (w & Hs) Hg Hne Hv.
    assert (t < N)%nat as Ht by (eapply phase_lt; [done|by rewrite Hg]).
    pose proof (a_footing _ _ _ Hs t) as Hf. rewrite Hg in Hf. destruct Hf as [(de & Hde & Hshape) Htend].
    exists 0, de. split; [done|]. split; [by intros E%Hv|]. split; [done|]. split; [done|].
    intros ow' m' Hloc Hl Hshape'. exists w.
    destruct (a_part _ _ _ Hs t) as [Hp1 Hp2 Hp3]. rewrite Hg in Hp1, Hp2, Hp3.
    eapply state_step; [done|done|apply Hloc|..]; rewrite ?Hg; try done.
    + intros u Hu Hut. by apply (local_untouched N A kind Hkind HA Hapart t).
    + intros Hst. apply (local_preserved A kind); [done|]. apply Hl.
      pose proof (structural_nonfinal _ _ _ _ _ Hs Hst Hde) as Hf.
      destruct ow'; try done; destruct Hshape'; congruence.
    + split; try done. intros o' Ho'. by specialize (Hp3 o' Ho').
    + split; [exists de; split; [|done]; apply reach_upd; [by rewrite Hg|done]|].
      intros Hpr. destruct (Hl Hpr) as [Hpr0 Hsl]. apply (tended_preserved m m' t o b ow); [|apply Hsl|done|done].
      by apply (local_preserved A kind).
  - intros g m _ _ Hg Hal. split; [rewrite Hg; by eexists _, _|]. by rewrite Hg.
  - intros g m _ (w & Hs) Hg. exists w.
    assert (t < N)%nat as Ht by (eapply phase_lt; [done|by rewrite Hg]).
    pose proof (a_footing _ _ _ Hs t) as Hf. rewrite Hg in Hf. destruct Hf as [(de & Hde & _ & Hfin) _].
    destruct (a_part _ _ _ Hs t) as [Hp1 Hp2 Hp3]. rewrite Hg in Hp1, Hp2, Hp3.
    destruct Hp1 as [Hpl Hp1].
    assert (~ (t ∈ pending w \/ teller w t <> None)) as Hno.
    { intros Hst. pose proof (structural_nonfinal _ _ _ _ _ Hs Hst Hde). congruence. }
    assert (teller w t = None) as Htl by (destruct (teller w t); [by destruct Hno; right|done]).
    eapply state_step; [done|done|done|..]; rewrite ?Hg; try done.
    + intros u Hu Hne. destruct (apart N A HA Hapart u t Hu Ht Hne) as [Hna _].
      split; [simpl; by rewrite lookup_delete_ne|done].
    + split; try done.
      * split; [done|]. split; [|done]. destruct Hp1 as [[? _]|?]; [|done]. by destruct Hno; left.
      * intros o' Ho'. by specialize (Hp3 o' Ho').
Qed.

(** ** Telling threads *)

(** A step of the thread [p], which tells others. *)
Lemma state_retask p ph c j tk' tl' g m m' w :
  let g' := upd g p (ph, tk', c) in
  let w' := World (queue w) (md w) (holders w) tl' in
  state g m w -> g p = (ph, Some j, c) -> words m' = words m ->
  (forall u, (u < N)%nat -> preserved m m' u) ->
  (forall j', tk' = Some j' -> job_ok m' w' p j') ->
  (forall u, tl' u = Some p -> exists j', tk' = Some j' /\ u ∈ left_of j') ->
  (forall u, tl' u = teller w u \/ (tl' u = None /\ teller w u = Some p)) ->
  (forall u, (u < N)%nat -> footing g' m' w' u (phase_of (g u))) ->
  state g' m' w'.
Proof using Type.
  intros g' w' Hs Hg Hw Hpr Hjob Hback Htl Hfoots.
  assert (p < N)%nat as Hp by (eapply task_lt; [done|by rewrite Hg]).
  destruct (a_part _ _ _ Hs p) as [Hp1 Hp2 Hp3]. rewrite Hg in Hp1, Hp2, Hp3.
  assert (forall u, op g' u = op g u) as Hop by (intros u; apply op_upd; intros; by subst; unfold op; rewrite Hg).
  assert (forall u, u ∈ pending w \/ teller w u <> None -> preserved m m' u) as Hstr.
  { intros u Hu. apply Hpr. eapply structural_lt; [done|]. destruct Hu; auto. }
  assert (forall u ph, placed w u ph -> placed w' u ph) as Hplaced.
  { intros u ph'. assert (teller w u = None -> tl' u = None) as Hnone by (destruct (Htl u) as [->|[? _]]; done).
    unfold placed. destruct (home ph') as [? []| |]; simpl; try (intros (?&?&?); by auto).
    intros [? [[? ?]|?]]; (split; [done|]); [left; auto|by right]. }
  apply (state_change p (ph, tk', c) g m m' w w'); try done.
  - simpl. rewrite Hw, weight_upd by (by unfold op; rewrite Hg). apply Hs.
  - simpl. rewrite weight_upd by (by unfold op; rewrite Hg). apply Hs.
  - apply Hs.
  - intros l1 u l2 E. simpl in E. fold g'. rewrite Hop. eapply (queue_preserved _ _ _ (op g)); [|apply Hs|done].
    intros v Hv. apply Hstr. left. by apply pending_queue.
  - split; auto.
  - specialize (Hfoots p Hp). by rewrite Hg in Hfoots.
  - apply (snapshot_upd g p (ph, tk', c) m' w); [by unfold op; rewrite Hg|].
    eapply snapshot_preserved; [|apply Hs]. auto.
  - intros p' j' Hj'. destruct (decide (p' = p)) as [->|Hne].
    + rewrite upd_eq in Hj'. by apply Hjob.
    + rewrite upd_ne in Hj' by done.
      destruct (job_preserved m m' w p' j' ltac:(auto) (a_jobs _ _ _ Hs p' j' Hj')) as (Hr & Hnd & Hj & Hl).
      split; [done|]. split; [done|]. split; [|done]. intros u Hu. destruct (Hj u Hu) as [Hj1 Hj2]. simpl.
      split; [|done]. destruct (Htl u) as [->|[_ ?]]; [done|congruence].
  - intros u p' Hu. simpl in Hu. destruct (decide (p' = p)) as [->|Hne].
    + rewrite upd_eq. by apply Hback.
    + rewrite upd_ne by done. apply Hs. destruct (Htl u) as [<-|[? _]]; [done|congruence].
  - intros u _. apply Hplaced.
  - intros u Hu _. by apply Hfoots.
  - rewrite clients_same by (by rewrite Hg). unfold others. rewrite Hw. apply Hs.
Qed.

(** The thread that is being told waits. *)
Lemma head_waits g m w p h rest de ph c :
  state g m w -> g p = (ph, Some (Job 0 h rest de), c) -> is_final de = false ->
  (h < N)%nat /\ teller w h = Some p /\
  exists o b ow, home (phase_of (g h)) = Waiting o b ow /\ shape (A h) (mon h) 0 ow de m /\ tended m h o b ow.
Proof using Type.
  intros Hs Hg Hf.
  destruct (a_jobs _ _ _ Hs p (Job 0 h rest de)) as (_ & _ & Ht & _); [by rewrite Hg|].
  unfold left_of in Ht. simpl in Ht. rewrite Hf in Ht. destruct (Ht h ltac:(by left)) as [Hth _].
  destruct (told_waits _ _ _ _ _ Hs Hth) as (o & b & ow & E & _).
  split; [eapply structural_lt; [done|by right; right; rewrite Hth]|]. split; [done|].
  exists o, b, ow. split; [done|]. pose proof (a_footing _ _ _ Hs h) as Hfoot. unfold footing in Hfoot. rewrite E in Hfoot.
  destruct Hfoot as [(de0 & Hde & Hshape) Htend]. unfold reach in Hde. rewrite Hth in Hde.
  destruct Hde as (j & Hj & ->). rewrite Hg in Hj. injection Hj as <-. simpl in Hshape.
  by rewrite decide_True in Hshape.
Qed.

(** Those told by others, or told before, do not notice. *)
Lemma reach_telling g w p h rest de de' ph c u d :
  let g' := upd g p (ph, telling 0 h rest de', c) in
  let w' := World (queue w) (md w) (holders w)
    (if is_final de' then upd (teller w) h None else teller w) in
  g p = (ph, Some (Job 0 h rest de), c) -> is_final de = false -> u <> h ->
  (teller w u = Some p -> u ∈ rest) ->
  reach g w u d -> reach g' w' u d.
Proof using Type.
  intros g' w' Hg Hf Hu Hrest. unfold reach. simpl.
  assert ((if is_final de' then upd (teller w) h None else teller w) u = teller w u) as ->.
  { destruct (is_final de'); [by apply upd_ne|done]. }
  destruct (teller w u) as [q|] eqn:Eq.
  - intros (j & Hj & ->). unfold g'. destruct (decide (q = p)) as [->|Hqp].
    + rewrite upd_eq. rewrite Hg in Hj. injection Hj as <-. simpl. rewrite decide_False by done.
      specialize (Hrest eq_refl). destruct de'; try by (eexists; split; [done|]; simpl; rewrite decide_False).
      simpl. destruct rest as [|h' rest]; [by apply not_elem_of_nil in Hrest|].
      eexists. split; [done|]. simpl. by case_decide.
    + rewrite upd_ne by done. by exists j.
  - change (pending w') with (pending w). case_decide; [done|]. intros [->|[-> (q & j & Hq & Hh & Hj)]]; [by left|right].
    split; [done|]. exists q, j. split; [|done]. unfold g'. rewrite upd_ne; [done|].
    intros ->. rewrite Hg in Hq. injection Hq as <-. simpl in Hj. by rewrite Hj in Hf.
Qed.

Lemma telling_job_ok m w p h rest de de' :
  let tl' := if is_final de' then upd (teller w) h None else teller w in
  job_ok m w p (Job 0 h rest de) -> is_final de = false ->
  forall j', telling 0 h rest de' = Some j' ->
  job_ok m (World (queue w) (md w) (holders w) tl') p j' /\
  forall u, u ∈ left_of j' <-> u ∈ h :: rest /\ (is_final de' = true -> u <> h).
Proof using Type.
  intros tl' (_ & Hnd & Ht & Hl) Hf j' Hj'. unfold left_of in Ht, Hl. simpl in Ht, Hl, Hnd.
  rewrite Hf in Ht, Hl. apply list.NoDup_cons in Hnd as [Hni Hnd].
  assert (forall u, u ∈ left_of j' <-> u ∈ h :: rest /\ (is_final de' = true -> u <> h)) as Hleft.
  { clear - Hj' Hni. intros u. rewrite elem_of_cons. destruct de'; simpl in Hj'; try (injection Hj' as <-; unfold left_of; simpl).
    1-3: rewrite elem_of_cons; naive_solver.
    - naive_solver.
    - destruct rest as [|h' rest]; [done|]. injection Hj' as <-. unfold left_of. simpl. naive_solver. }
  split; [|exact Hleft]. split; [|split; [|split]].
  - destruct de'; simpl in Hj'; try by injection Hj' as <-. destruct rest; [done|]. by injection Hj' as <-.
  - destruct de'; simpl in Hj'; try (by injection Hj' as <-; apply list.NoDup_cons).
    destruct rest; [done|]. by injection Hj' as <-.
  - intros u [Hin Hne]%Hleft. simpl. unfold tl'. specialize (Ht u Hin).
    destruct (is_final de'); [rewrite upd_ne by auto|]; done.
  - destruct de'; simpl in Hj'; try (injection Hj' as <-; unfold left_of; simpl; first [exact Hl|apply Hl]).
    destruct rest; [done|]. injection Hj' as <-. unfold left_of. simpl. apply Hl.
Qed.

Lemma state_deliver g m m' w p h rest de de' ph c o b ow :
  state g m w -> g p = (ph, Some (Job 0 h rest de), c) -> is_final de = false ->
  home (phase_of (g h)) = Waiting o b ow -> teller w h = Some p -> tended m h o b ow ->
  local (A h) (mon h) m m' -> same_links (A h) m m' -> shape (A h) (mon h) 0 ow de' m' ->
  allotment (upd g p (ph, telling 0 h rest de', c)) m'.
Proof using HA Hapart Hkind.
  intros Hs Hg Hf Eh Hth Htend Hloc Hsl Hshape.
  assert (h < N)%nat as Hh by (eapply structural_lt; [done|right; right; by rewrite Hth]).
  set (tl' := if is_final de' then upd (teller w) h None else teller w).
  assert (job_ok m w p (Job 0 h rest de)) as Hjob by (apply Hs; by rewrite Hg).
  assert (forall u, (u < N)%nat -> u <> h -> untouched m m' u) as Hun.
  { intros u Hu Hne. by apply (local_untouched N A kind Hkind HA Hapart h). }
  assert (forall u, (u < N)%nat -> preserved m m' u) as Hpr.
  { intros u Hu. destruct (decide (u = h)) as [->|]; [by apply (local_preserved A kind)|].
    apply (untouched_preserved A kind); auto. }
  assert (forall u, teller w u = Some p -> u ∈ h :: rest) as Hback.
  { intros u Hu. destruct (a_teller _ _ _ Hs u p Hu) as (j & Hj & Hin). rewrite Hg in Hj.
    injection Hj as <-. unfold left_of in Hin. simpl in Hin. by rewrite Hf in Hin. }
  exists (World (queue w) (md w) (holders w) tl').
  apply (state_retask p ph c (Job 0 h rest de) _ tl' g m m' w); [done|done|apply Hloc|done|..].
  - intros j' Hj'. apply (telling_job_ok m' w p h rest de de'); [|done|done].
    eapply job_preserved; [|done]. intros u Hu. apply Hpr. eapply structural_lt; [done|auto].
  - intros u Hu. assert (u ∈ h :: rest /\ (is_final de' = true -> u <> h)) as [Hin Hne].
    { unfold tl' in Hu. destruct (is_final de'); [|by auto].
      destruct (decide (u = h)) as [->|Hne]; [by rewrite upd_eq in Hu|]. rewrite upd_ne in Hu; auto. }
    destruct (telling 0 h rest de') as [j'|] eqn:Ej.
    + exists j'. split; [done|]. by apply (telling_job_ok m w p h rest de de' Hjob Hf j' Ej).
    + destruct de'; simpl in Ej; try done. destruct rest; [|done].
      apply list_elem_of_singleton in Hin. by destruct (Hne eq_refl).
  - intros u. unfold tl'. destruct (is_final de'); [|by left].
    destruct (decide (u = h)) as [->|]; [right; by rewrite upd_eq|left; by rewrite upd_ne].
  - intros u Hu. destruct (decide (u = h)) as [->|Huh].
    + unfold footing. rewrite Eh. split.
      2:{ apply (tended_preserved m); [by apply Hpr|apply Hsl|done]. }
      exists de'. split; [|done]. unfold reach. simpl. unfold tl'.
      destruct (is_final de') eqn:Ef.
      * rewrite upd_eq. change (pending _) with (pending w). rewrite decide_False.
        { destruct de'; try done; [right|by left]. split; [done|]. exists p. rewrite upd_eq. by eexists. }
        by destruct (told_waits _ _ _ _ _ Hs Hth) as (_ & _ & _ & _ & _ & ?).
      * rewrite Hth. exists (Job 0 h rest de'). rewrite upd_eq. split; [by apply telling_job|].
        simpl. by rewrite decide_True.
    + eapply footing_other; [by apply Hun| |apply Hs]. intros d. apply (reach_telling g w p h rest de); [done..|].
      by intros [?|?]%Hback%elem_of_cons.
Qed.

Lemma reach_told g w p h rest ph c u d :
  let g' := upd g p (ph, next_job 0 rest, c) in
  g p = (ph, Some (Job 0 h rest Final), c) -> u <> h -> (h ∉ rest) ->
  (teller w u = Some p -> u ∈ rest) -> reach g w u d -> reach g' w u d.
Proof using Type.
  intros g' Hg Huh Hni Hback. unfold reach. destruct (teller w u) as [p'|] eqn:Eu.
  - intros (j & Hj & ->). destruct (decide (p' = p)) as [->|Hne]; [|exists j; split; [by unfold g'; rewrite upd_ne|done]].
    unfold g'. rewrite upd_eq. rewrite Hg in Hj. injection Hj as <-. specialize (Hback eq_refl). simpl.
    destruct rest as [|h' rest]; [by apply not_elem_of_nil in Hback|]. eexists. split; [done|].
    simpl. by repeat case_decide.
  - case_decide; [done|]. intros [->|[-> (p' & j & Hp' & Hh & Hj)]]; [by left|right]. split; [done|].
    exists p', j. unfold g'. rewrite upd_ne; [done|]. intros ->. rewrite Hg in Hp'. injection Hp' as <-.
    by destruct Huh.
Qed.

Lemma state_told g m m' w p h rest ph c :
  state g m w -> g p = (ph, Some (Job 0 h rest Final), c) ->
  words m' = words m -> anchors m' = anchors m -> entries m' = entries m ->
  (forall K, alerted K m -> alerted K m') -> alerted (mon h) m' ->
  allotment (upd g p (ph, next_job 0 rest, c)) m'.
Proof using Type.
  intros Hs Hg Hw Ha He Hmono Hal.
  destruct (a_jobs _ _ _ Hs p (Job 0 h rest Final)) as (_ & Hnd & Ht & Hl); [by rewrite Hg|].
  unfold left_of in Ht, Hl. simpl in Ht, Hl, Hnd. apply list.NoDup_cons in Hnd as [Hni Hnd].
  assert (forall u, teller w u = Some p -> u ∈ rest) as Hback.
  { intros u Hu. destruct (a_teller _ _ _ Hs u p Hu) as (j & Hj & Hin). rewrite Hg in Hj.
    injection Hj as <-. done. }
  assert (forall u, preserved m m' u) as Hpr by (intros u; by apply preserved_refl).
  assert (forall u, untouched m m' u) as Hun.
  { intros u. split; [by rewrite Ha|]. split; [by rewrite He|apply (Hmono (mon u))]. }
  exists w. destruct w as [q md hs tl].
  apply (state_retask p ph c (Job 0 h rest Final) _ tl g m m' (World q md hs tl)); try done.
  - intros j' Hj'. destruct rest as [|h' rest]; [done|]. injection Hj' as <-.
    split; [done|]. split; [done|]. split; [exact Ht|]. eapply linked_preserved; [exact Hl|auto].
  - intros u Hu. specialize (Hback u Hu). destruct rest as [|h' rest]; [by apply not_elem_of_nil in Hback|].
    by eexists.
  - by left.
  - intros u _. pose proof (a_footing _ _ _ Hs u) as Hf. destruct (decide (u = h)) as [->|Huh].
    2:{ eapply footing_other; [apply Hun| |exact Hf]. intros d. apply reach_told with h; auto. }
    unfold footing in Hf |- *. destruct (home (phase_of (g h))) as [pr ho| |] eqn:Eh; try done.
    { destruct pr; simpl in *; rewrite ?Ha; try done. by eapply node_ext. }
    destruct Hf as [(de & Hde & Hshape) Htend]. split; [|by eapply tended_untouched].
    assert (de = Final \/ de <> Final) as [->|Hnf] by (destruct de; by (left + right)).
    + exists Delivered. split; [|by eapply shape_told]. revert Hde. unfold reach. simpl.
      destruct (tl h) as [p'|] eqn:Eu.
      * destruct (decide (p' = p)) as [->|Hne]; [by specialize (Hback h Eu)|].
        intros (j & Hj & E). assert (is_final Final = false) as [=].
        eapply (structural_nonfinal g m (World q md hs tl) h); [done|right; simpl; congruence|].
        unfold reach. simpl. rewrite Eu. by exists j.
      * change (pending _) with (pending (World q md hs tl)). case_decide; [done|]. by left.
    + exists de. split; [|eapply shape_untouched; [apply Hun|done]]. revert Hde. unfold reach. simpl.
      destruct (tl h) as [p'|] eqn:Eu.
      * destruct (decide (p' = p)) as [->|Hne]; [by specialize (Hback h Eu)|].
        intros (j & Hj & ->). exists j. by rewrite upd_ne.
      * change (pending _) with (pending (World q md hs tl)). case_decide; [done|].
        intros [->|[? _]]; [by left|done].
Qed.

#[export] Instance allotment_deliverer p h rest ph c :
  DelivererView allotment (A h) (mon h) 0 p (fun de => (ph, telling 0 h rest de, c)).
Proof using HA Hapart Hkind.
  split.
  - intros g m de (w & Hs) Hg Hf. rewrite telling_job in Hg by done.
    destruct (head_waits _ _ _ _ _ _ _ _ _ Hs Hg Hf) as (Hh & Hth & o & b & ow & Eh & Hshape & Htend).
    exists ow. split; [done|]. intros de' m' Hloc Hsl Hshape'. by eapply state_deliver.
  - intros g m m' (w & Hs) Hg Hw Ha He Hmono Hal. by eapply state_told.
Qed.

(** ** Steps on the state word *)

Lemma reach_world g w w' u de :
  (u ∈ pending w <-> u ∈ pending w') -> teller w' u = teller w u -> reach g w u de -> reach g w' u de.
Proof using Type.
  intros Hp Ht. unfold reach. rewrite Ht. destruct (teller w u); [done|].
  destruct (decide (u ∈ pending w)) as [Hi|Hi].
  - by rewrite decide_True by by apply Hp.
  - rewrite decide_False; [done|]. intros ?. by apply Hi, Hp.
Qed.

(** A step that changes nothing but the state word. *)
Lemma state_word t x g m w w' wk :
  let g' := upd g t x in
  state g m w -> (t < N)%nat -> client_of x = client_of (g t) ->
  weight g' (holders w') <= max \/ (length (holders w') <= 1)%nat ->
  NoDup (pending w' ++ holders w') ->
  (forall l1 u l2, queue w' = l1 ++ u :: l2 -> entry_is m (queued (op g' u) l1 l2) (A u)) ->
  part w' t x -> footing g' m w' t (phase_of x) -> snapshot g' m w' ->
  (forall p j, task_of (g' p) = Some j -> job_ok m w' p j) ->
  (forall u p, teller w' u = Some p -> exists j, task_of (g' p) = Some j /\ u ∈ left_of j) ->
  (forall u, u <> t -> placed w u (phase_of (g u)) -> placed w' u (phase_of (g u))) ->
  (forall u, u <> t -> at_work w u (phase_of (g u)) -> at_work w' u (phase_of (g u))) ->
  (forall u de, u <> t -> reach g w u de -> reach g' w' u de) ->
  state g' (set_weak wk (set_words (<[self := word (first_anchor (A <$> queue w'))
    (is_busy (md w')) (weight g' (holders w'))]> (words m)) m)) w'.
Proof using Type.
  intros g' Hs Ht Hc Hb Hnd Hq Hpart Hfoot Hsnap Hjobs Htell Hpl Hwork Hreach.
  set (m' := set_weak wk _). assert (forall u, untouched m m' u) as Hun by done.
  assert (forall u, preserved m m' u) as Hpr by (intros u; by apply preserved_refl).
  apply (state_change t x g m m' w w'); try done.
  - simpl. apply lookup_insert_eq.
  - by eapply snapshot_preserved.
  - intros p j Hj. by apply (job_preserved m), Hjobs.
  - intros u Hu Hne. eapply footing_other; [apply Hun| |apply Hs]. intros de. by apply Hreach.
  - unfold g'. rewrite clients_same by done. unfold others. simpl. rewrite delete_insert_eq. apply Hs.
Qed.

(** Steps that leave tasks and tellers alone. *)
Lemma jobs_same t x g m w w' :
  state g m w -> task_of x = task_of (g t) -> teller w' = teller w ->
  forall p j, task_of (upd g t x p) = Some j -> job_ok m w' p j.
Proof using Type.
  intros Hs E Ht p j Hj. rewrite task_upd in Hj by done.
  destruct (a_jobs _ _ _ Hs p j Hj) as (?&?&?&?). unfold job_ok. by rewrite Ht.
Qed.

Lemma teller_same t x g m w w' :
  state g m w -> task_of x = task_of (g t) -> teller w' = teller w ->
  forall u p, teller w' u = Some p -> exists j, task_of (upd g t x p) = Some j /\ u ∈ left_of j.
Proof using Type.
  intros Hs E -> u p Hu. rewrite task_upd by done. by apply Hs.
Qed.

(** ** Joining the queue *)

(** An entry ready to be pushed. *)
Definition pushable (t : tid) (o : Opcode) (en : Entry) : Prop :=
  fresh_for kind t en /\ tagged o en /\ unmarked en.

Lemma queued_push o l1 l2 v en : queued o l1 l2 en -> queued o (v :: l1) l2 en.
Proof using Type. by intros (Ho & Hn & _). Qed.

Lemma placed_push t w u ph :
  u <> t -> placed w u ph -> placed (World (t :: queue w) (md w) (holders w) (teller w)) u ph.
Proof using Type.
  clear - kind. intros Hne. unfold placed, pending. simpl. destruct (home ph) as [? []| |]; rewrite ?elem_of_cons; naive_solver.
Qed.

Lemma snapshot_push g t x m w en :
  (t ∉ pending w) -> (t ∉ holders w) -> node m (A t) en -> unmarked en -> ~ processes (md w) t ->
  (queue w = [] -> md w = Idle -> fits (weight g (holders w)) (op_of (phase_of x)) = false) ->
  snapshot g m w -> snapshot (upd g t x) m (World (t :: queue w) (md w) (holders w) (teller w)).
Proof using Type.
  intros Hni Hnh Hn Hun Hnp Hfit Hsnap.
  assert (snapshot (upd g t x) m w) as Hs by (apply snapshot_upd; [by intros []|done]).
  revert Hs. unfold snapshot. simpl. rewrite weight_upd by done. destruct (md w) as [|p ls d st] eqn:Em.
  - intros Hc l1 u E. destruct l1 as [|v l1]; injection E as -> E.
    + unfold op. rewrite upd_eq. by apply Hfit.
    + by eapply Hc.
  - intros ((new & Eq & Hnew & Hp) & Hrest). split; [|done]. exists (t :: new). rewrite Eq.
    split; [done|]. split; [constructor; [by exists en|done]|]. rewrite elem_of_cons.
    intros [E|?]; [by apply Hnp|done].
Qed.

Lemma state_push t en o c g m w :
  state g m w -> (t < N)%nat -> g t = (Built en, None, c) -> pushable t o en -> plain o = true ->
  e_next_entry_anchor_ptr en = first_anchor (A <$> queue w) ->
  (queue w = [] -> md w = Idle -> fits (weight g (holders w)) o = false) ->
  allotment (upd g t (Waiting o false Ready, None, c))
    (set_words (<[self := word (anchor_addr (A t)) (is_busy (md w)) (weight g (holders w))]> (words m)) m).
Proof using Type.
  intros Hs Ht Hg ((Hst & Hpl & Hmon) & Htag & Hun) Hplain Hnext Hfit.
  destruct (a_part _ _ _ Hs t) as [Hp1 Hp2 Hp3]. rewrite Hg in Hp1, Hp2, Hp3.
  destruct Hp1 as (Hni & Hnh & Hnt). pose proof (a_footing _ _ _ Hs t) as Hn. rewrite Hg in Hn.
  unfold footing in Hn. simpl in Hn, Hni.
  set (x := (Waiting o false Ready, None, c)). set (w' := World (t :: queue w) (md w) (holders w) (teller w)).
  assert (t ∉ queue w) as Hnq by (intros ?; by apply Hni, pending_queue).
  assert (weight (upd g t x) (holders w') = weight g (holders w)) as Ew by (by apply weight_upd).
  exists w'. rewrite <- Ew. apply (state_word t x g m w w' (weak m)); rewrite ?Ew, ?Hg; try done.
  - apply Hs.
  - simpl. constructor; [|apply Hs]. rewrite elem_of_app. intros [?|?]; [by apply Hni|done].
  - intros [|v l1] u l2 E; injection E as -> El.
    + subst l2. exists en. split; [done|]. unfold op. rewrite upd_eq. by split; [apply Htag|].
    + rewrite op_upd; [|intros ->; destruct Hnq; rewrite El; apply elem_of_app; right; by left].
      destruct (a_queue _ _ _ Hs l1 u l2 El) as (en' & Hn' & Hq). exists en'.
      split; [done|]. by eapply queued_push.
  - split; try done.
    + split; [done|]. left. split; [by left|done].
    + intros o' Ho'. by specialize (Hp3 o' Ho').
  - split; [|intros _; split; [by exists en|done]]. exists Start. split.
    + unfold reach. simpl. rewrite Hnt, decide_True by by left. done.
    + split; [done|]. exists en, false. split; [done|]. split; [|done].
      split; [rewrite Hmon; apply monitor_same_kind|]. by rewrite Hst.
  - by apply (snapshot_push g t x m w en Hni Hnh Hn Hun Hp2 Hfit), Hs.
  - by apply (jobs_same t x g m w); rewrite ?Hg.
  - by apply (teller_same t x g m w); rewrite ?Hg.
  - intros u Hne. by apply placed_push.
  - intros u de Hne Hr. apply (reach_world _ w); [|done|by apply reach_upd; rewrite ?Hg].
    unfold pending. simpl. rewrite elem_of_cons. clear - Hne. naive_solver.
Qed.

(** ** Taking units and giving them back *)

Lemma weight_perm g l l' : l ≡ₚ l' -> weight g l = weight g l'.
Proof using Type.
  intros E. unfold weight. assert (op g <$> l ≡ₚ op g <$> l') as Ef by (by rewrite E).
  induction Ef; simpl; unfold acquired_total in *; simpl; lia.
Qed.

Lemma state_acquire t pr o c g m w :
  state g m w -> (t < N)%nat -> g t = (Aside pr None, None, c) -> plain o = true ->
  queue w = [] -> md w = Idle -> fits (weight g (holders w)) o = true ->
  allotment (upd g t (Aside pr (Some o), None, c))
    (set_words (<[self := word 0 false (weight g (holders w) + units o)]> (words m)) m).
Proof using Hmax.
  intros Hs Ht Hg Ho Hq Hmd Hfit. set (x := (Aside pr (Some o), None, c)).
  destruct (a_part _ _ _ Hs t) as [Hp1 Hp2 Hp3]. rewrite Hg in Hp1, Hp2, Hp3.
  destruct Hp1 as (Hni & Hnh & Hnt). set (w' := World [] Idle (t :: holders w) (teller w)).
  assert (pending w = []) as Hpe by (unfold pending; by rewrite Hq, Hmd).
  assert (weight (upd g t x) (holders w') = weight g (holders w) + units o) as Ew.
  { unfold w'. simpl holders. rewrite weight_cons, weight_upd by done. unfold op. rewrite upd_eq. change (op_of (phase_of x)) with o. lia. }
  destruct (weight_bounds _ _ _ Hs) as [Hd Hz].
  exists w'. rewrite <- Ew. apply (state_word t x g m w w' (weak m)); rewrite ?Ew, ?Hg; try done.
  - unfold fits in Hfit. apply orb_prop in Hfit as [H0%Z.eqb_eq|H1%Z.leb_le]; [|by left].
    right. simpl. by rewrite Hz.
  - simpl. constructor; [done|]. pose proof (a_nodup _ _ _ Hs) as Hnd. by rewrite Hpe in Hnd.
  - intros [] ? ? ?; done.
  - split; try done.
    + split; [done|]. split; [by left|done].
    + by intros [].
    + intros o' Ho'. by specialize (Hp3 o' Ho').
  - pose proof (a_footing _ _ _ Hs t) as Hf. by rewrite Hg in Hf.
  - by intros [] ? ?.
  - by apply (jobs_same t x g m w); rewrite ?Hg.
  - by apply (teller_same t x g m w); rewrite ?Hg.
  - intros u Hne. unfold placed. rewrite Hpe. change (pending w') with (@nil tid). simpl.
    clear - Hne. destruct (home (phase_of (g u))) as [? []| |]; rewrite ?elem_of_cons; set_solver.
  - intros u Hne. unfold at_work. rewrite Hmd. by destruct (phase_of (g u)).
  - intros u de Hne Hr. apply (reach_world _ w); [|done|by apply reach_upd; rewrite ?Hg].
    by rewrite Hpe.
Qed.

(** A thread gives its units back. *)
Lemma state_give t pr o c ph' md' g m w :
  let d := weight g (holders w) - units o in
  let x := (ph', None, c) in
  state g m w -> (t < N)%nat -> g t = (Aside pr (Some o), None, c) -> inside c = None ->
  limbo md' = limbo (md w) -> home ph' = Aside pr None -> md' = md w \/ (md w = Idle /\ processes md' t) ->
  (forall hs tl, at_work (World (queue w) md' hs tl) t ph') ->
  (forall hs tl, weight (upd g t x) hs = d -> snapshot (upd g t x) m (World (queue w) md' hs tl)) ->
  allotment (upd g t x)
    (set_words (<[self := word (first_anchor (A <$> queue w)) (is_busy md') d]> (words m)) m).
Proof using Hmax.
  intros d x Hs Ht Hg Hin Hlimbo Hhome Hmd Hwork Hsnap.
  destruct (a_part _ _ _ Hs t) as [Hp1 Hp2 Hp3]. rewrite Hg in Hp1, Hp2, Hp3.
  assert (op g t = o /\ plain o = true /\ t ∈ holders w /\ teller w t = None) as (Eop & Hpl & Hth & Hnt).
  { unfold op. rewrite Hg. by split. }
  destruct (elem_of_Permutation (holders w) t) as [[hs Ehs] _]; [done|].
  pose proof (a_nodup _ _ _ Hs) as Hnd. rewrite Ehs in Hnd.
  apply list.NoDup_app in Hnd as (Hnd1 & Hdis & [Hnth Hnd2]%list.NoDup_cons).
  assert (t ∉ pending w) as Hni by (intros Hi; apply (Hdis t Hi); by left).
  set (w' := World (queue w) md' hs (teller w)).
  assert (pending w' = pending w) as Epe by (unfold pending; simpl; by rewrite Hlimbo).
  assert (weight g (holders w) = units o + weight g hs) as Ehw.
  { rewrite (weight_perm g _ _ Ehs), weight_cons. by rewrite Eop. }
  assert (weight (upd g t x) hs = d) as Ew by (rewrite weight_upd by done; unfold d; lia).
  assert (1 <= units o) as Hpos by by apply plain_units.
  assert (forall u, u <> t -> u ∈ holders w <-> u ∈ hs) as Hhs.
  { intros u Hne. rewrite Ehs, elem_of_cons. naive_solver. }
  exists w'. rewrite <- Ew. change hs with (holders w'). change md' with (md w').
  apply (state_word t x g m w w' (weak m)); rewrite ?Hg; try done.
  - simpl. rewrite Ew. destruct (a_bound _ _ _ Hs) as [|Hl]; [left; unfold d; lia|right].
    apply Permutation_length in Ehs. simpl in Ehs. lia.
  - rewrite Epe. apply list.NoDup_app. split; [done|]. split; [|done]. intros u Hu Hu'. apply (Hdis u Hu). by right.
  - intros l1 u l2 E. rewrite op_upd; [by apply Hs|]. intros ->. exfalso. apply Hni, pending_queue.
    simpl in E. rewrite E. apply elem_of_app. right. by left.
  - split; [|apply Hwork|simpl; congruence]. unfold placed. change (phase_of x) with ph'. by rewrite Hhome, Epe.
  - unfold footing. change (phase_of x) with ph'. rewrite Hhome. pose proof (a_footing _ _ _ Hs t) as Hf. by rewrite Hg in Hf.
  - by apply Hsnap.
  - by apply (jobs_same t x g m w); rewrite ?Hg.
  - by apply (teller_same t x g m w); rewrite ?Hg.
  - intros u Hne Hplu. unfold placed. rewrite Epe. specialize (Hhs u Hne). simpl. unfold placed in Hplu.
    destruct (home (phase_of (g u))) as [? []| |]; simpl in Hplu; rewrite <- ?Hhs; done.
  - intros u Hne Hw. unfold at_work. simpl. destruct Hmd as [->|[Hi Hpr]]; [done|].
    destruct (phase_of (g u)); simpl in Hw; try (intros Hu; destruct md'; simpl in *; congruence). congruence.
  - intros u de Hne Hr. apply (reach_world _ w); [by rewrite Epe|done|by apply reach_upd; rewrite ?Hg].
Qed.

End allotment.
