(* ===== verification/Obtaining.v ===== *)
(** * Obtaining units

    Threads and tasks that take units of a primitive, or wait for them: the
    operations of [SyncPrimitive.v] on the way in, shown to conform to the
    invariant of [Allotment.v]; and what a client may do while it holds
    units. *)

From Stdlib Require Import FunctionalExtensionality.
From S2P Require Import Prelude Prog Word Opcode Memory WaitQueue Geometry Results.
From S2P Require Import Queue Grant Interleaving Concurrent Delivery Areas Private Telling SyncPrimitive Enqueue Blocking Crate Allotment.

Section obtaining.
  Context {C : Type} (self : Z) (prim : Primitive) (max : Z) (N : nat) (A : tid -> Z) (kind : waiting_mode).
  Context (P : gmap Z Z -> (tid -> C) -> Prop) (inside : C -> option Opcode).
  Context (Hkind : wakers_differ N kind).
  Context (HA : forall t, (t < N)%nat -> wq_ok (A t)).
  Context (Hapart : forall t u, (t < N)%nat -> (u < N)%nat -> t <> u ->
    A t + 128 <= A u \/ A u + 128 <= A t).
  Context (Hmax : 0 <= max <= DATA_MASK).

Abbreviation state := (state self prim max N A kind P inside).
Abbreviation allotment := (allotment self prim max N A kind P inside).
Abbreviation sleeps := (sleeps kind).
Abbreviation conforming := (conforms allotment unsure sleeps).
Abbreviation ghost := (ghost_of phase C).
Abbreviation fits := (fits max).

(** ** What is read from the state word *)

Definition readable (w : Z) : Prop :=
  exists a b d, w = word a b d /\ is_addr a /\ is_data d /\ (b = true -> a <> 0).

Lemma state_readable g m w :
  state g m w -> exists v, words m !! self = Some v /\ readable v.
Proof using HA Hmax.
  intros Hs. eexists. split; [apply Hs|]. eexists _, _, _. split; [done|].
  split; [by eapply queue_addr|]. split; [by eapply (weight_bounds self prim max)|].
  intros Hb. eapply queue_addr_ne; [done|done|]. pose proof (a_snapshot _ _ _ _ _ _ _ _ _ _ _ Hs) as Hsnap.
  unfold snapshot in Hsnap. destruct (md w); [done|].
  destruct Hsnap as ((new & -> & _) & Hne & _). by destruct new.
Qed.

(** The word, once it is known. *)
Lemma state_word_inj g m w a b d :
  state g m w -> words m !! self = Some (word a b d) -> is_addr a -> is_data d ->
  a = first_anchor (A <$> queue w) /\ b = is_busy (md w) /\ d = weight g (holders w) /\
  (a = 0 -> queue w = [] /\ md w = Idle).
Proof using HA Hmax.
  intros Hs Hw Ha Hd. rewrite (a_word _ _ _ _ _ _ _ _ _ _ _ Hs) in Hw. injection Hw as E.
  apply word_inj in E as (<- & <- & <-); [|by eapply queue_addr|by eapply (weight_bounds self prim max)|done..].
  split; [done|]. split; [done|]. split; [done|]. intros E.
  assert (queue w = []) as Hq.
  { destruct (decide (queue w = [])) as [|Hne]; [done|]. exfalso. by eapply queue_addr_ne. }
  split; [done|]. pose proof (a_snapshot _ _ _ _ _ _ _ _ _ _ _ Hs) as Hsnap. unfold snapshot in Hsnap.
  destruct (md w); [done|]. destruct Hsnap as ((new & Eq & _) & Hne & _). rewrite Eq in Hq.
  by destruct new, ls.
Qed.

Section thread.
  Context (t : tid) (Ht : (t < N)%nat).

Lemma conforms_read_word n x :
  conforming n t (load self) x (fun v x' => readable v /\ x' = x).
Proof using HA Hmax.
  apply conforms_load. intros g m Hg HI. pose proof HI as (w & Hs).
  destruct (state_readable _ _ _ Hs) as (v & Hv & Hr). exists v. split; [done|].
  apply kept_same; [done|]. by rewrite Hg.
Qed.

(** ** Taking units *)

Lemma take_step g m w d pr o c :
  state g m w -> g t = (Aside pr None, None, c) -> plain o = true -> is_data d -> fits d o = true ->
  words m !! self = Some (word 0 false d) ->
  allotment (upd g t (Aside pr (Some o), None, c)) (set_words (<[self := word 0 false (d + units o)]> (words m)) m).
Proof using HA Hmax Ht.
  intros Hs Hg Ho Hd Hfit Hw.
  destruct (state_word_inj _ _ _ _ _ _ Hs Hw is_addr_0 Hd) as (_ & _ & -> & Hq).
  destruct (Hq eq_refl) as [Hq1 Hq2]. by apply state_acquire.
Qed.

Lemma conforms_take n d pr o c :
  plain o = true -> is_data d -> fits d o = true ->
  conforming n t (compare_exchange self (word 0 false d) (word 0 false (d + units o))) (Aside pr None, None, c)
    (fun r x =>
      match r with
      | Ok _ => x = (Aside pr (Some o), None, c)
      | Err v => readable v /\ x = (Aside pr None, None, c)
      end).
Proof using HA Hmax Ht.
  intros Ho Hd Hfit. apply conforms_compare_exchange. intros g m Hg HI. pose proof HI as (w & Hs).
  destruct (state_readable _ _ _ Hs) as (v & Hv & Hr). exists v. split; [done|]. split.
  - intros ->. eexists. split; [by eapply take_step|done].
  - intros _. apply kept_same; [done|]. by rewrite Hg.
Qed.

(** A spurious failure changes nothing. *)
Lemma allotment_weak g m wk : allotment g m -> allotment g (set_weak wk m).
Proof using Type.
  intros (w & []). exists w. assert (forall u, preserved A m (set_weak wk m) u) by (intros; by apply preserved_refl).
  split; try done; [by eapply snapshot_preserved|]. intros p j Hj. eapply job_preserved; eauto.
Qed.

Lemma conforms_take_weak n d pr o c :
  plain o = true -> is_data d -> fits d o = true ->
  conforming n t (compare_exchange_weak self (word 0 false d) (word 0 false (d + units o))) (Aside pr None, None, c)
    (fun r x =>
      match r with
      | Ok _ => x = (Aside pr (Some o), None, c)
      | Err v => readable v /\ x = (Aside pr None, None, c)
      end).
Proof using HA Hmax Ht.
  intros Ho Hd Hfit. apply conforms_compare_exchange_weak. intros g m Hg HI. pose proof HI as (w & Hs).
  destruct (state_readable _ _ _ Hs) as (v & Hv & Hr). exists v. split; [done|]. intros wk. split.
  - intros ->. eexists. split; [|done].
    apply (allotment_weak _ (set_words _ m)). by eapply take_step.
  - apply kept_same; [by apply allotment_weak|]. by rewrite Hg.
Qed.

(** ** Joining the queue *)

Section entry.
  Context (c : C).

#[local] Instance own_view : PrivateView allotment (A t) t (own None c).
Proof using HA Hapart Hkind Ht. apply allotment_private; auto. Qed.

Lemma conforms_default n :
  conforming n t (wait_queue_default (A t)) (Out, None, c) (fun _ x => x = (Aside Allocated None, None, c)).
Proof using HA Hapart Hkind Ht.
  exact (private_default allotment unsure sleeps (A t) (HA t Ht) t (own None c) n).
Qed.

Lemma conforms_construct n o :
  conforming n t (construct prim (A t) self o (is_thread kind t)) (Aside Allocated None, None, c)
    (fun _ x => exists en, pushable self prim kind t o en /\ x = (Built en, None, c)).
Proof using HA Hapart Hkind Ht.
  eapply conforms_mono;
    [exact (private_construct allotment unsure sleeps (A t) (HA t Ht) t (own None c) kind prim self o n)|].
  intros [] x ->. eexists. by split; [|reflexivity].
Qed.

#[local] Instance owner_view o b :
  OwnerView allotment unsure sleeps (A t) (monitor_of kind t) (just 0) t
    (fun _ ow => (Waiting o b ow, None, c)) (fun _ => (Holding o, None, c)).
Proof using HA Hapart Hkind. by apply allotment_owner. Qed.

(** A wait queue whose entry was not pushed is dropped. *)
Lemma conforms_abandon n en :
  e_pollable en = false ->
  conforming n t (wait_queue_drop (A t)) (Built en, None, c) (fun _ x => x = (Out, None, c)).
Proof using HA Hapart Hkind Ht.
  exact (private_drop allotment unsure sleeps (A t) (HA t Ht) t (own None c) n en).
Qed.

(** The state a request was refused in. *)
Definition refused (o : Opcode) (v : Z) : Prop :=
  exists a b d, v = word a b d /\ is_addr a /\ is_data d /\ (a = 0 -> fits d o = false).

Lemma conforms_owner_waits n o b ow :
  ow <> Freed ->
  conforming n t (entry (A t)) (Waiting o b ow, None, c)
    (fun e x => e = wq_entry (A t) /\ x = (Waiting o b ow, None, c)).
Proof using HA Hapart Hkind Ht.
  intros Hne. exact (conforms_owner_entry allotment unsure sleeps (A t) (monitor_of kind t) (just 0)
    (HA t Ht) t (fun _ ow => (Waiting o b ow, None, c)) (fun _ => (Holding o, None, c)) 0 n ow Hne (fun _ => eq_refl)).
Qed.

(** The entry can be polled from now on. *)
Lemma state_polled g m o b ow :
  allotment g m -> g t = (Waiting o b ow, None, c) -> polled (A t) m ->
  allotment (upd g t (Waiting o true ow, None, c)) m.
Proof using Ht.
  intros (w & Hs) Hg Hpo. exists w. destruct (a_part _ _ _ _ _ _ _ _ _ _ _ Hs t) as [Hp1 Hp2 Hp3].
  pose proof (a_footing _ _ _ _ _ _ _ _ _ _ _ Hs t) as Hf. rewrite Hg in Hp1, Hp2, Hp3, Hf.
  destruct Hf as [(de & Hde & Hshape) Htend].
  apply (state_step self prim max N A kind P inside t _ g m m w); rewrite ?Hg; try done.
  - intros _. by apply preserved_refl.
  - split; try done. intros o' Ho'. by specialize (Hp3 o' Ho').
  - split; [exists de; split; [|done]; apply reach_upd; [by rewrite Hg|done]|].
    intros Hpr. by destruct (Htend Hpr).
Qed.

Lemma conforms_set_pollable n o b :
  conforming n t (set_pollable (wq_entry (A t))) (Waiting o b Ready, None, c)
    (fun _ x => x = (Waiting o true Ready, None, c)).
Proof using HA Hapart Hkind Ht.
  apply conforms_update_field. intros g m Hg HI.
  destruct (owner_open g m 0 Ready HI Hg) as (r & de & Hr & _ & Hs & _ & Hclose); [done|done|].
  unfold just in Hr. subst r.
  destruct Hs as (_ & en & w & Hn & Hok & _). exists en. split; [apply Hn|].
  eexists. split; [|done]. rewrite <- (upd_upd g t (Waiting o b Ready, None, c)).
  apply (state_polled _ _ _ b); [|apply upd_eq|].
  - apply Hclose; [apply (local_entry (A t) _ (weak m))|intros _; split; [done|]|].
    + eapply (same_links_entry (A t) (weak m)); [apply Hn|done].
    + by apply (live_update (A t) _ 0 (weak m) m en Ready de _ w).
  - exists (set_poll true en). split; [apply lookup_insert_eq|done].
Qed.

Lemma conforms_push n v o en :
  refused o v -> pushable self prim kind t o en -> plain o = true ->
  conforming n t (try_push_wait_queue_entry self (A t) v) (Built en, None, c) (fun (b : bool) x =>
    if b then x = (Waiting o true Ready, None, c)
    else exists en, pushable self prim kind t o en /\ x = (Built en, None, c)).
Proof using HA Hapart Hkind Ht Hmax.
  intros (a & b & d & -> & Ha & Hd & Hfit) Hen Ho. pose proof (HA t Ht) as Hok.
  conforms_seq; [apply (private_anchor_ptr allotment unsure sleeps (A t) Hok t)|]. intros n1 a' x _ [-> ->].
  eapply conforms_then; [apply _|apply conforms_debug_assert; [|done]|].
  { by rewrite addr_land_not_addr by by apply anchor_addr_is_addr. }
  intros n2 _. rewrite word_to_anchor_ptr by done.
  conforms_seq; [by apply (private_entry allotment unsure sleeps (A t) Hok t (own None c) n2 (Constructed en))|].
  intros n3 e x _ [-> ->].
  conforms_seq; [exact (private_link allotment unsure sleeps (A t) t (own None c) n3 en a Ha)|].
  intros n4 [] x _ ->. rewrite word_land_not_addr, word_lor_addr by auto using anchor_addr_is_addr.
  set (en' := set_next a en). conforms_by (fun r x =>
    match r with Ok _ => x = (Waiting o false Ready, None, c) | Err _ => x = (Built en', None, c) end).
  { apply conforms_compare_exchange. intros g m Hg HI. pose proof HI as (w & Hs).
    eexists. split; [apply Hs|]. split.
    - intros E. pose proof (a_word _ _ _ _ _ _ _ _ _ _ _ Hs) as Hw. rewrite E in Hw.
      destruct (state_word_inj _ _ _ _ _ _ Hs Hw Ha Hd) as (-> & -> & -> & Hq).
      eexists. split; [|done]. apply (state_push self prim max N A kind P inside t en' o c g m w); try done.
      intros Eq _. apply Hfit. by rewrite Eq.
    - intros _. apply kept_same; [done|]. by rewrite Hg. }
  intros n5 [?|?] x _ ->; [|by apply conforms_ret; exists en'].
  conforms_seq; [by apply conforms_owner_waits|]. intros n6 e x _ [-> ->].
  conforms_seq; [apply conforms_set_pollable|]. intros n7 [] x _ ->. by apply conforms_ret.
Qed.

(** ** Waiting *)

Lemma conforms_poll_wait n o b :
  kind t = None ->
  conforming n t (poll_result_sync (wq_entry (A t))) (Waiting o b Ready, None, c)
    (fun v x => v = 0 /\ x = (Waiting o b (Taken true), None, c)).
Proof using HA Hapart Hkind Ht.
  intros Ek. apply (conforms_poll_result_sync allotment unsure sleeps (A t) (monitor_of kind t) (just 0)
    (HA t Ht) (just_u8 0 (ltac:(done))) t (fun _ ow => (Waiting o b ow, None, c)) (fun _ => (Holding o, None, c)) 0).
  unfold monitor_of. by rewrite Ek.
Qed.

Lemma conforms_await n o b cx :
  kind t = Some cx ->
  conforming n t (await_result (A t) cx) (Waiting o b Ready, None, c)
    (fun v x => v = 0 /\ x = (Waiting o b (Taken true), None, c)).
Proof using HA Hapart Hkind Ht.
  intros Ek. apply (conforms_await_result allotment unsure sleeps (A t) (monitor_of kind t) (just 0)
    (HA t Ht) (just_u8 0 (ltac:(done))) t (fun _ ow => (Waiting o b ow, None, c)) (fun _ => (Holding o, None, c)) 0).
  unfold monitor_of. by rewrite Ek.
Qed.

Lemma conforms_retire n o b :
  conforming n t (wait_queue_drop (A t)) (Waiting o b (Taken true), None, c)
    (fun _ x => x = (Holding o, None, c)).
Proof using HA Hapart Hkind Ht.
  by apply (conforms_drop allotment unsure sleeps (A t) (monitor_of kind t) (just 0) (HA t Ht) t
    (fun _ ow => (Waiting o b ow, None, c)) (fun _ => (Holding o, None, c)) 0).
Qed.

Lemma refused_assert o v :
  plain o = true -> refused o v -> negb (Z.land v ADDR_MASK =? 0) || negb (Z.land v DATA_MASK =? 0) = true.
Proof using Hmax.
  intros Ho (a & b & d & -> & Ha & Hd & Hfit). rewrite word_land_addr, word_land_data by done.
  destruct (a =? 0) eqn:Ea; [|done]. apply Z.eqb_eq in Ea. specialize (Hfit Ea).
  unfold Allotment.fits in Hfit. by destruct (d =? 0).
Qed.

Lemma conforms_wait_sync n v o :
  refused o v -> plain o = true -> kind t = None ->
  conforming n t (wait_resources_sync prim self (A t) v o (Ret tt)) (Out, None, c) (fun r x =>
    match r with
    | Ok v => v = 0 /\ x = (Holding o, None, c)
    | Err _ => x = (Out, None, c)
    end).
Proof using HA Hapart Hkind Ht Hmax.
  intros Hv Ho Ek. eapply conforms_then; [apply _|apply conforms_debug_assert; [by eapply refused_assert|done]|].
  intros n1 _. conforms_seq; [apply conforms_default|]. intros n2 [] x _ ->.
  replace true with (is_thread kind t) by (unfold is_thread; by rewrite Ek).
  conforms_seq; [by apply conforms_construct|]. intros n3 [] x _ (en & Hen & ->).
  conforms_seq; [by apply conforms_push|]. intros n4 [|] x _ Hx.
  - subst x. conforms_by (fun r x => r = Ok 0 /\ x = (Waiting o true (Taken true), None, c)).
    + conforms_by (fun _ x => x = (Waiting o true Ready, None, c)); [by apply conforms_ret|].
      intros n5 [] x _ ->. conforms_seq; [by apply conforms_owner_waits|]. intros n6 e x _ [-> ->].
      conforms_seq; [by apply conforms_poll_wait|]. intros n7 r x _ [-> ->]. by apply conforms_ret.
    + intros n5 r x _ [-> ->]. conforms_seq; [apply conforms_retire|]. intros n6 [] x _ ->.
      by apply conforms_ret.
  - destruct Hx as (en' & ((_ & Hpl & _) & _) & ->). conforms_by (fun r x => r = Err tt /\ x = (Built en', None, c));
      [by apply conforms_ret|].
    intros n5 r x _ [-> ->]. conforms_seq; [by apply conforms_abandon|]. intros n6 [] x _ ->.
    by apply conforms_ret.
Qed.

(** What a task does before it awaits the result. *)
Lemma conforms_enqueue_task n {B} v o cx (k : bool -> program B) Q :
  refused o v -> plain o = true -> kind t = Some cx ->
  (forall n', (n' <= n)%nat -> conforming n' t (k true) (Waiting o true Ready, None, c) Q) ->
  (forall n' en, (n' <= n)%nat -> e_pollable en = false -> conforming n' t (k false) (Built en, None, c) Q) ->
  conforming n t
    (wait_queue_default (A t) ;;;
     construct prim (A t) self o false ;;;
     pushed <- try_push_wait_queue_entry self (A t) v ;; k pushed) (Out, None, c) Q.
Proof using HA Hapart Hkind Ht Hmax.
  intros Hv Ho Ek Hyes Hno. conforms_seq; [apply conforms_default|]. intros n1 [] x Hn1 ->.
  replace false with (is_thread kind t) by (unfold is_thread; by rewrite Ek).
  conforms_seq; [by apply conforms_construct|]. intros n2 [] x Hn2 (en & Hen & ->).
  conforms_seq; [by apply conforms_push|]. intros n3 [|] x Hn3 Hx; [subst x; apply Hyes; lia|].
  destruct Hx as (en' & ((_ & Hpl & _) & _) & ->). apply Hno; [lia|done].
Qed.

End entry.

End thread.

(** ** What clients may rely on *)

Definition occupied (c : C) : Z := from_option (fun o => units o) 0 (inside c).

(** The units that clients record to be using. *)
Definition occupancy (cs : tid -> C) : Z := total occupied (seq 0 N) cs.

Lemma total_le_weight (ins : tid -> Z) (g : tid -> ghost) l hs :
  NoDup l -> (forall u, u ∈ hs -> 0 <= units (op g u)) ->
  (forall u, u ∈ l -> ins u <> 0 -> u ∈ hs /\ ins u = units (op g u)) ->
  total ins l (fun u => u) <= weight g hs.
Proof using Type.
  intros Hnd. revert hs. induction Hnd as [|u l Hni Hnd IH]; intros hs Hpos Hins.
  - cbn. clear Hins. induction hs as [|u hs IH]; [done|]. rewrite weight_cons.
    specialize (Hpos u ltac:(by left)) as Hu. unfold total in IH. simpl in IH.
    assert (0 <= weight g hs) by (apply IH; intros; apply Hpos; by right). lia.
  - cbn. fold (total ins l (fun u => u)). destruct (decide (ins u = 0)) as [->|Hne].
    { apply IH; [done|]. intros v Hv. apply Hins. by right. }
    destruct (Hins u) as [Hin E]; [by left|done|]. rewrite E.
    destruct (elem_of_Permutation hs u) as [[hs' Ehs] _]; [done|].
    rewrite (weight_perm g _ _ Ehs), weight_cons. apply Z.add_le_mono_l, IH.
    + intros v Hv. apply Hpos. rewrite Ehs. by right.
    + intros v Hv Hnv. destruct (Hins v) as [Hvh Ev]; [by right|done|]. split; [|done].
      rewrite Ehs in Hvh. apply elem_of_cons in Hvh as [->|?]; done.
Qed.

(** A thread that holds units, and uses them, uses them alone or within the
    limit. *)
Lemma room g m w t o (c : C) :
  state g m w -> phase_of (g t) = Holding o -> inside c = Some o ->
  occupancy (upd (clients g) t c) <= DATA_MASK /\
  (occupancy (upd (clients g) t c) <= max \/ occupancy (upd (clients g) t c) = units o).
Proof using Hmax.
  intros Hs Ht Hc. assert (t < N)%nat as Hlt by (eapply phase_lt; [done|by rewrite Ht]).
  set (ins := fun u => occupied (upd (clients g) t c u)).
  assert (forall u, u ∈ holders w -> 1 <= units (op g u)) as Hpos.
  { intros u Hu. apply plain_units. eapply placed_ops; [by right|].
    apply (pt_placed _ _ _ _ (a_part _ _ _ _ _ _ _ _ _ _ _ Hs u)). }
  assert (occupancy (upd (clients g) t c) = total ins (seq 0 N) (fun u => u)) as Eocc by done.
  assert (total ins (seq 0 N) (fun u => u) <= weight g (holders w)) as Hle.
  { apply total_le_weight; [apply NoDup_seq|intros u Hu; specialize (Hpos u Hu); lia|].
    intros u Hu Hne. unfold ins, occupied in *. destruct (decide (u = t)) as [->|Hut].
    - rewrite upd_eq, Hc. simpl. unfold op. rewrite Ht. split; [|done].
      pose proof (pt_placed _ _ _ _ (a_part _ _ _ _ _ _ _ _ _ _ _ Hs t)) as Hp. rewrite Ht in Hp. apply Hp.
    - rewrite upd_ne in Hne |- * by done. destruct (inside (clients g u)) as [o'|] eqn:Eu; [|done].
      pose proof (pt_inside _ _ _ _ (a_part _ _ _ _ _ _ _ _ _ _ _ Hs u) o' Eu) as Eph. unfold op. rewrite Eph.
      split; [|done]. pose proof (pt_placed _ _ _ _ (a_part _ _ _ _ _ _ _ _ _ _ _ Hs u)) as Hp.
      rewrite Eph in Hp. apply Hp. }
  rewrite Eocc. destruct (weight_bounds self prim max N A kind P inside Hmax g m w Hs) as [[_ Hd] _].
  split; [lia|]. destruct (a_bound _ _ _ _ _ _ _ _ _ _ _ Hs) as [|Hl]; [left; lia|right].
  assert (holders w = [t]) as Eh.
  { pose proof (pt_placed _ _ _ _ (a_part _ _ _ _ _ _ _ _ _ _ _ Hs t)) as Hp. rewrite Ht in Hp.
    destruct Hp as (_ & Hin & _). destruct (holders w) as [|v [|? ?]]; [by apply not_elem_of_nil in Hin| |simpl in Hl; lia].
    by apply list_elem_of_singleton in Hin as ->. }
  rewrite Eh in Hle. unfold weight, op in Hle. simpl in Hle. rewrite Ht in Hle. simpl in Hle.
  assert (units o <= total ins (seq 0 N) (fun u => u)) as Hge.
  { assert (ins t = units o) as <- by (unfold ins, occupied; by rewrite upd_eq, Hc).
    apply (total_ge ins _ (fun u => u) t); [|apply elem_of_seq; lia]. intros u. unfold ins, occupied.
    destruct (decide (u = t)) as [->|Hut].
    - rewrite upd_eq, Hc. simpl. specialize (Hpos t). rewrite Eh in Hpos. unfold op in Hpos. rewrite Ht in Hpos.
      specialize (Hpos ltac:(by left)). simpl in Hpos. lia.
    - rewrite upd_ne by done. destruct (inside (clients g u)) as [o'|] eqn:Eu; [|done].
      pose proof (pt_inside _ _ _ _ (a_part _ _ _ _ _ _ _ _ _ _ _ Hs u) o' Eu) as Eph.
      pose proof (pt_placed _ _ _ _ (a_part _ _ _ _ _ _ _ _ _ _ _ Hs u)) as Hp. rewrite Eph in Hp.
      destruct Hp as (Ho' & _). simpl. apply plain_units in Ho'. lia. }
  lia.
Qed.

(** A thread changes what it records, and the words of other objects. *)
Lemma client_step g m m' t ph c c' :
  allotment g m -> (t < N)%nat -> g t = (ph, None, c) -> words m' !! self = words m !! self ->
  anchors m' = anchors m -> entries m' = entries m -> tokens m' = tokens m -> woken m' = woken m ->
  (forall o, inside c' = Some o -> ph = Holding o) ->
  ((forall o c1, ph = Holding o -> inside c1 = Some o ->
      occupancy (upd (clients g) t c1) <= DATA_MASK /\
      (occupancy (upd (clients g) t c1) <= max \/ occupancy (upd (clients g) t c1) = units o)) ->
   P (others self m) (clients g) -> P (others self m') (upd (clients g) t c')) ->
  allotment (upd g t (ph, None, c')) m'.
Proof using Hmax.
  intros (w & Hs) Ht Hg Hw Ha He Htok Hwok Hin HP. exists w.
  destruct (a_part _ _ _ _ _ _ _ _ _ _ _ Hs t) as [Hp1 Hp2 Hp3]. rewrite Hg in Hp1, Hp2, Hp3.
  assert (forall u, untouched A kind m m' u) as Hun by (intros u; by apply untouched_refl).
  assert (forall u, preserved A m m' u) as Hpr by (intros u; by apply preserved_refl).
  set (x := (ph, None, c')). assert (forall u, op (upd g t x) u = op g u) as Hop.
  { intros u. apply op_upd. intros ->. unfold op. by rewrite Hg. }
  apply (state_change self prim max N A kind P inside t x g m m' w w); try done.
  - rewrite Hw, weight_upd by (by unfold op; rewrite Hg). apply Hs.
  - rewrite weight_upd by (by unfold op; rewrite Hg). apply Hs.
  - apply Hs.
  - intros l1 u l2 E. rewrite Hop. eapply (queue_preserved A m m' _ (op g)); [auto|apply Hs|done].
  - eapply (footing_other self prim A kind g); [apply Hun|intros de; by apply reach_upd; rewrite Hg|].
    pose proof (a_footing _ _ _ _ _ _ _ _ _ _ _ Hs t) as Hf. by rewrite Hg in Hf.
  - apply snapshot_upd; [by unfold op; rewrite Hg|]. eapply snapshot_preserved; [|apply Hs]. auto.
  - intros p j Hj. rewrite task_upd in Hj by (by rewrite Hg). eapply job_preserved; [|by eapply a_jobs]. auto.
  - intros u p Hu. rewrite task_upd by (by rewrite Hg). by eapply a_teller.
  - intros u Hu Hne. eapply footing_other; [apply Hun|intros de; by apply reach_upd; rewrite Hg|]. apply Hs.
  - rewrite clients_upd. apply HP; [|apply Hs]. intros o c1 -> Hc1. eapply room; [done|by rewrite Hg|done].
Qed.

(** What a thread that holds units may rely on when it starts to use them. *)
Definition roomy (cs : tid -> C) (t : tid) (ph : phase) : Prop :=
  forall o c, ph = Holding o -> inside c = Some o ->
    occupancy (upd cs t c) <= DATA_MASK /\
    (occupancy (upd cs t c) <= max \/ occupancy (upd cs t c) = units o).

(** The condition for an access of a thread to another word, which puts [f v]
    in the place of [v]. *)
Definition accessible (t : tid) (ph : phase) (c : C) (cell : Z) (f : Z -> Z) (Q : Z -> ghost -> Prop) : Prop :=
  forall ws cs, P ws cs -> cs t = c -> roomy cs t ph ->
    exists v c', ws !! cell = Some v /\ (forall o, inside c' = Some o -> ph = Holding o) /\
      P (<[cell := f v]> ws) (upd cs t c') /\ Q v (ph, None, c').

Lemma client_access g m t ph c cell f (Q : Z -> ghost -> Prop) :
  allotment g m -> (t < N)%nat -> g t = (ph, None, c) -> cell <> self -> accessible t ph c cell f Q ->
  exists v, words m !! cell = Some v /\ kept allotment t g (set_words (<[cell := f v]> (words m)) m) (Q v).
Proof using Hmax.
  intros HI Ht Hg Hne Hacc. pose proof HI as (w & Hs).
  destruct (Hacc (others self m) (clients g)) as (v & c' & Hv & Hin & HP & HQ).
  - apply Hs.
  - unfold clients. by rewrite Hg.
  - intros o c1 -> Hc1. eapply room; [done|by rewrite Hg|done].
  - unfold others in Hv. rewrite lookup_delete_ne in Hv by done. exists v. split; [done|].
    exists (ph, None, c'). split; [|done]. apply (client_step g m _ t ph c c'); try done.
    + simpl. by rewrite lookup_insert_ne by done.
    + intros _ _. unfold others. simpl. by rewrite delete_insert_ne by done.
Qed.

Lemma client_load n t ph c cell Q :
  (t < N)%nat -> cell <> self -> accessible t ph c cell (fun v => v) Q ->
  conforming n t (load cell) (ph, None, c) Q.
Proof using Hmax.
  intros Ht Hne Hacc. apply conforms_load. intros g m Hg HI.
  destruct (client_access g m t ph c cell _ _ HI Ht Hg Hne Hacc) as (v & Hv & HQ). exists v. split; [done|].
  rewrite insert_id in HQ by done. by destruct m.
Qed.

Lemma client_swap n t ph c cell v Q :
  (t < N)%nat -> cell <> self -> accessible t ph c cell (fun _ => v) Q ->
  conforming n t (swap cell v) (ph, None, c) Q.
Proof using Hmax.
  intros Ht Hne Hacc. apply conforms_swap. intros g m Hg HI.
  exact (client_access g m t ph c cell _ _ HI Ht Hg Hne Hacc).
Qed.

Lemma client_fetch_add n t ph c cell v Q :
  (t < N)%nat -> cell <> self -> accessible t ph c cell (fun w => usize_add w v) Q ->
  conforming n t (fetch_add cell v) (ph, None, c) Q.
Proof using Hmax.
  intros Ht Hne Hacc. apply conforms_fetch_add. intros g m Hg HI.
  exact (client_access g m t ph c cell _ _ HI Ht Hg Hne Hacc).
Qed.

(** Two threads use what they use at the same time. *)
Lemma occupancy_two cs t u c :
  (forall c, 0 <= occupied c) -> (t < N)%nat -> (u < N)%nat -> t <> u ->
  occupied c + occupied (cs u) <= occupancy (upd cs t c).
Proof using Type.
  intros Hpos Ht Hu Hne. rewrite <- (upd_eq cs t c) at 1. rewrite <- (upd_ne cs t u c) by done.
  apply total_two; [done|apply elem_of_seq; lia..|done].
Qed.

(** ** Nobody gets stuck *)

(** When everybody has finished or sleeps, nobody sleeps. *)
Lemma nobody_stuck g m t :
  allotment g m -> (forall u, (phase_of (g u) = Out /\ task_of (g u) = None) \/ sleeps u g m) -> ~ sleeps t g m.
Proof using Type.
  intros (w & Hs) Hall Hsl.
  assert (forall u, task_of (g u) = None) as Htask by (intros u; by destruct (Hall u) as [[_ ?]|(_ & ? & _)]).
  assert (forall u, teller w u = None) as Htell.
  { intros u. destruct (teller w u) as [p|] eqn:E; [|done].
    destruct (a_teller _ _ _ _ _ _ _ _ _ _ _ Hs u p E) as (j & Hj & _). by rewrite Htask in Hj. }
  assert (md w = Idle) as Hmd.
  { destruct (md w) as [|p ls d st] eqn:E; [done|]. exfalso.
    pose proof (pt_work _ _ _ _ (a_part _ _ _ _ _ _ _ _ _ _ _ Hs p)) as Hp. unfold at_work in Hp. rewrite E in Hp.
    destruct (Hall p) as [[Ep _]|((o & b & Ep) & _)]; rewrite Ep in Hp; by apply Hp. }
  assert (forall u, sleeps u g m -> u ∈ queue w) as Hq.
  { intros u ((o & b & Eph) & _ & Hni). pose proof (a_footing _ _ _ _ _ _ _ _ _ _ _ Hs u) as Hf. rewrite Eph in Hf.
    destruct Hf as [(de & Hde & _ & en & wk & _ & _ & Hal) _]. unfold reach in Hde. rewrite Htell in Hde.
    unfold pending in Hde. rewrite Hmd, app_nil_r in Hde. case_decide; [done|]. exfalso.
    destruct Hde as [->|[-> (p & j & Hj & _)]]; [|by rewrite Htask in Hj]. by destruct (Hal eq_refl). }
  pose proof (a_snapshot _ _ _ _ _ _ _ _ _ _ _ Hs) as Hsnap. unfold snapshot in Hsnap. rewrite Hmd in Hsnap.
  destruct (queue w) as [|v l _] eqn:El using rev_ind; [by apply Hq, not_elem_of_nil in Hsl|].
  specialize (Hsnap l v eq_refl). unfold Allotment.fits in Hsnap.
  destruct (holders w) as [|h hs] eqn:Eh; [done|].
  pose proof (pt_placed _ _ _ _ (a_part _ _ _ _ _ _ _ _ _ _ _ Hs h)) as Hp. unfold placed in Hp.
  destruct (Hall h) as [[Ep _]|Hsh].
  - rewrite Ep, Eh in Hp. destruct Hp as (_ & Hni & _). apply Hni. by left.
  - pose proof (a_nodup _ _ _ _ _ _ _ _ _ _ _ Hs) as (_ & Hdis & _)%list.NoDup_app.
    apply (Hdis h); [|rewrite Eh; by left]. apply pending_queue. rewrite El. by apply Hq.
Qed.

(** When everybody has finished, all units are back. *)
Lemma all_returned_word g m :
  allotment g m -> (forall u, phase_of (g u) = Out) -> words m !! self = Some 0.
Proof using Type.
  intros (w & Hs) Hall.
  assert (forall u, (u ∉ pending w) /\ (u ∉ holders w) /\ ~ processes (md w) u) as Hnone.
  { intros u. pose proof (pt_placed _ _ _ _ (a_part _ _ _ _ _ _ _ _ _ _ _ Hs u)) as Hp.
    pose proof (pt_work _ _ _ _ (a_part _ _ _ _ _ _ _ _ _ _ _ Hs u)) as Hw. rewrite Hall in Hp, Hw.
    by destruct Hp as (?&?&?). }
  rewrite (a_word _ _ _ _ _ _ _ _ _ _ _ Hs). destruct (md w) as [|p ls d st] eqn:Em.
  2:{ by destruct (Hnone p) as (_ & _ & []). }
  destruct (queue w) as [|u l] eqn:Eq.
  2:{ destruct (Hnone u) as (Hni & _). exfalso. apply Hni, pending_queue. rewrite Eq. by left. }
  destruct (holders w) as [|u l]; [done|]. destruct (Hnone u) as (_ & Hni & _). exfalso. apply Hni. by left.
Qed.

Lemma allotment_start (cs : tid -> C) m :
  words m !! self = Some 0 -> P (delete self (words m)) cs -> (forall u, inside (cs u) = None) ->
  allotment (fun u => (Out, None, cs u)) m.
Proof using Hmax.
  intros Hw HP Hin. exists (World [] Idle [] (fun _ => None)). split; try done.
  - left. cbn. lia.
  - by apply NoDup_nil_2.
  - by intros [].
  - intros u. split; try done.
    + split; [apply not_elem_of_nil|]. split; [apply not_elem_of_nil|done].
    + by intros [].
    + simpl. intros o Ho. by rewrite Hin in Ho.
  - by intros [].
Qed.

(** A pool of threads that conform, and hold nothing when they return. *)
Lemma pool_never_stuck {V} (ps : tid -> program V) m (cs : tid -> C) (good : tid -> V -> C -> Prop) p :
  (forall t n, conforming n t (ps t) (Out, None, cs t) (fun b x => exists c, x = (Out, None, c) /\ good t b c)) ->
  words m !! self = Some 0 -> P (delete self (words m)) cs -> (forall u, inside (cs u) = None) ->
  rtc pool_step (ps, m) p ->
  (forall t, ~ faulty p t) /\ (forall t v, finished p t v -> exists c, good t v c) /\
  ((forall p', ~ pool_step p p') ->
   words p.2 !! self = Some 0 /\
   exists cs', P (delete self (words p.2)) cs' /\ forall t, exists b, finished p t b /\ good t b (cs' t)).
Proof using Hmax.
  intros Hps Hw HP Hin Hreach.
  destruct (pool_sound allotment unsure sleeps ps m (fun u => (Out, None, cs u))
    (fun t b x => exists c, x = (Out, None, c) /\ good t b c) p) as (g & HI & HQ & Hsafe & Hwaits & _);
    [done|by apply allotment_start|done|].
  split; [done|]. split; [intros t b Hf; destruct (HQ t b Hf) as (c & _ & Hc); by exists c|]. intros Hstop.
  pose proof (pool_stopped p Hstop Hsafe) as Hall.
  assert (forall t, exists b, finished p t b) as Hdone.
  { intros t. destruct (Hall t) as [?|Hb]; [done|]. exfalso.
    apply (nobody_stuck g p.2 t HI); [|by apply Hwaits]. intros u.
    destruct (Hall u) as [[b Hf]|Hb']; [|right; by apply Hwaits].
    left. by destruct (HQ u b Hf) as (c & -> & _). }
  split.
  - apply (all_returned_word g); [done|]. intros u. destruct (Hdone u) as [b Hf].
    by destruct (HQ u b Hf) as (c & -> & _).
  - destruct HI as (w & Hs). exists (clients g). split; [apply Hs|]. intros t. destruct (Hdone t) as [b Hf].
    exists b. split; [done|]. unfold clients. by destruct (HQ t b Hf) as (c & -> & Hc).
Qed.

End obtaining.
