(* ===== verification/Process.v ===== *)
(** * Processing the queue, step by step

    What a thread that processes the queue of a primitive does to it, shown to
    keep the invariant of [Allotment.v]: it sets the back pointers of its
    snapshot of the queue, finds the requests of the oldest entries that fit,
    cuts their entries off or, when all fit, takes the whole queue, updates
    the state word, which hands the units over, and, when the state word has
    changed meanwhile, takes a new snapshot.  [Releasing.v] puts the steps
    together. *)

From S2P Require Import Prelude Prog Word Opcode Memory WaitQueue Geometry Results.
From S2P Require Import Queue Grant Interleaving Concurrent Delivery Areas Private Telling SyncPrimitive Enqueue Release Crate Allotment Obtaining.

Section process.
  Context {C : Type} (self : Z) (prim : Primitive) `{SyncPrimitive prim}.
  Context (N : nat) (A : tid -> Z) (kind : waiting_mode).
  Context (P : gmap Z Z -> (tid -> C) -> Prop) (inside : C -> option Opcode).
  Context (Hkind : wakers_differ N kind).
  Context (HA : forall t, (t < N)%nat -> wq_ok (A t)).
  Context (Hapart : forall t u, (t < N)%nat -> (u < N)%nat -> t <> u ->
    A t + 128 <= A u \/ A u + 128 <= A t).

Abbreviation max := (max_shared_owners prim).

  Context (Hmax : 0 <= max <= DATA_MASK).

Abbreviation state := (state self prim max N A kind P inside).
Abbreviation allotment := (allotment self prim max N A kind P inside).
Abbreviation sleeps := (sleeps kind).
Abbreviation conforming := (conforms allotment unsure sleeps).
Abbreviation ghost := (ghost_of phase C).
Abbreviation fits := (fits max).
Abbreviation newer := (newer A).
Abbreviation queued := (queued A).
Abbreviation staged := (staged max A).
Abbreviation marks := (marks A).
Abbreviation marked := (marked A).

Section thread.
  Context (t : tid) (Ht : (t < N)%nat).

(** Where the thread was before, and will be again. *)
  Context (from : phase) (Hfrom : home from = from).

(** ** Changing the links of the queue *)

(** What the thread that processes the queue knows. *)
Lemma processing g m ls d st tk c :
  allotment g m -> g t = (Proc from ls d st, tk, c) ->
  exists w new, state g m w /\ md w = Busy t ls d st /\ queue w = new ++ ls /\
    (Forall (fun u => entry_is m unmarked (A u)) new /\ t ∉ new) /\ ls <> [] /\
    weight g (holders w) <= d /\ staged g m ls d st.
Proof using Type.
  intros (w & Hs) Hg. pose proof (pt_work _ _ _ _ (a_part _ _ _ _ _ _ _ _ _ _ _ Hs t)) as Hmd. rewrite Hg in Hmd.
  simpl in Hmd. pose proof (a_snapshot _ _ _ _ _ _ _ _ _ _ _ Hs) as Hsnap. unfold snapshot in Hsnap.
  rewrite Hmd in Hsnap. destruct Hsnap as ((new & Eq & Hnew & Hnt) & Hne & Hd & Hst). by exists w, new.
Qed.

(** An occurrence in a list without duplicates is where it is. *)
Lemma nodup_split {X} (l1 l2 k1 k2 : list X) v :
  NoDup (l1 ++ v :: l2) -> l1 ++ v :: l2 = k1 ++ v :: k2 -> l1 = k1 /\ l2 = k2.
Proof using Type.
  revert k1. induction l1 as [|u l1 IH]; intros [|u' k1]; simpl; intros [Hni Hnd]%list.NoDup_cons E.
  - by injection E as ->.
  - injection E as -> ->. exfalso. apply Hni, elem_of_app. right. by left.
  - injection E as -> <-. exfalso. apply Hni, elem_of_app. right. by left.
  - injection E as -> E. destruct (IH k1 Hnd E) as [-> ->]. done.
Qed.

(** The entry of a thread that has not been told anything, relinked. *)
Lemma shape_relink m u en en' ow :
  node m (A u) en -> core en' = core en -> shape (A u) (monitor_of kind u) 0 ow Start m ->
  shape (A u) (monitor_of kind u) 0 ow Start (set_entries (<[wq_entry (A u) := en']> (entries m)) m).
Proof using Type.
  intros Hn Hc Hs. destruct (shape_live _ _ _ _ _ _ Hs eq_refl) as (Hp & en0 & w & Hn0 & Hok & Hal).
  assert (en0 = en) as -> by (by eapply node_fun). apply live_shape. split; [done|].
  exists en', w. destruct en, en'. injection Hc as [=]. subst. split; [by eapply node_insert|].
  split; [exact Hok|exact Hal].
Qed.

Lemma tended_relink m u en en' o b ow :
  node m (A u) en -> core en' = core en -> tended self prim A m u o b ow ->
  tended self prim A (set_entries (<[wq_entry (A u) := en']> (entries m)) m) u o b ow.
Proof using Type.
  intros Hn Hc Ht' Hp. destruct (Ht' Hp) as [(en0 & Hn0 & Htag) Hpo].
  assert (en0 = en) as -> by (by eapply node_fun).
  split; [|intros Hb; destruct (Hpo Hb) as (en1 & He1 & Hp1)].
  - exists en'. split; [eapply node_insert; [done|]|]; destruct en, en'; injection Hc as [=]; by subst.
  - exists en'. split; [apply lookup_insert_eq|]. destruct Hn as (_ & _ & He & _).
    assert (en1 = en) as -> by congruence. destruct en, en'; injection Hc as [=]. by subst.
Qed.

(** A step of the thread that processes the queue: it changes the links of one
    entry. *)
Lemma state_relink g m v en en' w ls d st l' ls' st' tk c :
  let m' := set_entries (<[wq_entry (A v) := en']> (entries m)) m in
  let w' := World l' (Busy t ls' d st') (holders w) (teller w) in
  state g m w -> g t = (Proc from ls d st, tk, c) -> md w = Busy t ls d st ->
  v ∈ pending w -> node m (A v) en -> core en' = core en ->
  first_anchor (A <$> l') = first_anchor (A <$> queue w) -> pending w ≡ₚ pending w' ->
  (forall l1 u l2, l' = l1 ++ u :: l2 -> entry_is m' (queued (op g u) l1 l2) (A u)) ->
  (exists new, l' = new ++ ls' /\ Forall (fun u => entry_is m' unmarked (A u)) new /\ t ∉ new) ->
  ls' <> [] -> weight g (holders w) <= d -> staged g m' ls' d st' ->
  state (upd g t (Proc from ls' d st', tk, c)) m' w'.
Proof using HA Hapart Ht.
  intros m' w' Hs Hg Hmd Hin Hn Hcore Hfirst Hpe Hq Hnew Hne Hd Hst.
  assert (forall u, u ∈ pending w' <-> u ∈ pending w) as Hpend by (intros u; by rewrite Hpe).
  assert (v < N)%nat as Hv by (eapply structural_lt; [done|by left]).
  destruct (pending_waits _ _ _ _ _ _ _ _ _ _ _ _ Hs Hin) as (o & b & ow & Ev & Hvt).
  set (x := (Proc from ls' d st', tk, c)).
  assert (forall u, op (upd g t x) u = op g u) as Hop by (intros u; apply op_upd; intros ->; unfold op; by rewrite Hg).
  assert (forall l, weight (upd g t x) l = weight g l) as Hwt by (intros l; apply weight_upd; by unfold op; rewrite Hg).
  assert (forall u, (u < N)%nat -> u <> v -> untouched A kind m m' u) as Hun.
  { intros u Hu Huv. split; [done|]. split; [|done]. simpl. rewrite lookup_insert_ne; [done|].
    intros E. destruct (apart N A HA Hapart u v) as [_ Hne']; congruence. }
  destruct (a_part _ _ _ _ _ _ _ _ _ _ _ Hs t) as [Hp1 Hp2 Hp3]. rewrite Hg in Hp1, Hp2, Hp3.
  assert (forall u ph, placed w u ph -> placed w' u ph) as Hplaced.
  { intros u ph. unfold placed. simpl holders. simpl teller. destruct (home ph) as [? []| |]; by rewrite ?Hpend. }
  assert (forall u, (u < N)%nat -> footing self prim A kind (upd g t x) m' w' u (phase_of (g u))) as Hfoot.
  { intros u Hu. assert (forall de, reach g w u de -> reach (upd g t x) w' u de) as Hr.
    { intros de Hde. apply (reach_world _ w); [by rewrite Hpend|done|]. apply reach_upd; [by rewrite Hg|done]. }
    pose proof (a_footing _ _ _ _ _ _ _ _ _ _ _ Hs u) as Hf. destruct (decide (u = v)) as [->|Huv].
    + unfold footing in Hf |- *. rewrite Ev in Hf |- *. destruct Hf as [(de & Hde & Hshape) Htend].
      split; [|by eapply tended_relink]. exists Start.
      assert (de = Start) as -> by (unfold reach in Hde; by rewrite Hvt, decide_True in Hde).
      split; [auto|]. by eapply shape_relink.
    + eapply footing_other; [by apply Hun|exact Hr|done]. }
  apply (state_change self prim max N A kind P inside t x g m m' w w'); try done.
  - simpl. rewrite Hfirst, Hwt. pose proof (a_word _ _ _ _ _ _ _ _ _ _ _ Hs) as Hw. by rewrite Hmd in Hw.
  - simpl. rewrite Hwt. apply Hs.
  - simpl. change (NoDup (pending w' ++ holders w)). rewrite <- Hpe. apply Hs.
  - intros l1 u l2 E. rewrite Hop. by apply Hq.
  - split; [by apply Hplaced|done|]. intros o' Ho'. by specialize (Hp3 o' Ho').
  - specialize (Hfoot t Ht). by rewrite Hg in Hfoot.
  - simpl. split; [done|]. split; [done|]. rewrite Hwt. split; [done|].
    apply staged_upd; [|done]. by unfold op; rewrite Hg.
  - intros p j Hj. rewrite task_upd in Hj by (by rewrite Hg).
    destruct (job_preserved A m m' w p j) as (?&?&?&?); [|by apply Hs|done].
    intros u Hu. apply (untouched_preserved A kind), Hun; [eapply structural_lt; [done|auto]|congruence].
  - intros u p Hu. rewrite task_upd by (by rewrite Hg). by apply Hs.
  - intros u _. apply Hplaced.
  - intros u Hut Hwk. unfold at_work in *. rewrite Hmd in Hwk. destruct (phase_of (g u)); try exact Hwk. congruence.
  - intros u Hu _. by apply Hfoot.
  - rewrite clients_same by (by rewrite Hg). apply Hs.
Qed.

(** A step that changes only what the thread knows. *)
Lemma state_stage g m ls d st st' tk c :
  allotment g m -> g t = (Proc from ls d st, tk, c) -> limbo (Busy t ls d st) = [] -> limbo (Busy t ls d st') = [] ->
  (staged g m ls d st -> staged g m ls d st') ->
  allotment (upd g t (Proc from ls d st', tk, c)) m.
Proof using HA Hapart Ht.
  intros HI Hg Hl Hl' Hst. destruct (processing _ _ _ _ _ _ _ HI Hg) as (w & new & Hs & Hmd & Eq & Hnew & Hne & Hd & Hst0).
  assert (exists v, v ∈ queue w) as [v Hv].
  { destruct ls as [|v ls']; [done|]. exists v. rewrite Eq. apply elem_of_app. right. by left. }
  apply list_elem_of_split in Hv as Hsplit. destruct Hsplit as (l1 & l2 & Esplit).
  destruct (a_queue _ _ _ _ _ _ _ _ _ _ _ Hs l1 v l2 Esplit) as (en & Hn & _).
  assert (set_entries (<[wq_entry (A v) := en]> (entries m)) m = m) as Em.
  { rewrite insert_id by apply Hn. by destruct m. }
  exists (World (queue w) (Busy t ls d st') (holders w) (teller w)). rewrite <- Em.
  eapply (state_relink g m v en en w ls d st); rewrite ?Em; try done.
  - by apply pending_queue.
  - unfold pending. rewrite Hmd, Hl. change (md (World _ _ _ _)) with (Busy t ls d st'). by rewrite Hl'.
  - apply Hs.
  - by exists new.
  - auto.
Qed.

(** What the thread finds in an entry of its snapshot. *)
Lemma snapshot_entry g m ls d st tk c l1 u l2 :
  allotment g m -> g t = (Proc from ls d st, tk, c) -> ls = l1 ++ u :: l2 ->
  exists en, node m (A u) en /\ e_opcode en = op g u /\ plain (op g u) = true /\
    e_next_entry_anchor_ptr en = first_anchor (A <$> l2).
Proof using Type.
  intros HI Hg ->. destruct (processing _ _ _ _ _ _ _ HI Hg) as (w & new & Hs & Hmd & Eq & Hnew & Hne & Hd & Hst).
  destruct (a_queue _ _ _ _ _ _ _ _ _ _ _ Hs (new ++ l1) u l2) as (en & Hn & Ho & Hx & _).
  { by rewrite Eq, <- app_assoc. }
  exists en. split; [done|]. split; [done|]. split; [|done].
  eapply placed_ops; [|apply (pt_placed _ _ _ _ (a_part _ _ _ _ _ _ _ _ _ _ _ Hs u))].
  left. apply pending_queue. rewrite Eq. apply elem_of_app. right. by eapply in_middle.
Qed.

(** ** Setting the back pointers *)

Abbreviation proc ls d st c := (Proc from ls d st, None, c).

Definition limbo_free (st : stage) : Prop :=
  match st with Cutoff _ _ _ => False | _ => True end.

Lemma limbo_free_nil ls d st : limbo_free st -> limbo (Busy t ls d st) = [].
Proof using Type. by destruct st. Qed.

(** Reading a link, and learning something from that. *)
Lemma conforms_next n ls d st st' c l1 u l2 :
  (forall u, u ∈ ls -> (u < N)%nat) -> ls = l1 ++ u :: l2 -> limbo_free st -> limbo_free st' ->
  (forall (g : tid -> ghost) m, staged g m ls d st -> staged g m ls d st') ->
  conforming n t (next_entry_ptr (wq_entry (A u))) (proc ls d st c)
    (fun e x => e = first_entry (A <$> l2) /\ x = proc ls d st' c).
Proof using HA Hapart Ht.
  intros Hls E Hl Hl' Hst.
  conforms_by (fun a x => a = first_anchor (A <$> l2) /\ x = proc ls d st' c).
  { apply conforms_read_field. intros g m Hg HI.
    destruct (snapshot_entry g m ls d st None c l1 u l2 HI Hg E) as (en & Hn & _ & _ & Hx).
    exists en. split; [apply Hn|]. exists (proc ls d st' c). split; [|done].
    eapply state_stage; eauto using limbo_free_nil. }
  intros n1 a x _ [-> ->]. destruct l2 as [|v l2]; [by apply conforms_ret|]. cbn [fmap list_fmap first_anchor].
  assert (wq_ok (A v)) as Hok.
  { apply HA, Hls. rewrite E. apply elem_of_app. right. right. by left. }
  rewrite anchor_addr_eqb_0 by done.
  apply conforms_to_entry_ptr; [apply _|done| |done]. intros g m Hg HI.
  assert (ls = (l1 ++ [u]) ++ v :: l2) as E' by (by rewrite <- app_assoc).
  destruct (snapshot_entry g m _ _ _ _ _ _ _ _ HI Hg E') as (en & Hn & _). apply Hn.
Qed.

Lemma newer_last l1 u : newer (l1 ++ [u]) = wq_entry (A u).
Proof using Type. unfold Allotment.newer. by rewrite reverse_app. Qed.

(** The entries other than the one that changes. *)
Lemma entry_is_ne m P' w v en en' :
  (w < N)%nat -> (v < N)%nat -> w <> v -> node m (A v) en -> entry_is m P' (A w) ->
  entry_is (set_entries (<[wq_entry (A v) := en']> (entries m)) m) P' (A w).
Proof using Hapart Ht.
  intros Hw Hv Hne Hn (en0 & Hn0 & HP). exists en0. split; [|done].
  eapply node_insert_ne; [done..|]. destruct (Hapart w v Hw Hv Hne); lia.
Qed.

Lemma marked_all m ls j : marks m ls None j -> (length ls <= S j)%nat -> marked m ls.
Proof using Ht.
  intros Hm Hj l1 u l2 E. destruct (Hm l1 u l2 E) as (en & Hn & Hp). exists en. split; [done|].
  apply Hp. rewrite E, length_app in Hj. simpl in Hj. lia.
Qed.

Lemma marked_up_to m ls b j : marks m ls (Some b) j -> (b <= S j)%nat -> marked m ls.
Proof using Ht.
  intros Hm Hj l1 u l2 E. destruct (Hm l1 u l2 E) as (en & Hn & Hp). exists en. split; [done|].
  rewrite decide_True in Hp; [done|]. lia.
Qed.

Lemma marked_granted (g : tid -> ghost) m ls d : marked m ls -> staged g m ls d (Granted [] [] false).
Proof using Type.
  intros Hm. split; [done|]. exists ls. split; [by rewrite app_nil_r|]. split; [|done].
  split; [done|by left].
Qed.

Lemma marks_next m ls b j l1 u v l2 en :
  ls = l1 ++ u :: v :: l2 -> length l1 = j -> NoDup ls -> (forall u, u ∈ ls -> (u < N)%nat) ->
  node m (A v) en -> marks m ls b j ->
  marks (set_entries (<[wq_entry (A v) := set_prev (wq_entry (A u)) en]> (entries m)) m) ls b (S j).
Proof using Hapart Ht.
  intros E Hj Hnd Hls Hn Hm k1 w k2 Ek.
  assert (ls = (l1 ++ [u]) ++ v :: l2) as E' by (by rewrite <- app_assoc).
  assert (w <> v -> length k1 <> S j) as Hlen.
  { intros Hne Hl. rewrite E' in Ek. apply app_inj_1 in Ek as [_ [= ? _]]; [done|].
    rewrite length_app. simpl. lia. }
  destruct (decide (w = v)) as [->|Hne].
  - rewrite E' in Ek, Hnd. apply nodup_split in Ek as [<- <-]; [|done].
    eexists. split; [by eapply node_insert|]. rewrite newer_last, length_app, Hj. simpl.
    destruct b as [b|]; [|done]. rewrite decide_True; [done|]. lia.
  - specialize (Hlen Hne).
    apply (entry_is_ne _ _ _ _ en); [apply Hls; by eapply in_middle|apply Hls; by eapply in_middle|done..|].
    destruct (Hm k1 w k2 Ek) as (en0 & Hn0 & Hp). exists en0. split; [done|]. destruct b as [b|].
    + case_decide; case_decide; (done || lia).
    + intros Hle. apply Hp. lia.
Qed.

Lemma state_mark g m ls d b j c l1 u v l2 en :
  allotment g m -> g t = proc ls d (Marking b j) c ->
  ls = l1 ++ u :: v :: l2 -> length l1 = j -> node m (A v) en ->
  allotment (upd g t (proc ls d (Marking b (S j)) c))
    (set_entries (<[wq_entry (A v) := set_prev (wq_entry (A u)) en]> (entries m)) m).
Proof using HA Hapart Ht.
  intros HI Hg E Hj Hn.
  destruct (processing g m ls d _ None c HI Hg) as (w & new & Hs & Hmd & Eq & Hnew & Hne & Hd & Hm).
  exists (World (queue w) (Busy t ls d (Marking b (S j))) (holders w) (teller w)).
  pose proof (a_nodup _ _ _ _ _ _ _ _ _ _ _ Hs) as (Hnd & _ & _)%list.NoDup_app.
  unfold pending in Hnd. rewrite Hmd, app_nil_r in Hnd.
  assert (forall u, u ∈ queue w -> (u < N)%nat) as Hlt.
  { intros x Hx. eapply structural_lt; [done|left; by apply pending_queue]. }
  assert (v ∈ ls) as Hv by (rewrite E; apply elem_of_app; right; right; by left).
  assert (v ∈ queue w) as Hin by (rewrite Eq; apply elem_of_app; by right).
  eapply (state_relink g m v en); try done.
  - by apply pending_queue.
  - unfold pending. by rewrite Hmd.
  - intros k1 x k2 Ek. destruct (a_queue _ _ _ _ _ _ _ _ _ _ _ Hs k1 x k2 Ek) as (en0 & Hn0 & Hq).
    destruct (decide (x = v)) as [->|Hxv].
    + assert (queue w = (new ++ l1 ++ [u]) ++ v :: l2) as E' by (by rewrite Eq, E, <- !app_assoc).
      rewrite E' in Ek, Hnd. apply nodup_split in Ek as [<- <-]; [|done].
      assert (en0 = en) as -> by (by eapply node_fun). eexists. split; [by eapply node_insert|].
      destruct Hq as (Ho & Hx & _). split; [done|]. split; [done|]. by destruct new, l1.
    + apply (entry_is_ne _ _ _ _ en); [apply Hlt; by eapply in_middle|auto..|]. by exists en0.
  - destruct Hnew as [Hnew Hnt]. exists new. split; [done|]. split; [|done]. rewrite Forall_forall in Hnew |- *. intros x Hx.
    apply list_elem_of_In in Hx as Hx'.
    apply (entry_is_ne _ _ _ _ en); [apply Hlt; rewrite Eq; apply elem_of_app; by left|auto|..|done|by apply Hnew].
    rewrite Eq in Hnd. intros ->. apply list.NoDup_app in Hnd as (_ & Hdis & _). by destruct (Hdis v).
  - simpl. eapply marks_next; try done.
    + rewrite Eq in Hnd. by apply list.NoDup_app in Hnd as (_ & _ & ?).
    + intros x Hx. apply Hlt. rewrite Eq. apply elem_of_app. by right.
Qed.

Lemma conforms_mark n ls d b j c l1 u v l2 :
  ls = l1 ++ u :: v :: l2 -> length l1 = j ->
  conforming n t (update_prev_entry_ptr (wq_entry (A v)) (wq_entry (A u)))
    (proc ls d (Marking b j) c) (fun _ x => x = proc ls d (Marking b (S j)) c).
Proof using HA Hapart Ht.
  intros E Hj. apply conforms_update_field. intros g m Hg HI.
  assert (ls = (l1 ++ [u]) ++ v :: l2) as E' by (by rewrite <- app_assoc).
  destruct (snapshot_entry g m _ _ _ _ _ _ _ _ HI Hg E') as (en & Hn & _).
  exists en. split; [apply Hn|]. eexists. split; [by eapply state_mark|done].
Qed.

Lemma entry_nonnull (ls : list tid) :
  (forall u, u ∈ ls -> (u < N)%nat) -> forall u, u ∈ ls -> (wq_entry (A u) =? 0) = false.
Proof using HA. intros Hls u Hu. by apply wq_entry_eqb_0, HA, Hls. Qed.

(** The first round sets all back pointers, and finds the oldest entry. *)
Lemma conforms_mark_all n d c l1 h :
  let ls := l1 ++ [h] in
  (forall u, u ∈ ls -> (u < N)%nat) ->
  conforming n t
    (iter_forward (first_entry (A <$> ls)) true
       (fun entry next_entry (_ : Z) => Ret (entry, next_entry =? 0)) 0)
    (proc ls d (Marking None 0) c)
    (fun e x => e = wq_entry (A h) /\ x = proc ls d (Granted [] [] false) c).
Proof using HA Hapart Ht.
  intros ls Hls. pose proof (entry_nonnull ls Hls) as Hnz.
  conforms_iter (fun s x => exists k1 k2, ls = k1 ++ k2 /\ k2 <> [] /\
    s.1 = first_entry (A <$> k2) /\ x = proc ls d (Marking None (length k1)) c);
    [|by intros ???????[]|by exists [], ls; repeat split; subst ls; destruct l1].
  intros n1 [e e'] x _ (k1 & k2 & E & Hne & He & ->). simpl in He. subst e.
  destruct k2 as [|u k2]; [done|]. cbn [fmap list_fmap first_entry].
  rewrite Hnz by (by eapply in_middle). destruct k2 as [|v k2].
  - conforms_seq.
    { apply (conforms_next _ _ _ _ (Granted [] [] false) _ k1 u []); try done. intros g m Hm.
      eapply marked_granted, (marked_all _ _ _ Hm). rewrite E, length_app. simpl. lia. }
    intros n2 e x _ [-> ->]. apply app_inj_tail in E as [<- <-].
    conforms_by (fun _ x => x = proc ls d (Granted [] [] false) c); [by apply conforms_ret|].
    intros n3 [] x _ ->. eapply conforms_then; [apply _|by apply conforms_ret|].
    intros n4 _. by apply conforms_ret.
  - conforms_seq; [by apply (conforms_next _ _ _ _ (Marking None (length k1)) _ k1 u (v :: k2))|].
    intros n2 e x _ [-> ->].
    assert (v ∈ ls) as Hv by (rewrite E; apply elem_of_app; right; right; by left).
    cbn [fmap list_fmap first_entry]. rewrite Hnz by done.
    conforms_seq; [by apply (conforms_mark _ _ _ _ _ _ k1 u v k2)|]. intros n3 [] x _ ->.
    eapply conforms_then; [apply _|by apply conforms_ret|].
    intros n4 _. apply conforms_ret. exists (k1 ++ [u]), (v :: k2). split; [by rewrite E, <- app_assoc|].
    split; [done|]. split; [done|]. by rewrite length_app, Nat.add_1_r.
Qed.

(** The later rounds set the back pointers of the new entries. *)
Lemma conforms_mark_new n d c b l1 h :
  let ls := l1 ++ [h] in
  (forall u, u ∈ ls -> (u < N)%nat) ->
  conforming n t (set_prev_ptr (first_entry (A <$> ls))) (proc ls d (Marking (Some b) 0) c)
    (fun _ x => x = proc ls d (Granted [] [] false) c).
Proof using HA Hapart Ht.
  intros ls Hls. pose proof (entry_nonnull ls Hls) as Hnz. set (x0 := proc ls d (Granted [] [] false) c).
  conforms_iter (fun e x =>
      (exists k1 k2, ls = k1 ++ k2 /\ k2 <> [] /\ e = first_entry (A <$> k2) /\
         x = proc ls d (Marking (Some b) (length k1)) c) \/ (e = 0 /\ x = x0));
    [|by intros ???????[]|left; by exists [], ls; repeat split; subst ls; destruct l1].
  intros n1 e x _ [(k1 & k2 & E & Hne & -> & ->)|[-> ->]]; [|by apply conforms_ret].
  destruct k2 as [|u k2]; [done|]. cbn [fmap list_fmap first_entry].
  rewrite Hnz by (by eapply in_middle). destruct k2 as [|v k2].
  - conforms_seq.
    { apply (conforms_next _ _ _ _ (Granted [] [] false) _ k1 u []); try done. intros g m Hm.
      apply marked_granted. intros i1 w i2 Ei. destruct (Hm i1 w i2 Ei) as (en & Hn & Hp). exists en.
      split; [done|]. rewrite decide_True in Hp; [done|]. left.
      assert (length ls = S (length k1)) as El by (rewrite E, length_app; simpl; lia).
      rewrite Ei, length_app in El. simpl in El. lia. }
    intros n2 e x _ [-> ->]. apply conforms_ret. by right.
  - conforms_seq; [by apply (conforms_next _ _ _ _ (Marking (Some b) (length k1)) _ k1 u (v :: k2))|].
    intros n2 e x _ [-> ->].
    assert (v ∈ ls) as Hv by (rewrite E; apply elem_of_app; right; right; by left).
    assert (ls = (k1 ++ [u]) ++ v :: k2) as E' by (by rewrite <- app_assoc).
    cbn [fmap list_fmap first_entry]. rewrite Hnz by done.
    conforms_by (fun p x => (p = wq_entry (A u) /\ x = x0) \/
      (p = 0 /\ x = proc ls d (Marking (Some b) (length k1)) c)).
    { apply conforms_read_field. intros g m Hg HI.
      destruct (processing g m _ _ _ _ _ HI Hg) as (w & new & _ & _ & _ & _ & _ & _ & Hm).
      destruct (Hm (k1 ++ [u]) v k2 E') as (en & Hn & Hp). exists en. split; [apply Hn|].
      rewrite length_app, newer_last in Hp. simpl in Hp.
      destruct (decide (b <= S (length k1))%nat) as [Hb|Hb].
      - rewrite decide_True in Hp by lia. exists x0. split; [|by left].
        eapply state_stage; [done|done|done|done|]. intros Hst. apply marked_granted.
        by eapply (marked_up_to _ _ b).
      - rewrite decide_False in Hp by lia. apply kept_same; [done|]. rewrite Hg. by right. }
    intros n3 p x _ [[-> ->]|[-> ->]].
    + rewrite Hnz by by eapply in_middle.
      eapply conforms_then; [apply _|apply conforms_debug_assert; [apply Z.eqb_refl|done]|].
      intros n4 _. by apply conforms_ret.
    + simpl. conforms_seq; [by apply (conforms_mark _ _ _ _ _ _ k1 u v k2)|]. intros n4 [] x _ ->.
      apply conforms_ret. left. exists (k1 ++ [u]), (v :: k2). split; [by rewrite E, <- app_assoc|].
      split; [done|]. split; [done|]. by rewrite length_app, Nat.add_1_r.
Qed.

(** ** Granting *)

(** What has been granted does not overflow the data. *)
Definition sound (d : Z) (os : list Opcode) : Prop :=
  is_data d /\ Forall (fun o => plain o = true) os /\ is_data (d + acquired_total os).

Lemma plain_total os : Forall (fun o => plain o = true) os -> Z.of_nat (length os) <= acquired_total os.
Proof using Type.
  clear - os. induction 1 as [|o os Ho Hos IH]; [done|]. apply plain_units in Ho as (_ & _ & Ho).
  unfold acquired_total in *. simpl. lia.
Qed.

Lemma sound_cons d o os :
  sound d os -> plain o = true -> fits (d + acquired_total os) o = true -> sound d (o :: os).
Proof using Hmax.
  clear - Hmax. intros (Hd & Hos & Ht') Ho Hfit. split; [done|]. split; [by constructor|].
  apply plain_total in Hos. apply plain_units in Ho as (_ & _ & Ho).
  unfold is_data, acquired_total in *. simpl. fold (acquired_total os) in *.
  unfold Allotment.fits in Hfit. apply orb_prop in Hfit as [?%Z.eqb_eq|?%Z.leb_le]; lia.
Qed.

(** What becomes of what the thread knows when it reads what the oldest entry
    that is left asks for. *)
Definition judged (v : tid) (o : Opcode) (d : Z) (gs : list tid) (os : list Opcode) : stage :=
  if fits (d + acquired_total os) o then Granted (v :: gs) (o :: os) false else Granted gs os true.

Lemma staged_judged (g : tid -> ghost) m ls d gs os r v :
  ls = r ++ v :: gs -> sound d os ->
  staged g m ls d (Granted gs os false) -> staged g m ls d (judged v (op g v) d gs os).
Proof using Hmax Ht.
  intros E (Hd & Hos & _) (Hm & rest & E' & [Eos Hb] & _). unfold judged.
  assert (rest = r ++ [v]) as ->.
  { rewrite E in E'. rewrite (app_assoc r [v] gs : r ++ v :: gs = _) in E'. by apply app_inv_tail in E'. }
  destruct (fits (d + acquired_total os) (op g v)) eqn:Hfit.
  - split; [done|]. exists r. split; [done|]. split; [|done]. split; [by rewrite Eos|]. right.
    unfold Allotment.fits in Hfit. apply orb_prop in Hfit as [H0%Z.eqb_eq|H1%Z.leb_le].
    + right. pose proof (plain_total os Hos). unfold is_data in Hd. split; [lia|].
      assert (length os = 0)%nat as Hl by lia. rewrite Eos, length_fmap in Hl. simpl. lia.
    + left. unfold acquired_total in *. simpl. lia.
  - split; [done|]. exists (r ++ [v]). split; [done|]. split; [done|]. intros _.
    split; [by destruct r|]. intros l1 u Eu. by apply app_inj_tail in Eu as [_ <-].
Qed.

Lemma conforms_opcode n ls d gs os c r v :
  ls = r ++ v :: gs -> sound d os ->
  conforming n t (read_field (wq_entry (A v)) e_opcode) (proc ls d (Granted gs os false) c)
    (fun o x => plain o = true /\ x = proc ls d (judged v o d gs os) c).
Proof using HA Hapart Ht Hmax.
  intros E Hok. apply conforms_read_field. intros g m Hg HI.
  destruct (snapshot_entry g m _ _ _ _ _ _ _ _ HI Hg E) as (en & Hn & Ho & Hpl & _).
  exists en. split; [apply Hn|]. rewrite Ho. eexists. split; [|done].
  eapply state_stage; [done|done|done|unfold judged; by case_match|]. by eapply staged_judged.
Qed.

Lemma conforms_prev n ls d gs os stuck c l1 u l2 :
  ls = l1 ++ u :: l2 ->
  conforming n t (prev_entry_ptr (wq_entry (A u))) (proc ls d (Granted gs os stuck) c)
    (fun e x => e = newer l1 /\ x = proc ls d (Granted gs os stuck) c).
Proof using Type.
  intros E. apply conforms_read_field. intros g m Hg HI.
  destruct (processing g m _ _ _ _ _ HI Hg) as (w & new & _ & _ & _ & _ & _ & _ & Hm & _).
  destruct (Hm l1 u l2 E) as (en & Hn & Hp). exists en. split; [apply Hn|].
  apply kept_same; [done|]. by rewrite Hp, Hg.
Qed.

(** ** Cutting the granted entries off *)

Lemma linked_suffix m f l l1 l2 :
  (forall k1 u k2, l = k1 ++ u :: k2 -> entry_is m (queued (f u) k1 k2) (A u)) -> l = l1 ++ l2 ->
  linked m (A <$> l2).
Proof using Type.
  revert l1. induction l2 as [|u l2 IH]; intros l1 Hq E; [done|]. split.
  - destruct (Hq l1 u l2 E) as (en & Hn & _ & Hx & _). by exists en.
  - apply (IH (l1 ++ [u])); [done|]. by rewrite <- app_assoc.
Qed.

Lemma linked_ne m l v en en' :
  (forall u, u ∈ l -> (u < N)%nat) -> (v < N)%nat -> v ∉ l -> node m (A v) en -> linked m (A <$> l) ->
  linked (set_entries (<[wq_entry (A v) := en']> (entries m)) m) (A <$> l).
Proof using Hapart Ht.
  intros Hlt Hv Hni Hn. induction l as [|u l IH]; [done|]. intros [Hu Hl].
  apply not_elem_of_cons in Hni as [Hne Hni]. split.
  - by apply (entry_is_ne _ _ _ _ en); [apply Hlt; left|..].
  - apply IH; [|done|done]. intros x Hx. apply Hlt. by right.
Qed.

Lemma state_cut g m d gs os stuck c r v en :
  let ls := r ++ v :: gs in
  allotment g m -> g t = proc ls d (Granted gs os stuck) c -> node m (A v) en ->
  allotment (upd g t (proc (r ++ [v]) d (Cutoff gs os stuck) c))
    (set_entries (<[wq_entry (A v) := set_next 0 en]> (entries m)) m).
Proof using HA Hapart Ht.
  intros ls HI Hg Hn.
  destruct (processing g m _ _ _ _ _ HI Hg) as (w & new & Hs & Hmd & Eq & Hnew & Hne & Hd & Hm & rest & Er & Hgr & Hst).
  assert (rest = r ++ [v]) as ->.
  { unfold ls in Er. rewrite (app_assoc r [v] gs : r ++ v :: gs = _) in Er. by apply app_inv_tail in Er. }
  set (l' := (new ++ r) ++ [v]).
  assert (queue w = l' ++ gs) as El by (rewrite Eq; unfold ls, l'; by rewrite <- !app_assoc).
  pose proof (a_nodup _ _ _ _ _ _ _ _ _ _ _ Hs) as (Hnd & _ & _)%list.NoDup_app.
  unfold pending in Hnd. rewrite Hmd, app_nil_r, El in Hnd. apply list.NoDup_app in Hnd as (Hnd & Hdis & _).
  assert (forall u, u ∈ queue w -> (u < N)%nat) as Hlt.
  { intros x Hx. eapply structural_lt; [done|left; by apply pending_queue]. }
  assert (v ∈ l') as Hv by (apply elem_of_app; right; by left).
  assert (forall u, u ∈ l' -> u ∈ queue w) as Hl by (intros u Hu; rewrite El; apply elem_of_app; by left).
  assert (linked m (A <$> gs)) as Hgs by (eapply (linked_suffix _ (op g) _ l'); [apply Hs|done]).
  exists (World l' (Busy t (r ++ [v]) d (Cutoff gs os stuck)) (holders w) (teller w)).
  eapply (state_relink g m v en); try done.
  - apply pending_queue. auto.
  - rewrite El. unfold l'. by destruct (new ++ r).
  - unfold pending. rewrite Hmd, El. simpl. by rewrite app_nil_r.
  - intros k1 x k2 Ek. destruct (a_queue _ _ _ _ _ _ _ _ _ _ _ Hs k1 x (k2 ++ gs)) as (en0 & Hn0 & Ho & Hx & Hp).
    { by rewrite El, Ek, <- app_assoc. }
    destruct (decide (x = v)) as [->|Hxv].
    + unfold l' in Ek, Hnd. apply nodup_split in Ek as [<- <-]; [|done].
      assert (en0 = en) as -> by (by eapply node_fun). eexists. split; [by eapply node_insert|].
      by split.
    + apply (entry_is_ne _ _ _ _ en); [apply Hlt, Hl; by eapply in_middle|by apply Hlt, Hl|done..|].
      exists en0. split; [done|]. split; [done|]. split; [|done]. rewrite Hx.
      destruct k2; [|done]. exfalso. apply Hxv. by apply app_inj_tail in Ek as [_ ->].
  - destruct Hnew as [Hnew Hnt]. exists new. split; [unfold l'; by rewrite <- app_assoc|]. split; [|done].
    rewrite Forall_forall in Hnew |- *. intros x Hx.
    apply list_elem_of_In in Hx as Hx'.
    apply (entry_is_ne _ _ _ _ en); [apply Hlt; rewrite Eq; apply elem_of_app; by left|by apply Hlt, Hl|..|done|by apply Hnew].
    intros ->. unfold l' in Hnd. rewrite <- app_assoc in Hnd. apply list.NoDup_app in Hnd as (_ & Hdis' & _).
    apply (Hdis' v Hx'). apply elem_of_app. right. by left.
  - by destruct r.
  - split; [|split; [|split; [done|intros E; by apply Hst]]].
    + intros k1 x k2 Ek. destruct (Hm k1 x (k2 ++ gs)) as (en0 & Hn0 & Hp).
      { rewrite Er, Ek, <- app_assoc. done. }
      destruct (decide (x = v)) as [->|Hxv].
      * assert (en0 = en) as -> by (by eapply node_fun). eexists. split; [by eapply node_insert|done].
      * apply (entry_is_ne _ _ _ _ en); [|by apply Hlt, Hl|done..|by exists en0].
        apply Hlt. rewrite Eq, Er, Ek, !elem_of_app. right. left. right. by left.
    + eapply linked_ne; [|by apply Hlt, Hl| |done|done].
      * intros u Hu. apply Hlt. rewrite El. apply elem_of_app. by right.
      * intros Hv'. by apply (Hdis v).
Qed.

Lemma conforms_cut n d gs os stuck c r v :
  conforming n t (update_next_entry_anchor_ptr (wq_entry (A v)) 0)
    (proc (r ++ v :: gs) d (Granted gs os stuck) c)
    (fun _ x => x = proc (r ++ [v]) d (Cutoff gs os stuck) c).
Proof using HA Hapart Ht.
  eapply conforms_then; [apply _|by apply conforms_debug_assert|].
  intros n1 _. apply conforms_update_field. intros g m Hg HI.
  destruct (snapshot_entry g m _ _ _ _ _ r v gs HI Hg eq_refl) as (en & Hn & _).
  exists en. split; [apply Hn|]. eexists. split; [by eapply state_cut|done].
Qed.

(** ** Handing the units over *)

(** The threads [gs] are granted their requests, and [t] will tell them. *)
Definition taught (w : world) (gs : list tid) (u : tid) : option tid :=
  if decide (u ∈ gs) then Some t else teller w u.

Lemma placed_taught w l' md' gs u ph :
  let w' := World l' md' (gs ++ holders w) (taught w gs) in
  (u ∈ pending w <-> u ∈ pending w' \/ u ∈ gs) -> (u ∈ holders w -> u ∉ gs) ->
  placed w u ph -> placed w' u ph.
Proof using Type.
  intros w' Hpe Hdis. unfold placed. simpl holders. simpl teller. unfold taught.
  destruct (decide (u ∈ gs)) as [Hu|Hu].
  - assert (u ∈ pending w) as Hp by (apply Hpe; by right).
    destruct (home ph) as [? []| |]; try (by intros [? _]); [intros (_ & Hh & _); by destruct (Hdis Hh)|].
    intros [Ho _]. split; [done|]. right. apply elem_of_app. by left.
  - clear - Hpe Hu. destruct (home ph) as [? []| |]; rewrite ?elem_of_app; naive_solver.
Qed.

Lemma reach_taught (g : tid -> ghost) w l' md' gs ph ph' c u de :
  let w' := World l' md' (gs ++ holders w) (taught w gs) in
  g t = (ph, None, c) -> (u ∈ pending w <-> u ∈ pending w' \/ u ∈ gs) -> (u ∈ gs -> teller w u = None) ->
  reach g w u de -> reach (upd g t (ph', next_job 0 gs, c)) w' u de.
Proof using Type.
  intros w' Hg Hpe Htl. unfold reach. simpl teller. unfold taught. destruct (decide (u ∈ gs)) as [Hu|Hu].
  - rewrite Htl by done. rewrite decide_True by (apply Hpe; by right). intros ->. rewrite upd_eq.
    destruct gs as [|h rest]; [by apply not_elem_of_nil in Hu|]. exists (Job 0 h rest Start).
    split; [done|]. by case_decide.
  - assert (forall p, task_of (g p) <> None -> p <> t) as Hnt by (intros p Hp ->; by rewrite Hg in Hp).
    destruct (teller w u) as [p|].
    + intros (j & Hj & Ej). exists j. split; [|done]. rewrite upd_ne; [done|]. apply Hnt. by rewrite Hj.
    + assert (u ∈ pending w <-> u ∈ pending w') as Hiff by (rewrite Hpe; clear - Hu; naive_solver).
      destruct (decide (u ∈ pending w')) as [Hul|Hul]; [by rewrite decide_True by by apply Hiff|].
      rewrite decide_False by (by rewrite Hiff). intros [->|[-> (p & j & Hj & Hh)]]; [by left|right].
      split; [done|]. exists p, j. split; [|done]. rewrite upd_ne; [done|]. apply Hnt. by rewrite Hj.
Qed.

Lemma from_idle w : md w = Idle -> at_work w t from.
Proof using Hfrom.
  intros Hmd. unfold at_work. rewrite Hmd. destruct from as [| |fr ls d st]; try by intros [].
  by apply home_not_proc in Hfrom.
Qed.

Lemma state_grant g m w gs l' md' ph' ph c wk :
  let x := (ph', next_job 0 gs, c) in
  let w' := World l' md' (gs ++ holders w) (taught w gs) in
  state g m w -> g t = (ph, None, c) -> processes (md w) t -> home ph' = home ph -> (t ∉ gs) ->
  at_work w' t ph' -> limbo md' = [] -> (forall u, processes md' u -> u = t) ->
  pending w ≡ₚ l' ++ gs -> linked m (A <$> gs) ->
  weight g gs + weight g (holders w) <= max \/ (length (gs ++ holders w) <= 1)%nat ->
  (forall l1 u l2, l' = l1 ++ u :: l2 -> entry_is m (queued (op g u) l1 l2) (A u)) ->
  snapshot max A g m w' ->
  state (upd g t x) (set_weak wk (set_words (<[self := word (first_anchor (A <$> l'))
    (is_busy md') (weight g gs + weight g (holders w))]> (words m)) m)) w'.
Proof using HA Hapart Ht.
  intros x w' Hs Hg Hpr Hhome Htgs Hwork Hlimbo Honly Hpe Hl Hb Hq Hsnap.
  destruct (a_part _ _ _ _ _ _ _ _ _ _ _ Hs t) as [Hp1 Hp2 Hp3]. rewrite Hg in Hp1, Hp2, Hp3.
  assert (pending w' = l') as Epe by (unfold pending; simpl; by rewrite Hlimbo, app_nil_r).
  assert (forall u, u ∈ pending w <-> u ∈ pending w' \/ u ∈ gs) as Hin by (intros u; by rewrite Hpe, Epe, elem_of_app).
  assert (forall u, u ∈ gs -> teller w u = None) as Hgt.
  { intros u Hu. destruct (pending_waits _ _ _ _ _ _ _ _ _ _ _ u Hs) as (_ & _ & _ & _ & ?); [apply Hin; by right|done]. }
  assert (op_of ph' = op_of ph) as Eop by (unfold op_of; by rewrite Hhome).
  assert (forall u, op (upd g t x) u = op g u) as Hop by (intros u; apply op_upd; intros ->; unfold op; by rewrite Hg).
  assert (forall l, weight (upd g t x) l = weight g l) as Hw by (intros l; apply weight_upd; unfold op; by rewrite Hg).
  assert (weight (upd g t x) (holders w') = weight g gs + weight g (holders w)) as Ew by (by rewrite Hw; simpl; rewrite weight_app).
  pose proof (a_nodup _ _ _ _ _ _ _ _ _ _ _ Hs) as Hnd. apply list.NoDup_app in Hnd as Hnd'.
  destruct Hnd' as (_ & Hdis & _). rewrite Hpe, <- app_assoc in Hnd.
  assert (NoDup gs) as Hndg by (apply list.NoDup_app in Hnd as (_ & _ & Hnd); by apply list.NoDup_app in Hnd as (? & _)).
  assert (forall u, placed w u (phase_of (g u)) -> placed w' u (phase_of (g u))) as Hplaced.
  { intros u. apply placed_taught; [apply Hin|]. intros Hh Hg'. destruct (Hdis u); [apply Hin; by right|done]. }
  assert (forall u de, reach g w u de -> reach (upd g t x) w' u de) as Hreach.
  { intros u de. apply (reach_taught _ _ _ _ _ ph); [done|apply Hin|auto]. }
  rewrite <- Ew. change l' with (queue w') at 1. change md' with (md w') at 1.
  apply (state_word self prim max N A kind P inside t x g m w w' wk); try done.
  - by rewrite Hg.
  - by rewrite Ew.
  - by rewrite Epe.
  - intros l1 u l2 E. rewrite Hop. by apply Hq.
  - split; [|done|intros o Ho; simpl in Ho; specialize (Hp3 o Ho); change (ph = Holding o) in Hp3; subst ph; by destruct Hp2]. specialize (Hplaced t). rewrite Hg in Hplaced.
    unfold placed in *. change (phase_of x) with ph'. rewrite Hhome. by apply Hplaced.
  - pose proof (a_footing _ _ _ _ _ _ _ _ _ _ _ Hs t) as Hf. rewrite Hg in Hf. unfold footing.
    change (phase_of x) with ph'. rewrite Hhome. change (footing self prim A kind (upd g t x) m w' t ph).
    eapply footing_other; [by apply untouched_refl|apply Hreach|done].
  - apply snapshot_upd; [|done]. intros _. unfold op. by rewrite Hg.
  - intros p j Hj. destruct (decide (p = t)) as [->|Hpt].
    + rewrite upd_eq in Hj. destruct gs as [|h rest]; [done|]. injection Hj as <-.
      split; [done|]. split; [done|]. split; [|done]. intros u Hu. simpl. unfold taught. rewrite decide_True by done.
      split; [done|]. by intros ->.
    + rewrite upd_ne in Hj by done. destruct (a_jobs _ _ _ _ _ _ _ _ _ _ _ Hs p j Hj) as (?&?&Hj'&?).
      split; [done|]. split; [done|]. split; [|done]. intros u Hu. simpl. unfold taught.
      specialize (Hj' u Hu). rewrite decide_False; [done|]. intros Hug. destruct Hj'. by rewrite Hgt in *.
  - intros u p Hu. simpl in Hu. unfold taught in Hu. case_decide as Hug.
    + injection Hu as <-. rewrite upd_eq. destruct gs as [|h rest]; [by apply not_elem_of_nil in Hug|]. by eexists.
    + destruct (a_teller _ _ _ _ _ _ _ _ _ _ _ Hs u p Hu) as (j & Hj & Hjl). exists j. split; [|done].
      rewrite upd_ne; [done|]. intros ->. by rewrite Hg in Hj.
  - intros u _. apply Hplaced.
  - intros u Hut Hwk. unfold at_work in *. simpl.
    destruct (phase_of (g u)); try (intros Hpu; by apply Honly in Hpu).
    rewrite Hwk in Hpr. by destruct Hut.
  - intros u de _. apply Hreach.
Qed.

(** The newest entry of the queue tells whether there are new ones. *)
Lemma anchor_new g m w new ls :
  state g m w -> queue w = new ++ ls -> ls <> [] ->
  first_anchor (A <$> queue w) = first_anchor (A <$> ls) -> new = [].
Proof using HA Hapart Ht.
  intros Hs Eq Hne E. destruct new as [|u new]; [done|]. destruct ls as [|v ls]; [done|]. exfalso.
  assert (forall x, x ∈ queue w -> (x < N)%nat) as Hlt.
  { intros x Hx. eapply structural_lt; [done|left; by apply pending_queue]. }
  rewrite Eq in E, Hlt. simpl in E.
  destruct (apart N A HA Hapart u v) as [Hna _]; [apply Hlt; by left| |  |done].
  - apply Hlt. apply elem_of_app. right. by left.
  - intros ->. pose proof (a_nodup _ _ _ _ _ _ _ _ _ _ _ Hs) as (Hnd & _ & _)%list.NoDup_app.
    apply list.NoDup_app in Hnd as (Hnd & _ & _). rewrite Eq in Hnd.
    apply list.NoDup_cons in Hnd as [Hni _]. apply Hni, elem_of_app. right. by left.
Qed.

(** The bound on what is taken, when the data is at most what it was. *)
Lemma granted_bound g m w d gs os :
  state g m w -> grantable max g d gs os -> weight g (holders w) <= d ->
  weight g gs = acquired_total os /\
  (weight g gs + weight g (holders w) <= max \/ (length (gs ++ holders w) <= 1)%nat).
Proof using Hmax Ht.
  intros Hs [-> Hb] Hd. split; [done|]. fold (weight g gs) in Hb.
  destruct Hb as [->|[Hb|[-> Hl]]]; [by apply Hs|left; lia|right].
  destruct (weight_bounds self prim max N A kind P inside Hmax g m w Hs) as [[H0 _] Hnil].
  rewrite Hnil by lia. by rewrite app_nil_r.
Qed.

Lemma sound_cut d os d2 : sound d os -> 0 <= d2 <= d -> is_data (d2 + acquired_total os).
Proof using Type.
  clear - os. intros (Hd & Hos & Htot) Hle. apply plain_total in Hos. unfold is_data in *. lia.
Qed.

Lemma staged_ungrant (g : tid -> ghost) m v d gs o os :
  plain o = true ->
  staged g m (v :: gs) d (Granted (v :: gs) (o :: os) false) -> staged g m (v :: gs) d (Granted gs os false).
Proof using Ht.
  intros Ho (Hm & rest & E & [Eos Hb] & _). split; [done|]. exists [v]. split; [done|]. split; [|done].
  simpl in Eos. injection Eos as -> ->. split; [done|]. apply plain_units in Ho as (_ & _ & Ho).
  destruct Hb as [[=]|[Hb|[-> Hl]]].
  - right. left. unfold acquired_total in *. simpl in Hb. lia.
  - left. destruct gs; [done|simpl in Hl; lia].
Qed.

(** All the entries are granted their requests at once. *)
Lemma state_grant_all g m w ls os d c :
  state g m w -> g t = proc ls d (Granted ls os false) c -> t ∉ ls -> is_data d -> is_addr (first_anchor (A <$> ls)) ->
  words m !! self = Some (word (first_anchor (A <$> ls)) true d) ->
  allotment (upd g t (from, next_job 0 ls, c))
    (set_words (<[self := word 0 false (d + acquired_total os)]> (words m)) m).
Proof using HA Hapart Hmax Hfrom Ht.
  intros Hs Hg Hni Hd Ha Hw.
  destruct (processing g m _ _ _ _ _ (ex_intro _ w Hs) Hg) as (w' & new & Hs' & Hmd & Eq & _ & Hne & Hle & Hm & rest & _ & Hgr & _).
  clear w Hs. rename w' into w, Hs' into Hs.
  destruct (state_word_inj self prim max N A kind P inside HA Hmax _ _ _ _ _ _ Hs Hw Ha Hd) as (Ea & _ & Ed & _).
  assert (new = []) as -> by (eapply anchor_new; [exact Hs|exact Eq|exact Hne|by symmetry]). simpl in Eq.
  destruct (granted_bound _ _ _ _ _ _ Hs Hgr Hle) as [Ew Hb].
  exists (World [] Idle (ls ++ holders w) (taught w ls)).
  replace (d + acquired_total os) with (weight g ls + weight g (holders w)) by lia.
  apply (state_grant g m w ls [] Idle from _ c (weak m) Hs Hg); try done.
  - by rewrite Hmd.
  - by apply from_idle.
  - unfold pending. by rewrite Hmd, Eq, app_nil_r.
  - apply (linked_suffix _ (op g) (queue w) []); [apply Hs|done].
  - by intros [] ? ?.
  - by intros [] ? ?.
Qed.

Lemma conforms_grant_all n v gs o os d c :
  let ls := v :: gs in
  (forall u, u ∈ ls -> (u < N)%nat) -> t ∉ ls -> plain o = true -> sound d (o :: os) ->
  conforming n t
    (compare_exchange self (word (first_anchor (A <$> ls)) true d) (word 0 false (d + acquired_total (o :: os))))
    (proc ls d (Granted ls (o :: os) false) c)
    (fun r x =>
      match r with
      | Ok _ => x = (from, next_job 0 ls, c)
      | Err _ => x = proc ls d (Granted gs os false) c
      end).
Proof using HA Hapart Hmax Hfrom Ht.
  intros ls Hls Hni Ho (Hd & _). assert (is_addr (first_anchor (A <$> ls))) as Ha.
  { apply anchor_addr_is_addr, HA, Hls. by left. }
  apply conforms_compare_exchange. intros g m Hg HI. pose proof HI as (w & Hs).
  destruct (state_readable self prim max N A kind P inside HA Hmax _ _ _ Hs) as (x & Hx & _).
  exists x. split; [done|]. split.
  - intros ->. eexists. split; [by eapply state_grant_all|done].
  - intros _. eexists. split; [|done]. eapply state_stage; try done. by apply staged_ungrant.
Qed.

(** The state word while the entries that are granted are cut off. *)
Lemma cutoff_word g m ls d gs os stuck c :
  allotment g m -> g t = proc ls d (Cutoff gs os stuck) c -> is_data d ->
  exists a d2, words m !! self = Some (word a true d2) /\ is_addr a /\ is_data d2 /\ d2 <= d.
Proof using HA Hmax Ht.
  intros HI Hg Hd. destruct (processing g m _ _ _ _ _ HI Hg) as (w & new & Hs & Hmd & _ & _ & _ & Hle & _).
  exists (first_anchor (A <$> queue w)), (weight g (holders w)).
  pose proof (a_word _ _ _ _ _ _ _ _ _ _ _ Hs) as Hw. rewrite Hmd in Hw. split; [exact Hw|].
  split; [by eapply queue_addr|]. split; [by eapply (weight_bounds self prim max)|done].
Qed.

Lemma state_unlock g m ls d gs os c a wk :
  allotment g m -> g t = proc ls d (Cutoff gs os true) c -> t ∉ gs -> sound d os -> is_addr a ->
  words m !! self = Some (word a true d) ->
  allotment (upd g t (from, next_job 0 gs, c))
    (set_weak wk (set_words (<[self := word a false (d + acquired_total os)]> (words m)) m)).
Proof using HA Hapart Hmax Hfrom Ht.
  intros HI Hg Hni [Hd _] Ha Hw.
  destruct (processing g m _ _ _ _ _ HI Hg) as (w & new & Hs & Hmd & Eq & _ & Hne & Hle & _ & Hl & Hgr & Hst).
  destruct (state_word_inj self prim max N A kind P inside HA Hmax _ _ _ _ _ _ Hs Hw Ha Hd) as (-> & _ & Ed & _).
  destruct (granted_bound _ _ _ _ _ _ Hs Hgr Hle) as [Ew Hb].
  exists (World (queue w) Idle (gs ++ holders w) (taught w gs)).
  replace (d + acquired_total os) with (weight g gs + weight g (holders w)) by lia.
  apply (state_grant g m w gs (queue w) Idle from _ c wk Hs Hg); try done.
  - by rewrite Hmd.
  - by apply from_idle.
  - unfold pending. by rewrite Hmd.
  - apply Hs.
  - specialize (Hst eq_refl). intros l1 u El. simpl in El |- *. rewrite weight_app, Ew, Z.add_comm, <- Ed.
    rewrite Eq in El. destruct ls as [|v ls _] using rev_ind; [done|]. rewrite app_assoc in El.
    apply app_inj_tail in El as [_ <-]. by eapply Hst.
Qed.

Lemma conforms_unlock n ls d gs os c :
  t ∉ gs -> sound d os ->
  conforming n t (fetch_update self (unlock_state d (acquired_total os))) (proc ls d (Cutoff gs os true) c)
    (fun r x =>
      match r with
      | Ok _ => x = (from, next_job 0 gs, c)
      | Err _ => x = proc ls d (Cutoff gs os true) c
      end).
Proof using HA Hapart Hmax Hfrom Ht.
  intros Hni Hok. pose proof Hok as (Hd & _).
  apply (conforms_fetch_update _ _ _ _ _ _ _ _ (fun v => exists a d2, v = word a true d2 /\
    is_addr a /\ is_data d2 /\ d2 <= d)); [by intros ? []|by intros; apply allotment_weak| |].
  { intros g m Hg HI. destruct (cutoff_word _ _ _ _ _ _ _ _ HI Hg Hd) as (a & d2 & Hw & ?).
    eexists. split; [done|]. by exists a, d2. }
  intros n1 v (a & d2 & -> & Ha & Hd2 & Hle). unfold unlock_state. rewrite word_land_data by done.
  assert (is_data (d2 + acquired_total os)) as Htot by (apply (sound_cut d); [done|unfold is_data in *; lia]).
  assert (usize_add d2 (acquired_total os) = d2 + acquired_total os) as Ea.
  { apply usize_add_small. unfold is_data, usize_modulus in *. unfold_masks. lia. }
  eapply conforms_then; [apply _|apply conforms_debug_assert; [by apply Z.leb_le|done]|]. intros n2 _.
  rewrite Ea. eapply conforms_then; [apply _|apply conforms_debug_assert; [apply Z.leb_le, Htot|done]|].
  intros n3 _. destruct (d2 =? d) eqn:E; apply conforms_ret; (split; [done|]); [|done].
  apply Z.eqb_eq in E. subst d2. intros g m wk Hg HI Hw.
  rewrite word_land_addr, word_lor_data by done. eexists. split; [by eapply state_unlock|done].
Qed.

(** The new snapshot: nothing is known of the back pointers of the entries
    that have been pushed since. *)
Lemma marks_again m new ls f :
  (forall l1 u l2, new ++ ls = l1 ++ u :: l2 -> entry_is m (queued (f u) l1 l2) (A u)) ->
  Forall (fun u => entry_is m unmarked (A u)) new -> marked m ls ->
  marks m (new ++ ls) (Some (S (length new))) 0.
Proof using Ht.
  intros Hq Hnew Hm l1 u l2 E. destruct (Hq l1 u l2 E) as (en & Hn & _ & _ & Hp).
  destruct l1 as [|v l1].
  { exists en. split; [done|]. rewrite decide_True by (simpl; lia). by apply Hp. }
  destruct (decide (length (v :: l1) < length new)%nat) as [Hlt|Hge].
  - rewrite Forall_forall in Hnew. destruct (Hnew u) as (en' & Hn' & Hu).
    { apply list_elem_of_In, (list_elem_of_lookup_2 _ (length (v :: l1))).
      rewrite <- (lookup_app_l new ls) by done. rewrite E. by rewrite list_lookup_middle. }
    exists en'. split; [done|]. rewrite decide_False; [done|]. simpl in *; lia.
  - assert (exists k, v :: l1 = new ++ k /\ ls = k ++ u :: l2) as (k & Ek & Els).
    { clear - E Hge. revert new Hge E. generalize (v :: l1). intros l. induction l as [|x l IH]; intros [|y new] Hge E.
      - by exists [].
      - simpl in Hge. lia.
      - by exists (x :: l).
      - injection E as -> E. destruct (IH new) as (k & -> & ->); [simpl in Hge; lia|done|]. by exists k. }
    destruct (Hm k u l2 Els) as (en' & Hn' & Hu). exists en'. split; [done|]. rewrite Hu, Ek.
    rewrite length_app. destruct k as [|x k].
    + rewrite decide_False; [done|]. intros [Hle|Hle]; [|simpl in Hle; lia].
      apply (f_equal length) in Ek. rewrite length_app in Ek. simpl in Ek, Hle. lia.
    + rewrite decide_True by (simpl; lia). unfold Allotment.newer. rewrite !reverse_app.
      by destruct (reverse (x :: k)) eqn:Er; [apply (f_equal reverse) in Er; rewrite reverse_involutive in Er|].
Qed.

Lemma state_recheck g m ls d gs os stuck c :
  allotment g m -> g t = proc ls d (Cutoff gs os stuck) c -> t ∉ gs -> sound d os ->
  exists b ls' d', words m !! self = Some (word (first_anchor (A <$> ls')) true d') /\
    is_data (d' + acquired_total os) /\ is_data d' /\ (forall u, u ∈ ls' -> (u < N)%nat) /\
    (exists new, ls' = new ++ ls /\ t ∉ new) /\
    allotment (upd g t (Proc from ls' (d' + acquired_total os) (Marking (Some b) 0), next_job 0 gs, c))
      (set_words (<[self := word (first_anchor (A <$> ls')) true (d' + acquired_total os)]> (words m)) m).
Proof using HA Hapart Hmax Hfrom Ht.
  intros HI Hg Hni Hok.
  destruct (processing g m _ _ _ _ _ HI Hg) as (w & new & Hs & Hmd & Eq & [Hnew Hnt] & Hne & Hle & Hm & Hl & Hgr & _).
  destruct (granted_bound _ _ _ _ _ _ Hs Hgr Hle) as [Ew Hb].
  destruct (weight_bounds self prim max N A kind P inside Hmax g m w Hs) as [Hd' _].
  exists (S (length new)), (queue w), (weight g (holders w)). split.
  { pose proof (a_word _ _ _ _ _ _ _ _ _ _ _ Hs) as Hw. by rewrite Hmd in Hw. }
  split; [apply (sound_cut d); [done|unfold is_data in *; lia]|]. split; [done|].
  split; [intros u Hu; eapply structural_lt; [done|left; by apply pending_queue]|]. split; [by exists new|].
  set (d' := weight g (holders w) + acquired_total os).
  set (st := Marking (Some (S (length new))) 0).
  exists (World (queue w) (Busy t (queue w) d' st) (gs ++ holders w) (taught w gs)).
  assert (d' = weight g gs + weight g (holders w)) as Ed by (unfold d'; lia). rewrite Ed at 2.
  apply (state_grant g m w gs (queue w) (Busy t (queue w) d' st) _ _ c (weak m) Hs Hg); try done.
  - by rewrite Hmd.
  - unfold pending. by rewrite Hmd.
  - apply Hs.
  - simpl. split; [exists []; split; [done|]; split; [done|apply not_elem_of_nil]|]. split; [rewrite Eq; by destruct new|].
    split; [change (weight g (gs ++ holders w) <= d'); rewrite weight_app; lia|]. rewrite Eq. apply (marks_again m new ls (op g)); [|done..].
    rewrite <- Eq. apply Hs.
Qed.

End thread.

End process.
