(* ===== verification/Releasing.v ===== *)
(** * Giving units back

    [release_loop] and [process_wait_queue] of [SyncPrimitive.v], shown to
    conform to the invariant of [Allotment.v]: a thread gives its units back in
    place, or processes the queue, hands units over to the oldest entries, as
    far as they fit, and tells the owners. *)

From S2P Require Import Prelude Prog Word Opcode Memory WaitQueue Geometry Results.
From S2P Require Import Queue Grant Interleaving Concurrent Delivery Areas Private Telling SyncPrimitive Enqueue Release Crate Allotment Obtaining Process.

Section releasing.
  Context {C : Type} (self : Z) (prim : Primitive) `{SyncPrimitive prim}.
  Context (N : nat) (A : tid -> Z) (kind : waiting_mode).
  Context (P : gmap Z Z -> (tid -> C) -> Prop) (inside : C -> option Opcode).
  Context (Hkind : wakers_differ N kind).
  Context (HA : forall t, (t < N)%nat -> wq_ok (A t)).
  Context (Hapart : forall t u, (t < N)%nat -> (u < N)%nat -> t <> u ->
    A t + 128 <= A u \/ A u + 128 <= A t).

Abbreviation max := (max_shared_owners prim).

  Context (Hmax : 0 <= max <= DATA_MASK).

Abbreviation state := (state self prim max N A kind P inside).
Abbreviation allotment := (allotment self prim max N A kind P inside).
Abbreviation sleeps := (sleeps kind).
Abbreviation conforming := (conforms allotment unsure sleeps).
Abbreviation ghost := (ghost_of phase C).
Abbreviation fits := (fits max).
Abbreviation newer := (newer A).

Lemma acquired_total_cons o os : acquired_total (o :: os) = units o + acquired_total os.
Proof using Type. done. Qed.

Lemma usize_total d os : sound d os -> usize_add d (acquired_total os) = d + acquired_total os.
Proof using Hmax.
  intros (_ & _ & Hd). apply usize_add_small. unfold is_data, usize_modulus in *. unfold_masks. lia.
Qed.

Lemma usize_grant d o os :
  sound d (o :: os) ->
  usize_add (usize_add d (acquired_total os)) (units o) = d + acquired_total (o :: os) /\
  usize_add (acquired_total os) (units o) = acquired_total (o :: os).
Proof using Hmax.
  intros (Hd & Hos & Hd'). inversion Hos as [|? ? Ho Hos']; subst. destruct (plain_units o Ho) as (_ & _ & Hu).
  pose proof (plain_total os Hos'). rewrite acquired_total_cons in *. unfold is_data in *. unfold_masks.
  rewrite !usize_add_small by (unfold usize_modulus; rewrite ?usize_add_small by (unfold usize_modulus; lia); lia).
  split; lia.
Qed.

Lemma usize_fits d os o :
  sound d os -> plain o = true ->
  (usize_add d (acquired_total os) =? 0)
    || (usize_add (usize_add d (acquired_total os)) (desired_count o) <=? max) =
  fits (d + acquired_total os) o.
Proof using Hmax.
  intros Hok (-> & _ & Ho)%plain_units. rewrite usize_total by done. destruct Hok as (_ & _ & Hd).
  rewrite usize_add_small; [done|]. unfold is_data, usize_modulus in *. unfold_masks. lia.
Qed.

Section thread.
  Context (t : tid) (Ht : (t < N)%nat).

Section processing.

(** Where the thread comes from, and will be again. *)
  Context (from : phase) (Hfrom : home from = from).

Abbreviation proc ls d st c := (Proc from ls d st, None, c).

(** ** Granting *)

(** What the closure has captured in the end: everything is granted, or some
    entries are, up to one at which the queue has been cut. *)
Definition granted (ls : list tid) (d h0 : Z) (c : C) (r : Granting) (x : ghost) : Prop :=
  (exists tr, r = mkGranting tr (first_entry (A <$> ls)) false h0 true /\ x = (from, next_job 0 ls, c)) \/
  (exists l1 v gs os stuck, ls = l1 ++ v :: gs /\ sound d os /\
     r = mkGranting (acquired_total os) (first_entry (A <$> gs)) (negb stuck) (wq_entry (A v)) false /\
     x = proc (l1 ++ [v]) d (Cutoff gs os stuck) c).

(** What the closure has captured when it goes on. *)
Definition granting (gs : list tid) (os : list Opcode) (h0 : Z) : Granting :=
  mkGranting (acquired_total os) (first_entry (A <$> gs)) false h0 false.

Lemma conforms_grant_entry n ls d gs os c l1 v h0 :
  ls = l1 ++ v :: gs -> (forall u, u ∈ ls -> (u < N)%nat) -> t ∉ ls -> sound d os ->
  conforming n t
    (grant_entry prim self (word (first_anchor (A <$> ls)) true d) d (first_entry (A <$> ls))
       (wq_entry (A v)) (newer l1) (granting gs os h0))
    (proc ls d (Granted gs os false) c)
    (fun s x =>
      if s.2 then granted ls d h0 c s.1 x
      else exists o, l1 <> [] /\ sound d (o :: os) /\ s.1 = granting (v :: gs) (o :: os) h0 /\
        x = proc ls d (Granted (v :: gs) (o :: os) false) c).
Proof using HA Hapart Hmax Hfrom Ht.
  intros E Hls Hni Hok. conforms_seq; [by apply (conforms_opcode self prim N A kind P inside HA Hapart Hmax t Ht from _ _ _ _ _ _ l1 v E)|].
  intros n1 o x _ [Ho ->]. pose proof (plain_units o Ho) as (Edes & Hop & Hunits).
  eapply conforms_then; [apply _|by apply conforms_debug_assert|]. intros n2 _.
  cbn [granting transferred resolved_entry_ptr reset_failed head_entry_ptr unlocked].
  rewrite usize_fits by done. unfold judged. destruct (Allotment.fits max (d + acquired_total os) o) eqn:Hfit.
  - assert (sound d (o :: os)) as Hok' by (by eapply sound_cons).
    destruct (usize_grant d o os Hok') as [Eadd Etr].
    eapply conforms_then; [apply _|apply conforms_debug_assert; [by rewrite Edes, Z.leb_refl|done]|]. intros n3 _.
    destruct l1 as [|u l1 _] using rev_ind.
    + simpl in E. subst ls.
      eapply conforms_then; [apply _|apply conforms_debug_assert; [apply Z.eqb_refl|done]|]. intros n4 _.
      rewrite Eadd. replace (d + acquired_total (o :: os)) with (word 0 false (d + acquired_total (o :: os))) by done.
      conforms_seq; [by apply (conforms_grant_all self prim N A kind P inside HA Hapart Hmax t Ht from Hfrom)|].
      intros n5 [r|r] x _ ->; [apply conforms_ret; left; by eexists|].
      conforms_seq; [by apply (conforms_cut self prim N A kind P inside HA Hapart t Ht from _ _ _ _ _ _ [] v)|].
      intros n6 [] x _ ->. apply conforms_ret. right. by exists [], v, gs, os, false.
    + rewrite newer_last. rewrite wq_entry_eqb_0.
      2:{ apply HA, Hls. rewrite E. apply elem_of_app. left. apply elem_of_app. right. by left. }
      apply conforms_ret. exists o. split; [by destruct l1|]. split; [done|]. split; [|done].
      unfold granting. by rewrite Etr.
  - subst ls. conforms_seq; [by apply (conforms_cut self prim N A kind P inside HA Hapart t Ht from _ _ _ _ _ _ l1 v)|].
    intros n3 [] x _ ->. apply conforms_ret. right. by exists l1, v, gs, os, true.
Qed.

Lemma conforms_grant n l1 h d c h0 :
  let ls := l1 ++ [h] in
  (forall u, u ∈ ls -> (u < N)%nat) -> t ∉ ls -> is_data d ->
  conforming n t
    (iter_backward (wq_entry (A h))
       (grant_entry prim self (word (first_anchor (A <$> ls)) true d) d (first_entry (A <$> ls)))
       (mkGranting 0 0 false h0 false))
    (proc ls d (Granted [] [] false) c) (granted ls d h0 c).
Proof using HA Hapart Hmax Hfrom Ht.
  intros ls Hls Hni Hd. conforms_iter (fun s x => exists k v gs os, ls = k ++ v :: gs /\ sound d os /\
    s = (wq_entry (A v), granting gs os h0) /\ x = proc ls d (Granted gs os false) c);
    [|by intros ???????[]|].
  2:{ exists l1, h, [], []. split; [done|]. split; [|done]. unfold sound. simpl. by rewrite Z.add_0_r. }
  intros n1 s x _ (k & v & gs & os & E & Hok & -> & ->).
  rewrite wq_entry_eqb_0 by (apply HA, Hls; by eapply in_middle).
  conforms_seq; [by apply (conforms_prev self prim N A kind P inside t from _ _ _ _ _ _ _ k v gs)|].
  intros n2 e x _ [-> ->]. conforms_seq; [by apply conforms_grant_entry|].
  intros n3 [r [|]] x _ Hr; simpl in Hr; [by apply conforms_ret|].
  destruct Hr as (o & Hne & Hok' & -> & ->). apply conforms_ret.
  destruct k as [|u k _] using rev_ind; [done|]. exists k, u, (v :: gs), (o :: os).
  split; [by rewrite E, <- app_assoc|]. split; [done|]. by rewrite newer_last.
Qed.

(** ** Telling those whose requests are granted *)

Lemma conforms_tell_granted n ph ls c :
  (forall u, u ∈ ls -> (u < N)%nat) ->
  conforming n t
    (iter_forward (first_entry (A <$> ls)) false
       (fun entry _ (_ : unit) => set_result entry 0 ;;; Ret (tt, false)) tt)
    (ph, next_job 0 ls, c) (fun _ x => x = (ph, None, c)).
Proof using HA Hapart Hkind.
  intros Hls. eapply conforms_mono.
  - apply (conforms_tell_all allotment sleeps A kind t 0 (ltac:(done) : is_u8 0)
      (fun tk => (ph, tk, c))) with (k := fun _ : unit => tt).
    + intros g m l Hne (w & Hs) Hg. destruct l as [|h rest]; [done|].
      pose proof (a_jobs _ _ _ _ _ _ _ _ _ _ _ Hs t (Job 0 h rest Start)) as Hj. rewrite Hg in Hj.
      destruct (Hj eq_refl) as (_ & _ & _ & Hl). exact Hl.
    + intros h rest. by apply allotment_deliverer.
    + apply Forall_forall. intros u Hu. by apply HA, Hls, list_elem_of_In.
  - by intros [] x [_ ->].
Qed.

Lemma granted_entries ls d h0 c r x :
  granted ls d h0 c r x -> exists gs, resolved_entry_ptr r = first_entry (A <$> gs) /\
    forall u, u ∈ gs -> u ∈ ls.
Proof using Type.
  intros [(tr & -> & _)|(l1 & v & gs & os & stuck & -> & _ & -> & _)]; [by exists ls|].
  exists gs. split; [done|]. intros u Hu. apply elem_of_app. right. by right.
Qed.

Lemma conforms_recheck n ls d gs os stuck c :
  t ∉ ls -> t ∉ gs -> sound d os ->
  conforming n t (fetch_add self (acquired_total os)) (proc ls d (Cutoff gs os stuck) c)
    (fun old x => exists b new d',
      let ls' := new ++ ls in
      (forall u, u ∈ ls' -> (u < N)%nat) /\ (t ∉ ls') /\ is_data d' /\
      usize_add old (acquired_total os) = word (first_anchor (A <$> ls')) true d' /\
      x = (Proc from ls' d' (Marking (Some b) 0), next_job 0 gs, c)).
Proof using HA Hapart Hmax Hfrom Ht.
  intros Hni Hnt Hok. apply conforms_fetch_add. intros g m Hg HI.
  destruct (state_recheck self prim N A kind P inside HA Hapart Hmax t Ht from Hfrom _ _ _ _ _ _ _ _ HI Hg Hnt Hok)
    as (b & ls' & d' & Hw & Hd1 & Hd2 & Hls' & (new & -> & Hnew) & HI').
  eexists. split; [exact Hw|].
  assert (usize_add (word (first_anchor (A <$> new ++ ls)) true d') (acquired_total os) =
    word (first_anchor (A <$> new ++ ls)) true (d' + acquired_total os)) as E.
  { assert (is_addr (first_anchor (A <$> new ++ ls))) as Ha.
    { destruct (new ++ ls) as [|u l] eqn:El; [apply is_addr_0|]. apply anchor_addr_is_addr, HA, Hls'. by left. }
    pose proof (word_range _ true _ Ha Hd1) as Hr. pose proof (word_range _ true _ Ha Hd2) as Hr2.
    destruct Hok as (_ & Hos & _). pose proof (plain_total os Hos).
    rewrite usize_add_small; unfold word, is_usize in *; lia. }
  rewrite E. eexists. split; [exact HI'|]. exists b, new, (d' + acquired_total os).
  split; [done|]. split; [|done]. rewrite elem_of_app. by intros [?|?].
Qed.

(** ** One round *)

(** What the loop of [process_wait_queue] starts a round with. *)
Definition round (c : C) (s : Z * Z) (x : ghost) : Prop :=
  exists l1 h d,
    let ls := l1 ++ [h] in
    (forall u, u ∈ ls -> (u < N)%nat) /\ (t ∉ ls) /\ is_data d /\ s.1 = word (first_anchor (A <$> ls)) true d /\
    ((s.2 = 0 /\ x = proc ls d (Marking None 0) c) \/
     (exists b, s.2 = wq_entry (A h) /\ x = proc ls d (Marking (Some b) 0) c)).

Definition next_round (c : C) (r : Z * Z + unit) (x : ghost) : Prop :=
  match r with
  | inl s => round c s x
  | inr _ => x = (from, None, c)
  end.

(** What follows the granting. *)
Definition settle (data state : Z) (g : Granting) : program (Z * Z + unit) :=
  debug_assert (negb (reset_failed g) || negb (unlocked g)) ;;;
  unlocked <- (if negb (reset_failed g) && negb (unlocked g)
    then
      r <- fetch_update self (unlock_state data (transferred g)) ;;
      match r with
      | Ok _ => Ret true
      | Err _ => Ret false
      end
    else Ret (unlocked g)) ;;
  state <- (if negb unlocked
    then old <- fetch_add self (transferred g) ;; Ret (usize_add old (transferred g))
    else Ret state) ;;
  iter_forward (resolved_entry_ptr g) false
    (fun entry _ _ => set_result entry 0 ;;; Ret (tt, false)) tt ;;;
  if (unlocked : bool) then Ret (inr tt)
  else Ret (inl (state, SyncPrimitive.head_entry_ptr g)).

(** Whether the state word has been unlocked; if it has not been, how the
    granting ended. *)
Definition undecided (ls : list tid) (d : Z) (c : C) (r : Granting) (unlocked : bool) (x : ghost) : Prop :=
  exists gs, resolved_entry_ptr r = first_entry (A <$> gs) /\ (forall u, u ∈ gs -> u ∈ ls) /\
    if unlocked then x = (from, next_job 0 gs, c)
    else exists l1 v os stuck, ls = l1 ++ v :: gs /\ sound d os /\ transferred r = acquired_total os /\
      SyncPrimitive.head_entry_ptr r = wq_entry (A v) /\ x = proc (l1 ++ [v]) d (Cutoff gs os stuck) c.

Lemma conforms_try_unlock n ls d h0 c r x :
  t ∉ ls -> granted ls d h0 c r x ->
  conforming n t
    (if negb (reset_failed r) && negb (unlocked r)
     then
       r <- fetch_update self (unlock_state d (transferred r)) ;;
       match r with
       | Ok _ => Ret true
       | Err _ => Ret false
       end
     else Ret (unlocked r)) x (undecided ls d c r).
Proof using HA Hapart Hmax Hfrom Ht.
  intros Hni [(tr & -> & ->)|(l1 & v & gs & os & stuck & E & Hok & -> & ->)].
  { apply conforms_ret. by exists ls. }
  cbn [reset_failed unlocked transferred]. rewrite andb_true_r, negb_involutive.
  assert (forall u, u ∈ gs -> u ∈ ls) as Hgs.
  { intros u Hu. rewrite E. apply elem_of_app. right. by right. }
  destruct stuck; [|apply conforms_ret; exists gs; split; [done|]; split; [done|]; by exists l1, v, os, false].
  conforms_seq; [apply (conforms_unlock self prim N A kind P inside HA Hapart Hmax t Ht from Hfrom); [by intros ?%Hgs|done]|].
  intros n1 [w|w] x _ ->; apply conforms_ret; exists gs; (split; [done|]); (split; [done|]); [done|].
  by exists l1, v, os, true.
Qed.

Lemma conforms_settle n st ls d h0 c r x :
  (forall u, u ∈ ls -> (u < N)%nat) -> t ∉ ls -> granted ls d h0 c r x ->
  conforming n t (settle d st r) x (next_round c).
Proof using HA Hapart Hkind Hmax Hfrom Ht.
  intros Hls Hni Hr. eapply conforms_then; [apply _|apply conforms_debug_assert; [|done]|].
  { destruct Hr as [(tr & -> & _)|(l1 & v & gs & os & stuck & _ & _ & -> & _)]; [done|by destruct stuck]. }
  intros n1 _. conforms_seq; [by eapply conforms_try_unlock|]. clear Hr.
  intros n2 [|] x' _ (gs & -> & Hgs & Hx).
  - subst x'. eapply conforms_then; [apply _|by apply conforms_ret|]. intros n3 _.
    conforms_seq; [apply conforms_tell_granted; auto|]. intros n4 [] x' _ ->. by apply conforms_ret.
  - destruct Hx as (l1 & v & os & stuck & E & Hok & -> & -> & ->).
    conforms_by (fun s x => exists b new d', let ls' := new ++ l1 ++ [v] in
      (forall u, u ∈ ls' -> (u < N)%nat) /\ (t ∉ ls') /\ is_data d' /\ s = word (first_anchor (A <$> ls')) true d' /\
      x = (Proc from ls' d' (Marking (Some b) 0), next_job 0 gs, c)).
    { conforms_seq; [apply conforms_recheck; [|by intros ?%Hgs|done]|].
      { intros Hin. apply Hni. rewrite E, !elem_of_app in *. destruct Hin as [?| ->%list_elem_of_singleton]; [by left|right; by left]. }
      intros n3 old x' _ (b & new & d' & ? & ? & ? & ? & ->).
      apply conforms_ret. by exists b, new, d'. }
    intros n3 s x' _ (b & new & d' & Hlt & Hni' & Hd' & -> & ->).
    conforms_seq; [apply conforms_tell_granted; auto|]. intros n4 [] x' _ ->. apply conforms_ret.
    rewrite app_assoc in Hlt, Hni' |- *. exists (new ++ l1), v, d'. split; [done|]. split; [done|]. split; [done|].
    split; [done|]. right. by exists b.
Qed.

Lemma conforms_tail n l1 h d b c :
  let ls := l1 ++ [h] in
  (forall u, u ∈ ls -> (u < N)%nat) ->
  conforming n t (to_entry_ptr (first_anchor (A <$> ls))) (proc ls d (Marking b 0) c)
    (fun e x => e = first_entry (A <$> ls) /\ x = proc ls d (Marking b 0) c).
Proof using HA.
  intros ls Hls. assert (exists u l2, ls = [] ++ u :: l2) as (u & l2 & E).
  { unfold ls. destruct l1; simpl; eauto. }
  replace (first_anchor (A <$> ls)) with (anchor_addr (A u)) by (by rewrite E).
  replace (first_entry (A <$> ls)) with (wq_entry (A u)) by (by rewrite E).
  apply conforms_to_entry_ptr; [apply _|apply HA, Hls; by eapply in_middle| |done].
  intros g m Hg HI. destruct (snapshot_entry self prim N A kind P inside t from _ _ _ _ _ _ _ _ _ _ HI Hg E) as (en & Hn & _).
  apply Hn.
Qed.

Lemma conforms_process n w c x :
  round c (w, 0) x ->
  conforming n t (process_wait_queue prim self w) x (fun _ x => x = (from, None, c)).
Proof using HA Hapart Hkind Hmax Hfrom Ht.
  intros Hx. conforms_iter (fun s x => round c s x); [|by intros ???????[]|done].
  clear w x Hx. intros n1 [w e] x _ (l1 & h & d & Hls & Hni & Hd & Hw & Hx). simpl in Hw, Hx. subst w.
  set (ls := l1 ++ [h]) in *.
  assert (is_addr (first_anchor (A <$> ls)) /\ (wq_entry (A h) =? 0) = false) as [Ha Hnz].
  { split; [|apply wq_entry_eqb_0, HA, Hls, elem_of_app; right; by left].
    assert (exists u l2, ls = u :: l2) as (u & l2 & E) by (unfold ls; destruct l1; simpl; eauto).
    rewrite E. apply anchor_addr_is_addr, HA, Hls. rewrite E. by left. }
  eapply conforms_then; [apply _|apply conforms_debug_assert; [|done]|].
  { rewrite word_land_locked by done. apply Z.eqb_refl. }
  intros n2 _. rewrite word_to_anchor_ptr, word_land_data by done.
  assert (exists b, x = proc ls d (Marking b 0) c /\ (e =? 0) = match b with Some _ => false | None => true end /\
    (b <> None -> e = wq_entry (A h)) /\ (b = None -> e = 0)) as (b & -> & Eb & He & He0).
  { destruct Hx as [[-> ->]|(b & -> & ->)]; [by exists None|by exists (Some b)]. }
  conforms_seq; [by apply conforms_tail|]. intros n3 tail x _ [-> ->]. rewrite Eb.
  conforms_by (fun e x => e = wq_entry (A h) /\ x = proc ls d (Granted [] [] false) c).
  { destruct b as [b|].
    - rewrite He by done. conforms_seq; [by apply (conforms_mark_new self prim N A kind P inside HA Hapart t Ht from)|].
      intros n4 [] x _ ->. by apply conforms_ret.
    - rewrite He0 by done. by apply (conforms_mark_all self prim N A kind P inside HA Hapart t Ht from). }
  intros n4 e' x _ [-> ->]. conforms_seq; [by apply conforms_grant|].
  intros n5 r x _ Hr. eapply conforms_mono; [by eapply (conforms_settle _ _ ls d)|].
  by intros [s|[]] x'.
Qed.

End processing.

(** ** Letting go *)

(** The state of a primitive some units of which are held. *)
Definition giveable (o : Opcode) (v : Z) : Prop :=
  exists a b d, v = word a b d /\ is_addr a /\ is_data d /\ is_data (d - units o) /\
    can_release o v = true.

(** Whoever holds units may release them. *)
Lemma holder_giveable g m w u :
  state g m w -> u ∈ holders w -> (op g u = Shared -> max < DATA_MASK) ->
  giveable (op g u) (word (first_anchor (A <$> queue w)) (is_busy (md w)) (weight g (holders w))).
Proof using HA Hmax Ht.
  intros Hs Hin Hsh. assert (forall v, v ∈ holders w -> plain (op g v) = true) as Hpl.
  { intros v Hv. eapply placed_ops; [right; exact Hv|apply (pt_placed _ _ _ _ (a_part _ _ _ _ _ _ _ _ _ _ _ Hs v))]. }
  destruct (elem_of_Permutation (holders w) u) as [[hs E] _]; [done|].
  assert (weight g (holders w) = units (op g u) + weight g hs) as Ew by (by rewrite (weight_perm g _ _ E)).
  assert (0 <= weight g hs) as H0.
  { assert (Forall (fun o => plain o = true) (op g <$> hs)) as Hos; [|apply plain_total in Hos; unfold weight; lia].
    apply Forall_forall. intros o' (v & -> & Hv)%list_elem_of_In%list_elem_of_fmap. apply Hpl. rewrite E. by right. }
  destruct (weight_bounds self prim max N A kind P inside Hmax g m w Hs) as [Hd _].
  pose proof (queue_addr self prim max N A kind P inside HA g m w Hs) as Ha.
  destruct (plain_units (op g u)) as (_ & _ & Hu); [auto|].
  eexists _, _, _. split; [done|]. split; [done|]. split; [done|]. split; [unfold is_data in *; lia|].
  specialize (Hpl u Hin). destruct (op g u); try done; simpl; rewrite word_land_data by done; simpl in *.
  - apply Z.eqb_eq. unfold is_data in *. lia.
  - apply andb_true_intro. split; [apply Z.leb_le; lia|]. apply negb_true_iff, Z.eqb_neq. intros Ed.
    destruct (a_bound _ _ _ _ _ _ _ _ _ _ _ Hs) as [Hb|Hb]; [specialize (Hsh eq_refl); lia|].
    apply Permutation_length in E. simpl in E. destruct hs; [|simpl in E; lia].
    rewrite Ed in Ew. unfold weight in Ew. simpl in Ew. unfold_masks. lia.
  - apply Z.leb_le. lia.
Qed.

(** The thread holds units; its wait queue is private. *)
Section holder.
  Context (pr : private) (o : Opcode).

Abbreviation has c := (Aside pr (Some o), None, c).
Abbreviation gone c := (Aside pr None, None, c).

Lemma held_placed g m w c :
  state g m w -> g t = has c -> plain o = true /\ (t ∈ holders w) /\ (t ∉ pending w) /\ ~ processes (md w) t.
Proof using Ht.
  intros Hs Hg. destruct (a_part _ _ _ _ _ _ _ _ _ _ _ Hs t) as [Hp1 Hp2 _]. rewrite Hg in Hp1, Hp2.
  pose proof (a_nodup _ _ _ _ _ _ _ _ _ _ _ Hs) as (_ & Hdis & _)%list.NoDup_app. destruct Hp1 as (Ho & Hin & _).
  split; [done|]. split; [done|]. split; [intros Hpe; by apply (Hdis t)|done].
Qed.

Lemma holder_split g m w c :
  state g m w -> g t = has c ->
  exists hs, holders w ≡ₚ t :: hs /\ weight g (holders w) = units o + weight g hs /\ 0 <= weight g hs.
Proof using Hmax Ht.
  intros Hs Hg. destruct (held_placed _ _ _ _ Hs Hg) as (Ho & Hin & _).
  destruct (elem_of_Permutation (holders w) t) as [[hs E] _]; [done|].
  exists hs. split; [done|]. split.
  - rewrite (weight_perm g _ _ E), weight_cons. unfold op. by rewrite Hg.
  - assert (Forall (fun o => plain o = true) (op g <$> hs)) as Hpl.
    { apply Forall_forall. intros o' Ho'. apply list_elem_of_In, list_elem_of_fmap in Ho' as (u & -> & Hu).
      eapply placed_ops; [right|apply (pt_placed _ _ _ _ (a_part _ _ _ _ _ _ _ _ _ _ _ Hs u))]. rewrite E. by right. }
    apply plain_total in Hpl. unfold weight. lia.
Qed.

Lemma holding_giveable g m c :
  allotment g m -> g t = has c -> (o = Shared -> max < DATA_MASK) ->
  exists v, words m !! self = Some v /\ giveable o v.
Proof using HA Hmax Ht.
  intros (w & Hs) Hg Hsh. destruct (held_placed _ _ _ _ Hs Hg) as (_ & Hin & _).
  assert (op g t = o) as Eop by (unfold op; by rewrite Hg).
  eexists. split; [apply Hs|]. rewrite <- Eop. apply (holder_giveable g m w t Hs Hin). by rewrite Eop.
Qed.

(** In place: nobody waits, or another thread processes the queue. *)
Lemma state_in_place g m c a b d wk :
  allotment g m -> g t = has c -> inside c = None ->
  words m !! self = Some (word a b d) -> is_addr a -> is_data d -> a = 0 \/ b = true ->
  allotment (upd g t (gone c))
    (set_weak wk (set_words (<[self := word a b (d - units o)]> (words m)) m)).
Proof using HA Hmax Ht.
  intros (w & Hs) Hg Hc Hw Ha Hd Hab.
  destruct (state_word_inj self prim max N A kind P inside HA Hmax _ _ _ _ _ _ Hs Hw Ha Hd) as (-> & -> & -> & Hq).
  destruct (held_placed _ _ _ _ Hs Hg) as (Ho & _ & Hni & Hnp).
  apply allotment_weak. apply (state_give self prim max N A kind P inside Hmax t pr o c (Aside pr None) (md w) g m w); try done.
  - by left.
  - intros hs tl Hhs. pose proof (a_snapshot _ _ _ _ _ _ _ _ _ _ _ Hs) as Hsnap. unfold snapshot in *. simpl.
    destruct (md w) as [|p ls d st] eqn:Em.
    { destruct Hab as [Hz|[=]]. destruct (Hq Hz) as [-> _]. by intros [] ? ?. }
    destruct Hsnap as ((new & Eq & Hnew) & Hne & Hle & Hst).
    split; [by exists new|]. split; [done|]. split.
    { apply plain_units in Ho. lia. }
    apply staged_upd; [|done]. intros Hin. exfalso. apply Hni. unfold pending. rewrite Em, Eq, !elem_of_app.
    destruct Hin; [left; by right|by right].
Qed.

Lemma state_start g m c a d :
  allotment g m -> g t = has c -> inside c = None ->
  words m !! self = Some (word a false d) -> is_addr a -> is_data d -> a <> 0 ->
  exists x, round (Aside pr None) c (word a true (d - units o), 0) x /\
    allotment (upd g t x) (set_words (<[self := word a true (d - units o)]> (words m)) m).
Proof using HA Hmax Ht.
  intros (w & Hs) Hg Hc Hw Ha Hd Ha0.
  destruct (state_word_inj self prim max N A kind P inside HA Hmax _ _ _ _ _ _ Hs Hw Ha Hd) as (-> & Eb & -> & _).
  assert (md w = Idle) as Hmd by (by destruct (md w)).
  assert (queue w <> []) as Hne by (by intros E; rewrite E in Ha0).
  destruct (holder_split _ _ _ _ Hs Hg) as (hs & _ & Ew & H0).
  destruct (held_placed _ _ _ _ Hs Hg) as (Ho & _ & Hni & Hnp). destruct (plain_units o Ho) as (_ & _ & Hu).
  set (d := weight g (holders w) - units o). set (st := Marking None 0).
  exists (Proc (Aside pr None) (queue w) d st, None, c). split.
  - destruct (queue w) as [|h l1 _] eqn:Eq using rev_ind; [done|]. exists l1, h, d.
    split; [intros u Hin; eapply structural_lt; [done|left; apply pending_queue; by rewrite Eq]|].
    split; [intros Hin; apply Hni, pending_queue; by rewrite Eq|].
    split; [unfold is_data, d in *; lia|]. split; [done|]. by left.
  - apply (state_give self prim max N A kind P inside Hmax t pr o c (Proc (Aside pr None) (queue w) d st)
      (Busy t (queue w) d st) g m w); try done.
    + by rewrite Hmd.
    + by right.
    + intros hs' tl Ehs. simpl. split; [exists []; split; [done|]; split; [done|apply not_elem_of_nil]|].
      split; [done|]. split; [apply Z.eq_le_incl, Ehs|].
      intros l1 u l2 E. destruct (a_queue _ _ _ _ _ _ _ _ _ _ _ Hs l1 u l2 E) as (en & Hn & _ & _ & Hp).
      exists en. split; [done|]. simpl. intros Hl. destruct l1; [|simpl in Hl; lia]. by apply Hp.
Qed.

End holder.

Section let_go.
  Context (pr : private) (o : Opcode).
  Context (c : C) (Ho : o = Shared -> max < DATA_MASK) (Hc : inside c = None).

Abbreviation has := (Aside pr (Some o), None, c).
Abbreviation gone := (Aside pr None, None, c).

Lemma conforms_in_place n a b d :
  is_addr a -> is_data d -> a = 0 \/ b = true ->
  conforming n t (compare_exchange self (word a b d) (word a b (d - units o))) has
    (fun r x =>
      match r with
      | Ok _ => x = gone
      | Err v => giveable o v /\ x = has
      end).
Proof using HA Hmax Ht Ho Hc.
  intros Ha Hd Hab. apply conforms_compare_exchange. intros g m Hg HI.
  destruct (holding_giveable pr o _ _ _ HI Hg Ho) as (v & Hv & Hgive). exists v. split; [done|]. split.
  - intros ->. eexists. split; [|done].
    exact (state_in_place pr o g m c a b d (weak m) HI Hg Hc Hv Ha Hd Hab).
  - intros _. apply kept_same; [done|]. by rewrite Hg.
Qed.

Lemma conforms_release_loop n v :
  giveable o v ->
  conforming n t (release_loop prim self v o) has (fun b x => b = true /\ x = gone).
Proof using HA Hapart Hkind Hmax Ht Ho Hc.
  intros Hv. conforms_iter (fun v x => giveable o v /\ x = has); [|by intros ???????[]|done].
  clear v Hv. intros n1 v x _ [(a & b & d & -> & Ha & Hd & Hd' & ->) ->].
  rewrite word_addr_zero, word_locked_bit, word_lor_locked, !usize_sub_word by done.
  destruct ((a =? 0) || b) eqn:Eab.
  - apply orb_prop in Eab. rewrite Z.eqb_eq in Eab. conforms_seq; [by apply conforms_in_place|].
    intros n2 [w|w] x _ Hx; apply conforms_ret; [by subst x|done].
  - apply orb_false_elim in Eab as [Ea ->]. apply Z.eqb_neq in Ea.
    conforms_by (fun r x =>
      match r with
      | Ok _ => round (Aside pr None) c (word a true (d - units o), 0) x
      | Err v => giveable o v /\ x = has
      end).
    { apply conforms_compare_exchange. intros g m Hg HI.
      destruct (holding_giveable pr o _ _ _ HI Hg Ho) as (w & Hw & Hgive). exists w. split; [done|]. split.
      - intros ->. destruct (state_start pr o g m c a d) as (x & Hx & HI'); [done..|]. by exists x.
      - intros _. apply kept_same; [done|]. by rewrite Hg. }
    intros n2 [w|w] x _ Hx; [|by apply conforms_ret].
    conforms_seq; [by apply (conforms_process (Aside pr None))|]. intros n3 [] x' _ ->. by apply conforms_ret.
Qed.

(** The fast path of [release_lock] and of the semaphore's [release_many]. *)
Lemma conforms_release_fast n d :
  is_data d ->
  conforming n t
    (r <- compare_exchange self (word 0 false d) (word 0 false (d - units o)) ;;
     match r with
     | Ok _ => Ret true
     | Err state => release_loop prim self state o
     end) has (fun b x => b = true /\ x = gone).
Proof using HA Hapart Hkind Hmax Ht Ho Hc.
  intros Hd. conforms_seq; [apply conforms_in_place; [apply is_addr_0|done|by left]|].
  intros n1 [v|v] x _ Hx; [subst x; by apply conforms_ret|]. destruct Hx as [Hv ->].
  by apply conforms_release_loop.
Qed.

End let_go.

End thread.

End releasing.
