(* ===== verification/Unlinking.v ===== *)
(** * Giving up, step by step

    The owner of an entry that waits in the queue of a primitive gives up: it
    processes the queue in order to unlink its entry from it.  Here are the
    steps of that, shown to keep the invariant of [Allotment.v]: locking the
    state word, finding the entry, linking the neighbours to each other, or
    making the next entry the newest one in the state word, or starting over
    when others have pushed entries meanwhile; and, when the units have been
    granted in the meantime, taking them.  [Withdrawing.v] puts the steps
    together. *)

From S2P Require Import Prelude Prog Word Opcode Memory WaitQueue Geometry Results.
From S2P Require Import Queue Grant Interleaving Concurrent Delivery Areas Private Telling SyncPrimitive Enqueue Release Crate Allotment Obtaining Process Releasing.

Section unlinking.
  Context {C : Type} (self : Z) (prim : Primitive) `{SyncPrimitive prim}.
  Context (N : nat) (A : tid -> Z) (kind : waiting_mode).
  Context (P : gmap Z Z -> (tid -> C) -> Prop) (inside : C -> option Opcode).
  Context (Hkind : wakers_differ N kind).
  Context (HA : forall t, (t < N)%nat -> wq_ok (A t)).
  Context (Hapart : forall t u, (t < N)%nat -> (u < N)%nat -> t <> u ->
    A t + 128 <= A u \/ A u + 128 <= A t).

Abbreviation max := (max_shared_owners prim).

  Context (Hmax : 0 <= max <= DATA_MASK).

Abbreviation state := (state self prim max N A kind P inside).
Abbreviation allotment := (allotment self prim max N A kind P inside).
Abbreviation sleeps := (sleeps kind).
Abbreviation conforming := (conforms allotment unsure sleeps).
Abbreviation ghost := (ghost_of phase C).
Abbreviation newer := (newer A).
Abbreviation queued := (queued A).
Abbreviation staged := (staged max A).
Abbreviation marks := (marks A).
Abbreviation footing := (footing self prim A kind).

Section thread.
  Context (t : tid) (Ht : (t < N)%nat) (o : Opcode) (b : bool) (ow : owning) (c : C).

Abbreviation waits := (Waiting o b ow).
Abbreviation proc ls d st := (Proc waits ls d st, None, c).

(** ** Locking the state word *)

(** A thread comes to process the queue. *)
Lemma state_lock g m w ph :
  state g m w -> g t = (ph, None, c) -> home ph = ph -> inside c = None -> md w = Idle -> queue w <> [] ->
  let d := weight g (holders w) in
  allotment (upd g t (Proc ph (queue w) d (Marking None 0), None, c))
    (set_words (<[self := word (first_anchor (A <$> queue w)) true d]> (words m)) m).
Proof using Ht.
  intros Hs Hg Hph Hin Hmd Hne d. destruct (a_part _ _ _ _ _ _ _ _ _ _ _ Hs t) as [Hp1 Hp2 Hp3].
  rewrite Hg in Hp1, Hp2, Hp3. set (x := (Proc ph (queue w) d (Marking None 0), None, c)).
  set (w' := World (queue w) (Busy t (queue w) d (Marking None 0)) (holders w) (teller w)).
  assert (pending w' = pending w) as Epe by (unfold pending; by rewrite Hmd).
  assert (op_of (phase_of x) = op g t) as Eop by (unfold op; by rewrite Hg).
  assert (weight (upd g t x) (holders w') = d) as Ew by (by apply weight_upd).
  exists w'. rewrite <- Ew.
  apply (state_word self prim max N A kind P inside t x g m w w' (weak m)); rewrite ?Hg; try done.
  - rewrite Ew. apply Hs.
  - rewrite Epe. apply Hs.
  - intros l1 u l2 E. rewrite op_upd by (by intros ->). by apply Hs.
  - split; [by unfold placed in *; simpl; rewrite Epe|done|simpl; congruence].
  - pose proof (a_footing _ _ _ _ _ _ _ _ _ _ _ Hs t) as Hf. rewrite Hg in Hf.
    change (footing (upd g t x) m w' t ph). eapply footing_other; [by apply untouched_refl| |exact Hf].
    intros de Hde. apply (reach_world _ w); [by rewrite Epe|done|by apply reach_upd; [rewrite Hg|]].
  - simpl. split; [exists []; split; [done|]; split; [done|apply not_elem_of_nil]|]. split; [done|].
    split; [by rewrite Ew|].
    intros l1 u l2 E. destruct (a_queue _ _ _ _ _ _ _ _ _ _ _ Hs l1 u l2 E) as (en & Hn & _ & _ & Hp).
    exists en. split; [done|]. intros Hl. destruct l1; [|simpl in Hl; lia]. by apply Hp.
  - by eapply jobs_same; [exact Hs|rewrite Hg|].
  - by eapply teller_same; [exact Hs|rewrite Hg|].
  - intros u _. unfold placed. by rewrite Epe.
  - intros u Hu. unfold at_work. rewrite Hmd. destruct (phase_of (g u)); try (intros _; simpl; congruence). done.
  - intros u de _ Hr. apply (reach_world _ w); [by rewrite Epe|done|by apply reach_upd; rewrite ?Hg].
Qed.

(** ** Leaving the queue *)

(** The thread's entry is not in the queue any more: the links of an entry
    change, possibly, and the state word. *)
Lemma state_withdraw g m v en en' ent w ls d st l1 l2 md' ph' :
  let m' := set_entries (<[wq_entry (A v) := en']> (entries m))
    (set_words (<[self := word (first_anchor (A <$> l1 ++ l2)) (is_busy md') (weight g (holders w))]> (words m)) m) in
  let w' := World (l1 ++ l2) md' (holders w) (teller w) in
  state g m w -> g t = proc ls d st -> md w = Busy t ls d st -> limbo_free st ->
  queue w = l1 ++ t :: l2 -> v ∈ queue w -> node m (A v) en -> core en' = core en -> node m' (A t) ent ->
  home ph' = Built ent -> at_work w' t ph' -> limbo md' = [] -> (forall u, processes md' u -> u = t) ->
  (forall k1 u k2, l1 ++ l2 = k1 ++ u :: k2 -> entry_is m' (queued (op g u) k1 k2) (A u)) ->
  snapshot max A g m' w' -> allotment (upd g t (ph', None, c)) m'.
Proof using HA Hapart Hkind Ht.
  intros m' w' Hs Hg Hmd Hst Eq Hv Hn Hcore Hnt Hhome Hwork Hlimbo Honly Hq Hsnap. set (x := (ph', None, c)).
  destruct (a_part _ _ _ _ _ _ _ _ _ _ _ Hs t) as [Hp1 Hp2 Hp3]. rewrite Hg in Hp1, Hp2, Hp3.
  assert (pending w = l1 ++ t :: l2) as Epe by (unfold pending; by rewrite Hmd, limbo_free_nil, app_nil_r).
  assert (pending w' = l1 ++ l2) as Epe' by (unfold pending; simpl; by rewrite Hlimbo, app_nil_r).
  pose proof (a_nodup _ _ _ _ _ _ _ _ _ _ _ Hs) as Hnd. rewrite Epe in Hnd.
  assert (l1 ++ t :: l2 ≡ₚ t :: l1 ++ l2) as Hperm by (symmetry; apply Permutation_middle).
  rewrite Hperm in Hnd. simpl in Hnd. apply list.NoDup_cons in Hnd as [Hni Hnd].
  rewrite elem_of_app in Hni. assert (t ∉ pending w') as Hnp by (rewrite Epe'; auto).
  assert (t ∉ holders w) as Hnh by auto.
  assert (t ∈ pending w) as Htp by (rewrite Epe, Hperm; by left).
  assert (forall u, u <> t -> u ∈ pending w <-> u ∈ pending w') as Hpend.
  { intros u Hne. rewrite Epe', Epe, Hperm, elem_of_cons. clear - Hne. naive_solver. }
  destruct (pending_waits _ _ _ _ _ _ _ _ _ _ _ t Hs Htp) as (_ & _ & _ & _ & Htl).
  assert (forall l, t ∉ l -> weight (upd g t x) l = weight g l) as Hwt by (intros l Hl; by apply weight_upd).
  assert (v < N)%nat as Hvlt by (eapply structural_lt; [done|left; by apply pending_queue]).
  assert (forall u, (u < N)%nat -> u <> v -> untouched A kind m m' u) as Hun.
  { intros u Hu Huv. split; [done|]. split; [|done]. simpl. rewrite lookup_insert_ne; [done|].
    intros E. destruct (apart N A HA Hapart u v) as [_ Hne']; congruence. }
  exists w'. apply (state_change self prim max N A kind P inside t x g m m' w w'); try done.
  - simpl. rewrite Hwt by done. apply lookup_insert_eq.
  - simpl. rewrite Hwt by done. apply Hs.
  - by rewrite Epe'.
  - intros k1 u k2 E. rewrite op_upd; [by apply Hq|]. intros ->. exfalso. apply Hnp. rewrite Epe'.
    simpl in E. rewrite E. apply elem_of_app. right. by left.
  - split; [|done|intros o' Ho'; by specialize (Hp3 o' Ho')].
    unfold placed. change (phase_of x) with ph'. rewrite Hhome. done.
  - unfold Allotment.footing. change (phase_of x) with ph'. by rewrite Hhome.
  - apply snapshot_upd; [by intros [?|?]|done].
  - intros p j Hj. destruct (decide (p = t)) as [->|Hne]; [by rewrite upd_eq in Hj|]. rewrite upd_ne in Hj by done.
    destruct (job_preserved A m m' w p j) as (?&?&?&?); [|by apply Hs|done].
    intros u Hu. apply (untouched_preserved A kind), Hun; [eapply structural_lt; [done|auto]|].
    intros ->. destruct (pending_waits _ _ _ _ _ _ _ _ _ _ _ v Hs (pending_queue _ _ Hv)) as (_ & _ & _ & _ & ?). congruence.
  - intros u p Hu. destruct (a_teller _ _ _ _ _ _ _ _ _ _ _ Hs u p Hu) as (j & Hj & Hin). exists j. split; [|done].
    rewrite upd_ne; [done|]. intros ->. by rewrite Hg in Hj.
  - intros u Hne. unfold placed. destruct (home (phase_of (g u))) as [? []| |]; by rewrite <- ?Hpend.
  - intros u Hne Hwk. unfold at_work in *. rewrite Hmd in Hwk. destruct (phase_of (g u)); try (by intros ?%Honly). congruence.
  - intros u Hu Hne. pose proof (a_footing _ _ _ _ _ _ _ _ _ _ _ Hs u) as Hf.
    assert (forall de, reach g w u de -> reach (upd g t x) w' u de) as Hr.
    { intros de Hde. apply (reach_world _ w); [by apply Hpend|done|]. apply reach_upd; [by rewrite Hg|done]. }
    destruct (decide (u = v)) as [->|Huv]; [|by eapply footing_other; [apply Hun|exact Hr|]].
    assert (v ∈ pending w) as Hvp by (by apply pending_queue).
    destruct (pending_waits _ _ _ _ _ _ _ _ _ _ _ v Hs Hvp) as (o' & b' & ow' & Ev & Hvt).
    unfold Allotment.footing in Hf |- *. rewrite Ev in Hf |- *. destruct Hf as [(de & Hde & Hshape) Htend].
    assert (de = Start) as -> by (unfold reach in Hde; by rewrite Hvt, decide_True in Hde).
    split; [|by apply (tended_relink self prim A m v en)]. exists Start. split; [auto|].
    by apply (shape_relink A kind m v en).
  - rewrite clients_same by (by rewrite Hg). unfold others. simpl. rewrite delete_insert_eq. apply Hs.
Qed.

Lemma split_app {X} (l1 l2 k1 k2 : list X) u :
  l1 ++ l2 = k1 ++ u :: k2 ->
  (exists k, l1 = k1 ++ u :: k /\ k2 = k ++ l2) \/ (exists k, k1 = l1 ++ k /\ l2 = k ++ u :: k2).
Proof using Type.
  revert k1. induction l1 as [|x l1 IH]; intros k1 E; [right; by exists k1|].
  destruct k1 as [|y k1]; injection E as -> E; [left; by exists l1|].
  destruct (IH k1 E) as [(k & -> & ->)|(k & -> & ->)]; [left|right]; by exists k.
Qed.

(** The entry of the thread that is leaving. *)
Lemma leaving_entry g m ls d st l1 l2 :
  allotment g m -> g t = proc ls d st -> ls = l1 ++ t :: l2 -> exists ent, node m (A t) ent.
Proof using Type.
  intros HI Hg E. destruct (snapshot_entry self prim N A kind P inside t waits _ _ _ _ _ _ _ _ _ _ HI Hg E) as (en & Hn & _).
  by exists en.
Qed.

(** The first mark only. *)
Lemma marks_first m ls :
  (forall u, u ∈ ls -> entry_is m (fun _ => True) (A u)) ->
  (forall u l, ls = u :: l -> entry_is m unmarked (A u)) -> marks m ls None 0.
Proof using Ht.
  intros Hall Hfirst l1 u l2 E. destruct l1 as [|v l1].
  - destruct (Hfirst u l2 E) as (en & Hn & Hu). exists en. split; [done|]. by intros _.
  - destruct (Hall u) as (en & Hn & _); [by eapply in_middle|]. exists en. split; [done|]. simpl. lia.
Qed.

Lemma first_marked m ls b' j u l : marks m ls b' j -> ls = u :: l -> entry_is m unmarked (A u).
Proof using Ht.
  intros Hm E. destruct (Hm [] u l E) as (en & Hn & Hp). exists en. split; [done|].
  destruct b'; [rewrite decide_True in Hp by (simpl; lia); done|]. apply Hp. simpl. lia.
Qed.

(** An entry whose back pointer does not change. *)
Lemma unmarked_frame m u v en en' :
  (u < N)%nat -> (v < N)%nat -> node m (A v) en -> unback en' = unback (set_next (e_next_entry_anchor_ptr en') en) ->
  e_prev_entry_ptr en' = e_prev_entry_ptr en -> entry_is m unmarked (A u) ->
  entry_is (set_entries (<[wq_entry (A v) := en']> (entries m)) m) unmarked (A u).
Proof using Hapart Ht.
  intros Hu Hv Hn Hc Hp (en0 & Hn0 & Hun). destruct (decide (u = v)) as [->|Hne].
  - assert (en0 = en) as -> by (by eapply node_fun). exists en'.
    split; [eapply node_insert; [done|]|unfold unmarked in *; congruence]. destruct en, en'. by injection Hc as [=].
  - apply (entry_is_ne N A Hapart t Ht _ _ _ _ en); [done..|]. by exists en0.
Qed.

(** The neighbours are linked to each other. *)
Lemma queued_bridge m X q l1 l2 f en :
  (forall k1 u k2, X ++ t :: l2 = k1 ++ u :: k2 -> entry_is m (queued (f u) k1 k2) (A u)) ->
  X = l1 ++ [q] -> NoDup (X ++ t :: l2) -> (forall u, u ∈ X ++ t :: l2 -> (u < N)%nat) -> node m (A q) en ->
  forall k1 u k2, X ++ l2 = k1 ++ u :: k2 ->
  entry_is (set_entries (<[wq_entry (A q) := set_next (first_anchor (A <$> l2)) en]> (entries m)) m)
    (queued (f u) k1 k2) (A u).
Proof using Hapart Ht.
  intros Hq EX Hnd Hlt Hn k1 u k2 Ek. assert (q ∈ X) as HqX by (rewrite EX; apply elem_of_app; right; by left).
  assert (q < N)%nat as Hqlt by (apply Hlt, elem_of_app; by left).
  apply list.NoDup_app in Hnd as (HndX & Hdis & _).
  apply split_app in Ek as [(k & Ek & ->)|(k & -> & Ek)].
  - destruct (Hq k1 u (k ++ t :: l2)) as (en0 & Hn0 & Ho & Hx & Hp); [by rewrite Ek, <- app_assoc|].
    destruct (decide (u = q)) as [->|Hne].
    + rewrite Ek in EX, HndX. apply nodup_split in EX as [_ ->]; [|done].
      assert (en0 = en) as -> by (by eapply node_fun). eexists. split; [by eapply node_insert|]. by split.
    + apply (entry_is_ne N A Hapart t Ht _ _ _ _ en); [|done..|].
      { apply Hlt. rewrite Ek, !elem_of_app. left. right. by left. }
      exists en0. split; [done|]. split; [done|]. split; [|done]. rewrite Hx.
      destruct k; [|done]. exfalso. apply Hne. rewrite EX in Ek. by apply app_inj_tail in Ek as [_ ->].
  - destruct (Hq (X ++ t :: k) u k2) as (en0 & Hn0 & Ho & Hx & Hp); [by rewrite Ek, <- app_assoc|].
    apply (entry_is_ne N A Hapart t Ht _ _ _ _ en); [|done| |done|].
    + apply Hlt. rewrite Ek, elem_of_app. right. right. by eapply in_middle.
    + intros ->. apply (Hdis q HqX). right. rewrite Ek. by eapply in_middle.
    + exists en0. split; [done|]. split; [done|]. split; [done|]. intros E0. rewrite EX in E0. by destruct l1.
Qed.

Lemma state_bridge g m ls d l1 q l2 en :
  allotment g m -> g t = proc ls d (Marking None 0) -> ls = (l1 ++ [q]) ++ t :: l2 -> node m (A q) en ->
  exists ent, (t ∉ (l1 ++ [q]) ++ l2) /\ allotment (upd g t (Proc (Built ent) ((l1 ++ [q]) ++ l2) d (Marking None 0), None, c))
    (set_entries (<[wq_entry (A q) := set_next (first_anchor (A <$> l2)) en]> (entries m)) m).
Proof using HA Hapart Hkind Ht.
  intros HI Hg E Hn. destruct (leaving_entry g m _ _ _ _ _ HI Hg E) as [ent Hent].
  destruct (processing self prim N A kind P inside t waits g m _ _ _ _ _ HI Hg) as (w & new & Hs & Hmd & Eq & [Hnew Hnt] & Hne & Hd & Hm).
  set (X := new ++ l1 ++ [q]). assert (queue w = X ++ t :: l2) as Eq' by (by rewrite Eq, E; unfold X; rewrite <- !app_assoc).
  pose proof (a_nodup _ _ _ _ _ _ _ _ _ _ _ Hs) as (Hnd & _ & _)%list.NoDup_app.
  unfold pending in Hnd. rewrite Hmd, app_nil_r, Eq' in Hnd.
  assert (forall u, u ∈ queue w -> (u < N)%nat) as Hlt.
  { intros x Hx. eapply structural_lt; [done|left; by apply pending_queue]. }
  rewrite Eq' in Hlt. assert (q ∈ X) as HqX by (unfold X; rewrite !elem_of_app; right; right; by left).
  assert (q < N)%nat as Hqlt by (apply Hlt, elem_of_app; by left).
  assert (t <> q) as Htq.
  { intros ->. apply list.NoDup_app in Hnd as (_ & Hdis & _). apply (Hdis q HqX). by left. }
  set (m' := set_entries _ m). pose proof (a_queue _ _ _ _ _ _ _ _ _ _ _ Hs) as Hq. rewrite Eq' in Hq.
  assert (forall k1 u k2, X ++ l2 = k1 ++ u :: k2 -> entry_is m' (queued (op g u) k1 k2) (A u)) as Hq'.
  { apply (queued_bridge m X q (new ++ l1)); [done|by unfold X; rewrite app_assoc|done..]. }
  assert (forall u, (u < N)%nat -> entry_is m unmarked (A u) -> entry_is m' unmarked (A u)) as Hun.
  { intros u Hu. by apply (unmarked_frame m u q en). }
  exists ent. set (ls' := (l1 ++ [q]) ++ l2). split.
  { pose proof Hnd as Hnd'. apply (list.NoDup_app X) in Hnd' as (_ & Hdis & [Hni _]%list.NoDup_cons). unfold ls'.
    rewrite elem_of_app. intros [Hin|?]; [|done]. apply (Hdis t); [unfold X; apply elem_of_app; by right|by left]. }
  assert (set_entries (<[wq_entry (A q) := set_next (first_anchor (A <$> l2)) en]> (entries m))
    (set_words (<[self := word (first_anchor (A <$> X ++ l2)) (is_busy (Busy t ls' d (Marking None 0))) (weight g (holders w))]> (words m)) m) = m') as Em.
  { simpl. rewrite (insert_id (words m)); [by destruct m|].
    pose proof (a_word _ _ _ _ _ _ _ _ _ _ _ Hs) as Hw. rewrite Hmd, Eq' in Hw. unfold X in *. by destruct new, l1. }
  rewrite <- Em. eapply (state_withdraw g m q en _ ent w ls d); rewrite ?Em; try done.
  - rewrite Eq'. apply elem_of_app. by left.
  - eapply node_insert_ne; [exact Hent|exact Hn|]. destruct (Hapart t q); [apply Hlt, elem_of_app; right; by left|done..|lia|lia].
  - simpl. assert (X ++ l2 = new ++ ls') as EX by (unfold X, ls'; by rewrite <- !app_assoc). split; [|split; [by destruct l1|split; [done|]]].
    + exists new. split; [done|]. split; [|done]. rewrite Forall_forall in Hnew |- *. intros u Hu.
      apply Hun; [|by apply Hnew]. apply Hlt. unfold X. rewrite !elem_of_app. left. left. by apply list_elem_of_In.
    + apply marks_first.
      * intros u Hu. apply list_elem_of_split in Hu as (k1 & k2 & Ek).
        destruct (Hq' (new ++ k1) u k2) as (en0 & Hn0 & _); [by rewrite EX, Ek, <- app_assoc|]. by exists en0.
      * intros u l El. apply Hun.
        { apply Hlt. rewrite !elem_of_app. unfold ls' in El. left. unfold X. rewrite !elem_of_app. right.
          destruct l1; injection El as -> _; [right|left]; by left. }
        destruct (l1 ++ [q]) as [|x k] eqn:Ex; [by destruct l1|]. unfold ls' in El. rewrite ?Ex in El.
        injection El as -> _. by eapply (first_marked m ls).
Qed.

(** The newest entry leaves: the next one, if there is one, becomes the newest
    one. *)
Definition left_to (ent : Entry) (l : list tid) (d : Z) : phase :=
  match l with
  | [] => Built ent
  | _ => Proc (Built ent) l d (Marking None 0)
  end.

Lemma state_succeed g m l d st :
  allotment g m -> g t = proc (t :: l) d st -> st = Marking None 0 /\ l = [] \/ st = Bypassed -> is_data d ->
  words m !! self = Some (word (first_anchor (A <$> t :: l)) true d) ->
  exists ent, (t ∉ l) /\ allotment (upd g t (left_to ent l d, None, c))
    (set_words (<[self := word (first_anchor (A <$> l)) (negb (bool_decide (l = []))) d]> (words m)) m).
Proof using HA Hapart Hkind Hmax Ht.
  intros HI Hg Hst Hd Hw. destruct (leaving_entry g m _ _ _ [] l HI Hg eq_refl) as [ent Hent].
  destruct (processing self prim N A kind P inside t waits g m _ _ _ _ _ HI Hg) as (w & new & Hs & Hmd & Eq & _ & _ & _ & Hm).
  assert (is_addr (first_anchor (A <$> t :: l))) as Ha by (by apply anchor_addr_is_addr, HA).
  destruct (state_word_inj self prim max N A kind P inside HA Hmax _ _ _ _ _ _ Hs Hw Ha Hd) as (Ea & _ & Ed & _).
  assert (new = []) as -> by (by eapply (anchor_new self prim N A kind P inside HA Hapart t Ht g m w new (t :: l))).
  simpl in Eq. exists ent. split.
  { pose proof (a_nodup _ _ _ _ _ _ _ _ _ _ _ Hs) as Hnd. unfold pending in Hnd. rewrite Eq, <- app_assoc in Hnd.
    apply list.NoDup_cons in Hnd as [Hni _]. intros Hin. apply Hni, elem_of_app. by left. }
  set (md' := match l with [] => Idle | _ => Busy t l d (Marking None 0) end).
  assert (set_entries (<[wq_entry (A t) := ent]> (entries m))
    (set_words (<[self := word (first_anchor (A <$> [] ++ l)) (is_busy md') (weight g (holders w))]> (words m)) m) =
    set_words (<[self := word (first_anchor (A <$> l)) (negb (bool_decide (l = []))) d]> (words m)) m) as Em.
  { rewrite insert_id by apply Hent. rewrite Ed. unfold md'. by destruct l. }
  simpl app in Em. rewrite <- Em. apply (state_withdraw g m t ent ent ent w (t :: l) d st [] l md'); simpl app; rewrite ?Em; try done.
  - by destruct Hst as [[-> _] | ->].
  - rewrite Eq. by left.
  - by destruct l.
  - unfold md'. destruct l; [|done]. simpl. by intros [].
  - unfold md'. by destruct l.
  - unfold md'. destruct l; by intros u.
  - intros k1 u k2 Ek. destruct (a_queue _ _ _ _ _ _ _ _ _ _ _ Hs (t :: k1) u k2) as (en & Hn & Ho & Hx & _).
    { by rewrite Eq, Ek. }
    exists en. split; [done|]. split; [done|]. split; [done|]. intros ->. simpl in Ek. rewrite Ek in Hst, Hm, Eq.
    destruct Hst as [[_ [=]] | ->]. destruct Hm as [_ Hu]. destruct (Hu t u k2 eq_refl) as (en1 & Hn1 & Hp).
    assert (en1 = en) as -> by (by eapply node_fun). done.
  - unfold md'. simpl. destruct l as [|v k]; [by intros [] ? ?|].
    destruct Hst as [[_ [=]] | ->]. destruct Hm as [_ Hu].
    split; [exists []; split; [done|]; split; [done|apply not_elem_of_nil]|]. split; [done|].
    split; [simpl; lia|]. apply marks_first.
    + intros u (k1 & k2 & Ek)%list_elem_of_split.
      destruct (a_queue _ _ _ _ _ _ _ _ _ _ _ Hs (t :: k1) u k2) as (en & Hn & _); [by rewrite Eq, Ek|]. by exists en.
    + intros u k' [= -> ->]. exact (Hu t u k' eq_refl).
Qed.

(** The state word has changed: the thread starts over, with a new
    snapshot. *)
Lemma state_restart g m ls d st :
  allotment g m -> g t = proc ls d st -> limbo_free st ->
  exists new d', words m !! self = Some (word (first_anchor (A <$> new ++ ls)) true d') /\ is_data d' /\
    (t ∉ new) /\ (forall u, u ∈ new ++ ls -> (u < N)%nat) /\
    allotment (upd g t (proc (new ++ ls) d' (Marking None 0))) m.
Proof using HA Hapart Hkind Hmax Ht.
  intros HI Hg Hst.
  destruct (processing self prim N A kind P inside t waits g m _ _ _ _ _ HI Hg) as (w & new & Hs & Hmd & Eq & [Hnew Hnt] & Hne & _).
  destruct (weight_bounds self prim max N A kind P inside Hmax g m w Hs) as [Hd' _].
  set (d' := weight g (holders w)) in *. pose proof (a_word _ _ _ _ _ _ _ _ _ _ _ Hs) as Hw. rewrite Hmd, Eq in Hw.
  exists new, d'. split; [done|]. split; [done|]. split; [done|].
  split; [intros u Hu; eapply structural_lt; [done|left; apply pending_queue; by rewrite Eq]|].
  set (st' := Marking None 0). set (md' := Busy t (new ++ ls) d' st').
  assert (set_weak (weak m) (set_words (<[self := word (first_anchor (A <$> new ++ ls)) (is_busy md')
    (weight g [] + weight g (holders w))]> (words m)) m) = m) as Em.
  { change (weight g [] + weight g (holders w)) with d'. simpl. rewrite insert_id by done. by destruct m. }
  exists (World (new ++ ls) md' ([] ++ holders w) (taught t w [])). rewrite <- Em.
  apply (state_grant self prim N A kind P inside HA Hapart t Ht g m w [] (new ++ ls) md' _ (Proc waits ls d st) c); try done.
  - by rewrite Hmd.
  - apply not_elem_of_nil.
  - unfold pending. by rewrite Hmd, limbo_free_nil, Eq.
  - apply Hs.
  - rewrite <- Eq. apply Hs.
  - simpl. split; [exists []; split; [done|]; split; [done|apply not_elem_of_nil]|].
    split; [by destruct new|]. split; [done|]. apply marks_first.
    + intros u (k1 & k2 & Ek)%list_elem_of_split.
      destruct (a_queue _ _ _ _ _ _ _ _ _ _ _ Hs k1 u k2) as (en & Hn & _); [by rewrite Eq, Ek|]. by exists en.
    + intros u l El. destruct (a_queue _ _ _ _ _ _ _ _ _ _ _ Hs [] u l) as (en & Hn & _ & _ & Hp); [by rewrite Eq, El|].
      exists en. split; [done|]. by apply Hp.
Qed.

(** The back pointer of the next older entry skips the thread's entry. *)
Definition bypassing (l1 : list tid) : stage :=
  match l1 with
  | [] => Bypassed
  | _ => Marking None 0
  end.

Lemma state_bypass g m ls d l1 v l2 en :
  allotment g m -> g t = proc ls d (Marking None 0) -> ls = l1 ++ t :: v :: l2 -> node m (A v) en ->
  allotment (upd g t (proc ls d (bypassing l1))) (set_entries (<[wq_entry (A v) := set_prev (newer l1) en]> (entries m)) m).
Proof using HA Hapart Hkind Ht.
  intros HI Hg E Hn.
  destruct (processing self prim N A kind P inside t waits g m _ _ _ _ _ HI Hg) as (w & new & Hs & Hmd & Eq & [Hnew Hnt] & Hne & Hd & Hm).
  pose proof (a_nodup _ _ _ _ _ _ _ _ _ _ _ Hs) as (Hnd & _ & _)%list.NoDup_app.
  unfold pending in Hnd. rewrite Hmd, app_nil_r in Hnd.
  assert (forall u, u ∈ queue w -> (u < N)%nat) as Hlt.
  { intros x Hx. eapply structural_lt; [done|left; by apply pending_queue]. }
  assert (queue w = ((new ++ l1) ++ [t]) ++ v :: l2) as Eq' by (by rewrite Eq, E, <- !app_assoc).
  assert (v ∈ queue w) as Hv by (by eapply in_middle).
  assert (forall P' u, u ∈ queue w -> u <> v -> entry_is m P' (A u) ->
    entry_is (set_entries (<[wq_entry (A v) := set_prev (newer l1) en]> (entries m)) m) P' (A u)) as Hframe.
  { intros P' u Hu Hne'. apply (entry_is_ne N A Hapart t Ht _ _ _ _ en); auto. }
  rewrite Eq' in Hnd. assert (v ∉ (new ++ l1) ++ [t]) as Hni.
  { apply list.NoDup_app in Hnd as (_ & Hdis & _). intros Hin. apply (Hdis v Hin). by left. }
  exists (World (queue w) (Busy t ls d (bypassing l1)) (holders w) (teller w)).
  eapply (state_relink self prim N A kind P inside HA Hapart t Ht waits g m v en); try done.
  - by apply pending_queue.
  - unfold pending. rewrite Hmd. by destruct l1.
  - intros k1 u k2 Ek. destruct (a_queue _ _ _ _ _ _ _ _ _ _ _ Hs k1 u k2 Ek) as (en0 & Hn0 & Ho & Hx & Hp).
    destruct (decide (u = v)) as [->|Huv]; [|apply Hframe; [by eapply in_middle|done|by exists en0]].
    assert (en0 = en) as -> by (by eapply node_fun). eexists. split; [by eapply node_insert|].
    split; [done|]. split; [done|]. rewrite Eq' in Ek. apply nodup_split in Ek as [<- _]; [|done].
    intros E0. by destruct (new ++ l1).
  - exists new. split; [done|]. split; [|done]. rewrite Forall_forall in Hnew |- *. intros u Hu.
    apply list_elem_of_In in Hu as Hu'. apply Hframe; [rewrite Eq; apply elem_of_app; by left| |by apply Hnew].
    intros ->. apply Hni. rewrite !elem_of_app. by left; left.
  - assert (forall u, u ∈ ls -> entry_is (set_entries (<[wq_entry (A v) := set_prev (newer l1) en]> (entries m)) m) (fun _ => True) (A u)) as Hall.
    { intros u Hu. destruct (decide (u = v)) as [->|Huv].
      - eexists. by split; [by eapply node_insert|].
      - apply Hframe; [rewrite Eq; apply elem_of_app; by right|done|].
        apply list_elem_of_split in Hu as (k1 & k2 & Ek). destruct (Hm k1 u k2 Ek) as (en0 & Hn0 & _). by exists en0. }
    assert (marks (set_entries (<[wq_entry (A v) := set_prev (newer l1) en]> (entries m)) m) ls None 0) as Hm'.
    { apply marks_first; [done|]. intros u l El. apply Hframe; [rewrite Eq, El, elem_of_app; right; by left| |by eapply (first_marked m ls)].
      intros ->. apply Hni. rewrite E in El. rewrite !elem_of_app. destruct l1; injection El as -> _; [right; by left|left; right; by left]. }
    destruct l1 as [|x l1]; simpl; [|exact Hm']. split; [exact Hm'|]. intros x y k Ek. simpl in E. rewrite E in Ek.
    injection Ek as <- <- _. eexists. split; [by eapply node_insert|done].
Qed.

(** ** Taking the units *)

(** The units have been granted, and the result is final: nobody else will
    touch the entry. *)
Lemma state_keep g m :
  allotment g m -> g t = (waits, None, c) -> present ow = true ->
  exists en, node m (A t) en /\ e_opcode en = o /\ plain o = true /\
    ((Z.land (e_state en) RESULT_FINALIZED =? RESULT_FINALIZED) = true ->
     allotment (upd g t (Keeping o en, None, c)) m).
Proof using HA Hapart Hkind Ht.
  intros (w & Hs) Hg Hpr. destruct (a_part _ _ _ _ _ _ _ _ _ _ _ Hs t) as [Hp1 Hp2 Hp3].
  pose proof (a_footing _ _ _ _ _ _ _ _ _ _ _ Hs t) as Hf. rewrite Hg in Hp1, Hp2, Hp3, Hf.
  destruct Hf as [(de & Hde & Hshape) Htend]. destruct (Htend Hpr) as [(en & Hn & Htag) _].
  destruct Hp1 as [Ho Hp1]. exists en. split; [done|]. split; [apply Htag|]. split; [done|]. intros Hfin.
  assert (live (A t) (monitor_of kind t) 0 ow de m) as (_ & en0 & wk & Hn0 & (_ & Hst & _) & _) by (by destruct ow).
  assert (en0 = en) as -> by (by eapply node_fun). rewrite Hst in Hfin.
  destruct (entry_state_final 0 (ltac:(done) : is_u8 0) (is_set de) wk (is_final de)) as [Ef _]. rewrite Ef in Hfin.
  assert (~ (t ∈ pending w \/ teller w t <> None)) as Hno.
  { intros Hst'. assert (is_final de = false) by (by eapply structural_nonfinal). congruence. }
  assert (teller w t = None) as Htl by (destruct (teller w t); [by destruct Hno; right|done]).
  exists w. eapply (state_step self prim max N A kind P inside t _ g m m w); rewrite ?Hg; try done.
  split; try done.
  - split; [done|]. split; [|done]. destruct Hp1 as [[? _]|?]; [|done]. by destruct Hno; left.
  - intros o' Ho'. by specialize (Hp3 o' Ho').
Qed.

End thread.

End unlinking.
