(* ===== verification/Withdrawing.v ===== *)
(** * Giving up, under all interleavings

    [force_remove_wait_queue_entry] of [SyncPrimitive.v], and the drop of a
    wait queue whose owner still waits, shown to conform to the invariant of
    [Allotment.v]: the owner unlinks its entry and processes the queue, since
    the oldest entry that is left may fit now; or it finds that the units have
    been granted, waits until the result is final, and gives the units back.
    This is what happens when the future of a waiting task is dropped. *)

From S2P Require Import Prelude Prog Word Opcode Memory WaitQueue Geometry Results.
From S2P Require Import Queue Grant Interleaving Concurrent Delivery Areas Private Telling SyncPrimitive Enqueue Release Crate Allotment Obtaining Process Releasing Unlinking.

Section withdrawing.
  Context {C : Type} (self : Z) (prim : Primitive) `{SyncPrimitive prim} `{DropCallbacks}.
  Context (Hdrop : forall e, drop_callback prim e = force_remove_wait_queue_entry prim e).
  Context (N : nat) (A : tid -> Z) (kind : waiting_mode).
  Context (P : gmap Z Z -> (tid -> C) -> Prop) (inside : C -> option Opcode).
  Context (Hkind : wakers_differ N kind).
  Context (HA : forall t, (t < N)%nat -> wq_ok (A t)).
  Context (Hapart : forall t u, (t < N)%nat -> (u < N)%nat -> t <> u ->
    A t + 128 <= A u \/ A u + 128 <= A t).

Abbreviation max := (max_shared_owners prim).

  Context (Hmax : 0 <= max <= DATA_MASK).

Abbreviation state := (state self prim max N A kind P inside).
Abbreviation allotment := (allotment self prim max N A kind P inside).
Abbreviation sleeps := (sleeps kind).
Abbreviation conforming := (conforms allotment unsure sleeps).
Abbreviation ghost := (ghost_of phase C).
Abbreviation newer := (newer A).

Section thread.
  Context (t : tid) (Ht : (t < N)%nat) (o : Opcode) (ow : owning) (c : C).
  Context (Hpr : present ow = true) (Hin : inside c = None) (Hsh : o = Shared -> max < DATA_MASK).

Abbreviation phase_in := (Waiting o true ow).
Abbreviation waits := (phase_in, None, c).
Abbreviation proc ls d st := (Proc phase_in ls d st, None, c).

(** ** What the thread reads *)

(** The fields of its entry that nobody changes. *)
Lemma conforms_own_field n {B} (field : Entry -> B) v :
  (forall en, tagged self prim o en -> e_pollable en = true -> field en = v) ->
  conforming n t (read_field (wq_entry (A t)) field) waits (fun x y => x = v /\ y = waits).
Proof using Hpr.
  intros Hf. apply conforms_read_field. intros g m Hg (w & Hs).
  pose proof (a_footing _ _ _ _ _ _ _ _ _ _ _ Hs t) as Hfoot. rewrite Hg in Hfoot. destruct Hfoot as [_ Htend].
  destruct (Htend Hpr) as [(en & Hn & Htag) Hpo]. destruct (Hpo eq_refl) as (en' & He & Hp).
  assert (en' = en) as -> by (destruct Hn as (_ & _ & He' & _); congruence).
  exists en. split; [apply Hn|]. apply kept_same; [by exists w|]. rewrite Hg. auto.
Qed.

Lemma conforms_own_entry_ptr n :
  conforming n t (to_entry_ptr (anchor_addr (A t))) waits (fun e x => e = wq_entry (A t) /\ x = waits).
Proof using HA Hpr Ht.
  apply conforms_to_entry_ptr; [apply _|by apply HA| |done]. intros g m Hg (w & Hs).
  pose proof (a_footing _ _ _ _ _ _ _ _ _ _ _ Hs t) as Hfoot. rewrite Hg in Hfoot. destruct Hfoot as [_ Htend].
  destruct (Htend Hpr) as [(en & Hn & _) _]. apply Hn.
Qed.

(** When nobody waits, the units have been granted. *)
Definition glimpsed (v : Z) : Prop :=
  exists a b d, v = word a b d /\ is_addr a /\ is_data d /\ (b = true -> a <> 0) /\ (a = 0 -> giveable o v).

Lemma granted_giveable g m w :
  state g m w -> g t = waits -> t ∉ pending w ->
  giveable o (word (first_anchor (A <$> queue w)) (is_busy (md w)) (weight g (holders w))).
Proof using HA Hmax Hsh Ht.
  intros Hs Hg Hni. pose proof (pt_placed _ _ _ _ (a_part _ _ _ _ _ _ _ _ _ _ _ Hs t)) as Hp. rewrite Hg in Hp.
  destruct Hp as [_ [[? _]|Hh]]; [done|].
  assert (op g t = o) as Eo by (unfold op; by rewrite Hg).
  pose proof (holder_giveable self prim N A kind P inside HA Hmax t Ht g m w t Hs Hh) as Hgive.
  rewrite Eo in Hgive. auto.
Qed.

Lemma state_glimpsed g m :
  allotment g m -> g t = waits -> exists v, words m !! self = Some v /\ glimpsed v.
Proof using HA Hmax Hsh Ht.
  intros (w & Hs) Hg. destruct (state_readable self prim max N A kind P inside HA Hmax g m w Hs) as (v & Hv & a & b & d & -> & Ha & Hd & Hb).
  eexists. split; [exact Hv|]. exists a, b, d. repeat split; [apply Ha..|apply Hd|apply Hd|done|]. intros E0.
  destruct (state_word_inj self prim max N A kind P inside HA Hmax _ _ _ _ _ _ Hs Hv Ha Hd) as (-> & -> & -> & Hq).
  destruct (Hq E0) as [Hq1 Hq2]. eapply granted_giveable; [exact Hs|done|].
  unfold pending. rewrite Hq1, Hq2. apply not_elem_of_nil.
Qed.

Lemma conforms_glimpse n : conforming n t (load self) waits (fun v x => glimpsed v /\ x = waits).
Proof using HA Hmax Hsh Ht.
  apply conforms_load. intros g m Hg HI. destruct (state_glimpsed g m HI Hg) as (v & Hv & Hgl).
  exists v. split; [done|]. apply kept_same; [done|]. by rewrite Hg.
Qed.

(** Locking the state word. *)
Definition seized (v : Z) (ls : list tid) (d : Z) : Prop :=
  v = word (first_anchor (A <$> ls)) false d /\ is_data d /\ ls <> [] /\ (forall u, u ∈ ls -> (u < N)%nat) /\
  (t ∈ ls \/ giveable o v).

Lemma conforms_seize n a d :
  is_addr a -> is_data d -> a <> 0 ->
  conforming n t (compare_exchange self (word a false d) (word a true d)) waits (fun r x =>
    match r with
    | Ok _ => exists ls, seized (word a false d) ls d /\ x = proc ls d (Marking None 0)
    | Err v => glimpsed v /\ x = waits
    end).
Proof using HA Hin Hmax Hsh Ht.
  intros Ha Hd Hne. apply conforms_compare_exchange. intros g m Hg HI.
  destruct (state_glimpsed g m HI Hg) as (v & Hv & Hgl). exists v. split; [done|]. split.
  - intros ->. destruct HI as (w & Hs).
    destruct (state_word_inj self prim max N A kind P inside HA Hmax _ _ _ _ _ _ Hs Hv Ha Hd) as (-> & Eb & -> & _).
    assert (md w = Idle) as Hmd by (by destruct (md w)).
    assert (queue w <> []) as Hq by (by intros E; rewrite E in Hne).
    eexists. split; [by apply (state_lock self prim N A kind P inside t Ht c g m w)|].
    exists (queue w). split; [|done]. split; [done|]. split; [done|]. split; [done|]. split.
    { intros u Hu. eapply structural_lt; [done|left; by apply pending_queue]. }
    destruct (decide (t ∈ queue w)) as [|Hni]; [by left|right].
    pose proof (granted_giveable g m w Hs Hg) as Hgive. rewrite Hmd in Hgive. apply Hgive.
    unfold pending. by rewrite Hmd, app_nil_r.
  - intros _. apply kept_same; [done|]. by rewrite Hg.
Qed.

(** ** Unlinking the entry *)

(** What is left of the queue, once the entry is unlinked; or the new
    snapshot. *)
Definition removed (ls : list tid) (r : Result (Z * bool) Z) (x : ghost) : Prop :=
  match r with
  | Ok (v, rm) =>
      rm = true /\ exists ent l d, v = word (first_anchor (A <$> l)) (negb (bool_decide (l = []))) d /\ is_data d /\
        (forall u, u ∈ l -> (u < N)%nat) /\ (t ∉ l) /\ x = (left_to ent l d, None, c)
  | Err v =>
      exists new d, v = word (first_anchor (A <$> new ++ ls)) true d /\ is_data d /\
        (forall u, u ∈ new ++ ls -> (u < N)%nat) /\ (t ∉ new) /\ x = proc (new ++ ls) d (Marking None 0)
  end.

(** The address part of the state word. *)
Lemma queue_is_addr ls : (forall u, u ∈ ls -> (u < N)%nat) -> is_addr (first_anchor (A <$> ls)).
Proof using HA.
  intros Hls. destruct ls as [|u l]; [apply is_addr_0|]. apply anchor_addr_is_addr, HA, Hls. by left.
Qed.

(** The newest entry leaves. *)
Lemma conforms_succeed n l d st :
  (forall u, u ∈ t :: l -> (u < N)%nat) -> is_data d -> st = Marking None 0 /\ l = [] \/ st = Bypassed ->
  let v := word (first_anchor (A <$> l)) (negb (bool_decide (l = []))) d in
  conforming n t (compare_exchange self (word (first_anchor (A <$> t :: l)) true d) v) (proc (t :: l) d st)
    (fun r x => removed (t :: l) (match r with Ok _ => Ok (v, true) | Err w => Err w end) x).
Proof using HA Hapart Hkind Hmax Ht.
  intros Hls Hd Hst v. apply conforms_compare_exchange. intros g m Hg HI. pose proof HI as (w & Hs).
  eexists. split; [apply Hs|]. split.
  - intros E. pose proof (a_word _ _ _ _ _ _ _ _ _ _ _ Hs) as Hw. rewrite E in Hw.
    destruct (state_succeed self prim N A kind P inside Hkind HA Hapart Hmax t Ht o true ow c g m l d st HI Hg Hst Hd Hw)
      as (ent & Hni & HI'). eexists. split; [exact HI'|]. split; [done|]. exists ent, l, d.
    split; [done|]. split; [done|]. split; [intros u Hu; apply Hls; by right|done].
  - intros _. destruct (state_restart self prim N A kind P inside Hkind HA Hapart Hmax t Ht o true ow c g m _ _ _ HI Hg)
      as (new & d' & Hw & Hd' & Hnt & Hlt & HI').
    { by destruct Hst as [[-> _] | ->]. }
    pose proof (a_word _ _ _ _ _ _ _ _ _ _ _ Hs) as Hw'. rewrite Hw in Hw'. injection Hw' as <-.
    eexists. split; [exact HI'|]. by exists new, d'.
Qed.

(** An entry other than the newest one leaves. *)
Lemma conforms_bridge n d l1 q l2 :
  let ls := (l1 ++ [q]) ++ t :: l2 in
  (forall u, u ∈ ls -> (u < N)%nat) ->
  conforming n t (update_next_entry_anchor_ptr (wq_entry (A q)) (first_anchor (A <$> l2)))
    (proc ls d (Marking None 0))
    (fun _ x => exists ent, (t ∉ (l1 ++ [q]) ++ l2) /\ x = (left_to ent ((l1 ++ [q]) ++ l2) d, None, c)).
Proof using HA Hapart Hkind Ht.
  intros ls Hls. eapply conforms_then; [apply _|apply conforms_debug_assert; [|done]|].
  { apply Z.eqb_eq. apply (queue_is_addr l2). intros u Hu. apply Hls. unfold ls. rewrite elem_of_app. right. by right. }
  intros n1 _. apply conforms_update_field. intros g m Hg HI.
  destruct (snapshot_entry self prim N A kind P inside t phase_in g m ls d (Marking None 0) None c l1 q (t :: l2))
    as (en & Hn & _); [done|done|unfold ls; by rewrite <- app_assoc|].
  exists en. split; [apply Hn|].
  destruct (state_bridge self prim N A kind P inside Hkind HA Hapart t Ht o true ow c g m ls d l1 q l2 en HI Hg eq_refl Hn)
    as (ent & Hni & HI').
  eexists. split; [exact HI'|]. exists ent. split; [done|]. by destruct l1.
Qed.

(** What the thread finds at its entry. *)
Lemma conforms_prev_mark n ls d j l1 l2 :
  ls = l1 ++ t :: l2 -> (length l1 <= j)%nat ->
  conforming n t (prev_entry_ptr (wq_entry (A t))) (proc ls d (Marking None j))
    (fun e x => e = newer l1 /\ x = proc ls d (Marking None 0)).
Proof using HA Hapart Ht.
  intros E Hj. apply conforms_read_field. intros g m Hg HI.
  destruct (processing self prim N A kind P inside t phase_in g m _ _ _ _ _ HI Hg) as (w & new & _ & _ & _ & _ & _ & _ & Hm).
  destruct (Hm l1 t l2 E) as (en & Hn & Hp). exists en. split; [apply Hn|]. eexists. split; [|split; [by apply Hp|reflexivity]].
  eapply (state_stage self prim N A kind P inside HA Hapart t Ht phase_in); [done|done|done|done|].
  intros Hm' k1 u k2 Ek. destruct (Hm' k1 u k2 Ek) as (en' & Hn' & Hp'). exists en'. split; [done|]. intros Hl. apply Hp'. lia.
Qed.

Lemma conforms_bypass n ls d l1 v l2 :
  ls = l1 ++ t :: v :: l2 ->
  conforming n t (update_prev_entry_ptr (wq_entry (A v)) (newer l1)) (proc ls d (Marking None 0))
    (fun _ x => x = proc ls d (bypassing l1)).
Proof using HA Hapart Hkind Ht.
  intros E. apply conforms_update_field. intros g m Hg HI.
  destruct (snapshot_entry self prim N A kind P inside t phase_in g m ls d (Marking None 0) None c (l1 ++ [t]) v l2)
    as (en & Hn & _); [done|done|by rewrite E, <- app_assoc|].
  exists en. split; [apply Hn|]. eexists. split; [|done]. by eapply state_bypass.
Qed.

(** The stage once the back pointer of the next entry, if there is one, skips
    the thread's entry. *)
Definition bypassed (l1 l2 : list tid) : stage :=
  match l2 with
  | [] => Marking None 0
  | _ => bypassing l1
  end.

Lemma conforms_next_link n ls d st l1 l2 :
  ls = l1 ++ t :: l2 ->
  conforming n t (next_entry_anchor_ptr (wq_entry (A t))) (proc ls d st)
    (fun a x => a = first_anchor (A <$> l2) /\ x = proc ls d st).
Proof using Type.
  intros E. apply conforms_read_field. intros g m Hg HI.
  destruct (snapshot_entry self prim N A kind P inside t phase_in g m ls d st None c l1 t l2 HI Hg E) as (en & Hn & _ & _ & Hx).
  exists en. split; [apply Hn|]. apply kept_same; [done|]. by rewrite Hg.
Qed.

Lemma conforms_owner_of n ls d st l1 v l2 :
  ls = l1 ++ v :: l2 ->
  conforming n t (to_wait_queue_ptr (wq_entry (A v))) (proc ls d st)
    (fun q x => q = A v /\ x = proc ls d st).
Proof using Type.
  intros E. conforms_by (fun off x => usize_sub (wq_entry (A v)) off = A v /\ x = proc ls d st).
  - apply conforms_read_field. intros g m Hg HI.
    destruct (snapshot_entry self prim N A kind P inside t phase_in g m ls d st None c l1 v l2 HI Hg E) as (en & Hn & _).
    exists en. split; [apply Hn|]. apply kept_same; [done|]. rewrite Hg. split; [|done].
    destruct Hn as (Hok & _ & _ & Hoff). by rewrite Hoff, entry_offset_back.
  - intros n1 off x _ [E' ->]. by apply conforms_ret.
Qed.

Lemma conforms_remove_entry n ls d j l1 l2 res :
  ls = l1 ++ t :: l2 -> (forall u, u ∈ ls -> (u < N)%nat) -> is_data d -> (length l1 <= j)%nat ->
  conforming n t
    (remove_entry self (word (first_anchor (A <$> ls)) true d) (wq_entry (A t)) (wq_entry (A t)) (first_entry (A <$> l2)) res)
    (proc ls d (Marking None j)) (fun r x => r.2 = true /\ removed ls r.1 x).
Proof using HA Hapart Hkind Hmax Ht.
  intros E Hls Hd Hj. unfold remove_entry. rewrite Z.eqb_refl.
  assert (forall u, u ∈ ls -> (wq_entry (A u) =? 0) = false) as Hnz by (intros u Hu; by apply wq_entry_eqb_0, HA, Hls).
  assert (forall u, u ∈ l2 -> u ∈ ls) as Hl2 by (intros u Hu; rewrite E, elem_of_app; right; by right).
  assert (is_addr (first_anchor (A <$> ls))) as Ha by (by apply queue_is_addr).
  conforms_seq; [by eapply conforms_prev_mark|]. intros n1 prev x _ [-> ->].
  conforms_by (fun _ x => x = proc ls d (bypassed l1 l2)).
  { destruct l2 as [|v l2]; [by apply conforms_ret|]. cbn [fmap list_fmap first_entry].
    rewrite Hnz by (apply Hl2; by left). by eapply conforms_bypass. }
  intros n2 [] x _ ->.
  conforms_by (removed ls); [|intros n3 r x _ Hr; by apply conforms_ret].
  destruct l1 as [|q l1 _] using rev_ind.
  - change (newer []) with 0. cbn [negb Z.eqb]. simpl in E. subst ls. destruct l2 as [|v l2]; simpl bypassed.
    + simpl Z.eqb. cbn [negb]. rewrite word_land_data by done.
      conforms_seq; [by apply (conforms_succeed _ [] d); [..|left]|]. intros n3 [r|r] x _ Hr; by apply conforms_ret.
    + cbn [fmap list_fmap first_entry]. rewrite Hnz by (apply Hl2; by left). cbn [negb].
      assert (wq_ok (A v)) as Hok by (apply HA, Hls; right; by left).
      conforms_seq; [by apply (conforms_owner_of _ (t :: v :: l2) _ _ [t] v l2)|]. intros n3 q x _ [-> ->].
      conforms_by (fun a x => a = (anchor_addr (A v), anchor_addr (A v) - A v) /\ x = proc (t :: v :: l2) d Bypassed).
      { by apply conforms_anchor_ptr; [apply _|..]. }
      intros n4 a x _ [-> ->]. pose proof (anchor_addr_is_addr _ Hok) as Hv.
      eapply conforms_then; [apply _|apply conforms_debug_assert; [|done]|].
      { by rewrite addr_land_not_addr. }
      intros n5 _. rewrite word_land_not_addr, word_lor_addr by done.
      eapply conforms_then; [apply _|apply conforms_debug_assert; [|done]|].
      { by rewrite word_land_locked. }
      intros n6 _. conforms_seq; [by apply (conforms_succeed _ (v :: l2) d); [..|right]|].
      intros n7 [r|r] x _ Hr; by apply conforms_ret.
  - rewrite newer_last, Hnz by (rewrite E, !elem_of_app; left; right; by left). cbn [negb].
    assert (bypassed (l1 ++ [q]) l2 = Marking None 0) as -> by (by destruct l2, l1).
    conforms_seq; [by eapply conforms_next_link|]. intros n3 a x _ [-> ->]. subst ls.
    conforms_seq; [by apply conforms_bridge|]. intros n4 [] x _ (ent & Hni & ->). apply conforms_ret.
    split; [done|]. exists ent, ((l1 ++ [q]) ++ l2), d. split; [by destruct l1|]. split; [done|]. split; [|done].
    intros u Hu. apply Hls. rewrite !elem_of_app in Hu |- *. destruct Hu; [by left|right; by right].
Qed.

(** The search for the entry, from the newest one on. *)
Lemma conforms_search n ls d res :
  let w := word (first_anchor (A <$> ls)) true d in
  (forall u, u ∈ ls -> (u < N)%nat) -> is_data d -> ls <> [] ->
  conforming n t
    (iter_forward (first_entry (A <$> ls)) true (remove_entry self w (wq_entry (A t))) res)
    (proc ls d (Marking None 0))
    (fun r x => (t ∈ ls /\ removed ls r x) \/ ((t ∉ ls) /\ r = res /\ x = proc ls d (Marking None 0))).
Proof using HA Hapart Hkind Hmax Ht.
  intros w Hls Hd Hne.
  assert (forall u, u ∈ ls -> (wq_entry (A u) =? 0) = false) as Hnz by (intros u Hu; by apply wq_entry_eqb_0, HA, Hls).
  conforms_iter (fun s x => exists k1 k2, ls = k1 ++ k2 /\ (t ∉ k1) /\ s = (first_entry (A <$> k2), res) /\
    x = proc ls d (Marking None (if decide (k2 = []) then 0 else length k1)));
    [|by intros ???????[]|exists [], ls; split; [done|]; split; [apply not_elem_of_nil|]; by case_decide].
  intros n1 s x _ (k1 & k2 & E & Hk & -> & ->). destruct k2 as [|u k2].
  { apply conforms_ret. right. by rewrite E, app_nil_r. }
  cbn [fmap list_fmap first_entry]. assert (u ∈ ls) as Hu by (by eapply in_middle). rewrite Hnz by done.
  rewrite decide_False by done.
  set (j := match k2 with [] => if decide (u = t) then length k1 else 0%nat | _ => S (length k1) end).
  conforms_by (fun e x => e = first_entry (A <$> k2) /\
    x = proc ls d (Marking None (match k2 with [] => j | _ => length k1 end))).
  { apply (conforms_next self prim N A kind P inside HA Hapart t Ht phase_in _ _ _ _ _ _ k1 u k2); [done..|].
    destruct k2; [|done]. intros g m Hm. unfold j. case_decide; [done|].
    intros i1 v i2 Ei. destruct (Hm i1 v i2 Ei) as (en & Hn & Hp). exists en. split; [done|]. intros Hl. apply Hp. lia. }
  intros n2 e x _ [-> ->].
  conforms_by (fun _ x => x = proc ls d (Marking None j)).
  { destruct k2 as [|v k2]; [by apply conforms_ret|]. cbn [fmap list_fmap first_entry].
    rewrite Hnz by (rewrite E, elem_of_app; right; right; by left).
    by apply (conforms_mark self prim N A kind P inside HA Hapart t Ht phase_in _ _ _ _ _ _ k1 u v k2). }
  intros n3 [] x _ ->. conforms_by (fun (r : Result (Z * bool) Z * bool) x => if r.2 then t ∈ ls /\ removed ls r.1 x
    else r.1 = res /\ u <> t /\ x = proc ls d (Marking None j)).
  { destruct (decide (u = t)) as [->|Hut].
    - eapply conforms_mono; [apply (conforms_remove_entry _ ls d j k1 k2 res); [done..|]|].
      + unfold j. destruct k2; lia.
      + intros [r b] x [Hb Hr]. simpl in Hb, Hr. by subst b.
    - unfold remove_entry. assert (wq_entry (A u) <> wq_entry (A t)) as Hne'.
      { destruct (apart N A HA Hapart u t) as [_ ?]; auto. }
      apply Z.eqb_neq in Hne'. rewrite Hne'. by apply conforms_ret. }
  intros n4 [r [|]] x _ Hr; simpl in Hr; [apply conforms_ret; by left|].
  destruct Hr as (-> & Hut & ->). apply conforms_ret. exists (k1 ++ [u]), k2. split; [by rewrite <- app_assoc|].
  split; [rewrite elem_of_app; intros [?|E'%list_elem_of_singleton]; [done|by subst]|]. split; [done|].
  unfold j. destruct k2; [by rewrite decide_False|]. by rewrite decide_False, length_app, Nat.add_1_r.
Qed.

(** How [remove_wait_queue_entry] ends. *)
Definition unlinked (ls : list tid) (d : Z) (r : Z * bool) (x : ghost) : Prop :=
  if r.2 then removed ls (Ok r) x
  else (t ∉ ls) /\ r.1 = word (first_anchor (A <$> ls)) true d /\ x = proc ls d (Marking None 0).

Lemma removed_more new ls v x : removed (new ++ ls) (Ok v) x -> removed ls (Ok v) x.
Proof using Type. by destruct v. Qed.

Lemma conforms_remove n ls d :
  (forall u, u ∈ ls -> (u < N)%nat) -> is_data d -> ls <> [] ->
  conforming n t (remove_wait_queue_entry self (word (first_anchor (A <$> ls)) true d) (wq_entry (A t)))
    (proc ls d (Marking None 0)) (unlinked ls d).
Proof using HA Hapart Hkind Hmax Ht.
  intros Hls Hd Hne. conforms_iter (fun s x => exists new d', s.1 = word (first_anchor (A <$> new ++ ls)) true d' /\
    is_data d' /\ (forall u, u ∈ new ++ ls -> (u < N)%nat) /\ (t ∉ new) /\ x = proc (new ++ ls) d' (Marking None 0) /\
    (t ∈ ls \/ (new = [] /\ d' = d /\ s.2 = Ok (s.1, false)))); [|by intros ???????[]|].
  2:{ exists [], d. split; [done|]. split; [done|]. split; [done|]. split; [apply not_elem_of_nil|]. split; [done|]. by right. }
  intros n1 [v res] x _ (new & d' & Hv & Hd' & Hlt & Hni & -> & Hin'). simpl in Hv, Hin'. subst v.
  assert (is_addr (first_anchor (A <$> new ++ ls))) as Ha by (by apply queue_is_addr).
  assert (exists u l, new ++ ls = u :: l) as (u & l & El).
  { destruct (new ++ ls) as [|u l] eqn:E; [by apply app_eq_nil in E as [_ ->]|by exists u, l]. }
  eapply conforms_then; [apply _|apply conforms_debug_assert; [by rewrite word_land_locked|done]|]. intros n2 _.
  eapply conforms_then; [apply _|apply conforms_debug_assert; [|done]|].
  { rewrite word_land_addr by done. rewrite El. cbn [fmap list_fmap first_anchor].
    rewrite anchor_addr_eqb_0; [done|]. apply HA, Hlt. rewrite El. by left. }
  intros n3 _. rewrite word_to_anchor_ptr by done.
  conforms_by (fun e x => e = first_entry (A <$> new ++ ls) /\ x = proc (new ++ ls) d' (Marking None 0)).
  { rewrite El. cbn [fmap list_fmap first_anchor first_entry].
    apply conforms_to_entry_ptr; [apply _|apply HA, Hlt; rewrite El; by left| |done]. intros g m Hg HI.
    destruct (snapshot_entry self prim N A kind P inside t phase_in g m (u :: l) d' (Marking None 0) None c [] u l HI Hg eq_refl)
      as (en & Hn & _). apply Hn. }
  intros n4 e x _ [-> ->]. conforms_seq; [apply conforms_search; [done..|by rewrite El]|].
  intros n5 r x _ [[Hin'' Hr]|(Hni' & -> & ->)].
  - assert (t ∈ ls) as Htl by (rewrite elem_of_app in Hin''; by destruct Hin'').
    destruct r as [[v b]|v]; apply conforms_ret.
    + destruct Hr as [-> Hr]. by split.
    + destruct Hr as (new' & d2 & -> & Hd2 & Hlt' & Hnn & ->). exists (new' ++ new), d2.
      rewrite <- app_assoc. split; [done|]. split; [done|]. split; [done|].
      split; [rewrite elem_of_app; by intros [?|?]|]. split; [done|by left].
  - destruct Hin' as [Hin'|(-> & -> & ->)]; [destruct Hni'; apply elem_of_app; by right|].
    apply conforms_ret. by split.
Qed.

(** ** Giving up *)

Abbreviation back := (fun (_ : unit) (x : ghost) => exists ent, x = (Built ent, None, c)).

(** The queue is processed after the removal. *)
Lemma conforms_process_rest n from l d :
  home from = from -> (forall u, u ∈ l -> (u < N)%nat) -> (t ∉ l) -> is_data d -> l <> [] ->
  conforming n t (process_wait_queue prim self (word (first_anchor (A <$> l)) true d))
    (Proc from l d (Marking None 0), None, c) (fun _ x => x = (from, None, c)).
Proof using HA Hapart Hkind Hmax Ht.
  intros Hfrom Hls Hni Hd Hne.
  apply (conforms_process self prim N A kind P inside Hkind HA Hapart Hmax t Ht from Hfrom).
  destruct l as [|h l1 _] using rev_ind; [done|]. exists l1, h, d. repeat split; [done|done|apply Hd|apply Hd|]. by left.
Qed.

Lemma conforms_process_left n ls d r x :
  (forall u, u ∈ ls -> (u < N)%nat) -> is_data d -> ls <> [] -> unlinked ls d r x ->
  conforming n t
    (if Z.land r.1 LOCKED_FLAG =? LOCKED_FLAG then process_wait_queue prim self r.1 else Ret tt) x
    (fun u x => if r.2 then back u x else (t ∉ ls) /\ x = waits).
Proof using HA Hapart Hkind Hmax Ht.
  intros Hls Hd Hne Hr. destruct r as [v []]; unfold unlinked in Hr; simpl in Hr |- *.
  - destruct Hr as (_ & ent & l & d' & -> & Hd' & Hlt & Hni & ->).
    rewrite word_land_locked by (done || by apply queue_is_addr). destruct l as [|u l]; [apply conforms_ret; by exists ent|].
    simpl negb. cbn iota. rewrite Z.eqb_refl. eapply conforms_mono; [by apply (conforms_process_rest _ (Built ent) (u :: l))|].
    intros [] x ->. by exists ent.
  - destruct Hr as (Hni & -> & ->). rewrite word_land_locked, Z.eqb_refl by (done || by apply queue_is_addr).
    eapply conforms_mono; [by apply conforms_process_rest|]. by intros [] x ->.
Qed.

(** The loop that removes the entry, or finds that it is not in the queue. *)
Lemma conforms_leave n v :
  glimpsed v ->
  conforming n t
    (Loop (fun state =>
       if Z.land state LOCKED_FLAG =? LOCKED_FLAG
       then yield_now ;;; state <- load self ;; Ret (inl state)
       else if Z.land state ADDR_MASK =? 0
       then Ret (inr (state, true))
       else
         r <- compare_exchange self state (Z.lor state LOCKED_FLAG) ;;
         match r with
         | Err new_state => Ret (inl new_state)
         | Ok _ =>
             let* (new_state, removed) :=
               remove_wait_queue_entry self (Z.lor state LOCKED_FLAG) (wq_entry (A t)) in
             (if Z.land new_state LOCKED_FLAG =? LOCKED_FLAG
              then process_wait_queue prim self new_state
              else Ret tt) ;;;
             Ret (inr (state, negb removed))
         end) v) waits
    (fun r x => if (r.2 : bool) then giveable o r.1 /\ x = waits else back tt x).
Proof using HA Hapart Hin Hkind Hmax Hsh Ht.
  intros Hv. conforms_iter (fun v x => glimpsed v /\ x = waits); [|by intros ???????[]|done].
  clear v Hv. intros n1 v x _ [(a & b & d & -> & Ha & Hd & Hb & Hgive) ->].
  rewrite word_locked_bit, word_addr_zero, word_lor_locked by done. destruct b.
  { eapply conforms_then; [apply _|by apply conforms_yield_now|]. intros n2 _.
    conforms_seq; [apply conforms_glimpse|]. intros n3 v x _ Hv. by apply conforms_ret. }
  destruct (a =? 0) eqn:Ea.
  { apply Z.eqb_eq in Ea. apply conforms_ret. split; [by apply Hgive|done]. }
  apply Z.eqb_neq in Ea. conforms_seq; [by apply conforms_seize|].
  intros n2 [w|w] x _ Hx; [|by apply conforms_ret]. destruct Hx as (ls & (Ew & _ & Hne & Hls & Hin') & ->).
  apply word_inj in Ew as (-> & _); [|done|done|by apply queue_is_addr|done].
  conforms_seq; [by apply conforms_remove|]. intros n3 [v rm] x _ Hr. cbn beta iota.
  conforms_seq; [exact (conforms_process_left n3 ls d (v, rm) x Hls Hd Hne Hr)|].
  intros n4 [] x' _ Hx'. apply conforms_ret. simpl in Hx' |- *.
  destruct rm; simpl; [done|]. destruct Hx' as [Hni ->]. split; [|done]. by destruct Hin'.
Qed.

(** The units that have been granted are given back, once that is known. *)
Lemma conforms_complete n v :
  giveable o v ->
  conforming n t
    (Loop (fun _ =>
       finalized <- result_finalized (wq_entry (A t)) ;;
       if (finalized : bool) then Ret (inr tt) else yield_now ;;; Ret (inl tt)) tt ;;;
     opcode <- read_field (wq_entry (A t)) e_opcode ;;
     release_loop prim self v opcode ;;; Ret tt) waits back.
Proof using HA Hapart Hin Hkind Hmax Hpr Hsh Ht.
  intros Hv. conforms_by (fun (_ : unit) x => exists en, e_opcode en = o /\ x = (Keeping o en, None, c)).
  { conforms_iter (fun (_ : unit) x => x = waits); [|by intros ????????|done]. intros n1 [] x _ ->.
    conforms_by (fun (b : bool) x => if b then exists en, e_opcode en = o /\ x = (Keeping o en, None, c) else x = waits).
    - conforms_by (fun st x => if Z.land st RESULT_FINALIZED =? RESULT_FINALIZED
        then exists en, e_opcode en = o /\ x = (Keeping o en, None, c) else x = waits);
        [|intros n2 st x _ Hx; by apply conforms_ret].
      apply conforms_read_field. intros g m Hg HI.
      destruct (state_keep self prim N A kind P inside Hkind HA Hapart t Ht o true ow c g m HI Hg Hpr) as (en & Hn & Hop & _ & Hkeep).
      exists en. split; [apply Hn|]. destruct (Z.land (e_state en) RESULT_FINALIZED =? RESULT_FINALIZED).
      + eexists. split; [by apply Hkeep|]. by exists en.
      + by apply kept_same; [|rewrite Hg].
    - intros n2 [] x _ Hx; [by apply conforms_ret|]. subst x.
      eapply conforms_then; [apply _|by apply conforms_yield_now|]. intros n3 _. by apply conforms_ret. }
  intros n1 [] x _ (en & Hop & ->).
  conforms_by (fun o' x => o' = o /\ x = (Keeping o en, None, c)).
  { apply conforms_read_field. intros g m Hg (w & Hs). pose proof (a_footing _ _ _ _ _ _ _ _ _ _ _ Hs t) as Hf.
    rewrite Hg in Hf. exists en. split; [apply Hf|]. apply kept_same; [by exists w|]. by rewrite Hg. }
  intros n2 o' x _ [-> ->]. conforms_seq.
  { by apply (conforms_release_loop self prim N A kind P inside Hkind HA Hapart Hmax t Ht (Constructed en) o c Hsh Hin). }
  intros n3 b x _ [_ ->]. apply conforms_ret. by exists en.
Qed.

Lemma conforms_force_remove n :
  conforming n t (force_remove_wait_queue_entry prim (wq_entry (A t))) waits back.
Proof using HA Hapart Hin Hkind Hmax Hpr Hsh Ht.
  conforms_seq; [apply (conforms_own_field _ e_addr self); by intros en (_ & ? & _)|]. intros n1 this x _ [-> ->].
  conforms_seq; [apply conforms_glimpse|]. intros n2 v x _ [Hv ->].
  conforms_seq; [by apply conforms_leave|]. intros n3 [v' [|]] x _ Hx; simpl in Hx.
  - destruct Hx as [Hgive ->]. by apply conforms_complete.
  - by apply conforms_ret.
Qed.

(** The drop of the wait queue. *)
Lemma conforms_give_up n :
  conforming n t (wait_queue_drop (A t)) waits (fun _ x => x = (Out, None, c)).
Proof using Hdrop HA Hapart Hin Hkind Hmax Hpr Hsh Ht.
  pose proof (HA t Ht) as Hok. assert (PrivateView allotment (A t) t (own None c)) as Hview by (apply allotment_private; auto).
  unfold wait_queue_drop. conforms_by (fun a x => a = (anchor_addr (A t), anchor_addr (A t) - A t) /\ x = waits).
  { by apply conforms_anchor_ptr; [apply _|..]. }
  intros n1 a x _ [-> ->]. conforms_seq; [apply conforms_own_entry_ptr|]. intros n2 e x _ [-> ->].
  rewrite wq_entry_eqb_0 by done. conforms_by (fun _ x => x = own None c Addressed_).
  2:{ intros n3 [] x _ ->. apply conforms_free_anchor. intros g m Hg HI. exists (own None c Nothing).
      split; [|done]. eapply (private_step g m _ Addressed_); try done; simpl.
      intros a Hne. by rewrite lookup_delete_ne. }
  conforms_by (fun (_ : unit) x => exists ent, x = own None c (Constructed ent)).
  { unfold prepare_drop. conforms_seq; [apply (conforms_own_field _ e_pollable true); by intros en _ ->|].
    intros n3 b x _ [-> ->]. conforms_seq; [apply (conforms_own_field _ e_drop_callback prim); by intros en (_ & _ & ->)|].
    intros n4 cb x _ [-> ->]. rewrite Hdrop. conforms_seq; [apply conforms_force_remove|].
    intros n5 [] x _ (ent & ->). eapply conforms_mono.
    - apply (private_update allotment unsure sleeps (A t) t (own None c) n5 ent (fun _ => tt) (set_poll false)
        (fun _ x => x = own None c (Constructed (set_poll false ent)))); done.
    - intros [] x ->. by eexists. }
  intros n3 [] x _ (ent & ->). apply conforms_drop_in_place. intros g m Hg HI.
  pose proof (private_open g m (Constructed ent) HI Hg) as Hn. split; [eexists; apply Hn|].
  exists (own None c Addressed_). split; [|done]. eapply (private_step g m _ (Constructed ent)); try done; simpl; [|apply Hn].
  intros e Hne. by rewrite lookup_delete_ne.
Qed.

End thread.

End withdrawing.
