(* ===== verification/Patience.v ===== *)
(** * Futures that are dropped

    Whoever polls the future of [lock_async], [share_async] or
    [acquire_many_async] may drop it at any suspension point, as an executor
    does when a timeout expires or another branch of a [select!] is ready
    first; what is dropped then is the wait queue the future waits in, see
    [WaitQueue.wait_queue_drop].  Here are these methods with a bound on the
    number of times the task is suspended: after that many, the future is
    dropped when it is pending once more, instead of being suspended, see
    [Polling.await_within].  A future that is ready in time has done what the
    method does. *)

From S2P Require Import Prelude Prog Word Opcode Memory WaitQueue Geometry Results.
From S2P Require Import Queue Grant Interleaving Concurrent Delivery Areas Private Telling SyncPrimitive Enqueue Release Crate Pager Polling Allotment Obtaining Process Releasing Unlinking Withdrawing.
From S2P Require Lock Semaphore.

(** [acquire_async_with] of [Lock.v], its future dropped when it is pending
    after [k] suspensions; [None] is returned then. *)
Definition acquire_within (attempt : program (Z * Z)) (opcode : Opcode) (self wq : Z) (cx : Waker) (k : nat) :
    program (option bool) :=
  Loop (fun _ =>
    let* (result, state) := attempt in
    if result =? Lock.ACQUIRED then Ret (inr (Some true))
    else if result =? Lock.POISONED then Ret (inr (Some false))
    else
      debug_assert (result =? Lock.NOT_ACQUIRED) ;;;
      wait_queue_default wq ;;;
      construct Lock wq self opcode false ;;;
      pushed <- try_push_wait_queue_entry self wq state ;;
      if (pushed : bool)
      then
        result <- await_within wq cx k ;;
        match result with
        | Some result =>
            debug_assert ((result =? Lock.ACQUIRED) || (result =? Lock.POISONED)) ;;;
            wait_queue_drop wq ;;;
            Ret (inr (Some (result =? Lock.ACQUIRED)))
        | None => wait_queue_drop wq ;;; Ret (inr None)
        end
      else wait_queue_drop wq ;;; Ret (inl tt)) tt.

Definition lock_async_within (self wq : Z) (cx : Waker) (k : nat) : program (option bool) :=
  acquire_within (Lock.try_lock_internal_spin self) Exclusive self wq cx k.

Definition share_async_within (self wq : Z) (cx : Waker) (k : nat) : program (option bool) :=
  acquire_within (Lock.try_share_internal_spin self) Shared self wq cx k.

(** [acquire_many_async] of [Semaphore.v], likewise. *)
Definition acquire_many_async_within (self wq count : Z) (cx : Waker) (k : nat) : program (option bool) :=
  if Semaphore.MAX_PERMITS <? count then Ret (Some false)
  else
    match Semaphore.u8_try_from count with
    | None => Ret (Some false)
    | Some count =>
        Loop (fun _ =>
          let* (result, state) := Semaphore.try_acquire_internal self count in
          if (result : bool) then Ret (inr (Some true))
          else
            wait_queue_default wq ;;;
            construct Semaphore wq self (SemaphoreOp count) false ;;;
            pushed <- try_push_wait_queue_entry self wq state ;;
            if (pushed : bool)
            then
              result <- await_within wq cx k ;;
              wait_queue_drop wq ;;;
              Ret (inr (match result with Some _ => Some true | None => None end))
            else wait_queue_drop wq ;;; Ret (inl tt)) tt
    end.

(** ** Futures that are ready in time *)

Section in_time.
  Context (t : tid).

Lemma acquire_within_ready n attempt opcode self wq cx k m b m' :
  run n t (acquire_within attempt opcode self wq cx k) m = Returns (Some b) m' ->
  run n t (Lock.acquire_async_with attempt opcode self wq cx (Ret tt)) m = Returns b m'.
Proof.
  revert m. induction n as [|n IH]; intros m; [done|]. unfold acquire_within, Lock.acquire_async_with.
  rewrite !run_loop. rewrite !run_bind. destruct (run n t attempt m) as [[res state] m1| | |]; [|done..].
  destruct (res =? Lock.ACQUIRED); [rewrite !run_ret; by intros [= -> ->]|].
  destruct (res =? Lock.POISONED); [rewrite !run_ret; by intros [= -> ->]|].
  rewrite !run_bind. destruct (run n t (debug_assert _) m1) as [[] m2| | |]; [|done..].
  rewrite !run_bind. destruct (run n t (wait_queue_default wq) m2) as [[] m3| | |]; [|done..].
  rewrite !run_bind. destruct (run n t (construct _ _ _ _ _) m3) as [[] m4| | |]; [|done..].
  rewrite !run_bind. destruct (run n t (try_push_wait_queue_entry _ _ _) m4) as [[] m5| | |]; [| |done..].
  - rewrite !run_bind, run_ret, run_bind.
    destruct (run n t (await_within wq cx k) m5) as [[v|] m6| | |] eqn:Ew; [| |done..].
    + rewrite (await_within_ready _ _ _ _ _ _ _ _ Ew), !run_bind.
      destruct (run n t (debug_assert _) m6) as [[] m7| | |]; [|done..]. rewrite !run_bind.
      destruct (run n t (wait_queue_drop wq) m7) as [[] m8| | |]; [|done..]. rewrite !run_ret. by intros [= -> ->].
    + rewrite !run_bind. destruct (run n t (wait_queue_drop wq) m6) as [[] m7| | |]; [|done..]. by rewrite run_ret.
  - rewrite !run_bind. destruct (run n t (wait_queue_drop wq) m5) as [[] m6| | |]; [|done..].
    rewrite !run_ret. apply IH.
Qed.

End in_time.

Lemma obtain_within_ready n self wq count cx k b m m' t :
  run n t (acquire_many_async_within self wq count cx k) m = Returns (Some b) m' ->
  run n t (Semaphore.acquire_many_async self wq count cx) m = Returns b m'.
Proof.
  unfold acquire_many_async_within, Semaphore.acquire_many_async, Semaphore.acquire_many_async_with.
  destruct (Semaphore.MAX_PERMITS <? count); [rewrite !run_ret; by intros [= -> ->]|].
  destruct (Semaphore.u8_try_from count) as [o|]; [|rewrite !run_ret; by intros [= -> ->]].
  revert m. induction n as [|n IH]; intros m; [done|]. rewrite !run_loop.
  rewrite !run_bind. destruct (run n t (Semaphore.try_acquire_internal _ _) m) as [[[] state] m1| | |]; [| |done..].
  { rewrite !run_ret. by intros [= -> ->]. }
  rewrite !run_bind. destruct (run n t (wait_queue_default wq) m1) as [[] m3| | |]; [|done..].
  rewrite !run_bind. destruct (run n t (construct _ _ _ _ _) m3) as [[] m4| | |]; [|done..].
  rewrite !run_bind. destruct (run n t (try_push_wait_queue_entry _ _ _) m4) as [[] m5| | |]; [| |done..].
  - rewrite !run_bind, run_ret, run_bind.
    destruct (run n t (await_within wq cx k) m5) as [r m6| | |] eqn:Ew; [|done..].
    rewrite !run_bind. destruct (run n t (wait_queue_drop wq) m6) as [[] m7| | |] eqn:Ed; [|done..].
    rewrite !run_ret. destruct r as [v|]; [|done]. intros [= <- <-].
    by rewrite (await_within_ready _ _ _ _ _ _ _ _ Ew), run_bind, Ed, run_ret.
  - rewrite !run_bind. destruct (run n t (wait_queue_drop wq) m5) as [[] m6| | |]; [|done..].
    rewrite !run_ret. apply IH.
Qed.

(** ** Under all interleavings *)

Section patience.
  Context {C : Type} (self : Z) (prim : Primitive) (max : Z) (N : nat) (A : tid -> Z) (kind : waiting_mode).
  Context (P : gmap Z Z -> (tid -> C) -> Prop) (inside : C -> option Opcode).
  Context (Hkind : wakers_differ N kind).
  Context (HA : forall t, (t < N)%nat -> wq_ok (A t)).
  Context (Hapart : forall t u, (t < N)%nat -> (u < N)%nat -> t <> u ->
    A t + 128 <= A u \/ A u + 128 <= A t).

Abbreviation allotment := (allotment self prim max N A kind P inside).
Abbreviation conforming := (conforms allotment unsure (sleeps kind)).

(** A task waits, but not for ever: it gets the result, or gives up asleep. *)
Lemma conforms_await_within n t o c cx k :
  (t < N)%nat -> kind t = Some cx ->
  conforming n t (await_within (A t) cx k) (Waiting o true Ready, None, c) (fun r x =>
    match r with
    | Some v => v = 0 /\ x = (Waiting o true (Taken true), None, c)
    | None => x = (Waiting o true Asleep, None, c)
    end).
Proof using HA Hapart Hkind.
  intros Ht Ek. set (mine := fun ow => ((Waiting o true ow, None, c) : ghost_of phase C)).
  assert (OwnerView allotment unsure (sleeps kind) (A t) (monitor_of kind t) (just 0) t (fun _ => mine) (fun _ => (Holding o, None, c))) as Hview
    by (by apply allotment_owner).
  assert (monitor_of kind t = Async (Some cx)) as HK by (unfold monitor_of; by rewrite Ek).
  eapply conforms_mono; [by apply (conforms_await_for allotment (sleeps kind) (A t) (monitor_of kind t) (just 0) (HA t Ht)
    (just_u8 0 (ltac:(done))) t (fun _ => mine) (fun _ => (Holding o, None, c)) 0)|].
  by intros [v|] x Hx.
Qed.

End patience.
