(* ===== verification/Paging.v ===== *)
(** * Pagers, under all interleavings

    A thread or a task that registers a pager with a lock or a semaphore asks
    for units in advance: if there are enough it resolves the pager itself, and
    otherwise pushes the pager's entry.  It polls the pager later, with
    [try_poll], [poll_sync] or [poll_async], or drops it, whether the units have
    been granted or not.  Shown to conform to the invariant of [Allotment.v]:
    as soon as its entry can be found, a registered pager is a waiting wait
    queue like any other. *)

From S2P Require Import Prelude Prog Word Opcode Memory WaitQueue Geometry Results.
From S2P Require Import Queue Grant Interleaving Concurrent Delivery Areas Private Telling SyncPrimitive Enqueue Release Crate Pager Polling Allotment Obtaining Process Releasing Unlinking Withdrawing.

Section paging.
  Context {C : Type} (self : Z) (prim : Primitive) `{SyncPrimitive prim}.
  Context (Hdrop : forall e, drop_callback prim e = force_remove_wait_queue_entry prim e).
  Context (N : nat) (A : tid -> Z) (kind : waiting_mode).
  Context (P : gmap Z Z -> (tid -> C) -> Prop) (inside : C -> option Opcode).
  Context (Hkind : wakers_differ N kind).
  Context (HA : forall t, (t < N)%nat -> wq_ok (A t)).
  Context (Hapart : forall t u, (t < N)%nat -> (u < N)%nat -> t <> u ->
    A t + 128 <= A u \/ A u + 128 <= A t).

Abbreviation max := (max_shared_owners prim).

  Context (Hmax : 0 <= max <= DATA_MASK).

Abbreviation state := (state self prim max N A kind P inside).
Abbreviation allotment := (allotment self prim max N A kind P inside).
Abbreviation sleeps := (sleeps kind).
Abbreviation conforming := (conforms allotment unsure sleeps).
Abbreviation ghost := (ghost_of phase C).
Abbreviation pushable := (pushable self prim kind).

Section thread.
  Context (t : tid) (Ht : (t < N)%nat) (o : Opcode) (c : C).
  Context (Hin : inside c = None) (Hsh : o = Shared -> max < DATA_MASK).

Abbreviation waits ow := (Waiting o true ow, None, c).

(** ** Resolving a pager oneself *)

(** The result of a holder's own entry becomes final: from now on it is as if
    the units had been granted by another thread. *)
Lemma state_adopt g m en :
  allotment g m -> g t = (Keeping o en, None, c) ->
  tagged self prim o en -> same_kind (monitor_of kind t) (e_monitor en) = true -> e_pollable en = true ->
  e_state en = RESULT_SET ->
  allotment (upd g t (waits Ready))
    (set_entries (<[wq_entry (A t) := set_state (Z.lor (e_state en) RESULT_FINALIZED) en]> (entries m)) m).
Proof using HA Hapart Ht.
  intros (w & Hs) Hg Htag Hmon Hpl Hst. set (en' := set_state _ en).
  pose proof (a_footing _ _ _ _ _ _ _ _ _ _ _ Hs t) as Hn. rewrite Hg in Hn. change (node m (A t) en) in Hn.
  destruct (a_part _ _ _ _ _ _ _ _ _ _ _ Hs t) as [Hp1 Hp2 Hp3]. rewrite Hg in Hp1, Hp2, Hp3.
  destruct Hp1 as (Ho & Hh & Htl).
  pose proof (a_nodup _ _ _ _ _ _ _ _ _ _ _ Hs) as (_ & Hdis & _)%list.NoDup_app.
  assert (t ∉ pending w) as Hni by (intros Hi; by apply (Hdis t Hi)).
  set (m' := set_entries _ m). assert (node m' (A t) en') as Hn' by (by eapply node_insert).
  exists w. eapply (state_step self prim max N A kind P inside t _ g m m' w); rewrite ?Hg; try done.
  - intros u Hu Hne. destruct (apart N A HA Hapart u t Hu Ht Hne) as [_ Hne'].
    split; [done|]. split; [simpl; by rewrite lookup_insert_ne|done].
  - by intros [].
  - split; try done.
    + split; [done|]. by right.
    + intros o' Ho'. specialize (Hp3 o' Ho'). done.
  - split.
    + exists Delivered. split; [unfold reach; rewrite Htl, decide_False by done; by left|].
      split; [done|]. exists en', false. split; [done|]. split; [|done]. split; [done|].
      split; [unfold en'; simpl; by rewrite Hst|]. by split.
    + intros _. split; [by exists en'|]. intros _. exists en'. split; [apply Hn'|done].
Qed.

#[local] Instance holder_view : PrivateView allotment (A t) t (own (Some o) c).
Proof using HA Hapart Hkind Ht Hin. apply allotment_private; auto. Qed.

Lemma conforms_resolve n en :
  pushable t o en ->
  conforming n t (set_result (wq_entry (A t)) 0) (Keeping o en, None, c) (fun _ x => x = waits Ready).
Proof using HA Hapart Hkind Ht Hin.
  intros ((Hst & _ & Hmon) & Htag & _).
  apply (private_set_result allotment unsure sleeps (A t) t (own (Some o) c)); [by intros g []|done|done| |].
  { intros g m wk. apply allotment_weak. }
  intros n1. set (en' := set_state (entry_state true false false 0) (set_poll true en)).
  apply conforms_update_field. intros g m Hg HI. exists en'.
  split; [apply (private_open g m (Constructed en') HI Hg)|]. eexists. split; [|done].
  apply state_adopt; try done. simpl. rewrite Hmon. apply monitor_same_kind.
Qed.

(** ** Registering *)

(** A pager without an entry is not registered. *)
Lemma conforms_is_unregistered n :
  conforming n t (is_registered (A t)) (own None c Allocated) (fun b x => b = false /\ x = own None c Allocated).
Proof using HA Hapart Hkind Ht.
  assert (PrivateView allotment (A t) t (own None c)) as Hview by (apply allotment_private; [done..|by left]).
  exact (private_unregistered allotment unsure sleeps (A t) (HA t Ht) t (own None c) n).
Qed.

(** The loop of [register_pager]: an attempt, then the pager is resolved or
    pushed. *)
Lemma conforms_register n {R} (attempt : program (R * Z)) (got : R -> bool) (value : R -> Z) en :
  plain o = true ->
  (forall n en, conforming n t attempt (Built en, None, c) (fun r x =>
     if got r.1 then value r.1 = 0 /\ x = (Keeping o en, None, c) else refused max o r.2 /\ x = (Built en, None, c))) ->
  pushable t o en ->
  conforming n t
    (Loop (fun _ =>
      let* (result, v) := attempt in
      if got result
      then e <- entry (A t) ;; set_result e (value result) ;;; Ret (inr tt)
      else
        pushed <- try_push_wait_queue_entry self (A t) v ;;
        if (pushed : bool) then Ret (inr tt) else Ret (inl tt)) tt)
    (Built en, None, c) (fun (_ : unit) x => x = waits Ready).
Proof using HA Hapart Hkind Ht Hin Hmax.
  intros Ho Hattempt Hen.
  conforms_iter (fun (_ : unit) x => exists en, pushable t o en /\ x = (Built en, None, c)); [|by intros ????????|by exists en].
  clear en Hen. intros n1 [] x _ (en & Hen & ->). conforms_seq; [apply Hattempt|].
  intros n2 [r v] x _ Hx. simpl in Hx. cbn beta iota. destruct (got r).
  - destruct Hx as [Hr ->]. conforms_seq.
    { by apply (private_entry allotment unsure sleeps (A t) (HA t Ht) t (own (Some o) c) n2 (Constructed en)). }
    intros n3 e x _ [-> ->]. rewrite Hr. conforms_seq; [by apply conforms_resolve|]. intros n4 [] x _ ->. by apply conforms_ret.
  - destruct Hx as [Hv ->].
    conforms_seq; [by apply (conforms_push self prim max N A kind P inside Hkind HA Hapart Hmax t Ht)|].
    intros n3 [|] x _ Hx; [by apply conforms_ret|]. destruct Hx as (en' & Hen' & ->). apply conforms_ret. by exists en'.
Qed.

(** ** Polling *)

#[local] Instance pager_owner :
  OwnerView allotment unsure sleeps (A t) (monitor_of kind t) (just 0) t (fun _ ow => waits ow) (fun _ => (Holding o, None, c)).
Proof using HA Hapart Hkind. by apply allotment_owner. Qed.

Lemma conforms_is_registered n ow :
  present ow = true ->
  conforming n t (is_registered (A t)) (waits ow) (fun b x => b = true /\ x = waits ow).
Proof using HA Ht.
  intros Hpr. unfold is_registered, is_pollable.
  conforms_by (fun a x => a = (anchor_addr (A t), anchor_addr (A t) - A t) /\ x = waits ow).
  { by apply conforms_anchor_ptr; [apply _|apply HA|..]. }
  intros n1 a x _ [-> ->].
  conforms_seq; [by apply (conforms_own_entry_ptr self prim N A kind P inside HA t Ht o ow c Hpr)|]. intros n2 e x _ [-> ->].
  rewrite wq_entry_eqb_0 by by apply HA.
  by apply (conforms_own_field self prim N A kind P inside t o ow c Hpr _ e_pollable true); intros en _ ->.
Qed.

Section poll.
  Context {R : Type} `{SyncResult prim R} (pending : R -> bool) (yes : R) (Hyes : pending yes = false).
  Context (Hready : forall n x, conforming n t (to_result prim 0 None) x (fun r y => r = yes /\ y = x)).
  Context (Hpending : forall v n x, conforming n t (to_result prim v (Some NotReady)) x
    (fun r y => pending r = true /\ y = x)).

Lemma conforms_try_poll n :
  conforming n t (try_poll prim (A t)) (waits Ready) (fun r x =>
    r = yes /\ x = waits (Taken true) \/ pending r = true /\ x = waits Ready).
Proof using HA Hapart Hkind Ht Hready Hpending.
  conforms_seq; [by apply conforms_is_registered|]. intros n1 b x _ [-> ->]. simpl negb. cbn iota.
  conforms_seq; [by apply (conforms_owner_entry allotment unsure sleeps (A t) (monitor_of kind t) (just 0) (HA t Ht) t (fun _ ow => waits ow) (fun _ => (Holding o, None, c)) 0 n1 Ready)|].
  intros n2 e x _ [-> ->].
  conforms_seq; [by apply (conforms_try_consume allotment unsure sleeps (A t) (monitor_of kind t) (just 0) (just_u8 0 (ltac:(done))) t (fun _ ow => waits ow) (fun _ => (Holding o, None, c)) 0)|].
  intros n3 [v|] x _ Hx.
  - destruct Hx as [-> ->]. eapply conforms_mono; [apply Hready|]. intros r x [-> ->]. by left.
  - subst x. eapply conforms_mono; [apply Hpending|]. intros r x [E ->]. by right.
Qed.

(** Waiting for the result. *)
Lemma conforms_poll_pager n :
  conforming n t (poll_by prim kind t (A t)) (waits Ready) (fun r x => r = yes /\ x = waits (Taken true)).
Proof using HA Hapart Hkind Ht Hready.
  unfold poll_by. destruct (kind t) as [cx|] eqn:Ek; (conforms_seq; [by apply conforms_is_registered|]); intros n1 b x _ [-> ->];
    simpl negb; cbn iota.
  - conforms_seq; [by apply (conforms_await self prim max N A kind P inside Hkind HA Hapart t Ht)|].
    intros n2 v x _ [-> ->]. eapply conforms_mono; [apply Hready|done].
  - conforms_seq; [by apply (conforms_owner_entry allotment unsure sleeps (A t) (monitor_of kind t) (just 0) (HA t Ht) t (fun _ ow => waits ow) (fun _ => (Holding o, None, c)) 0 n1 Ready)|].
    intros n2 e x _ [-> ->].
    conforms_seq; [by apply (conforms_poll_wait self prim max N A kind P inside Hkind HA Hapart t Ht)|].
    intros n3 v x _ [-> ->]. eapply conforms_mono; [apply Hready|done].
Qed.

(** The whole life of a pager. *)
Lemma conforms_pager_life n register tries stays :
  (forall n, conforming n t register (own None c Allocated) (fun b x => b = true /\ x = waits Ready)) ->
  conforming n t (through_pager prim pending kind t (A t) register tries stays) (Out, None, c) (fun r x =>
    match r with
    | Some r => r = yes /\ x = (Holding o, None, c)
    | None => stays = false /\ x = (Out, None, c)
    end).
Proof using HA Hapart Hkind Ht Hready Hpending Hyes Hdrop Hin Hsh Hmax.
  intros Hreg.
  apply (conforms_through_pager allotment sleeps prim pending kind t (A t) (fun x => x = waits Ready) (fun r x => r = yes /\ x = waits (Taken true)))
    with (allocated := own None c Allocated) (gone := (Out, None, c)).
  - by intros r x [-> _].
  - intros n1 x ->. apply conforms_try_poll.
  - intros n1 x ->. apply conforms_poll_pager.
  - intros n1. by apply (conforms_default self prim max N A kind P inside Hkind HA Hapart t Ht).
  - exact Hreg.
  - intros r x n1 [-> ->]. eapply conforms_mono; [by apply (conforms_retire self prim max N A kind P inside Hkind HA Hapart t Ht)|done].
  - intros n1 x _ ->. by apply (conforms_give_up self prim Hdrop N A kind P inside Hkind HA Hapart Hmax t Ht o Ready c eq_refl Hin Hsh).
Qed.

End poll.

End thread.

End paging.
