(* ===== verification/Locking.v ===== *)
(** * Taking and releasing a lock, under all interleavings

    The methods of [Lock.v] with which threads and tasks take a lock, exclusive
    or shared, or wait for it, for a while or through a pager, and release it,
    shown to conform to the invariant of [Allotment.v]: whoever has taken the
    lock holds [Exclusive], all the units of the state word, or [Shared], one of
    them. *)

From S2P Require Import Prelude Prog Word Opcode Memory WaitQueue Geometry Results.
From S2P Require Import Queue Grant Interleaving Concurrent Delivery Areas Private Telling SyncPrimitive Enqueue Release Crate Allotment Obtaining Process Releasing Withdrawing Patience Pager Polling Paging.
From S2P Require Import Lock.

(** Waits for the lock as a thread, or as a task. *)
Definition acquire (kind : waiting_mode) (t : tid) (lk wq : Z) : program bool :=
  match kind t with
  | None => Lock.lock_sync lk wq
  | Some cx => Lock.lock_async lk wq cx
  end.

(** Waits for a shared lock as a thread, or as a task. *)
Definition share (kind : waiting_mode) (t : tid) (lk wq : Z) : program bool :=
  match kind t with
  | None => Lock.share_sync lk wq
  | Some cx => Lock.share_async lk wq cx
  end.

(** What a client makes of the result of a pager. *)
Definition not_ready (r : Result bool Error) : bool :=
  match r with Err NotReady => true | _ => false end.

Definition granted (r : Result bool Error) : bool :=
  match r with Ok b => b | Err _ => false end.

(** Waits for the lock, in some manner. *)
Definition acquire_as (kind : waiting_mode) (t : tid) (lk wq : Z) (mn : manner) : program (option bool) :=
  match mn, kind t with
  | Paged tries stays, _ =>
      result <- through_pager Lock not_ready kind t wq (Lock.register_pager lk wq MExclusive (is_thread kind t)) tries stays ;;
      Ret (option_map granted result)
  | Limited k, Some cx => lock_async_within lk wq cx k
  | _, _ => acquired <- acquire kind t lk wq ;; Ret (Some acquired)
  end.

Definition share_as (kind : waiting_mode) (t : tid) (lk wq : Z) (mn : manner) : program (option bool) :=
  match mn, kind t with
  | Paged tries stays, _ =>
      result <- through_pager Lock not_ready kind t wq (Lock.register_pager lk wq MShared (is_thread kind t)) tries stays ;;
      Ret (option_map granted result)
  | Limited k, Some cx => share_async_within lk wq cx k
  | _, _ => acquired <- share kind t lk wq ;; Ret (Some acquired)
  end.

Section locking.
  Context {C : Type} (lk : Z) (N : nat) (A : tid -> Z) (kind : waiting_mode).
  Context (P : gmap Z Z -> (tid -> C) -> Prop) (inside : C -> option Opcode).
  Context (Hkind : wakers_differ N kind).
  Context (HA : forall t, (t < N)%nat -> wq_ok (A t)).
  Context (Hapart : forall t u, (t < N)%nat -> (u < N)%nat -> t <> u ->
    A t + 128 <= A u \/ A u + 128 <= A t).

Abbreviation allotment := (allotment lk Lock MAX_SHARED_OWNERS N A kind P inside).
Abbreviation sleeps := (sleeps kind).
Abbreviation conforming := (conforms allotment unsure sleeps).
Abbreviation ghost := (ghost_of phase C).
Abbreviation refused := (refused MAX_SHARED_OWNERS).

Lemma shared_max : 0 <= MAX_SHARED_OWNERS <= DATA_MASK.
Proof using Type. unfold MAX_SHARED_OWNERS. unfold_masks. lia. Qed.

(** ** What the state word tells *)

(** A word below the locked flag has no address, and is not locked. *)
Lemma readable_data v : readable v -> v < LOCKED_FLAG -> v = word 0 false v /\ is_data v.
Proof using Type.
  clear. intros (a & b & d & -> & Ha & Hd & Hb) Hlt. apply addr_div in Ha as (k & -> & Hk).
  unfold word, is_data in *. unfold_masks. destruct b; [specialize (Hb eq_refl); lia|]. lia.
Qed.

Lemma readable_not_poisoned v : readable v -> (v =? POISONED_STATE) = false.
Proof using Type.
  clear. intros (a & b & d & -> & Ha & Hd & Hb). apply Z.eqb_neq. apply addr_div in Ha as (k & -> & Hk).
  unfold word, is_data, POISONED_STATE in *. unfold_masks. destruct b; [specialize (Hb eq_refl)|]; lia.
Qed.

Lemma refused_exclusive v : readable v -> v <> 0 -> refused Exclusive v.
Proof using Type.
  clear. intros (a & b & d & -> & Ha & Hd & Hb) Hne. exists a, b, d. split; [done|]. split; [done|]. split; [done|].
  intros ->. assert (b = false) as -> by (destruct b; [by destruct Hb|done]).
  unfold word in Hne. unfold is_data, fits, MAX_SHARED_OWNERS in *. simpl. unfold_masks.
  apply orb_false_intro; [apply Z.eqb_neq|apply Z.leb_gt]; lia.
Qed.

Lemma refused_shared v : readable v -> MAX_SHARED_OWNERS <= v -> refused Shared v.
Proof using Type.
  clear. intros (a & b & d & -> & Ha & Hd & Hb) Hle. exists a, b, d. split; [done|]. split; [done|]. split; [done|].
  intros ->. assert (b = false) as -> by (destruct b; [by destruct Hb|done]).
  unfold word in Hle. unfold is_data, fits, MAX_SHARED_OWNERS in *. simpl. unfold_masks.
  apply orb_false_intro; [apply Z.eqb_neq|apply Z.leb_gt]; lia.
Qed.

Section thread.
  Context (t : tid) (Ht : (t < N)%nat) (c : C).

(** ** Attempts *)

Section attempts.
  Context (pr : private).

Abbreviation out := (Aside pr None, None, c).

(** How an attempt to take the lock ends. *)
Definition attempted (o : Opcode) (r : Z * Z) (x : ghost) : Prop :=
  (r.1 = ACQUIRED /\ x = (Aside pr (Some o), None, c)) \/
  (r.1 = NOT_ACQUIRED /\ readable r.2 /\ refused o r.2 /\ x = out).

Lemma conforms_lock_attempt n v :
  readable v -> conforming n t (try_lock_internal lk v) out (attempted Exclusive).
Proof using HA Ht.
  intros Hv. conforms_iter (fun v x => readable v /\ x = out); [|by intros ???????[]|done].
  clear v Hv. intros n1 v x _ [Hv ->]. rewrite readable_not_poisoned by done.
  destruct (v =? 0) eqn:E; simpl negb; cbn iota.
  - conforms_seq.
    { apply (conforms_take lk Lock _ N A kind P inside HA shared_max t Ht _ 0 _ Exclusive); [done|split; [done|unfold_masks; lia]|done]. }
    intros n2 [w|w] x _ Hx; apply conforms_ret; [by left|done].
  - apply Z.eqb_neq in E. apply conforms_ret. right. split; [done|]. split; [done|]. split; [|done].
    by apply refused_exclusive.
Qed.

Lemma conforms_share_attempt n v :
  readable v -> conforming n t (try_share_internal lk v) out (attempted Shared).
Proof using HA Ht.
  intros Hv. conforms_iter (fun v x => readable v /\ x = out); [|by intros ???????[]|done].
  clear v Hv. intros n1 v x _ [Hv ->]. rewrite readable_not_poisoned by done.
  destruct (MAX_SHARED_OWNERS <=? v) eqn:E.
  - apply Z.leb_le in E. apply conforms_ret. right. split; [done|]. split; [done|]. split; [|done].
    by apply refused_shared.
  - apply Z.leb_gt in E. unfold MAX_SHARED_OWNERS in E.
    destruct (readable_data v Hv) as [Ew Hd]; [unfold_masks; lia|].
    assert (usize_add v 1 = word 0 false (v + units Shared)) as ->.
    { rewrite usize_add_small by (unfold is_data, usize_modulus in *; unfold_masks; lia). done. }
    rewrite Ew at 1. conforms_seq.
    { apply (conforms_take lk Lock _ N A kind P inside HA shared_max t Ht _ v _ Shared); [done|done|].
      unfold fits, MAX_SHARED_OWNERS. simpl. apply orb_true_intro. right. apply Z.leb_le. lia. }
    intros n2 [w|w] x _ Hx; apply conforms_ret; [by left|done].
Qed.

Lemma conforms_spin n o attempt v :
  (forall n v, readable v -> conforming n t (attempt v) out (attempted o)) -> readable v ->
  conforming n t (spin attempt v) out (attempted o).
Proof using Type.
  intros Hattempt Hv.
  conforms_iter (fun s x => s.1.2 = NOT_ACQUIRED /\ readable s.2 /\ (s.1.1 = 0 \/ refused o s.2) /\ x = out);
    [|by intros ???????[]|by repeat split; [..|left]].
  clear v Hv. intros n1 [[k res] v] x _ (Hres & Hv & Hk & ->). simpl in Hres, Hv, Hk. subst res.
  destruct (k <? MAX_SPIN_COUNT) eqn:E.
  2:{ destruct Hk as [->|Hk]; [done|]. apply conforms_ret. right. done. }
  conforms_seq; [by apply Hattempt|].
  intros n2 [res w] x _ [[Hres ->]|(Hres & Hw & Hr & ->)]; simpl in Hres; subst res; cbn beta iota.
  - apply conforms_ret. by left.
  - simpl in Hw, Hr. conforms_by (fun _ x => x = out).
    + destruct (k mod 4 =? 0); [by apply conforms_yield_now|by apply conforms_ret].
    + intros n3 [] x _ ->. apply conforms_ret. by repeat split; [..|right].
Qed.

Lemma conforms_try_lock_spin n :
  conforming n t (try_lock_internal_spin lk) out (attempted Exclusive).
Proof using HA Ht.
  conforms_seq.
  { apply (conforms_take lk Lock _ N A kind P inside HA shared_max t Ht _ 0 _ Exclusive); [done|split; [done|unfold_masks; lia]|done]. }
  intros n1 [w|w] x _ Hx; [apply conforms_ret; by left|]. destruct Hx as [Hw ->].
  apply conforms_spin; [|done]. intros; by apply conforms_lock_attempt.
Qed.

Lemma conforms_try_share_spin n :
  conforming n t (try_share_internal_spin lk) out (attempted Shared).
Proof using HA Ht.
  conforms_by (fun r x => match r with Ok _ => x = (Aside pr (Some Shared), None, c) | Err v => readable v /\ x = out end).
  - apply (conforms_fetch_update _ _ _ _ _ _ _ _ readable);
      [by intros ? []|by intros; apply allotment_weak| |].
    { intros g m Hg (w & Hs). by eapply (state_readable lk Lock _ N A kind P inside HA shared_max). }
    intros n1 v Hv. apply conforms_ret. split; [done|]. destruct (v <? MAX_SHARED_OWNERS) eqn:E; [|done].
    apply Z.ltb_lt in E. unfold MAX_SHARED_OWNERS in E. intros g m wk Hg (w & Hs) Hw.
    destruct (readable_data v Hv) as [Ew Hd]; [unfold_masks; lia|]. rewrite Ew in Hw.
    exists (Aside pr (Some Shared), None, c). split; [|done]. apply allotment_weak.
    rewrite usize_add_small by (unfold is_data, usize_modulus in *; unfold_masks; lia).
    apply (take_step lk Lock MAX_SHARED_OWNERS N A kind P inside HA shared_max t Ht g m w v _ Shared c); try done.
    unfold fits, MAX_SHARED_OWNERS. simpl. apply orb_true_intro. right. apply Z.leb_le. lia.
  - intros n1 [w|w] x _ Hx; [apply conforms_ret; by left|]. destruct Hx as [Hw ->].
    apply conforms_spin; [|done]. intros; by apply conforms_share_attempt.
Qed.

End attempts.

Abbreviation out := (Out, None, c).

(** ** Waiting *)

Lemma conforms_acquire_sync n o attempt :
  kind t = None -> plain o = true ->
  (forall n, conforming n t attempt out (attempted Nothing o)) ->
  conforming n t (acquire_sync_with attempt o lk (A t) (Ret tt)) out
    (fun b x => b = true /\ x = (Holding o, None, c)).
Proof using HA Hapart Hkind Ht.
  intros Ek Ho Hattempt. conforms_iter (fun _ x => x = out); [|by intros ????????|done].
  intros n1 s x _ ->. conforms_seq; [apply Hattempt|].
  intros n2 [res w] x _ [[Hres ->]|(Hres & _ & Hr & ->)]; simpl in Hres; subst res; [by apply conforms_ret|].
  eapply conforms_then; [apply _|by apply conforms_debug_assert|]. intros n3 _. simpl in Hr.
  conforms_seq; [by apply (conforms_wait_sync lk Lock _ N A kind P inside Hkind HA Hapart shared_max t Ht)|].
  intros n4 [v|[]] x _ Hx; [destruct Hx as [-> ->]|by apply conforms_ret].
  eapply conforms_then; [apply _|by apply conforms_debug_assert|]. intros n5 _. by apply conforms_ret.
Qed.

Lemma conforms_acquire_async n o attempt cx :
  kind t = Some cx -> plain o = true ->
  (forall n, conforming n t attempt out (attempted Nothing o)) ->
  conforming n t (acquire_async_with attempt o lk (A t) cx (Ret tt)) out
    (fun b x => b = true /\ x = (Holding o, None, c)).
Proof using HA Hapart Hkind Ht.
  intros Ek Ho Hattempt. conforms_iter (fun _ x => x = out); [|by intros ????????|done].
  intros n1 s x _ ->. conforms_seq; [apply Hattempt|].
  intros n2 [res w] x _ [[Hres ->]|(Hres & _ & Hr & ->)]; simpl in Hres; subst res; [by apply conforms_ret|].
  eapply conforms_then; [apply _|by apply conforms_debug_assert|]. intros n3 _. simpl in Hr.
  apply (conforms_enqueue_task lk Lock _ N A kind P inside Hkind HA Hapart shared_max t Ht _ _ _ _ cx); [done..| |].
  - intros n4 _. eapply conforms_then; [apply _|by apply conforms_ret|]. intros n5 _.
    conforms_seq; [by apply (conforms_await lk Lock _ N A kind P inside Hkind HA Hapart t Ht)|].
    intros n6 v x _ [-> ->]. eapply conforms_then; [apply _|by apply conforms_debug_assert|]. intros n7 _.
    conforms_seq; [by apply (conforms_retire lk Lock _ N A kind P inside Hkind HA Hapart t Ht)|].
    intros n8 [] x _ ->. by apply conforms_ret.
  - intros n4 en _ Hen.
    conforms_seq; [by apply (conforms_abandon lk Lock _ N A kind P inside Hkind HA Hapart t Ht)|].
    intros n5 [] x _ ->. by apply conforms_ret.
Qed.

Lemma conforms_acquire n :
  conforming n t (acquire kind t lk (A t)) out (fun b x => b = true /\ x = (Holding Exclusive, None, c)).
Proof using HA Hapart Hkind Ht.
  unfold acquire. destruct (kind t) as [cx|] eqn:Ek;
    [apply conforms_acquire_async|apply conforms_acquire_sync]; auto using conforms_try_lock_spin.
Qed.

Lemma conforms_share n :
  conforming n t (share kind t lk (A t)) out (fun b x => b = true /\ x = (Holding Shared, None, c)).
Proof using HA Hapart Hkind Ht.
  unfold share. destruct (kind t) as [cx|] eqn:Ek;
    [apply conforms_acquire_async|apply conforms_acquire_sync]; auto using conforms_try_share_spin.
Qed.

  Context (Hc : inside c = None).

(** ** Waiting for a while, or through a pager *)

Definition obtained (o : Opcode) (mn : manner) (r : option bool) (x : ghost) : Prop :=
  match r with
  | Some b => b = true /\ x = (Holding o, None, c)
  | None => gives_up mn = true /\ x = out
  end.

Lemma shared_below o : o = Shared -> MAX_SHARED_OWNERS < DATA_MASK.
Proof using Type. clear. intros _. unfold MAX_SHARED_OWNERS. unfold_masks. lia. Qed.

Lemma conforms_acquire_within n o attempt cx k :
  kind t = Some cx -> plain o = true ->
  (forall n, conforming n t attempt out (attempted Nothing o)) ->
  conforming n t (acquire_within attempt o lk (A t) cx k) out (obtained o (Limited k)).
Proof using HA Hapart Hkind Ht Hc.
  intros Ek Ho Hattempt. conforms_iter (fun _ x => x = out); [|by intros ????????|done].
  intros n1 s x _ ->. conforms_seq; [apply Hattempt|].
  intros n2 [res w] x _ [[Hres ->]|(Hres & _ & Hr & ->)]; simpl in Hres; subst res; [by apply conforms_ret|].
  eapply conforms_then; [apply _|by apply conforms_debug_assert|]. intros n3 _. simpl in Hr.
  apply (conforms_enqueue_task lk Lock _ N A kind P inside Hkind HA Hapart shared_max t Ht _ _ _ _ cx); [done..| |].
  - intros n4 _.
    conforms_seq; [by apply (conforms_await_within lk Lock _ N A kind P inside Hkind HA Hapart)|].
    intros n5 [v|] x _ Hx.
    + destruct Hx as [-> ->]. eapply conforms_then; [apply _|by apply conforms_debug_assert|]. intros n6 _.
      conforms_seq; [by apply (conforms_retire lk Lock _ N A kind P inside Hkind HA Hapart t Ht)|].
      intros n7 [] x _ ->. by apply conforms_ret.
    + subst x. conforms_seq.
      { by apply (conforms_give_up lk Lock (fun _ => eq_refl) N A kind P inside Hkind HA Hapart shared_max t Ht o Asleep c
          eq_refl Hc (shared_below o)). }
      intros n7 [] x _ ->. by apply conforms_ret.
  - intros n4 en _ Hen.
    conforms_seq; [by apply (conforms_abandon lk Lock _ N A kind P inside Hkind HA Hapart t Ht)|].
    intros n5 [] x _ ->. by apply conforms_ret.
Qed.

(** Registering a pager. *)
Lemma conforms_lock_register n o mode attempt :
  plain o = true -> mode_opcode mode = o ->
  (forall pr n, conforming n t attempt (Aside pr None, None, c) (attempted pr o)) ->
  match mode with
  | MExclusive => try_lock_internal_spin lk
  | MShared => try_share_internal_spin lk
  | _ => state <- load lk ;; Ret (wait_result mode state, state)
  end = attempt ->
  conforming n t (Lock.register_pager lk (A t) mode (is_thread kind t)) (Aside Allocated None, None, c)
    (fun b x => b = true /\ x = (Waiting o true Ready, None, c)).
Proof using HA Hapart Hkind Ht Hc.
  intros Ho <- Hattempt Eattempt. unfold Lock.register_pager. rewrite Eattempt.
  conforms_seq; [by apply (conforms_is_unregistered lk Lock N A kind P inside Hkind HA Hapart t Ht)|].
  intros n1 b x _ [-> ->]. cbn iota.
  conforms_seq; [by apply (conforms_construct lk Lock _ N A kind P inside Hkind HA Hapart t Ht)|].
  intros n2 [] x _ (en & Hen & ->). conforms_by (fun (_ : unit) x => x = (Waiting (mode_opcode mode) true Ready, None, c));
    [|intros n3 [] x _ ->; by apply conforms_ret].
  apply (conforms_register lk Lock N A kind P inside Hkind HA Hapart shared_max t Ht (mode_opcode mode) c Hc n2 attempt
    (fun result => (result =? ACQUIRED) || (result =? POISONED)) (fun result => result)); [done| |done].
  intros n3 en'. eapply conforms_mono; [apply Hattempt|].
  intros [r v] x [[Hr ->]|(Hr & _ & Hv & ->)]; simpl in Hr; subst r; done.
Qed.

Lemma conforms_lock_paged n o register tries stays :
  (forall n, conforming n t register (Aside Allocated None, None, c)
    (fun b x => b = true /\ x = (Waiting o true Ready, None, c))) ->
  conforming n t
    (result <- through_pager Lock not_ready kind t (A t) register tries stays ;; Ret (option_map granted result))
    out (obtained o (Paged tries stays)).
Proof using HA Hapart Hkind Ht Hc.
  intros Hreg. conforms_seq.
  - apply (conforms_pager_life lk Lock (fun _ => eq_refl) N A kind P inside Hkind HA Hapart shared_max t Ht o c Hc
      (shared_below o) not_ready (Ok true) eq_refl); [| |exact Hreg].
    + intros n1 x. eapply conforms_then; [apply _|by apply conforms_debug_assert|]. intros n2 _. by apply conforms_ret.
    + intros v n1 x. by apply conforms_ret.
  - intros n1 [r|] x _ [-> ->]; apply conforms_ret; by split.
Qed.

Lemma conforms_acquire_as n mn : conforming n t (acquire_as kind t lk (A t) mn) out (obtained Exclusive mn).
Proof using HA Hapart Hkind Ht Hc.
  unfold acquire_as. destruct mn as [|k|tries stays]; [|destruct (kind t) as [cx|] eqn:Ek|].
  1,3: conforms_seq; [apply conforms_acquire|]; intros n1 b x _ [-> ->]; by apply conforms_ret.
  - apply conforms_acquire_within; auto using conforms_try_lock_spin.
  - apply conforms_lock_paged. intros n1.
    by apply (conforms_lock_register _ _ MExclusive (try_lock_internal_spin lk)); auto using conforms_try_lock_spin.
Qed.

Lemma conforms_share_as n mn : conforming n t (share_as kind t lk (A t) mn) out (obtained Shared mn).
Proof using HA Hapart Hkind Ht Hc.
  unfold share_as. destruct mn as [|k|tries stays]; [|destruct (kind t) as [cx|] eqn:Ek|].
  1,3: conforms_seq; [apply conforms_share|]; intros n1 b x _ [-> ->]; by apply conforms_ret.
  - apply conforms_acquire_within; auto using conforms_try_share_spin.
  - apply conforms_lock_paged. intros n1.
    by apply (conforms_lock_register _ _ MShared (try_share_internal_spin lk)); auto using conforms_try_share_spin.
Qed.

(** ** Releasing *)

Lemma conforms_lock_release n :
  conforming n t (release_lock lk) (Holding Exclusive, None, c) (fun b x => b = true /\ x = out).
Proof using HA Hapart Hkind Ht Hc.
  apply (conforms_release_fast lk Lock N A kind P inside Hkind HA Hapart shared_max t Ht Nothing Exclusive c);
    [done|done|split; [done|]]. unfold_masks; lia.
Qed.

Lemma conforms_share_release n :
  conforming n t (release_share lk) (Holding Shared, None, c) (fun b x => b = true /\ x = out).
Proof using HA Hapart Hkind Ht Hc.
  pose proof (shared_below Shared) as Hsh.
  conforms_by (fun r x => match r with Ok _ => x = out | Err v => giveable Shared v /\ x = (Holding Shared, None, c) end).
  - apply (conforms_fetch_update _ _ _ _ _ _ _ _ (giveable Shared));
      [by intros ? []|by intros; apply allotment_weak| |].
    { intros g m Hg HI. by eapply (holding_giveable lk Lock N A kind P inside HA shared_max t Ht Nothing Shared). }
    intros n1 v Hv. apply conforms_ret. split; [done|].
    destruct (negb (v =? 0) && (v <=? MAX_SHARED_OWNERS)) eqn:E; [|done].
    apply andb_prop in E as [_ E%Z.leb_le]. unfold MAX_SHARED_OWNERS in E. intros g m wk Hg HI Hw.
    destruct Hv as (a & b & d & -> & Ha & Hd & Hd' & _).
    assert (a = 0 /\ b = false) as [-> ->].
    { apply addr_div in Ha as (k & -> & Hk). unfold word, is_data in *. unfold_masks. destruct b; lia. }
    exists out. split; [|done]. rewrite usize_sub_word by done.
    by apply (state_in_place lk Lock N A kind P inside HA shared_max t Ht Nothing Shared g m c 0 false d wk); [..|left].
  - intros n1 [v|v] x _ Hx; [subst x; by apply conforms_ret|]. destruct Hx as [Hv ->].
    by apply (conforms_release_loop lk Lock N A kind P inside Hkind HA Hapart shared_max t Ht Nothing Shared c).
Qed.

End thread.

End locking.
