(* ===== verification/Crowd.v ===== *)
(** * Crowds, under all interleavings

    A barrier and a gate use the wait queue in the same way: threads and tasks
    push their entries with a compare-and-exchange, whoever lets them go takes the
    whole queue by storing a word without an address, and tells the entries
    one by one, newest first, while new threads may already queue up again and
    other threads take and tell those.
    This file gives the invariant of such a primitive and proves that the
    operations involved follow it in every interleaving: constructing an
    entry, pushing it, taking the queue, telling the taken entries, waiting,
    and dropping the wait queue.  What the data of the state word counts is
    left to the client, which supplies a predicate [P]. *)

From Stdlib Require Import FunctionalExtensionality.
From S2P Require Import Prelude Prog Word Opcode Memory WaitQueue Geometry Results.
From S2P Require Import Queue Interleaving Concurrent Delivery Areas Private Telling SyncPrimitive Enqueue Crate Pager Polling.

(** ** Ghost state *)

(** What a thread does with its wait queue: nothing; the anchor is allocated;
    it is set; an entry is constructed that nobody else knows of; the entry
    is pushed, and the pollable flag is known to be set if [pollable].  [r] says
    which results it may get, and, once it has seen it, is the result. *)
Inductive phase : Type :=
| Out
| Anchored
| Addressed
| Built (en : Entry)
| Waiting (r : Z) (pollable : bool) (ow : owning).

(** Who is told by whom: the tasks of the threads. *)
Definition tasks {C} (g : tid -> ghost_of phase C) : tid -> option job := fun u => task_of (g u).

Lemma tasks_same {C} (g : tid -> ghost_of phase C) t x : task_of x = task_of (g t) -> tasks (upd g t x) = tasks g.
Proof.
  intros E. apply functional_extensionality. intros u. unfold tasks, upd. case_decide; [by subst|done].
Qed.

Lemma tasks_upd {C} (g : tid -> ghost_of phase C) t x : tasks (upd g t x) = upd (tasks g) t (task_of x).
Proof. apply functional_extensionality. intros u. unfold tasks, upd. by case_decide. Qed.

(** The thread [u] is among those that the thread [p] has still to tell. *)
Definition told_by (ts : tid -> option job) (p : tid) (j : job) (u : tid) : Prop := ts p = Some j /\ u ∈ left_of j.

(** It is queued, or somebody has still to tell it. *)
Definition attached (ts : tid -> option job) (l : list tid) (u : tid) : Prop := u ∈ l \/ exists p j, told_by ts p j u.

(** How far the delivery to the waiting thread [u] is, [l] being queued, and
    which result [r] it gets. *)
Record staged (ts : tid -> option job) (l : list tid) (u : tid) (r : Z) (de : delivering) : Prop := {
  s_queued : u ∈ l -> de = Start;
  s_told p j : told_by ts p j u -> r = j_result j /\ de = if decide (u = j_head j) then j_step j else Start;
  s_free : ~ attached ts l u -> de = Delivered \/
    de = Final /\ exists p j, ts p = Some j /\ j_head j = u /\ j_step j = Final;
}.

(** No thread is told twice. *)
Record orderly (ts : tid -> option job) (l : list tid) : Prop := {
  o_queue : NoDup l;
  o_job p j : ts p = Some j -> NoDup (j_head j :: j_rest j);
  o_apart p q j k u : told_by ts p j u -> told_by ts q k u -> p = q;
  o_queued p j u : told_by ts p j u -> u ∉ l;
}.

Lemma staged_nonfinal ts l u r de : orderly ts l -> staged ts l u r de -> attached ts l u -> is_final de = false.
Proof.
  intros Ho Hs [Hl|(p & j & Hj)]; [by rewrite (s_queued _ _ _ _ _ Hs Hl)|].
  destruct (s_told _ _ _ _ _ Hs p j Hj) as [_ ->]. case_decide as Hu; [|done].
  destruct Hj as [Hp Hin]. pose proof (o_job _ _ Ho p j Hp) as [Hni _]%list.NoDup_cons.
  unfold left_of in Hin. destruct (is_final (j_step j)); [|done]. by subst.
Qed.

(** ** What telling changes *)

Section telling.
  Context (ts : tid -> option job) (l : list tid) (p : tid) (r : Z) (h : tid) (rest : list tid) (de : delivering).
  Context (Hp : ts p = Some (Job r h rest de)) (Hsafe : orderly ts l).

Abbreviation after de' := (upd ts p (telling r h rest de')).

Lemma left_telling j de' u :
  telling r h rest de' = Some j -> (u ∈ left_of j <-> u ∈ if is_final de' then rest else h :: rest).
Proof. destruct de'; intros [= <-] || (destruct rest; intros [= <-]); done. Qed.

Lemma told_telling q k u de' :
  (is_final de = true -> is_final de' = true) -> told_by (after de') q k u ->
  exists k', told_by ts q k' u /\ j_result k' = j_result k.
Proof using Hp.
  intros Hf [Hq Hu]. unfold upd in Hq. case_decide as Hqp; [subst q|by exists k].
  exists (Job r h rest de). split; [split; [done|]|].
  - apply (left_telling k de' u Hq) in Hu. unfold left_of. simpl.
    destruct (is_final de); [by rewrite Hf in Hu|]. destruct (is_final de'); [by right|done].
  - destruct de'; injection Hq as <- || (destruct rest; [done|]; injection Hq as <-); done.
Qed.

Lemma orderly_telling de' : (is_final de = true -> is_final de' = true) -> orderly (after de') l.
Proof using Hp Hsafe.
  intros Hf. pose proof Hsafe as [H1 H2 H3 H4]. split; [done| | |].
  - intros q k. unfold upd. case_decide as Hqp; [|apply H2]. subst q. intros Hk.
    pose proof (H2 p _ Hp) as Hnd. simpl in Hnd.
    destruct de'; injection Hk as <- || (destruct rest; [done|]; injection Hk as <-); try done.
    by apply list.NoDup_cons in Hnd as [_ ?].
  - intros q q' k k' u Hk Hk'. destruct (told_telling _ _ _ _ Hf Hk) as (j & Hj & _).
    destruct (told_telling _ _ _ _ Hf Hk') as (j' & Hj' & _). eauto.
  - intros q k u Hk. destruct (told_telling _ _ _ _ Hf Hk) as (j & Hj & _). eauto.
Qed.

(** A thread other than the one being told. *)
Lemma told_other q k u de' :
  u <> h -> told_by ts q k u ->
  exists k', told_by (after de') q k' u /\ j_result k' = j_result k /\
    (if decide (u = j_head k) then j_step k else Start) = (if decide (u = j_head k') then j_step k' else Start).
Proof using Hp.
  intros Hu [Hq Hin]. unfold told_by, upd. case_decide as Hqp; [subst q|by exists k].
  rewrite Hp in Hq. injection Hq as <-. simpl. rewrite (decide_False (P := u = h)) by done.
  assert (u ∈ rest) as Hr.
  { unfold left_of in Hin. simpl in Hin. destruct (is_final de); [done|]. by apply elem_of_cons in Hin as [?|?]. }
  assert (forall d, exists k', (Some (Job r h rest d) = Some k' /\ u ∈ left_of k') /\
    j_result k' = r /\ Start = (if decide (u = j_head k') then j_step k' else Start)) as Hcase.
  { intros d. exists (Job r h rest d). split; [|simpl; by rewrite decide_False]. split; [done|].
    unfold left_of. simpl. by destruct (is_final d); [|right]. }
  destruct de' as [|b| | |]; [apply (Hcase Start)|apply (Hcase (Published b))|apply (Hcase Notifying)|apply (Hcase Final)|].
  destruct rest as [|h' rest']; [by apply not_elem_of_nil in Hr|]. eexists. split; [split; [done|exact Hr]|].
  split; [done|]. simpl. by case_decide.
Qed.

Lemma staged_other u r' de' d :
  (is_final de = true -> is_final de' = true) -> u <> h ->
  staged ts l u r' d -> staged (after de') l u r' d.
Proof using Hp.
  intros Hf Hu [H1 H2 H3]. split; [done| |].
  - intros q k Hk. pose proof Hk as Hk0. destruct (told_telling _ _ _ _ Hf Hk) as (j & Hj & Hres).
    destruct (told_other q j u de' Hu Hj) as (k' & [Hq' _] & Hres' & Est). destruct Hk0 as [Hq _].
    assert (k' = k) as -> by congruence. destruct (H2 q j Hj) as [-> ->]. by rewrite Est.
  - intros Hno. assert (~ attached ts l u) as Hno'.
    { intros [Hl|(q & k & Hk)]; apply Hno; [by left|]. right.
      destruct (told_other q k u de' Hu Hk) as (k' & Hk' & _). by exists q, k'. }
    destruct (H3 Hno') as [->|(-> & q & k & Hq & Hh & Hst)]; [by left|]. right. split; [done|].
    exists q, k. rewrite upd_ne; [done|]. intros ->. rewrite Hp in Hq. injection Hq as <-. by destruct Hu.
Qed.

(** The one being told. *)
Lemma staged_head de' :
  is_final de = false -> staged ts l h r de -> staged (after de') l h r de'.
Proof using Hp Hsafe.
  intros Hf Hs. assert (told_by ts p (Job r h rest de) h) as Hh.
  { split; [done|]. unfold left_of. simpl. rewrite Hf. by left. }
  assert (is_final de = true -> is_final de' = true) as Hff by (by rewrite Hf).
  pose proof (o_queued _ _ Hsafe _ _ _ Hh) as Hnl.
  pose proof (o_job _ _ Hsafe _ _ Hp) as [Hni _]%list.NoDup_cons. simpl in Hni.
  split.
  - by intros ?%Hnl.
  - intros q k Hk. pose proof Hk as [Hq Hin]. destruct (told_telling _ _ _ _ Hff Hk) as (j & Hj & _).
    assert (q = p) as -> by (by eapply o_apart). rewrite upd_eq in Hq.
    apply (left_telling k de' h Hq) in Hin. destruct (is_final de') eqn:E; [done|].
    rewrite telling_job in Hq by done. injection Hq as <-. simpl. by rewrite decide_True.
  - intros Hno. destruct (is_final de') eqn:E.
    + destruct de'; try done; [|by left]. right. split; [done|]. exists p, (Job r h rest Final).
      by rewrite upd_eq.
    + destruct Hno. right. exists p, (Job r h rest de'). split; [by rewrite upd_eq, telling_job|].
      unfold left_of. simpl. rewrite E. by left.
Qed.

End telling.

(** The thread that was told last, which may wait again already. *)
Lemma staged_last ts l p r h rest r' d :
  ts p = Some (Job r h rest Final) -> orderly ts l -> staged ts l h r' d ->
  exists d', staged (upd ts p (next_job r rest)) l h r' d' /\ (d' = d \/ d = Final /\ d' = Delivered).
Proof.
  intros Hp Ho Hs. pose proof Hs as [H1 H2 H3]. pose proof (o_job _ _ Ho _ _ Hp) as [Hni _]%list.NoDup_cons. simpl in Hni.
  assert (forall q k, told_by (upd ts p (next_job r rest)) q k h -> told_by ts q k h) as Hback.
  { intros q k [Hq Hin]. unfold upd in Hq. case_decide as Hqp; [|done]. exfalso. apply Hni.
    destruct rest; [done|]. by injection Hq as <-. }
  assert (attached ts l h -> attached (upd ts p (next_job r rest)) l h) as Hforth.
  { intros [Hl|(q & k & Hq & Hin)]; [by left|]. right. exists q, k. split; [|done]. rewrite upd_ne; [done|].
    intros ->. rewrite Hp in Hq. by injection Hq as <-. }
  destruct (decide (is_final d = true)) as [Hf|Hf].
  - assert (~ attached ts l h) as Hno.
    { intros Hat. by rewrite (staged_nonfinal _ _ _ _ _ Ho Hs Hat) in Hf. }
    exists Delivered. split; [|by destruct d; try done; auto]. split; [|intros q k Hk|by left].
    + intros Hl. by destruct Hno; left.
    + destruct Hno. right. exists q, k. by apply Hback.
  - exists d. split; [|by left]. split; [done|by intros q k Hk%Hback; eapply H2|].
    intros Hno. destruct H3 as [->|[-> _]]; [intros Hat%Hforth; by apply Hno|by left|by destruct Hf].
Qed.

(** The thread [t] takes the queue, to tell [r]. *)
Section taking.
  Context (ts : tid -> option job) (l : list tid) (t : tid) (r : Z) (Ht : ts t = None) (Hsafe : orderly ts l).

Abbreviation taken := (upd ts t (next_job r l)).

Lemma left_next_job j u : next_job r l = Some j -> u ∈ left_of j -> u ∈ l.
Proof using Type. clear Ht Hsafe. destruct l; [done|]. by intros [= <-]. Qed.

Lemma told_taken q k u : told_by taken q k u -> (q = t /\ u ∈ l /\ next_job r l = Some k) \/ (q <> t /\ told_by ts q k u).
Proof using Type.
  clear Ht Hsafe. intros [Hq Hin]. unfold upd in Hq. case_decide; [left|by right]. split; [done|]. split; [|done].
  by eapply left_next_job.
Qed.

Lemma told_still q k u : told_by ts q k u -> told_by taken q k u.
Proof using Ht. clear Hsafe. intros [Hq Hin]. split; [|done]. rewrite upd_ne; [done|congruence]. Qed.

Lemma orderly_taken : orderly taken [].
Proof using Ht Hsafe.
  destruct Hsafe as [H1 H2 H3 H4]. split.
  - apply NoDup_nil_2.
  - intros q k. unfold upd. case_decide; [|apply H2]. destruct l; [done|]. by intros [= <-].
  - intros q q' k k' u Hk Hk'.
    destruct (told_taken _ _ _ Hk) as [(-> & Hl & _)|[_ Hj]], (told_taken _ _ _ Hk') as [(-> & Hl' & _)|[_ Hj']]; eauto.
    + by destruct (H4 _ _ _ Hj').
    + by destruct (H4 _ _ _ Hj).
  - intros q k u _. apply not_elem_of_nil.
Qed.


Lemma staged_taken u : u ∈ l -> staged taken [] u r Start.
Proof using Ht Hsafe.
  intros Hu. split; [by intros ?%not_elem_of_nil| |].
  - intros q k Hk. destruct (told_taken _ _ _ Hk) as [(-> & _ & E)|[_ Hj]].
    + destruct l; [done|]. injection E as <-. simpl. split; [done|]. by case_decide.
    + by destruct (o_queued _ _ Hsafe _ _ _ Hj).
  - intros Hno. destruct Hno. right. exists t. unfold told_by. rewrite upd_eq.
    destruct l as [|h rest]; [by apply not_elem_of_nil in Hu|]. by eexists.
Qed.

Lemma staged_untaken u r' d : u ∉ l -> staged ts l u r' d -> staged taken [] u r' d.
Proof using Ht.
  clear Hsafe.
  intros Hu [H1 H2 H3]. split; [by intros ?%not_elem_of_nil| |].
  - intros q k Hk. destruct (told_taken _ _ _ Hk) as [(_ & ? & _)|[_ Hj]]; [done|by eapply H2].
  - intros Hno. destruct H3 as [->|(-> & q & k & Hq & Hk)]; [intros [?|(q & k & Hk)]; [done|]|by left|].
    + apply Hno. right. exists q, k. by apply told_still.
    + right. split; [done|]. exists q, k. rewrite upd_ne; [done|congruence].
Qed.

End taking.

(** The thread [t] joins the queue. *)
Lemma orderly_push ts l t : orderly ts l -> ~ attached ts l t -> orderly ts (t :: l).
Proof.
  intros [H1 H2 H3 H4] Hno. split; [|done|done|].
  - apply list.NoDup_cons. split; [|done]. intros Hl. by destruct Hno; left.
  - intros p j u Hj. rewrite not_elem_of_cons. split; [|eauto]. intros ->. destruct Hno. right. by exists p, j.
Qed.

Lemma staged_push ts l t u r d : u <> t -> staged ts l u r d -> staged ts (t :: l) u r d.
Proof.
  intros Hu [H1 H2 H3]. split; [|done|].
  - intros [?|?]%elem_of_cons; [done|by apply H1].
  - intros Hno. apply H3. intros [?|?]; apply Hno; [left; by right|by right].
Qed.

Lemma staged_pushed ts l t r : ~ attached ts l t -> staged ts (t :: l) t r Start.
Proof.
  intros Hno. split; [done| |].
  - intros p j Hj. destruct Hno. right. by exists p, j.
  - intros H. destruct H. left. by left.
Qed.

(** A thread that nobody tells and that is not queued. *)
Lemma staged_done ts l u r : ~ attached ts l u -> staged ts l u r Delivered.
Proof.
  intros Hno. split; [|intros p j Hj|by left].
  - intros Hl. by destruct Hno; left.
  - destruct Hno. right. by exists p, j.
Qed.

(** ** The invariant *)

(** A client that knows the result a waiting thread gets, and nothing of the
    entries. *)
Definition same_result (r r' : Z) : Prop := r' = r /\ is_u8 r.

Lemma same_result_u8 r r' : same_result r r' -> is_u8 r'.
Proof. by intros [-> ?]. Qed.

Definition undescribed (a : Z) (s : Primitive) : Prop := True.

Section crowd.
  Context {C : Type}.

(** A thread's wait queue, its task, and what the client records. *)
Abbreviation ghost := (ghost_of phase C).

  Context (self : Z) (N : nat) (A : tid -> Z) (kind : waiting_mode).

Abbreviation mon := (monitor_of kind).

(** The results that a waiting thread may get, given what it knows of them, and
    what is known of the primitive's address and the callback in an entry. *)
  Context (ok : Z -> Z -> Prop) (desc : Z -> Primitive -> Prop).

(** The client's invariant: of the other words, its ghost states, the queue,
    the data of the word, with its flag, and what is known of the result the
    queue will get. *)
  Context (P : gmap Z Z -> (tid -> C) -> list tid -> Z -> Z -> Prop).

(** The words of other objects. *)
Definition others (m : mem) : gmap Z Z := delete self (words m).

(** What the phase of the thread [u] says of the queue and of those who are told. *)
Definition placed (ts : tid -> option job) (l : list tid) (lr : Z) (u : tid) (ph : phase) : Prop :=
  match ph with
  | Waiting r _ ow => u ∈ l -> r = lr
  | _ => ~ attached ts l u
  end.

(** A pushed entry. *)
Definition marked (m : mem) (u : tid) (pollable : bool) : Prop :=
  exists en, entries m !! wq_entry (A u) = Some en /\ desc (e_addr en) (e_drop_callback en) /\
    (pollable = true -> e_pollable en = true).

(** What it says of the memory. *)
Definition footing (m : mem) (ts : tid -> option job) (l : list tid) (u : tid) (ph : phase) : Prop :=
  match ph with
  | Out => True
  | Anchored => anchors m !! anchor_addr (A u) = Some 0
  | Addressed => anchors m !! anchor_addr (A u) = Some (anchor_value (A u))
  | Built en => node m (A u) en
  | Waiting r pollable ow =>
      (exists r' de, (if knows ow then r' = r else ok r r') /\ staged ts l u r' de /\
         shape (A u) (mon u) r' ow de m) /\
      (present ow = true -> marked m u pollable)
  end.

Record crowd (g : tid -> ghost) (m : mem) (l : list tid) (d lr : Z) : Prop := {
  c_word : words m !! self = Some (word (first_anchor (A <$> l)) false d);
  c_data : is_low d;
  c_linked : linked m (A <$> l);
  c_orderly : orderly (tasks g) l;
  c_jobs p j : tasks g p = Some j -> linked m (A <$> left_of j);
  c_placed u : placed (tasks g) l lr u (phase_of (g u));
  c_footing u : footing m (tasks g) l u (phase_of (g u));
  c_out u : (N <= u)%nat -> phase_of (g u) = Out;
  c_client : P (others m) (clients g) l d lr;
}.

Definition crowded (g : tid -> ghost) (m : mem) : Prop :=
  exists l d lr, crowd g m l d lr.

(** A thread that waits is asleep, has not been told, and tells nobody. *)
Definition sleeps (t : tid) (g : tid -> ghost) (m : mem) : Prop :=
  (exists r pollable, phase_of (g t) = Waiting r pollable Asleep) /\ task_of (g t) = None /\
  ~ alerted (mon t) m.

Abbreviation conforming := (conforms crowded unsure sleeps).

(** No two tasks have the same waker, and wait queues lie apart. *)
Context (Hkind : wakers_differ N kind).
Context (HA : forall t, (t < N)%nat -> wq_ok (A t)).
Context (Hapart : forall t u, (t < N)%nat -> (u < N)%nat -> t <> u ->
  A t + 128 <= A u \/ A u + 128 <= A t).

(** Results are bytes. *)
Context (Hok : forall r r', ok r r' -> is_u8 r').

Abbreviation untouched := (untouched A kind).
Abbreviation preserved := (preserved A).

(** ** Facts *)

Lemma crowd_phase_lt g m l d lr t : crowd g m l d lr -> phase_of (g t) <> Out -> (t < N)%nat.
Proof using Type.
  intros Hs Hne. destruct (decide (t < N)%nat) as [|Hge]; [done|].
  exfalso. apply Hne, Hs. lia.
Qed.

(** Queued and taken threads wait. *)
Lemma attached_waits g m l d lr u :
  crowd g m l d lr -> attached (tasks g) l u ->
  (u < N)%nat /\ exists r pl ow, phase_of (g u) = Waiting r pl ow.
Proof using Type.
  intros Hs Hu. pose proof (c_placed _ _ _ _ _ Hs u) as Hp.
  destruct (phase_of (g u)) as [| | |en|r pl ow] eqn:E; try by destruct Hp.
  split; [eapply crowd_phase_lt; [done|by rewrite E]|]. by exists r, pl, ow.
Qed.

Lemma queued_lt g m l d lr u : crowd g m l d lr -> u ∈ l -> (u < N)%nat.
Proof using Type. intros Hs Hu. eapply attached_waits; [done|by left]. Qed.

Lemma marked_untouched m m' u pl : untouched m m' u -> marked m u pl -> marked m' u pl.
Proof using Type. intros (_ & He & _). unfold marked. by rewrite He. Qed.

Lemma marked_same_links m m' u pl : same_links (A u) m m' -> marked m u pl -> marked m' u pl.
Proof using Type.
  intros (_ & Hl & Hp) (en & He & Hd & Hpl). rewrite He in Hl.
  destruct (entries m' !! wq_entry (A u)) as [en'|] eqn:E'; [|done].
  assert (links en' = links en) as El by (apply (inj Some); exact Hl). exists en'. split; [done|]. split.
  - assert (e_addr en' = e_addr en /\ e_drop_callback en' = e_drop_callback en) as [-> ->]
      by (by destruct en, en'; injection El as).
    done.
  - intros ->. destruct Hp as (en0 & He0 & Hp0); [exists en; auto|]. congruence.
Qed.

Lemma footing_untouched m m' ts l u ph :
  untouched m m' u -> footing m ts l u ph -> footing m' ts l u ph.
Proof using Type.
  intros Hu. destruct ph as [| | |en|r pl ow]; simpl; [done|..].
  - by rewrite (proj1 Hu).
  - by rewrite (proj1 Hu).
  - by apply (untouched_node A kind).
  - intros [(r' & de & Hr & Hst & Hs) Hp]. split.
    + exists r', de. split; [done|]. split; [done|]. by eapply (shape_untouched A kind).
    + intros Hpr. eapply marked_untouched; [done|auto].
Qed.

(** Where threads are told changes for others. *)
Lemma footing_staged m ts ts' l l' u ph :
  (forall r de, staged ts l u r de -> staged ts' l' u r de) -> footing m ts l u ph -> footing m ts' l' u ph.
Proof using Type.
  intros Hst. destruct ph as [| | |en|r pl ow]; try done.
  intros [(r' & de & Hr & Hs & Hsh) Hp]. split; [|done]. exists r', de. auto.
Qed.

(** ** Steps that leave the queue, the taken entries and the client alone *)

Lemma crowd_step t x g m m' l d lr :
  (t < N)%nat -> crowd g m l d lr -> words m' = words m ->
  (forall u, (u < N)%nat -> u <> t -> untouched m m' u) ->
  (attached (tasks g) l t -> preserved m m' t) ->
  task_of x = task_of (g t) -> client_of x = client_of (g t) ->
  placed (tasks g) l lr t (phase_of x) -> footing m' (tasks g) l t (phase_of x) ->
  crowd (upd g t x) m' l d lr.
Proof using Type.
  intros Ht Hs Hw Hothers Hown Htk Hc Hplaced Hfoot.
  assert (forall u, attached (tasks g) l u -> preserved m m' u) as Hpr.
  { intros u Hu. destruct (decide (u = t)) as [->|Hne]; [auto|].
    apply (untouched_preserved A kind), Hothers; [by eapply attached_waits|done]. }
  split; rewrite ?tasks_same by done.
  - rewrite Hw. apply Hs.
  - apply Hs.
  - eapply linked_preserved; [apply Hs|]. intros u Hu. apply Hpr. by left.
  - apply Hs.
  - intros p j Hj. eapply linked_preserved; [by eapply Hs|]. intros u Hu. apply Hpr. right. by exists p, j.
  - intros u. destruct (decide (u = t)) as [->|Hne]; [by rewrite upd_eq|].
    rewrite upd_ne by done. apply Hs.
  - intros u. destruct (decide (u = t)) as [->|Hne]; [by rewrite upd_eq|].
    rewrite upd_ne by done. destruct (decide (u < N)%nat) as [Hlt|Hge].
    + eapply footing_untouched; [by apply Hothers|apply Hs].
    + by rewrite (c_out _ _ _ _ _ Hs u) by lia.
  - intros u Hu. rewrite upd_ne by lia. by apply Hs.
  - unfold others. rewrite clients_same, Hw by done. apply Hs.
Qed.

(** A wait queue nobody else knows of. *)
Definition own_phase (pr : private) : phase :=
  match pr with
  | Nothing => Out
  | Allocated => Anchored
  | Addressed_ => Addressed
  | Constructed en => Built en
  end.

Lemma footing_own m ts l u pr : footing m ts l u (own_phase pr) <-> private_at (A u) pr m.
Proof using Type. by destruct pr. Qed.

Lemma placed_own ts l lr u pr pr' : placed ts l lr u (own_phase pr) -> placed ts l lr u (own_phase pr').
Proof using Type. by destruct pr, pr'. Qed.

Lemma crowd_private t tk c :
  (t < N)%nat -> PrivateView crowded (A t) t (fun pr => (own_phase pr, tk, c)).
Proof using HA Hapart Hkind.
  intros Ht. split.
  - intros g m pr (l & d & lr & Hs) Hg. pose proof (c_footing _ _ _ _ _ Hs t) as Hf.
    rewrite Hg in Hf. by eapply footing_own.
  - intros g m m' pr pr' (l & d & lr & Hs) Hg Hw Ha He Htok Hwok Hpr.
    pose proof (c_placed _ _ _ _ _ Hs t) as Hp. rewrite Hg in Hp.
    exists l, d, lr. eapply crowd_step; [done|done|done|..]; try by rewrite Hg.
    + intros u Hu Hne. destruct (apart N A HA Hapart u t Hu Ht Hne) as [Hna Hne'].
      split; [by apply Ha|]. split; [by apply He|]. by apply alerted_same.
    + intros Hat. assert (~ attached (tasks g) l t) as Hno by (by destruct pr). by destruct Hno.
    + exact (placed_own _ _ _ _ pr pr' Hp).
    + by apply footing_own.
Qed.

(** ** Owners *)

#[export] Instance crowd_owner t r pl c :
  OwnerView crowded unsure sleeps (A t) (mon t) (ok r) t
    (fun v ow => (Waiting (if knows ow then v else r) pl ow, None, c)) (fun _ => (Out, None, c)).
Proof using HA Hapart Hkind.
  split.
  - intros g m v ow (l & d & lr & Hs) Hg Hne Hv.
    assert (t < N)%nat as Ht by (eapply crowd_phase_lt; [done|by rewrite Hg]).
    pose proof (c_footing _ _ _ _ _ Hs t) as Hf. pose proof (c_placed _ _ _ _ _ Hs t) as Hp.
    rewrite Hg in Hf, Hp. destruct Hf as [(r' & de & Hr & Hst & Hshape) Hmark].
    exists r', de. split; [destruct (knows ow); [rewrite Hr; auto|done]|].
    split; [intros E; by rewrite E in Hr|]. split; [done|]. split; [done|].
    intros ow' m' Hloc Hl Hshape'.
    assert (attached (tasks g) l t -> present ow' = true) as Hpres.
    { intros Hat. pose proof (staged_nonfinal _ _ _ _ _ (c_orderly _ _ _ _ _ Hs) Hst Hat) as Hfin.
      destruct ow'; try done; destruct Hshape'; congruence. }
    exists l, d, lr. eapply crowd_step; [done|done|apply Hloc|..]; try by rewrite Hg.
    + intros u Hu Hut. by apply (local_untouched N A kind Hkind HA Hapart t).
    + intros Hat. apply (local_preserved A kind); [done|]. apply Hl. auto.
    + simpl in Hp |- *. intros Hin. rewrite <- (Hp Hin). assert (attached (tasks g) l t) as Hat by by left.
      pose proof (staged_nonfinal _ _ _ _ _ (c_orderly _ _ _ _ _ Hs) Hst Hat) as Hfin.
      assert (forall ow m, shape (A t) (mon t) r' ow de m -> knows ow = false) as Hk.
      { intros ow0 m0 Hsh. destruct ow0; try done; [|destruct Hsh; congruence..].
        destruct Hsh as (_ & en & w & _ & (_ & _ & _ & Hf) & _). simpl in Hf. congruence. }
      by rewrite (Hk _ _ Hshape), (Hk _ _ Hshape').
    + split.
      * exists r', de. split; [|done]. destruct (knows ow') eqn:E'; [done|].
        destruct (knows ow) eqn:E; [|done]. rewrite Hr. auto.
      * intros Hpr. destruct (Hl Hpr) as (Hpr0 & Hsl). eapply marked_same_links; [done|auto].
  - intros v v' ow Hk. by rewrite Hk.
  - intros g m v _ Hg Hal. split; [rewrite Hg; by eexists _, _|]. by rewrite Hg.
  - intros g m v (l & d & lr & Hs) Hg.
    assert (t < N)%nat as Ht by (eapply crowd_phase_lt; [done|by rewrite Hg]).
    pose proof (c_footing _ _ _ _ _ Hs t) as Hf. rewrite Hg in Hf.
    destruct Hf as [(r' & de & _ & Hst & _ & Hfin) _].
    assert (~ attached (tasks g) l t) as Hno.
    { intros Hat. rewrite (staged_nonfinal _ _ _ _ _ (c_orderly _ _ _ _ _ Hs) Hst Hat) in Hfin. done. }
    exists l, d, lr. eapply crowd_step; [done|done|done|..]; try by rewrite Hg.
    + intros u Hu Hut. destruct (apart N A HA Hapart u t Hu Ht Hut) as [Hna _].
      split; [simpl; by rewrite lookup_delete_ne|done].
    + by intros ?%Hno.
    + done.
    + done.
Qed.

(** ** Delivering threads *)

(** The thread that is being told waits for this result. *)
Lemma crowd_told_waits g m l d lr p h r rest de ph c :
  crowd g m l d lr -> g p = (ph, Some (Job r h rest de), c) -> is_final de = false ->
  (h < N)%nat /\ exists r' pl ow, phase_of (g h) = Waiting r' pl ow /\ (if knows ow then r = r' else ok r' r) /\
    staged (tasks g) l h r de /\ shape (A h) (mon h) r ow de m /\ (present ow = true -> marked m h pl).
Proof using Type.
  intros Hs Hg Hf. assert (told_by (tasks g) p (Job r h rest de) h) as Hh.
  { split; [unfold tasks; by rewrite Hg|]. unfold left_of. simpl. rewrite Hf. by left. }
  destruct (attached_waits _ _ _ _ _ h Hs) as (Hlt & r' & pl & ow & Eph); [right; by exists p, (Job r h rest de)|].
  split; [done|]. exists r', pl, ow. split; [done|].
  pose proof (c_footing _ _ _ _ _ Hs h) as Hfoot. rewrite Eph in Hfoot. destruct Hfoot as [(r1 & de1 & Hr & Hst & Hsh) Hm].
  destruct (s_told _ _ _ _ _ Hst _ _ Hh) as [E1 E2]. simpl in E1, E2. rewrite decide_True in E2 by done. by subst.
Qed.

Lemma placed_telling ts l lr p r h rest de de' u ph :
  ts p = Some (Job r h rest de) -> (is_final de = true -> is_final de' = true) ->
  placed ts l lr u ph -> placed (upd ts p (telling r h rest de')) l lr u ph.
Proof using Type.
  intros Hp Hf. assert (attached (upd ts p (telling r h rest de')) l u -> attached ts l u) as Hat.
  { intros [Hl|(q & k & Hk)]; [by left|]. right.
    destruct (told_telling ts p r h rest de Hp q k u de' Hf Hk) as (k' & Hk' & _). by exists q, k'. }
  destruct ph; simpl; auto.
Qed.

Lemma linked_telling m p ts r h rest de de' q k :
  ts p = Some (Job r h rest de) -> (is_final de = true -> is_final de' = true) ->
  (forall q k, ts q = Some k -> linked m (A <$> left_of k)) ->
  upd ts p (telling r h rest de') q = Some k -> linked m (A <$> left_of k).
Proof using Type.
  intros Hp Hf Hl. unfold upd. case_decide as Hqp; [|eauto]. subst q. specialize (Hl p _ Hp).
  unfold left_of in Hl. simpl in Hl. intros Hk.
  assert (linked m (A <$> (if is_final de' then rest else h :: rest))) as Hl'.
  { destruct (is_final de); [by rewrite Hf|]. destruct (is_final de'); [apply Hl|done]. }
  destruct de'; injection Hk as <- || (destruct rest; [done|]; injection Hk as <-); done.
Qed.

Lemma crowd_deliver g m m' l d lr p h r rest de de' ph c ow r' pl :
  crowd g m l d lr -> g p = (ph, Some (Job r h rest de), c) -> is_final de = false -> (h < N)%nat ->
  phase_of (g h) = Waiting r' pl ow -> (if knows ow then r = r' else ok r' r) ->
  staged (tasks g) l h r de -> (present ow = true -> marked m h pl) ->
  local (A h) (mon h) m m' -> same_links (A h) m m' ->
  shape (A h) (mon h) r ow de' m' ->
  crowd (upd g p (ph, telling r h rest de', c)) m' l d lr.
Proof using HA Hapart Hkind.
  intros Hs Hg Hf Hh Eph Hr Hst Hmark Hloc Hsl Hshape.
  assert (tasks g p = Some (Job r h rest de)) as Hp by (unfold tasks; by rewrite Hg).
  assert (is_final de = true -> is_final de' = true) as Hff by (by rewrite Hf).
  assert (forall u, (u < N)%nat -> u <> h -> untouched m m' u) as Hothers.
  { intros u Hu Hne. by apply (local_untouched N A kind Hkind HA Hapart h). }
  assert (forall u, attached (tasks g) l u -> preserved m m' u) as Hpr.
  { intros u Hu. destruct (decide (u = h)) as [->|]; [by eapply (local_preserved A kind)|].
    apply (untouched_preserved A kind), Hothers; [by eapply attached_waits|done]. }
  assert (forall u tk', phase_of (upd g p (ph, tk', c) u) = phase_of (g u)) as Hph.
  { intros u tk'. unfold upd. case_decide; [subst u|done]. by rewrite Hg. }
  split; rewrite ?tasks_upd.
  - rewrite (local_words _ _ _ _ Hloc). apply Hs.
  - apply Hs.
  - eapply linked_preserved; [apply Hs|]. intros u Hu. apply Hpr. by left.
  - by apply (orderly_telling (tasks g) l p r h rest de Hp); [apply Hs|].
  - intros q0 k0. apply (linked_telling m' p (tasks g) r h rest de de' q0 k0); [done|done|].
    intros q k Hk. eapply linked_preserved; [by eapply Hs|]. intros u Hu. apply Hpr. right. by exists q, k.
  - intros u. rewrite Hph. eapply placed_telling; [done|done|apply Hs].
  - intros u. rewrite Hph. destruct (decide (u = h)) as [->|Huh].
    + rewrite Eph. split; [|intros; by eapply marked_same_links, Hmark]. exists r, de'.
      split; [by destruct (knows ow)|]. split; [|done].
      by eapply (staged_head (tasks g) l p r h rest de); [|apply Hs|..].
    + eapply footing_staged; [intros; by eapply (staged_other (tasks g) l p r h rest de Hp)|].
      destruct (decide (u < N)%nat) as [Hlt|Hge]; [|by rewrite (c_out _ _ _ _ _ Hs u) by lia].
      eapply footing_untouched; [by apply Hothers|apply Hs].
  - intros u Hu. rewrite Hph. by apply Hs.
  - unfold others. rewrite clients_same, (local_words _ _ _ _ Hloc) by (by rewrite Hg). apply Hs.
Qed.

Lemma crowd_told g m m' l d lr p h r rest ph c :
  crowd g m l d lr -> g p = (ph, Some (Job r h rest Final), c) ->
  words m' = words m -> anchors m' = anchors m -> entries m' = entries m ->
  (forall K, alerted K m -> alerted K m') -> alerted (mon h) m' ->
  crowd (upd g p (ph, telling r h rest Delivered, c)) m' l d lr.
Proof using Type.
  intros Hs Hg Hw Ha He Hmono Hal.
  assert (tasks g p = Some (Job r h rest Final)) as Hp by (unfold tasks; by rewrite Hg).
  assert (forall u tk', phase_of (upd g p (ph, tk', c) u) = phase_of (g u)) as Hph.
  { intros u tk'. unfold upd. case_decide; [subst u|done]. by rewrite Hg. }
  assert (forall u, untouched m m' u) as Hun by (intros u; split; [by rewrite Ha|split; [by rewrite He|apply Hmono]]).
  assert (forall u, preserved m m' u) as Hpr by (intros u; by apply (untouched_preserved A kind)).
  split; rewrite ?tasks_upd.
  - rewrite Hw. apply Hs.
  - apply Hs.
  - eapply linked_preserved; [apply Hs|auto].
  - by apply (orderly_telling (tasks g) l p r h rest Final Hp); [apply Hs|].
  - intros q0 k0. apply (linked_telling m' p (tasks g) r h rest Final Delivered q0 k0); [done|done|].
    intros q k Hk. eapply linked_preserved; [by eapply Hs|auto].
  - intros u. rewrite Hph. eapply placed_telling; [done|done|apply Hs].
  - intros u. rewrite Hph. pose proof (footing_untouched m m' _ _ _ _ (Hun u) (c_footing _ _ _ _ _ Hs u)) as Hfoot.
    destruct (decide (u = h)) as [->|Huh].
    + destruct (phase_of (g h)) as [| | |en|r' pl ow]; try done. destruct Hfoot as [(r1 & de & Hr & Hst & Hsh) Hm].
      split; [|done].
      destruct (staged_last _ _ _ _ _ _ _ _ Hp (c_orderly _ _ _ _ _ Hs) Hst) as (de' & Hst' & Hde).
      exists r1, de'. split; [done|]. split; [done|].
      destruct Hde as [->|[-> ->]]; [done|]. by eapply (shape_told _ _ _ _ m').
    + eapply footing_staged; [intros; by eapply (staged_other (tasks g) l p r h rest Final Hp)|done].
  - intros u Hu. rewrite Hph. by apply Hs.
  - unfold others. rewrite clients_same, Hw by (by rewrite Hg). apply Hs.
Qed.

#[export] Instance crowd_deliverer p h r rest ph c :
  DelivererView crowded (A h) (mon h) r p (fun de => (ph, telling r h rest de, c)).
Proof using HA Hapart Hkind.
  split.
  - intros g m de (l & d & lr & Hs) Hg Hf. rewrite telling_job in Hg by done.
    destruct (crowd_told_waits _ _ _ _ _ _ _ _ _ _ _ _ Hs Hg Hf)
      as (Hh & r' & pl & ow & Eph & Hr & Hst & Hshape & Hm).
    exists ow. split; [done|]. intros de' m' Hloc Hsl Hshape'. eexists _, _, _.
    by eapply crowd_deliver.
  - intros g m m' (l & d & lr & Hs) Hg Hw Ha He Hmono Hal. eexists _, _, _. by eapply crowd_told.
Qed.

(** ** Joining the queue *)

Lemma queue_word g m l d lr a d0 :
  crowd g m l d lr -> words m !! self = Some (word a false d0) -> is_addr a -> is_low d0 ->
  a = first_anchor (A <$> l) /\ d0 = d.
Proof using Type.
  intros Hs Hw Ha Hd. rewrite (c_word _ _ _ _ _ Hs) in Hw. injection Hw as E.
  apply low_word_inj in E as [-> ->]; [done|..]; eauto using c_data; eapply first_anchor_is_addr, Hs.
Qed.

(** An entry ready to be pushed. *)
Definition fresh (t : tid) (en : Entry) : Prop :=
  fresh_for kind t en /\ desc (e_addr en) (e_drop_callback en).

Lemma crowd_push g m l d lr t en tk c d' c' :
  crowd g m l d lr -> (t < N)%nat -> g t = (Built en, tk, c) ->
  words m !! self = Some (word (e_next_entry_anchor_ptr en) false d) ->
  is_addr (e_next_entry_anchor_ptr en) -> fresh t en -> (exists r, ok lr r) ->
  is_low d' -> P (others m) (upd (clients g) t c') (t :: l) d' lr ->
  crowd (upd g t (Waiting lr false Ready, tk, c'))
    (set_words (<[self := word (anchor_addr (A t)) false d']> (words m)) m) (t :: l) d' lr.
Proof using Type.
  intros Hs Ht Hg Hw Ha ((Hst & _ & Hmon) & Hdesc) [r Hr] Hd' HPc. set (m' := set_words _ m).
  destruct (queue_word _ _ _ _ _ _ _ Hs Hw Ha (c_data _ _ _ _ _ Hs)) as [En _].
  pose proof (c_placed _ _ _ _ _ Hs t) as Hno. pose proof (c_footing _ _ _ _ _ Hs t) as Hnode.
  rewrite Hg in Hno, Hnode. simpl in Hno, Hnode.
  assert (tasks (upd g t (Waiting lr false Ready, tk, c')) = tasks g) as Ets by (apply tasks_same; by rewrite Hg).
  split; rewrite ?Ets.
  - apply lookup_insert_eq.
  - done.
  - split; [by exists en|by apply (linked_ext m), Hs].
  - by apply orderly_push; [apply Hs|].
  - intros p j Hj. apply (linked_ext m); [done..|]. by eapply Hs.
  - intros u. unfold upd. case_decide as Hut; [by subst u|].
    pose proof (c_placed _ _ _ _ _ Hs u) as Hp.
    assert (attached (tasks g) (t :: l) u -> attached (tasks g) l u) as Hat.
    { intros [[?|?]%elem_of_cons|?]; [done|by left|by right]. }
    destruct (phase_of (g u)); simpl in *; auto. intros [?|?]%elem_of_cons; [done|auto].
  - intros u. unfold upd. case_decide as Hut; [subst u|].
    + simpl. split; [|intros _; exists en; split; [apply Hnode|done]]. exists r, Start. split; [done|].
      split; [by apply staged_pushed|]. split; [done|]. exists en, false. split; [done|]. split; [|done].
      split; [rewrite Hmon; apply monitor_same_kind|]. by rewrite Hst.
    + eapply footing_staged; [intros r0 de; by apply staged_push|]. apply (footing_untouched m m'); [done|apply Hs].
  - intros u Hu. rewrite upd_ne by lia. by apply Hs.
  - rewrite clients_upd. unfold others. simpl. rewrite delete_insert_eq. exact HPc.
Qed.

(** ** Taking the queue *)

Lemma crowd_take wk g m l d lr t ph c d' lr' c' r :
  crowd g m l d lr -> g t = (ph, None, c) -> is_low d' -> (l <> [] -> ok lr r) ->
  P (others m) (upd (clients g) t c') [] d' lr' ->
  crowd (upd g t (ph, next_job r l, c'))
    (set_weak wk (set_words (<[self := word 0 false d']> (words m)) m)) [] d' lr'.
Proof using Type.
  intros Hs Hg Hd' Hr HPc. set (m' := set_weak wk _).
  assert (tasks g t = None) as Ht by (unfold tasks; by rewrite Hg).
  pose proof (c_orderly _ _ _ _ _ Hs) as Ho.
  assert (forall u tk', phase_of (upd g t (ph, tk', c') u) = phase_of (g u)) as Hph.
  { intros u tk'. unfold upd. case_decide; [subst u|done]. by rewrite Hg. }
  split; rewrite ?tasks_upd.
  - apply lookup_insert_eq.
  - done.
  - done.
  - by apply orderly_taken.
  - intros p j Hj. apply (linked_ext m); [done..|]. unfold upd in Hj. case_decide; [|by eapply Hs].
    destruct l; [done|]. injection Hj as <-. apply Hs.
  - intros u. rewrite Hph. pose proof (c_placed _ _ _ _ _ Hs u) as Hp.
    assert (attached (upd (tasks g) t (next_job r l)) [] u -> attached (tasks g) l u) as Hat.
    { intros [?%not_elem_of_nil|(q & k & Hk)]; [done|].
      destruct (told_taken _ _ _ _ _ _ _ Hk) as [(_ & ? & _)|[_ ?]]; [by left|]. right. by exists q, k. }
    destruct (phase_of (g u)); simpl in *; auto. by intros ?%not_elem_of_nil.
  - intros u. rewrite Hph. apply (footing_untouched m m'); [done|].
    pose proof (c_footing _ _ _ _ _ Hs u) as Hfoot. destruct (decide (u ∈ l)) as [Hin|Hni].
    + pose proof (c_placed _ _ _ _ _ Hs u) as Hp.
      destruct (attached_waits _ _ _ _ _ u Hs (or_introl Hin)) as (_ & r' & pl & ow & Eph).
      rewrite Eph in Hfoot, Hp |- *. destruct Hfoot as [(r1 & de & Hr1 & Hst & Hsh) Hm]. split; [|done].
      rewrite (s_queued _ _ _ _ _ Hst Hin) in Hsh.
      assert (knows ow = false) as Ek.
      { destruct ow; try done; [|by destruct Hsh..]. by destruct Hsh as (_ & en & w & _ & (_ & _ & _ & [=]) & _). }
      rewrite Ek. exists r, Start. split; [rewrite (Hp Hin); apply Hr; by destruct l; [apply not_elem_of_nil in Hin|]|].
      split; [by apply staged_taken|]. by eapply shape_start.
    + eapply footing_staged; [intros r0 de; by apply staged_untaken|done].
  - intros u Hu. rewrite Hph. by apply Hs.
  - rewrite clients_upd. unfold others. simpl. rewrite delete_insert_eq. exact HPc.
Qed.
(** ** Constructing an entry *)

Section thread.
  Context (t : tid) (Ht : (t < N)%nat) (tk : option job) (c : C).

(** The thread's anchor is set. *)
Definition has_anchor (ph : phase) : Prop :=
  match ph with
  | Out | Anchored => False
  | Waiting _ _ ow => ow <> Freed
  | _ => True
  end.

Lemma crowd_anchor g m ph :
  has_anchor ph -> g t = (ph, tk, c) -> crowded g m ->
  anchors m !! anchor_addr (A t) = Some (anchor_value (A t)).
Proof using Type.
  intros Hph Hg (l & d & lr & Hs). pose proof (c_footing _ _ _ _ _ Hs t) as Hf.
  rewrite Hg in Hf. destruct ph as [| | |en|r pl ow]; try done; [apply Hf|].
  destruct Hf as [(r' & de & _ & _ & Hshape) _]. simpl in Hph. destruct ow; try done;
    destruct Hshape as (? & en & w & Hn & _) || destruct Hshape as ((en & Hn & _) & _); apply Hn.
Qed.

Lemma conforms_crowd_entry n ph :
  has_anchor ph ->
  conforming n t (entry (A t)) (ph, tk, c) (fun e x => e = wq_entry (A t) /\ x = (ph, tk, c)).
Proof using HA Ht.
  intros Hph. apply conforms_entry; [apply _|auto| |done]. intros g m Hg HI.
  by eapply crowd_anchor.
Qed.

Lemma conforms_crowd_entry_ptr n ph :
  has_anchor ph ->
  conforming n t (to_entry_ptr (anchor_addr (A t))) (ph, tk, c)
    (fun e x => e = wq_entry (A t) /\ x = (ph, tk, c)).
Proof using HA Ht.
  intros Hph. apply conforms_to_entry_ptr; [apply _|auto| |done]. intros g m Hg HI.
  by eapply crowd_anchor.
Qed.

Lemma conforms_crowd_anchor_ptr n ph :
  conforming n t (anchor_ptr (A t)) (ph, tk, c)
    (fun a x => a = (anchor_addr (A t), anchor_addr (A t) - A t) /\ x = (ph, tk, c)).
Proof using HA Ht. by apply conforms_anchor_ptr; [apply _|apply HA|]. Qed.

Abbreviation own := (fun pr => (own_phase pr, tk, c) : ghost).

#[local] Instance thread_private : PrivateView crowded (A t) t own.
Proof using HA Hapart Hkind Ht. by apply crowd_private. Qed.

Lemma conforms_crowd_default n :
  conforming n t (wait_queue_default (A t)) (Out, tk, c) (fun _ x => x = (Anchored, tk, c)).
Proof using HA Hapart Hkind Ht.
  exact (private_default crowded unsure sleeps (A t) (HA t Ht) t own n).
Qed.

Lemma conforms_construct_fresh n S o :
  desc self S ->
  conforming n t (construct S (A t) self o (is_thread kind t)) (Anchored, tk, c)
    (fun _ x => exists en, fresh t en /\ x = (Built en, tk, c)).
Proof using HA Hapart Hkind Ht.
  intros Hd. eapply conforms_mono;
    [exact (private_construct crowded unsure sleeps (A t) (HA t Ht) t own kind S self o n)|].
  intros [] x ->. eexists. by split; [|reflexivity].
Qed.

(** An update of an entry nobody else knows of. *)
Lemma conforms_built_update n {B} en (field : Entry -> B) f (Q : B -> ghost -> Prop) :
  e_offset (f en) = e_offset en -> Q (field en) (Built (f en), tk, c) ->
  conforming n t (update_field (wq_entry (A t)) field f) (Built en, tk, c) Q.
Proof using HA Hapart Hkind Ht.
  exact (private_update crowded unsure sleeps (A t) t own n en field f Q).
Qed.

(** An entry that was used, or could not be pushed, is constructed anew. *)
Lemma conforms_construct_again n S o en :
  e_state en = 0 -> e_pollable en = false -> (forall a s, desc a s) ->
  conforming n t (construct S (A t) self o (is_thread kind t)) (Built en, tk, c)
    (fun _ x => exists en, fresh t en /\ x = (Built en, tk, c)).
Proof using HA Hapart Hkind Ht.
  intros Hst Hpl Hd. eapply conforms_mono;
    [exact (private_construct_again crowded unsure sleeps (A t) (HA t Ht) t own kind S self o n en Hst Hpl)|].
  intros [] x (en' & Hen & ->). exists en'. by split.
Qed.

(** A pager without an entry is not registered. *)
Lemma conforms_crowd_unregistered n :
  conforming n t (is_registered (A t)) (Anchored, tk, c) (fun b x => b = false /\ x = (Anchored, tk, c)).
Proof using HA Hapart Hkind Ht.
  exact (private_unregistered crowded unsure sleeps (A t) (HA t Ht) t own n).
Qed.

(** Linking an entry in front of the queue it is about to be pushed to. *)
Lemma conforms_crowd_link n en a :
  is_addr a ->
  conforming n t (update_next_entry_anchor_ptr (wq_entry (A t)) a) (Built en, tk, c)
    (fun _ x => x = (Built (set_next a en), tk, c)).
Proof using HA Hapart Hkind Ht.
  exact (private_link crowded unsure sleeps (A t) t own n en a).
Qed.

End thread.

(** ** Waiting *)

Section waiting.
  Context (t : tid) (Ht : (t < N)%nat) (c : C) (r : Z).

(** The owner raises the pollable flag of its pushed entry. *)
Lemma conforms_crowd_pollable n :
  conforming n t (set_pollable (wq_entry (A t))) (Waiting r false Ready, None, c)
    (fun _ x => x = (Waiting r true Ready, None, c)).
Proof using HA Hapart Hkind Ht.
  apply conforms_update_field. intros g m Hg (l & d & lr & Hs).
  pose proof (c_footing _ _ _ _ _ Hs t) as Hf. pose proof (c_placed _ _ _ _ _ Hs t) as Hp.
  rewrite Hg in Hf, Hp. destruct Hf as [(r' & de & Hr & Hst & Hpr & en & w & Hn & Hen & Hal) Hm].
  exists en. split; [apply Hn|]. exists (Waiting r true Ready, None, c). split; [|done].
  pose proof (local_entry (A t) (mon t) (weak m) m (set_poll true en)) as Hloc.
  assert (keeps en (set_poll true en)) as Hkeeps by done.
  pose proof Hn as (_ & _ & He & _).
  pose proof (same_links_entry (A t) (weak m) m en (set_poll true en) He Hkeeps) as Hsl.
  exists l, d, lr. eapply crowd_step; [done|done|done|..]; try by rewrite Hg.
  - intros u Hu Hut. by apply (local_untouched N A kind Hkind HA Hapart t u m _ Ht Hu Hut Hloc).
  - intros _. by apply (local_preserved A kind t m _ Hloc Hsl).
  - exact Hp.
  - split.
    + exists r', de. split; [done|]. split; [done|].
      apply (live_update (A t) (mon t) r' (weak m) m en Ready _ (set_poll true en) w); done.
    + intros _. exists (set_poll true en). split; [apply lookup_insert_eq|]. split; [|done].
      destruct (Hm eq_refl) as (en0 & He0 & Hd & _). assert (en0 = en) as -> by congruence. exact Hd.
Qed.

Lemma conforms_registered n :
  conforming n t (is_registered (A t)) (Waiting r true Ready, None, c)
    (fun b x => b = true /\ x = (Waiting r true Ready, None, c)).
Proof using HA Ht.
  pose proof (HA t Ht) as Hwq. conforms_seq; [by apply conforms_crowd_anchor_ptr|].
  intros n1 a x _ [-> ->]. conforms_seq; [by apply conforms_crowd_entry_ptr|]. intros n2 e x _ [-> ->].
  rewrite wq_entry_eqb_0 by done. apply conforms_read_field. intros g m Hg HI.
  pose proof HI as (l & d & lr & Hs). pose proof (c_footing _ _ _ _ _ Hs t) as Hf.
  rewrite Hg in Hf. destruct Hf as [_ Hm]. destruct (Hm eq_refl) as (en & He & _ & Hpl). specialize (Hpl eq_refl).
  exists en. split; [done|]. apply kept_same; [done|]. by rewrite Hg.
Qed.

(** The owner's view of its entry. *)
Abbreviation mine := (fun v ow => (Waiting (if knows ow then v else r) true ow, None, c) : ghost).
Abbreviation mine_after := (fun _ : Z => (Out, None, c) : ghost).

#[local] Instance mine_owner : OwnerView crowded unsure sleeps (A t) (mon t) (ok r) t mine mine_after.
Proof using HA Hapart Hkind. exact (crowd_owner t r true c). Qed.

(** Waiting for the result, as a thread or as a task. *)
Lemma conforms_crowd_poll_sync n :
  kind t = None ->
  conforming n t (poll_result_sync (wq_entry (A t))) (Waiting r true Ready, None, c)
    (fun v x => ok r v /\ x = (Waiting v true (Taken true), None, c)).
Proof using HA Hapart Hkind Ht Hok.
  intros Ek. apply (conforms_poll_result_sync crowded unsure sleeps (A t) (mon t) (ok r) (HA t Ht) (Hok r) t mine mine_after 0).
  unfold monitor_of. by rewrite Ek.
Qed.

Lemma conforms_crowd_await n cx :
  kind t = Some cx ->
  conforming n t (await_result (A t) cx) (Waiting r true Ready, None, c)
    (fun v x => ok r v /\ x = (Waiting v true (Taken true), None, c)).
Proof using HA Hapart Hkind Ht Hok.
  intros Ek. apply (conforms_await_result crowded unsure sleeps (A t) (mon t) (ok r) (HA t Ht) (Hok r) t mine mine_after 0).
  unfold monitor_of. by rewrite Ek.
Qed.

Lemma conforms_crowd_poll n S {R} `{SyncResult S R} (Q : R -> ghost -> Prop) :
  (forall v, ok r v -> v <> ERROR_WRONG_MODE) ->
  (forall n' v, ok r v -> conforming n' t (to_result S v None) (Waiting v true (Taken true), None, c) Q) ->
  conforming n t (poll_by S kind t (A t)) (Waiting r true Ready, None, c) Q.
Proof using HA Hapart Hkind Ht Hok.
  intros Hne HQ. pose proof (HA t Ht) as Hwq.
  assert (forall n v, ok r v -> conforming n t
    (if v =? ERROR_WRONG_MODE then to_result S v (Some WrongMode) else to_result S v None)
    (Waiting v true (Taken true), None, c) Q) as Hto.
  { intros n1 v Hv. pose proof (Hne v Hv) as E%Z.eqb_neq. rewrite E. by apply HQ. }
  unfold poll_by. destruct (kind t) as [cx|] eqn:Ek;
    (conforms_seq; [by apply conforms_registered|]; intros n1 b x _ [-> ->]; simpl negb; cbv iota).
  - conforms_seq; [by apply conforms_crowd_await|]. intros n2 v x _ [Hv ->]. by apply Hto.
  - conforms_seq; [by apply conforms_crowd_entry|]. intros n2 e x _ [-> ->].
    conforms_seq; [by apply conforms_crowd_poll_sync|]. intros n3 v x _ [Hv ->]. by apply Hto.
Qed.

Lemma conforms_crowd_try_poll n S {R} `{SyncResult S R} (Q Q' : R -> ghost -> Prop) :
  (forall n' v, ok r v -> conforming n' t (to_result S v None) (Waiting v true (Taken true), None, c) Q) ->
  (forall n', conforming n' t (to_result S 0 (Some NotReady)) (Waiting r true Ready, None, c) Q') ->
  conforming n t (try_poll S (A t)) (Waiting r true Ready, None, c) (fun y x => Q y x \/ Q' y x).
Proof using HA Hapart Hkind Ht Hok.
  intros HQ HQ'. conforms_seq; [by apply conforms_registered|]. intros n1 b x _ [-> ->]. simpl negb. cbn iota.
  conforms_seq; [by apply conforms_crowd_entry|]. intros n2 e x _ [-> ->].
  conforms_seq; [by apply (conforms_try_consume crowded unsure sleeps (A t) (mon t) (ok r) (Hok r) t mine mine_after 0)|].
  intros n3 [v|] x _ Hx; [destruct Hx as [Hv ->]|subst x];
    (eapply conforms_mono; [by (apply HQ || apply HQ')|]); intros y x Hy; by (left + right).
Qed.

Lemma conforms_crowd_drop n r0 :
  ok r0 r ->
  conforming n t (wait_queue_drop (A t)) (Waiting r true (Taken true), None, c)
    (fun _ x => x = (Out, None, c)).
Proof using HA Hapart Hkind Ht.
  intros Hr. by apply (conforms_drop crowded unsure sleeps (A t) (mon t) (ok r0) (HA t Ht) t
    (fun v ow => (Waiting (if knows ow then v else r0) true ow, None, c)) (fun _ => (Out, None, c)) r).
Qed.

(** A task that polls its pager some times only. *)
Lemma conforms_crowd_poll_within n S {R} `{SyncResult S R} (Q : R -> ghost -> Prop) cx k :
  kind t = Some cx -> (forall v, ok r v -> v <> ERROR_WRONG_MODE) ->
  (forall n' v, ok r v -> conforming n' t (to_result S v None) (Waiting v true (Taken true), None, c) Q) ->
  conforming n t (poll_within S (A t) cx k) (Waiting r true Ready, None, c) (fun y x =>
    match y with
    | Some y => Q y x
    | None => x = (Waiting r true Asleep, None, c)
    end).
Proof using HA Hapart Hkind Ht Hok.
  intros Ek Hne HQ. conforms_seq; [by apply conforms_registered|]. intros n1 b x _ [-> ->]. simpl negb. cbv iota.
  conforms_seq.
  { apply (conforms_await_for crowded sleeps (A t) (mon t) (ok r) (HA t Ht) (Hok r) t mine mine_after 0).
    unfold monitor_of. by rewrite Ek. }
  intros n2 [v|] x _ Hx; [|subst x; by apply conforms_ret]. destruct Hx as [Hv ->].
  pose proof (Hne v Hv) as ->%Z.eqb_neq. conforms_seq; [by apply HQ|]. intros n3 y x _ Hx. by apply conforms_ret.
Qed.

(** Whoever sleeps may be resumed at any time, to give up. *)
Lemma conforms_crowd_arise n {B} (p : program B) Q :
  (forall m b, step t p m <> SDone b) ->
  conforming n t p (Waiting r true Ready, None, c) Q -> conforming n t p (Waiting r true Asleep, None, c) Q.
Proof using HA Hapart Hkind.
  intros Hp Hc. apply conforms_relabel; [apply _|done|]. intros g m Hg HI. exists (Waiting r true Ready, None, c).
  split; [|split; [|done]].
  - destruct (own_step crowded unsure sleeps (A t) (mon t) (ok r) t mine mine_after 0 g m m Asleep Ready
      (fun x => x = (Waiting r true Ready, None, c))) as (x & HI' & Hx); try done; [|by rewrite <- Hx].
    intros r' de (Hpr & en & w & Hn & Hen & _). split; [done|]. exists en, w. by split.
  - intros ((r' & pl & Hph) & _). by rewrite upd_eq in Hph.
Qed.

(** The fields of its entry that nobody changes. *)
Lemma conforms_crowd_field n {B} (field : Entry -> B) v :
  (forall en, desc (e_addr en) (e_drop_callback en) -> e_pollable en = true -> field en = v) ->
  conforming n t (read_field (wq_entry (A t)) field) (Waiting r true Ready, None, c)
    (fun b x => b = v /\ x = (Waiting r true Ready, None, c)).
Proof using Type.
  intros Hv. apply conforms_read_field. intros g m Hg HI.
  pose proof HI as (l & d & lr & Hs). pose proof (c_footing _ _ _ _ _ Hs t) as Hf.
  rewrite Hg in Hf. destruct Hf as [_ Hm]. destruct (Hm eq_refl) as (en & He & Hd & Hpl).
  exists en. split; [done|]. apply kept_same; [done|]. rewrite Hg. auto.
Qed.

(** Giving up: the primitive's callback has to end the wait. *)
Lemma conforms_crowd_give_up `{DropCallbacks} n S ow :
  ow = Ready \/ ow = Asleep -> (forall a s, desc a s -> s = S) ->
  (forall n, conforming n t (drop_callback S (wq_entry (A t))) (Waiting r true Ready, None, c)
     (fun _ x => exists y, ok r y /\ x = (Waiting y true (Taken true), None, c))) ->
  conforming n t (wait_queue_drop (A t)) (Waiting r true ow, None, c) (fun _ x => x = (Out, None, c)).
Proof using HA Hapart Hkind Ht.
  intros How Hd Hback. assert (forall n, conforming n t (wait_queue_drop (A t)) (Waiting r true Ready, None, c) (fun _ x => x = (Out, None, c))) as Hdrop.
  { clear n. intros n. eapply conforms_mono;
      [apply (conforms_drop_by crowded unsure sleeps (A t) (mon t) (ok r) (HA t Ht) t mine mine_after 0 n Ready (ok r)); [done..|]|by intros [] x (y & _ & ->)].
    clear n. intros n. conforms_seq; [apply (conforms_crowd_field n e_pollable true); by intros|]. intros n1 b x _ [-> ->]. cbn iota.
    conforms_seq; [apply (conforms_crowd_field n1 e_drop_callback S); by eauto|]. intros n2 s x _ [-> ->].
    conforms_seq; [apply Hback|]. intros n3 [] x _ (y & Hy & ->).
    eapply conforms_mono; [apply (conforms_own_consume crowded unsure sleeps (A t) (mon t) (ok r) t mine mine_after y n3 (Taken true) true (set_poll false)); [done|eauto|done|]|].
    - intros en Hst. split; [by apply Hst|done].
    - intros [] x ->. by exists y. }
  destruct How as [-> | ->]; [apply Hdrop|]. apply conforms_crowd_arise; [|apply Hdrop].
  intros m b. simpl. by destruct (A t mod 8 =? 0).
Qed.

(** A thread that has consumed its result, and did not own what it waited
    for, owns its entry alone. *)
Lemma crowd_reclaim g m pl :
  crowded g m -> g t = (Waiting r pl (Taken true), None, c) ->
  exists en, crowded (upd g t (Built en, None, c)) m /\ e_state en = 0 /\ e_pollable en = false.
Proof using HA Hapart Hkind Ht.
  intros (l & d & lr & Hs) Hg. pose proof (c_footing _ _ _ _ _ Hs t) as Hf. rewrite Hg in Hf.
  destruct Hf as [(r' & de & _ & Hst & (en & Hn & Hen & Hpl) & Hfin) _]. exists en. split; [|auto].
  assert (~ attached (tasks g) l t) as Hno.
  { intros Hat. rewrite (staged_nonfinal _ _ _ _ _ (c_orderly _ _ _ _ _ Hs) Hst Hat) in Hfin. done. }
  exists l, d, lr. eapply crowd_step; [done|done|done|..]; try by rewrite Hg.
  all: done.
Qed.

End waiting.

(** ** Telling the taken entries *)

Section tell.
  Context (t : tid) (ph : phase) (c : C) (r : Z).

Lemma job_linked g m ls :
  ls <> [] -> crowded g m -> g t = (ph, next_job r ls, c) -> linked m (A <$> ls).
Proof using Type.
  intros Hne (l & d & lr & Hs) Hg. destruct ls as [|h rest]; [done|].
  apply (c_jobs _ _ _ _ _ Hs t (Job r h rest Start)). unfold tasks. by rewrite Hg.
Qed.

End tell.

(** The whole of a queue that was taken with the state word. *)
Lemma conforms_tell_queue t ph c r n ls d {Y} (k : Y -> Y) y :
  is_u8 r -> Forall (fun u => wq_ok (A u)) ls -> is_data d ->
  conforming n t
    (let anchor_ptr := to_anchor_ptr (word (first_anchor (A <$> ls)) false d) in
     if negb (anchor_ptr =? 0)
     then
       tail_entry_ptr <- to_entry_ptr anchor_ptr ;;
       iter_forward tail_entry_ptr false
         (fun e _ y => set_result e r ;;; Ret (k y, false)) y
     else Ret y)
    (ph, next_job r ls, c)
    (fun y' x => y' = Nat.iter (length ls) k y /\ x = (ph, None, c)).
Proof using HA Hapart Hkind.
  intros Hr Hwq Hd. cbv zeta.
  assert (is_addr (first_anchor (A <$> ls))) as Ha.
  { destruct ls as [|h ls]; [apply is_addr_0|]. by apply anchor_addr_is_addr, (Forall_inv Hwq). }
  rewrite word_to_anchor_ptr by done. destruct ls as [|h ls]; [by apply conforms_ret|].
  cbn [fmap list_fmap first_anchor]. rewrite anchor_addr_eqb_0 by apply (Forall_inv Hwq). simpl negb.
  conforms_by (fun e x => e = first_entry (A <$> (h :: ls)) /\ x = (ph, next_job r (h :: ls), c)).
  { apply (conforms_job_entry crowded sleeps A t r (fun tk => (ph, tk, c)) (job_linked t ph c r) n (h :: ls)); done. }
  intros n1 e x _ [-> ->].
  by apply (conforms_tell_all crowded sleeps A kind t r Hr (fun tk => (ph, tk, c))
    (job_linked t ph c r) (fun h rest => crowd_deliverer t h r rest ph c)).
Qed.

(** ** What the client does *)

(** A thread that tells nobody may change what the client records of it, and
    the words of other objects. *)
Lemma crowd_client g m m' l d lr t ph tk c c' :
  crowd g m l d lr -> g t = (ph, tk, c) -> words m' !! self = words m !! self ->
  anchors m' = anchors m -> entries m' = entries m ->
  tokens m' = tokens m -> woken m' = woken m ->
  P (others m') (upd (clients g) t c') l d lr ->
  crowd (upd g t (ph, tk, c')) m' l d lr.
Proof using Type.
  intros Hs Hg Hw Ha He Htok Hwok HPc.
  assert (forall u, phase_of (upd g t (ph, tk, c') u) = phase_of (g u)) as Hph.
  { intros u. unfold upd. case_decide; [subst u|done]. by rewrite Hg. }
  assert (tasks (upd g t (ph, tk, c')) = tasks g) as Ets by (apply tasks_same; by rewrite Hg).
  split; rewrite ?Ets; try apply Hs.
  - rewrite Hw. apply Hs.
  - by apply (linked_ext m), Hs.
  - intros p j Hj. apply (linked_ext m); [done..|]. by eapply Hs.
  - intros u. rewrite Hph. apply Hs.
  - intros u. rewrite Hph. eapply (footing_untouched m); [|apply Hs].
    split; [by rewrite Ha|]. split; [by rewrite He|]. by apply alerted_same.
  - intros u. rewrite Hph. apply Hs.
  - by rewrite clients_upd.
Qed.

(** In the beginning nobody has a wait queue. *)
Lemma crowd_start g m d lr :
  words m !! self = Some (word 0 false d) -> is_low d ->
  (forall u, phase_of (g u) = Out /\ task_of (g u) = None) -> P (others m) (clients g) [] d lr ->
  crowd g m [] d lr.
Proof using Type.
  intros Hw Hd Hg HPc. assert (forall p j, tasks g p <> Some j) as Hts by (intros p j; unfold tasks; by destruct (Hg p) as [_ ->]).
  assert (forall u, ~ attached (tasks g) [] u) as Hno.
  { intros u [?%not_elem_of_nil|(p & j & Hp & _)]; [done|by destruct (Hts p j)]. }
  split; try done.
  - split; [apply NoDup_nil_2|by intros p j ?%Hts|by intros p q j k u [?%Hts _]|by intros p j u [?%Hts _]].
  - by intros p j ?%Hts.
  - intros u. destruct (Hg u) as [-> _]. apply Hno.
  - intros u. by destruct (Hg u) as [-> _].
  - intros u _. apply Hg.
Qed.

(** When nobody tells anybody, a sleeping thread is queued. *)
Lemma sleeping_queued g m l d lr u :
  crowd g m l d lr -> (forall p, task_of (g p) = None) -> sleeps u g m -> u ∈ l.
Proof using Type.
  intros Hs Hnobody ((r & pl & Hph) & _ & Hni). apply dec_stable. intros Hno. pose proof (c_footing _ _ _ _ _ Hs u) as Hf.
  rewrite Hph in Hf. destruct Hf as [(r' & de & _ & Hst & _ & en & w & _ & _ & Hal) _].
  assert (forall p j, tasks g p <> Some j) as Hts by (intros p j; unfold tasks; by rewrite Hnobody).
  destruct (s_free _ _ _ _ _ Hst) as [->|(_ & p & j & Hp & _)].
  - intros [?|(p & j & Hp & _)]; [done|by destruct (Hts p j)].
  - by destruct (Hal eq_refl).
  - by destruct (Hts p j).
Qed.

(** A spurious failure changes nothing. *)
Lemma crowded_weak g m wk : crowded g m -> crowded g (set_weak wk m).
Proof using Type.
  intros (l & d & lr & Hs). exists l, d, lr. rewrite <- (upd_id g 0%nat).
  destruct (g 0%nat) as [[ph tk] c] eqn:Hg. eapply crowd_client; try done.
  assert (c = clients g 0%nat) as -> by (unfold clients; by rewrite Hg). rewrite upd_id. apply Hs.
Qed.

(** ** Telling oneself *)

(** A thread may set the result of its own entry, which nobody else knows of:
    with the last access it is as if it had been queued and told. *)
Lemma crowd_adopt g m l d lr t en c c' r r0 :
  crowd g m l d lr -> (t < N)%nat -> g t = (Built en, None, c) ->
  e_state en = entry_state true false false r -> e_pollable en = true ->
  same_kind (mon t) (e_monitor en) = true -> desc (e_addr en) (e_drop_callback en) -> ok r0 r ->
  P (others m) (upd (clients g) t c') l d lr ->
  crowd (upd g t (Waiting r0 true Ready, None, c'))
    (set_entries (<[wq_entry (A t) := set_state (Z.lor (e_state en) RESULT_FINALIZED) en]> (entries m)) m) l d lr.
Proof using HA Hapart Hok.
  intros Hs Ht Hg Hst Hpl Hmon Hdesc Hr HPc. set (en' := set_state _ en).
  pose proof (c_placed _ _ _ _ _ Hs t) as Hno. pose proof (c_footing _ _ _ _ _ Hs t) as Hn.
  rewrite Hg in Hno, Hn. change (node m (A t) en) in Hn. simpl in Hno.
  rewrite <- (upd_upd g t (Built en, None, c')). set (m' := set_entries _ m).
  assert (node m' (A t) en') as Hn' by (by eapply node_insert).
  assert (tasks (upd g t (Built en, None, c')) = tasks g) as Ets by (apply tasks_same; by rewrite Hg).
  apply (crowd_step t _ _ m m'); rewrite ?Ets; try done.
  - by apply (crowd_client g m m l d lr t (Built en) None c).
  - intros u Hu Hne. destruct (apart N A HA Hapart u t Hu Ht Hne) as [_ Hne'].
    split; [done|]. split; [simpl; by rewrite lookup_insert_ne|done].
  - by rewrite upd_eq.
  - by rewrite upd_eq.
  - intros Hin. by destruct Hno; left.
  - split; [|intros _; exists en'; split; [apply Hn'|done]]. exists r, Delivered. split; [done|].
    split; [by apply staged_done|]. split; [done|]. exists en', false. split; [done|]. split; [|done].
    split; [done|]. split; [|done]. simpl. rewrite Hst. apply entry_state_finalize. by eapply Hok.
Qed.

Lemma conforms_tell_oneself n t en r r0 c c' :
  (t < N)%nat -> fresh t en -> ok r0 r ->
  (forall ws cs l d lr, cs t = c -> (t ∉ l) -> P ws cs l d lr -> P ws (upd cs t c') l d lr) ->
  conforming n t (set_result (wq_entry (A t)) r) (Built en, None, c)
    (fun _ x => x = (Waiting r0 true Ready, None, c')).
Proof using HA Hapart Hkind Hok.
  intros Ht ((Hst & Hpl & Hmon) & Hdesc) Hr HPc.
  assert (PrivateView crowded (A t) t (fun pr => (own_phase pr, None, c))) as Hview by (by apply crowd_private).
  apply (private_set_result crowded unsure sleeps (A t) t (fun pr => (own_phase pr, None, c)));
    [by intros g []|by eapply Hok|done| |].
  { intros g m wk. apply crowded_weak. }
  intros n1. set (en' := set_state (entry_state true false false r) (set_poll true en)).
  apply conforms_update_field. intros g m Hg HI. pose proof HI as (l & d & lr & Hs). exists en'.
  split; [apply (private_open g m (Constructed en') HI Hg)|]. exists (Waiting r0 true Ready, None, c'). split; [|done].
  exists l, d, lr. apply (crowd_adopt g m l d lr t en' c c' r); try done.
  - simpl. rewrite Hmon. apply monitor_same_kind.
  - apply HPc; [by unfold clients; rewrite Hg| |apply Hs].
    pose proof (c_placed _ _ _ _ _ Hs t) as Hno. rewrite Hg in Hno. intros Hin. by destruct Hno; left.
Qed.

(** A store to a word of the client. *)
Lemma conforms_client_swap n t cell v ph c c' :
  cell <> self -> (forall r pl ow, ph <> Waiting r pl ow) ->
  (forall ws cs l d lr, cs t = c -> (t ∉ l) -> P ws cs l d lr ->
     is_Some (ws !! cell) /\ P (<[cell := v]> ws) (upd cs t c') l d lr) ->
  conforming n t (swap cell v) (ph, None, c) (fun _ x => x = (ph, None, c')).
Proof using Type.
  intros Hcell Hph HPc. apply conforms_swap. intros g m Hg (l & d & lr & Hs).
  pose proof (c_placed _ _ _ _ _ Hs t) as Hp. rewrite Hg in Hp.
  assert (t ∉ l) as Hni.
  { destruct ph as [| | | |r pl ow]; try (intros Hin; by destruct Hp; left). by destruct (Hph r pl ow). }
  destruct (HPc (others m) (clients g) l d lr) as [[w Hw] HPc'];
    [by unfold clients; rewrite Hg|done|apply Hs|].
  unfold others in Hw. rewrite lookup_delete_ne in Hw by done.
  exists w. split; [done|]. exists (ph, None, c'). split; [|done]. exists l, d, lr.
  eapply crowd_client; [done|done|..]; try done.
  - simpl. by rewrite lookup_insert_ne.
  - unfold others. simpl. by rewrite delete_insert_ne.
Qed.

Lemma conforms_rename n t {B} (p : program B) ph c c' Q :
  (forall m b, step t p m <> SDone b) ->
  (forall ws cs l d lr, cs t = c -> P ws cs l d lr -> P ws (upd cs t c') l d lr) ->
  conforming n t p (ph, None, c') Q -> conforming n t p (ph, None, c) Q.
Proof using Type.
  intros Hp HPc Hc. apply conforms_relabel; [apply _|done|].
  intros g m Hg (l & d & lr & Hs). exists (ph, None, c'). split; [|split; [|done]].
  - exists l, d, lr. eapply crowd_client; try done. apply HPc; [by unfold clients; rewrite Hg|apply Hs].
  - intros (Hph & _ & Hni). rewrite upd_eq in Hph. unfold sleeps. by rewrite Hg.
Qed.

(** Starting over with an entry whose result did not end the wait. *)
Lemma conforms_reclaim n t {B} (p : program B) r c Q :
  (t < N)%nat -> (forall m b, step t p m <> SDone b) ->
  (forall en, e_state en = 0 -> e_pollable en = false -> conforming n t p (Built en, None, c) Q) ->
  conforming n t p (Waiting r true (Taken true), None, c) Q.
Proof using HA Hapart Hkind.
  intros Ht Hp Hc. apply conforms_relabel; [apply _|done|]. intros g m Hg HI.
  destruct (crowd_reclaim t Ht c r g m true HI Hg) as (en & HI' & Hst & Hpl).
  exists (Built en, None, c). split; [done|]. split; [|auto].
  intros ((r' & pl & Hph) & _). by rewrite upd_eq in Hph.
Qed.

(** The state word, of whose data the client knows [R]. *)
Lemma conforms_crowd_load n t ph tk c (R : Z -> Prop) :
  (forall ws cs l d lr, P ws cs l d lr -> R d) ->
  conforming n t (load self) (ph, tk, c) (fun w x =>
    exists a d, w = word a false d /\ is_addr a /\ R d /\ x = (ph, tk, c)).
Proof using Type.
  intros HR. apply conforms_load. intros g m Hg HI. pose proof HI as (l & d & lr & Hs).
  eexists. split; [apply Hs|]. apply kept_same; [done|]. eexists _, d. split; [done|].
  split; [eapply first_anchor_is_addr, Hs|]. split; [eapply HR, Hs|done].
Qed.

(** The compare-and-exchange that pushes an entry; what it will get is
    something that the client knows of. *)
Lemma conforms_crowd_push n t tk c c' en d d' (R S : Z -> Prop) :
  (t < N)%nat -> fresh t en -> is_addr (e_next_entry_anchor_ptr en) -> is_data d -> is_data d' ->
  (forall ws cs l d lr, P ws cs l d lr -> S d) ->
  (forall ws cs l lr, cs t = c -> (t ∉ l) -> P ws cs l d lr ->
     R lr /\ (exists r, ok lr r) /\ P ws (upd cs t c') (t :: l) d' lr) ->
  conforming n t
    (compare_exchange self (word (e_next_entry_anchor_ptr en) false d)
       (word (anchor_addr (A t)) false d'))
    (Built en, tk, c)
    (fun res x =>
      match res with
      | Ok _ => exists r, R r /\ x = (Waiting r false Ready, tk, c')
      | Err w => (exists a d, w = word a false d /\ is_addr a /\ S d) /\ x = (Built en, tk, c)
      end).
Proof using Type.
  intros Ht Hen Ha Hd%data_low Hd'%data_low HS HPc. apply conforms_compare_exchange.
  intros g m Hg HI. pose proof HI as (l & d0 & lr & Hs). eexists. split; [apply Hs|]. split.
  - intros E. pose proof (c_word _ _ _ _ _ Hs) as Hw. rewrite E in Hw.
    destruct (queue_word _ _ _ _ _ _ _ Hs Hw Ha Hd) as [_ ->].
    pose proof (c_placed _ _ _ _ _ Hs t) as Hno. rewrite Hg in Hno.
    destruct (HPc (others m) (clients g) l lr) as (HR & Hr & HPc');
      [by unfold clients; rewrite Hg|intros Hin; by destruct Hno; left|apply Hs|].
    eexists. split; [|by exists lr]. exists (t :: l), d', lr. by eapply crowd_push.
  - intros _. apply kept_same; [done|]. rewrite Hg. split; [|done]. eexists _, d0. split; [done|].
    split; [eapply first_anchor_is_addr, Hs|eapply HS, Hs].
Qed.

(** [try_push_wait_queue_entry] from the state word [word a false d]. *)
Lemma conforms_crowd_try_push n t c c' en a d (R : Z -> Prop) :
  (t < N)%nat -> fresh t en -> is_addr a -> is_data d ->
  (forall ws cs l lr, cs t = c -> (t ∉ l) -> P ws cs l d lr ->
     R lr /\ (exists r, ok lr r) /\ P ws (upd cs t c') (t :: l) d lr) ->
  conforming n t (try_push_wait_queue_entry self (A t) (word a false d)) (Built en, None, c)
    (fun (b : bool) x =>
      if b then exists r, R r /\ x = (Waiting r true Ready, None, c')
      else exists en, fresh t en /\ x = (Built en, None, c)).
Proof using HA Hapart Hkind.
  intros Ht Hen Ha Hd HPc. pose proof (anchor_addr_is_addr _ (HA t Ht)) as Hat.
  conforms_seq; [by apply conforms_crowd_anchor_ptr|]. intros n1 x0 x _ [-> ->].
  eapply conforms_then; [apply _|apply conforms_debug_assert; [by rewrite addr_land_not_addr|done]|].
  intros n2 _. rewrite word_to_anchor_ptr by done.
  conforms_seq; [by apply conforms_crowd_entry|]. intros n3 e x _ [-> ->].
  conforms_seq; [by apply conforms_crowd_link|]. intros n4 [] x _ ->.
  rewrite word_land_not_addr, word_lor_addr by done.
  conforms_seq; [by apply (conforms_crowd_push _ _ None c c' (set_next a en) d d R (fun _ => True))|].
  intros n5 [w|w] x _ Hx; cbv beta in Hx; [destruct Hx as (r & Hr & ->)|destruct Hx as [_ ->]; apply conforms_ret; by exists (set_next a en)].
  conforms_seq; [by apply conforms_crowd_entry|]. intros n6 e x _ [-> ->].
  conforms_seq; [by apply conforms_crowd_pollable|]. intros n7 [] x _ ->. apply conforms_ret. by exists r.
Qed.

End crowd.
