(* ===== verification/MutualExclusion.v ===== *)
(** * Mutual exclusion under all interleavings

    Any number of threads share a counter protected by a lock, through the
    methods that do not wait: writers retry [try_lock], read and write the
    counter in two steps, and call [release_lock]; readers retry [try_share],
    read the counter twice, and call [release_share].  In every interleaving
    of their atomic actions, spurious failures of the weak exchanges included,
    no update is lost, no reader sees the counter change, and nothing
    faults. *)

From S2P Require Import Prelude Prog Word Opcode Memory WaitQueue.
From S2P Require Import SyncPrimitive LockFacts LockSpec Interleaving.
From S2P Require Lock.

(** ** The clients *)

(** Increments the counter at [cell] under the lock at [lk]. *)
Definition writer (lk cell : Z) : program (Z * Z) :=
  Loop (fun _ =>
    locked <- Lock.try_lock lk ;;
    if (locked : bool)
    then
      x <- load cell ;;
      swap cell (x + 1) ;;;
      Lock.release_lock lk ;;;
      Ret (inr (0, 0))
    else Ret (inl tt)) tt.

(** Reads the counter twice under a share of the lock. *)
Definition reader (lk cell : Z) : program (Z * Z) :=
  Loop (fun _ =>
    shared <- Lock.try_share lk ;;
    if (shared : bool)
    then
      x <- load cell ;;
      y <- load cell ;;
      Lock.release_share lk ;;;
      Ret (inr (x, y))
    else Ret (inl tt)) tt.

(** Thread [t] of a pool whose threads are writers ([true]) and readers. *)
Definition client (lk cell : Z) (roles : list bool) (t : tid) : program (Z * Z) :=
  match roles !! t with
  | Some true => writer lk cell
  | Some false => reader lk cell
  | None => Ret (0, 0)
  end.

(** ** The protocol *)

(** Where a thread is: outside (and whether it has written), holding the lock
    exclusively (and what it has read), done writing, or holding a share. *)
Inductive phase : Type :=
| Outside (wrote : bool)
| Writing (seen : option Z)
| Wrote
| Reading (seen : option Z).

Definition excludes (ph : phase) : Z :=
  match ph with
  | Writing _ | Wrote => 1
  | _ => 0
  end.

Definition shares (ph : phase) : Z :=
  match ph with
  | Reading _ => 1
  | _ => 0
  end.

Definition written (ph : phase) : Z :=
  match ph with
  | Outside true | Wrote => 1
  | _ => 0
  end.

(** A thread inside that has read the counter has read its current value. *)
Definition sees (c : Z) (ph : phase) : Prop :=
  match ph with
  | Writing (Some x) | Reading (Some x) => x = c
  | _ => True
  end.

(** Everybody else is outside. *)
Definition undisturbed (t : tid) (g : tid -> phase) : Prop :=
  forall t', t' <> t -> exists b, g t' = Outside b.

#[global] Instance undisturbed_on_others : OnOthers undisturbed.
Proof. intros t g x H t' Hne. rewrite upd_ne by done. by apply H. Qed.

Section protocol.
  Context (lk cell : Z) (N : nat).

(** The state word counts the owners, which are compatible; the counter counts
    the writes. *)
Definition protocol (g : tid -> phase) (m : mem) : Prop :=
  exists w c, words m !! lk = Some w /\ words m !! cell = Some c /\
    held w (total excludes (seq 0 N) g) (total shares (seq 0 N) g) /\
    c = total written (seq 0 N) g /\
    (forall t, sees c (g t)) /\ (forall t, (N <= t)%nat -> g t = Outside false).

Context (Hne : lk <> cell) (t : tid) (Ht : (t < N)%nat).

Lemma thread_in : t ∈ seq 0 N.
Proof using Ht. apply elem_of_seq. lia. Qed.

Lemma total_step (f : phase -> Z) g x :
  total f (seq 0 N) (upd g t x) = total f (seq 0 N) g - f (g t) + f x.
Proof using Ht. apply total_upd; [apply NoDup_seq|apply thread_in]. Qed.

Lemma excludes_nonneg x : 0 <= excludes x.
Proof. by destruct x. Qed.

Lemma shares_nonneg x : 0 <= shares x.
Proof. by destruct x. Qed.

(** Only the words matter. *)
Lemma protocol_words g m m' : words m' = words m -> protocol g m -> protocol g m'.
Proof. unfold protocol. by intros ->. Qed.

(** A change of phase that does not touch the counter. *)
Lemma protocol_step g m x w w' c :
  protocol g m -> words m !! lk = Some w -> words m !! cell = Some c ->
  held w' (total excludes (seq 0 N) g - excludes (g t) + excludes x)
    (total shares (seq 0 N) g - shares (g t) + shares x) ->
  written x = written (g t) -> sees c x ->
  protocol (upd g t x) (set_words (<[lk := w']> (words m)) m).
Proof using Hne Ht.
  intros (w0 & c0 & Hw0 & Hc0 & Hh & Hc & Hs & Hout) Hw Hcell Hh' Hwr Hx.
  assert (c0 = c) as -> by congruence. exists w', c.
  split; [apply lookup_insert_eq|]. split; [simpl; by rewrite lookup_insert_ne|].
  rewrite !total_step. split; [done|]. split; [lia|]. split.
  - intros t'. unfold upd. case_decide; [done|apply Hs].
  - intros t' Ht'. rewrite upd_ne by lia. by apply Hout.
Qed.

(** A thread inside knows the state word. *)
Lemma exclusive_word g m w :
  protocol g m -> words m !! lk = Some w -> excludes (g t) = 1 ->
  w = DATA_MASK /\ total excludes (seq 0 N) g = 1 /\ total shares (seq 0 N) g = 0.
Proof using Ht.
  intros (w0 & c & Hw0 & _ & Hh & _) Hw Hx. assert (w0 = w) as -> by congruence.
  pose proof (total_ge excludes (seq 0 N) g t excludes_nonneg thread_in). rewrite Hx in *.
  destruct Hh as [(? & _)|(? & ? & ?)]; [lia|done].
Qed.

Lemma shared_word g m w :
  protocol g m -> words m !! lk = Some w -> shares (g t) = 1 ->
  1 <= w <= Lock.MAX_SHARED_OWNERS /\ total excludes (seq 0 N) g = 0 /\
  w = total shares (seq 0 N) g.
Proof using Ht.
  intros (w0 & c & Hw0 & _ & Hh & _) Hw Hx. assert (w0 = w) as -> by congruence.
  pose proof (total_ge shares (seq 0 N) g t shares_nonneg thread_in). rewrite Hx in *.
  destruct Hh as [(? & ? & ?)|(? & ? & ?)]; [lia|lia].
Qed.

(** The steps that acquire. *)
Lemma protocol_locked g m :
  protocol g m -> g t = Outside false -> words m !! lk = Some 0 ->
  protocol (upd g t (Writing None)) (set_words (<[lk := DATA_MASK]> (words m)) m).
Proof using Hne Ht.
  intros HI Hg Hw. pose proof HI as (w & c & Hw' & Hc & Hh & Hrest).
  assert (w = 0) as -> by congruence. eapply protocol_step; [done..| |by rewrite Hg|done].
  rewrite Hg. simpl. unfold held in *. unfold_masks. lia.
Qed.

Lemma protocol_shared g m w :
  protocol g m -> g t = Outside false -> words m !! lk = Some w -> w < Lock.MAX_SHARED_OWNERS ->
  protocol (upd g t (Reading None)) (set_words (<[lk := usize_add w 1]> (words m)) m).
Proof using Hne Ht.
  intros HI Hg Hw Hlt. pose proof HI as (w' & c & Hw' & Hc & Hh & Hrest).
  assert (w' = w) as -> by congruence. unfold held in Hh.
  change Lock.MAX_SHARED_OWNERS with 62 in *. unfold_masks.
  rewrite usize_add_small by (unfold usize_modulus; lia).
  eapply protocol_step; [done..| |by rewrite Hg|done].
  rewrite Hg. simpl. unfold held. change Lock.MAX_SHARED_OWNERS with 62. unfold_masks. lia.
Qed.

(** The step that gives a share up. *)
Lemma protocol_unshared g m w v :
  protocol g m -> g t = Reading v -> words m !! lk = Some w ->
  protocol (upd g t (Outside false)) (set_words (<[lk := w - 1]> (words m)) m).
Proof using Hne Ht.
  intros HI Hg Hw. pose proof HI as (w' & c & Hw' & Hc & Hh & Hrest).
  destruct (shared_word g m w HI Hw) as (Hr & He & Hsh); [by rewrite Hg|].
  eapply protocol_step; [done..| |by rewrite Hg|done].
  rewrite Hg, He. simpl. unfold held. rewrite <- Hsh. left. lia.
Qed.

(** A state without an owner has the word 0. *)
Lemma undisturbed_word g m w :
  protocol g m -> words m !! lk = Some w -> undisturbed t g -> g t = Outside false -> w = 0.
Proof using Ht.
  intros (w' & c & Hw' & Hc & Hh & Hrest) Hw Hu Hg. assert (w' = w) as -> by congruence.
  assert (forall t', exists b, g t' = Outside b) as Ho.
  { intros t'. destruct (decide (t' = t)) as [->|]; [by exists false|by apply Hu]. }
  assert (total excludes (seq 0 N) g = 0 /\ total shares (seq 0 N) g = 0) as [He Hs].
  { clear Hh Hrest. induction (seq 0 N) as [|t' l [IH1 IH2]]; [done|]. cbn [total foldr].
    fold (total excludes l g). fold (total shares l g). destruct (Ho t') as [b ->].
    rewrite IH1, IH2. by destruct b. }
  rewrite He, Hs in Hh. unfold held in Hh. lia.
Qed.

(** ** The methods conform *)

(** Nobody ever waits. *)
Definition never (t : tid) (g : tid -> phase) (m : mem) : Prop := False.

Abbreviation conforming := (conforms protocol undisturbed never).

(** A load of the lock's word tells nothing in particular. *)
Lemma conforms_load_lock n x (Q : Z -> phase -> Prop) :
  (forall g m w, g t = x -> protocol g m -> words m !! lk = Some w -> Q w x) ->
  conforming n t (load lk) x Q.
Proof using Type.
  intros HQ. apply conforms_read. intros g m Hg HI.
  pose proof HI as (w & c & Hw & _). rewrite Hw. eauto.
Qed.

Lemma conforms_try_lock n :
  conforming n t (Lock.try_lock lk) (Outside false) (fun locked x =>
    x = if (locked : bool) then Writing None else Outside false).
Proof using Hne Ht.
  conforms_seq; [by apply (conforms_load_lock _ _ (fun _ x => x = Outside false))|].
  intros n1 s x _ ->. conforms_by (fun r x => x = if r.1 =? Lock.ACQUIRED then Writing None else Outside false).
  2:{ intros n2 [r s'] x _ ->. by apply conforms_ret. }
  conforms_iter (fun _ x => x = Outside false); [..|done]; clear s.
  - intros n2 s x _ ->. case_bool; [by apply conforms_ret|].
    case_bool; simpl; [|by apply conforms_ret].
    conforms_by (fun r x => x = match r with Ok _ => Writing None | Err _ => Outside false end).
    2:{ intros n3 [r|r] x _ ->; by apply conforms_ret. }
    apply conforms_act. intros g m Hg HI. pose proof HI as (w & c & Hw & _). rewrite Hw. case_bool.
    + subst w. exists (Writing None). split; [by apply protocol_locked|done].
    + exists (Outside false). rewrite <- Hg, upd_id. by split.
  - intros g m s x Hg HI -> _. pose proof HI as (w & c & Hw & _).
    assert (exists x', protocol (upd g t x') m /\ x' = Outside false) as Hstay.
    { exists (Outside false). rewrite <- Hg, upd_id. by split. }
    apply wp_loop. case_bool; [by apply wp_ret|]. case_bool; simpl; [|by apply wp_ret].
    apply wp_bind. eapply wp_compare_exchange; [done|intros ->|intros Hw0].
    + apply wp_ret. exists (Writing None). split; [by apply protocol_locked|done].
    + apply wp_ret. eapply wp_try_lock_internal; [done|done|..]; by intros.
Qed.

Lemma conforms_try_share n :
  conforming n t (Lock.try_share lk) (Outside false) (fun shared x =>
    x = if (shared : bool) then Reading None else Outside false).
Proof using Hne Ht.
  conforms_seq; [by apply (conforms_load_lock _ _ (fun _ x => x = Outside false))|].
  intros n1 s x _ ->. conforms_by (fun r x => x = if r.1 =? Lock.ACQUIRED then Reading None else Outside false).
  2:{ intros n2 [r s'] x _ ->. by apply conforms_ret. }
  conforms_iter (fun _ x => x = Outside false); [..|done]; clear s.
  - intros n2 s x _ ->. case_bool; [by apply conforms_ret|].
    destruct (Z.leb_spec Lock.MAX_SHARED_OWNERS s) as [|Hs]; [by apply conforms_ret|].
    conforms_by (fun r x => x = match r with Ok _ => Reading None | Err _ => Outside false end).
    2:{ intros n3 [r|r] x _ ->; by apply conforms_ret. }
    apply conforms_act. intros g m Hg HI. pose proof HI as (w & c & Hw & _). rewrite Hw. case_bool.
    + subst w. exists (Reading None). split; [by apply protocol_shared|done].
    + exists (Outside false). rewrite <- Hg, upd_id. by split.
  - intros g m s x Hg HI -> _. pose proof HI as (w & c & Hw & _).
    assert (exists x', protocol (upd g t x') m /\ x' = Outside false) as Hstay.
    { exists (Outside false). rewrite <- Hg, upd_id. by split. }
    apply wp_loop. case_bool; [by apply wp_ret|].
    destruct (Z.leb_spec Lock.MAX_SHARED_OWNERS s) as [|Hs]; [by apply wp_ret|].
    apply wp_bind. eapply wp_compare_exchange; [done|intros ->|intros Hw0].
    + apply wp_ret. exists (Reading None). split; [by apply protocol_shared|done].
    + apply wp_ret. eapply wp_try_share_internal; [done|intros ?|by intros..].
      exists (Reading None). split; [by apply protocol_shared|done].
Qed.

Lemma conforms_release_lock n :
  conforming n t (Lock.release_lock lk) Wrote (fun b x => b = true /\ x = Outside true).
Proof using Hne Ht.
  conforms_by (fun r x => (exists v, r = Ok v) /\ x = Outside true).
  2:{ intros n1 r x _ [[v ->] ->]. by apply conforms_ret. }
  apply conforms_act. intros g m Hg HI. pose proof HI as (w & c & Hw & Hc & Hh & _ & Hs & _).
  rewrite Hw. assert (excludes (g t) = 1) as Hx by (by rewrite Hg).
  destruct (exclusive_word g m w HI Hw Hx) as (-> & He & Hsh). rewrite Z.eqb_refl.
  exists (Outside true). split; [|split; [by eexists|done]].
  eapply protocol_step; [done..| |by rewrite Hg|done].
  rewrite Hg, He, Hsh. simpl. unfold held. change Lock.MAX_SHARED_OWNERS with 62. lia.
Qed.

(** A word seen by the owner of a share, on which its release succeeds. *)
Definition sharing (w : Z) : Prop := 1 <= w <= Lock.MAX_SHARED_OWNERS.

Lemma unshare_update_sharing w : sharing w -> Lock.unshare_update w = Ret (Some (w - 1)).
Proof using Ht.
  unfold sharing, Lock.unshare_update. change Lock.MAX_SHARED_OWNERS with 62. intros Hw.
  replace (negb (w =? 0) && (w <=? 62)) with true.
  - by rewrite usize_sub_small by (unfold usize_modulus; lia).
  - symmetry. apply andb_true_iff. split; [apply negb_true_iff, Z.eqb_neq; lia|apply Z.leb_le; lia].
Qed.

Lemma conforms_release_share n v :
  conforming n t (Lock.release_share lk) (Reading v)
    (fun b x => b = true /\ x = Outside false).
Proof using Hne Ht.
  conforms_by (fun r x => (exists v, r = Ok v) /\ x = Outside false).
  2:{ intros n1 r x _ [[u ->] ->]. by apply conforms_ret. }
  assert (forall g m w, g t = Reading v -> protocol g m -> words m !! lk = Some w -> sharing w)
    as Hsharing.
  { intros g m w Hg HI Hw. by apply (shared_word g m w HI Hw); rewrite Hg. }
  conforms_by (fun w x => sharing w /\ x = Reading v).
  { apply conforms_load_lock. intros g m w Hg HI Hw. split; [by eapply Hsharing|done]. }
  intros n1 w x _ [Hw0 ->]. conforms_iter (fun w x => sharing w /\ x = Reading v); [..|done]; clear w Hw0.
  - intros n2 w x _ [Hr ->]. rewrite unshare_update_sharing by done.
    conforms_by (fun o x => o = Some (w - 1) /\ x = Reading v); [by apply conforms_ret|].
    intros n3 o x _ [-> ->].
    conforms_by (fun r x =>
      match r with Ok _ => x = Outside false | Err w' => sharing w' /\ x = Reading v end).
    2:{ intros n4 [r|r] x _ Hx; apply conforms_ret; [by split; [by eexists|]|done]. }
    apply conforms_act. intros g m Hg HI. pose proof HI as (w' & c & Hw & _). rewrite Hw.
    assert (forall wk, exists x', protocol (upd g t x') (set_weak wk m) /\ sharing w' /\ x' = Reading v)
      as Hfail.
    { intros wk. exists (Reading v). split; [|split; [by eapply Hsharing|done]].
      rewrite <- Hg, upd_id. by apply (protocol_words g m). }
    assert (w' = w -> forall wk, exists x', protocol (upd g t x')
      (set_weak wk (set_words (<[lk := w - 1]> (words m)) m)) /\ x' = Outside false) as Hok.
    { intros -> wk. exists (Outside false). split; [|done].
      apply (protocol_words _ (set_words (<[lk := w - 1]> (words m)) m)); [done|].
      by eapply protocol_unshared. }
    destruct (weak m) as [|[|] wk]; [|apply Hfail|]; (case_bool; [by apply Hok|apply Hfail]).
  - intros g m w x Hg HI [Hr ->] _. pose proof HI as (w' & c & Hw & _).
    assert (sharing w') as Hr' by (by eapply Hsharing).
    eapply wp_fetch_update_from with (r := fun w => Some (w - 1)); [done|..].
    + intros w'' wk Q' [->| ->] HQ'; rewrite unshare_update_sharing by done; by apply wp_ret.
    + intros wk. exists (Outside false). split; [|split; [by eexists|done]].
      apply (protocol_words _ (set_words (<[lk := w' - 1]> (words m)) m)); [done|].
      by eapply protocol_unshared.
    + done.
Qed.

(** Reading the counter inside. *)
Lemma conforms_look n ph :
  ph = Writing None \/ (exists v, ph = Reading v) ->
  conforming n t (load cell) ph (fun v x =>
    x = match ph with Writing _ => Writing (Some v) | _ => Reading (Some v) end /\
    match ph with Reading (Some v') => v = v' | _ => True end).
Proof using Hne Ht.
  intros Hph. apply conforms_act. intros g m Hg HI.
  pose proof HI as (w & c & Hw & Hc & Hh & Hwr & Hs & Hout). rewrite Hc.
  eexists. split; [|split; [done|]].
  - replace m with (set_words (<[lk := w]> (words m)) m).
    + eapply protocol_step; [done..| | |]; rewrite ?Hg.
      * destruct Hph as [->|[v ->]]; simpl; unfold held in *; lia.
      * by destruct Hph as [->|[v ->]].
      * by destruct Hph as [->|[v ->]].
    + rewrite insert_id by done. by destruct m.
  - destruct Hph as [->|[[v|] ->]]; try done. specialize (Hs t). rewrite Hg in Hs. done.
Qed.

(** Writing the counter inside, which nobody else can observe. *)
Lemma conforms_write n v :
  conforming n t (swap cell (v + 1)) (Writing (Some v)) (fun _ x => x = Wrote).
Proof using Hne Ht.
  apply conforms_act. intros g m Hg HI.
  pose proof HI as (w & c & Hw & Hc & Hh & Hwr & Hs & Hout). rewrite Hc.
  exists Wrote. split; [|done].
  assert (excludes (g t) = 1) as Hx by (by rewrite Hg).
  destruct (exclusive_word g m w HI Hw Hx) as (-> & He & Hsh).
  assert (v = c) as ->. { specialize (Hs t). rewrite Hg in Hs. done. }
  exists DATA_MASK, (c + 1). simpl. split; [by rewrite lookup_insert_ne|].
  split; [apply lookup_insert_eq|]. rewrite !total_step, Hg, He, Hsh. simpl.
  split; [by right|]. split; [lia|]. split.
  - intros t'. destruct (decide (t' = t)) as [->|Hne']; [by rewrite upd_eq|].
    rewrite upd_ne by done. destruct (decide (t' < N)%nat) as [Hlt|Hge].
    + assert (t' ∈ seq 0 N) as Hin by (apply elem_of_seq; lia).
      pose proof (total_ge excludes (seq 0 N) (upd g t (Outside false)) t' excludes_nonneg Hin) as H1.
      pose proof (total_ge shares (seq 0 N) g t' shares_nonneg Hin) as H2.
      rewrite total_step, He, Hx, upd_ne in H1 by done. rewrite Hsh in H2.
      destruct (g t') as [|seen| |seen]; simpl in *; done || lia.
    + rewrite Hout by lia. done.
  - intros t' Ht'. rewrite upd_ne by lia. by apply Hout.
Qed.

(** What a client does once inside. *)
Definition written_out (r : Z * Z) (x : phase) : Prop := r.1 = r.2 /\ x = Outside true.
Definition read_out (r : Z * Z) (x : phase) : Prop := r.1 = r.2 /\ x = Outside false.

Definition returned {A B} (Q : B -> phase -> Prop) (r : A + B) (x : phase) : Prop :=
  match r with
  | inl _ => False
  | inr b => Q b x
  end.

Lemma conforms_write_inside n :
  conforming n t
    (x <- load cell ;;
     swap cell (x + 1) ;;;
     Lock.release_lock lk ;;;
     Ret (inr (0, 0))) (Writing None) (returned (A := unit) written_out).
Proof using Hne Ht.
  conforms_seq; [apply conforms_look; by left|]. intros n3 v x _ [-> _].
  conforms_seq; [apply conforms_write|]. intros n4 v' x _ ->.
  conforms_seq; [apply conforms_release_lock|]. intros n5 b x _ [_ ->].
  by apply conforms_ret.
Qed.

Lemma conforms_read_inside n :
  conforming n t
    (x <- load cell ;;
     y <- load cell ;;
     Lock.release_share lk ;;;
     Ret (inr (x, y))) (Reading None) (returned (A := unit) read_out).
Proof using Hne Ht.
  conforms_seq; [apply conforms_look; right; by eexists|]. intros n3 v x _ [-> _].
  conforms_seq; [apply conforms_look; right; by eexists|]. intros n4 v' x _ [-> ->].
  conforms_seq; [apply conforms_release_share|]. intros n5 b x _ [_ ->].
  by apply conforms_ret.
Qed.

(** An attempt that, undisturbed, succeeds, is retried until it does. *)
Lemma conforms_retry n (attempt : program bool) (inside : program (unit + Z * Z)) ph Q :
  (forall n, conforming n t attempt (Outside false)
     (fun b x => x = if (b : bool) then ph else Outside false)) ->
  (forall n, conforming n t inside ph (returned Q)) ->
  (forall g m, g t = Outside false -> protocol g m -> words m !! lk = Some 0 ->
     wp t attempt m (fun b m' => b = true /\ protocol (upd g t ph) m')) ->
  conforming n t
    (Loop (fun _ => b <- attempt ;; if (b : bool) then inside else Ret (inl tt)) tt)
    (Outside false) Q.
Proof using Ht.
  intros Hattempt Hinside Hfree. conforms_iter (fun _ x => x = Outside false); [..|done].
  - intros n1 s x _ ->. conforms_seq; [apply Hattempt|].
    intros n2 [|] x _ ->; [|by apply conforms_ret].
    eapply conforms_mono; [apply Hinside|]. by intros [|] x.
  - intros g m s x Hg HI -> Hu. pose proof HI as (w & c & Hw & _).
    assert (w = 0) as -> by (by eapply undisturbed_word). apply wp_loop, wp_bind.
    eapply wp_mono; [by apply Hfree|]. intros b m' [-> HI'].
    destruct (Hinside 1%nat (upd g t ph) m') as [Hsolo _]; [apply upd_eq|done|].
    eapply wp_mono; [apply Hsolo; by apply on_others|].
    intros [?|r] m'' (x' & HI'' & HQ); [done|]. rewrite upd_upd in HI''. by exists x'.
Qed.

Lemma conforms_writer n : conforming n t (writer lk cell) (Outside false) written_out.
Proof using Hne Ht.
  apply (conforms_retry _ _ _ _ _ conforms_try_lock conforms_write_inside).
  intros g m Hg HI Hw. apply wp_bind. eapply wp_load; [done|]. apply wp_bind.
  eapply wp_try_lock_internal; [done|intros _|done..]. apply wp_ret.
  split; [done|]. by apply protocol_locked.
Qed.

Lemma conforms_reader n : conforming n t (reader lk cell) (Outside false) read_out.
Proof using Hne Ht.
  apply (conforms_retry _ _ _ _ _ conforms_try_share conforms_read_inside).
  intros g m Hg HI Hw. apply wp_bind. eapply wp_load; [done|]. apply wp_bind.
  eapply wp_try_share_internal; [done|intros _|done..]. apply wp_ret.
  split; [done|]. by apply protocol_shared.
Qed.

End protocol.

(** ** The theorem *)

Lemma total_written roles g k :
  (forall i b, roles !! i = Some b -> g (k + i)%nat = Outside b) ->
  total written (seq k (length roles)) g = Z.of_nat (length (List.filter id roles)).
Proof.
  revert k. induction roles as [|b roles IH]; intros k Hg; [done|]. cbn [length seq total foldr].
  fold (total written (seq (S k) (length roles)) g). rewrite IH.
  - specialize (Hg 0%nat b eq_refl). rewrite Nat.add_0_r in Hg. rewrite Hg.
    destruct b; simpl; lia.
  - intros i b' Hi. specialize (Hg (S i) b' Hi). by rewrite Nat.add_succ_r in Hg.
Qed.

Lemma total_zero f N g :
  f (Outside false) = 0 -> (forall t, g t = Outside false) -> total f (seq 0 N) g = 0.
Proof.
  intros Hf Hg. unfold total. induction (seq 0 N) as [|t l IH]; [done|]. simpl.
  by rewrite IH, Hg, Hf.
Qed.

Lemma protocol_start lk cell N m :
  words m !! lk = Some Lock.new -> words m !! cell = Some 0 ->
  protocol lk cell N (fun _ => Outside false) m.
Proof.
  intros Hl Hc. exists 0, 0. split; [done|]. split; [done|].
  rewrite !total_zero by done. split; [by left|]. done.
Qed.

(** C6. The lock protects its data under every interleaving of any number of
    writers and readers: nobody is about to fault, and nobody waits; each reader
    that has returned has read the same value twice; a client that runs while
    all others have returned returns, so the lock is never left held; and
    once all threads have returned the counter is the number of writers, so
    no update was lost. *)
Theorem lock_protects_counter lk cell roles m p :
  lk <> cell -> words m !! lk = Some Lock.new -> words m !! cell = Some 0 ->
  rtc pool_step (client lk cell roles, m) p ->
  (forall t, ~ faulty p t /\ ~ blocked p t) /\
  (forall t r, finished p t r -> r.1 = r.2) /\
  (forall t, (forall t', t' <> t -> exists r, finished p t' r) ->
     wp t (p.1 t) p.2 (fun r _ => r.1 = r.2)) /\
  ((forall t, (t < length roles)%nat -> exists r, finished p t r) ->
   words p.2 !! cell = Some (Z.of_nat (length (List.filter id roles)))).
Proof.
  intros Hne Hl Hc Hreach. set (N := length roles).
  set (Q := fun (t : tid) (r : Z * Z) x => r.1 = r.2 /\
    x = match roles !! t with Some b => Outside b | None => Outside false end).
  destruct (pool_sound (protocol lk cell N) undisturbed never (client lk cell roles) m
    (fun _ => Outside false) Q p) as (g & HI & HQ & Hsafe & Hnever & Hsolo); [|by apply protocol_start|done|].
  { intros t n. unfold client, Q. destruct (roles !! t) as [b|] eqn:E.
    - pose proof (lookup_lt_Some _ _ _ E) as Ht. destruct b.
      + by apply conforms_writer.
      + by apply conforms_reader.
    - by apply conforms_ret. }
  split; [intros t; split; [apply Hsafe|exact (Hnever t)]|].
  split; [intros t r Hf; by apply (HQ t r)|]. split.
  - intros t Hothers. eapply wp_mono; [apply (Hsolo t)|by intros r m' (x & _ & Hr & _)].
    intros t' Hne'. destruct (Hothers t' Hne') as (r & Hf). destruct (HQ t' r Hf) as [_ ->].
    destruct (roles !! t'); eauto.
  - intros Hall. destruct HI as (w & c & _ & Hcell & _ & -> & _). rewrite Hcell. f_equal.
    apply total_written. intros i b Hi. pose proof (lookup_lt_Some _ _ _ Hi) as Hlt.
    destruct (Hall i Hlt) as (r & Hf). destruct (HQ i r Hf) as [_ Hx]. by rewrite Hi in Hx.
Qed.

(** Two writers and a reader, their steps interleaved. *)
Definition three_clients : pool mem (Z * Z) :=
  schedule (concat (replicate 60 [0; 1; 2]%nat))
    (client 8 16 [true; false; true],
     mkMem {[8 := Lock.new; 16 := 0]} ∅ ∅ ∅ ∅ [true; false; true]).

Lemma lock_protects_counter_witness :
  (forall t, ~ faulty three_clients t /\ ~ blocked three_clients t) /\
  (forall t r, finished three_clients t r -> r.1 = r.2) /\
  words three_clients.2 !! 16 = Some 2.
Proof.
  destruct (lock_protects_counter 8 16 [true; false; true]
    (mkMem {[8 := Lock.new; 16 := 0]} ∅ ∅ ∅ ∅ [true; false; true]) three_clients)
    as (Hsafe & Hread & _ & Hall); [done|reflexivity|reflexivity|apply schedule_reachable|].
  split; [exact Hsafe|]. split; [exact Hread|]. apply Hall.
  intros t Ht. assert (t = 0 \/ t = 1 \/ t = 2)%nat as [-> | [-> | ->]] by (simpl in Ht; lia);
    (eexists; vm_compute; reflexivity).
Defined.
