(* ===== verification/Handshake.v ===== *)
(** * The delivery of one result, under all interleavings

    The owner of a wait queue waits for its result with [poll_result_sync]
    (a thread) or by polling [poll_result_async] (a task) and then drops the
    wait queue, while another thread calls [set_result] on the entry, and any
    number of threads unpark the owner, or wake its task, for no reason.  In
    every interleaving, with any spurious failures of the weak exchanges: the
    delivering thread never touches the entry after the owner may have freed
    it, the owner returns the delivered result and nothing else, and once the
    result is delivered the owner needs nobody else to return, so that no
    wake-up is lost. *)

From S2P Require Import Prelude Prog Word Opcode Memory WaitQueue Geometry Results.
From S2P Require Import Queue Interleaving Concurrent Delivery SyncPrimitive Crate.

(** ** The programs *)

(** A thread waits for the result and drops its wait queue, as
    [wait_resources_sync] does once its entry is pushed. *)
Definition sync_owner (wq : Z) : program Z :=
  e <- entry wq ;;
  result <- poll_result_sync e ;;
  wait_queue_drop wq ;;;
  Ret result.

(** A task awaits the result and drops its wait queue. *)
Definition async_owner (wq : Z) (cx : Waker) : program Z :=
  result <- await_result wq cx ;;
  wait_queue_drop wq ;;;
  Ret result.

(** Another thread delivers the result. *)
Definition deliverer (wq result : Z) : program Z :=
  set_result (wq_entry wq) result ;;;
  Ret 0.

(** The pool: [K] is how the owner [o] is told. *)
Definition handshake (wq : Z) (o d : tid) (K : Monitor) (r : Z) (t : tid) : program Z :=
  if decide (t = o) then
    match K with
    | Async (Some cx) => async_owner wq cx
    | _ => sync_owner wq
    end
  else if decide (t = d) then deliverer wq r
  else tell K ;;; Ret 0.

(** ** The protocol *)

(** The ghost state of a thread. *)
Inductive role : Type :=
| Own (o : owning)
| Del (d : delivering)
| Bystander.

Section protocol.
  Context (wq : Z) (o d : tid) (K : Monitor) (r : Z).
  Context (Hwq : wq_ok wq) (Hod : o <> d) (Hr : is_u8 r).

Definition protocol (g : tid -> role) (m : mem) : Prop :=
  exists ow de, g o = Own ow /\ g d = Del de /\ shape wq K r ow de m.

(** The owner is sure to return alone once the result is delivered. *)
Definition settled (t : tid) (g : tid -> role) : Prop := t = o -> g d = Del Delivered.

(** Only the owner ever waits. *)
Definition owner_waits (t : tid) (g : tid -> role) (m : mem) : Prop := t = o.

#[local] Instance settled_on_others : OnOthers settled.
Proof using Hod. intros t g x H ->. rewrite upd_ne by done. by apply H. Qed.

Abbreviation conforming := (conforms protocol settled owner_waits).

#[local] Instance handshake_owner :
  OwnerView protocol settled owner_waits wq K (just r) o (fun _ => Own) (fun _ => Own Freed).
Proof using Hod.
  split; [|done|done|].
  - intros g m v ow (ow' & de & Ho & Hd & Hs) Hg _ Hv. assert (ow' = ow) as -> by congruence.
    exists r, de. split; [done|]. split; [intros E; symmetry; by apply Hv|]. split; [done|]. split.
    { intros HD. specialize (HD eq_refl). congruence. }
    intros ow'' m' _ _ Hs'. exists ow'', de. by rewrite upd_eq, upd_ne.
  - intros g m _ (ow' & de & Ho & Hd & Hs) Hg. assert (ow' = Freed) as -> by congruence.
    exists Freed, de. by rewrite upd_eq, upd_ne.
Qed.

#[local] Instance handshake_deliverer : DelivererView protocol wq K r d Del.
Proof using Hod.
  split.
  - intros g m de (ow & de' & Ho & Hd & Hs) Hg _. assert (de' = de) as -> by congruence.
    exists ow. split; [done|]. intros de'' m' _ _ Hs'. exists ow, de''. by rewrite upd_eq, upd_ne.
  - intros g m m' (ow & de' & Ho & Hd & Hs) Hg Hw Ha He Hmono Hal.
    assert (de' = Final) as -> by congruence. exists ow, Delivered. rewrite upd_eq, upd_ne by done.
    split; [done|]. split; [done|]. by eapply shape_told.
Qed.

(** Bystanders only tell the owner. *)
Lemma conforms_bystander n t :
  t <> o -> t <> d ->
  conforming n t (tell K ;;; Ret 0) Bystander (fun _ x => x = Bystander).
Proof.
  intros Hto Htd. assert (forall g m m', g t = Bystander -> protocol g m -> anchors m' = anchors m ->
    entries m' = entries m -> (alerted K m -> alerted K m') ->
    kept protocol t g m' (fun x => x = Bystander)) as Htell.
  { intros g m m' Hg (ow & de & Ho & Hd & Hs) Ha He Hal. exists Bystander. split; [|done].
    exists ow, de. rewrite !upd_ne by done. split; [done|]. split; [done|].
    by eapply shape_ext. }
  conforms_by (fun _ x => x = Bystander); [|intros n1 [] x _ ->; by apply conforms_ret].
  destruct K as [[cx|]|[th|]]; try by apply conforms_ret.
  - apply conforms_wake. intros g m Hg HI. apply (Htell g m); [done..|]. simpl. set_solver.
  - apply conforms_unpark. intros g m Hg HI. apply (Htell g m); [done..|]. simpl. set_solver.
Qed.

(** The owner, whatever its kind. *)
Lemma conforms_owner n :
  K = Sync (Some o) \/ (exists cx, K = Async (Some cx)) ->
  conforming n o (handshake wq o d K r o) (Own Ready) (fun v x => v = r /\ x = Own Freed).
Proof.
  intros HK. unfold handshake. rewrite decide_True by done.
  assert (forall n1 v x, v = r /\ x = Own (Taken true) ->
    conforming n1 o (wait_queue_drop wq ;;; Ret v) x (fun v x => v = r /\ x = Own Freed)) as Hdrop.
  { intros n1 v x [-> ->]. conforms_seq; [by apply (conforms_drop protocol settled owner_waits wq K (just r) Hwq o (fun _ => Own) (fun _ => Own Freed) r)|].
    intros n2 [] x _ ->. by apply conforms_ret. }
  destruct HK as [HK|[cx HK]].
  - replace (match K with
    | Async (Some cx) => async_owner wq cx
    | _ => sync_owner wq
    end) with (sync_owner wq) by (by rewrite HK).
    conforms_seq; [by apply (conforms_owner_entry protocol settled owner_waits wq K (just r) Hwq o (fun _ => Own) (fun _ => Own Freed) r)|].
    intros n1 e x _ [-> ->]. conforms_seq; [by apply (conforms_poll_result_sync protocol settled owner_waits wq K (just r) Hwq (just_u8 r Hr) o (fun _ => Own) (fun _ => Own Freed) r)|].
    intros n2 v x _. apply Hdrop.
  - replace (match K with
    | Async (Some cx) => async_owner wq cx
    | _ => sync_owner wq
    end) with (async_owner wq cx) by (by rewrite HK).
    conforms_seq; [by apply (conforms_await_result protocol settled owner_waits wq K (just r) Hwq (just_u8 r Hr) o (fun _ => Own) (fun _ => Own Freed) r)|]. intros n2 v x _. apply Hdrop.
Qed.

End protocol.

(** ** The theorem *)

(** C7. The delivery of a result to a waiting thread or task, in every
    interleaving and with any spurious failures and wake-ups: only the owner
    ever waits, and no access is invalid, although the owner frees the entry as soon as it has consumed
    the result; the owner returns the delivered result only; the delivering
    thread never depends on the owner to finish; and once it has finished the
    owner, asleep or not, returns when it is scheduled, so no wake-up is
    lost. *)
Theorem result_handshake wq o d K r en m p :
  o <> d -> is_u8 r -> node m wq en -> e_state en = 0 ->
  K = Sync (Some o) \/ (exists cx, K = Async (Some cx)) -> same_kind K (e_monitor en) = true ->
  rtc pool_step (handshake wq o d K r, m) p ->
  (forall t, ~ faulty p t /\ (blocked p t -> t = o)) /\
  (forall v, finished p o v -> v = r /\ entries p.2 !! wq_entry wq = None) /\
  wp d (p.1 d) p.2 (fun _ _ => True) /\
  ((exists v, finished p d v) ->
   wp o (p.1 o) p.2 (fun v m' => v = r /\ entries m' !! wq_entry wq = None)).
Proof.
  intros Hod Hr Hn Hst HK Hkind Hreach. pose proof (node_ok _ _ _ Hn) as Hwq.
  set (Q := fun t (v : Z) x =>
    (t = o -> v = r /\ x = Own Freed) /\ (t = d -> x = Del Delivered)).
  destruct (pool_sound (protocol wq o d K r) (settled o d) (owner_waits o) (handshake wq o d K r) m
    (fun t => if decide (t = o) then Own Ready else if decide (t = d) then Del Start else Bystander)
    Q p) as (g & HI & HQ & Hsafe & Hwaits & Hsolo).
  - intros t n. destruct (decide (t = o)) as [->|Hto].
    { eapply conforms_mono; [by apply conforms_owner|].
      intros v x Hx. by split. }
    unfold handshake. rewrite (decide_False (P := t = o)) by done.
    destruct (decide (t = d)) as [->|Htd].
    + pose proof (settled_on_others o d Hod). pose proof (handshake_deliverer wq o d K r Hod).
      conforms_seq.
      * by_view conforms_set_result. by destruct HK as [->|[cx ->]].
      * intros n1 [] x _ ->. apply conforms_ret. by split.
    + eapply conforms_mono; [by apply conforms_bystander|]. intros v x ->. by split.
  - exists Ready, Start. rewrite (decide_True (P := o = o)), (decide_False (P := d = o)) by done.
    rewrite decide_True by done.
    split; [done|]. split; [done|]. split; [done|]. exists en, false.
    split; [done|]. by repeat split.
  - done.
  - split; [intros t; split; [apply Hsafe|apply Hwaits]|]. split; [|split].
    + intros v Hf. destruct (HQ o v Hf) as [HQo _]. destruct (HQo eq_refl) as [-> Hx].
      split; [done|]. destruct HI as (ow & de & Ho & _ & Hs). assert (ow = Freed) as -> by congruence.
      apply Hs.
    + eapply wp_mono; [apply (Hsolo d)|done]. by intros E.
    + intros (v & Hf). destruct (HQ d v Hf) as [_ Hd]. specialize (Hd eq_refl).
      eapply wp_mono; [apply (Hsolo o); by intros _|]. intros v' m' (x & HI' & Hv & _).
      destruct (Hv eq_refl) as [-> ->]. split; [done|].
      destruct HI' as (ow & de & Ho & _ & Hs). rewrite upd_eq in Ho.
      assert (ow = Freed) as -> by congruence. apply Hs.
Qed.

(** A thread, its wait queue at 1024, waits for the result 7 of thread 2
    while thread 3 unparks it for no reason. *)
Definition handshake_start (K : Monitor) : mem :=
  mkMem ∅ {[anchor_addr 1024 := anchor_value 1024]}
    {[wq_entry 1024 := mkEntry 0 0 Exclusive 0 true
        (match K with Async _ => Async None | Sync _ => Sync None end) Lock 8
        (wq_entry 1024 - 1024)]}
    ∅ ∅ [false; true].

Definition handshake_pool (K : Monitor) : pool mem Z :=
  schedule (replicate 20 1%nat ++ [3%nat] ++ concat (replicate 40 [1; 2]%nat))
    (handshake 1024 1 2 K 7, handshake_start K).

Lemma result_handshake_witness :
  let p := handshake_pool (Sync (Some 1%nat)) in
  (forall t, ~ faulty p t /\ (blocked p t -> t = 1%nat)) /\ finished p 1 7 /\
  wp 1 (p.1 1%nat) p.2 (fun v m' => v = 7 /\ entries m' !! wq_entry 1024 = None).
Proof.
  destruct (result_handshake 1024 1 2 (Sync (Some 1%nat)) 7
    (mkEntry 0 0 Exclusive 0 true (Sync None) Lock 8 (wq_entry 1024 - 1024))
    (handshake_start (Sync (Some 1%nat))) (handshake_pool (Sync (Some 1%nat))))
    as (Hsafe & _ & _ & Hdone); [done|split; reflexivity || lia|..].
  - vm_compute. repeat split; reflexivity || discriminate.
  - reflexivity.
  - by left.
  - reflexivity.
  - apply schedule_reachable.
  - split; [exact Hsafe|]. split; [vm_compute; reflexivity|].
    apply Hdone. exists 0. vm_compute. reflexivity.
Defined.
