(* ===== verification/Handover.v ===== *)
(** * Waiting for a lock, under all interleavings

    Any number of threads and tasks repeatedly call [lock_sync] or
    [lock_async], which puts them in the lock's wait queue and to sleep when
    the lock is taken, increment a counter in two steps, and call
    [release_lock], which hands the lock over to the oldest waiting thread.
    Pushing an entry, processing the queue while others push, delivering the
    result and going to sleep are all interleaved, one atomic action at a
    time.  The lock excludes, no wake-up is lost, and the threads never get
    stuck: an instance of the invariant of [Allotment.v]. *)

From S2P Require Import Prelude Prog Word Opcode Memory WaitQueue Geometry Results.
From S2P Require Import Queue Interleaving Concurrent Delivery Areas SyncPrimitive Crate Allotment Obtaining Locking.
From S2P Require Lock.

(** ** The clients *)

(** Increments the counter at [cell] [k] times under the lock at [lk], waiting
    in the wait queue at [wq]; tells whether the lock was always taken and
    released. *)
Fixpoint contender (kind : waiting_mode) (t : tid) (lk cell wq : Z) (k : nat) : program bool :=
  match k with
  | O => Ret true
  | S k =>
      locked <- acquire kind t lk wq ;;
      if (locked : bool)
      then
        x <- load cell ;;
        swap cell (x + 1) ;;;
        released <- Lock.release_lock lk ;;
        if (released : bool) then contender kind t lk cell wq k else Ret false
      else Ret false
  end.

(** What a thread has seen in its critical section. *)
Inductive turn : Type :=
| Resting
| Looking (seen : Z).

(** What a thread records: its turn, and the number of its writes. *)
Definition record : Type := turn * Z.

Definition inside (c : record) : option Opcode :=
  match c.1 with
  | Resting => None
  | Looking _ => Some Exclusive
  end.

Section contenders.
  Context (lk cell : Z) (N : nat) (A : tid -> Z) (kind : waiting_mode).
  Context (Hkind : wakers_differ N kind).
  Context (HA : forall t, (t < N)%nat -> wq_ok (A t)).
  Context (Hapart : forall t u, (t < N)%nat -> (u < N)%nat -> t <> u ->
    A t + 128 <= A u \/ A u + 128 <= A t).
  Context (Hcell : lk <> cell).

Definition written (cs : tid -> record) : Z := total snd (seq 0 N) cs.

(** The counter shows all writes; what a thread has seen is the counter. *)
Definition counted (ws : gmap Z Z) (cs : tid -> record) : Prop :=
  ws !! cell = Some (written cs) /\
  forall u v, (u < N)%nat -> (cs u).1 = Looking v -> v = written cs.

Abbreviation allotment := (allotment lk Lock Lock.MAX_SHARED_OWNERS N A kind counted inside).
Abbreviation conforming := (conforms allotment unsure (sleeps kind)).

Lemma contender_written cs t c : (t < N)%nat -> written (upd cs t c) = written cs - (cs t).2 + c.2.
Proof using Type. intros. apply total_upd; [apply NoDup_seq|apply elem_of_seq; lia]. Qed.

Lemma contender_occupies c : 0 <= occupied inside c.
Proof using Type. clear. destruct c as [[]]; unfold occupied; simpl; unfold_masks; lia. Qed.

(** Nobody else uses the lock. *)
Lemma alone cs t u :
  (t < N)%nat -> (u < N)%nat -> u <> t -> roomy Lock.MAX_SHARED_OWNERS N inside cs t (Holding Exclusive) ->
  (cs u).1 = Resting.
Proof using Type.
  intros Ht Hu Hne Hroom. destruct (cs u) as [[|v] k] eqn:E; [done|exfalso].
  destruct (Hroom Exclusive (Looking 0, 0) eq_refl eq_refl) as [Hle _].
  pose proof (occupancy_two N inside cs t u (Looking 0, 0) contender_occupies Ht Hu ltac:(done)) as Htwo.
  rewrite E in Htwo. unfold occupied in Htwo. simpl in Htwo. unfold_masks. lia.
Qed.

Section thread.
  Context (t : tid) (Ht : (t < N)%nat).

Lemma conforms_look_cell n k :
  conforming n t (load cell) (Holding Exclusive, None, (Resting, k))
    (fun v x => x = (Holding Exclusive, None, (Looking v, k))).
Proof using Hcell Ht.
  apply (client_load _ _ _ _ _ _ _ _ shared_max); [done|done|]. intros ws cs [Hw Hsee] Hc Hroom.
  exists (written cs), (Looking (written cs), k). split; [done|]. split; [by intros o [= <-]|]. split; [|done].
  assert (written (upd cs t (Looking (written cs), k)) = written cs) as E.
  { rewrite contender_written, Hc by done. simpl. lia. }
  split; [by rewrite lookup_insert_eq, E|]. rewrite E. intros u v Hu. destruct (decide (u = t)) as [->|Hne].
  - rewrite upd_eq. by intros [= <-].
  - rewrite upd_ne by done. by apply Hsee.
Qed.

Lemma conforms_write_cell n v k :
  conforming n t (swap cell (v + 1)) (Holding Exclusive, None, (Looking v, k))
    (fun _ x => x = (Holding Exclusive, None, (Resting, k + 1))).
Proof using Hcell Ht.
  apply (client_swap _ _ _ _ _ _ _ _ shared_max); [done|done|]. intros ws cs [Hw Hsee] Hc Hroom.
  exists (written cs), (Resting, k + 1). split; [done|]. split; [by intros o [=]|]. split; [|done].
  assert (v = written cs) as -> by (apply (Hsee t); [done|by rewrite Hc]).
  split.
  - rewrite lookup_insert_eq, contender_written, Hc by done. f_equal. simpl. lia.
  - intros u v Hu. destruct (decide (u = t)) as [->|Hne]; [by rewrite upd_eq|].
    rewrite upd_ne by done. by rewrite (alone cs t u Ht Hu Hne Hroom).
Qed.

Lemma conforms_contender n k c :
  conforming n t (contender kind t lk cell (A t) k) (Out, None, (Resting, c))
    (fun b x => b = true /\ x = (Out, None, (Resting, c + Z.of_nat k))).
Proof using HA Hapart Hcell Hkind Ht.
  revert n c. induction k as [|k IH]; intros n c.
  { apply conforms_ret. split; [done|]. do 2 f_equal. lia. }
  conforms_seq; [by apply (conforms_acquire lk N A kind counted inside Hkind HA Hapart t Ht)|].
  intros n1 b x _ [-> ->]. conforms_seq; [apply conforms_look_cell|]. intros n2 v x _ ->.
  conforms_seq; [apply conforms_write_cell|]. intros n3 v' x _ ->.
  conforms_seq; [by apply (conforms_lock_release lk N A kind counted inside Hkind HA Hapart t Ht)|].
  intros n4 b x _ [-> ->]. eapply conforms_mono; [apply IH|]. intros b x [-> ->]. split; [done|].
  do 2 f_equal. lia.
Qed.

End thread.

End contenders.

(** ** The theorem *)

(** The pool of the contenders: the thread [t], its wait queue at [A t], makes
    the [t]-th of [rounds] rounds. *)
Definition contenders (kind : waiting_mode) (lk cell : Z) (A : tid -> Z) (rounds : list nat) (t : tid) : program bool :=
  match rounds !! t with
  | Some k => contender kind t lk cell (A t) k
  | None => Ret true
  end.

Lemma written_rounds rounds (cs : tid -> record) k :
  (forall i r, rounds !! i = Some r -> (cs (k + i)%nat).2 = Z.of_nat r) ->
  total snd (seq k (length rounds)) cs = Z.of_nat (sum_list rounds).
Proof.
  revert k. induction rounds as [|r rounds IH]; intros k Hcs; [done|].
  change (total snd (seq k (length (r :: rounds))) cs) with ((cs k).2 + total snd (seq (S k) (length rounds)) cs).
  rewrite IH.
  - specialize (Hcs 0%nat r eq_refl). rewrite Nat.add_0_r in Hcs. rewrite Hcs. simpl. lia.
  - intros i r' Hi. specialize (Hcs (S i) r' Hi). by rewrite Nat.add_succ_r in Hcs.
Qed.

(** Threads and tasks that contend for a lock with [lock_sync] and
    [lock_async], waiting in its queue when it is taken, are never stuck,
    whatever the interleaving, the spurious failures and the number of threads
    and rounds: no access faults, although wait queues live on the stacks of
    the waiting threads and in the futures of the waiting tasks; every call
    that acquires or releases succeeds; and when no thread can take a step, all
    have returned (none is left asleep, so no wake-up is lost) and the counter
    they increment under the lock shows every increment (so no two of them
    ever had the lock at the same time). *)
Theorem contenders_never_stuck kind lk cell A rounds m p :
  lk <> cell -> wakers_differ (length rounds) kind -> words m !! lk = Some Lock.new -> words m !! cell = Some 0 ->
  (forall t, (t < length rounds)%nat -> wq_ok (A t)) ->
  (forall t u, (t < length rounds)%nat -> (u < length rounds)%nat -> t <> u ->
     A t + 128 <= A u \/ A u + 128 <= A t) ->
  rtc pool_step (contenders kind lk cell A rounds, m) p ->
  (forall t, ~ faulty p t) /\ (forall t b, finished p t b -> b = true) /\
  ((forall p', ~ pool_step p p') ->
   (forall t, finished p t true) /\
   words p.2 !! cell = Some (Z.of_nat (sum_list rounds))).
Proof.
  intros Hcell Hkind Hl Hc HA Hapart Hreach. set (N := length rounds) in *.
  destruct (pool_never_stuck lk Lock Lock.MAX_SHARED_OWNERS N A kind (counted cell N) inside shared_max
    (contenders kind lk cell A rounds) m (fun _ => (Resting, 0))
    (fun t b c => b = true /\ c.2 = match rounds !! t with Some k => Z.of_nat k | None => 0 end) p)
    as (Hsafe & Hret & Hstop); try done.
  - intros t n. unfold contenders. destruct (rounds !! t) as [k|] eqn:E; [|apply conforms_ret; by eexists].
    pose proof (lookup_lt_Some _ _ _ E) as Ht. eapply conforms_mono.
    + by apply (conforms_contender lk cell N A kind Hkind HA Hapart Hcell t Ht n k 0).
    + intros b x [-> ->]. by eexists.
  - split; [|done]. rewrite lookup_delete_ne by done. rewrite Hc. f_equal. unfold written.
    induction (seq 0 N) as [|t l IH]; [done|]. simpl. by rewrite <- IH.
  - split; [done|]. split; [intros t b Hf; by destruct (Hret t b Hf) as (c & -> & _)|]. intros Hno.
    destruct (Hstop Hno) as (_ & cs & [Hw _] & Hall). split.
    { intros t. by destruct (Hall t) as (b & Hf & -> & _). }
    rewrite lookup_delete_ne in Hw by done. rewrite Hw. f_equal. apply written_rounds. intros i r Hi.
    destruct (Hall i) as (_ & _ & _ & E). by rewrite Hi in E.
Qed.

(** Two threads and a task making two rounds each, their steps
    interleaved. *)
Definition three_contenders : pool mem bool :=
  schedule (concat (replicate 1500 [0; 1; 2]%nat))
    (contenders one_task 8 16 (fun t => 1024 + 128 * Z.of_nat t) [2; 2; 2]%nat,
     mkMem {[8 := Lock.new; 16 := 0]} ∅ ∅ ∅ ∅ [false; true]).

Lemma contenders_never_stuck_witness :
  (forall t, ~ faulty three_contenders t) /\ (forall t, finished three_contenders t true) /\
  words three_contenders.2 !! 16 = Some 6.
Proof.
  destruct (contenders_never_stuck one_task 8 16 (fun t => 1024 + 128 * Z.of_nat t) [2; 2; 2]%nat
    (mkMem {[8 := Lock.new; 16 := 0]} ∅ ∅ ∅ ∅ [false; true]) three_contenders)
    as (Hsafe & _ & Hdone); [done|apply one_task_differs|reflexivity|reflexivity| | |apply schedule_reachable|].
  - intros t Ht. simpl in Ht. unfold wq_ok.
    assert (t = 0 \/ t = 1 \/ t = 2)%nat as [-> | [-> | ->]] by lia; vm_compute; repeat split; discriminate || reflexivity.
  - intros t u Ht Hu Hne. lia.
  - split; [exact Hsafe|]. apply Hdone, all_returned. intros t. exists true.
    do 3 (destruct t as [|t]; [vm_compute; reflexivity|]). vm_compute. reflexivity.
Defined.
