(* ===== verification/ReadersWriters.v ===== *)
(** * Readers and writers, under all interleavings

    Threads and tasks share two counters that a lock protects.  A writer
    takes the lock exclusively, with [lock_sync] or [lock_async], increments
    both counters, one after the other, and calls [release_lock]; a reader
    takes the lock shared, with [share_sync] or [share_async], reads both
    counters, asserts that they are equal, and calls [release_share].  A task
    may instead drop its future when it has been suspended too often, see
    [Patience.v], and a thread or task may use a pager, see [Paging.v]: it
    registers the pager, polls it some times, and then either waits for it or
    drops it.  Who gives up skips the visit.  No reader ever sees the counters
    between the two increments, no increment is lost, and nobody gets stuck: an
    instance of the invariant of [Allotment.v]. *)

From S2P Require Import Prelude Prog Word Opcode Memory WaitQueue Geometry Results.
From S2P Require Import Queue Interleaving Concurrent Delivery Areas SyncPrimitive Crate Allotment Obtaining Polling Locking.
From S2P Require Lock.

(** ** The clients *)

Inductive visit : Type :=
| Update
| View.

(** What a thread does, one visit after the other, and how it waits. *)
Definition plan : Type := list (visit * manner).

(** Visits the counters at [fst] and [snd], waiting for the lock at [lk] in
    the wait queue at [wq], and counts the updates; [None] means that the lock
    could not be taken or released. *)
Fixpoint visitor (kind : waiting_mode) (t : tid) (lk fst snd wq : Z) (vs : plan) (made : Z) : program (option Z) :=
  match vs with
  | [] => Ret (Some made)
  | (Update, mn) :: vs =>
      locked <- acquire_as kind t lk wq mn ;;
      match locked with
      | Some true =>
          x <- load fst ;;
          swap fst (x + 1) ;;;
          swap snd (x + 1) ;;;
          released <- Lock.release_lock lk ;;
          if (released : bool) then visitor kind t lk fst snd wq vs (made + 1) else Ret None
      | Some false => Ret None
      | None => visitor kind t lk fst snd wq vs made
      end
  | (View, mn) :: vs =>
      shared <- share_as kind t lk wq mn ;;
      match shared with
      | Some true =>
          x <- load fst ;;
          y <- load snd ;;
          debug_assert (x =? y) ;;;
          released <- Lock.release_share lk ;;
          if (released : bool) then visitor kind t lk fst snd wq vs made else Ret None
      | Some false => Ret None
      | None => visitor kind t lk fst snd wq vs made
      end
  end.

(** The updates of a plan, and those that are not given up. *)
Definition updates (vs : plan) : Z :=
  foldr (fun v n => match v.1 with Update => 1 | View => 0 end + n) 0 vs.

Definition promised (vs : plan) : Z :=
  foldr (fun v n => match v with (Update, mn) => if gives_up mn then 0 else 1 | _ => 0 end + n) 0 vs.

(** How far a visit is, and the value that it has seen. *)
Inductive turn : Type :=
| Resting
| Updating (seen : Z)
| Halfway (seen : Z)
| Viewing (seen : Z).

Definition seen_by (c : turn) : option Z :=
  match c with
  | Resting => None
  | Updating v | Halfway v | Viewing v => Some v
  end.

(** What a thread records: its turn, and the number of its updates. *)
Definition record : Type := turn * Z.

Definition inside (c : record) : option Opcode :=
  match c.1 with
  | Resting => None
  | Updating _ | Halfway _ => Some Exclusive
  | Viewing _ => Some Shared
  end.

Definition is_halfway (c : record) : Z :=
  match c.1 with Halfway _ => 1 | _ => 0 end.

Section visitors.
  Context (lk one two : Z) (N : nat) (A : tid -> Z) (kind : waiting_mode).
  Context (Hkind : wakers_differ N kind).
  Context (HA : forall t, (t < N)%nat -> wq_ok (A t)).
  Context (Hapart : forall t u, (t < N)%nat -> (u < N)%nat -> t <> u ->
    A t + 128 <= A u \/ A u + 128 <= A t).
  Context (Hone : one <> lk) (Htwo : two <> lk) (Hcells : one <> two).

Definition written (cs : tid -> record) : Z := total snd (seq 0 N) cs.
Definition halfway (cs : tid -> record) : Z := total is_halfway (seq 0 N) cs.

(** The second counter shows all updates, the first one also those that are
    halfway; whoever is inside has seen what the second one shows. *)
Definition paired (ws : gmap Z Z) (cs : tid -> record) : Prop :=
  ws !! two = Some (written cs) /\ ws !! one = Some (written cs + halfway cs) /\
  forall u v, (u < N)%nat -> seen_by (cs u).1 = Some v -> v = written cs.

Abbreviation allotment := (allotment lk Lock Lock.MAX_SHARED_OWNERS N A kind paired inside).
Abbreviation conforming := (conforms allotment unsure (sleeps kind)).
Abbreviation roomy := (roomy Lock.MAX_SHARED_OWNERS N inside).

Lemma written_upd cs t c : (t < N)%nat -> written (upd cs t c) = written cs - (cs t).2 + c.2.
Proof using Type. intros. apply total_upd; [apply NoDup_seq|apply elem_of_seq; lia]. Qed.

Lemma halfway_upd cs t c :
  (t < N)%nat -> halfway (upd cs t c) = halfway cs - is_halfway (cs t) + is_halfway c.
Proof using Type. intros. apply total_upd; [apply NoDup_seq|apply elem_of_seq; lia]. Qed.

Lemma halfway_none cs : (forall u, (u < N)%nat -> is_halfway (cs u) = 0) -> halfway cs = 0.
Proof using Type.
  intros Hall. unfold halfway. assert (forall u, u ∈ seq 0 N -> is_halfway (cs u) = 0) as H.
  { intros u Hu. apply Hall. apply elem_of_seq in Hu. lia. }
  clear Hall. induction (seq 0 N) as [|u l IH]; [done|].
  change (total is_halfway (u :: l) cs) with (is_halfway (cs u) + total is_halfway l cs).
  rewrite H by by left. apply IH. intros v Hv. apply H. by right.
Qed.

Lemma visitor_occupies c : 0 <= occupied inside c.
Proof using Type. clear. destruct c as [[]]; unfold occupied; simpl; unfold_masks; lia. Qed.

(** A writer is alone; a reader may have company, but not of a writer. *)
Lemma writer_alone cs t u :
  (t < N)%nat -> (u < N)%nat -> u <> t -> roomy cs t (Holding Exclusive) -> (cs u).1 = Resting.
Proof using Type.
  intros Ht Hu Hne Hroom. destruct (Hroom Exclusive (Updating 0, 0) eq_refl eq_refl) as [Hle _].
  pose proof (occupancy_two N inside cs t u (Updating 0, 0) visitor_occupies Ht Hu ltac:(done)) as H2.
  destruct (cs u) as [[|v|v|v] k]; [done|exfalso..]; unfold occupied in H2; simpl in H2; unfold_masks; lia.
Qed.

Lemma reader_company cs t u :
  (t < N)%nat -> (u < N)%nat -> u <> t -> roomy cs t (Holding Shared) -> is_halfway (cs u) = 0.
Proof using Type.
  intros Ht Hu Hne Hroom. destruct (Hroom Shared (Viewing 0, 0) eq_refl eq_refl) as [Hle _].
  pose proof (occupancy_two N inside cs t u (Viewing 0, 0) visitor_occupies Ht Hu ltac:(done)) as H2.
  destruct (cs u) as [[|v|v|v] k]; try done; exfalso; unfold occupied in H2; simpl in H2; unfold_masks; lia.
Qed.

Lemma nobody_halfway cs t o :
  (t < N)%nat -> o = Exclusive \/ o = Shared -> roomy cs t (Holding o) -> is_halfway (cs t) = 0 ->
  halfway cs = 0.
Proof using Type.
  intros Ht Ho Hroom H0. apply halfway_none. intros u Hu. destruct (decide (u = t)) as [->|Hne]; [done|].
  destruct Ho as [-> | ->]; [|by apply (reader_company cs t)].
  unfold is_halfway. by rewrite (writer_alone cs t u).
Qed.

Section thread.
  Context (t : tid) (Ht : (t < N)%nat).

(** Seeing the first counter, as a writer or as a reader. *)
Lemma conforms_see n o k (f : Z -> turn) :
  o = Exclusive \/ o = Shared ->
  (forall v, inside (f v, k) = Some o /\ seen_by (f v) = Some v /\ is_halfway (f v, k) = 0) ->
  conforming n t (load one) (Holding o, None, (Resting, k)) (fun v x => x = (Holding o, None, (f v, k))).
Proof using Hone Ht.
  intros Ho Hf. apply (client_load _ _ _ _ _ _ _ _ shared_max); [done|done|].
  intros ws cs (Hw2 & Hw1 & Hsee) Hc Hroom.
  assert (halfway cs = 0) as H0 by (apply (nobody_halfway cs t o); rewrite ?Hc; done).
  rewrite H0, Z.add_0_r in Hw1. destruct (Hf (written cs)) as (Hin & Hs & Hh).
  exists (written cs), (f (written cs), k). split; [done|].
  split; [intros o'; rewrite Hin; by intros [= ->]|]. split; [|done].
  rewrite insert_id by done. unfold paired. rewrite halfway_upd, written_upd, Hc, Hh, H0 by done. simpl.
  rewrite Z.sub_add, Z.add_0_r. split; [done|]. split; [done|]. intros u v Hu.
  destruct (decide (u = t)) as [->|Hne]; [rewrite upd_eq; simpl; congruence|].
  rewrite upd_ne by done. by apply Hsee.
Qed.

Lemma conforms_write_one n v k :
  conforming n t (swap one (v + 1)) (Holding Exclusive, None, (Updating v, k))
    (fun _ x => x = (Holding Exclusive, None, (Halfway v, k))).
Proof using Hone Hcells Ht.
  apply (client_swap _ _ _ _ _ _ _ _ shared_max); [done|done|].
  intros ws cs (Hw2 & Hw1 & Hsee) Hc Hroom.
  assert (halfway cs = 0) as H0 by (apply (nobody_halfway cs t Exclusive); rewrite ?Hc; auto).
  assert (v = written cs) as Ev by (apply (Hsee t); [done|by rewrite Hc]).
  eexists _, (Halfway v, k). split; [done|]. split; [by intros o [= <-]|]. split; [|done].
  unfold paired. rewrite halfway_upd, written_upd, Hc, H0 by done. simpl. rewrite Z.sub_add.
  split; [by rewrite lookup_insert_ne|]. split; [rewrite lookup_insert_eq; f_equal; unfold is_halfway; simpl; lia|].
  intros u v' Hu. destruct (decide (u = t)) as [->|Hne]; [rewrite upd_eq; simpl; congruence|].
  rewrite upd_ne by done. by apply Hsee.
Qed.

Lemma conforms_write_two n v k :
  conforming n t (swap two (v + 1)) (Holding Exclusive, None, (Halfway v, k))
    (fun _ x => x = (Holding Exclusive, None, (Resting, k + 1))).
Proof using Htwo Hcells Ht.
  apply (client_swap _ _ _ _ _ _ _ _ shared_max); [done|done|].
  intros ws cs (Hw2 & Hw1 & Hsee) Hc Hroom.
  assert (v = written cs) as Ev by (apply (Hsee t); [done|by rewrite Hc]).
  eexists _, (Resting, k + 1). split; [done|]. split; [by intros o [=]|]. split; [|done].
  unfold paired. rewrite halfway_upd, written_upd, Hc by done. unfold is_halfway. simpl.
  split; [rewrite lookup_insert_eq; f_equal; lia|].
  split; [rewrite lookup_insert_ne, Hw1 by done; f_equal; lia|].
  intros u v' Hu. destruct (decide (u = t)) as [->|Hne]; [by rewrite upd_eq|].
  rewrite upd_ne by done. by rewrite (writer_alone cs t u Ht Hu Hne Hroom).
Qed.

Lemma conforms_view_two n v k :
  conforming n t (load two) (Holding Shared, None, (Viewing v, k))
    (fun y x => y = v /\ x = (Holding Shared, None, (Resting, k))).
Proof using Htwo Ht.
  apply (client_load _ _ _ _ _ _ _ _ shared_max); [done|done|].
  intros ws cs (Hw2 & Hw1 & Hsee) Hc Hroom.
  assert (v = written cs) as -> by (apply (Hsee t); [done|by rewrite Hc]).
  eexists _, (Resting, k). split; [done|]. split; [by intros o [=]|]. split; [|done].
  rewrite insert_id by done. unfold paired. rewrite halfway_upd, written_upd, Hc by done.
  unfold is_halfway. simpl. rewrite Z.sub_add, Z.sub_0_r, Z.add_0_r. split; [done|]. split; [done|].
  intros u v' Hu. destruct (decide (u = t)) as [->|Hne]; [by rewrite upd_eq|].
  rewrite upd_ne by done. by apply Hsee.
Qed.

(** A visit begins. *)
Lemma conforms_begin_visit n {B} o mn c attempt (visit skip : program B) Q :
  conforming n t attempt (Out, None, (Resting, c)) (obtained (Resting, c) o mn) ->
  (forall n', (n' <= n)%nat -> conforming n' t visit (Holding o, None, (Resting, c)) Q) ->
  (forall n', (n' <= n)%nat -> gives_up mn = true -> conforming n' t skip (Out, None, (Resting, c)) Q) ->
  forall fail : program B,
  conforming n t
    (r <- attempt ;; match r with Some true => visit | Some false => fail | None => skip end)
    (Out, None, (Resting, c)) Q.
Proof using Type.
  intros Hattempt Hvisit Hskip fail. conforms_seq; [exact Hattempt|].
  intros n1 [b|] x Hn [H ->]; [rewrite H; by apply Hvisit|by apply Hskip].
Qed.

Lemma conforms_visitor n vs c :
  conforming n t (visitor kind t lk one two (A t) vs c) (Out, None, (Resting, c))
    (fun r x => exists k, r = Some k /\ x = (Out, None, (Resting, k)) /\ c + promised vs <= k <= c + updates vs).
Proof using HA Hapart Hcells Hkind Hone Ht Htwo.
  revert n c. induction vs as [|[[] mn] vs IH]; intros n c.
  { apply conforms_ret. exists c. simpl. split; [done|]. split; [done|lia]. }
  - cbn [visitor]. apply (conforms_begin_visit n Exclusive mn);
      [by apply (conforms_acquire_as lk N A kind paired inside Hkind HA Hapart t Ht)| |].
    + intros n1 _. conforms_seq; [by apply (conforms_see _ Exclusive c Updating); [left|]|].
      intros n2 v x _ ->. conforms_seq; [apply conforms_write_one|]. intros n3 v' x _ ->.
      conforms_seq; [apply conforms_write_two|]. intros n4 v'' x _ ->.
      conforms_seq; [by apply (conforms_lock_release lk N A kind paired inside Hkind HA Hapart t Ht)|].
      intros n5 b x _ [-> ->]. eapply conforms_mono; [apply IH|]. intros r x (k & -> & -> & Hk).
      exists k. split; [done|]. split; [done|]. simpl. destruct (gives_up mn); lia.
    + intros n1 _ Hp. eapply conforms_mono; [apply IH|]. intros r x (k & -> & -> & Hk).
      exists k. split; [done|]. split; [done|]. simpl. rewrite Hp. lia.
  - cbn [visitor]. apply (conforms_begin_visit n Shared mn);
      [by apply (conforms_share_as lk N A kind paired inside Hkind HA Hapart t Ht)| |by intros; apply IH].
    intros n1 _. conforms_seq; [by apply (conforms_see _ Shared c Viewing); [right|]|].
    intros n2 v x _ ->. conforms_seq; [apply conforms_view_two|]. intros n3 v' x _ [-> ->].
    eapply conforms_then; [apply _|by apply conforms_debug_assert; [apply Z.eqb_refl|]|]. intros n4 _.
    conforms_seq; [by apply (conforms_share_release lk N A kind paired inside Hkind HA Hapart t Ht)|].
    intros n5 b x _ [-> ->]. apply IH.
Qed.

End thread.

End visitors.

(** ** The theorem *)

(** The pool of the visitors: the thread [t], its wait queue at [A t], makes
    the [t]-th of the [plans]. *)
Definition visitors (kind : waiting_mode) (lk one two : Z) (A : tid -> Z) (plans : list plan) (t : tid) :
    program (option Z) :=
  match plans !! t with
  | Some vs => visitor kind t lk one two (A t) vs 0
  | None => Ret (Some 0)
  end.

(** C4. Whatever the interleaving, the spurious failures and the number of
    threads, tasks and visits, whether they wait in the lock's methods or
    through pagers, and whenever they drop the futures or the pagers they wait
    on: nobody faults, so that no reader finds the two counters different, that
    is, no reader was inside together with a writer; every call that takes or
    releases the lock succeeds, unless its future or pager is dropped, so that
    all the updates of a thread are made, apart from those that could be given
    up; and
    when no thread can take a step, all have returned (none is left asleep),
    both counters show every update that was made (so that no two writers were
    inside together), and the lock is free. *)
Theorem readers_writers_never_stuck kind lk one two A plans m p :
  one <> lk -> two <> lk -> one <> two -> wakers_differ (length plans) kind ->
  words m !! lk = Some Lock.new -> words m !! one = Some 0 -> words m !! two = Some 0 ->
  (forall t, (t < length plans)%nat -> wq_ok (A t)) ->
  (forall t u, (t < length plans)%nat -> (u < length plans)%nat -> t <> u ->
     A t + 128 <= A u \/ A u + 128 <= A t) ->
  rtc pool_step (visitors kind lk one two A plans, m) p ->
  (forall t, ~ faulty p t) /\
  (forall t r, finished p t r -> exists k, r = Some k /\
     promised (default [] (plans !! t)) <= k <= updates (default [] (plans !! t))) /\
  ((forall p', ~ pool_step p p') ->
   exists made : tid -> Z,
     (forall t, finished p t (Some (made t))) /\
     words p.2 !! one = Some (total made (seq 0 (length plans)) id) /\
     words p.2 !! two = Some (total made (seq 0 (length plans)) id) /\ words p.2 !! lk = Some Lock.new).
Proof.
  intros Hone Htwo Hcells Hkind Hl H1 H2 HA Hapart Hreach. set (N := length plans) in *.
  assert (forall f : record -> Z, f (Resting, 0) = 0 -> total f (seq 0 N) (fun _ => (Resting, 0)) = 0) as H0.
  { intros f Hf. induction (seq 0 N) as [|t l IH]; [done|]. cbn [total foldr]. fold (total f l (fun _ => (Resting, 0))).
    by rewrite Hf, IH. }
  destruct (pool_never_stuck lk Lock Lock.MAX_SHARED_OWNERS N A kind (paired one two N) inside shared_max
    (visitors kind lk one two A plans) m (fun _ => (Resting, 0))
    (fun t r c => exists k, r = Some k /\ c = (Resting, k) /\
       promised (default [] (plans !! t)) <= k <= updates (default [] (plans !! t))) p)
    as (Hsafe & Hret & Hstop); try done.
  - intros t n. unfold visitors. destruct (plans !! t) as [vs|] eqn:E; simpl.
    2:{ apply conforms_ret. eexists. split; [done|]. by exists 0. }
    pose proof (lookup_lt_Some _ _ _ E) as Ht. eapply conforms_mono.
    + by apply (conforms_visitor lk one two N A kind Hkind HA Hapart Hone Htwo Hcells t Ht n vs 0).
    + intros r x (k & -> & -> & Hk). eexists. split; [done|]. by exists k.
  - unfold paired, written, halfway. rewrite !H0, !lookup_delete_ne by done. done.
  - split; [done|].
    split; [intros t r Hf; destruct (Hret t r Hf) as (c & k & -> & _ & Hk); by exists k|]. intros Hno.
    destruct (Hstop Hno) as (Hlk & cs & (Hw2 & Hw1 & _) & Hall). exists (fun t => (cs t).2). split.
    { intros t. by destruct (Hall t) as (b & Hf & k & -> & -> & _). }
    rewrite lookup_delete_ne in Hw1, Hw2 by done. rewrite Hw1, Hw2.
    rewrite (halfway_none N cs) by (intros u _; by destruct (Hall u) as (_ & _ & k & _ & -> & _)).
    by rewrite Z.add_0_r.
Qed.

(** Two threads and two tasks, their steps interleaved; the tasks give up their
    first updates, one by dropping a future and one by dropping a pager, since
    a thread has the lock and another one waits. *)
Definition four_plans : list plan :=
  [[(Update, Steady); (View, Paged 2 true)]; [(View, Paged 1 true); (Update, Steady)];
   [(Update, Paged 1 false); (View, Paged 0 true); (Update, Limited 1)]; [(Update, Limited 0); (View, Limited 1)]].

Definition two_tasks : waiting_mode := fun t => if (t <? 2)%nat then None else Some (7 + t)%nat.

Definition four_visitors : pool mem (option Z) :=
  schedule (replicate 3 0%nat ++ replicate 3000 1%nat ++ concat (replicate 1500 [2; 3]%nat) ++ concat (replicate 1500 [0; 1; 2; 3]%nat))
    (visitors two_tasks 8 16 24 (fun t => 1024 + 128 * Z.of_nat t) four_plans,
     mkMem {[8 := Lock.new; 16 := 0; 24 := 0]} ∅ ∅ ∅ ∅ [false; true]).

Lemma readers_writers_never_stuck_witness :
  words four_visitors.2 !! 16 = Some 3 /\ (forall t, ~ faulty four_visitors t) /\
  exists made : tid -> Z,
    (forall t, finished four_visitors t (Some (made t))) /\
    words four_visitors.2 !! 16 = Some (total made (seq 0 4) id) /\
    words four_visitors.2 !! 24 = Some (total made (seq 0 4) id) /\ words four_visitors.2 !! 8 = Some 0.
Proof.
  split; [vm_compute; reflexivity|].
  destruct (readers_writers_never_stuck two_tasks 8 16 24 (fun t => 1024 + 128 * Z.of_nat t) four_plans
    (mkMem {[8 := Lock.new; 16 := 0; 24 := 0]} ∅ ∅ ∅ ∅ [false; true]) four_visitors)
    as (Hsafe & _ & Hdone); [done|done|done| |reflexivity|reflexivity|reflexivity| | |apply schedule_reachable|].
  - intros t u cx Ht Hu. unfold two_tasks. destruct (t <? 2)%nat, (u <? 2)%nat; try done. intros [= <-] [= ?]. lia.
  - intros t Ht. simpl in Ht. unfold wq_ok.
    assert (t = 0 \/ t = 1 \/ t = 2 \/ t = 3)%nat as [-> | [-> | [-> | ->]]] by lia;
      vm_compute; repeat split; discriminate || reflexivity.
  - intros t u Ht Hu Hne. lia.
  - split; [exact Hsafe|]. apply Hdone, all_returned. intros t.
    do 4 (destruct t as [|t]; [eexists; vm_compute; reflexivity|]). eexists. vm_compute. reflexivity.
Defined.
