(* ===== verification/Permitting.v ===== *)
(** * Acquiring and releasing permits, under all interleavings

    The methods of [Semaphore.v] with which threads and tasks acquire permits
    of a semaphore, or wait for them, for a while or through a pager, and
    release them, shown to conform to the invariant of [Allotment.v]: whoever
    has acquired [count] permits holds as many units of the state word. *)

From S2P Require Import Prelude Prog Word Opcode Memory WaitQueue Geometry Results.
From S2P Require Import Queue Grant Interleaving Concurrent Delivery Areas Private Telling SyncPrimitive Enqueue Release Crate Allotment Obtaining Process Releasing Withdrawing Patience Pager Polling Paging.
From S2P Require Import Semaphore.

(** Waits for permits as a thread, or as a task. *)
Definition obtain (kind : waiting_mode) (t : tid) (sem wq count : Z) : program bool :=
  match kind t with
  | None => Semaphore.acquire_many_sync sem wq count
  | Some cx => Semaphore.acquire_many_async sem wq count cx
  end.

(** What a client makes of the result of a pager. *)
Definition not_ready (r : Result unit Error) : bool :=
  match r with Err NotReady => true | _ => false end.

Definition granted (r : Result unit Error) : bool :=
  match r with Ok _ => true | Err _ => false end.

(** Waits for permits, in some manner. *)
Definition obtain_as (kind : waiting_mode) (t : tid) (sem wq count : Z) (mn : manner) : program (option bool) :=
  match mn, kind t with
  | Paged tries stays, _ =>
      result <- through_pager Semaphore not_ready kind t wq
        (Semaphore.register_pager sem wq count (is_thread kind t)) tries stays ;;
      Ret (option_map granted result)
  | Limited k, Some cx => acquire_many_async_within sem wq count cx k
  | _, _ => acquired <- obtain kind t sem wq count ;; Ret (Some acquired)
  end.

Section permits.
  Context {C : Type} (sem : Z) (N : nat) (A : tid -> Z) (kind : waiting_mode).
  Context (P : gmap Z Z -> (tid -> C) -> Prop) (inside : C -> option Opcode).
  Context (Hkind : wakers_differ N kind).
  Context (HA : forall t, (t < N)%nat -> wq_ok (A t)).
  Context (Hapart : forall t u, (t < N)%nat -> (u < N)%nat -> t <> u ->
    A t + 128 <= A u \/ A u + 128 <= A t).

Abbreviation allotment := (allotment sem Semaphore MAX_PERMITS N A kind P inside).
Abbreviation conforming := (conforms allotment unsure (sleeps kind)).
Abbreviation ghost := (ghost_of phase C).
Abbreviation refused := (refused MAX_PERMITS).

Lemma permits_max : 0 <= MAX_PERMITS <= DATA_MASK.
Proof using Type. unfold MAX_PERMITS. unfold_masks. lia. Qed.

Section thread.
  Context (t : tid) (Ht : (t < N)%nat) (c : C).
  Context (count : Z) (Hcount : 1 <= count <= MAX_PERMITS).

Abbreviation out := (Out, None, c).
Abbreviation o := (SemaphoreOp count).

Lemma plain_count : plain o = true.
Proof using Hcount. clear - Hcount. simpl. apply andb_true_intro. split; apply Z.leb_le; apply Hcount. Qed.

Lemma count_u8 : (MAX_PERMITS <? count) = false /\ u8_try_from count = Some count.
Proof using Hcount.
  clear - Hcount. unfold u8_try_from, MAX_PERMITS in *. unfold_masks. split; [apply Z.ltb_ge; lia|].
  destruct (count <? 256) eqn:E; [done|]. apply Z.ltb_ge in E. lia.
Qed.

Lemma conforms_try_acquire n pr :
  conforming n t (try_acquire_internal sem count) (Aside pr None, None, c) (fun r x =>
    if r.1 then x = (Aside pr (Some o), None, c) else refused o r.2 /\ x = (Aside pr None, None, c)).
Proof using HA Hcount Ht.
  conforms_seq; [apply (conforms_read_word sem Semaphore _ N A kind P inside HA permits_max)|].
  intros n1 v x _ Hv. conforms_iter (fun v x => readable v /\ x = (Aside pr None, None, c)); [|by intros ???????[]|done].
  clear v x Hv. intros n2 v x _ [(a & b & d & -> & Ha & Hd & Hb) ->].
  rewrite word_land_addr, word_land_data by done.
  assert (usize_add d count = d + count) as ->.
  { unfold MAX_PERMITS, is_data in *. unfold_masks. apply usize_add_small. unfold usize_modulus. lia. }
  destruct (negb (a =? 0) || (MAX_PERMITS <? d + count)) eqn:E.
  - apply conforms_ret. simpl. split; [|done]. exists a, b, d. split; [done|]. split; [done|]. split; [done|].
    intros ->. simpl in E. apply Z.ltb_lt in E. unfold fits. simpl. unfold MAX_PERMITS in *.
    apply orb_false_intro; [apply Z.eqb_neq|apply Z.leb_gt]; lia.
  - apply orb_false_elim in E as [Ea Efit]. apply negb_false_iff, Z.eqb_eq in Ea. subst a.
    apply Z.ltb_ge in Efit. assert (b = false) as -> by (destruct b; [by destruct Hb|done]).
    assert (usize_add (word 0 false d) count = word 0 false (d + units o)) as ->.
    { unfold MAX_PERMITS, is_data, word in *. unfold_masks. simpl.
      rewrite usize_add_small by (unfold usize_modulus; lia). lia. }
    conforms_seq.
    { apply (conforms_take sem Semaphore _ N A kind P inside HA permits_max t Ht _ d _ o); [apply plain_count|done|].
      unfold fits. simpl. apply orb_true_intro. right. by apply Z.leb_le. }
    intros n3 [w|w] x _ Hx; by apply conforms_ret.
Qed.

Lemma conforms_acquire_many_sync n :
  kind t = None ->
  conforming n t (acquire_many_sync sem (A t) count) out
    (fun b x => b = true /\ x = (Holding o, None, c)).
Proof using HA Hapart Hcount Hkind Ht.
  intros Ek. unfold acquire_many_sync, acquire_many_sync_with. destruct count_u8 as [-> ->].
  conforms_iter (fun _ x => x = out); [|by intros ????????|done]. intros n1 s x _ ->.
  conforms_seq; [apply conforms_try_acquire|]. intros n2 [[|] v] x _ Hx; simpl in Hx; cbn beta iota.
  { subst x. by apply conforms_ret. }
  destruct Hx as [Hv ->].
  conforms_seq; [apply (conforms_wait_sync sem Semaphore _ N A kind P inside Hkind HA Hapart permits_max t Ht); auto using plain_count|].
  intros n3 [w|[]] x _ Hx; [destruct Hx as [-> ->]|]; by apply conforms_ret.
Qed.

Lemma conforms_acquire_many_async n cx :
  kind t = Some cx ->
  conforming n t (acquire_many_async sem (A t) count cx) out
    (fun b x => b = true /\ x = (Holding o, None, c)).
Proof using HA Hapart Hcount Hkind Ht.
  intros Ek. unfold acquire_many_async, acquire_many_async_with. destruct count_u8 as [-> ->].
  conforms_iter (fun _ x => x = out); [|by intros ????????|done]. intros n1 s x _ ->.
  conforms_seq; [apply conforms_try_acquire|]. intros n2 [[|] v] x _ Hx; simpl in Hx; cbn beta iota.
  { subst x. by apply conforms_ret. }
  destruct Hx as [Hv ->].
  apply (conforms_enqueue_task sem Semaphore _ N A kind P inside Hkind HA Hapart permits_max t Ht _ _ _ _ cx);
    [done|apply plain_count|done| |].
  - intros n3 _. eapply conforms_then; [apply _|by apply conforms_ret|]. intros n4 _.
    conforms_seq; [by apply (conforms_await sem Semaphore _ N A kind P inside Hkind HA Hapart t Ht)|].
    intros n5 w x _ [-> ->].
    conforms_seq; [by apply (conforms_retire sem Semaphore _ N A kind P inside Hkind HA Hapart t Ht)|].
    intros n6 [] x _ ->. by apply conforms_ret.
  - intros n3 en _ Hen.
    conforms_seq; [by apply (conforms_abandon sem Semaphore _ N A kind P inside Hkind HA Hapart t Ht)|].
    intros n4 [] x _ ->. by apply conforms_ret.
Qed.

Lemma conforms_obtain n :
  conforming n t (obtain kind t sem (A t) count) out (fun b x => b = true /\ x = (Holding o, None, c)).
Proof using HA Hapart Hcount Hkind Ht.
  unfold obtain. destruct (kind t) as [cx|] eqn:Ek;
    [by apply conforms_acquire_many_async|by apply conforms_acquire_many_sync].
Qed.

  Context (Hc : inside c = None).

Lemma conforms_acquire_many_within n cx k :
  kind t = Some cx ->
  conforming n t (acquire_many_async_within sem (A t) count cx k) out (fun r x =>
    match r with
    | Some b => b = true /\ x = (Holding o, None, c)
    | None => x = out
    end).
Proof using HA Hapart Hcount Hkind Ht Hc.
  intros Ek. unfold acquire_many_async_within. destruct count_u8 as [-> ->].
  conforms_iter (fun _ x => x = out); [|by intros ????????|done]. intros n1 s x _ ->.
  conforms_seq; [apply conforms_try_acquire|]. intros n2 [[|] v] x _ Hx; simpl in Hx; cbn beta iota.
  { subst x. by apply conforms_ret. }
  destruct Hx as [Hv ->].
  apply (conforms_enqueue_task sem Semaphore _ N A kind P inside Hkind HA Hapart permits_max t Ht _ _ _ _ cx);
    [done|apply plain_count|done| |].
  - intros n3 _.
    conforms_seq; [by apply (conforms_await_within sem Semaphore _ N A kind P inside Hkind HA Hapart)|].
    intros n4 [w|] x _ Hx.
    + destruct Hx as [-> ->].
      conforms_seq; [by apply (conforms_retire sem Semaphore _ N A kind P inside Hkind HA Hapart t Ht)|].
      intros n5 [] x _ ->. by apply conforms_ret.
    + subst x. conforms_seq.
      { by apply (conforms_give_up sem Semaphore (fun _ => eq_refl) N A kind P inside Hkind HA Hapart permits_max t Ht o Asleep c
          eq_refl Hc). }
      intros n5 [] x _ ->. by apply conforms_ret.
  - intros n3 en _ Hen.
    conforms_seq; [by apply (conforms_abandon sem Semaphore _ N A kind P inside Hkind HA Hapart t Ht)|].
    intros n4 [] x _ ->. by apply conforms_ret.
Qed.

Lemma conforms_permits_register n :
  conforming n t (Semaphore.register_pager sem (A t) count (is_thread kind t)) (Aside Allocated None, None, c)
    (fun b x => b = true /\ x = (Waiting o true Ready, None, c)).
Proof using HA Hapart Hcount Hkind Ht Hc.
  unfold Semaphore.register_pager. destruct count_u8 as [-> ->].
  conforms_seq; [by apply (conforms_is_unregistered sem Semaphore N A kind P inside Hkind HA Hapart t Ht)|].
  intros n1 b x _ [-> ->]. cbn iota.
  conforms_seq; [by apply (conforms_construct sem Semaphore _ N A kind P inside Hkind HA Hapart t Ht)|].
  intros n2 [] x _ (en & Hen & ->). conforms_by (fun (_ : unit) x => x = (Waiting o true Ready, None, c));
    [|intros n3 [] x _ ->; by apply conforms_ret].
  apply (conforms_register sem Semaphore N A kind P inside Hkind HA Hapart permits_max t Ht o c Hc n2
    (try_acquire_internal sem count) id (fun _ => 0)); [apply plain_count| |done].
  intros n3 en'. eapply conforms_mono; [apply conforms_try_acquire|]. by intros [[] v] x Hx.
Qed.

Lemma conforms_obtain_as n mn :
  conforming n t (obtain_as kind t sem (A t) count mn) out (fun r x =>
    match r with
    | Some b => b = true /\ x = (Holding o, None, c)
    | None => gives_up mn = true /\ x = out
    end).
Proof using HA Hapart Hcount Hkind Ht Hc.
  unfold obtain_as. destruct mn as [|k|tries stays]; [|destruct (kind t) as [cx|] eqn:Ek|].
  1,3: conforms_seq; [apply conforms_obtain|]; intros n1 b x _ [-> ->]; by apply conforms_ret.
  - eapply conforms_mono; [by apply conforms_acquire_many_within|]. by intros [b|] x Hx.
  - conforms_seq.
    + apply (conforms_pager_life sem Semaphore (fun _ => eq_refl) N A kind P inside Hkind HA Hapart permits_max t Ht o c Hc
        (ltac:(done)) not_ready (Ok tt) eq_refl); [..|intros n1; apply conforms_permits_register].
      * intros n1 x. by apply conforms_ret.
      * intros v n1 x. by apply conforms_ret.
    + intros n1 [r|] x _ [-> ->]; apply conforms_ret; by split.
Qed.

Lemma conforms_release_many n :
  conforming n t (release_many sem count) (Holding o, None, c) (fun b x => b = true /\ x = out).
Proof using HA Hapart Hcount Hkind Ht Hc.
  unfold release_many. destruct count_u8 as [_ ->].
  assert (compare_exchange sem count 0 = compare_exchange sem (word 0 false count) (word 0 false (count - units o))) as ->.
  { f_equal; unfold word; simpl; lia. }
  apply (conforms_release_fast sem Semaphore N A kind P inside Hkind HA Hapart permits_max t Ht Nothing o c); [done|done|].
  unfold is_data, MAX_PERMITS in *. lia.
Qed.

End thread.

End permits.
