(* ===== verification/Permits.v ===== *)
(** * Sharing the permits of a semaphore, under all interleavings

    Any number of threads and tasks repeatedly acquire some of the permits of
    a semaphore, with [acquire_many_sync] or [acquire_many_async], which puts
    them in the semaphore's wait queue and to sleep when there are not enough
    permits, and release them with [release_many], which grants the requests
    of the oldest waiting threads as far as they fit.  A task may instead
    drop its future when it has been suspended too often, see [Patience.v], and
    a thread or task may use a pager, see [Paging.v]; who gives up goes on
    without these permits.  While they have the
    permits they add their number to a gauge, and assert that the gauge never
    exceeds [MAX_PERMITS].  An instance of the invariant of [Allotment.v]. *)

From S2P Require Import Prelude Prog Word Opcode Memory WaitQueue Geometry Results.
From S2P Require Import Queue Grant Interleaving Concurrent Delivery Areas Private Telling SyncPrimitive Enqueue Release Crate Allotment Obtaining Polling Permitting.
From S2P Require Import Semaphore.

(** ** The clients *)

(** Acquires and releases the permits of [counts], waiting for the semaphore at
    [sem] in the wait queue at [wq], each time in some manner; adds those in use to the gauge; tells whether the permits were always
    acquired, unless the wait was given up, and released. *)
Fixpoint worker (kind : waiting_mode) (t : tid) (sem gauge wq : Z) (counts : list (Z * manner)) : program bool :=
  match counts with
  | [] => Ret true
  | (count, mn) :: counts =>
      acquired <- obtain_as kind t sem wq count mn ;;
      match acquired with
      | Some true =>
          in_use <- fetch_add gauge count ;;
          debug_assert (in_use + count <=? MAX_PERMITS) ;;;
          fetch_add gauge (usize_sub 0 count) ;;;
          released <- release_many sem count ;;
          if (released : bool) then worker kind t sem gauge wq counts else Ret false
      | Some false => Ret false
      | None => worker kind t sem gauge wq counts
      end
  end.

(** What a thread records: the number of permits it has added to the gauge. *)
Definition record : Type := option Z.

Definition inside (c : record) : option Opcode :=
  n ← c; if (1 <=? n) && (n <=? MAX_PERMITS) then Some (SemaphoreOp n) else None.

Section workers.
  Context (sem gauge : Z) (N : nat) (A : tid -> Z) (kind : waiting_mode).
  Context (Hkind : wakers_differ N kind).
  Context (HA : forall t, (t < N)%nat -> wq_ok (A t)).
  Context (Hapart : forall t u, (t < N)%nat -> (u < N)%nat -> t <> u ->
    A t + 128 <= A u \/ A u + 128 <= A t).
  Context (Hgauge : gauge <> sem).

Abbreviation in_use := (occupancy N inside).

(** The gauge shows the permits in use. *)
Definition gauged (ws : gmap Z Z) (cs : tid -> record) : Prop := ws !! gauge = Some (in_use cs).

Abbreviation allotment := (allotment sem Semaphore MAX_PERMITS N A kind gauged inside).
Abbreviation conforming := (conforms allotment unsure (sleeps kind)).

Lemma worker_occupies c : 0 <= occupied inside c.
Proof using Type.
  clear. unfold occupied, inside. destruct c as [n|]; [|done]. simpl.
  destruct ((1 <=? n) && (n <=? MAX_PERMITS)) eqn:E; [|done]. apply andb_prop in E as [E%Z.leb_le _]. simpl. lia.
Qed.

Lemma in_use_nonneg cs : 0 <= in_use cs.
Proof using Type. apply total_nonneg, worker_occupies. Qed.

Section thread.
  Context (t : tid) (Ht : (t < N)%nat) (count : Z) (Hcount : 1 <= count <= MAX_PERMITS).

Lemma inside_count : inside (Some count) = Some (SemaphoreOp count).
Proof using Hcount.
  clear - Hcount. unfold inside. simpl. destruct Hcount as [H1%Z.leb_le H2%Z.leb_le]. by rewrite H1, H2.
Qed.

Lemma in_use_upd cs c : in_use (upd cs t c) = in_use cs - occupied inside (cs t) + occupied inside c.
Proof using Ht. intros. apply total_upd; [apply NoDup_seq|apply elem_of_seq; lia]. Qed.

Lemma occupied_count : occupied inside (Some count) = count.
Proof using Hcount. unfold occupied. by rewrite inside_count. Qed.

Lemma conforms_use n :
  conforming n t (fetch_add gauge count) (Holding (SemaphoreOp count), None, None)
    (fun v x => v + count <= MAX_PERMITS /\ x = (Holding (SemaphoreOp count), None, Some count)).
Proof using Hcount Hgauge Ht.
  apply (client_fetch_add _ _ _ _ _ _ _ _ permits_max); [done|done|]. intros ws cs Hw Hc Hroom.
  destruct (Hroom (SemaphoreOp count) (Some count) eq_refl inside_count) as [Hle _].
  rewrite in_use_upd, Hc, occupied_count in Hle. change (occupied inside None) with 0 in Hle.
  pose proof (in_use_nonneg cs) as H0. rewrite Z.sub_0_r in Hle.
  exists (in_use cs), (Some count). split; [done|]. split; [intros o; rewrite inside_count; by intros [= <-]|].
  split; [|split; [exact Hle|done]]. unfold gauged. rewrite lookup_insert_eq, in_use_upd, Hc, occupied_count.
  change (occupied inside None) with 0. rewrite Z.sub_0_r, usize_add_small; [done|].
  unfold usize_modulus. unfold_masks. lia.
Qed.

Lemma conforms_stop_using n :
  conforming n t (fetch_add gauge (usize_sub 0 count)) (Holding (SemaphoreOp count), None, Some count)
    (fun _ x => x = (Holding (SemaphoreOp count), None, None)).
Proof using Hcount Hgauge Ht.
  apply (client_fetch_add _ _ _ _ _ _ _ _ permits_max); [done|done|]. intros ws cs Hw Hc Hroom.
  destruct (Hroom (SemaphoreOp count) (Some count) eq_refl inside_count) as [Hle _].
  rewrite in_use_upd, Hc, Z.sub_add in Hle.
  exists (in_use cs), None. split; [done|]. split; [by intros o [=]|]. split; [|done].
  unfold gauged. rewrite lookup_insert_eq, in_use_upd, Hc, occupied_count. change (occupied inside None) with 0.
  rewrite Z.add_0_r. f_equal. pose proof (in_use_nonneg (upd cs t None)) as Hge.
  rewrite in_use_upd, Hc, occupied_count in Hge. change (occupied inside None) with 0 in Hge.
  unfold usize_add, usize_sub, MAX_PERMITS in *. unfold_masks. rewrite Zplus_mod_idemp_r.
  rewrite Z.mod_small; [lia|]. unfold usize_modulus. lia.
Qed.

End thread.

Lemma conforms_worker n t counts :
  (t < N)%nat -> Forall (fun order => 1 <= order.1 <= MAX_PERMITS) counts ->
  conforming n t (worker kind t sem gauge (A t) counts) (Out, None, None)
    (fun b x => exists c : record, x = (Out, None, c) /\ b = true /\ c = None).
Proof using HA Hapart Hgauge Hkind.
  intros Ht Hcounts. revert n. induction Hcounts as [|[count mn] counts Hcount Hcounts IH]; intros n.
  { apply conforms_ret. by exists None. }
  simpl in Hcount.
  conforms_seq; [by apply (conforms_obtain_as sem N A kind gauged inside Hkind HA Hapart t Ht None count Hcount)|].
  intros n1 [b|] x _ Hx; [destruct Hx as [-> ->]|destruct Hx as [_ ->]; apply IH]. conforms_seq; [by apply conforms_use|]. intros n2 v x _ [Hle ->].
  eapply conforms_then; [apply _|apply conforms_debug_assert; [by apply Z.leb_le|done]|]. intros n3 _.
  conforms_seq; [by apply conforms_stop_using|]. intros n4 v' x _ ->.
  conforms_seq; [by apply (conforms_release_many sem N A kind gauged inside Hkind HA Hapart t Ht None count Hcount)|].
  intros n5 b x _ [-> ->]. apply IH.
Qed.

End workers.

(** ** The theorem *)

(** The pool of the workers: the thread [t], its wait queue at [A t], acquires
    and releases what the [t]-th of the [orders] says. *)
Definition workers (kind : waiting_mode) (sem gauge : Z) (A : tid -> Z) (orders : list (list (Z * manner))) (t : tid) :
    program bool :=
  match orders !! t with
  | Some counts => worker kind t sem gauge (A t) counts
  | None => Ret true
  end.

(** C5. Whatever the interleaving, the spurious failures, the number of
    threads and tasks and of the permits they ask for, between 1 and
    [MAX_PERMITS], whether they wait in the semaphore's methods or through
    pagers, and whenever they drop the futures or the pagers they wait on:
    nobody faults, so that the permits in use never exceed [MAX_PERMITS]; every
    call that acquires or releases permits succeeds, unless its future or pager
    is dropped; and when no thread can take a step, all have returned (none is left asleep,
    although a release wakes several or none), no permit is in use, and the
    semaphore has all its permits again. *)
Theorem workers_never_stuck kind sem gauge A orders m p :
  gauge <> sem -> wakers_differ (length orders) kind ->
  words m !! sem = Some Semaphore.new -> words m !! gauge = Some 0 ->
  Forall (Forall (fun order => 1 <= order.1 <= MAX_PERMITS)) orders ->
  (forall t, (t < length orders)%nat -> wq_ok (A t)) ->
  (forall t u, (t < length orders)%nat -> (u < length orders)%nat -> t <> u ->
     A t + 128 <= A u \/ A u + 128 <= A t) ->
  rtc pool_step (workers kind sem gauge A orders, m) p ->
  (forall t, ~ faulty p t) /\ (forall t b, finished p t b -> b = true) /\
  ((forall p', ~ pool_step p p') ->
   (forall t, finished p t true) /\ words p.2 !! gauge = Some 0 /\
   words p.2 !! sem = Some Semaphore.new).
Proof.
  intros Hgauge Hkind Hs Hg Hcounts HA Hapart Hreach. set (N := length orders) in *.
  assert (forall cs, (forall u, cs u = None) -> occupancy N inside cs = 0) as H0.
  { intros cs Hcs. unfold occupancy. induction (seq 0 N) as [|t l IH]; [done|]. cbn [total foldr].
    fold (total (occupied inside) l cs). by rewrite IH, Hcs. }
  destruct (pool_never_stuck sem Semaphore MAX_PERMITS N A kind (gauged gauge N) inside permits_max
    (workers kind sem gauge A orders) m (fun _ => None) (fun t b c => b = true /\ c = None) p)
    as (Hsafe & Hret & Hstop); try done.
  - intros t n. unfold workers. destruct (orders !! t) as [counts|] eqn:E; [|apply conforms_ret; by eexists].
    apply (conforms_worker sem gauge N A kind Hkind HA Hapart Hgauge).
    + by apply lookup_lt_Some in E.
    + rewrite Forall_forall in Hcounts. by eapply Hcounts, list_elem_of_In, list_elem_of_lookup_2.
  - unfold gauged. by rewrite H0, lookup_delete_ne.
  - split; [done|]. split; [intros t b Hf; by destruct (Hret t b Hf) as (c & -> & _)|]. intros Hno.
    destruct (Hstop Hno) as (Hsem & cs & Hw & Hall). split.
    { intros t. by destruct (Hall t) as (b & Hf & -> & _). }
    split; [|done]. unfold gauged in Hw. rewrite H0, lookup_delete_ne in Hw; [done|done|].
    intros u. by destruct (Hall u) as (_ & _ & _ & ->).
Qed.

(** Two threads and a task, their steps interleaved; the task waits for 30
    permits while the first thread has 40, the second one waits behind it,
    through a pager, for 10, and gets them as soon as the task gives up. *)
Definition three_orders : list (list (Z * manner)) :=
  [[(40, Steady); (20, Paged 0 true)]; [(30, Limited 0); (63, Steady)];
   [(10, Paged 2 true); (50, Paged 1 false); (1, Steady)]].

Definition given_up : list tid :=
  replicate 4 0%nat ++ replicate 30 1%nat ++ replicate 300 2%nat ++ replicate 100 1%nat.

Definition three_workers (order : list tid) : pool mem bool :=
  schedule order
    (workers one_task 8 16 (fun t => 1024 + 128 * Z.of_nat t) three_orders,
     mkMem {[8 := Semaphore.new; 16 := 0]} ∅ ∅ ∅ ∅ [false; true]).

Lemma workers_never_stuck_witness :
  (Z.land DATA_MASK <$> words (three_workers given_up).2 !! 8) = Some (40 + 10) /\
  let p := three_workers (given_up ++ concat (replicate 1500 [0; 1; 2]%nat)) in
  (forall t, ~ faulty p t) /\ (forall t, finished p t true) /\
  words p.2 !! 16 = Some 0 /\ words p.2 !! 8 = Some 0.
Proof.
  split; [vm_compute; reflexivity|]. intros p.
  destruct (workers_never_stuck one_task 8 16 (fun t => 1024 + 128 * Z.of_nat t) three_orders
    (mkMem {[8 := Semaphore.new; 16 := 0]} ∅ ∅ ∅ ∅ [false; true]) p)
    as (Hsafe & _ & Hdone); [done|apply one_task_differs|reflexivity|reflexivity| | | |apply schedule_reachable|].
  - unfold MAX_PERMITS, three_orders. unfold_masks. repeat constructor; simpl; lia.
  - intros t Ht. simpl in Ht. unfold wq_ok.
    assert (t = 0 \/ t = 1 \/ t = 2)%nat as [-> | [-> | ->]] by lia; vm_compute; repeat split; discriminate || reflexivity.
  - intros t u Ht Hu Hne. lia.
  - split; [exact Hsafe|]. apply Hdone, all_returned. intros t. exists true.
    do 3 (destruct t as [|t]; [vm_compute; reflexivity|]). vm_compute. reflexivity.
Defined.
