(* ===== verification/Debug.v ===== *)
(** * Debug output

    The [fmt::Debug] implementations of [Lock], [Semaphore] and [Barrier] in
    [src/lock.rs], [src/semaphore.rs] and [src/barrier.rs]: one load of the
    state word, decoded into named fields.  The formatter of the standard
    library is modelled by what it is given, the name of the structure and
    its fields.  The theorem says that the fields tell the state: they can be
    computed back into the word that was read. *)

From Stdlib Require Import String.
From S2P Require Import Prelude Prog Word Opcode Memory WaitQueue Geometry Scenario.
From S2P Require Lock Semaphore Barrier.

(** A field's value. *)
Inductive field_value : Type :=
| FUsize (n : Z)
| FBool (b : bool).

(** What [f.debug_struct(name).field(..)...finish()] is given. *)
Record debug_struct : Type := mkDebugStruct {
  ds_name : string;
  ds_fields : list (string * field_value);
}.

(** The fields all three have in common. *)
Definition queue_fields (state : Z) : list (string * field_value) :=
  let wait_queue_being_processed := Z.land state LOCKED_FLAG =? LOCKED_FLAG in
  let wait_queue_tail_addr := Z.land state ADDR_MASK in
  [("wait_queue_being_processed", FBool wait_queue_being_processed);
   ("wait_queue_tail_addr", FUsize wait_queue_tail_addr)]%string.

(** [<Lock as fmt::Debug>::fmt]. *)
Definition Lock_fmt (self : Z) : program debug_struct :=
  state <- load self ;;
  let lock_share_state := Z.land state DATA_MASK in
  let locked := lock_share_state =? DATA_MASK in
  let share_count := if locked then 0 else lock_share_state in
  let poisoned := state =? Lock.POISONED_STATE in
  Ret (mkDebugStruct "WaitQueue"
    ([("state", FUsize state); ("locked", FBool locked); ("share_count", FUsize share_count);
      ("poisoned", FBool poisoned)] ++ queue_fields state))%string.

(** [<Semaphore as fmt::Debug>::fmt]. *)
Definition Semaphore_fmt (self : Z) : program debug_struct :=
  state <- load self ;;
  let available_permits := usize_sub Semaphore.MAX_PERMITS (Z.land state DATA_MASK) in
  Ret (mkDebugStruct "WaitQueue"
    ([("state", FUsize state); ("available_permits", FUsize available_permits)] ++
     queue_fields state))%string.

(** [<Barrier as fmt::Debug>::fmt]. *)
Definition Barrier_fmt (self : Z) : program debug_struct :=
  state <- load self ;;
  let counter := Z.land state DATA_MASK in
  Ret (mkDebugStruct "WaitQueue"
    ([("state", FUsize state); ("counter", FUsize counter)] ++ queue_fields state))%string.

(** ** Reading the output *)

(** Looks a field up. *)
Definition field (d : debug_struct) (name : string) : option field_value :=
  snd <$> List.find (fun f => String.eqb f.1 name) (ds_fields d).

Definition usize_field (d : debug_struct) (name : string) : option Z :=
  match field d name with Some (FUsize n) => Some n | _ => None end.

Definition bool_field (d : debug_struct) (name : string) : option bool :=
  match field d name with Some (FBool b) => Some b | _ => None end.

(** The state word, from the fields other than [state] itself; the data part
    is read by [data]. *)
Definition read_back (data : debug_struct -> option Z) (d : debug_struct) : option Z :=
  data ← data d;
  processed ← bool_field d "wait_queue_being_processed";
  tail ← usize_field d "wait_queue_tail_addr";
  Some (word tail processed data).

Definition lock_data (d : debug_struct) : option Z :=
  locked ← bool_field d "locked";
  if (locked : bool) then Some DATA_MASK else usize_field d "share_count".

Definition semaphore_data (d : debug_struct) : option Z :=
  available ← usize_field d "available_permits";
  Some (Semaphore.MAX_PERMITS - available).

Definition barrier_data (d : debug_struct) : option Z := usize_field d "counter".

(** C34. The debug output of a lock, a semaphore and a barrier is taken from
    one load, changes nothing, and tells the state: it shows the word itself,
    and the word can be computed back from the other fields, whatever is in
    it; a semaphore never shows more permits than there are, and the
    subtraction it makes does not wrap. *)
Theorem debug_output_roundtrip t self w m :
  words m !! self = Some w -> is_usize w ->
  wp t (Lock_fmt self) m (fun d m' => m' = m /\ usize_field d "state" = Some w /\
    read_back lock_data d = Some w /\
    bool_field d "poisoned" = Some (w =? Lock.POISONED_STATE)) /\
  wp t (Semaphore_fmt self) m (fun d m' => m' = m /\ usize_field d "state" = Some w /\
    read_back semaphore_data d = Some w /\
    exists n, usize_field d "available_permits" = Some n /\ 0 <= n <= Semaphore.MAX_PERMITS) /\
  wp t (Barrier_fmt self) m (fun d m' => m' = m /\ usize_field d "state" = Some w /\
    read_back barrier_data d = Some w).
Proof.
  intros Hw Hu. destruct (word_decompose w) as (a & l & d & -> & Ha & Hd); [done|].
  assert (Hl : (Z.land (word a l d) LOCKED_FLAG =? LOCKED_FLAG) = l).
  { rewrite word_land_locked by done. by destruct l. }
  split; [|split]; (apply wp_bind; eapply wp_load; [done|]; apply wp_ret;
    unfold queue_fields; rewrite Hl, word_land_addr, word_land_data by done;
    split; [done|]; split; [done|]).
  - split; [|done]. unfold read_back, lock_data. cbn. case_bool; [by subst d|done].
  - change Semaphore.MAX_PERMITS with DATA_MASK. unfold is_data in Hd. unfold_masks.
    rewrite usize_sub_small by (unfold usize_modulus; lia). split; [|eexists; split; [done|lia]].
    unfold read_back, semaphore_data. cbn. change Semaphore.MAX_PERMITS with 63. do 2 f_equal. lia.
  - done.
Qed.

Lemma debug_output_roundtrip_witness :
  let m := three_waiters Lock 2 Exclusive Shared Shared in
  wp 0%nat (Lock_fmt primitive) m (fun d m' => m' = m /\
    usize_field d "state" = Some (word (anchor_addr wq3) false 2) /\
    read_back lock_data d = Some (word (anchor_addr wq3) false 2) /\
    bool_field d "poisoned" = Some false).
Proof.
  intros m. apply (debug_output_roundtrip 0%nat primitive (word (anchor_addr wq3) false 2) m);
    [reflexivity|by_evaluation].
Defined.
