(* ===== verification/Examples.v ===== *)
(** * The example program

    [examples/src/examples.rs]: five tests that use the crate through its
    public methods.  A test is a program; its [assert!]s are assertions of the
    model, and what it allocates on its stack (the primitive, a pager, the wait
    queue in the frame of a blocking call) has an address given as an
    argument.  [lock], [semaphore] and [pager] run on one thread; those
    of [barrier] and [gate] are given here thread by thread.  The rules at the
    end are for the former; [ExampleTests] has the theorem about all five. *)

From S2P Require Import Prelude Prog Word Opcode Memory WaitQueue.
From S2P Require Import Geometry Results Queue SyncPrimitive Grant Enqueue Release Blocking Scenario LockFacts SemaphoreSpec PagerSpec Crate Pager.
From S2P Require Lock Semaphore Barrier Gate.

(** [Result::is_ok] and [Result::is_err]. *)
Definition is_ok {A E} (r : Result A E) : bool :=
  match r with Ok _ => true | Err _ => false end.

Definition is_err {A E} (r : Result A E) : bool := negb (is_ok r).

(** [lock]; [wq] is the wait queue in the frame of [lock_sync]. *)
Definition lock (self wq : Z) : program unit :=
  Lock.lock_sync self wq ;;;
  locked <- Lock.try_lock self ;;
  debug_assert (negb locked) ;;;
  shared <- Lock.try_share self ;;
  debug_assert (negb shared) ;;;
  unshared <- Lock.release_share self ;;
  debug_assert (negb unshared) ;;;
  released <- Lock.release_lock self ;;
  debug_assert released.

(** [semaphore]. *)
Definition semaphore (self wq : Z) : program unit :=
  Semaphore.acquire_many_sync self wq (Semaphore.MAX_PERMITS - 1) ;;;
  first <- Semaphore.try_acquire self ;;
  debug_assert first ;;;
  second <- Semaphore.try_acquire self ;;
  debug_assert (negb second) ;;;
  one <- Semaphore.release self ;;
  debug_assert one ;;;
  all <- Semaphore.release_many self Semaphore.MAX_PERMITS ;;
  debug_assert (negb all) ;;;
  rest <- Semaphore.release_many self (Semaphore.MAX_PERMITS - 1) ;;
  debug_assert rest.

(** [pager]; [p] is the pinned pager, dropped at the end. *)
Definition pager (self p wq : Z) : program unit :=
  pager_default p ;;;
  registered <- is_registered p ;;
  debug_assert (negb registered) ;;;
  Lock.lock_sync self wq ;;;
  Lock.register_pager self p Lock.MShared true ;;;
  early <- try_poll Lock p ;;
  debug_assert (is_err early) ;;;
  released <- Lock.release_lock self ;;
  debug_assert released ;;;
  ready <- poll_sync Lock p ;;
  debug_assert (is_ok ready) ;;;
  pager_drop p.

(** One of the threads of [barrier]: it waits four times. *)
Definition barrier_thread (self wq : Z) : program unit :=
  Loop (fun rounds : nat =>
    match rounds with
    | O => Ret (inr tt)
    | S rounds => Barrier.wait_sync self wq ;;; Ret (inl rounds)
    end) 4%nat.

(** What the main thread of [barrier] asserts once all threads are joined. *)
Definition barrier_joined (self : Z) : program unit :=
  n <- Barrier.count self ;;
  debug_assert (n =? 8).

(** One of the threads of [gate]. *)
Definition gate_thread (self p : Z) : program unit :=
  r <- Gate.enter_sync self p ;;
  debug_assert (bool_decide (r = Ok Gate.Controlled)).

(** The main thread of [gate] until all threads have been let go. *)
Definition gate_permits (self : Z) : program unit :=
  Loop (fun count =>
    if negb (count =? 8) then
      r <- Gate.permit self ;;
      match r with
      | Ok n => Ret (inl (usize_add count n))
      | Err _ => Ret (inl count)
      end
    else Ret (inr tt)) 0.

(** The main thread of [gate] once all threads are joined. *)
Definition gate_joined (self p : Z) : program unit :=
  Gate.open self ;;;
  open <- Gate.enter_sync self p ;;
  debug_assert (bool_decide (open = Ok Gate.Open)) ;;;
  Gate.seal self ;;;
  sealed <- Gate.enter_sync self p ;;
  debug_assert (bool_decide (sealed = Err Gate.ESealed)).

(** ** Rules *)

Section rules.
  Context (t : tid).
  Implicit Types m : mem.

(** A lock nobody holds is locked without waiting. *)
Lemma wp_lock_sync_free self wq m (Q : bool -> mem -> Prop) :
  words m !! self = Some Lock.new ->
  Q true (set_words (<[self := DATA_MASK]> (words m)) m) ->
  wp t (Lock.lock_sync self wq) m Q.
Proof.
  intros Hw HQ. apply wp_loop, wp_bind.
  eapply wp_try_lock_internal_spin; [done|intros _|intros E; vm_compute in E; done|intros E; by destruct E].
  by apply wp_ret.
Qed.

(** The methods on a lock that is held exclusively and nobody waits for. *)
Lemma wp_locked_try_lock self m (Q : bool -> mem -> Prop) :
  words m !! self = Some DATA_MASK -> Q false m -> wp t (Lock.try_lock self) m Q.
Proof.
  intros Hw HQ. apply wp_bind. eapply wp_load; [done|]. apply wp_bind.
  eapply wp_try_lock_internal; [done|intros E; vm_compute in E; done..|].
  intros _ _. by apply wp_ret.
Qed.

Lemma wp_locked_try_share self m (Q : bool -> mem -> Prop) :
  words m !! self = Some DATA_MASK -> Q false m -> wp t (Lock.try_share self) m Q.
Proof.
  intros Hw HQ. apply wp_bind. eapply wp_load; [done|]. apply wp_bind.
  eapply wp_try_share_internal; [done|intros E; vm_compute in E; done..|].
  intros _ _. by apply wp_ret.
Qed.

(** Permits taken from, and given back to, a semaphore nobody waits for. *)
Lemma wp_take_permits self d c m (Q : bool * Z -> mem -> Prop) :
  words m !! self = Some d -> is_data d -> is_data c ->
  (d + c <= Semaphore.MAX_PERMITS ->
   forall m', words m' !! self = Some (d + c) -> Q (true, 0) m') ->
  (Semaphore.MAX_PERMITS < d + c -> Q (false, d) m) ->
  wp t (Semaphore.try_acquire_internal self c) m Q.
Proof.
  intros Hw Hd Hc Hok Hno.
  eapply (wp_try_acquire_internal t self false d [] []); [by apply queue_at_empty|done|..].
  - intros _ Hle. apply Hok; [done|]. apply lookup_insert_eq.
  - intros [?|?]; [done|]. simpl. unfold word. simpl. by apply Hno.
Qed.

Lemma wp_give_permits self d c m (Q : bool -> mem -> Prop) :
  words m !! self = Some d -> is_data d -> 0 <= c <= Semaphore.MAX_PERMITS ->
  (c <= d -> forall m', words m' !! self = Some (d - c) -> Q true m') ->
  (d < c -> Q false m) ->
  wp t (Semaphore.release_many self c) m Q.
Proof.
  intros Hw Hd Hc Hok Hno.
  eapply (wp_release_many t self d [] []); [by apply queue_at_empty|done| |done].
  intros Hle m' [Pw _ _ _ _ _ _ _ _]. apply Hok; [done|]. rewrite Pw.
  rewrite lookup_insert_eq. f_equal. unfold granted_data. simpl. unfold word. lia.
Qed.

(** Registering an unregistered pager with a lock that is held and nobody
    waits for. *)
Lemma wp_register_shared self p m (Q : bool -> mem -> Prop) :
  words m !! self = Some DATA_MASK -> wq_ok p -> anchors m !! anchor_addr p = Some 0 ->
  (forall m', queue_at m' self false DATA_MASK [p] [Shared] ->
     node m' p (pushed_entry [] (fresh_entry Lock self Shared true p)) -> Q true m') ->
  wp t (Lock.register_pager self p Lock.MShared true) m Q.
Proof.
  intros Hw Hok Ha HQ. apply wp_bind. eapply (wp_is_registered t p Unregistered); [by split; [|left]|].
  apply wp_bind, wp_construct_fresh; [done|done|].
  set (en := fresh_entry Lock self Shared true p).
  apply wp_bind, wp_loop, wp_bind. set (m1 := with_node p en m).
  eapply wp_try_share_internal_spin; [done|intros wk E; vm_compute in E; done..|].
  intros wk _ _. change (Lock.mode_opcode Lock.MShared) with Shared in *.
  apply wp_bind. assert (words (set_weak wk m) !! self = Some (word 0 false DATA_MASK)) as Hw' by done.
  assert (queue_at (set_weak wk m) self false DATA_MASK [] []) as Hq by (by apply queue_at_empty).
  eapply (wp_push_fresh t Lock self p true false DATA_MASK [] [] Shared (set_weak wk m)); [done|done|].
  intros en' -> m2 Hn2. apply wp_ret, wp_ret. apply HQ; [|done].
  pose proof (with_node_node (set_weak wk m) p Lock self Shared true Hok) as Hn1.
  eapply (queue_at_push (with_node p en (set_weak wk m)) self false DATA_MASK [] [] p en) in Hn1;
    [|by apply queue_at_empty|apply not_elem_of_nil|done|by left|done].
  eapply queue_at_frame; [exact Hn1|done|]. intros x ex Hx Hnx.
  apply list_elem_of_singleton in Hx as ->. destruct Hnx as (_ & _ & Hex & Hof). simpl in Hex.
  rewrite lookup_insert_eq in Hex. by simplify_eq.
Qed.

(** The release grants the pager's request. *)
Lemma wp_release_to_pager self p en m (Q : bool -> mem -> Prop) :
  queue_at m self false DATA_MASK [p] [Shared] -> node m p en ->
  (forall m' en', words m' !! self = Some 1 -> node m' p en' -> core en' = core (resolved 0 en) ->
     Q true m') ->
  wp t (Lock.release_lock self) m Q.
Proof.
  intros Hq Hn HQ. eapply wp_release_lock; [exact Hq| |done].
  intros _ m' [Pw _ _ _ Pg _ _ _ _]. destruct (Pg p en) as (en' & Hn' & Hc & _); [set_solver|done|].
  apply (HQ m' en'); [|done..]. rewrite Pw. by rewrite lookup_insert_eq.
Qed.

(** ** The tests *)

Lemma wp_lock self wq m :
  words m !! self = Some Lock.new ->
  wp t (lock self wq) m (fun _ m' => words m' !! self = Some Lock.new).
Proof.
  intros Hw. apply wp_bind, wp_lock_sync_free; [done|].
  assert (forall wk, queue_at (set_weak wk (set_words (<[self:=DATA_MASK]> (words m)) m)) self false
    DATA_MASK [] []) as Hq by (intros; apply queue_at_empty; [apply lookup_insert_eq|done]).
  apply wp_bind, wp_locked_try_lock; [apply lookup_insert_eq|]. apply wp_bind, wp_debug_assert; [done|].
  apply wp_bind, wp_locked_try_share; [apply lookup_insert_eq|]. apply wp_bind, wp_debug_assert; [done|].
  apply wp_bind. eapply wp_release_share; [exact (Hq _)|by intros [_ ?]|]. intros _ wk.
  apply wp_bind, wp_debug_assert; [done|]. apply wp_bind.
  eapply wp_release_lock; [exact (Hq wk)| |done]. intros _ m' [Pw _ _ _ _ _ _ _ _].
  apply wp_debug_assert; [done|]. rewrite Pw. apply lookup_insert_eq.
Qed.

Lemma wp_semaphore self wq m :
  words m !! self = Some Semaphore.new ->
  wp t (semaphore self wq) m (fun _ m' => words m' !! self = Some Semaphore.new).
Proof.
  intros Hw. apply wp_bind, wp_loop, wp_bind.
  eapply (wp_take_permits self 0 62); [done|done|done|intros _ m1 H1|done]. apply wp_ret.
  apply wp_bind, wp_bind.
  eapply (wp_take_permits self 62 1); [done|done|done|intros _ m2 H2|done]. apply wp_ret.
  apply wp_bind, wp_debug_assert; [done|]. apply wp_bind, wp_bind.
  eapply (wp_take_permits self 63 1); [done|done|done|done|intros _]. apply wp_ret.
  apply wp_bind, wp_debug_assert; [done|]. apply wp_bind.
  change (Semaphore.release self) with (Semaphore.release_many self 1).
  eapply (wp_give_permits self 63 1); [done|done|done|intros _ m3 H3|done].
  apply wp_bind, wp_debug_assert; [done|]. apply wp_bind.
  eapply (wp_give_permits self 62 63); [done|done|done|done|intros _].
  apply wp_bind, wp_debug_assert; [done|]. apply wp_bind.
  eapply (wp_give_permits self 62 62); [done|done|done|intros _ m4 H4|done].
  by apply wp_debug_assert.
Qed.

Lemma wp_pager self p wq m :
  words m !! self = Some Lock.new -> wq_ok p ->
  wp t (pager self p wq) m (fun _ m' => words m' !! self = Some 1 /\
    anchors m' !! anchor_addr p = None /\ entries m' !! wq_entry p = None).
Proof.
  intros Hw Hok. apply wp_bind, wp_wait_queue_default; [done|].
  apply wp_bind. eapply (wp_is_registered t p Unregistered).
  { split; [done|left]. apply lookup_insert_eq. }
  apply wp_bind, wp_debug_assert; [done|]. apply wp_bind, wp_lock_sync_free; [done|].
  apply wp_bind, wp_register_shared; [apply lookup_insert_eq|done|apply lookup_insert_eq|].
  intros m1 Hq Hn. set (en := pushed_entry [] _) in *.
  apply wp_bind, wp_bind. eapply (wp_is_registered t p (Pending true)).
  { exists en. split; [done|]. split; [done|]. split; [by left|done]. }
  apply wp_bind. eapply wp_entry; [done|]. apply wp_bind.
  eapply wp_try_consume_result_none; [apply Hn|done|].
  apply (wp_to_result t 0 (Some NotReady)); [done|].
  apply wp_bind, wp_debug_assert; [done|]. apply wp_bind.
  eapply wp_release_to_pager; [done..|]. intros m2 en2 Hw2 Hn2 Hc.
  assert (en2 = resolved 0 (set_next (e_next_entry_anchor_ptr en2)
    (set_prev (e_prev_entry_ptr en2) en))) as E.
  { destruct en2. unfold core, set_next, set_prev in Hc. simpl in Hc. injection Hc as -> -> -> -> -> -> ->.
    done. }
  apply wp_bind, wp_debug_assert; [done|]. apply wp_bind. rewrite E in Hn2.
  eapply wp_poll_sync_resolved; [exact Hn2|done..|by left|].
  apply wp_bind, wp_debug_assert; [done|].
  eapply wp_wait_queue_drop_consumed; [by apply (node_insert m2 p _ _ Hn2)|done|].
  split; [done|]. simpl. by rewrite !lookup_delete_eq.
Qed.

End rules.
