(* ===== verification/Rendezvous.v ===== *)
(** * The barrier, under all interleavings

    As many threads and tasks as a barrier is for meet at it again and again
    with [wait_sync] and [wait_async].  Arriving early, counting down, taking the queue and telling
    everybody, resetting the counter while late threads of the round sleep on
    and fast threads of the next round arrive already, finding the counter at
    zero and retrying: all are interleaved, one atomic action at a time.  The
    threads never get stuck, they proceed round by round, and each round has
    exactly one leader. *)

From S2P Require Import Prelude Prog Word Opcode Memory WaitQueue Geometry Results.
From S2P Require Import Queue Interleaving Concurrent Delivery Areas Private Telling SyncPrimitive Enqueue Crate Release GateSpec Crowd Pager Polling.
From S2P Require Barrier Examples.

(** ** The client *)

(** Waits as a thread, or as a task. *)
Definition wait (kind : waiting_mode) (t : tid) (self wq : Z) : program bool :=
  match kind t with
  | None => Barrier.wait_sync self wq
  | Some cx => Barrier.wait_async self wq cx
  end.

(** Waits [k] times, writing how many rounds it has completed to [cell] after
    each; returns how often it was told to be the leader. *)
Fixpoint attendee (kind : waiting_mode) (t : tid) (self cell wq done : Z) (k : nat) : program Z :=
  match k with
  | O => Ret 0
  | S k =>
      leader <- wait kind t self wq ;;
      swap cell (done + 1) ;;;
      n <- attendee kind t self cell wq (done + 1) k ;;
      Ret (Z.b2z leader + n)
  end.

(** ** Ghost state *)

(** Whether a thread leads the round it is in: not (yet), the counter being
    zero, or reset. *)
Inductive role : Type :=
| Follows
| Releasing
| Released.

(** How often a thread has arrived, how often it has led, how many rounds it
    has announced, and its role. *)
Record record : Type := Rec {
  arrived : nat;
  led : nat;
  shown : nat;
  role_of : role;
}.

Definition leads (c : record) : Prop := role_of c <> Follows.

Section rendezvous.
  Context (self : Z) (N K : nat) (A : tid -> Z) (kind : waiting_mode) (cell : tid -> option Z).

Abbreviation ghost := (ghost_of phase record).

(** What holds of the threads after [G] rounds. *)
Record attendance (ws : gmap Z Z) (c : tid -> record) (G : nat) : Prop := {
  a_led : total (fun c => Z.of_nat (led c)) (seq 0 N) c = Z.of_nat G;
  a_bound : forall u, (arrived (c u) <= K)%nat;
  a_unique : forall u v, leads (c u) -> leads (c v) -> u = v;
  a_lt : forall u, leads (c u) -> (u < N)%nat;
  a_shown : forall u i, (u < N)%nat -> cell u = Some i ->
    ws !! i = Some (Z.of_nat (shown (c u))) /\
    (shown (c u) <= arrived (c u) <= S (shown (c u)))%nat;
}.

(** The threads of [l] have arrived in the next round, [d] are missing. *)
Definition counting (c : tid -> record) (l : list tid) (d lr : Z) (G : nat) : Prop :=
  0 < d /\ d = Z.of_nat N - Z.of_nat (length l) /\ lr = 0 /\
  (forall u, leads (c u) -> role_of (c u) = Released /\ u ∉ l) /\
  (forall u, (u < N)%nat -> arrived (c u) = if decide (u ∈ l) then S G else G) /\
  (forall u, u ∈ l -> cell u <> None -> arrived (c u) = S (shown (c u))).

(** The round is over and the counter not yet reset. *)
Definition releasing (c : tid -> record) (l : list tid) (d lr : Z) (G : nat) : Prop :=
  d = 0 /\ lr = 2 /\ (exists u, role_of (c u) = Releasing /\ u ∉ l) /\
  forall u, (u < N)%nat -> arrived (c u) = G.

Definition rounds (ws : gmap Z Z) (c : tid -> record) (l : list tid) (d lr : Z) : Prop :=
  exists G, attendance ws c G /\ (counting c l d lr G \/ releasing c l d lr G).

(** ** Steps of the rounds *)

Lemma upd_cases {X} (Q : X -> Prop) (f : tid -> X) t x u :
  (u = t -> Q x) -> (u <> t -> Q (f u)) -> Q (upd f t x u).
Proof. unfold upd. case_decide; auto. Qed.

(** Changing one record. *)
Lemma attendance_upd ws c G G' t x :
  (t < N)%nat -> attendance ws c G ->
  Z.of_nat (led x) = Z.of_nat (led (c t)) + Z.of_nat G' - Z.of_nat G ->
  (arrived x <= K)%nat -> shown x = shown (c t) ->
  (cell t <> None -> (shown x <= arrived x <= S (shown x))%nat) ->
  (leads x -> forall u, leads (c u) -> u = t) ->
  attendance ws (upd c t x) G'.
Proof.
  intros Ht [H1 H2 H4 H5 H6] Hled Hb Hshown Hbounds Hu. split.
  - rewrite total_upd, H1 by (apply NoDup_seq || (apply elem_of_seq; lia)). cbv beta. lia.
  - intros u. by apply upd_cases.
  - intros u v. unfold upd. repeat case_decide; subst; auto.
    + intros ? Hv. symmetry. auto.
  - intros u. apply upd_cases; [by intros ->|auto].
  - intros u i Hu' Hi. destruct (H6 u i Hu' Hi) as [Hws Hsh]. apply upd_cases; [|done].
    intros ->. rewrite Hshown at 1. split; [done|]. apply Hbounds. by rewrite Hi.
Qed.

(** A thread that is not the last one arrives. *)
Lemma rounds_arrive ws c l d lr t a n s :
  (t < N)%nat -> c t = Rec a n s Follows -> (a < K)%nat -> (cell t <> None -> s = a) -> (t ∉ l) ->
  2 <= d -> rounds ws c l d lr ->
  lr = 0 /\ rounds ws (upd c t (Rec (S a) n s Follows)) (t :: l) (d - 1) lr.
Proof.
  intros Ht Hc Ha Hs Hni Hd (G & Hatt & [(Hd0 & Ed & -> & Hlead & Harr & Hann)|(-> & _)]); [|lia].
  split; [done|]. exists G. split.
  - eapply attendance_upd; try done; try (by rewrite Hc); [rewrite Hc; simpl; lia|intros ->%Hs; simpl; lia].
  - left. split; [lia|]. split; [simpl; lia|]. split; [done|]. split; [|split].
    + intros u. apply upd_cases; [done|]. intros Hut [Hr Hl]%Hlead. split; [done|].
      rewrite not_elem_of_cons. done.
    + intros u Hu. specialize (Harr u Hu). apply upd_cases.
      * intros ->. rewrite decide_True by by left. rewrite Hc, decide_False in Harr by done.
        simpl in *. by rewrite Harr.
      * intros Hut. rewrite Harr. apply decide_ext. rewrite elem_of_cons. tauto.
    + intros u Hu Hcell. apply elem_of_cons in Hu. apply upd_cases; [intros ->; simpl; by rewrite Hs|].
      intros Hut. apply Hann; [by destruct Hu|done].
Qed.

(** A thread finds the counter at zero. *)
Lemma rounds_early ws c l lr t :
  role_of (c t) = Follows -> rounds ws c l 0 lr -> lr = 2 /\ rounds ws c (t :: l) 0 lr.
Proof.
  intros Hc (G & Hatt & [(Hd & _)|(Hd & -> & (u & Hu & Hul) & Hr)]); [lia|]. split; [done|].
  exists G. split; [done|]. right. split; [done|]. split; [done|]. split; [|done]. exists u.
  split; [done|]. rewrite not_elem_of_cons. split; [|done]. congruence.
Qed.

(** Nobody else is missing. *)
Lemma all_but_one l t u :
  NoDup l -> (forall v, v ∈ l -> (v < N)%nat) -> Z.of_nat N - Z.of_nat (length l) = 1 ->
  (t < N)%nat -> (u < N)%nat -> (t ∉ l) -> (u ∉ l) -> u = t.
Proof.
  intros Hnd Hlt Hlen Ht Hu Hnt Hnu. destruct (decide (u = t)) as [|Hne]; [done|]. exfalso.
  assert (u :: t :: l ⊆+ seq 0 N) as Hsub.
  { apply NoDup_submseteq.
    - apply list.NoDup_cons. split; [by rewrite not_elem_of_cons|]. by apply list.NoDup_cons.
    - intros v. rewrite elem_of_seq, !elem_of_cons. intros [->|[->|Hv%Hlt]]; lia. }
  apply submseteq_length in Hsub. rewrite length_seq in Hsub. simpl in Hsub. lia.
Qed.

(** The last thread arrives. *)
Lemma rounds_last ws c l lr t a n s :
  (t < N)%nat -> c t = Rec a n s Follows -> (a < K)%nat -> (cell t <> None -> s = a) ->
  (t ∉ l) -> NoDup l -> (forall v, v ∈ l -> (v < N)%nat) -> rounds ws c l 1 lr ->
  lr = 0 /\ S (length l) = N /\ rounds ws (upd c t (Rec (S a) (S n) s Releasing)) [] 0 2.
Proof.
  intros Ht Hc Ha Hs Hni Hnd Hlt (G & Hatt & [(_ & Ed & -> & Hlead & Harr & _)|(? & _)]); [|done].
  assert (forall u, (u < N)%nat -> (u ∉ l) -> u = t) as Hall by (intros; by eapply all_but_one).
  assert (forall u, ~ leads (c u)) as Hno.
  { intros u Hu. destruct (Hlead u Hu) as [_ Hul]. pose proof (a_lt _ _ _ Hatt u Hu) as HuN.
    rewrite (Hall u HuN Hul) in Hu. by rewrite Hc in Hu. }
  split; [done|]. split; [lia|]. exists (S G). split.
  - eapply attendance_upd; try done; try (by rewrite Hc);
      [rewrite Hc; simpl; lia|intros ->%Hs; simpl; lia|].
    intros _ u Hu. by destruct (Hno u).
  - right. split; [done|]. split; [done|].
    split; [exists t; rewrite upd_eq; split; [done|apply not_elem_of_nil]|].
    intros u Hu. specialize (Harr u Hu). apply upd_cases.
    + intros ->. rewrite Hc, decide_False in Harr by done. simpl in *. by rewrite Harr.
    + intros Hut. rewrite Harr. case_decide as Hul; [done|]. destruct Hut. by apply Hall.
Qed.

(** Changing the leader's role only. *)
Lemma attendance_role ws c G t a n s r r' :
  (t < N)%nat -> c t = Rec a n s r -> r <> Follows -> attendance ws c G ->
  attendance ws (upd c t (Rec a n s r')) G.
Proof.
  intros Ht Hc Hr Hatt. assert (leads (c t)) as Hlt by (by rewrite Hc).
  eapply attendance_upd; try done; rewrite ?Hc; simpl; try done; try lia.
  - pose proof (a_bound _ _ _ Hatt t) as Hb. by rewrite Hc in Hb.
  - intros Hcell. destruct (cell t) as [i|] eqn:E; [|done].
    destruct (a_shown _ _ _ Hatt t i Ht E) as [_ Hsh]. by rewrite Hc in Hsh.
  - intros _ u Hu. by apply (a_unique _ _ _ Hatt).
Qed.

(** The leader resets the counter. *)
Lemma rounds_reset ws c l d lr t a n s :
  (0 < N)%nat -> (t < N)%nat -> c t = Rec a n s Releasing -> rounds ws c l d lr ->
  d = 0 /\ lr = 2 /\ rounds ws (upd c t (Rec a n s Released)) [] (Z.of_nat N) 0.
Proof.
  intros HN Ht Hc (G & Hatt & Hm). assert (leads (c t)) as Hlt by (by rewrite Hc).
  destruct Hm as [(_ & _ & _ & Hlead & _)|(-> & -> & _ & Harr)].
  { destruct (Hlead t Hlt) as [E _]. by rewrite Hc in E. }
  do 2 (split; [done|]). exists G. split; [by eapply attendance_role|].
  left. split; [lia|]. split; [simpl; lia|]. split; [done|].
  split; [|split; [|by intros u ?%not_elem_of_nil]].
  - intros u. apply upd_cases; [intros ->; split; [done|apply not_elem_of_nil]|].
    intros Hut Hu. destruct Hut. by apply (a_unique _ _ _ Hatt).
  - intros u Hu. rewrite decide_False by apply not_elem_of_nil. specialize (Harr u Hu).
    apply upd_cases; [|done]. intros ->. by rewrite Hc in Harr.
Qed.

(** The leader becomes a thread like the others. *)
Lemma rounds_retire ws c l d lr t a n s :
  (t < N)%nat -> c t = Rec a n s Released -> rounds ws c l d lr ->
  rounds ws (upd c t (Rec a n s Follows)) l d lr.
Proof.
  intros Ht Hc (G & Hatt & Hm). exists G. split; [by eapply attendance_role|].
  destruct Hm as [(Hd & Ed & Elr & Hlead & Harr & Hann)|(Hd & Elr & (u & Hu & Hul) & Harr)]; [left|right].
  - do 3 (split; [done|]). split; [|split].
    + intros u. by apply upd_cases; [|intros _; apply Hlead].
    + intros u HuN. specialize (Harr u HuN). apply upd_cases; [|done]. intros ->. by rewrite Hc in Harr.
    + intros u Hu Hcell. specialize (Hann u Hu Hcell). apply upd_cases; [|done]. intros ->.
      by rewrite Hc in Hann.
  - do 2 (split; [done|]). split.
    + exists u. apply upd_cases; [|done]. intros ->. by rewrite Hc in Hu.
    + intros v HvN. specialize (Harr v HvN). apply upd_cases; [|done]. intros ->. by rewrite Hc in Harr.
Qed.

(** A thread announces that it has completed the round. *)
Lemma rounds_show ws c l d lr t a n i :
  (forall u v j, (u < N)%nat -> (v < N)%nat -> cell u = Some j -> cell v = Some j -> u = v) ->
  (t < N)%nat -> c t = Rec (S a) n a Follows -> cell t = Some i -> (t ∉ l) -> rounds ws c l d lr ->
  is_Some (ws !! i) /\
  rounds (<[i := Z.of_nat (S a)]> ws) (upd c t (Rec (S a) n (S a) Follows)) l d lr.
Proof.
  intros Hinj Ht Hc Hi Hni (G & [H1 H2 H4 H5 H6] & Hm).
  assert (forall u, leads (upd c t (Rec (S a) n (S a) Follows) u) <-> leads (c u)) as Hlead.
  { intros u. apply upd_cases; [|done]. intros ->. by rewrite Hc. }
  assert (forall u, role_of (upd c t (Rec (S a) n (S a) Follows) u) = role_of (c u)) as Hrole.
  { intros u. apply upd_cases; [|done]. intros ->. by rewrite Hc. }
  assert (forall u, arrived (upd c t (Rec (S a) n (S a) Follows) u) = arrived (c u)) as Harrived.
  { intros u. apply upd_cases; [|done]. intros ->. by rewrite Hc. }
  split; [destruct (H6 t i Ht Hi) as [-> _]; by eexists|]. exists G. split.
  - split.
    + rewrite total_upd, H1 by (apply NoDup_seq || (apply elem_of_seq; lia)). rewrite Hc. simpl. lia.
    + intros u. by rewrite Harrived.
    + intros u v Hu%Hlead Hv%Hlead. auto.
    + intros u Hu%Hlead. auto.
    + intros u j Hu Hj. rewrite Harrived. destruct (decide (u = t)) as [->|Hut].
      * rewrite Hi in Hj. injection Hj as <-. rewrite lookup_insert_eq, upd_eq, Hc. simpl. split; [done|lia].
      * rewrite lookup_insert_ne, upd_ne by (done || intros ->; by destruct Hut, (Hinj u t j)).
        auto.
  - destruct Hm as [(Hd & Ed & Elr & Hld & Harr & Hann)|(Hd & Elr & (u & Hu & Hul) & Harr)]; [left|right].
    + do 3 (split; [done|]). split; [|split].
      * intros u Hu%Hlead. rewrite Hrole. auto.
      * intros u HuN. rewrite Harrived. auto.
      * intros u Hu Hcell. rewrite upd_ne by (by intros ->). auto.
    + do 2 (split; [done|]). split; [exists u; by rewrite Hrole|]. intros v. rewrite Harrived. auto.
Qed.

(** ** Arriving *)

Context (Hcells : forall t i, (t < N)%nat -> cell t = Some i -> i <> self).
Context (Hinj : forall u v j, (u < N)%nat -> (v < N)%nat -> cell u = Some j -> cell v = Some j -> u = v).
Context (HN : (0 < N)%nat) (Hmax : Z.of_nat N <= Barrier.MAX_TASKS).
Context (Hkind : wakers_differ N kind).
Context (HA : forall t, (t < N)%nat -> wq_ok (A t)).
Context (Hapart : forall t u, (t < N)%nat -> (u < N)%nat -> t <> u ->
  A t + 128 <= A u \/ A u + 128 <= A t).

Abbreviation crowd := (crowd self N A kind same_result undescribed rounds).
Abbreviation crowded := (crowded self N A kind same_result undescribed rounds).
Abbreviation sleeps := (sleeps kind).
Abbreviation conforming := (conforms crowded unsure sleeps).

(** A state word, as it may be read. *)
Definition readable (w : Z) : Prop := exists a d, w = word a false d /\ is_addr a /\ is_data d.

Lemma rounds_data ws cs l d lr : rounds ws cs l d lr -> is_data d.
Proof using Hmax.
  clear HN. change Barrier.MAX_TASKS with 63 in Hmax. unfold is_data. unfold_masks.
  intros (G & _ & [(Hd & -> & _)|(-> & _)]); lia.
Qed.

Lemma queue_ok g m l d lr : crowd g m l d lr -> Forall (fun u => wq_ok (A u)) l.
Proof using HA Hkind.
  intros Hs. apply Forall_forall. intros u Hu%list_elem_of_In. apply HA.
  by eapply (queued_lt self N A kind same_result undescribed rounds).
Qed.

Section thread.
  Context (t : tid) (Ht : (t < N)%nat).

(** The last thread takes the queue. *)
Lemma conforms_last n en a0 a m s :
  is_addr a0 -> (a < K)%nat -> (cell t <> None -> s = a) ->
  conforming n t (compare_exchange self (word a0 false 1) 0) (Built en, None, (Rec a m s Follows))
    (fun res x =>
      match res with
      | Ok v => exists ls, v = word (first_anchor (A <$> ls)) false 1 /\
          Forall (fun u => wq_ok (A u)) ls /\ S (length ls) = N /\
          x = (Built en, next_job 0 ls, (Rec (S a) (S m) s Releasing))
      | Err w => readable w /\ x = (Built en, None, (Rec a m s Follows))
      end).
Proof using HA Hmax Ht Hkind.
  intros Ha0 Ha Hsa. apply conforms_compare_exchange. intros g mm Hg HI.
  pose proof HI as (l & d & lr & Hs). eexists. split; [apply Hs|]. split.
  - intros E. pose proof (c_word _ _ _ _ _ _ _ _ _ _ _ _ Hs) as Hw. rewrite E in Hw.
    destruct (queue_word _ _ _ _ _ _ _ _ _ _ _ _ _ _ Hs Hw Ha0) as [-> <-]; [by apply data_low|].
    pose proof (c_placed _ _ _ _ _ _ _ _ _ _ _ _ Hs t) as Hno. rewrite Hg in Hno.
    destruct (rounds_last (others self mm) (clients g) l lr t a m s) as (-> & Hlen & HP);
      [done|by unfold clients; rewrite Hg|done|done|intros Hin; by destruct Hno; left|apply Hs| |apply Hs|].
    { intros v Hv. by eapply (queued_lt self N A kind same_result undescribed rounds). }
    eexists. split.
    + eexists _, _, _. by eapply (crowd_take self N A kind same_result undescribed rounds (weak mm) g mm l 1 0 t _ _ 0 2).
    + exists l. split; [done|]. split; [by eapply queue_ok|]. split; done.
  - intros _. apply kept_same; [done|]. rewrite Hg. split; [|done]. eexists _, d. split; [done|].
    split; [eapply first_anchor_is_addr, Hs|eapply rounds_data, Hs].
Qed.

(** The leader resets the counter and takes those that were late. *)
Lemma conforms_reset n en a m s :
  conforming n t (swap self (Z.of_nat N)) (Built en, None, (Rec a m s Releasing))
    (fun v x => exists ls, v = word (first_anchor (A <$> ls)) false 0 /\
       Forall (fun u => wq_ok (A u)) ls /\
       x = (Built en, next_job 2 ls, (Rec a m s Released))).
Proof using HA HN Hmax Ht Hkind.
  apply conforms_swap. intros g mm Hg HI. pose proof HI as (l & d & lr & Hs).
  eexists. split; [apply Hs|].
  destruct (rounds_reset (others self mm) (clients g) l d lr t a m s) as (-> & -> & HP);
    [done|done|by unfold clients; rewrite Hg|apply Hs|].
  eexists. split.
  - eexists _, _, _. change Barrier.MAX_TASKS with 63 in Hmax.
    eapply (crowd_take self N A kind same_result undescribed rounds (weak mm) g mm l 0 2 t _ _ (Z.of_nat N) 0); [done|done| |done|done].
    apply data_low. unfold is_data. unfold_masks. lia.
  - exists l. split; [done|]. split; [by eapply queue_ok|done].
Qed.

(** What [count_down] leaves behind: the thread has to wait for the counter
    to be reset, or for the round to end, or has led the round. *)
Definition counted_down (a m s : nat) (res : option unit) (x : ghost) : Prop :=
  match res with
  | Some _ => x = (Waiting 2 true Ready, None, (Rec a m s Follows))
  | None =>
      x = (Waiting 0 true Ready, None, (Rec (S a) m s Follows)) \/
      x = (Waiting 1 true Ready, None, (Rec (S a) (S m) s Released))
  end.

(** A thread that finds the counter at zero. *)
Lemma conforms_find_zero n en a0 a m s :
  fresh kind undescribed t en -> is_addr a0 ->
  conforming n t
    (construct Barrier (A t) self (BarrierOp true) (is_thread kind t) ;;;
     pushed <- try_push_wait_queue_entry self (A t) (word a0 false 0) ;;
     if (pushed : bool) then Ret (inr (Some tt))
     else state <- load self ;; Ret (inl state))
    (Built en, None, (Rec a m s Follows))
    (fun r x =>
      match r with
      | inl w => readable w /\ exists en, fresh kind undescribed t en /\ x = (Built en, None, (Rec a m s Follows))
      | inr res => counted_down a m s res x
      end).
Proof using HA Hmax Hapart Ht Hkind.
  intros ((Hst & Hpl & _) & _) Ha0. conforms_seq; [by apply conforms_construct_again|].
  intros n1 [] x _ (en' & Hen' & ->).
  conforms_seq; [apply (conforms_crowd_try_push self N A kind same_result undescribed rounds Hkind HA Hapart n1 t (Rec a m s Follows)
    (Rec a m s Follows) en' a0 0 (fun r => r = 2)); [done|done|done|done|]|].
  { intros ws cs l lr Hcs Hni HP.
    apply (rounds_early _ _ _ _ t) in HP as [-> HP]; [|by rewrite Hcs]. split; [done|].
    split; [by exists 2|]. by rewrite <- Hcs, upd_id. }
  intros n2 [|] x _ Hx; cbv beta iota in Hx; [destruct Hx as (r & -> & ->); by apply conforms_ret|].
  destruct Hx as (en2 & Hen2 & ->). conforms_seq; [apply (conforms_crowd_load _ _ _ _ _ _ _ _ _ _ _ _ is_data), rounds_data|].
  intros n3 w x _ (a1 & d1 & -> & Ha1 & Hd1 & ->). apply conforms_ret. split; [by exists a1, d1|].
  by exists en2.
Qed.

(** A thread that is not the last one. *)
Lemma conforms_count n en a0 d a m s :
  fresh kind undescribed t en -> is_addr a0 -> is_data d -> 2 <= d -> (a < K)%nat -> (cell t <> None -> s = a) ->
  conforming n t
    (let* (anchor_addr, _) := anchor_ptr (A t) in
     debug_assert (Z.land anchor_addr (usize_not ADDR_MASK) =? 0) ;;;
     e <- entry (A t) ;;
     update_next_entry_anchor_ptr e (to_anchor_ptr (word a0 false d)) ;;;
     let next_state :=
       Z.lor (Z.land (usize_sub (word a0 false d) 1) (usize_not ADDR_MASK)) anchor_addr in
     r <- compare_exchange self (word a0 false d) next_state ;;
     match r with
     | Ok _ => e <- entry (A t) ;; set_pollable e ;;; Ret tt ;;; Ret (inr None)
     | Err new_state => Ret (inl new_state)
     end)
    (Built en, None, (Rec a m s Follows))
    (fun r x =>
      match r with
      | inl w => readable w /\ exists en, fresh kind undescribed t en /\ x = (Built en, None, (Rec a m s Follows))
      | inr res => counted_down a m s res x
      end).
Proof using HA Hmax HN Hapart Ht Hkind.
  intros Hen Ha0 Hd Hd2 Ha Hsa. pose proof (anchor_addr_is_addr _ (HA t Ht)) as Hat.
  assert (is_data (d - 1)) as Hd1 by (unfold is_data in *; lia).
  conforms_seq; [by apply conforms_crowd_anchor_ptr|]. intros n1 x0 x _ [-> ->].
  eapply conforms_then; [apply _|apply conforms_debug_assert; [by rewrite addr_land_not_addr|done]|].
  intros n2 _. rewrite word_to_anchor_ptr by done.
  conforms_seq; [by apply conforms_crowd_entry|]. intros n3 e x _ [-> ->].
  conforms_seq; [by apply conforms_crowd_link|]. intros n4 [] x _ ->. cbv zeta.
  rewrite usize_sub_word by (done || lia). rewrite word_land_not_addr, word_lor_addr by done.
  conforms_seq; [apply (conforms_crowd_push self N A kind same_result undescribed rounds n4 t None (Rec a m s Follows)
    (Rec (S a) m s Follows) (set_next a0 en) d (d - 1) (fun r => r = 0) is_data); try done; [apply rounds_data|]|].
  { intros ws cs l lr Hcs Hni HP. destruct (rounds_arrive ws cs l d lr t a m s) as [-> HP']; try done.
    split; [done|]. split; [by exists 0|done]. }
  intros n5 [w|w] x _ Hx; cbv beta iota in Hx; [destruct Hx as (r & -> & ->)|].
  2:{ destruct Hx as [Hw ->]. apply conforms_ret. split; [done|]. by exists (set_next a0 en). }
  conforms_seq; [by apply conforms_crowd_entry|]. intros n6 e x _ [-> ->].
  conforms_seq; [by apply conforms_crowd_pollable|]. intros n7 [] x _ ->.
  eapply conforms_then; [apply _|by apply conforms_ret|]. intros n8 _. apply conforms_ret. by left.
Qed.

(** The last thread of a round. *)
Lemma conforms_lead n en a0 a m s :
  fresh kind undescribed t en -> is_addr a0 -> (a < K)%nat -> (cell t <> None -> s = a) ->
  conforming n t
    (r <- compare_exchange self (word a0 false 1) 0 ;;
     match r with
     | Ok value =>
         count <- Barrier.release_arrived value 1 ;;
         debug_assert (count <=? Barrier.MAX_TASKS) ;;;
         old <- swap self count ;;
         Barrier.release_early old ;;;
         e <- entry (A t) ;;
         set_result e 1 ;;;
         Ret (inr None)
     | Err new_state => Ret (inl new_state)
     end)
    (Built en, None, (Rec a m s Follows))
    (fun r x =>
      match r with
      | inl w => readable w /\ exists en, fresh kind undescribed t en /\ x = (Built en, None, (Rec a m s Follows))
      | inr res => counted_down a m s res x
      end).
Proof using HA HN Hapart Hmax Ht Hkind.
  intros Hen Ha0 Ha Hsa.
  conforms_seq; [by apply conforms_last|]. intros n1 [v|w] x _ Hx; cbv beta iota in Hx.
  2:{ destruct Hx as [Hw ->]. apply conforms_ret. split; [done|]. by exists en. }
  destruct Hx as (ls & -> & Hls & Hlen & ->).
  conforms_seq; [by apply (conforms_tell_queue self N A kind same_result undescribed rounds Hkind HA Hapart t (Built en)
    (Rec (S a) (S m) s Releasing) 0 n1 ls 1 (fun x => usize_add x 1) 1)|].
  intros n2 y x _ [-> ->]. change Barrier.MAX_TASKS with 63 in *.
  rewrite usize_count by (unfold usize_modulus; lia).
  eapply conforms_then; [apply _|apply conforms_debug_assert; [apply Z.leb_le; lia|done]|]. intros n3 _.
  replace (1 + Z.of_nat (length ls)) with (Z.of_nat N) by lia.
  conforms_seq; [by apply conforms_reset|]. intros n4 v x _ (ls2 & -> & Hls2 & ->).
  conforms_seq; [by apply (conforms_tell_queue self N A kind same_result undescribed rounds Hkind HA Hapart t (Built en)
    (Rec (S a) (S m) s Released) 2 n4 ls2 0 (fun _ => tt) tt)|].
  intros n5 y x _ [-> ->]. conforms_seq; [by apply conforms_crowd_entry|]. intros n6 e x _ [-> ->].
  conforms_seq; [apply (conforms_tell_oneself self N A kind same_result undescribed rounds Hkind HA Hapart same_result_u8 n6 t en 1 1
    (Rec (S a) (S m) s Released) (Rec (S a) (S m) s Released)); [done|done|done|]|].
  { intros ws cs l d lr <- _. by rewrite upd_id. }
  intros n7 [] x _ ->. apply conforms_ret. by right.
Qed.

Lemma conforms_count_down n en a m s :
  fresh kind undescribed t en -> (a < K)%nat -> (cell t <> None -> s = a) ->
  conforming n t (Barrier.count_down self (A t) (is_thread kind t) (Ret tt)) (Built en, None, (Rec a m s Follows))
    (counted_down a m s).
Proof using HA HN Hapart Hmax Ht Hkind.
  intros Hen Ha Hsa. conforms_seq; [apply (conforms_crowd_load _ _ _ _ _ _ _ _ _ _ _ _ is_data), rounds_data|].
  intros n1 w x _ (a0 & d0 & -> & Ha0 & Hd0 & ->).
  conforms_iter (fun w x => readable w /\ exists en, fresh kind undescribed t en /\ x = (Built en, None, (Rec a m s Follows)));
    [|by intros ????????|split; [by exists a0, d0|by exists en]].
  clear a0 d0 Ha0 Hd0 en Hen. intros n2 w x _ [(a0 & d & -> & Ha0 & Hd) (en & Hen & ->)].
  rewrite word_land_data by done. cbv zeta.
  destruct (Z.eqb_spec d 0) as [->|Hd0]; [by apply conforms_find_zero|].
  destruct (Z.eqb_spec d 1) as [->|Hd1]; [by apply (conforms_lead n2 en)|].
  apply conforms_count; try done. unfold is_data in Hd. lia.
Qed.

(** A round, from arriving to the result. *)
Lemma poll_not_done S {R} `{SyncResult S R} p mm b : step t (poll_by S kind t p) mm <> SDone b.
Proof using Type. unfold poll_by. destruct (kind t); simpl. all: by destruct (p mod 8 =? 0). Qed.

Lemma construct_not_done S p o mm b : step t (construct S p self o (is_thread kind t)) mm <> SDone b.
Proof using Type. unfold construct. simpl. by destruct (p mod 8 =? 0). Qed.

Lemma conforms_round n a m s x :
  x = (Anchored, None, (Rec a m s Follows)) \/ x = (Waiting 2 true (Taken true), None, (Rec a m s Follows)) ->
  (a < K)%nat -> (cell t <> None -> s = a) ->
  conforming n t
    (construct Barrier (A t) self (BarrierOp false) (is_thread kind t) ;;;
     returned <- Barrier.count_down self (A t) (is_thread kind t) (Ret tt) ;;
     match returned with
     | Some _ =>
         result <- poll_by Barrier kind t (A t) ;;
         debug_assert (negb (Barrier.unwrap_or_false result)) ;;;
         Ret (inl tt)
     | None =>
         result <- poll_by Barrier kind t (A t) ;;
         Ret (inr (Barrier.unwrap_or_false result))
     end)
    x
    (fun r x =>
      match r with
      | inl _ => x = (Waiting 2 true (Taken true), None, (Rec a m s Follows))
      | inr b => x = (Waiting (Z.b2z b) true (Taken true), None, (Rec (S a) (m + if b then 1 else 0)%nat s Follows))
      end).
Proof using HA HN Hapart Hmax Ht Hkind.
  intros Hx Ha Hsa. conforms_by (fun _ x => exists en, fresh kind undescribed t en /\ x = (Built en, None, (Rec a m s Follows))).
  { destruct Hx as [-> | ->]; [by apply conforms_construct_fresh|].
    apply conforms_reclaim; [done|done|done|done|apply construct_not_done|].
    intros en Hst Hpl. by apply conforms_construct_again. }
  intros n1 [] x' _ (en & Hen & ->). conforms_seq; [by apply conforms_count_down|].
  intros n2 [[]|] x' _ Hx'; simpl in Hx'.
  - subst x'. conforms_by (fun r x => r = Ok false /\ x = (Waiting 2 true (Taken true), None, (Rec a m s Follows))).
    { apply conforms_crowd_poll; try done; [apply same_result_u8|by intros v [-> _]|]. intros n3 v [-> _]. by apply conforms_ret. }
    intros n3 r x' _ [-> ->]. eapply conforms_then; [apply _|by apply conforms_debug_assert|].
    intros n4 _. by apply conforms_ret.
  - destruct Hx' as [-> | ->].
    + conforms_by (fun r x => r = Ok false /\ x = (Waiting 0 true (Taken true), None, (Rec (S a) m s Follows))).
      { apply conforms_crowd_poll; try done; [apply same_result_u8|by intros v [-> _]|]. intros n3 v [-> _]. by apply conforms_ret. }
      intros n3 r x' _ [-> ->]. apply conforms_ret. simpl. by rewrite Nat.add_0_r.
    + conforms_by (fun r x => r = Ok true /\ x = (Waiting 1 true (Taken true), None, (Rec (S a) (S m) s Follows))).
      { apply (conforms_rename self N A kind same_result undescribed rounds n2 t _ _ _ (Rec (S a) (S m) s Follows)); [apply poll_not_done| |].
        { intros ws cs l d lr Hcs Hr. by apply rounds_retire. }
        apply conforms_crowd_poll; try done; [apply same_result_u8|by intros v [-> _]|]. intros n3 v [-> _]. by apply conforms_ret. }
      intros n3 r x' _ [-> ->]. apply conforms_ret. simpl. by rewrite Nat.add_1_r.
Qed.

Lemma wait_is p :
  wait kind t self p =
    (pager_default p ;;;
     result <- Loop (fun _ =>
       construct Barrier p self (BarrierOp false) (is_thread kind t) ;;;
       returned <- Barrier.count_down self p (is_thread kind t) (Ret tt) ;;
       match returned with
       | Some _ =>
           result <- poll_by Barrier kind t p ;;
           debug_assert (negb (Barrier.unwrap_or_false result)) ;;;
           Ret (inl tt)
       | None =>
           result <- poll_by Barrier kind t p ;;
           Ret (inr (Barrier.unwrap_or_false result))
       end) tt ;;
     pager_drop p ;;;
     Ret result).
Proof using Type. unfold wait, is_thread, poll_by. by destruct (kind t). Qed.

Lemma conforms_wait_barrier n a m s :
  (a < K)%nat -> (cell t <> None -> s = a) ->
  conforming n t (wait kind t self (A t)) (Out, None, (Rec a m s Follows))
    (fun b x => x = (Out, None, (Rec (S a) (m + if b then 1 else 0)%nat s Follows))).
Proof using HA HN Hapart Hmax Ht Hkind.
  intros Ha Hsa. rewrite wait_is. conforms_seq; [by apply conforms_crowd_default|]. intros n1 [] x _ ->.
  conforms_by (fun b x => x = (Waiting (Z.b2z b) true (Taken true), None,
    (Rec (S a) (m + if (b : bool) then 1 else 0)%nat s Follows))).
  - conforms_iter (fun _ x => x = (Anchored, None, (Rec a m s Follows)) \/
      x = (Waiting 2 true (Taken true), None, (Rec a m s Follows))); [|by intros ????????|by left].
    intros n2 [] x _ Hx. eapply conforms_mono; [by apply conforms_round|].
    intros [[]|b] x' Hx'; [by right|done].
  - intros n2 b x _ ->. conforms_seq; [apply (conforms_crowd_drop self N A kind same_result undescribed rounds Hkind HA Hapart t Ht _ _ n2 (Z.b2z b)); by destruct b|]. intros n3 [] x _ ->.
    by apply conforms_ret.
Qed.

Lemma conforms_attendee n k a m i :
  (a + k <= K)%nat -> cell t = Some i ->
  conforming n t (attendee kind t self i (A t) (Z.of_nat a) k) (Out, None, Rec a m a Follows)
    (fun v x => exists b, v = Z.of_nat b /\
       x = (Out, None, Rec (a + k)%nat (m + b)%nat (a + k)%nat Follows)).
Proof using HA HN Hapart Hcells Hinj Hmax Ht Hkind.
  intros Hk Hi. revert n a m Hk. induction k as [|k IH]; intros n a m Hk.
  { apply conforms_ret. exists 0%nat. by rewrite !Nat.add_0_r. }
  conforms_seq; [apply conforms_wait_barrier; [lia|done]|]. intros n1 leader x _ ->.
  set (m' := (m + if leader then 1 else 0)%nat).
  conforms_seq; [apply (conforms_client_swap self N A kind same_result undescribed rounds n1 t i (Z.of_nat a + 1) Out _
    (Rec (S a) m' (S a) Follows)); [by eapply Hcells|done|]|].
  { intros ws cs l d lr Hcs Hni HP.
    replace (Z.of_nat a + 1) with (Z.of_nat (S a)) by lia. by apply rounds_show. }
  intros n2 v x _ ->. replace (Z.of_nat a + 1) with (Z.of_nat (S a)) by lia.
  conforms_seq; [apply IH; lia|]. intros n3 v' x _ (b & -> & ->). apply conforms_ret.
  exists ((if leader then 1 else 0) + b)%nat. split; [destruct leader; simpl; lia|].
  unfold m'. by rewrite Nat.add_assoc, Nat.add_succ_r.
Qed.

(** One of the threads of the example program. *)
Lemma conforms_barrier_thread n m :
  (4 <= K)%nat -> cell t = None -> kind t = None ->
  conforming n t (Examples.barrier_thread self (A t)) (Out, None, Rec 0 m 0 Follows)
    (fun _ x => exists b, x = (Out, None, Rec 4 b 0 Follows)).
Proof using HA HN Hapart Hmax Ht Hkind.
  intros HK Hcell Hk. conforms_iter (fun (k : nat) x => exists a b, (a + k = 4)%nat /\
    x = (Out, None, Rec a b 0 Follows)); [|by intros ????????|by exists 0%nat, m].
  intros n1 [|k] x _ (a & b & E & ->).
  { apply conforms_ret. exists b. by replace a with 4%nat by lia. }
  pose proof (conforms_wait_barrier n1 a b 0%nat) as Hw. unfold wait in Hw. rewrite Hk in Hw.
  conforms_seq; [apply Hw; [lia|by rewrite Hcell]|]. intros n2 leader x _ ->.
  apply conforms_ret. eexists (S a), _. split; [lia|done].
Qed.

End thread.

(** ** No thread is left behind *)

(** A thread that has done all its rounds. *)
Definition through (x : ghost) : Prop :=
  exists b s, x = (Out, None, Rec K b s Follows).

(** Threads that sleep or are through tell nobody. *)
Definition idle (g : tid -> ghost) : Prop := forall u, task_of (g u) = None.

Lemma somebody_missing l : (length l < N)%nat -> exists v, (v < N)%nat /\ v ∉ l.
Proof using HN.
  intros Hlen. destruct (decide (Exists (fun v => v ∉ l) (seq 0 N))) as [Hex|Hno].
  - apply Exists_exists in Hex as (v & Hv%list_elem_of_In & Hni). exists v.
    apply elem_of_seq in Hv. split; [lia|done].
  - exfalso. assert (seq 0 N ⊆+ l) as Hsub.
    { apply NoDup_submseteq; [apply NoDup_seq|]. intros v Hv. apply dec_stable. intros Hni.
      apply Hno, Exists_exists. exists v. split; [by apply list_elem_of_In|done]. }
    apply submseteq_length in Hsub. rewrite length_seq in Hsub. lia.
Qed.

Lemma attendees_awake g m u :
  crowded g m -> idle g -> (forall u, (u < N)%nat -> sleeps u g m \/ through (g u)) -> ~ sleeps u g m.
Proof using HN.
  intros (l & d & lr & Hs) Hidle Hall Hu.
  assert (forall v, sleeps v g m -> v ∈ l) as Hqueued.
  { intros v Hv. by eapply (sleeping_queued self N A kind same_result undescribed rounds). }
  assert (forall v, (v < N)%nat -> (v ∉ l) -> through (g v)) as Hthrough.
  { intros v Hv Hni. destruct (Hall v Hv) as [Hsl|]; [|done]. destruct Hni. auto. }
  pose proof (Hqueued u Hu) as Hul.
  assert (u < N)%nat as HuN by (by eapply (queued_lt self N A kind same_result undescribed rounds)).
  pose proof (c_client _ _ _ _ _ _ _ _ _ _ _ _ Hs) as (G & Hatt & Hm).
  destruct Hm as [(Hd & Ed & _ & _ & Harr & _)|(_ & _ & (v & Hv & Hvl) & _)].
  - destruct (somebody_missing l) as (v & HvN & Hvl); [lia|].
    destruct (Hthrough v HvN Hvl) as (b & s & E).
    pose proof (Harr v HvN) as Hav. pose proof (Harr u HuN) as Hau.
    rewrite decide_False in Hav by done. rewrite decide_True in Hau by done.
    pose proof (a_bound _ _ _ Hatt u). unfold clients in *. rewrite E in Hav. simpl in Hav. lia.
  - assert (v < N)%nat as HvN by (apply (a_lt _ _ _ Hatt); unfold leads; by rewrite Hv).
    destruct (Hthrough v HvN Hvl) as (b & s & E). unfold clients in Hv. by rewrite E in Hv.
Qed.

(** ** The whole pool *)

Definition start : tid -> ghost := fun _ => (Out, None, Rec 0 0 0 Follows).

Lemma rounds_start m :
  words m !! self = Some (Z.of_nat N) ->
  (forall t i, (t < N)%nat -> cell t = Some i -> words m !! i = Some 0) -> crowded start m.
Proof using HN Hcells Hmax.
  intros Hw Hc. exists [], (Z.of_nat N), 0. change Barrier.MAX_TASKS with 63 in Hmax.
  apply crowd_start; [done|apply data_low; unfold is_data; unfold_masks; lia|done|]. exists 0%nat. split.
  - split; try done; try by intros ? [].
    + induction (seq 0 N) as [|t l IH]; [done|]. simpl. exact IH.
    + intros u. simpl. lia.
    + intros u i Hu Hi. unfold others. rewrite lookup_delete_ne by (by apply not_eq_sym, (Hcells u)).
      split; [by eapply Hc|]. simpl. lia.
  - left. split; [lia|]. split; [simpl; lia|]. split; [done|]. split; [by intros u []|].
    split; [|by intros u ?%not_elem_of_nil]. intros u Hu. by rewrite decide_False by apply not_elem_of_nil.
Qed.

(** When every thread has done its rounds, as many have been led. *)
Lemma rounds_end g m :
  crowded g m -> (forall u, (u < N)%nat -> through (g u)) ->
  words m !! self = Some (Z.of_nat N) /\
  total (fun c => Z.of_nat (led c)) (seq 0 N) (clients g) = Z.of_nat K.
Proof using HN.
  intros (l & d & lr & Hs) Hall.
  assert (forall u, (u < N)%nat -> u ∉ l) as Hnl.
  { intros u Hu Hin. destruct (attached_waits self N A kind same_result undescribed rounds _ _ _ _ _ u Hs (or_introl Hin)) as (_ & r & pl & ow & E).
    destruct (Hall u Hu) as (b & s & Eg). by rewrite Eg in E. }
  assert (l = []) as ->.
  { destruct l as [|u l]; [done|]. assert (u ∈ u :: l) as Hin by by left.
    by destruct (Hnl u (queued_lt self N A kind same_result undescribed rounds _ _ _ _ _ u Hs Hin)). }
  pose proof (c_client _ _ _ _ _ _ _ _ _ _ _ _ Hs) as (G & Hatt & Hm).
  destruct Hm as [(_ & Ed & _ & _ & Harr & _)|(_ & _ & (v & Hv & _) & _)].
  - split.
    + rewrite (c_word _ _ _ _ _ _ _ _ _ _ _ _ Hs). f_equal. unfold word. simpl. simpl in Ed. lia.
    + rewrite (a_led _ _ _ Hatt). f_equal. specialize (Harr 0%nat HN).
      rewrite decide_False in Harr by apply not_elem_of_nil.
      destruct (Hall 0%nat HN) as (b & s & E). unfold clients in Harr. by rewrite E in Harr.
  - exfalso. assert (v < N)%nat as HvN by (apply (a_lt _ _ _ Hatt); unfold leads; by rewrite Hv).
    destruct (Hall v HvN) as (b & s & E). unfold clients in Hv. by rewrite E in Hv.
Qed.

(** No thread is more than one round ahead of another. *)
Lemma rounds_apart g m u v i j :
  crowded g m -> (u < N)%nat -> (v < N)%nat -> cell u = Some i -> cell v = Some j ->
  exists x y, words m !! i = Some (Z.of_nat x) /\ words m !! j = Some (Z.of_nat y) /\
    (x <= S y)%nat /\ (y <= S x)%nat.
Proof using HN Hcells.
  intros (l & d & lr & Hs) Hu Hv Hi Hj.
  pose proof (c_client _ _ _ _ _ _ _ _ _ _ _ _ Hs) as (G & Hatt & Hm).
  assert (forall u i, (u < N)%nat -> cell u = Some i -> exists x,
    words m !! i = Some (Z.of_nat x) /\ (x <= G)%nat /\ (G <= S x)%nat) as Hx.
  { clear u v i j Hu Hv Hi Hj. intros u i Hu Hi. destruct (a_shown _ _ _ Hatt u i Hu Hi) as [Hw Hsh].
    unfold others in Hw. rewrite lookup_delete_ne in Hw by (by apply not_eq_sym, (Hcells u)).
    eexists. split; [exact Hw|]. destruct Hm as [(_ & _ & _ & _ & Harr & Hann)|(_ & _ & _ & Harr)].
    - specialize (Harr u Hu). case_decide as Hin; [|lia].
      specialize (Hann u Hin (ltac:(by rewrite Hi))). lia.
    - specialize (Harr u Hu). lia. }
  destruct (Hx u i Hu Hi) as (x & Hwx & ? & ?). destruct (Hx v j Hv Hj) as (y & Hwy & ? & ?).
  exists x, y. split; [done|]. split; [done|]. lia.
Qed.

(** A pool whose threads wait [K] times each: as long as it runs the rounds are
    kept, and when it stops everything has been done.  [ret] is what a thread
    returns when it has led so many rounds. *)
Lemma pool_meets {X} (ret : nat -> X) (prog : tid -> program X) m p :
  (forall t n, (t < N)%nat -> conforming n t (prog t) (start t)
     (fun v x => exists b s, v = ret b /\ x = (Out, None, Rec K b s Follows))) ->
  (forall t, ~ (t < N)%nat -> prog t = Ret (ret 0%nat)) ->
  crowded start m -> rtc pool_step (prog, m) p ->
  (forall t, ~ faulty p t) /\ (exists g, crowded g p.2) /\
  ((forall p', ~ pool_step p p') -> exists b : tid -> nat,
     (forall t, finished p t (ret (b t))) /\ total Z.of_nat (seq 0 N) b = Z.of_nat K /\
     words p.2 !! self = Some (Z.of_nat N)).
Proof using HN.
  intros Hin Hout HI0 Hreach.
  set (Q := fun (t : tid) (v : X) (x : ghost) =>
    (t < N)%nat /\ (exists b s, v = ret b /\ x = (Out, None, Rec K b s Follows)) \/
    ~ (t < N)%nat /\ v = ret 0%nat /\ x = start t).
  destruct (pool_sound crowded unsure sleeps prog m start Q p) as (g & HI & HQ & Hsafe & Hwaits & _);
    [|done|done|].
  { intros t n. destruct (decide (t < N)%nat) as [Ht|Ht].
    - eapply conforms_mono; [by apply Hin|]. intros v x Hv. by left.
    - rewrite Hout by done. apply conforms_ret. by right. }
  split; [done|]. split; [by exists g|]. intros Hstop. pose proof (pool_stopped p Hstop Hsafe) as Hall.
  assert (forall t, (t < N)%nat -> sleeps t g p.2 \/ through (g t)) as Hdone.
  { intros t Ht. destruct (Hall t) as [[v Hf]|Hb]; [right|left; by apply Hwaits].
    destruct (HQ t v Hf) as [(_ & b & s & _ & E)|[? _]]; [by exists b, s|done]. }
  assert (idle g) as Hidle.
  { intros t. destruct (Hall t) as [[v Hf]|Hb]; [|by destruct (Hwaits t Hb) as (_ & ? & _)].
    by destruct (HQ t v Hf) as [(_ & b & s & _ & ->)|(_ & _ & ->)]. }
  assert (forall t, exists v, finished p t v) as Hfin.
  { intros t. destruct (Hall t) as [Hf|Hb]; [done|]. exfalso.
    by apply (attendees_awake g p.2 t HI Hidle Hdone), Hwaits. }
  exists (fun t => if decide (t < N)%nat then led (clients g t) else 0%nat). split.
  - intros t. destruct (Hfin t) as [v Hf]. destruct (HQ t v Hf) as [(Ht & b & s & -> & E)|(Ht & -> & _)].
    + rewrite decide_True by done. unfold clients. by rewrite E.
    + by rewrite decide_False.
  - destruct (rounds_end g p.2 HI) as [Hw Hled].
    { intros t Ht. destruct (Hfin t) as [v Hf].
      destruct (HQ t v Hf) as [(_ & b & s & _ & E)|[? _]]; [by exists b, s|done]. }
    split; [|done]. rewrite <- Hled. apply total_ext. intros t Ht%elem_of_seq. by rewrite decide_True by lia.
Qed.

End rendezvous.

(** ** The theorems *)

(** The pool: [N] threads that wait [K] times each. *)
Definition attendees (kind : waiting_mode) (self : Z) (cell A : tid -> Z) (N K : nat) (t : tid) : program Z :=
  if decide (t < N)%nat then attendee kind t self (cell t) (A t) 0 K else Ret 0.

(** C16. As many threads and tasks as a barrier is for meet at it [K] times with
    [wait_sync] and [wait_async], in every interleaving and with any spurious
    failures: no access faults, although wait queues live on the stacks of the
    waiting threads and in the futures of the waiting tasks; at any moment the
    numbers of rounds two of them have completed differ by at most one, so
    nobody passes the barrier before everybody has arrived; and when none of them
    can take a step, all have returned (no wake-up is lost, nor somebody who
    arrived while the counter was being reset), every round had exactly one
    leader, and the barrier is as new. *)
Theorem attendees_meet kind self cell A N K m p :
  (0 < N)%nat -> Z.of_nat N <= Barrier.MAX_TASKS -> wakers_differ N kind ->
  words m !! self = Some (Barrier.with_count (Z.of_nat N)) ->
  (forall t, (t < N)%nat -> wq_ok (A t)) ->
  (forall t u, (t < N)%nat -> (u < N)%nat -> t <> u ->
     A t + 128 <= A u \/ A u + 128 <= A t) ->
  (forall t, (t < N)%nat -> cell t <> self /\ words m !! cell t = Some 0) ->
  (forall t u, (t < N)%nat -> (u < N)%nat -> cell t = cell u -> t = u) ->
  rtc pool_step (attendees kind self cell A N K, m) p ->
  (forall t, ~ faulty p t) /\
  (forall t u, (t < N)%nat -> (u < N)%nat -> exists x y,
     words p.2 !! cell t = Some (Z.of_nat x) /\ words p.2 !! cell u = Some (Z.of_nat y) /\
     (x <= S y)%nat /\ (y <= S x)%nat) /\
  ((forall p', ~ pool_step p p') -> exists b : tid -> nat,
     (forall t, finished p t (Z.of_nat (b t))) /\ total Z.of_nat (seq 0 N) b = Z.of_nat K /\
     words p.2 !! self = Some (Barrier.with_count (Z.of_nat N))).
Proof.
  intros HN Hmax Hkind Hw HA Hapart Hcells Hinj Hreach.
  assert (Barrier.with_count (Z.of_nat N) = Z.of_nat N) as E by (unfold Barrier.with_count; lia).
  rewrite E in *. set (cellopt := fun t => Some (cell t)).
  assert (forall t i, (t < N)%nat -> cellopt t = Some i -> i <> self) as Hc1
    by (intros t i Ht Et; injection Et as <-; by apply Hcells).
  assert (forall u v j, (u < N)%nat -> (v < N)%nat -> cellopt u = Some j -> cellopt v = Some j -> u = v)
    as Hc2 by (intros u v j Hu Hv Eu Ev; injection Eu as <-; injection Ev as Ev; by apply Hinj).
  destruct (pool_meets self N K A kind cellopt HN Z.of_nat (attendees kind self cell A N K) m p)
    as (Hsafe & (g & HI) & Hdone); [| | |done|].
  { intros t n Ht. unfold attendees. rewrite decide_True by done. eapply conforms_mono.
    - by apply (conforms_attendee self N K A kind cellopt Hc1 Hc2 HN Hmax Hkind HA Hapart t Ht n K 0 0).
    - intros v x (b & -> & ->). by exists b, K. }
  { intros t Ht. unfold attendees. by rewrite decide_False. }
  { apply rounds_start; try done. intros t i Ht Et. injection Et as <-. by apply Hcells. }
  split; [done|]. split; [intros t u Ht Hu; by apply (rounds_apart self N K A kind cellopt Hc1 HN g p.2 t u)|].
  intros Hstop. destruct (Hdone Hstop) as (b & Hf & Hb & Hw'). by exists b.
Qed.

(** Two threads and a task that meet twice, their steps interleaved, with one spurious
    failure. *)
Definition three_attendees : pool mem Z :=
  schedule (concat (replicate 1500 [0; 1; 2]%nat))
    (attendees one_task 8 (fun t => 16 + 8 * Z.of_nat t) (fun t => 1024 + 128 * Z.of_nat t) 3 2,
     mkMem {[8 := 3; 16 := 0; 24 := 0; 32 := 0]} ∅ ∅ ∅ ∅ [false; true]).


Lemma attendees_meet_witness :
  (forall t, ~ faulty three_attendees t) /\
  exists b : tid -> nat, (forall t, finished three_attendees t (Z.of_nat (b t))) /\
    total Z.of_nat (seq 0 3) b = 2 /\ words three_attendees.2 !! 8 = Some 3.
Proof.
  destruct (attendees_meet one_task 8 (fun t => 16 + 8 * Z.of_nat t) (fun t => 1024 + 128 * Z.of_nat t) 3 2
    (mkMem {[8 := 3; 16 := 0; 24 := 0; 32 := 0]} ∅ ∅ ∅ ∅ [false; true]) three_attendees)
    as (Hsafe & _ & Hdone); [lia|done|apply one_task_differs|reflexivity| | | | |apply schedule_reachable|].
  - intros t Ht. unfold wq_ok. assert (t = 0 \/ t = 1 \/ t = 2)%nat as [-> | [-> | ->]] by lia;
      vm_compute; repeat split; discriminate || reflexivity.
  - intros t u Ht Hu Hne. lia.
  - intros t Ht. assert (t = 0 \/ t = 1 \/ t = 2)%nat as [-> | [-> | ->]] by lia; split; done.
  - intros t u Ht Hu. lia.
  - split; [exact Hsafe|]. apply Hdone.
    apply all_returned. intros t. do 3 (destruct t as [|t]; [eexists; vm_compute; reflexivity|]).
    eexists. vm_compute. reflexivity.
Defined.
