(* ===== verification/Passage.v ===== *)
(** * The gate, under all interleavings

    Threads and tasks wait at a controlled gate with [enter_sync] and
    [enter_async], or with pagers that they register, poll, and wait for, see
    [Polling.v], while another thread keeps calling [permit] until it has let
    all of them in, as in the test [gate] of the example program.  Pushing
    entries, [permit]'s exchange of the state word with its spurious failures,
    telling the entries it took while more arrive, and waiting are
    interleaved, one atomic action at a time.  Everybody is counted by exactly
    one [permit], and nobody sleeps forever. *)

From S2P Require Import Prelude Prog Word Opcode Memory WaitQueue Geometry Results.
From S2P Require Import Queue Interleaving Concurrent Delivery Areas Private Telling SyncPrimitive Enqueue Crate Release Blocking Scenario GateSpec Crowd Pager Polling.
From S2P Require Gate Examples.

(** The main thread, letting [goal] threads in. *)
Definition permits (self goal : Z) : program unit :=
  Loop (fun count =>
    if negb (count =? goal) then
      r <- Gate.permit self ;;
      match r with
      | Ok n => Ret (inl (usize_add count n))
      | Err _ => Ret (inl count)
      end
    else Ret (inr tt)) 0.

(** Enters the gate as a thread, or as a task. *)
Definition enter (kind : waiting_mode) (t : tid) (self p : Z) : program (Result Gate.State Gate.Error) :=
  match kind t with
  | None => Gate.enter_sync self p
  | Some cx => Gate.enter_async self p cx
  end.

(** What is made of the result of a pager. *)
Definition not_ready (r : Result Gate.State Gate.Error) : bool := bool_decide (r = Err Gate.NotReady).

(** Enters the gate, through a pager if [way] says how often to poll it before
    waiting for it. *)
Definition entrant (kind : waiting_mode) (t : tid) (self p : Z) (way : option nat) : program unit :=
  match way with
  | None =>
      r <- enter kind t self p ;;
      debug_assert (bool_decide (r = Ok Gate.Controlled))
  | Some tries =>
      r <- through_pager Gate not_ready kind t p (Gate.register_pager self p (is_thread kind t)) tries true ;;
      debug_assert (bool_decide (r = Some (Ok Gate.Controlled)))
  end.

Lemma gate_permits_is self : Examples.gate_permits self = permits self 8.
Proof. reflexivity. Qed.

Section passage.
  Context (self : Z) (N : nat) (A : tid -> Z) (kind : waiting_mode) (ways : tid -> option nat).

(** The threads below [N] wait at the gate, the thread [N] lets them in.  What
    is recorded: 1 for a thread whose entry has been pushed, and how many
    entries the thread [N] has taken. *)
Definition passing (ws : gmap Z Z) (c : tid -> Z) (l : list tid) (d lr : Z) : Prop :=
  d = 0 /\ lr = 0 /\ (forall u, (u < N)%nat -> c u = 0 \/ c u = 1) /\
  c N + Z.of_nat (length l) = total id (seq 0 N) c.

Lemma pushed_bound c : (forall u, (u < N)%nat -> c u = 0 \/ c u = 1) -> total id (seq 0 N) c <= Z.of_nat N.
Proof.
  intros Hc. assert (forall l, (forall u, u ∈ l -> (u < N)%nat) -> total id l c <= Z.of_nat (length l)) as H.
  { induction l as [|u l IH]; intros Hl; [done|]. unfold total in *. cbn [foldr length].
    pose proof (IH (fun v Hv => Hl v ltac:(by right))) as Hrest.
    destruct (Hc u (Hl u ltac:(by left))) as [-> | ->]; unfold id at 1; lia. }
  specialize (H (seq 0 N)). rewrite length_seq in H. apply H. intros u Hu%elem_of_seq. lia.
Qed.

(** A thread pushes its entry. *)
Lemma passing_push ws c l d lr t :
  (t < N)%nat -> c t = 0 -> passing ws c l d lr -> lr = 0 /\ passing ws (upd c t 1) (t :: l) d lr.
Proof.
  intros Ht Hc (-> & -> & Hcs & Hsum). split; [done|]. do 2 (split; [done|]). split.
  - intros u Hu. unfold upd. case_decide; [by right|auto].
  - rewrite total_upd, upd_ne, Hc by (lia || apply NoDup_seq || (apply elem_of_seq; lia)).
    cbn [length id]. lia.
Qed.

(** The queue is taken. *)
Lemma passing_take ws c l d lr :
  passing ws c l d lr ->
  c N + Z.of_nat (length l) <= Z.of_nat N /\ passing ws (upd c N (c N + Z.of_nat (length l))) [] d lr.
Proof.
  intros (-> & -> & Hcs & Hsum). split; [rewrite Hsum; by apply pushed_bound|].
  do 2 (split; [done|]). split.
  - intros u Hu. rewrite upd_ne by lia. auto.
  - rewrite upd_eq, total_upd_notin by (rewrite elem_of_seq; lia). cbn [length]. lia.
Qed.

Context (Hsize : Z.of_nat N < usize_modulus).
Context (Hkind : wakers_differ N kind).
Context (HA : forall t, (t < N)%nat -> wq_ok (A t)).
Context (Hapart : forall t u, (t < N)%nat -> (u < N)%nat -> t <> u ->
  A t + 128 <= A u \/ A u + 128 <= A t).

Abbreviation crowd := (crowd self N A kind same_result undescribed passing).
Abbreviation crowded := (crowded self N A kind same_result undescribed passing).
Abbreviation sleeps := (sleeps kind).
Abbreviation conforming := (conforms crowded unsure sleeps).

Lemma conforms_look_gate n t ph tk c :
  conforming n t (load self) (ph, tk, c) (fun w x =>
    exists a, w = word a false 0 /\ is_addr a /\ x = (ph, tk, c)).
Proof using Type.
  apply conforms_load. intros g m Hg HI. pose proof HI as (l & d & lr & Hs).
  eexists. split; [apply Hs|]. apply kept_same; [done|]. destruct (c_client _ _ _ _ _ _ _ _ _ _ _ _ Hs) as (-> & _).
  eexists. split; [done|]. split; [eapply first_anchor_is_addr, Hs|done].
Qed.

(** ** Entering *)

Lemma conforms_gate_push n t en :
  (t < N)%nat -> fresh kind undescribed t en ->
  conforming n t (Gate.push_wait_queue_entry self (A t) (Ret tt)) (Built en, None, 0)
    (fun _ x => x = (Waiting 0 true Ready, None, 1)).
Proof using HA Hapart Hkind.
  intros Ht Hen. conforms_iter (fun _ x => exists en, fresh kind undescribed t en /\ x = (Built en, None, 0));
    [|by intros ????????|by exists en].
  clear en Hen. intros n1 [] x _ (en & Hen & ->). conforms_seq; [apply conforms_look_gate|].
  intros n2 w x _ (a & -> & Ha & ->). assert (is_data 0) as H0 by done.
  rewrite word_land_data by done. change (Gate.State_from 0) with Gate.Controlled.
  conforms_seq; [apply (conforms_crowd_try_push self N A kind same_result undescribed passing Hkind HA Hapart n2 t 0 1 en a 0 (fun r => r = 0)); try done|].
  { intros ws cs l lr Hcs _ HP. destruct (passing_push ws cs l 0 lr t Ht Hcs HP) as [-> HP']. split; [done|]. split; [by exists 0|done]. }
  intros n3 [|] x _ Hx; cbv beta iota in Hx.
  - destruct Hx as (r & -> & ->). eapply conforms_then; [apply _|by apply conforms_ret|]. intros n4 _. by apply conforms_ret.
  - by apply conforms_ret.
Qed.

Lemma enter_is t p :
  enter kind t self p =
    (pager_default p ;;;
     construct Gate p self (Wait 0) (is_thread kind t) ;;;
     Gate.push_wait_queue_entry self p (Ret tt) ;;;
     result <- poll_by Gate kind t p ;;
     pager_drop p ;;;
     Ret result).
Proof using Type. unfold enter, is_thread, poll_by. by destruct (kind t). Qed.

Lemma conforms_enter n t :
  (t < N)%nat ->
  conforming n t (enter kind t self (A t)) (Out, None, 0)
    (fun r x => r = Ok Gate.Controlled /\ x = (Out, None, 1)).
Proof using HA Hapart Hkind.
  intros Ht. rewrite enter_is. conforms_seq; [by apply conforms_crowd_default|]. intros n1 [] x _ ->.
  conforms_seq; [by apply conforms_construct_fresh|]. intros n2 [] x _ (en & Hen & ->).
  conforms_seq; [by apply conforms_gate_push|]. intros n3 [] x _ ->.
  conforms_by (fun r x => r = Ok Gate.Controlled /\ x = (Waiting 0 true (Taken true), None, 1)).
  { apply conforms_crowd_poll; try done; [apply same_result_u8|by intros v [-> _]|]. intros n4 v [-> _]. by apply conforms_ret. }
  intros n4 r x _ [-> ->]. conforms_seq; [by apply (conforms_crowd_drop self N A kind same_result undescribed passing Hkind HA Hapart t Ht 1 0 n4 0)|]. intros n5 [] x _ ->.
  by apply conforms_ret.
Qed.

(** Through a pager. *)
Lemma conforms_gate_register n t :
  (t < N)%nat ->
  conforming n t (Gate.register_pager self (A t) (is_thread kind t)) (Anchored, None, 0)
    (fun b x => b = true /\ x = (Waiting 0 true Ready, None, 1)).
Proof using HA Hapart Hkind.
  intros Ht. conforms_seq; [by apply (conforms_crowd_unregistered self N A kind same_result undescribed passing Hkind HA Hapart)|].
  intros n1 b x _ [-> ->]. cbn iota.
  conforms_seq; [by apply conforms_construct_fresh|]. intros n2 [] x _ (en & Hen & ->).
  conforms_seq; [by apply conforms_gate_push|]. intros n3 [] x _ ->. by apply conforms_ret.
Qed.

Lemma conforms_gate_try_poll n t :
  (t < N)%nat ->
  conforming n t (try_poll Gate (A t)) (Waiting 0 true Ready, None, 1) (fun r x =>
    r = Ok Gate.Controlled /\ x = (Waiting 0 true (Taken true), None, 1) \/
    not_ready r = true /\ x = (Waiting 0 true Ready, None, 1)).
Proof using HA Hapart Hkind.
  intros Ht. eapply conforms_mono.
  - apply (conforms_crowd_try_poll self N A kind same_result undescribed passing Hkind HA Hapart same_result_u8 t Ht 1 0 n Gate
      (fun r x => r = Ok Gate.Controlled /\ x = (Waiting 0 true (Taken true), None, 1))
      (fun r x => r = Err Gate.NotReady /\ x = (Waiting 0 true Ready, None, 1)));
      [intros n1 v [-> _]|intros n1]; by apply conforms_ret.
  - intros r x [Hr|[-> ->]]; [by left|by right].
Qed.

Lemma conforms_entrant n t :
  (t < N)%nat ->
  conforming n t (entrant kind t self (A t) (ways t)) (Out, None, 0) (fun _ x => x = (Out, None, 1)).
Proof using HA Hapart Hkind.
  intros Ht. unfold entrant. destruct (ways t) as [tries|].
  - conforms_by (fun r x => r = Some (Ok Gate.Controlled) /\ x = (Out, None, 1));
      [|intros n1 r x _ [-> ->]; by apply conforms_debug_assert].
    eapply conforms_mono.
    + apply (conforms_through_pager crowded sleeps Gate not_ready kind t (A t) (fun x => x = (Waiting 0 true Ready, None, 1))
        (fun r x => r = Ok Gate.Controlled /\ x = (Waiting 0 true (Taken true), None, 1)))
        with (allocated := (Anchored, None, 0)) (retired := fun r x => r = Ok Gate.Controlled /\ x = (Out, None, 1)) (gone := (Out, None, 0)).
      * by intros r x [-> _].
      * intros n1 x ->. by apply conforms_gate_try_poll.
      * intros n1 x ->. apply conforms_crowd_poll; try done; [apply same_result_u8|by intros v [-> _]|]. intros n2 v [-> _]. by apply conforms_ret.
      * intros n1. by apply conforms_crowd_default.
      * intros n1. by apply conforms_gate_register.
      * intros r x n1 [-> ->]. eapply conforms_mono; [by apply (conforms_crowd_drop self N A kind same_result undescribed passing Hkind HA Hapart t Ht 1 0 n1 0)|done].
      * done.
    + intros [r|] x; [by intros [-> ->]|by intros []].
  - conforms_seq; [by apply conforms_enter|]. intros n1 r x _ [-> ->]. by apply conforms_debug_assert.
Qed.

(** ** Permitting *)

(** The exchange that takes the queue. *)
Lemma conforms_take_gate n a k :
  is_addr a ->
  conforming n N (compare_exchange_weak self (word a false 0) 0) (Out, None, k)
    (fun res x =>
      match res with
      | Ok v => exists ls, v = word (first_anchor (A <$> ls)) false 0 /\
          Forall (fun u => wq_ok (A u)) ls /\ k + Z.of_nat (length ls) <= Z.of_nat N /\
          x = (Out, next_job 0 ls, k + Z.of_nat (length ls))
      | Err w => (exists a, w = word a false 0 /\ is_addr a) /\ x = (Out, None, k)
      end).
Proof using HA.
  intros Ha. apply conforms_compare_exchange_weak. intros g m Hg HI.
  pose proof HI as (l & d & lr & Hs). pose proof (c_client _ _ _ _ _ _ _ _ _ _ _ _ Hs) as HP.
  assert (d = 0 /\ lr = 0) as [-> ->] by (destruct HP as (? & ? & _); done).
  eexists. split; [apply Hs|]. intros wk. split.
  - intros E. assert (clients g N = k) as Hk by (unfold clients; by rewrite Hg).
    destruct (passing_take (others self m) (clients g) l 0 0 HP) as [Hb HP']. rewrite Hk in Hb, HP'.
    eexists. split; [by eexists _, _, _; eapply (crowd_take self N A kind same_result undescribed passing wk g m l 0 0 N _ _ 0 0)|].
    exists l. split; [done|]. split; [|done]. apply Forall_forall. intros u Hu%list_elem_of_In.
    apply HA. by eapply (queued_lt self N A kind same_result undescribed passing).
  - apply kept_same; [by apply crowded_weak|]. rewrite Hg. split; [|done].
    eexists. split; [done|]. eapply first_anchor_is_addr, Hs.
Qed.

Lemma conforms_permit n k :
  0 <= k ->
  conforming n N (Gate.permit self) (Out, None, k)
    (fun r x => exists j, r = Ok j /\ 0 <= j /\ k + j <= Z.of_nat N /\ x = (Out, None, k + j)).
Proof using HA Hapart Hsize Hkind.
  intros Hk. assert (is_data 0) as H0 by done.
  conforms_by (fun r x => exists ls, r = (Gate.Controlled, Z.of_nat (length ls)) /\
    k + Z.of_nat (length ls) <= Z.of_nat N /\ x = (Out, None, k + Z.of_nat (length ls))).
  - conforms_by (fun r x => exists ls, r = Ok (word (first_anchor (A <$> ls)) false 0) /\
      Forall (fun u => wq_ok (A u)) ls /\ k + Z.of_nat (length ls) <= Z.of_nat N /\
      x = (Out, next_job 0 ls, k + Z.of_nat (length ls))).
    + conforms_seq; [apply conforms_look_gate|]. intros n1 w x _ (a & -> & Ha & ->).
      conforms_iter (fun w x => (exists a, w = word a false 0 /\ is_addr a) /\ x = (Out, None, k));
        [|by intros ????????|split; [by exists a|done]].
      intros n2 w x _ [(a' & -> & Ha') ->]. eapply conforms_then; [apply _|by apply conforms_ret|].
      intros n3 _. rewrite word_land_data by done. conforms_seq; [by apply conforms_take_gate|].
      intros n4 [v|w] x _ Hx; apply conforms_ret; [|exact Hx].
      destruct Hx as (ls & -> & Hok & Hb & ->). by exists ls.
    + intros n1 r x _ (ls & -> & Hok & Hb & ->). cbv beta iota zeta.
      assert (is_addr (first_anchor (A <$> ls))) as Ha.
      { destruct ls as [|h ls]; [apply is_addr_0|]. by apply anchor_addr_is_addr, (Forall_inv Hok). }
      rewrite word_land_data by done. change (Gate.State_from 0) with Gate.Controlled.
      conforms_seq; [apply (conforms_tell_queue self N A kind same_result undescribed passing Hkind HA Hapart N Out
        (k + Z.of_nat (length ls)) 0 n1 ls 0 (fun count => usize_add count 1) 0); done|].
      intros n2 y x _ [-> ->]. apply conforms_ret. exists ls.
      by rewrite usize_count by lia.
  - intros n1 r x _ (ls & -> & Hb & ->). apply conforms_ret. eexists. split; [done|].
    split; [lia|]. done.
Qed.

Lemma conforms_permits n :
  conforming n N (permits self (Z.of_nat N)) (Out, None, 0)
    (fun _ x => x = (Out, None, Z.of_nat N)).
Proof using HA Hapart Hsize Hkind.
  conforms_iter (fun k x => 0 <= k <= Z.of_nat N /\ x = (Out, None, k)); [|by intros ????????|split; [lia|done]].
  intros n1 k x _ [Hk0 ->]. destruct (Z.eqb_spec k (Z.of_nat N)) as [->|Hne]; [by apply conforms_ret|].
  simpl negb. cbv iota. conforms_seq; [by apply conforms_permit, Hk0|].
  intros n2 r x _ (j & -> & Hj & Hkj & ->). apply conforms_ret. rewrite usize_add_small by lia.
  split; [lia|done].
Qed.

(** ** The pool *)

Definition start : tid -> ghost_of phase Z := fun _ => (Out, None, 0).

Lemma passage_start m : words m !! self = Some Gate.new -> crowded start m.
Proof using Type.
  intros Hw. exists [], 0, 0. apply crowd_start; try done.
  do 2 (split; [done|]). split; [by left|]. symmetry. unfold clients, start. simpl.
  induction (seq 0 N) as [|t l IH]; [done|]. exact IH.
Qed.

(** When the thread [N] has let everybody in, no thread sleeps, and the gate
    is as new. *)
Lemma all_passed g m :
  crowded g m -> (forall u, task_of (g u) = None) -> g N = (Out, None, Z.of_nat N) ->
  words m !! self = Some Gate.new /\ forall u, ~ sleeps u g m.
Proof using Type.
  intros (l & d & lr & Hs) Hidle HgN. destruct (c_client _ _ _ _ _ _ _ _ _ _ _ _ Hs) as (-> & -> & Hcs & Hsum).
  assert (l = []) as ->.
  { pose proof (pushed_bound _ Hcs) as Hb. unfold clients in Hsum at 1. rewrite HgN in Hsum. simpl in Hsum.
    destruct l; [done|]. simpl in Hsum. lia. }
  split; [apply Hs|]. intros u Hu.
  by destruct (not_elem_of_nil u (sleeping_queued _ _ _ _ _ _ _ _ _ _ _ _ _ Hs Hidle Hu)).
Qed.

(** The threads and the main thread. *)
Definition entrants (t : tid) : program unit :=
  if decide (t < N)%nat then entrant kind t self (A t) (ways t)
  else if decide (t = N) then permits self (Z.of_nat N) else Ret tt.

Lemma entrants_pass m p :
  words m !! self = Some Gate.new -> rtc pool_step (entrants, m) p ->
  (forall t, ~ faulty p t) /\
  ((forall p', ~ pool_step p p') -> (forall t, finished p t tt) /\ words p.2 !! self = Some Gate.new).
Proof using HA Hapart Hsize Hkind.
  intros Hw Hreach. set (Q := fun (t : tid) (_ : unit) (x : ghost_of phase Z) =>
    task_of x = None /\ (t = N -> x = (Out, None, Z.of_nat N))).
  destruct (pool_sound crowded unsure sleeps entrants m start Q p) as (g & HI & HQ & Hsafe & Hwaits & _);
    [|by apply passage_start|done|].
  { intros t n. unfold entrants, Q. destruct (decide (t < N)%nat) as [Ht|Ht].
    - eapply conforms_mono; [by apply conforms_entrant|]. intros [] x ->. split; [done|lia].
    - destruct (decide (t = N)) as [->|]; [|by apply conforms_ret].
      eapply conforms_mono; [apply conforms_permits|]. by intros [] x ->. }
  split; [done|]. intros Hstop. pose proof (pool_stopped p Hstop Hsafe) as Hall.
  assert (forall u, finished p u tt \/ sleeps u g p.2) as Hcase.
  { intros u. destruct (Hall u) as [[[] Hf]|Hb]; [by left|right; by apply Hwaits]. }
  assert (forall u, task_of (g u) = None) as Hidle.
  { intros u. by destruct (Hcase u) as [Hf|(_ & ? & _)]; [apply (HQ u tt)|]. }
  assert (g N = (Out, None, Z.of_nat N)) as HgN.
  { destruct (Hcase N) as [Hf|((r & pl & Hph) & _)]; [by apply (HQ N tt)|].
    destruct HI as (l & d & lr & Hs). by rewrite (c_out _ _ _ _ _ _ _ _ _ _ _ _ Hs N) in Hph by lia. }
  destruct (all_passed g p.2 HI Hidle HgN) as [Hw' Hno]. split; [|done].
  intros t. destruct (Hcase t) as [|Hsl]; [done|by destruct (Hno t)].
Qed.

End passage.

(** ** The theorem *)

(** C19. Threads and tasks that wait at a controlled gate with [enter_sync] and
    [enter_async], or through pagers, are let in by a thread that keeps calling [permit] until it
    has counted all of them, in every interleaving and with any spurious
    failures: no access faults, everybody is told [Ok(Controlled)]; and when no
    thread can take a step, all have returned (none sleeps forever, each was
    counted by exactly one [permit]) and the gate is controlled and empty. *)
Theorem gate_admits_everyone kind ways self N A m p :
  wakers_differ N kind -> words m !! self = Some Gate.new -> Z.of_nat N < usize_modulus ->
  (forall t, (t < N)%nat -> wq_ok (A t)) ->
  (forall t u, (t < N)%nat -> (u < N)%nat -> t <> u -> A t + 128 <= A u \/ A u + 128 <= A t) ->
  rtc pool_step (entrants self N A kind ways, m) p ->
  (forall t, ~ faulty p t) /\
  ((forall p', ~ pool_step p p') -> (forall t, finished p t tt) /\ words p.2 !! self = Some Gate.new).
Proof. intros. by eapply entrants_pass. Qed.

(** Two threads and a task, two of them with pagers, and the thread that lets
    them in, their steps interleaved. *)
Definition two_pagers (t : tid) : option nat :=
  match t with O => None | S t => Some t end.

Definition three_entrants : pool mem unit :=
  schedule (concat (replicate 300 (seq 0 4)))
    (entrants 8 3 (fun t => 1024 + 128 * Z.of_nat t) one_task two_pagers,
     mkMem {[8 := Gate.new]} ∅ ∅ ∅ ∅ [false; true; true]).

Lemma gate_admits_everyone_witness :
  (forall t, ~ faulty three_entrants t) /\ (forall t, finished three_entrants t tt) /\
  words three_entrants.2 !! 8 = Some Gate.new.
Proof.
  destruct (gate_admits_everyone one_task two_pagers 8 3 (fun t => 1024 + 128 * Z.of_nat t)
    (mkMem {[8 := Gate.new]} ∅ ∅ ∅ ∅ [false; true; true]) three_entrants)
    as (Hsafe & Hdone); [apply one_task_differs|reflexivity|done| | |apply schedule_reachable|].
  - intros t Ht. unfold wq_ok. assert (t = 0 \/ t = 1 \/ t = 2)%nat as [-> | [-> | ->]] by lia;
      vm_compute; repeat split; discriminate || reflexivity.
  - intros t u Ht Hu Hne. lia.
  - split; [exact Hsafe|]. apply Hdone, all_returned. intros t. exists tt.
    do 4 (destruct t as [|t]; [vm_compute; reflexivity|]). vm_compute. reflexivity.
Defined.
