(* ===== verification/Steering.v ===== *)
(** * A gate, under all interleavings

    Any number of threads call [permit], [reject], [open], [seal] and [reset] on
    a gate, whenever they like, while threads and tasks enter it, again and
    again, with [enter_sync], [enter_async] or a pager, and some of them give up:
    a future or a pager is dropped while it waits, whereupon everybody who
    waits at the gate is let go with the error [SpuriousFailure].  Queues are
    taken and told by several threads at once, one of which may be among those
    it tells.  Everybody is given an answer that somebody gives, and nobody
    waits at a gate that is open or sealed. *)

From S2P Require Import Prelude Prog Word Opcode Memory WaitQueue Geometry Results.
From S2P Require Import Queue Interleaving Concurrent Delivery Areas Private Telling SyncPrimitive Enqueue Crate Release Blocking Scenario GateSpec Crowd Pager Polling Passage.
From S2P Require Gate PagerSpec.

(** ** The clients *)

(** [enter_async] of [Gate.v], its future dropped when it is pending after [k]
    suspensions; [None] is returned then. *)
Definition enter_async_within (self p : Z) (cx : Waker) (k : nat) : program (option (Result Gate.State Gate.Error)) :=
  pager_default p ;;;
  construct Gate p self (Wait 0) false ;;;
  Gate.push_wait_queue_entry self p (Ret tt) ;;;
  result <- poll_within Gate p cx k ;;
  pager_drop p ;;;
  Ret result.

(** A future that is ready in time. *)
Lemma enter_within_ready t n self p cx k m r m' :
  run n t (enter_async_within self p cx k) m = Returns (Some r) m' ->
  run n t (Gate.enter_async self p cx) m = Returns r m'.
Proof.
  unfold enter_async_within, Gate.enter_async, Gate.enter_async_with.
  rewrite !run_bind. destruct (run n t (pager_default p) m) as [[] m1| | |]; [|done..].
  rewrite !run_bind. destruct (run n t (construct _ _ _ _ _) m1) as [[] m2| | |]; [|done..].
  rewrite !run_bind. destruct (run n t (Gate.push_wait_queue_entry _ _ _) m2) as [[] m3| | |]; [|done..].
  rewrite !run_bind. destruct (run n t (poll_within Gate p cx k) m3) as [[y|] m4| | |] eqn:Ew; [| |done..].
  - rewrite (poll_within_ready _ _ _ _ _ _ _ _ _ Ew), !run_bind.
    destruct (run n t (pager_drop p) m4) as [[] m5| | |]; [|done..]. rewrite !run_ret. by intros [= -> ->].
  - rewrite run_bind. destruct (run n t (pager_drop p) m4) as [[] m5| | |]; [|done..]. by rewrite run_ret.
Qed.

(** Entering a gate; [None] means that the client gave up. *)
Definition visit (kind : waiting_mode) (t : tid) (self p : Z) (mn : manner) : program (option (Result Gate.State Gate.Error)) :=
  match mn with
  | Steady => r <- enter kind t self p ;; Ret (Some r)
  | Limited k =>
      match kind t with
      | None => r <- enter kind t self p ;; Ret (Some r)
      | Some cx => enter_async_within self p cx k
      end
  | Paged tries stays =>
      through_pager Gate not_ready kind t p (Gate.register_pager self p (is_thread kind t)) tries stays
  end.

(** What a client does with a gate. *)
Inductive deed : Type :=
| Visit (mn : manner)
| Do (op : gate_op)
| Reset.

(** One deed after the other; the answers to the visits are returned. *)
Fixpoint conduct (kind : waiting_mode) (t : tid) (self p : Z) (ds : list deed) : program (list (option (Result Gate.State Gate.Error))) :=
  match ds with
  | [] => Ret []
  | Visit mn :: ds => r <- visit kind t self p mn ;; rs <- conduct kind t self p ds ;; Ret (r :: rs)
  | Do op :: ds => run_op self op ;;; conduct kind t self p ds
  | Reset :: ds => Gate.reset self ;;; conduct kind t self p ds
  end.

Fixpoint visits (ds : list deed) : list manner :=
  match ds with
  | [] => []
  | Visit mn :: ds => mn :: visits ds
  | _ :: ds => visits ds
  end.

Definition decisive (d : deed) : bool :=
  match d with Do Opening | Do Sealing => true | _ => false end.

(** The answers that somebody may give. *)
Inductive legit (deeds : tid -> list deed) : Result Gate.State Gate.Error -> Prop :=
| legit_call t op : Do op ∈ deeds t -> legit deeds (GateSpec.told_by Gate.Controlled op)
| legit_spurious t mn : Visit mn ∈ deeds t -> gives_up mn = true -> legit deeds (Err Gate.SpuriousFailure).

(** The answer to a visit. *)
Definition answered (deeds : tid -> list deed) (mn : manner) (r : option (Result Gate.State Gate.Error)) : Prop :=
  match r with
  | Some a => legit deeds a
  | None => gives_up mn = true
  end.

Section steering.
  Context (self : Z) (N : nat) (A : tid -> Z) (kind : waiting_mode) (deeds : tid -> list deed).

(** The byte delivers a legitimate answer. *)
Definition delivers (r : Z) : Prop :=
  is_u8 r /\ r <> ERROR_WRONG_MODE /\ legit deeds (PagerSpec.reading Gate r None) /\
  to_result Gate r None = Ret (PagerSpec.reading Gate r None).

Definition answer (_ r : Z) : Prop := delivers r.

Definition described (a : Z) (s : Primitive) : Prop := a = self /\ s = Gate.

(** A state of the gate that somebody may have set. *)
Definition attainable (s : Gate.State) : Prop :=
  match s with
  | Gate.Controlled => True
  | Gate.Sealed => exists t, Do Sealing ∈ deeds t
  | Gate.Open => exists t, Do Opening ∈ deeds t
  end.

(** What is recorded of a thread is whether it has opened or sealed the gate,
    which does not become controlled again. *)
Definition steady (ws : gmap Z Z) (c : tid -> bool) (l : list tid) (d lr : Z) : Prop :=
  lr = 0 /\ exists s, d = Gate.u8_from_State s /\ attainable s /\ (s <> Gate.Controlled -> l = []) /\
  forall u, c u = true -> s <> Gate.Controlled.

Lemma call_delivers t op : Do op ∈ deeds t -> delivers (op_result Gate.Controlled op).
Proof using Type.
  intros Hop. split; [apply into_u8_is_u8|]. split; [apply op_result_told|].
  destruct (op_result_told Gate.Controlled op) as [-> _]. split; [by eapply legit_call|]. by destruct op.
Qed.

Abbreviation spurious := (Gate.into_u8 Gate.Controlled (Some Gate.SpuriousFailure)).

Lemma spurious_delivers t mn : Visit mn ∈ deeds t -> gives_up mn = true -> delivers spurious.
Proof using Type. intros Hv Hg. split; [done|]. split; [done|]. split; [by eapply legit_spurious|done]. Qed.

(** No answer looks like a pager that is not ready. *)
Lemma delivers_ready r : delivers r -> not_ready (PagerSpec.reading Gate r None) = false.
Proof using Type. intros (_ & _ & Ha & _). by destruct Ha as [t [] _|]. Qed.

Lemma answer_u8 r r' : answer r r' -> is_u8 r'.
Proof using Type. by intros [? _]. Qed.

Context (Hkind : wakers_differ N kind).
Context (HA : forall t, (t < N)%nat -> wq_ok (A t)).
Context (Hapart : forall t u, (t < N)%nat -> (u < N)%nat -> t <> u ->
  A t + 128 <= A u \/ A u + 128 <= A t).

Abbreviation crowd := (crowd self N A kind answer described steady).
Abbreviation crowded := (crowded self N A kind answer described steady).
Abbreviation sleeps := (sleeps kind).
Abbreviation conforming := (conforms crowded unsure sleeps).
Abbreviation ghost := (ghost_of phase bool).

(** ** The state word *)

(** A word of the gate that may have been seen. *)
Definition seen (w : Z) : Prop :=
  exists a s, w = word a false (Gate.u8_from_State s) /\ is_addr a /\ attainable s /\ (s <> Gate.Controlled -> a = 0).

Lemma gate_seen g m : crowded g m -> exists w, words m !! self = Some w /\ seen w.
Proof using HA.
  intros (l & d & lr & Hs). destruct (c_client _ _ _ _ _ _ _ _ _ _ _ _ Hs) as (_ & s & -> & Hat & Hl & _).
  eexists. split; [apply Hs|]. exists (first_anchor (A <$> l)), s. split; [done|].
  split; [eapply first_anchor_is_addr, Hs|]. split; [done|]. intros Hne. by rewrite (Hl Hne).
Qed.

Lemma conforms_look_steered n t ph tk c :
  conforming n t (load self) (ph, tk, c) (fun w x => seen w /\ x = (ph, tk, c)).
Proof using HA.
  apply conforms_load. intros g m Hg HI. destruct (gate_seen g m HI) as (w & Hw & Hseen).
  exists w. split; [done|]. apply kept_same; [done|]. by rewrite Hg.
Qed.

(** The queue is taken, by a thread that does not tell anybody yet. *)
Lemma conforms_take_steered n t ph c c' next r (update : Z -> program (option Z)) (after : Gate.State -> Gate.State) (Q : Result Z Z -> ghost -> Prop) :
  (forall s, attainable s -> attainable (after s)) ->
  (forall s, after s = Gate.Controlled -> s = Gate.Controlled /\ (c' = true -> c = true)) ->
  (forall a s n, is_addr a -> attainable s -> (s <> Gate.Controlled -> a = 0) ->
     conforming n t (update (word a false (Gate.u8_from_State s))) (ph, None, c) (fun o x => x = (ph, None, c) /\
       if next s : bool then o = Some (Gate.u8_from_State (after s)) /\ (s = Gate.Controlled -> delivers r)
       else o = None /\ Q (Err (word a false (Gate.u8_from_State s))) (ph, None, c))) ->
  (forall ls s, Forall (fun u => wq_ok (A u)) ls -> (s <> Gate.Controlled -> ls = []) -> next s = true ->
     Q (Ok (word (first_anchor (A <$> ls)) false (Gate.u8_from_State s))) (ph, next_job r ls, c')) ->
  conforming n t (fetch_update self update) (ph, None, c) Q.
Proof using HA.
  intros Hatt Hafter Hup HQ. apply (conforms_fetch_update crowded unsure sleeps n t _ self update seen).
  - by intros g [].
  - intros g m wk. apply crowded_weak.
  - intros g m _ HI. by eapply gate_seen.
  - intros n1 w (a & s & -> & Ha & Hs & Hne). eapply conforms_mono; [by apply Hup|].
    intros o x [-> Ho]. split; [done|]. destruct (next s) eqn:En; destruct Ho as [-> Ho]; [|done].
    intros g m wk Hg (l & d & lr & Hc) Hw.
    destruct (queue_word _ _ _ _ _ _ _ _ _ _ _ _ _ _ Hc Hw Ha (data_low _ (u8_state_data s))) as [Ea <-]. subst a.
    destruct (c_client _ _ _ _ _ _ _ _ _ _ _ _ Hc) as (_ & s' & Es & _ & Hl & Hdec).
    assert (s' = s) as -> by (by destruct s, s').
    exists (ph, next_job r l, c'). split.
    + exists [], (Gate.u8_from_State (after s)), 0. eapply crowd_take; [done|done|apply data_low, u8_state_data|..].
      * intros Hne'. apply Ho. destruct (decide (s = Gate.Controlled)) as [|Hs']; [done|]. by destruct (Hne' (Hl Hs')).
      * split; [done|]. exists (after s). split; [done|]. split; [by apply Hatt|]. split; [done|].
        intros u Hu Ea. destruct (Hafter s Ea) as [Ec Hc']. unfold upd in Hu. case_decide; [|by apply (Hdec u)].
        apply (Hdec t); [|done]. unfold clients. rewrite Hg. auto.
    + apply HQ; [|done..]. apply Forall_forall. intros u Hu%list_elem_of_In. apply HA. by eapply queued_lt.
Qed.

(** ** Letting everybody go *)

Lemma conforms_steered_wake n t ph c c' next err :
  match next with Some s => s <> Gate.Controlled /\ attainable s | None => c' = c end ->
  delivers (Gate.into_u8 (match next with Some s => s | None => Gate.Controlled end) err) ->
  conforming n t (Gate.wake_all self next err) (ph, None, c) (fun res x =>
    exists s k, res = (s, k) /\ (s <> Gate.Controlled -> k = 0) /\ x = (ph, None, c')).
Proof using HA Hapart Hkind.
  intros Hnext Hdel. set (r := Gate.into_u8 _ err) in Hdel.
  conforms_by (fun res x => exists ls s, res = Ok (word (first_anchor (A <$> ls)) false (Gate.u8_from_State s)) /\
    Forall (fun u => wq_ok (A u)) ls /\ (s <> Gate.Controlled -> ls = []) /\ x = (ph, next_job r ls, c')).
  - apply (conforms_take_steered n t ph c c' (fun _ => true) r _ (fun s => match next with Some s => s | None => s end)).
    + intros s Hs. by destruct next as [s'|]; [apply Hnext|].
    + intros s Es. destruct next as [s'|]; [by destruct Hnext|]. by subst.
    + intros a s n1 Ha _ _. apply conforms_ret. split; [done|]. split; [|done].
      rewrite word_land_data by (done || apply u8_state_data). by destruct next.
    + intros ls s Hls Hs _. by exists ls, s.
  - intros n1 res x _ (ls & s & -> & Hls & Hs & ->). cbv beta iota zeta.
    assert (is_addr (first_anchor (A <$> ls))) as Ha.
    { destruct ls as [|h ls]; [apply is_addr_0|]. by apply anchor_addr_is_addr, (Forall_inv Hls). }
    rewrite word_land_data by (done || apply u8_state_data). rewrite State_from_u8.
    set (r' := Gate.into_u8 _ err).
    assert (next_job r ls = next_job r' ls) as ->.
    { destruct (decide (s = Gate.Controlled)) as [->|Hne]; [done|by rewrite (Hs Hne)]. }
    conforms_seq; [apply (conforms_tell_queue self N A kind answer described steady Hkind HA Hapart t ph c' r' n1 ls
      (Gate.u8_from_State s) (fun count => usize_add count 1) 0); [apply into_u8_is_u8|done|apply u8_state_data]|].
    intros n2 y x _ [-> ->]. apply conforms_ret. eexists _, _. split; [done|]. split; [|done].
    intros Hne. by rewrite (Hs Hne).
Qed.

(** A call of one of the methods. *)
Lemma conforms_run_op n t ph c op u :
  Do op ∈ deeds u ->
  conforming n t (run_op self op) (ph, None, c) (fun _ x => x = (ph, None, c || decisive (Do op))).
Proof using HA Hapart Hkind.
  intros Hop. pose proof (call_delivers u op Hop) as Hdel.
  destruct op; unfold run_op, Gate.permit, Gate.reject, Gate.open, Gate.seal; simpl decisive; rewrite ?orb_false_r, ?orb_true_r.
  3,4: conforms_seq; [apply (conforms_steered_wake n t ph c true); [split; [done|by exists u]|done]|];
    intros n1 res x _ (s & k & -> & _ & ->); by apply conforms_ret.
  all: conforms_by (fun (_ : Result Z Gate.State) x => x = (ph, None, c)); [|intros n1 res x _ ->; by apply conforms_ret].
  all: conforms_seq; [by apply (conforms_steered_wake n t ph c c)|]; intros n1 res x _ (s & k & -> & Hk & ->); unfold Gate.if_controlled.
  all: destruct (decide (s = Gate.Controlled)) as [Es|Hs];
    [rewrite bool_decide_eq_true_2 by done; by apply conforms_ret|rewrite bool_decide_eq_false_2 by done].
  all: eapply conforms_then; [apply _|apply conforms_debug_assert; [by rewrite (Hk Hs)|done]|]; intros n2 _; by apply conforms_ret.
Qed.

(** [reset] finds nobody in the queue of a gate that is not controlled. *)
Lemma conforms_steered_reset n t ph c :
  conforming n t (Gate.reset self) (ph, None, c) (fun _ x => x = (ph, None, c)).
Proof using HA.
  conforms_by (fun (res : Result Z Z) x => x = (ph, None, c)); [|intros n1 [w|w] x _ ->; by apply conforms_ret].
  apply (conforms_take_steered n t ph c c (fun s => negb (bool_decide (s = Gate.Controlled))) 0 _ id); [done|done| |].
  - intros a s n1 Ha _ Hne. unfold Gate.reset_update. rewrite word_land_data, State_from_u8 by (done || apply u8_state_data).
    destruct (decide (s = Gate.Controlled)) as [->|Hs]; [by apply conforms_ret|].
    rewrite bool_decide_eq_false_2 by done. rewrite (Hne Hs). simpl negb. cbv iota.
    eapply conforms_then; [apply _|apply conforms_debug_assert; by destruct s|]. intros n2 _.
    apply conforms_ret. split; [done|]. split; [by destruct s|done].
  - intros ls s _ Hs Hn. rewrite Hs; [done|]. intros ->. by rewrite bool_decide_eq_true_2 in Hn.
Qed.

(** ** Entering *)

Context (Hsome : exists a, legit deeds a).

Lemma somebody_delivers : exists r, delivers r.
Proof using Hsome. destruct Hsome as [a [t op Hop|t mn Hv Hg]]; eexists; [by eapply call_delivers|by eapply spurious_delivers]. Qed.

Abbreviation fresh := (fresh kind described).
Abbreviation waits c ow := (Waiting 0 true ow, None, c).
Abbreviation told c r := (Waiting r true (Taken true), None, c).

Section visitor.
  Context (t : tid) (Ht : (t < N)%nat) (c : bool).

Lemma conforms_steered_push n en :
  fresh t en ->
  conforming n t (Gate.push_wait_queue_entry self (A t) (Ret tt)) (Built en, None, c) (fun _ x => x = waits c Ready).
Proof using HA Hapart Hkind Hsome Ht.
  intros Hen. conforms_iter (fun _ x => exists en, fresh t en /\ x = (Built en, None, c)); [|by intros ????????|by exists en].
  clear en Hen. intros n1 [] x _ (en & Hen & ->). conforms_seq; [apply conforms_look_steered|].
  intros n2 w x _ ((a & s & -> & Ha & Hat & _) & ->). rewrite word_land_data, State_from_u8 by (done || apply u8_state_data).
  assert (forall op u, Do op ∈ deeds u ->
    conforming n2 t (e <- entry (A t) ;; set_result e (op_result Gate.Controlled op) ;;; Ret (inr tt)) (Built en, None, c)
      (fun (r : unit + unit) x => match r with inl _ => exists en, fresh t en /\ x = (Built en, None, c) | inr _ => x = waits c Ready end)) as Hanswer.
  { intros op u Hu. conforms_seq; [by apply conforms_crowd_entry|]. intros n3 e x _ [-> ->].
    conforms_seq; [apply (conforms_tell_oneself self N A kind answer described steady Hkind HA Hapart answer_u8 n3 t en
      (op_result Gate.Controlled op) 0 c c); [done|done|by eapply call_delivers|]|].
    { intros ws cs l d lr Hcs _ HP. by rewrite <- Hcs, upd_id. }
    intros n4 [] x _ ->. by apply conforms_ret. }
  destruct s; [|destruct Hat as [u Hu]; apply (Hanswer _ _ Hu)..].
  conforms_seq; [apply (conforms_crowd_try_push self N A kind answer described steady Hkind HA Hapart n2 t c c en a 0 (fun r => r = 0)); try done|].
  { intros ws cs l lr Hcs _ (-> & s & Es & Hs & _ & Hdec). split; [done|]. assert (s = Gate.Controlled) as -> by (by destruct s).
    split; [by apply somebody_delivers|]. split; [done|]. exists Gate.Controlled. split; [done|]. split; [done|]. split; [done|]. by rewrite <- Hcs, upd_id. }
  intros n3 [|] x _ Hx; cbv beta iota in Hx.
  - destruct Hx as (r & -> & ->). eapply conforms_then; [apply _|by apply conforms_ret|]. intros n4 _. by apply conforms_ret.
  - by apply conforms_ret.
Qed.

Lemma conforms_steered_construct n :
  conforming n t (construct Gate (A t) self (Wait 0) (is_thread kind t)) (Anchored, None, c)
    (fun _ x => exists en, fresh t en /\ x = (Built en, None, c)).
Proof using HA Hapart Hkind Ht. by apply conforms_construct_fresh. Qed.

Lemma conforms_steered_register n :
  conforming n t (Gate.register_pager self (A t) (is_thread kind t)) (Anchored, None, c)
    (fun b x => b = true /\ x = waits c Ready).
Proof using HA Hapart Hkind Hsome Ht.
  conforms_seq; [by apply (conforms_crowd_unregistered self N A kind answer described steady Hkind HA Hapart)|].
  intros n1 b x _ [-> ->]. cbn iota.
  conforms_seq; [apply conforms_steered_construct|]. intros n2 [] x _ (en & Hen & ->).
  conforms_seq; [by apply conforms_steered_push|]. intros n3 [] x _ ->. by apply conforms_ret.
Qed.

(** ** Waiting *)

(** The result of a visit, and what is known of it then. *)
Definition got (y : Result Gate.State Gate.Error) (x : ghost) : Prop :=
  exists v, delivers v /\ y = PagerSpec.reading Gate v None /\ x = told c v.

Lemma conforms_got n v : delivers v -> conforming n t (to_result Gate v None) (told c v) got.
Proof using Type. intros Hv. pose proof Hv as (_ & _ & _ & ->). apply conforms_ret. by exists v. Qed.

Lemma conforms_steered_poll n : conforming n t (poll_by Gate kind t (A t)) (waits c Ready) got.
Proof using HA Hapart Hkind Ht.
  apply (conforms_crowd_poll self N A kind answer described steady Hkind HA Hapart answer_u8 t Ht c 0 n Gate);
    [by intros v (_ & ? & _)|intros n1 v Hv; by apply conforms_got].
Qed.

Lemma conforms_steered_try_poll n :
  conforming n t (try_poll Gate (A t)) (waits c Ready) (fun y x => got y x \/ not_ready y = true /\ x = waits c Ready).
Proof using HA Hapart Hkind Ht.
  eapply conforms_mono.
  - apply (conforms_crowd_try_poll self N A kind answer described steady Hkind HA Hapart answer_u8 t Ht c 0 n Gate
      got (fun y x => y = Err Gate.NotReady /\ x = waits c Ready));
      [intros n1 v Hv; by apply conforms_got|intros n1; by apply conforms_ret].
  - intros y x [Hy|[-> ->]]; [by left|by right].
Qed.

Lemma conforms_steered_retire n v :
  delivers v -> conforming n t (pager_drop (A t)) (told c v) (fun _ x => x = (Out, None, c)).
Proof using HA Hapart Hkind Ht. intros Hv. by apply (conforms_crowd_drop self N A kind answer described steady Hkind HA Hapart t Ht c v n 0). Qed.

(** ** Giving up *)

(** The gate's callback lets everybody go, among them the thread itself, unless
    somebody else has taken its entry. *)
Lemma conforms_withdraw n :
  delivers spurious ->
  conforming n t (Gate.Gate_drop_wait_queue_entry (wq_entry (A t))) (waits c Ready)
    (fun _ x => exists y, answer 0 y /\ x = told c y).
Proof using HA Hapart Hkind Ht.
  intros Hsp. set (mine := fun v ow => ((Waiting (if knows ow then v else 0) true ow, None, c) : ghost)).
  assert (OwnerView crowded unsure sleeps (A t) (monitor_of kind t) (answer 0) t mine (fun _ => (Out, None, c))) as Hown
    by exact (crowd_owner self N A kind answer described steady Hkind HA Hapart t 0 true c).
  conforms_seq; [by apply (conforms_try_consume crowded unsure sleeps (A t) (monitor_of kind t) (answer 0) (answer_u8 0) t mine (fun _ => (Out, None, c)) 0)|].
  intros n1 [v|] x _ Hx; [destruct Hx as [Hv ->]; apply conforms_ret; by exists v|]. subst x.
  conforms_seq; [by apply (conforms_crowd_field self N A kind answer described steady t c 0 n1 e_addr self); intros en [-> _]|].
  intros n2 b x _ [-> ->]. conforms_seq; [by apply (conforms_steered_wake n2 t (Waiting 0 true Ready) c c)|].
  intros n3 res x _ (s & k & _ & _ & ->).
  conforms_seq; [by apply (conforms_acknowledge crowded unsure sleeps (A t) (monitor_of kind t) (answer 0) (answer_u8 0) t mine (fun _ => (Out, None, c)) 0)|].
  intros n4 y x _ [Hy ->]. apply conforms_ret. by exists y.
Qed.

Lemma conforms_steered_give_up n ow :
  ow = Ready \/ ow = Asleep -> delivers spurious ->
  conforming n t (pager_drop (A t)) (waits c ow) (fun _ x => x = (Out, None, c)).
Proof using HA Hapart Hkind Ht.
  intros How Hsp. apply (conforms_crowd_give_up self N A kind answer described steady Hkind HA Hapart t Ht c 0 n Gate ow How);
    [by intros a s [_ ->]|]. intros n1. by apply conforms_withdraw.
Qed.

(** ** Visits *)

Lemma conforms_entering n {R} (poll : program R) (Q : R -> ghost -> Prop) (done : R -> Prop) :
  (forall n, conforming n t poll (waits c Ready) Q) ->
  (forall n r x, Q r x -> conforming n t (pager_drop (A t)) x (fun _ x => done r /\ x = (Out, None, c))) ->
  conforming n t
    (pager_default (A t) ;;;
     construct Gate (A t) self (Wait 0) (is_thread kind t) ;;;
     Gate.push_wait_queue_entry self (A t) (Ret tt) ;;;
     result <- poll ;;
     pager_drop (A t) ;;;
     Ret result) (Out, None, c) (fun r x => done r /\ x = (Out, None, c)).
Proof using HA Hapart Hkind Hsome Ht.
  intros Hpoll Hdrop. conforms_seq; [by apply conforms_crowd_default|]. intros n1 [] x _ ->.
  conforms_seq; [apply conforms_steered_construct|]. intros n2 [] x _ (en & Hen & ->).
  conforms_seq; [by apply conforms_steered_push|]. intros n3 [] x _ ->.
  conforms_seq; [apply Hpoll|]. intros n4 r x _ Hx. conforms_seq; [by apply Hdrop|].
  intros n5 [] x' _ [Hr ->]. by apply conforms_ret.
Qed.

Lemma conforms_got_leave n y x :
  got y x -> conforming n t (pager_drop (A t)) x (fun _ x => legit deeds y /\ x = (Out, None, c)).
Proof using HA Hapart Hkind Ht.
  intros (v & Hv & -> & ->). eapply conforms_mono; [by apply conforms_steered_retire|]. intros [] x ->. split; [apply Hv|done].
Qed.

Lemma conforms_steered_enter n :
  conforming n t (enter kind t self (A t)) (Out, None, c) (fun r x => legit deeds r /\ x = (Out, None, c)).
Proof using HA Hapart Hkind Hsome Ht.
  rewrite enter_is. apply (conforms_entering n _ got); [by apply conforms_steered_poll|intros n1 y x; apply conforms_got_leave].
Qed.

Lemma conforms_enter_within n cx k :
  kind t = Some cx -> delivers spurious ->
  conforming n t (enter_async_within self (A t) cx k) (Out, None, c) (fun r x =>
    match r with Some a => legit deeds a | None => True end /\ x = (Out, None, c)).
Proof using HA Hapart Hkind Hsome Ht.
  intros Ek Hsp. unfold enter_async_within. assert (is_thread kind t = false) as <- by (unfold is_thread; by rewrite Ek).
  apply (conforms_entering n _ (fun r x => match r with Some y => got y x | None => x = waits c Asleep end)).
  - intros n1. apply (conforms_crowd_poll_within self N A kind answer described steady Hkind HA Hapart answer_u8 t Ht c 0 n1 Gate got cx k Ek);
      [by intros v (_ & ? & _)|intros n2 v Hv; by apply conforms_got].
  - intros n1 [y|] x Hx; [by apply conforms_got_leave|]. subst x.
    eapply conforms_mono; [by apply conforms_steered_give_up; [right|]|done].
Qed.

Lemma conforms_visit n mn :
  Visit mn ∈ deeds t ->
  conforming n t (visit kind t self (A t) mn) (Out, None, c) (fun r x => answered deeds mn r /\ x = (Out, None, c)).
Proof using HA Hapart Hkind Hsome Ht.
  intros Hv. assert (conforming n t (r <- enter kind t self (A t) ;; Ret (Some r)) (Out, None, c)
    (fun r x => answered deeds mn r /\ x = (Out, None, c))) as Hplain.
  { conforms_seq; [apply conforms_steered_enter|]. intros n1 r x _ [Hr ->]. by apply conforms_ret. }
  destruct mn as [|k|tries stays]; simpl; [done|..].
  - destruct (kind t) as [cx|] eqn:Ek; [|done].
    eapply conforms_mono; [apply (conforms_enter_within n cx k Ek); by eapply spurious_delivers|].
    by intros [r|] x [Hr ->].
  - eapply conforms_mono.
    + apply (conforms_through_pager crowded sleeps Gate not_ready kind t (A t) (fun x => x = waits c Ready) got)
        with (allocated := (Anchored, None, c)) (retired := fun y x => legit deeds y /\ x = (Out, None, c)) (gone := (Out, None, c)).
      * intros y x (v & Hd & -> & _). by apply delivers_ready.
      * intros n1 x ->. apply conforms_steered_try_poll.
      * intros n1 x ->. apply conforms_steered_poll.
      * intros n1. by apply conforms_crowd_default.
      * intros n1. by apply conforms_steered_register.
      * intros y x n1. apply conforms_got_leave.
      * intros n1 x -> ->. apply conforms_steered_give_up; [by left|]. by eapply spurious_delivers.
    + intros [r|] x; [by intros [Hr ->]|]. intros [-> ->]. done.
Qed.

End visitor.

(** All that a thread does. *)
Lemma conforms_conduct n t c ds :
  ((N <= t)%nat -> visits ds = []) -> (forall d, d ∈ ds -> d ∈ deeds t) ->
  conforming n t (conduct kind t self (A t) ds) (Out, None, c) (fun rs x =>
    Forall2 (answered deeds) (visits ds) rs /\ x = (Out, None, c || existsb decisive ds)).
Proof using HA Hapart Hkind Hsome.
  revert n c. induction ds as [|[mn|op|] ds IH]; intros n c Hv Hds; cbn [conduct visits existsb].
  - rewrite orb_false_r. by apply conforms_ret.
  - assert (t < N)%nat as Ht by (destruct (decide (t < N)%nat) as [|Hge]; [done|discriminate (Hv ltac:(lia))]).
    conforms_seq; [apply (conforms_visit t Ht c n mn), Hds; by left|]. intros n1 r x _ [Hr ->].
    conforms_seq; [apply IH; [lia|intros d Hd; apply Hds; by right]|]. intros n2 rs x _ [Hrs ->].
    apply conforms_ret. by split; [constructor|].
  - conforms_seq; [apply (conforms_run_op n t Out c op t), Hds; by left|]. intros n1 [] x _ ->.
    rewrite orb_assoc. apply IH; [done|]. intros d Hd. apply Hds. by right.
  - conforms_seq; [apply (conforms_steered_reset n t Out c)|]. intros n1 res x _ ->.
    apply IH; [done|]. intros d Hd. apply Hds. by right.
Qed.

(** ** The pool *)

Definition beginning : tid -> ghost := fun _ => (Out, None, false).

Lemma steering_begins m : words m !! self = Some Gate.new -> crowded beginning m.
Proof using Type.
  intros Hw. exists [], 0, 0. apply crowd_start; try done.
  split; [done|]. exists Gate.Controlled. by repeat (split; [done|]).
Qed.

Definition steering_pool (t : tid) : program (list (option (Result Gate.State Gate.Error))) :=
  conduct kind t self (A t) (deeds t).

Lemma gate_clients_conform m p :
  words m !! self = Some Gate.new -> (forall t, (N <= t)%nat -> visits (deeds t) = []) ->
  rtc pool_step (steering_pool, m) p ->
  (forall t, ~ faulty p t) /\
  (forall t rs, finished p t rs -> Forall2 (answered deeds) (visits (deeds t)) rs) /\
  ((forall p', ~ pool_step p p') -> exists s l,
    words p.2 !! self = Some (word (first_anchor (A <$> l)) false (Gate.u8_from_State s)) /\
    attainable s /\ (s <> Gate.Controlled -> l = []) /\
    (forall t, (exists rs, finished p t rs) \/ t ∈ l) /\
    (forall t d, (N <= t)%nat -> d ∈ deeds t -> decisive d = true -> s <> Gate.Controlled)).
Proof using HA Hapart Hkind Hsome.
  intros Hw Hout Hreach. set (Q := fun (t : tid) rs (x : ghost) =>
    Forall2 (answered deeds) (visits (deeds t)) rs /\ x = (Out, None, existsb decisive (deeds t))).
  destruct (pool_sound crowded unsure sleeps steering_pool m beginning Q p) as (g & HI & HQ & Hsafe & Hwaits & _);
    [|by apply steering_begins|done|].
  { intros t n. apply conforms_conduct; [apply Hout|done]. }
  split; [done|]. split; [intros t rs Hf; by apply (HQ t rs Hf)|].
  intros Hstop. pose proof (pool_stopped p Hstop Hsafe) as Hall.
  assert (forall u, (exists rs, finished p u rs) \/ sleeps u g p.2) as Hcase.
  { intros u. destruct (Hall u) as [Hf|Hb]; [by left|right; by apply Hwaits]. }
  assert (forall u, task_of (g u) = None) as Hidle.
  { intros u. destruct (Hcase u) as [[rs Hf]|(_ & ? & _)]; [|done]. by destruct (HQ u rs Hf) as [_ ->]. }
  destruct HI as (l & d & lr & Hs). destruct (c_client _ _ _ _ _ _ _ _ _ _ _ _ Hs) as (_ & s & -> & Hat & Hl & Hdec).
  exists s, l. split; [apply Hs|]. split; [done|]. split; [done|]. split.
  - intros t. destruct (Hcase t) as [|Hsl]; [by left|right; by eapply sleeping_queued].
  - intros t d Ht Hd Hdd. apply (Hdec t). destruct (Hcase t) as [[rs Hf]|((r & pl & Hph) & _)].
    + destruct (HQ t rs Hf) as [_ Hg]. unfold clients. rewrite Hg. apply existsb_exists. exists d.
      split; [by apply list_elem_of_In|done].
    + by rewrite (c_out _ _ _ _ _ _ _ _ _ _ _ _ Hs t Ht) in Hph.
Qed.

End steering.

(** ** The theorem *)

(** C20. Threads and tasks enter a new gate as often as they like, with
    [enter_sync], [enter_async] or pagers, and may give up, dropping their
    future or pager, while any threads make any calls of [permit], [reject],
    [open], [seal] and [reset] (of which, or of the visits given up, there is
    at least one that gives an answer).  In every interleaving and with any
    spurious failures: no access faults; every visit that is not given up
    returns what one of the calls made tells, or the error [SpuriousFailure] if
    some client may give up; and when no thread can take a step, whoever has
    not returned is queued at the gate, the gate is controlled, or open or
    sealed and then somebody was to open or seal it and nobody is queued, and
    if nobody calls [reset] and a thread that does not enter the gate itself was
    to open or seal it, it is not controlled.  (Nothing is claimed of the
    final state of a gate that is reset: [reset] leaves the gate as it is,
    although its documentation says that it becomes controlled, see
    [Defects].) *)
Theorem gate_answers_everyone kind deeds self N A m p :
  wakers_differ N kind -> words m !! self = Some Gate.new -> (exists a, legit deeds a) ->
  (forall t, (N <= t)%nat -> visits (deeds t) = []) -> (forall t, (t < N)%nat -> wq_ok (A t)) ->
  (forall t u, (t < N)%nat -> (u < N)%nat -> t <> u -> A t + 128 <= A u \/ A u + 128 <= A t) ->
  rtc pool_step (steering_pool self A kind deeds, m) p ->
  (forall t, ~ faulty p t) /\
  (forall t rs, finished p t rs -> Forall2 (answered deeds) (visits (deeds t)) rs) /\
  ((forall p', ~ pool_step p p') -> exists s l,
    words p.2 !! self = Some (word (first_anchor (A <$> l)) false (Gate.u8_from_State s)) /\
    attainable deeds s /\ (s <> Gate.Controlled -> l = []) /\
    (forall t, (exists rs, finished p t rs) \/ t ∈ l) /\
    ((forall t, Reset ∉ deeds t) -> forall t d, (N <= t)%nat -> d ∈ deeds t -> decisive d = true ->
       s <> Gate.Controlled)).
Proof.
  intros Hkind Hw Hsome Hout HA Hapart Hreach.
  destruct (gate_clients_conform self N A kind deeds Hkind HA Hapart Hsome m p Hw Hout Hreach)
    as (Hsafe & Hans & Hdone).
  split; [done|]. split; [done|]. intros Hstop.
  destruct (Hdone Hstop) as (s & l & Hs & Hat & Hl & Hall & Hdec). exists s, l.
  repeat (split; [done|]). intros _ t d. apply Hdec.
Qed.

(** Two threads and a task, which visit the gate, one of them giving up a
    pager, the task a future, and permit others in, and two threads that reject,
    seal, open and, if [resets], reset it, their steps interleaved. *)
Definition five_clients (resets : bool) (t : tid) : list deed :=
  match t with
  | 0%nat => [Visit Steady; Visit (Paged 1 false); Visit Steady]
  | 1%nat => [Do Permitting; Visit (Limited 0); Visit Steady]
  | 2%nat => [Visit (Paged 2 true); Do Rejecting; Visit Steady]
  | 3%nat => [Do Rejecting; Do Sealing] ++ (if resets then [Reset] else [])
  | 4%nat => (if resets then [Reset] else []) ++ [Do Permitting; Do Opening]
  | _ => []
  end.

Definition five_steering (resets : bool) : pool mem (list (option (Result Gate.State Gate.Error))) :=
  schedule (concat (replicate 100 [0; 1; 2]%nat ++ replicate 600 (seq 0 5)))
    (steering_pool 8 (fun t => 1024 + 128 * Z.of_nat t) one_task (five_clients resets),
     mkMem {[8 := Gate.new]} ∅ ∅ ∅ ∅ [false; true; true]).

Lemma five_never_reset t : Reset ∉ five_clients false t.
Proof. do 5 (destruct t as [|t]; [set_solver|]). set_solver. Qed.

Lemma gate_answers_everyone_witness :
  (forall t, ~ faulty (five_steering true) t) /\
  (forall t, exists rs, finished (five_steering true) t rs) /\
  finished (five_steering true) 1%nat [None; Some (Ok Gate.Open)] /\
  finished (five_steering true) 2%nat [Some (Err Gate.SpuriousFailure); Some (Ok Gate.Open)] /\
  Forall2 (answered (five_clients true)) [Paged 2 true; Steady] [Some (Err Gate.SpuriousFailure); Some (Ok Gate.Open)] /\
  exists s, attainable (five_clients false) s /\ s <> Gate.Controlled /\
    words (five_steering false).2 !! 8 = Some (word 0 false (Gate.u8_from_State s)).
Proof.
  assert (forall resets, (forall t, exists rs, finished (five_steering resets) t rs)) as Hall.
  { intros [] t; (do 5 (destruct t as [|t]; [eexists; vm_compute; reflexivity|])); eexists; vm_compute; reflexivity. }
  assert (finished (five_steering true) 2%nat [Some (Err Gate.SpuriousFailure); Some (Ok Gate.Open)]) as Htwo
    by (vm_compute; reflexivity).
  assert (forall resets,
    (exists a, legit (five_clients resets) a) /\ (forall t, (3 <= t)%nat -> visits (five_clients resets t) = []) /\
    (forall t, (t < 3)%nat -> wq_ok (1024 + 128 * Z.of_nat t)) /\
    (forall t u, (t < 3)%nat -> (u < 3)%nat -> t <> u ->
       1024 + 128 * Z.of_nat t + 128 <= 1024 + 128 * Z.of_nat u \/
       1024 + 128 * Z.of_nat u + 128 <= 1024 + 128 * Z.of_nat t)) as Hyps.
  { intros resets. split; [|split; [|split]].
    - eexists. apply (legit_call (five_clients resets) 1%nat Permitting). left.
    - intros t Ht. do 5 (destruct t as [|t]; [try lia; by destruct resets|]). reflexivity.
    - intros t Ht. unfold wq_ok. assert (t = 0 \/ t = 1 \/ t = 2)%nat as [-> | [-> | ->]] by lia;
        vm_compute; repeat split; discriminate || reflexivity.
    - intros t u Ht Hu Hne. lia. }
  destruct (Hyps true) as (H1 & H2 & H3 & H4), (Hyps false) as (K1 & K2 & K3 & K4).
  destruct (gate_answers_everyone one_task (five_clients true) 8 3 (fun t => 1024 + 128 * Z.of_nat t)
    (mkMem {[8 := Gate.new]} ∅ ∅ ∅ ∅ [false; true; true]) (five_steering true))
    as (Hsafe & Hanswers & _);
    [apply one_task_differs|reflexivity|exact H1|exact H2|exact H3|exact H4|unfold five_steering; apply schedule_reachable|].
  destruct (gate_answers_everyone one_task (five_clients false) 8 3 (fun t => 1024 + 128 * Z.of_nat t)
    (mkMem {[8 := Gate.new]} ∅ ∅ ∅ ∅ [false; true; true]) (five_steering false))
    as (_ & _ & Hdone);
    [apply one_task_differs|reflexivity|exact K1|exact K2|exact K3|exact K4|unfold five_steering; apply schedule_reachable|].
  split; [exact Hsafe|]. split; [apply Hall|]. split; [vm_compute; reflexivity|]. split; [exact Htwo|].
  split; [exact (Hanswers _ _ Htwo)|].
  destruct (Hdone (all_returned _ (Hall false))) as (s & l & Hw & Hat & Hl & _ & Hdec). exists s.
  assert (s <> Gate.Controlled) as Hs.
  { apply (Hdec five_never_reset 4%nat (Do Opening));
      [lia|right; left|reflexivity]. }
  split; [exact Hat|]. split; [exact Hs|]. by rewrite (Hl Hs) in Hw.
Defined.
