(* ===== verification/Poisoning.v ===== *)
(** * A lock whose owners panic, under all interleavings

    Threads and tasks take a lock exclusively, with [try_lock], [lock_sync],
    [lock_async] or a pager, increment a counter that the lock protects, and
    then poison the lock instead of releasing it, as the unwinding of a panic
    does; some of them clear the poison, at any time, and some only wait until
    they could take the lock, with pagers in a waiting mode.  Whoever waits is told
    that the lock is poisoned; nobody gets stuck, no increment is lost, and a
    lock that nobody clears is taken once at most.  The queue is taken as a whole
    by whoever poisons the lock: an instance of the invariant of [Crowd.v]. *)

From S2P Require Import Prelude Prog Word Opcode Memory WaitQueue Geometry Results.
From S2P Require Import Queue Interleaving Concurrent Delivery Areas Private Telling SyncPrimitive Enqueue Crate Release Crowd Pager Polling.
From S2P Require Lock Locking.

(** ** The clients *)

(** What a client does: it waits for the lock, through a pager if it is said how
    often it polls it before it waits for it; it waits until the lock could be
    taken, with a pager in a waiting mode; it tries to take the lock; or it clears
    the poison. *)
Inductive deed : Type :=
| Enter (way : option nat)
| Watch (shared : bool) (tries : nat)
| Try
| Clear.

(** Takes the lock, if it can. *)
Definition attempt (kind : waiting_mode) (t : tid) (lk wq : Z) (d : deed) : program bool :=
  match d with
  | Enter None => Locking.acquire kind t lk wq
  | Enter (Some tries) =>
      result <- through_pager Lock Locking.not_ready kind t wq
        (Lock.register_pager lk wq Lock.MExclusive (is_thread kind t)) tries true ;;
      Ret (match result with Some r => Locking.granted r | None => false end)
  | Watch shared tries =>
      through_pager Lock Locking.not_ready kind t wq
        (Lock.register_pager lk wq (if shared then Lock.WaitShared else Lock.WaitExclusive) (is_thread kind t)) tries true ;;;
      Ret false
  | Try => Lock.try_lock lk
  | Clear => Lock.clear_poison lk ;;; Ret false
  end.

(** Whoever has taken the lock increments the counter at [cell] and panics;
    returns how often it did. *)
Fixpoint owner (kind : waiting_mode) (t : tid) (lk cell wq : Z) (ds : list deed) (made : Z) : program Z :=
  match ds with
  | [] => Ret made
  | d :: ds =>
      taken <- attempt kind t lk wq d ;;
      if (taken : bool)
      then
        x <- load cell ;;
        swap cell (x + 1) ;;;
        poisoned <- Lock.poison_lock lk ;;
        debug_assert poisoned ;;;
        owner kind t lk cell wq ds (made + 1)
      else owner kind t lk cell wq ds made
  end.

(** ** Ghost state *)

(** Whether a thread owns the lock: not; it does and has yet to read the
    counter; it has seen a value; it has written the counter. *)
Inductive turn : Type :=
| Resting
| Entered
| Looked (v : Z)
| Leaving.

(** Its turn, and how often it has incremented the counter. *)
Definition record : Type := turn * Z.

Definition owns (c : record) : Prop := c.1 <> Resting.

Section poisoning.
  Context (lk cell : Z) (N : nat) (A : tid -> Z) (kind : waiting_mode) (deeds : tid -> list deed).

Abbreviation ghost := (ghost_of phase record).
Definition sum (cs : tid -> record) : Z := total snd (seq 0 N) cs.

(** Nobody clears the poison. *)
Definition spoilt : Prop := forall t, Clear ∉ deeds t.

(** The word is locked, free or poisoned, without anybody waiting unless it is
    locked. *)
Definition phased (cs : tid -> record) (l : list tid) (d : Z) : Prop :=
  d = DATA_MASK /\ (exists u, owns (cs u)) \/
  (d = 0 \/ d = Lock.POISONED_STATE) /\ l = [] /\ forall u, ~ owns (cs u).

(** A lock that nobody clears is taken once at most. *)
Definition once (cs : tid -> record) (d : Z) : Prop :=
  (d = 0 -> sum cs = 0) /\ (d = Lock.POISONED_STATE -> sum cs = 1) /\
  forall u, match (cs u).1 with Resting => True | Entered | Looked _ => sum cs = 0 | Leaving => sum cs = 1 end.

Record panicking (ws : gmap Z Z) (cs : tid -> record) (l : list tid) (d lr : Z) : Prop := {
  p_result : lr = Lock.POISONED;
  p_cell : ws !! cell = Some (sum cs);
  p_seen u v : (cs u).1 = Looked v -> v = sum cs;
  p_queued u : u ∈ l -> (cs u).1 = Resting;
  p_unique u v : owns (cs u) -> owns (cs v) -> u = v;
  p_phased : phased cs l d;
  p_once : spoilt -> once cs d;
}.

Lemma sum_upd cs t x : (t < N)%nat -> sum (upd cs t x) = sum cs - (cs t).2 + x.2.
Proof using Type. intros. apply total_upd; [apply NoDup_seq|apply elem_of_seq; lia]. Qed.

Lemma phased_locked cs l d u : owns (cs u) -> phased cs l d -> d = DATA_MASK.
Proof using Type. intros Hu [[-> _]|(_ & _ & Hno)]; [done|by destruct (Hno u)]. Qed.

(** ** Steps of the clients *)

Context (Hcell : cell <> lk).

(** A thread takes the free lock. *)
Lemma panicking_enter ws cs l lr t k :
  (t < N)%nat -> cs t = (Resting, k) -> panicking ws cs l 0 lr ->
  l = [] /\ panicking ws (upd cs t (Entered, k)) [] DATA_MASK lr.
Proof using Type.
  intros Ht Hc [H1 H2 H3 H4 H5 [[? _]|(_ & -> & Hno)] H7]; [done|]. split; [done|].
  assert (sum (upd cs t (Entered, k)) = sum cs) as Es by (rewrite sum_upd, Hc by done; simpl; lia).
  split; rewrite ?Es; try done.
  - intros u v. unfold upd. case_decide; [done|apply H3].
  - by intros u ?%not_elem_of_nil.
  - intros u v. unfold upd. repeat case_decide; subst; try done; intros Hu Hv; exfalso; by eapply Hno.
  - left. split; [done|]. exists t. by rewrite upd_eq.
  - intros Hsp. destruct (H7 Hsp) as (H0 & _ & _). unfold once. rewrite Es, (H0 eq_refl). split; [done|]. split; [done|].
    intros u. unfold upd. case_decide; [done|].
    destruct (cs u).1 eqn:E; try done. destruct (Hno u). unfold owns. by rewrite E.
Qed.

(** The owner reads the counter. *)
Lemma panicking_look ws cs l d lr t k :
  (t < N)%nat -> cs t = (Entered, k) -> panicking ws cs l d lr ->
  ws !! cell = Some (sum cs) /\ panicking ws (upd cs t (Looked (sum cs), k)) l d lr.
Proof using Type.
  intros Ht Hc [H1 H2 H3 H4 H5 H6 H7]. split; [done|].
  assert (sum (upd cs t (Looked (sum cs), k)) = sum cs) as Es by (rewrite sum_upd, Hc by done; simpl; lia).
  assert (owns (cs t)) as Hown by (by rewrite Hc).
  assert (forall u, owns (upd cs t (Looked (sum cs), k) u) -> owns (cs u)) as Hback.
  { intros u. unfold upd. case_decide; [by subst|done]. }
  split; rewrite ?Es; try done.
  - intros u v. unfold upd. case_decide; [by intros [= ->]|apply H3].
  - intros u Hu. pose proof (H4 u Hu) as E. rewrite upd_ne; [done|]. intros ->. by rewrite Hc in E.
  - intros u v Hu%Hback Hv%Hback. auto.
  - left. split; [by eapply phased_locked|]. exists t. by rewrite upd_eq.
  - intros Hsp. destruct (H7 Hsp) as (H0 & H1' & Hall). unfold once. rewrite Es. split; [done|]. split; [done|].
    intros u. pose proof (Hall t) as E. rewrite Hc in E. unfold upd. case_decide; [done|apply Hall].
Qed.

(** It writes it. *)
Lemma panicking_write ws cs l d lr t v k :
  (t < N)%nat -> cs t = (Looked v, k) -> panicking ws cs l d lr ->
  is_Some (ws !! cell) /\ panicking (<[cell := v + 1]> ws) (upd cs t (Leaving, k + 1)) l d lr.
Proof using Type.
  intros Ht Hc [H1 H2 H3 H4 H5 H6 H7]. split; [by eexists|].
  assert (sum (upd cs t (Leaving, k + 1)) = sum cs + 1) as Es by (rewrite sum_upd, Hc by done; simpl; lia).
  assert (v = sum cs) as -> by (apply (H3 t); by rewrite Hc).
  assert (owns (cs t)) as Hown by (by rewrite Hc).
  assert (forall u, owns (upd cs t (Leaving, k + 1) u) -> owns (cs u)) as Hback.
  { intros u. unfold upd. case_decide; [by subst|done]. }
  assert (forall u, u <> t -> ~ owns (cs u)) as Hno by (intros u Hu Ho; destruct Hu; auto).
  split; rewrite ?Es; try done.
  - by rewrite lookup_insert_eq.
  - intros u v. unfold upd. case_decide; [done|]. intros E. destruct (Hno u); [done|]. unfold owns. by rewrite E.
  - intros u Hu. pose proof (H4 u Hu) as E. rewrite upd_ne; [done|]. intros ->. by rewrite Hc in E.
  - intros u w Hu%Hback Hw%Hback. auto.
  - left. split; [by eapply phased_locked|]. exists t. by rewrite upd_eq.
  - intros Hsp. destruct (H7 Hsp) as (_ & _ & Hall). pose proof (Hall t) as E0. rewrite Hc in E0. simpl in E0.
    pose proof (phased_locked _ _ _ _ Hown H6) as ->. unfold once. rewrite Es, E0. split; [done|]. split; [done|].
    intros u. unfold upd. case_decide as Hu; [done|]. destruct (cs u).1 eqn:E; try done; destruct (Hno u Hu); unfold owns; by rewrite E.
Qed.

(** It poisons the lock. *)
Lemma panicking_poison ws cs l d lr t k :
  (t < N)%nat -> cs t = (Leaving, k) -> panicking ws cs l d lr ->
  d = DATA_MASK /\ lr = Lock.POISONED /\ panicking ws (upd cs t (Resting, k)) [] Lock.POISONED_STATE lr.
Proof using Type.
  intros Ht Hc [H1 H2 H3 H4 H5 H6 H7]. assert (owns (cs t)) as Hown by (by rewrite Hc).
  split; [by eapply phased_locked|]. split; [done|].
  assert (sum (upd cs t (Resting, k)) = sum cs) as Es by (rewrite sum_upd, Hc by done; simpl; lia).
  assert (forall u, ~ owns (upd cs t (Resting, k) u)) as Hno.
  { intros u. unfold upd. case_decide as Hu; [by intros []|]. intros Ho. destruct Hu. auto. }
  split; rewrite ?Es; try done.
  - intros u v E. destruct (Hno u). unfold owns. by rewrite E.
  - by intros u ?%not_elem_of_nil.
  - intros u v Hu. by destruct (Hno u).
  - right. split; [by right|done].
  - intros Hsp. destruct (H7 Hsp) as (_ & _ & Hall). pose proof (Hall t) as E0. rewrite Hc in E0. simpl in E0.
    unfold once. rewrite Es. split; [done|]. split; [done|].
    intros u. destruct (upd cs t (Resting, k) u).1 eqn:E; try done; destruct (Hno u); unfold owns; by rewrite E.
Qed.

(** The poison is cleared. *)
Lemma panicking_clear ws cs l lr t :
  Clear ∈ deeds t -> panicking ws cs l Lock.POISONED_STATE lr -> l = [] /\ panicking ws cs [] 0 lr.
Proof using Type.
  intros Hcl [H1 H2 H3 H4 H5 [[? _]|(_ & -> & Hno)] H7]; [done|]. split; [done|]. split; try done.
  - right. split; [by left|done].
  - intros Hsp. by destruct (Hsp t).
Qed.

(** A thread queues up at the locked lock. *)
Lemma panicking_push ws cs l lr t k :
  cs t = (Resting, k) -> panicking ws cs l DATA_MASK lr ->
  lr = Lock.POISONED /\ panicking ws (upd cs t (Resting, k)) (t :: l) DATA_MASK lr.
Proof using Type.
  intros Hc [H1 H2 H3 H4 H5 H6 H7]. split; [done|]. rewrite <- Hc, upd_id. split; try done.
  - intros u [->|Hu]%elem_of_cons; [by rewrite Hc|auto].
  - destruct H6 as [H6|([?|?] & _)]; [by left|done..].
Qed.

Context (Hkind : wakers_differ N kind).
Context (HA : forall t, (t < N)%nat -> wq_ok (A t)).
Context (Hapart : forall t u, (t < N)%nat -> (u < N)%nat -> t <> u ->
  A t + 128 <= A u \/ A u + 128 <= A t).

Abbreviation crowd := (crowd lk N A kind same_result undescribed panicking).
Abbreviation crowded := (crowded lk N A kind same_result undescribed panicking).
Abbreviation sleeps := (sleeps kind).
Abbreviation conforming := (conforms crowded unsure sleeps).
Abbreviation fresh := (fresh kind undescribed).

(** ** The state word *)

(** A word that may have been seen: locked, free or poisoned. *)
Inductive seen : Z -> Prop :=
| seen_locked a : is_addr a -> seen (word a false DATA_MASK)
| seen_free : seen 0
| seen_poisoned : seen Lock.POISONED_STATE.

Lemma data_mask_data : is_data DATA_MASK.
Proof using Type. split; done. Qed.

Lemma locked_not_poisoned a : is_addr a -> word a false DATA_MASK <> Lock.POISONED_STATE /\ word a false DATA_MASK <> 0.
Proof using Type. intros (k & -> & Hk)%addr_div. unfold word, Lock.POISONED_STATE. unfold_masks. lia. Qed.

Lemma crowd_seen g m l d lr : crowd g m l d lr -> seen (word (first_anchor (A <$> l)) false d).
Proof using HA.
  intros Hs. destruct (p_phased _ _ _ _ _ (c_client _ _ _ _ _ _ _ _ _ _ _ _ Hs)) as [[-> _]|([-> | ->] & -> & _)];
    [|apply seen_free|apply seen_poisoned].
  apply seen_locked. eapply first_anchor_is_addr, Hs.
Qed.

Section thread.
  Context (t : tid) (Ht : (t < N)%nat).

Abbreviation rest k := (Resting, k).

Lemma conforms_panic_glance n ph k : conforming n t (load lk) (ph, None, rest k) (fun w x => seen w /\ x = (ph, None, rest k)).
Proof using HA.
  apply conforms_load. intros g m Hg HI. pose proof HI as (l & d & lr & Hs). eexists. split; [apply Hs|].
  apply kept_same; [done|]. rewrite Hg. split; [by eapply crowd_seen|done].
Qed.

(** ** Taking the lock *)

(** The exchange that takes the lock, whose wait queue is private. *)
Lemma conforms_panic_enter n pr k :
  conforming n t (compare_exchange lk 0 DATA_MASK) (own_phase pr, None, rest k) (fun r x =>
    match r with
    | Ok _ => x = (own_phase pr, None, (Entered, k))
    | Err w => seen w /\ x = (own_phase pr, None, rest k)
    end).
Proof using HA Ht.
  apply conforms_compare_exchange. intros g m Hg HI. pose proof HI as (l & d & lr & Hs).
  eexists. split; [apply Hs|]. split.
  - intros E. pose proof (c_word _ _ _ _ _ _ _ _ _ _ _ _ Hs) as Hw. rewrite E in Hw.
    destruct (queue_word _ _ _ _ _ _ _ _ _ _ _ _ 0 0 Hs Hw is_addr_0) as [_ <-]; [done|].
    destruct (panicking_enter (others lk m) (clients g) l lr t k Ht) as [-> HP]; [by unfold clients; rewrite Hg|apply Hs|].
    exists (own_phase pr, None, (Entered, k)). split; [|done]. exists [], DATA_MASK, lr.
    by apply (crowd_take lk N A kind same_result undescribed panicking (weak m) g m [] 0 lr t _ (rest k) DATA_MASK lr (Entered, k) 0).
  - intros _. apply kept_same; [done|]. rewrite Hg. split; [|done]. by eapply crowd_seen.
Qed.

(** How an attempt ends. *)
Definition attempted (pr : private) (k : Z) (r : Z * Z) (x : ghost) : Prop :=
  r.1 = Lock.ACQUIRED /\ x = (own_phase pr, None, (Entered, k)) \/
  x = (own_phase pr, None, rest k) /\
    (r.1 = Lock.POISONED \/ r.1 = Lock.NOT_ACQUIRED /\ exists a, r.2 = word a false DATA_MASK /\ is_addr a).

Lemma conforms_panic_attempt n pr k w :
  seen w -> conforming n t (Lock.try_lock_internal lk w) (own_phase pr, None, rest k) (attempted pr k).
Proof using HA Ht.
  intros Hw. conforms_iter (fun w x => seen w /\ x = (own_phase pr, None, rest k)); [|by intros ???????[]|done].
  clear w Hw. intros n1 w x _ [Hw ->]. destruct Hw as [a Ha| |].
  - destruct (locked_not_poisoned a Ha) as [->%Z.eqb_neq ->%Z.eqb_neq]. apply conforms_ret. right. split; [done|].
    right. split; [done|]. by exists a.
  - simpl. conforms_seq; [apply conforms_panic_enter|]. intros n2 [w|w] x _ Hx; apply conforms_ret; [by left|done].
  - apply conforms_ret. right. split; [done|]. by left.
Qed.

Lemma conforms_panic_spin n pr k w :
  seen w -> conforming n t (Lock.spin (Lock.try_lock_internal lk) w) (own_phase pr, None, rest k) (attempted pr k).
Proof using HA Ht.
  intros Hw. conforms_iter (fun s x => x = (own_phase pr, None, rest k) /\ s.1.2 = Lock.NOT_ACQUIRED /\ seen s.2 /\
    (s.1.1 <> 0 -> exists a, s.2 = word a false DATA_MASK /\ is_addr a)); [|by intros ???????[]|by repeat split].
  clear w Hw. intros n1 [[i res] w] x _ (-> & Hres & Hw & Hi). simpl in Hres, Hw, Hi. subst res.
  destruct (i <? Lock.MAX_SPIN_COUNT) eqn:E.
  2:{ apply conforms_ret. right. split; [done|]. right. split; [done|]. apply Hi. by intros ->. }
  conforms_seq; [by apply conforms_panic_attempt|].
  intros n2 [res w'] x _ [[Hres ->]|[-> Hres]]; simpl in Hres; [subst res; apply conforms_ret; by left|].
  destruct Hres as [->|[-> (a & -> & Ha)]]; cbn beta iota; [apply conforms_ret; right; split; [done|by left]|].
  simpl negb. cbv iota. conforms_by (fun _ x => x = (own_phase pr, None, rest k)).
  - destruct (i mod 4 =? 0); [by apply conforms_yield_now|by apply conforms_ret].
  - intros n3 [] x _ ->. apply conforms_ret. split; [done|]. split; [done|]. split; [by apply seen_locked|]. by exists a.
Qed.

Lemma conforms_panic_lock n pr k :
  conforming n t (Lock.try_lock_internal_spin lk) (own_phase pr, None, rest k) (attempted pr k).
Proof using HA Ht.
  conforms_seq; [apply conforms_panic_enter|]. intros n1 [w|w] x _ Hx; [apply conforms_ret; by left|].
  destruct Hx as [Hw ->]. by apply conforms_panic_spin.
Qed.

(** ** Waiting *)

Abbreviation waiting r c := (Waiting r true Ready, None, c).
Abbreviation told r c := (Waiting r true (Taken true), None, c).

Lemma conforms_panic_push n en a k :
  fresh t en -> is_addr a ->
  conforming n t (try_push_wait_queue_entry lk (A t) (word a false DATA_MASK)) (Built en, None, rest k) (fun (b : bool) x =>
    if b then x = waiting Lock.POISONED (rest k) else exists en, fresh t en /\ x = (Built en, None, rest k)).
Proof using HA Hapart Hkind Ht.
  intros Hen Ha. eapply conforms_mono.
  - apply (conforms_crowd_try_push lk N A kind same_result undescribed panicking Hkind HA Hapart n t (rest k) (rest k) en a
      DATA_MASK (fun r => r = Lock.POISONED)); [done|done|done|apply data_mask_data|].
    intros ws cs l lr Hcs _ HP. destruct (panicking_push ws cs l lr t k Hcs HP) as [-> HP'].
    split; [done|]. split; [by exists Lock.POISONED|done].
  - intros [|] x Hx; [by destruct Hx as (r & -> & ->)|done].
Qed.

(** An entry that was not pushed. *)
Lemma conforms_panic_abandon n en k :
  fresh t en -> conforming n t (wait_queue_drop (A t)) (Built en, None, rest k) (fun _ x => x = (Out, None, rest k)).
Proof using HA Hapart Hkind Ht.
  intros ((_ & Hpl & _) & _).
  assert (PrivateView crowded (A t) t (fun pr => (own_phase pr, None, rest k))) as Hview by (by apply crowd_private).
  by apply (private_drop crowded unsure sleeps (A t) (HA t Ht) t (fun pr => (own_phase pr, None, rest k)) n en).
Qed.

Lemma conforms_panic_retire n r c :
  is_u8 r -> conforming n t (wait_queue_drop (A t)) (told r c) (fun _ x => x = (Out, None, c)).
Proof using HA Hapart Hkind Ht.
  intros Hr. by apply (conforms_crowd_drop lk N A kind same_result undescribed panicking Hkind HA Hapart t Ht c r n r).
Qed.

Lemma conforms_panic_wait n a k :
  kind t = None -> is_addr a ->
  conforming n t (wait_resources_sync Lock lk (A t) (word a false DATA_MASK) Exclusive (Ret tt)) (Out, None, rest k)
    (fun r x => x = (Out, None, rest k) /\ match r with Ok v => v = Lock.POISONED | Err _ => True end).
Proof using HA Hapart Hkind Ht.
  intros Ek Ha. eapply conforms_then; [apply _|apply conforms_debug_assert; [|done]|].
  { rewrite word_land_data by (done || apply data_mask_data). by rewrite orb_true_r. }
  intros n0 _. conforms_seq; [by apply conforms_crowd_default|]. intros n1 [] x _ ->.
  assert (true = is_thread kind t) as -> by (unfold is_thread; by rewrite Ek).
  conforms_seq; [by apply conforms_construct_fresh|]. intros n2 [] x _ (en & Hen & ->).
  conforms_seq; [by apply conforms_panic_push|]. intros n3 [|] x _ Hx; cbv beta iota in Hx.
  - subst x. conforms_by (fun r x => r = Ok Lock.POISONED /\ x = told Lock.POISONED (rest k)).
    + eapply conforms_then; [apply _|by apply conforms_ret|]. intros n4 _.
      conforms_seq; [by apply conforms_crowd_entry|]. intros n5 e x _ [-> ->].
      conforms_seq; [by apply (conforms_crowd_poll_sync lk N A kind same_result undescribed panicking Hkind HA Hapart same_result_u8 t Ht)|].
      intros n6 v x _ [[-> _] ->]. by apply conforms_ret.
    + intros n4 r x _ [-> ->]. conforms_seq; [by apply conforms_panic_retire|]. intros n5 [] x _ ->. by apply conforms_ret.
  - destruct Hx as (en' & Hen' & ->).
    conforms_by (fun (r : Result Z unit) x => r = Err tt /\ x = (Built en', None, rest k)); [by apply conforms_ret|].
    intros n4 r x _ [-> ->]. conforms_seq; [by apply conforms_panic_abandon|]. intros n5 [] x _ ->. by apply conforms_ret.
Qed.

(** What taking the lock comes to. *)
Definition outcome (k : Z) (b : bool) (x : ghost) : Prop :=
  x = (Out, None, if b then (Entered, k) else rest k).

Lemma conforms_panic_sync n k :
  kind t = None -> conforming n t (Lock.lock_sync lk (A t)) (Out, None, rest k) (outcome k).
Proof using HA Hapart Hkind Ht.
  intros Ek. conforms_iter (fun (_ : unit) x => x = (Out, None, rest k)); [|by intros ????????|done].
  intros n1 [] x _ ->. conforms_seq; [apply (conforms_panic_lock _ Nothing)|].
  intros n2 [res w] x _ [[Hres ->]|[-> Hres]]; simpl in Hres; [subst res; by apply conforms_ret|].
  destruct Hres as [->|[-> (a & -> & Ha)]]; cbn beta iota; [by apply conforms_ret|].
  eapply conforms_then; [apply _|by apply conforms_debug_assert|]. intros n3 _.
  conforms_seq; [by apply conforms_panic_wait|]. intros n4 [v|[]] x _ [-> Hv]; [subst v|by apply conforms_ret].
  eapply conforms_then; [apply _|by apply conforms_debug_assert|]. intros n5 _. by apply conforms_ret.
Qed.

Lemma conforms_panic_async n k cx :
  kind t = Some cx -> conforming n t (Lock.lock_async lk (A t) cx) (Out, None, rest k) (outcome k).
Proof using HA Hapart Hkind Ht.
  intros Ek. conforms_iter (fun (_ : unit) x => x = (Out, None, rest k)); [|by intros ????????|done].
  intros n1 [] x _ ->. conforms_seq; [apply (conforms_panic_lock _ Nothing)|].
  intros n2 [res w] x _ [[Hres ->]|[-> Hres]]; simpl in Hres; [subst res; by apply conforms_ret|].
  destruct Hres as [->|[-> (a & -> & Ha)]]; cbn beta iota; [by apply conforms_ret|].
  eapply conforms_then; [apply _|by apply conforms_debug_assert|]. intros n3 _.
  conforms_seq; [by apply conforms_crowd_default|]. intros n4 [] x _ ->.
  assert (construct Lock (A t) lk Exclusive false = construct Lock (A t) lk Exclusive (is_thread kind t)) as ->
    by (unfold is_thread; by rewrite Ek).
  conforms_seq; [by apply conforms_construct_fresh|]. intros n5 [] x _ (en & Hen & ->).
  conforms_seq; [by apply conforms_panic_push|]. intros n6 [|] x _ Hx; cbv beta iota in Hx.
  - subst x. eapply conforms_then; [apply _|by apply conforms_ret|]. intros n7 _.
    conforms_seq; [by apply (conforms_crowd_await lk N A kind same_result undescribed panicking Hkind HA Hapart same_result_u8 t Ht)|].
    intros n8 v x _ [[-> _] ->]. eapply conforms_then; [apply _|by apply conforms_debug_assert|]. intros n9 _.
    conforms_seq; [by apply conforms_panic_retire|]. intros n10 [] x _ ->. by apply conforms_ret.
  - destruct Hx as (en' & Hen' & ->).
    conforms_seq; [by apply conforms_panic_abandon|]. intros n7 [] x _ ->. by apply conforms_ret.
Qed.

(** ** Through a pager *)

Section pager.
(** The results that a pager may yield, and what the thread records with each. *)
  Context (k : Z) (yields : Z -> record -> Prop).
  Context (Hyields : forall r c, yields r c -> r = Lock.ACQUIRED \/ r = Lock.POISONED).
  Context (Htold : yields Lock.POISONED (rest k)).

(** A pager that waits or is resolved; its result; and what is left of it. *)
Definition registered (x : ghost) : Prop := exists r c, yields r c /\ x = waiting r c.

Definition got (y : Result bool Error) (x : ghost) : Prop :=
  exists r c, yields r c /\ y = Ok (r =? Lock.ACQUIRED) /\ x = told r c.

Definition dropped (y : Result bool Error) (x : ghost) : Prop :=
  exists r c, yields r c /\ y = Ok (r =? Lock.ACQUIRED) /\ x = (Out, None, c).

Lemma yields_u8 r c : yields r c -> is_u8 r.
Proof using Hyields. by intros [-> | ->]%Hyields. Qed.

(** What [register_pager] finds: the pager is resolved, or the lock locked. *)
Definition decided (en : Entry) (r : Z * Z) (x : ghost) : Prop :=
  (exists c, yields r.1 c /\ x = (Built en, None, c)) \/
  r.1 = Lock.NOT_ACQUIRED /\ x = (Built en, None, rest k) /\ exists a, r.2 = word a false DATA_MASK /\ is_addr a.

(** The thread resolves its pager itself. *)
Lemma conforms_panic_resolve n en r c :
  fresh t en -> yields r c ->
  conforming n t (e <- entry (A t) ;; set_result e r ;;; Ret (inr tt)) (Built en, None, c)
    (fun (s : unit + unit) x => s = inr tt /\ registered x).
Proof using HA Hapart Hkind Ht Hyields.
  intros Hen Hr. conforms_seq; [by apply conforms_crowd_entry|]. intros n1 e x _ [-> ->].
  conforms_seq; [apply (conforms_tell_oneself lk N A kind same_result undescribed panicking Hkind HA Hapart same_result_u8 n1 t en r r c c);
    [done|done|split; [done|by eapply yields_u8]|]|].
  { intros ws cs l d lr Hcs _ HP. by rewrite <- Hcs, upd_id. }
  intros n2 [] x _ ->. apply conforms_ret. split; [done|]. by exists r, c.
Qed.

Lemma conforms_panic_register n mode attempt :
  (forall n en, conforming n t attempt (Built en, None, rest k) (decided en)) ->
  match mode with
  | Lock.MExclusive => Lock.try_lock_internal_spin lk
  | Lock.MShared => Lock.try_share_internal_spin lk
  | _ => state <- load lk ;; Ret (Lock.wait_result mode state, state)
  end = attempt ->
  conforming n t (Lock.register_pager lk (A t) mode (is_thread kind t)) (Anchored, None, rest k)
    (fun b x => b = true /\ registered x).
Proof using HA Hapart Hkind Ht Hyields Htold.
  intros Hattempt Eattempt. unfold Lock.register_pager. rewrite Eattempt.
  conforms_seq; [by apply (conforms_crowd_unregistered lk N A kind same_result undescribed panicking Hkind HA Hapart)|].
  intros n1 b x _ [-> ->]. cbn iota.
  conforms_seq; [by apply conforms_construct_fresh|]. intros n2 [] x _ (en & Hen & ->).
  conforms_by (fun (_ : unit) x => registered x); [|intros n3 [] x _ Hx; by apply conforms_ret].
  conforms_iter (fun (_ : unit) x => exists en, fresh t en /\ x = (Built en, None, rest k)); [|by intros ????????|by exists en].
  clear en Hen. intros n3 [] x _ (en & Hen & ->). conforms_seq; [apply Hattempt|].
  intros n4 [res w] x _ [(c & Hc & ->)|(Hres & -> & a & Hw & Ha)]; simpl in *; [|subst res w].
  - assert ((res =? Lock.ACQUIRED) || (res =? Lock.POISONED) = true) as -> by (by destruct (Hyields _ _ Hc) as [-> | ->]).
    eapply conforms_mono; [by apply (conforms_panic_resolve n4 en res c)|]. by intros s x [-> Hx].
  - conforms_seq; [by apply conforms_panic_push|].
    intros n5 [|] x _ Hx; cbv beta iota in Hx; apply conforms_ret; [|done]. subst x. by exists Lock.POISONED, (rest k).
Qed.

Lemma conforms_panic_got n r c : yields r c -> conforming n t (to_result Lock r None) (told r c) got.
Proof using Hyields.
  intros Hr. eapply conforms_then; [apply _|apply conforms_debug_assert; [by destruct (Hyields _ _ Hr) as [-> | ->]|done]|].
  intros n1 _. apply conforms_ret. by exists r, c.
Qed.

Lemma conforms_panic_poll n x : registered x -> conforming n t (poll_by Lock kind t (A t)) x got.
Proof using HA Hapart Hkind Ht Hyields.
  intros (r & c & Hr & ->).
  apply (conforms_crowd_poll lk N A kind same_result undescribed panicking Hkind HA Hapart same_result_u8 t Ht);
    [|by intros n1 v [-> _]; apply conforms_panic_got].
  intros v [-> _]. by destruct (Hyields _ _ Hr) as [-> | ->].
Qed.

Lemma conforms_panic_try_poll n x :
  registered x -> conforming n t (try_poll Lock (A t)) x (fun r x => got r x \/ Locking.not_ready r = true /\ registered x).
Proof using HA Hapart Hkind Ht Hyields.
  intros (r & c & Hr & ->). eapply conforms_mono.
  - apply (conforms_crowd_try_poll lk N A kind same_result undescribed panicking Hkind HA Hapart same_result_u8 t Ht c r n Lock
      got (fun y x => y = Err NotReady /\ x = waiting r c)).
    + intros n1 v [-> _]. by apply conforms_panic_got.
    + intros n1. by apply conforms_ret.
  - intros y x [Hy|[-> ->]]; [by left|right; split; [done|]]. by exists r, c.
Qed.

Lemma conforms_panic_pager n mode attempt tries :
  (forall n en, conforming n t attempt (Built en, None, rest k) (decided en)) ->
  match mode with
  | Lock.MExclusive => Lock.try_lock_internal_spin lk
  | Lock.MShared => Lock.try_share_internal_spin lk
  | _ => state <- load lk ;; Ret (Lock.wait_result mode state, state)
  end = attempt ->
  conforming n t (through_pager Lock Locking.not_ready kind t (A t) (Lock.register_pager lk (A t) mode (is_thread kind t)) tries true)
    (Out, None, rest k) (fun r x => exists y, r = Some y /\ dropped y x).
Proof using HA Hapart Hkind Ht Hyields Htold.
  intros Hattempt Eattempt. eapply conforms_mono.
  - apply (conforms_through_pager crowded sleeps Lock Locking.not_ready kind t (A t) registered got)
      with (allocated := (Anchored, None, rest k)) (retired := dropped) (gone := (Out, None, rest k)).
    + by intros y x (r & c & _ & -> & _).
    + intros n1 x. apply conforms_panic_try_poll.
    + intros n1 x. apply conforms_panic_poll.
    + intros n1. by apply conforms_crowd_default.
    + intros n1. by apply (conforms_panic_register n1 mode attempt).
    + intros y x n1 (r & c & Hr & -> & ->). eapply conforms_mono; [by eapply conforms_panic_retire, yields_u8|].
      intros [] x ->. by exists r, c.
    + done.
  - intros [y|] x Hx; [by exists y|by destruct Hx].
Qed.

End pager.

(** A pager that is to take the lock. *)
Lemma conforms_panic_paged n k tries :
  conforming n t (attempt kind t lk (A t) (Enter (Some tries))) (Out, None, rest k) (outcome k).
Proof using HA Hapart Hkind Ht.
  set (yields := fun r c => r = Lock.ACQUIRED /\ c = (Entered, k) \/ r = Lock.POISONED /\ c = rest k).
  conforms_seq.
  - apply (conforms_panic_pager k yields) with (attempt := Lock.try_lock_internal_spin lk);
      [by intros r c [[-> _]|[-> _]]; [left|right]|by right| |done].
    intros n1 en. eapply conforms_mono; [apply (conforms_panic_lock n1 (Constructed en))|].
    intros [res w] x [[Hres ->]|[-> [Hres|[Hres Hw]]]]; simpl in *; subst res.
    + left. eexists. split; [by left|done].
    + left. eexists. split; [by right|done].
    + by right.
  - intros n1 r x _ (y & -> & v & c & Hv & -> & ->). apply conforms_ret. by destruct Hv as [[-> ->]|[-> ->]].
Qed.

(** A pager that waits until the lock could be taken takes nothing. *)
Lemma conforms_panic_watch n k shared tries :
  conforming n t (attempt kind t lk (A t) (Watch shared tries)) (Out, None, rest k) (outcome k).
Proof using HA Hapart Hkind Ht.
  set (yields := fun r c => (r = Lock.ACQUIRED \/ r = Lock.POISONED) /\ c = rest k).
  set (mode := if shared then Lock.WaitShared else Lock.WaitExclusive).
  conforms_seq.
  - apply (conforms_panic_pager k yields) with (attempt := (state <- load lk ;; Ret (Lock.wait_result mode state, state)));
      [by intros r c [? _]|by split; [right|]| |by unfold mode; destruct shared].
    intros n1 en. conforms_seq; [by apply (conforms_panic_glance n1 (Built en))|].
    intros n2 w x _ [Hw ->]. apply conforms_ret. destruct Hw as [a Ha| |].
    + right. split; [|split; [done|by exists a]]. unfold Lock.wait_result.
      rewrite word_land_data by (done || apply data_mask_data).
      assert ((word a false DATA_MASK =? Lock.POISONED) = false) as ->.
      { apply addr_div in Ha as (i & -> & Hi). apply Z.eqb_neq. unfold word, Lock.POISONED. unfold_masks. lia. }
      by destruct shared.
    + left. exists (rest k). split; [split; [left|done]|done]. by destruct shared.
    + left. exists (rest k). split; [split; [left|done]|done]. by destruct shared.
  - intros n1 r x _ (y & -> & v & c & [_ ->] & -> & ->). by apply conforms_ret.
Qed.

(** ** Trying, and clearing the poison *)

Lemma conforms_panic_try n k : conforming n t (Lock.try_lock lk) (Out, None, rest k) (outcome k).
Proof using HA Ht.
  conforms_seq; [apply conforms_panic_glance|]. intros n1 w x _ [Hw ->]. conforms_seq; [by apply (conforms_panic_attempt n1 Nothing)|].
  intros n2 [res v] x _ [[Hres ->]|[-> Hres]]; simpl in Hres; [subst res; by apply conforms_ret|].
  destruct Hres as [->|[-> _]]; by apply conforms_ret.
Qed.

Lemma conforms_panic_clear n k :
  Clear ∈ deeds t -> conforming n t (Lock.clear_poison lk) (Out, None, rest k) (fun _ x => x = (Out, None, rest k)).
Proof using HA.
  intros Hcl. conforms_by (fun (_ : Result Z Z) x => x = (Out, None, rest k)); [|intros n1 [w|w] x _ ->; by apply conforms_ret].
  apply conforms_compare_exchange. intros g m Hg HI. pose proof HI as (l & d & lr & Hs).
  eexists. split; [apply Hs|]. split; [|intros _; by apply kept_same; [|rewrite Hg]].
  intros E. pose proof (c_word _ _ _ _ _ _ _ _ _ _ _ _ Hs) as Hw. rewrite E in Hw.
  destruct (queue_word _ _ _ _ _ _ _ _ _ _ _ _ 0 Lock.POISONED_STATE Hs Hw is_addr_0) as [_ <-]; [done|].
  destruct (panicking_clear (others lk m) (clients g) l lr t Hcl) as [-> HP]; [apply Hs|].
  exists (Out, None, rest k). split; [|done]. exists [], 0, lr.
  apply (crowd_take lk N A kind same_result undescribed panicking (weak m) g m [] Lock.POISONED_STATE lr t _ (rest k) 0 lr (rest k) 0); try done.
  assert (clients g t = rest k) as <- by (unfold clients; by rewrite Hg). by rewrite upd_id.
Qed.

(** Any deed. *)
Lemma conforms_panic_deed n k d :
  d ∈ deeds t -> conforming n t (attempt kind t lk (A t) d) (Out, None, rest k) (outcome k).
Proof using HA Hapart Hkind Ht.
  intros Hd. destruct d as [[tries|]|shared tries| |]; [apply conforms_panic_paged| |apply conforms_panic_watch|..]; simpl.
  - unfold Locking.acquire. destruct (kind t) as [cx|] eqn:Ek; [by apply conforms_panic_async|by apply conforms_panic_sync].
  - apply conforms_panic_try.
  - conforms_seq; [by apply conforms_panic_clear|]. intros n1 b x _ ->. by apply conforms_ret.
Qed.

(** ** Owning the lock *)

Lemma conforms_panic_look n k :
  conforming n t (load cell) (Out, None, (Entered, k)) (fun v x => x = (Out, None, (Looked v, k))).
Proof using Hcell Ht.
  apply conforms_load. intros g m Hg (l & d & lr & Hs).
  destruct (panicking_look (others lk m) (clients g) l d lr t k Ht) as [Hc HP]; [by unfold clients; rewrite Hg|apply Hs|].
  exists (sum (clients g)). split; [unfold others in Hc; by rewrite lookup_delete_ne in Hc|].
  eexists. split; [|done]. exists l, d, lr. by eapply crowd_client.
Qed.

(** The exchange that poisons the lock. *)
Lemma conforms_panic_exchange n a k :
  is_addr a ->
  conforming n t (compare_exchange lk (word a false DATA_MASK) Lock.POISONED_STATE) (Out, None, (Leaving, k)) (fun r x =>
    match r with
    | Ok w => exists ls, w = word (first_anchor (A <$> ls)) false DATA_MASK /\ first_anchor (A <$> ls) = a /\
        Forall (fun u => wq_ok (A u)) ls /\ x = (Out, next_job Lock.POISONED ls, rest k)
    | Err w => (exists a, w = word a false DATA_MASK /\ is_addr a) /\ x = (Out, None, (Leaving, k))
    end).
Proof using HA Ht.
  intros Ha. apply conforms_compare_exchange. intros g m Hg HI. pose proof HI as (l & d & lr & Hs).
  destruct (panicking_poison (others lk m) (clients g) l d lr t k Ht) as (-> & -> & HP);
    [by unfold clients; rewrite Hg|apply Hs|].
  eexists. split; [apply Hs|]. pose proof (c_word _ _ _ _ _ _ _ _ _ _ _ _ Hs) as Hw. split.
  - intros E. rewrite E in Hw.
    destruct (queue_word _ _ _ _ _ _ _ _ _ _ _ _ a DATA_MASK Hs Hw Ha) as [-> _]; [by apply data_low, data_mask_data|].
    exists (Out, next_job Lock.POISONED l, rest k). split.
    + eexists _, _, _. by apply (crowd_take lk N A kind same_result undescribed panicking (weak m) g m l DATA_MASK
        Lock.POISONED t Out (Leaving, k) Lock.POISONED_STATE Lock.POISONED (rest k) Lock.POISONED).
    + exists l. split; [done|]. split; [done|]. split; [|done]. apply Forall_forall. intros u Hu%list_elem_of_In.
      apply HA. by eapply (queued_lt lk N A kind same_result undescribed panicking).
  - intros _. apply kept_same; [done|]. rewrite Hg. split; [|done]. eexists. split; [done|]. eapply first_anchor_is_addr, Hs.
Qed.

Lemma conforms_panic_poison n k :
  conforming n t (Lock.poison_lock lk) (Out, None, (Leaving, k)) (fun b x => b = true /\ x = (Out, None, rest k)).
Proof using HA Hapart Hkind Ht.
  conforms_seq; [by apply (conforms_panic_exchange n 0 k)|].
  intros n1 [w|w] x _ Hx.
  { destruct Hx as (ls & _ & E & Hls & ->). apply conforms_ret. split; [done|]. destruct ls as [|u ls]; [done|].
    pose proof (anchor_addr_eqb_0 _ (Forall_inv Hls)) as Hne. simpl in E. by rewrite E in Hne. }
  conforms_iter (fun w x => (exists a, w = word a false DATA_MASK /\ is_addr a) /\ x = (Out, None, (Leaving, k)));
    [|by intros ????????|done].
  clear w x Hx. intros n2 w x _ [(a & -> & Ha) ->].
  destruct (locked_not_poisoned a Ha) as [->%Z.eqb_neq _].
  rewrite word_land_data, word_land_locked by (done || apply data_mask_data). simpl negb. simpl orb. cbv iota.
  conforms_seq; [by apply conforms_panic_exchange|].
  intros n3 [w|w] x _ Hx; [|by apply conforms_ret]. destruct Hx as (ls & -> & _ & Hls & ->).
  assert (is_addr (first_anchor (A <$> ls))) as Hla.
  { destruct ls as [|h ls]; [apply is_addr_0|]. by apply anchor_addr_is_addr, (Forall_inv Hls). }
  eapply conforms_then; [apply _|apply conforms_debug_assert; [|done]|].
  { by rewrite word_land_locked by (done || apply data_mask_data). }
  intros n4 _. cbv zeta. conforms_seq; [apply (conforms_tell_queue lk N A kind same_result undescribed panicking Hkind HA Hapart t Out
    (rest k) Lock.POISONED n4 ls DATA_MASK (fun _ => tt) tt); [done|done|apply data_mask_data]|].
  intros n5 y x _ [_ ->]. by apply conforms_ret.
Qed.

(** All that a thread does. *)
Lemma conforms_panic_owner n k ds :
  (forall d, d ∈ ds -> d ∈ deeds t) ->
  conforming n t (owner kind t lk cell (A t) ds k) (Out, None, rest k) (fun v x => x = (Out, None, rest v)).
Proof using HA Hapart Hcell Hkind Ht.
  revert n k. induction ds as [|d ds IH]; intros n k Hds; [by apply conforms_ret|]. cbn [owner].
  assert (forall d, d ∈ ds -> d ∈ deeds t) as Hds' by (intros d' Hd'; apply Hds; by right).
  conforms_seq; [apply conforms_panic_deed, Hds; by left|]. intros n1 b x _ ->. destruct b; [|by apply IH].
  conforms_seq; [apply conforms_panic_look|]. intros n2 v x _ ->.
  conforms_seq; [apply (conforms_client_swap lk N A kind same_result undescribed panicking n2 t cell (v + 1) Out (Looked v, k) (Leaving, k + 1));
    [done|done|]|].
  { intros ws cs l d0 lr Hcs _ HP. by apply panicking_write. }
  intros n3 w x _ ->. conforms_seq; [apply conforms_panic_poison|]. intros n4 p x _ [-> ->].
  eapply conforms_then; [apply _|by apply conforms_debug_assert|]. intros n5 _. by apply IH.
Qed.

End thread.

(** ** The pool *)

Definition start : tid -> ghost := fun _ => (Out, None, (Resting, 0)).

Lemma poisoning_start m :
  words m !! lk = Some Lock.new -> words m !! cell = Some 0 -> crowded start m.
Proof using Hcell.
  intros Hw Hc. assert (sum (clients start) = 0) as Es.
  { unfold sum. induction (seq 0 N) as [|u l IH]; [done|exact IH]. }
  exists [], 0, Lock.POISONED. apply crowd_start; try done. split; rewrite ?Es; try done.
  - unfold others. by rewrite lookup_delete_ne.
  - right. split; [by left|]. split; [done|]. by intros u [].
Qed.

(** When nobody tells anybody and all others have returned, nobody sleeps. *)
Lemma owners_awake g m u :
  crowded g m -> (forall v, task_of (g v) = None) ->
  (forall v, sleeps v g m \/ exists k, g v = (Out, None, (Resting, k))) -> ~ sleeps u g m.
Proof using Type.
  intros (l & d & lr & Hs) Hidle Hall Hu.
  assert (forall v, sleeps v g m -> v ∈ l) as Hq.
  { intros v Hv. by eapply (sleeping_queued lk N A kind same_result undescribed panicking). }
  pose proof (c_client _ _ _ _ _ _ _ _ _ _ _ _ Hs) as HP. pose proof (Hq u Hu) as Hul.
  destruct (p_phased _ _ _ _ _ HP) as [[_ [v Hv]]|(_ & -> & _)]; [|by apply not_elem_of_nil in Hul].
  destruct (Hall v) as [Hsl|[k E]]; [|unfold owns, clients in Hv; by rewrite E in Hv].
  destruct Hv. by apply (p_queued _ _ _ _ _ HP), Hq.
Qed.

Definition owners (t : tid) : program Z :=
  if decide (t < N)%nat then owner kind t lk cell (A t) (deeds t) 0 else Ret 0.

Lemma owners_conform m p :
  words m !! lk = Some Lock.new -> words m !! cell = Some 0 -> rtc pool_step (owners, m) p ->
  (forall t, ~ faulty p t) /\
  ((forall p', ~ pool_step p p') -> exists made : tid -> Z,
    (forall t, finished p t (made t)) /\ words p.2 !! cell = Some (total id (seq 0 N) made) /\
    (words p.2 !! lk = Some Lock.new \/ words p.2 !! lk = Some Lock.POISONED_STATE) /\
    (spoilt -> words p.2 !! cell = Some (if decide (words p.2 !! lk = Some Lock.new) then 0 else 1))).
Proof using HA Hapart Hcell Hkind.
  intros Hw Hc Hreach. set (Q := fun (t : tid) (v : Z) (x : ghost) => x = (Out, None, (Resting, v))).
  destruct (pool_sound crowded unsure sleeps owners m start Q p) as (g & HI & HQ & Hsafe & Hwaits & _);
    [|by apply poisoning_start|done|].
  { intros t n. unfold owners. destruct (decide (t < N)%nat) as [Ht|Ht]; [by apply conforms_panic_owner|by apply conforms_ret]. }
  split; [done|]. intros Hstop. pose proof (pool_stopped p Hstop Hsafe) as Hall.
  assert (forall u, sleeps u g p.2 \/ exists k, g u = (Out, None, (Resting, k))) as Hcase.
  { intros u. destruct (Hall u) as [[k Hf]|Hb]; [right; exists k; by apply HQ|left; by apply Hwaits]. }
  assert (forall u, task_of (g u) = None) as Hidle.
  { intros u. destruct (Hcase u) as [(_ & ? & _)|[k E]]; [done|by rewrite E]. }
  assert (forall u, exists k, finished p u k) as Hfin.
  { intros u. destruct (Hall u) as [Hf|Hb]; [done|].
    destruct (owners_awake g p.2 u HI Hidle Hcase). by apply Hwaits. }
  assert (forall u, ~ owns (clients g u)) as Hno.
  { intros u Ho. destruct (Hfin u) as [k Hf]. pose proof (HQ u k Hf) as E. unfold owns, clients in Ho. by rewrite E in Ho. }
  exists (fun u => (clients g u).2). split.
  { intros u. destruct (Hfin u) as [k Hf]. pose proof (HQ u k Hf) as E. unfold clients. by rewrite E. }
  destruct HI as (l & d & lr & Hs). pose proof (c_client _ _ _ _ _ _ _ _ _ _ _ _ Hs) as HP.
  pose proof (c_word _ _ _ _ _ _ _ _ _ _ _ _ Hs) as Hlk. pose proof (p_cell _ _ _ _ _ HP) as Hcl.
  unfold others in Hcl. rewrite lookup_delete_ne in Hcl by done.
  assert (sum (clients g) = total id (seq 0 N) (fun u => (clients g u).2)) as Es.
  { by apply total_ext. }
  destruct (p_phased _ _ _ _ _ HP) as [[_ [v Hv]]|(Hd & -> & _)]; [by destruct (Hno v)|].
  assert (word (first_anchor (A <$> [])) false d = d) as Ew by (by unfold word). rewrite Ew in Hlk. rewrite <- Es.
  split; [done|]. split; [rewrite Hlk; by destruct Hd as [-> | ->]; [left|right]|].
  intros Hsp. destruct (p_once _ _ _ _ _ HP Hsp) as (H0 & H1 & _). rewrite Hlk, Hcl.
  destruct Hd as [-> | ->]; [by rewrite decide_True, H0|by rewrite decide_False, H1].
Qed.

End poisoning.

(** ** The theorem *)

(** C17. Threads and tasks take a new lock with [try_lock], [lock_sync],
    [lock_async] or a pager, increment a counter under it and then poison it
    instead of releasing it, while some of them clear the poison at any time and
    some only wait until the lock could be taken, with pagers in a waiting mode,
    which never take it, in every interleaving and with any spurious failures:
    no access faults, [poison_lock] never fails its owner; and when no thread can
    take a step, all have returned (whoever waited was told that the lock is
    poisoned, nobody sleeps forever), the counter shows exactly the increments
    made, the lock is free or poisoned, and if nobody ever clears it, it is
    poisoned after one increment, or free after none. *)
Theorem panicking_owners_never_stuck kind deeds lk cell N A m p :
  cell <> lk -> wakers_differ N kind -> words m !! lk = Some Lock.new -> words m !! cell = Some 0 ->
  (forall t, (t < N)%nat -> wq_ok (A t)) ->
  (forall t u, (t < N)%nat -> (u < N)%nat -> t <> u -> A t + 128 <= A u \/ A u + 128 <= A t) ->
  rtc pool_step (owners lk cell N A kind deeds, m) p ->
  (forall t, ~ faulty p t) /\
  ((forall p', ~ pool_step p p') -> exists made : tid -> Z,
    (forall t, finished p t (made t)) /\ words p.2 !! cell = Some (total id (seq 0 N) made) /\
    (words p.2 !! lk = Some Lock.new \/ words p.2 !! lk = Some Lock.POISONED_STATE) /\
    (spoilt deeds -> words p.2 !! cell = Some (if decide (words p.2 !! lk = Some Lock.new) then 0 else 1))).
Proof. intros. by eapply owners_conform. Qed.

(** Two threads and a task, one of which clears the poison in between, their
    steps interleaved. *)
Definition panic_plans (t : tid) : list deed :=
  match t with
  | 0%nat => [Enter None; Enter (Some 1%nat)]
  | 1%nat => [Enter None; Try]
  | 2%nat => [Watch true 1; Enter (Some 2%nat); Clear; Enter None]
  | _ => []
  end.

Definition three_owners : pool mem Z :=
  schedule (concat (replicate 1500 (seq 0 3)))
    (owners 8 16 3 (fun t => 1024 + 128 * Z.of_nat t) one_task panic_plans,
     mkMem {[8 := Lock.new; 16 := 0]} ∅ ∅ ∅ ∅ []).

Lemma panicking_owners_never_stuck_witness :
  (forall t, ~ faulty three_owners t) /\ finished three_owners 0%nat 1 /\ finished three_owners 1%nat 0 /\
  exists made : tid -> Z, (forall t, finished three_owners t (made t)) /\
    words three_owners.2 !! 16 = Some (total id (seq 0 3) made) /\
    (words three_owners.2 !! 8 = Some Lock.new \/ words three_owners.2 !! 8 = Some Lock.POISONED_STATE).
Proof.
  destruct (panicking_owners_never_stuck one_task panic_plans 8 16 3 (fun t => 1024 + 128 * Z.of_nat t)
    (mkMem {[8 := Lock.new; 16 := 0]} ∅ ∅ ∅ ∅ []) three_owners)
    as (Hsafe & Hdone); [done|apply one_task_differs|reflexivity|reflexivity| | |apply schedule_reachable|].
  - intros t Ht. unfold wq_ok. assert (t = 0 \/ t = 1 \/ t = 2)%nat as [-> | [-> | ->]] by lia;
      vm_compute; repeat split; discriminate || reflexivity.
  - intros t u Ht Hu Hne. lia.
  - split; [exact Hsafe|]. split; [vm_compute; reflexivity|]. split; [vm_compute; reflexivity|].
    destruct Hdone as (made & Hf & Hc & Hw & _).
    { apply all_returned. intros t. do 4 (destruct t as [|t]; [eexists; vm_compute; reflexivity|]).
      eexists. vm_compute. reflexivity. }
    exact (ex_intro _ made (conj Hf (conj Hc Hw))).
Defined.
