(* ===== verification/Races.v ===== *)
(** * A race at the barrier

    A task that drops the future of [wait_async] while it waits marks the
    barrier's queue as being processed and unlinks its entry.  The last task
    to arrive takes the queue with a compare-and-exchange that pays no regard to
    this mark and resolves all entries; their owners return, and the entries,
    which lie on their stacks, are gone while the task that gives up still walks
    the queue. *)

From S2P Require Import Prelude Prog Word Opcode Memory WaitQueue Geometry.
From S2P Require Import Interleaving SyncPrimitive Crate Pager Polling.
From S2P Require Barrier.

(** [wait_async] of [Barrier.v], its future dropped when it is pending after [k]
    suspensions; [None] is returned then. *)
Definition wait_async_within (self p : Z) (cx : Waker) (k : nat) : program (option bool) :=
  pager_default p ;;;
  result <- Loop (fun _ =>
    construct Barrier p self (BarrierOp false) false ;;;
    returned <- Barrier.count_down self p false (Ret tt) ;;
    result <- poll_within Barrier p cx k ;;
    match result, returned with
    | None, _ => Ret (inr None)
    | Some result, Some _ =>
        debug_assert (negb (Barrier.unwrap_or_false result)) ;;;
        Ret (inl tt)
    | Some result, None => Ret (inr (Some (Barrier.unwrap_or_false result)))
    end) tt ;;
  pager_drop p ;;;
  Ret result.

(** A future that is ready in time. *)
Lemma wait_within_ready t n self p cx k m b m' :
  run n t (wait_async_within self p cx k) m = Returns (Some b) m' ->
  run n t (Barrier.wait_async self p cx) m = Returns b m'.
Proof.
  unfold wait_async_within, Barrier.wait_async, Barrier.wait_async_with.
  rewrite !run_bind. destruct (run n t (pager_default p) m) as [[] m0| | |]; [|done..].
  rewrite !run_bind. match goal with |- context [run n t (Loop ?f tt) m0] => set (F := f) end.
  match goal with |- context [run n t (Loop ?f tt) m0] => first [constr_eq f F; fail 1|set (G := f)] end.
  assert (forall i m1 r m2, run i t (Loop F tt) m1 = Returns (Some r) m2 -> run i t (Loop G tt) m1 = Returns r m2) as Hloop.
  { clear. intros i. induction i as [|i IH]; intros m1 r m2; [done|]. rewrite !run_loop. unfold F at 1, G at 1.
    rewrite !run_bind. destruct (run i t (construct _ _ _ _ _) m1) as [[] m3| | |]; [|done..].
    rewrite !run_bind. destruct (run i t (Barrier.count_down _ _ _ _) m3) as [[[]|] m4| | |]; [| |done..].
    all: rewrite !run_bind; destruct (run i t (poll_within Barrier p cx k) m4) as [[y|] m5| | |] eqn:Ew; try done.
    1,3: rewrite (poll_within_ready _ _ _ _ _ _ _ _ _ Ew).
    - rewrite !run_bind. destruct (run i t (debug_assert _) m5) as [[] m6| | |]; [|done..]. rewrite !run_ret. apply IH.
    - rewrite !run_ret. by intros [= -> ->].
    - by rewrite run_ret.
    - by rewrite run_ret. }
  destruct (run n t (Loop F tt) m0) as [[r|] m1| | |] eqn:E; [| |done..].
  - rewrite (Hloop n m0 r m1 E), !run_bind. destruct (run n t (pager_drop p) m1) as [[] m2| | |]; [|done..].
    rewrite !run_ret. by intros [= -> ->].
  - rewrite run_bind. destruct (run n t (pager_drop p) m1) as [[] m2| | |]; [|done..]. by rewrite run_ret.
Qed.

(** Three tasks at a barrier for three: the first one gives up, the second one
    waits, the third one is the last to arrive. *)
Definition three_tasks (t : tid) : program (option bool) :=
  match t with
  | 0%nat => wait_async_within 8 1024 77%nat 0
  | 1%nat => b <- Barrier.wait_sync 8 1152 ;; Ret (Some b)
  | 2%nat => b <- Barrier.wait_sync 8 1280 ;; Ret (Some b)
  | _ => Ret None
  end.

Definition barrier_for_three : pool mem (option bool) :=
  (three_tasks, mkMem {[8 := Barrier.with_count 3]} ∅ ∅ ∅ ∅ []).

(** The first task queues up, then the second one; the first one has marked the
    queue when the third one arrives and lets the second one go. *)
Definition barrier_race : pool mem (option bool) :=
  schedule (replicate 31 0 ++ replicate 400 1 ++ replicate 40 0 ++ replicate 400 2 ++ replicate 400 1 ++ replicate 300 0)%nat
    barrier_for_three.

(** C23. Dropping a future that waits at a barrier races with the last arrival:
    three tasks use a barrier for three as documented, one of them dropping its
    future, and there is an interleaving in which the last task lets the second
    one go, both return, the second one's wait queue is freed with its stack
    frame, and the task that gives up accesses freed memory. *)
Theorem barrier_cancel_use_after_free :
  exists p, rtc pool_step barrier_for_three p /\
    finished p 1%nat (Some false) /\ finished p 2%nat (Some true) /\ entries p.2 !! wq_entry 1152 = None /\
    step 0%nat (p.1 0%nat) p.2 = SFault InvalidPointer.
Proof.
  exists barrier_race. split; [apply schedule_reachable|]. by vm_compute.
Qed.
