(* ===== verification/ExampleTests.v ===== *)
(** * The tests of the example program pass

    The theorem about [Examples]: [lock], [semaphore] and [pager] run on one
    thread; [barrier] and [gate] are pools of threads, whose interleavings
    [Rendezvous] and [Passage] analyse. *)

From S2P Require Import Prelude Prog Word Opcode Memory WaitQueue Geometry Results.
From S2P Require Import Queue Interleaving Areas SyncPrimitive Enqueue Scenario GateSpec.
From S2P Require Lock Semaphore Barrier Gate Examples Crowd Rendezvous Passage.

(** The threads of [barrier]. *)
Definition barrier_threads (self : Z) (A : tid -> Z) (t : tid) : program unit :=
  if decide (t < 8)%nat then Examples.barrier_thread self (A t) else Ret tt.

(** The threads of [gate], the main thread being the ninth. *)
Definition gate_threads (self : Z) (A : tid -> Z) (t : tid) : program unit :=
  if decide (t < 8)%nat then Examples.gate_thread self (A t)
  else if decide (t = 8)%nat then Examples.gate_permits self else Ret tt.

(** ** The test [barrier] *)

Lemma barrier_passes self A m p :
  words m !! self = Some (Barrier.with_count 8) ->
  (forall t, (t < 8)%nat -> wq_ok (A t)) ->
  (forall t u, (t < 8)%nat -> (u < 8)%nat -> t <> u -> A t + 128 <= A u \/ A u + 128 <= A t) ->
  rtc pool_step (barrier_threads self A, m) p ->
  (forall t, ~ faulty p t) /\
  ((forall p', ~ pool_step p p') ->
   (forall t, finished p t tt) /\
   forall main, wp main (Examples.barrier_joined self) p.2 (fun _ m' => m' = p.2)).
Proof.
  intros Hw HA Hapart Hreach. set (cellopt := fun _ : tid => @None Z).
  assert (forall t i, (t < 8)%nat -> cellopt t = Some i -> i <> self) as Hc by done.
  assert (0 < 8)%nat as H8 by lia. assert (Z.of_nat 8 <= Barrier.MAX_TASKS) as Hmax by done.
  destruct (Rendezvous.pool_meets self 8 4 A all_threads cellopt H8 (fun _ => tt) (barrier_threads self A) m p)
    as (Hsafe & _ & Hdone); [| | |done|].
  { intros t n Ht. unfold barrier_threads. rewrite decide_True by done. eapply conforms_mono.
    - by apply (Rendezvous.conforms_barrier_thread self 8 4 A all_threads cellopt H8 Hmax
        (wakers_differ_threads 8) HA Hapart t Ht n 0).
    - intros [] x (b & ->). by exists b, 0%nat. }
  { intros t Ht. unfold barrier_threads. by rewrite decide_False. }
  { by apply Rendezvous.rounds_start. }
  split; [done|]. intros Hstop. destruct (Hdone Hstop) as (b & Hf & _ & Hw'). split; [done|].
  intros main. apply wp_bind. eapply wp_bind, wp_load; [exact Hw'|]. apply wp_ret.
  by apply wp_debug_assert.
Qed.

(** ** The test [gate] *)

(** What the main thread does once it has joined the others succeeds. *)
Lemma wp_gate_joined t self p m (Q : unit -> mem -> Prop) :
  words m !! self = Some Gate.new -> wq_ok p ->
  (forall m', words m' = <[self := Gate.u8_from_State Gate.Sealed]> (words m) -> Q tt m') ->
  wp t (Examples.gate_joined self p) m Q.
Proof.
  intros Hw Hok HQ. assert (gate_at m self Gate.Controlled [] []) as Hg
    by (split; [by apply queue_at_empty|done]).
  apply wp_bind. eapply wp_wake_all; [exact Hg|]. intros m1 s1 (W1 & Hg1 & _).
  apply wp_bind. eapply wp_enter_sync_now; [exact Hg1|done|done|]. intros wk en.
  apply wp_bind, wp_debug_assert; [done|]. set (m2 := set_weak wk _).
  assert (gate_at m2 self Gate.Open [] []) as Hg2.
  { split; [|done]. apply queue_at_empty; [apply Hg1|done]. }
  apply wp_bind. eapply wp_wake_all; [exact Hg2|]. intros m3 s3 (W3 & Hg3 & _).
  apply wp_bind. eapply wp_enter_sync_now; [exact Hg3|done|done|]. intros wk' en'.
  apply wp_debug_assert; [done|]. apply HQ. simpl. rewrite W3. simpl. rewrite W1. apply insert_insert_eq.
Qed.

Lemma gate_threads_are self A : gate_threads self A = Passage.entrants self 8 A all_threads (fun _ => None).
Proof. reflexivity. Qed.

Lemma gate_passes self A q m p :
  words m !! self = Some Gate.new -> wq_ok q ->
  (forall t, (t < 8)%nat -> wq_ok (A t)) ->
  (forall t u, (t < 8)%nat -> (u < 8)%nat -> t <> u -> A t + 128 <= A u \/ A u + 128 <= A t) ->
  rtc pool_step (gate_threads self A, m) p ->
  (forall t, ~ faulty p t) /\
  ((forall p', ~ pool_step p p') ->
   (forall t, finished p t tt) /\
   wp 8 (Examples.gate_joined self q) p.2 (fun _ m' => words m' = <[self := 1]> (words p.2))).
Proof.
  intros Hw Hq HA Hapart Hreach. rewrite gate_threads_are in Hreach.
  destruct (Passage.entrants_pass self 8 A all_threads (fun _ => None) (ltac:(done)) (wakers_differ_threads 8) HA Hapart
    m p Hw Hreach) as [Hsafe Hdone].
  split; [done|]. intros [Hf Hw']%Hdone. split; [done|]. by apply wp_gate_joined.
Qed.

(** ** The theorem *)

(** A memory with a new primitive. *)
Definition started (m : mem) (self w : Z) : mem := set_words (<[self := w]> (words m)) m.

(** C29. The tests of the example program pass, wherever what they allocate
    lies and whatever spurious failures happen.  [lock], [semaphore] and
    [pager] run to their end, no assertion fails, and the lock and the
    semaphore are free again; the pager, which was granted its share when the
    lock was released, still has it, and has left nothing behind.  [barrier] and
    [gate] pass in every interleaving of their threads: no access faults, no
    assertion fails, and when no thread can take a step all have returned, and
    what the main thread does after joining them succeeds. *)
Theorem example_tests_pass t self p wq A m b g :
  wq_ok p -> (forall t, (t < 8)%nat -> wq_ok (A t)) ->
  (forall t u, (t < 8)%nat -> (u < 8)%nat -> t <> u -> A t + 128 <= A u \/ A u + 128 <= A t) ->
  rtc pool_step (barrier_threads self A, started m self (Barrier.with_count 8)) b ->
  rtc pool_step (gate_threads self A, started m self Gate.new) g ->
  wp t (Examples.lock self wq) (started m self Lock.new)
    (fun _ m' => words m' !! self = Some Lock.new) /\
  wp t (Examples.semaphore self wq) (started m self Semaphore.new)
    (fun _ m' => words m' !! self = Some Semaphore.new) /\
  wp t (Examples.pager self p wq) (started m self Lock.new)
    (fun _ m' => words m' !! self = Some 1 /\
       anchors m' !! anchor_addr p = None /\ entries m' !! wq_entry p = None) /\
  (forall t, ~ faulty b t) /\ (forall t, ~ faulty g t) /\
  ((forall b', ~ pool_step b b') -> (forall t, finished b t tt) /\
     wp t (Examples.barrier_joined self) b.2 (fun _ m' => m' = b.2)) /\
  ((forall g', ~ pool_step g g') -> (forall t, finished g t tt) /\
     wp 8 (Examples.gate_joined self p) g.2 (fun _ m' => words m' = <[self := 1]> (words g.2))).
Proof.
  intros Hp HA Hapart Hb Hg.
  assert (forall w, words (started m self w) !! self = Some w) as Hw by (intros; apply lookup_insert_eq).
  destruct (barrier_passes self A _ b (Hw _) HA Hapart Hb) as [Hbs Hbd].
  destruct (gate_passes self A p _ g (Hw _) Hp HA Hapart Hg) as [Hgs Hgd].
  split; [by apply Examples.wp_lock|]. split; [by apply Examples.wp_semaphore|].
  split; [by apply Examples.wp_pager|]. do 2 (split; [done|]). split; [|done].
  intros [Hf Hj]%Hbd. by split.
Qed.

(** The threads' steps interleaved. *)
Definition frames (t : tid) : Z := 1024 + 128 * Z.of_nat t.

Definition mostly_empty : mem := mkMem ∅ ∅ ∅ ∅ ∅ [false; true; true].

Definition barrier_run : pool mem unit :=
  schedule (concat (replicate 2000 (seq 0 8)))
    (barrier_threads 8 frames, started mostly_empty 8 (Barrier.with_count 8)).

Definition gate_run : pool mem unit :=
  schedule (concat (replicate 300 (seq 0 9))) (gate_threads 8 frames, started mostly_empty 8 Gate.new).

Lemma example_tests_pass_witness :
  wp 0 (Examples.lock 8 4096) (started mostly_empty 8 Lock.new) (fun _ m' => words m' !! 8 = Some 0) /\
  wp 0 (Examples.semaphore 8 4096) (started mostly_empty 8 Semaphore.new)
    (fun _ m' => words m' !! 8 = Some 0) /\
  wp 0 (Examples.pager 8 8192 4096) (started mostly_empty 8 Lock.new) (fun _ m' => words m' !! 8 = Some 1) /\
  (forall t, finished barrier_run t tt) /\ (forall t, finished gate_run t tt) /\
  wp 0 (Examples.barrier_joined 8) barrier_run.2 (fun _ m' => m' = barrier_run.2) /\
  wp 8 (Examples.gate_joined 8 8192) gate_run.2 (fun _ m' => words m' !! 8 = Some 1).
Proof.
  destruct (example_tests_pass 0 8 8192 4096 frames mostly_empty barrier_run gate_run)
    as (Hl & Hs & Hp & _ & _ & Hb & Hg);
    [by_evaluation| | |apply schedule_reachable|apply schedule_reachable|].
  - intros t Ht. unfold wq_ok. do 8 (destruct t as [|t]; [vm_compute; repeat split; discriminate || reflexivity|]). lia.
  - intros t u Ht Hu Hne. unfold frames. lia.
  - destruct Hb as [Hbf Hbj].
    { apply all_returned. intros t. exists tt. do 8 (destruct t as [|t]; [vm_compute; reflexivity|]).
      vm_compute. reflexivity. }
    destruct Hg as [Hgf Hgj].
    { apply all_returned. intros t. exists tt. do 9 (destruct t as [|t]; [vm_compute; reflexivity|]).
      vm_compute. reflexivity. }
    split; [exact Hl|]. split; [exact Hs|]. split; [eapply wp_mono; [exact Hp|]; by intros ?? [? _]|].
    split; [exact Hbf|]. split; [exact Hgf|]. split; [exact Hbj|].
    eapply wp_mono; [exact Hgj|]. intros u m' E. rewrite E. apply lookup_insert_eq.
Defined.
