(* ===== verification/LockApi.v ===== *)
(** * The [lock_api] traits

    [src/lock_api.rs]: the raw mutex and reader-writer lock traits of the
    [lock_api] crate, implemented for [Lock].  The traits' methods return
    nothing where the lock's methods return whether they succeeded.  A guard
    is a value without representation in the shared memory; making one is
    returning. *)

From S2P Require Import Prelude Prog Word Memory WaitQueue.
From S2P Require Lock.

(** What [lock_api] asks of a raw mutex: its operations, and what they do to
    the two states a mutex can be in. *)
Record raw_mutex : Type := {
  rm_lock : Z -> Z -> program unit;
  rm_try_lock : Z -> program bool;
  rm_unlock : Z -> program unit;
}.

Class RawMutexLaws (R : raw_mutex) : Type := {
  mutex_free : Z -> mem -> Prop;
  mutex_held : Z -> mem -> Prop;
  law_lock t self wq m :
    mutex_free self m -> wp t (rm_lock R self wq) m (fun _ m' => mutex_held self m');
  law_try_lock t self m :
    mutex_free self m -> wp t (rm_try_lock R self) m (fun b m' => b = true /\ mutex_held self m');
  law_try_lock_held t self m :
    mutex_held self m -> wp t (rm_try_lock R self) m (fun b m' => b = false /\ m' = m);
  law_unlock t self m :
    mutex_held self m -> wp t (rm_unlock R self) m (fun _ m' => mutex_free self m');
}.

Section traits.
  Context `{DropCallbacks}.

(** [RawMutex::lock]. *)
Definition raw_mutex_lock (self wq : Z) : program unit :=
  Lock.lock_sync self wq ;;; Ret tt.

(** [RawMutex::try_lock]. *)
Definition raw_mutex_try_lock (self : Z) : program bool := Lock.try_lock self.

(** [RawMutex::unlock]. *)
Definition raw_mutex_unlock (self : Z) : program unit := Lock.release_lock self ;;; Ret tt.

(** [RawMutexFair::unlock_fair]. *)
Definition raw_mutex_unlock_fair (self : Z) : program unit := Lock.release_lock self ;;; Ret tt.

(** [RawRwLock::lock_shared]. *)
Definition raw_rwlock_lock_shared (self wq : Z) : program unit :=
  Lock.share_sync self wq ;;; Ret tt.

(** [RawRwLock::try_lock_shared]. *)
Definition raw_rwlock_try_lock_shared (self : Z) : program bool := Lock.try_share self.

(** [RawRwLock::unlock_shared]. *)
Definition raw_rwlock_unlock_shared (self : Z) : program unit :=
  Lock.release_share self ;;; Ret tt.

(** [RawRwLock::lock_exclusive]. *)
Definition raw_rwlock_lock_exclusive (self wq : Z) : program unit :=
  Lock.lock_sync self wq ;;; Ret tt.

(** [RawRwLock::try_lock_exclusive]. *)
Definition raw_rwlock_try_lock_exclusive (self : Z) : program bool := Lock.try_lock self.

(** [RawRwLock::unlock_exclusive]. *)
Definition raw_rwlock_unlock_exclusive (self : Z) : program unit :=
  Lock.release_lock self ;;; Ret tt.

(** [RawRwLockFair::unlock_shared_fair]. *)
Definition raw_rwlock_unlock_shared_fair (self : Z) : program unit :=
  Lock.release_share self ;;; Ret tt.

(** [RawRwLockFair::unlock_exclusive_fair]. *)
Definition raw_rwlock_unlock_exclusive_fair (self : Z) : program unit :=
  Lock.release_lock self ;;; Ret tt.

(** [lock_async], on the raw lock of the mutex. *)
Definition lock_async (mutex wq : Z) (cx : Waker) : program unit :=
  Lock.lock_async mutex wq cx ;;; Ret tt.

(** [read_async], on the raw lock of the reader-writer lock. *)
Definition read_async (rwlock wq : Z) (cx : Waker) : program unit :=
  Lock.share_async rwlock wq cx ;;; Ret tt.

(** [write_async], on the raw lock of the reader-writer lock. *)
Definition write_async (rwlock wq : Z) (cx : Waker) : program unit :=
  Lock.lock_async rwlock wq cx ;;; Ret tt.

(** [impl RawMutex for Lock]. *)
Definition Lock_raw_mutex : raw_mutex :=
  {| rm_lock := raw_mutex_lock; rm_try_lock := raw_mutex_try_lock;
     rm_unlock := raw_mutex_unlock |}.

End traits.

(** A critical section under a raw mutex, as a scoped guard delimits it. *)
Definition guarded {A} (R : raw_mutex) (self wq : Z) (body : program A) : program A :=
  rm_lock R self wq ;;;
  a <- body ;;
  rm_unlock R self ;;;
  Ret a.

(** Clients are verified against the interface. *)
Lemma wp_guarded {A} (R : raw_mutex) `{RawMutexLaws R} t self wq (body : program A) m
    (Q : A -> mem -> Prop) :
  mutex_free self m ->
  (forall m1, mutex_held self m1 -> wp t body m1 (fun a m2 =>
     mutex_held self m2 /\ forall m3, mutex_free self m3 -> Q a m3)) ->
  wp t (guarded R self wq body) m Q.
Proof.
  intros Hf Hb. apply wp_bind. eapply wp_mono; [by apply law_lock|]. intros [] m1 Hm1.
  apply wp_bind. eapply wp_mono; [by apply Hb|]. intros a m2 [Hm2 HQ].
  apply wp_bind. eapply wp_mono; [by apply law_unlock|]. intros [] m3 Hm3. by apply wp_ret, HQ.
Qed.
