(* ===== verification/LockApiSpec.v ===== *)
(** * The [lock_api] traits: correctness

    [Lock] obeys the laws of a raw mutex as long as it is not poisoned, and
    does not when it is. *)

From S2P Require Import Prelude Prog Word Opcode Memory WaitQueue.
From S2P Require Import Geometry Results Queue SyncPrimitive Grant Enqueue Release Blocking Scenario LockFacts Crate LockApi.
From S2P Require Lock.

(** A lock nobody waits for obeys the laws. *)
#[global] Program Instance Lock_raw_mutex_laws : RawMutexLaws Lock_raw_mutex := {|
  mutex_free self m := words m !! self = Some Lock.new;
  mutex_held self m := words m !! self = Some DATA_MASK;
|}.
Next Obligation.
  intros t self wq m Hw. cbn beta in *. apply wp_bind, wp_loop, wp_bind.
  eapply wp_try_lock_internal_spin; [done|intros _|intros E; vm_compute in E; done|intros E; by destruct E].
  apply wp_ret, wp_ret. apply lookup_insert_eq.
Qed.
Next Obligation.
  intros t self m Hw. cbn beta in *. apply wp_bind. eapply wp_load; [done|]. apply wp_bind.
  eapply wp_try_lock_internal; [done|intros _|intros E; vm_compute in E; done|intros E; by destruct E].
  apply wp_ret. split; [done|]. apply lookup_insert_eq.
Qed.
Next Obligation.
  intros t self m Hw. cbn beta in *. apply wp_bind. eapply wp_load; [done|]. apply wp_bind.
  eapply wp_try_lock_internal; [done|intros E; vm_compute in E; done|intros E; vm_compute in E; done|].
  intros _ _. by apply wp_ret.
Qed.
Next Obligation.
  intros t self m Hw. cbn beta in *. apply wp_bind, wp_bind, wp_compare_exchange_ok; [done|].
  apply wp_ret, wp_ret. apply lookup_insert_eq.
Qed.

(** C40. The [lock_api] traits are blind to poison: on a poisoned lock every
    method that is to return with the lock held returns without waiting and
    without holding it, the state word being unchanged. *)
Theorem lock_api_misses_poison t self wq cx m :
  words m !! self = Some Lock.POISONED_STATE ->
  Forall (fun p => wp t p m (fun _ m' => words m' !! self = Some Lock.POISONED_STATE))
    [raw_mutex_lock self wq; raw_rwlock_lock_exclusive self wq; raw_rwlock_lock_shared self wq;
     lock_async self wq cx; write_async self wq cx; read_async self wq cx].
Proof.
  intros Hw. change Lock.POISONED_STATE with 64 in *.
  assert (forall (Q : Z * Z -> mem -> Prop), (forall m', words m' = words m -> Q (Lock.POISONED, 64) m') ->
    wp t (Lock.try_lock_internal_spin self) m Q /\ wp t (Lock.try_share_internal_spin self) m Q)
    as Hatt.
  { intros Q HQ. split.
    - eapply wp_try_lock_internal_spin; [done|done|intros _; by apply HQ|done].
    - eapply wp_try_share_internal_spin; [done|done|intros wk _; by apply HQ|done]. }
  repeat (apply list.Forall_cons; split); [..|done]; apply wp_bind, wp_loop, wp_bind;
    apply Hatt; intros m' E; apply wp_ret, wp_ret; by rewrite E.
Qed.

Lemma lock_api_misses_poison_witness :
  Forall (fun p => wp 0%nat p (nobody_waits 64) (fun _ m' => words m' !! primitive = Some 64))
    [raw_mutex_lock primitive wq1; raw_rwlock_lock_exclusive primitive wq1;
     raw_rwlock_lock_shared primitive wq1; lock_async primitive wq1 3%nat;
     write_async primitive wq1 3%nat; read_async primitive wq1 3%nat].
Proof. apply (lock_api_misses_poison 0%nat primitive wq1 3%nat (nobody_waits 64)). reflexivity. Defined.
